(* ===== verification/_CoqProject ===== *)
-Q . S2P
Prelude.v
Types.v
CppString.v
Kernel.v
RefKernel.v
Progress.v
Extend.v
PipeIO.v
Pipe.v
InvalidOnce.v
Backtrace.v
Process.v
ChildProcess.v
Hierarchy.v
SharedChild.v
Fork.v
ForkProps.v
ForkRoom.v
ForkEnds.v
ForkFrame.v
Transport.v
VforkProps.v
Environment.v
EnvSpec.v
EnvThreads.v
Exec.v
ExecEnv.v
EnvInherit.v
Lifecycle.v
Procfs.v
SignalTrap.v
TrapFork.v
TrapProtocol.v
TrapInterface.v
DeathObserver.v
OwningObserver.v
CreateOnce.v
Observing.v
ObserverInterface.v
DeathProtocol.v
DeathSpec.v
ForkAndRun.v
TestVerdict.v
CrossProcessSync.v
SyncProtocol.v
SyncProcesses.v
