(* ===== verification/Prelude.v ===== *)
(** * process-cpp: a verification development

    process-cpp is a C++11 library around the process interface of POSIX: it forks
    and executes child processes with redirected standard streams, waits for and
    signals processes, traps signals synchronously, reports the death of children,
    reads and writes the environment and some files under /proc, prints backtraces
    and helps tests that consist of several processes.

    ** How the parts interact

    [fork]/[vfork] ([src/core/posix/fork.cpp]) create up to three [Pipe]s and make
    the kernel fork; the child redirects its streams, runs [main] and ends the
    process, printing a backtrace when something throws; the parent puts the other
    ends into a [ChildProcess], which closes them when its last copy dies.  [exec]
    is a [fork] whose [main] calls execve.  A [ChildProcess] is a [Process], which
    is a [Signalable]; [wait_for] decodes the status word of waitpid.  The
    [DeathObserver] keeps copies of [ChildProcess] objects and, told by a
    [SignalTrap] that SIGCHLD was raised, reaps and announces the dead ones.
    [fork_and_run] and [CrossProcessSync] are built on [fork], [wait_for], signals
    and pipes.

    ** Files

    - [Prelude] (this file): exceptions, the state and error monad [M], fixed width
      integers, the tactics and the hint databases, lemmas on lists and maps.
    - [Types]: the enumerations [StandardStream], [Signal], [exit::Status],
      [wait::Flags], [wait::Result] with the decoding of a status word
      ([include/core/posix/*.h], [src/core/posix/standard_stream.cpp], [wait.cpp]).
    - [CppString]: the part of the string and stream library the sources use.
    - [Kernel]: the system calls as classes ([FdKernel], [ForkKernel],
      [ProcKernel], [ExecKernel]) with their documented behaviour as laws;
      [RefKernel]: an executable kernel [Ref] for which all laws are proved;
      [Extend]: a kernel inside a larger state; [PipeIO]: the bytes in pipes and the
      switch between processes that share them.
    - [Progress]: liveness under every schedule, as a bound on the steps of one thread.
    - [Pipe]: [ChildProcess::Pipe] of [src/core/posix/child_process.cpp] and the
      ownership discipline for descriptors; [InvalidOnce]: [Pipe::invalid()] called from
      several threads.
    - [Backtrace]: the interface of [src/core/posix/backtrace.h], its implementation in
      [backtrace.cpp], and [print_backtrace] of [fork.cpp].
    - [Process]: [signalable.cpp], [process_group.cpp], [process.cpp]; [Hierarchy]: the
      virtual functions of [signalable.h], [process_group.h], [process.h] as interfaces.
    - [ChildProcess]: the class of [child_process.cpp], lines 273-397; [SharedChild]: its
      copies, which share one [Private] through a [std::shared_ptr].
    - [Fork]: [fork.cpp]; [ForkProps], [VforkProps]: the theorems about it; [ForkRoom]: what
      [fork] connects and how many free descriptors that takes; [ForkEnds]:
      which ends of the pipes are open where, and when the streams end; [ForkFrame]: what
      the function leaves alone; [Transport]: bytes between parent and child.
    - [Environment]: the namespace [env] of [this_process.cpp]; [EnvSpec]: a finite map
      as its specification; [EnvThreads]: the accessors called from several threads.
    - [Exec]: [exec.cpp]; [ExecEnv]: what the started program finds in its environment;
      [EnvInherit]: passing the caller's environment on.
    - [Lifecycle]: the composition of [fork], [exec], [exit] and [wait_for].
    - [Procfs]: [src/core/posix/linux/proc/process/*.cpp].
    - [SignalTrap]: [src/core/posix/signal.cpp]; [TrapProtocol]: the thread in [run]
      step by step, against raised signals and stop requests; [TrapInterface]: the
      abstract class [SignalTrap] of [include/core/posix/signal.h] and its promises;
      [TrapFork]: the signal mask of children.
    - [DeathObserver]: [child_process.cpp], lines 38-185; [OwningObserver]: its map as an
      owner of the [ChildProcess] objects next to the client; [Observing]: the observer
      connected to any trap, and its subscribers; [ObserverInterface]: the abstract
      class [DeathObserver] of [child_process.h], its promises and a client;
      [CreateOnce]: the creation of the single instance from several threads;
      [DeathProtocol]: its operations as steps of a system with client threads, dying
      children and the thread of the trap; [DeathSpec]: the abstract service that this
      system refines, and that a death is announced.
    - [ForkAndRun], [CrossProcessSync]: [src/core/testing/*.cpp] and the TESTP
      macros of [include/core/testing/fork_and_run.h]; [TestVerdict]: what their verdicts
      say about the code that ran; [SyncProtocol]: programs over [CrossProcessSync] objects;
      [SyncProcesses]: several processes that share one.

    ** Conventions

    An operation that can throw or changes state is a [M S A], a function from the
    state to an [outcome] and the new state: it returns ([Ok]), throws an [exn] or
    runs into [Undefined], which stands for undefined behaviour and for calls of
    std::terminate.  The state is kept when an operation throws, as in C++; scope
    exit and unwinding are explicit calls of the destructors.  Objects that live on
    the stack of [fork] and the static [Pipe::invalid()] are part of the state
    ([Fork.frame], [Pipe.env]).  The integers of the sources are [Z], reduced modulo
    their width where the code computes with them or converts them.

    The kernel, the C library calls that change the environment, the files under
    /proc, the demangler and the stack walk are not part of the repository.  They
    are parameters: classes of operations with a state type, and law classes that
    state what the manual pages say.  Operations mention only the former; theorems
    use the latter.  Each class has a concrete instance ([Ref], [RefEnv], [RefSig],
    [RefSync], ...) for which the laws are proved, and the witnesses run on it.

    The abstract classes [SignalTrap] and [DeathObserver] of the headers are classes too
    ([SignalTrapI], [DeathObserverI]), and so are the virtual functions of [Signalable],
    [ProcessGroup] and [Process], with what the headers and the callers rely on as
    laws: the observer is proved against the interface of the trap, its client against
    the interface of the observer, code that signals groups against [ProcessI], and the
    implementations discharge them.  [Frame] and its
    [Symbol] are classes without laws ([FrameI], [SymbolI]), against which [print_backtrace]
    is written.

    Some assumptions are built into the models and stated with the theorems.  In
    [DeathProtocol] a new child never has the pid of an earlier one; clients may add a child as
    often as they like, and children may be in, or move to, any process group (those outside the
    observer's are never reaped, and the theorems say so).  In [TrapProtocol] the trapped
    signals are blocked in every thread, one thread is in [run], and a signalfd that cannot be
    opened, a failing read of it and a throwing slot, which [SignalTrap] describes, are not steps.
    The streams of [fork] are complete when there is room for eight more descriptors
    ([RoomLaws]: pipe and dup fail only at the limit).  The verdicts in [TestVerdict] are about
    code that ends its process by returning or throwing ([true_to]); the environment that
    [ExecEnv] follows through execve is one that C strings can carry ([portable]).  Threads are interleaved at the operations on shared state; the order in which
    other threads see plain memory does not matter there, since it is only touched under a
    mutex, a guard or a [once_flag].

    ** What is shown

    - Descriptors: over any sequence of operations on [Pipe] objects, and over every
      path of [fork], the destruction of a [ChildProcess], [fork_and_run] and TESTP,
      the descriptor table is the initial one plus exactly what the live objects
      hold: nothing leaks and nothing is closed twice, whichever call fails.  The same
      holds of programs over [CrossProcessSync] objects and over copies of [ChildProcess]
      objects, whose shared part is destroyed exactly once, with its last copy; and of
      [Pipe::invalid()] under every interleaving of its first calls.
    - Redirection: the descriptors of parent and child are the two ends of one pipe,
      in the right direction, for exactly the streams asked for, and nothing of this can be
      missing, and the child reaches [main], when eight more descriptors can be had; each process has only its
      own end, so that the child sees end of file when the object is destroyed and the
      parent when the child is gone (a second child, however, keeps the first one's input
      open); what the one side writes is what the other side reads, stream by stream and
      under every interleaving of their calls, until the ends are closed; the child never
      returns into its caller, and how it ends is read off what [main], called in the
      environment the child then has, does; after [vfork] the streams are lost.
    - [exec] stays within its arrays and passes the arguments and variables it was
      given, which the started program finds unchanged with the accessors of [env], or no
      program was started; an environment collected with [for_each] arrives as it was; what the
      caller is and is not told about a failing execve.
    - [wait_for] reports exactly what waitpid returned and its results are well formed; what
      [main] returns in the child is what the parent is told, with any wait flags; signals go where the object
      says, and where [invalid()] objects send them; what the destructor kills.
    - [SignalTrap.run] emits exactly the trapped signals read, in order; mask and
      descriptor lifecycle; the effect of an exception; the race on its state.  Over all
      interleavings with other threads: every trapped signal raised is answered, none is
      made up, a stop request ends the loop within 16 steps of its thread, and every
      session of the concurrent trap is a run of the sequential definition on the script of
      that session's polls.  Children
      inherit the blocked signals.
    - [DeathObserver]: the behaviour of [add] and of the reaping loop, which
      terminates; in no interleaving is a child announced while alive or more often than it
      was added (adding an announced child again announces it again), or is a death in the
      observer's process group lost; the system refines the abstract service, and the death of
      an added child in that group is announced after at most 2n+3 steps of the trap's thread
      (n children).  Composed with any trap that keeps its promises, every child of the group
      that is dead at the start of a stopped run is reaped, and announced if it is registered.  However many threads race to create the observer, there is at most
      one.  Subscribers that throw or call back into the observer.  Client and observer
      share the ownership of the children: nobody is killed while one of them has a copy,
      and erasing the last copy kills whoever has the pid of the reaped child.
    - The environment accessors refine a finite map, also when several threads call them
      (linearizability).  A passing [TESTP] test has run to its end without a failure; the
      bits of [fork_and_run] are what the waits reported, which is what the closures did.  /proc parsers, backtrace, test
      helpers: the functional behaviour of every operation, errors included, and the
      round trips; [CrossProcessSync] conserves its signals, in
      one process and between several, step by step.

    ** Fuel and bounds

    [DeathObserver.on_sig_child] takes fuel for its unbounded loop; every iteration
    reaps one child, so fuel greater than the number of children is enough, and the
    theorem about it proves that it then returns.  [SignalTrap.run] consumes a script
    of what poll and read report; a script that ends before the stop request is the
    thread being blocked.  Printing a number takes as many steps as it has binary
    digits, more than it has decimal ones.  Everything else is structural.

    ** Not modelled

    The buffering of the iostreams over pipe descriptors (a stream is its
    descriptor), exhaustion of memory, [core::Signal]/[core::Connection] (another
    repository: the connected slots are a parameter), symbol visibility, the build
    files and the tests of the library.  A slot of the death observer is not run
    concurrently with the operations of another observer, since there is only one.
    SIGPIPE, raised by a write to a pipe that nobody can read, is not modelled: the
    theorems about a write say what holds when the call comes back.

    The headers [exec.h], [fork.h] and [this_process.h] only declare what the files named
    above model; most of the lines of the [oom_*.h] headers are comments.  In [Transport]
    the child uses the standard descriptors only, not the copies of the pipe ends it also
    has, and both sides use [read], [write] and [close] (the stream buffers come down to
    these).  In [OwningObserver] the calls run one after the other, the interleaving of
    calls being the subject of [DeathProtocol].  Several traps in one process, which
    would compete for the same pending signals, and signals that end a child in the middle
    of [main] are left out: the sources have no code for either.
*)

From Stdlib Require Export ZArith Lia.
From stdpp Require Export base tactics gmap strings fin_maps option.
From stdpp Require Export list list_relations list_misc.

#[export] Set Default Goal Selector "!".
Open Scope Z_scope.

(** ** C++ exceptions and outcomes *)

(** The exceptions the library throws.  [SystemError e] is
    [std::system_error(e, std::system_category())], [RuntimeError]/[LogicError]
    are the standard classes with their [what()], [Timeout] is
    [CrossProcessSync::Error::Timeout] and [Foreign] stands for a thrown value
    that does not derive from [std::exception] (user code only). *)
Inductive exn : Type :=
| SystemError (code : Z)
| RuntimeError (what : string)
| LogicError (what : string)
| OutOfRange
| Timeout
| Foreign (tag : Z).

#[export] Instance exn_eq_dec : EqDecision exn.
Proof. solve_decision. Defined.

(** [is_std_exception e] tells whether [catch (const std::exception&)] catches [e]. *)
Definition is_std_exception (e : exn) : bool :=
  match e with Foreign _ => false | _ => true end.

(** A computation returns, throws, or runs into undefined behaviour (or into
    std::terminate, when an exception leaves a noexcept function). *)
Inductive outcome (A : Type) : Type :=
| Ok (a : A)
| Throw (e : exn)
| Undefined.
Arguments Ok {A} a.
Arguments Throw {A} e.
Arguments Undefined {A}.

#[export] Instance outcome_eq_dec `{EqDecision A} : EqDecision (outcome A).
Proof. solve_decision. Defined.

Definition is_ok {A} (o : outcome A) : bool :=
  match o with Ok _ => true | _ => false end.

(** ** The state-and-exception monad *)

(** [M S A]: a C++ function body over the mutable state [S]. *)
Definition M (S A : Type) : Type := S → outcome A * S.

#[export] Instance M_ret {S} : MRet (M S) := λ A a s, (Ok a, s).
#[export] Instance M_bind {S} : MBind (M S) := λ A B f m s,
  match m s with
  | (Ok a, s') => f a s'
  | (Throw e, s') => (Throw e, s')
  | (Undefined, s') => (Undefined, s')
  end.

Definition throw {S A} (e : exn) : M S A := λ s, (Throw e, s).
Definition undefined {S A} : M S A := λ s, (Undefined, s).
Definition get {S} : M S S := λ s, (Ok s, s).
Definition put {S} (s : S) : M S unit := λ _, (Ok tt, s).
Definition gets {S A} (f : S → A) : M S A := λ s, (Ok (f s), s).
Definition modify {S} (f : S → S) : M S unit := λ s, (Ok tt, f s).

(** A call that cannot throw (a system call, a [noexcept] function). *)
Definition call {S A} (f : S → A * S) : M S A := λ s, let '(a, s') := f s in (Ok a, s').

(** [if (c) throw e;] *)
Definition throw_if {S} (c : bool) (e : exn) : M S unit :=
  if c then throw e else mret tt.

(** [try { m } catch (...) { h }] *)
Definition try_catch {S A} (m : M S A) (h : exn → M S A) : M S A := λ s,
  match m s with
  | (Throw e, s') => h e s'
  | r => r
  end.

(** Scope exit: [d] runs whether [m] returned or threw (destructors of locals). *)
Definition finally {S A} (m : M S A) (d : S → S) : M S A := λ s,
  match m s with
  | (Undefined, s') => (Undefined, s')
  | (r, s') => (r, d s')
  end.

(** Stack unwinding: [d] runs only when [m] throws. *)
Definition on_throw {S A} (m : M S A) (d : S → S) : M S A := λ s,
  match m s with
  | (Throw e, s') => (Throw e, d s')
  | r => r
  end.

(** Running a computation on a part of the state. *)
Definition zoom {S T A} (proj : T → S) (inj : S → T → T) (m : M S A) : M T A := λ t,
  let '(r, s) := m (proj t) in (r, inj s t).

Section monad_laws.
Context {S : Type}.

Lemma M_bind_ret {A B} (a : A) (f : A → M S B) s : (mret a ≫= f) s = f a s.
Proof. reflexivity. Qed.

Lemma M_ret_bind {A} (m : M S A) s : (m ≫= mret) s = m s.
Proof. unfold mbind, M_bind. destruct (m s) as [[]]; reflexivity. Qed.

Lemma M_bind_assoc {A B C} (m : M S A) (f : A → M S B) (g : B → M S C) s :
  ((m ≫= f) ≫= g) s = (m ≫= λ a, f a ≫= g) s.
Proof. unfold mbind, M_bind. destruct (m s) as [[]]; reflexivity. Qed.

Lemma M_bind_Ok {A B} (m : M S A) (f : A → M S B) s b s' :
  (m ≫= f) s = (Ok b, s') → ∃ a s1, m s = (Ok a, s1) ∧ f a s1 = (Ok b, s').
Proof. unfold mbind, M_bind. destruct (m s) as [[]]; naive_solver. Qed.

Lemma M_bind_Throw {A B} (m : M S A) (f : A → M S B) s e s' :
  (m ≫= f) s = (Throw e, s') →
  m s = (Throw e, s') ∨ ∃ a s1, m s = (Ok a, s1) ∧ f a s1 = (Throw e, s').
Proof. unfold mbind, M_bind. destruct (m s) as [[]]; naive_solver. Qed.
End monad_laws.

(** ** Invariants of computations *)

(** [preserves I m]: [m] keeps [I], whether it returns, throws or is undefined. *)
Definition preserves {S A} (I : S → Prop) (m : M S A) : Prop := ∀ s, I s → I (m s).2.

Create HintDb preserves discriminated.

Section preserves.
Context {S : Type} (I : S → Prop).

Lemma preserves_ret {A} (a : A) : preserves I (mret a).
Proof. by intros s. Qed.

Lemma preserves_throw {A} e : preserves I (throw (A := A) e).
Proof. by intros s. Qed.

Lemma preserves_undefined {A} : preserves I (undefined (A := A)).
Proof. by intros s. Qed.

Lemma preserves_gets {A} (f : S → A) : preserves I (gets f).
Proof. by intros s. Qed.

Lemma preserves_modify f : (∀ s, I s → I (f s)) → preserves I (modify f).
Proof. intros H s. apply H. Qed.

Lemma preserves_bind {A B} (m : M S A) (f : A → M S B) :
  preserves I m → (∀ a, preserves I (f a)) → preserves I (m ≫= f).
Proof.
  intros Hm Hf s Hs. specialize (Hm s Hs). unfold mbind, M_bind.
  destruct (m s) as [[a| |] s']; simpl in *; [by apply Hf|done..].
Qed.

Lemma preserves_try {A} (m : M S A) h :
  preserves I m → (∀ e, preserves I (h e)) → preserves I (try_catch m h).
Proof.
  intros Hm Hh s Hs. specialize (Hm s Hs). unfold try_catch.
  destruct (m s) as [[a| |] s']; simpl in *; [done|by apply Hh|done].
Qed.

Lemma preserves_if {A} (b : bool) (m1 m2 : M S A) :
  preserves I m1 → preserves I m2 → preserves I (if b then m1 else m2).
Proof. by destruct b. Qed.
End preserves.

#[export] Hint Resolve preserves_ret preserves_throw preserves_undefined preserves_gets
  preserves_bind preserves_try preserves_if : preserves.

(** [defined m]: [m] never runs into undefined behaviour. *)
Definition defined {S A} (m : M S A) : Prop := ∀ s, (m s).1 ≠ Undefined.

Lemma defined_ret {S A} (a : A) : defined (mret a : M S A).
Proof. done. Qed.

Lemma defined_bind {S A B} (m : M S A) (f : A → M S B) :
  defined m → (∀ a, defined (f a)) → defined (m ≫= f).
Proof.
  intros Hm Hf s. specialize (Hm s). unfold mbind, M_bind.
  destruct (m s) as [[a| |] s']; simpl in *; [apply Hf|done..].
Qed.

Create HintDb defined discriminated.
#[export] Hint Resolve defined_ret defined_bind : defined.

(** ** Machine integers *)

(** Unsigned wrap-around at [w] bits, and the two's complement reading. *)
Definition uwrap (w z : Z) : Z := z mod 2 ^ w.
Definition swrap (w z : Z) : Z := (z + 2 ^ (w - 1)) mod 2 ^ w - 2 ^ (w - 1).

Abbreviation u8 := (uwrap 8).
Abbreviation u32 := (uwrap 32).
Abbreviation u64 := (uwrap 64).
Abbreviation i32 := (swrap 32).

Lemma uwrap_small w z : 0 ≤ z < 2 ^ w → uwrap w z = z.
Proof. apply Z.mod_small. Qed.

Lemma uwrap_range w z : 0 ≤ w → 0 ≤ uwrap w z < 2 ^ w.
Proof. intros. apply Z.mod_pos_bound, Z.pow_pos_nonneg; lia. Qed.

Lemma swrap_small w z : 0 < w → - 2 ^ (w - 1) ≤ z < 2 ^ (w - 1) → swrap w z = z.
Proof.
  intros Hw Hz. unfold swrap.
  assert (2 ^ w = 2 * 2 ^ (w - 1)) as ->.
  { rewrite <- Z.pow_succ_r by lia. f_equal. lia. }
  rewrite Z.mod_small by lia. lia.
Qed.

Lemma swrap_range w z : 0 < w → - 2 ^ (w - 1) ≤ swrap w z < 2 ^ (w - 1).
Proof.
  intros Hw. unfold swrap.
  pose proof (Z.mod_pos_bound (z + 2 ^ (w - 1)) (2 ^ w) ltac:(apply Z.pow_pos_nonneg; lia)).
  assert (2 ^ w = 2 * 2 ^ (w - 1)).
  { rewrite <- Z.pow_succ_r by lia. f_equal. lia. }
  lia.
Qed.

Lemma uwrap_add w a b : uwrap w (uwrap w a + b) = uwrap w (a + b).
Proof. apply Zplus_mod_idemp_l. Qed.

(** ** Automation *)

Create HintDb posix discriminated.

(** [peel H]: takes apart a successful run of a monadic body, one call at a time. *)
Ltac peel_step H :=
  match type of H with
  | (_ ≫= _) _ = (Ok _, _) =>
      let a := fresh "a" in let s := fresh "s" in let E := fresh "E" in
      apply M_bind_Ok in H as (a & s & E & H)
  | (match ?x with _ => _ end) _ = (Ok _, _) => let E := fresh "E" in destruct x eqn:E
  | (match ?x with _ => _ end) = (Ok _, _) => let E := fresh "E" in destruct x eqn:E
  end; try discriminate.
Ltac peel H := repeat (progress (repeat peel_step H)).

(** [split_and_eauto]: conjunctions closed by the component's hints. *)
Ltac csolve := repeat split; eauto with posix; try lia; try done.

(** Closes a decidable proposition about concrete data by evaluating its decision. *)
Ltac by_decision := apply (bool_decide_unpack _); vm_compute; exact I.

(** Reduces the integer tests of the code to their propositions. *)
Ltac case_Zeqb_as E :=
  match goal with
  | |- context [Z.eqb ?a ?b] => destruct (Z.eqb_spec a b) as [E|E]
  | H : context [Z.eqb ?a ?b] |- _ => destruct (Z.eqb_spec a b) as [E|E]
  end.
Tactic Notation "case_Zeqb" "as" ident(E) := case_Zeqb_as E.
Tactic Notation "case_Zeqb" := let HZ := fresh "HZ" in case_Zeqb_as HZ.

(** ** Generic lemmas *)

Lemma Permutation_app_swap3 {A} (a b c l : list A) :
  a ++ b ++ c ++ l ≡ₚ c ++ b ++ a ++ l.
Proof.
  rewrite (Permutation_app_swap_app b c), (Permutation_app_swap_app a c).
  by rewrite (Permutation_app_swap_app a b).
Qed.

(** Without duplicates among the elements satisfying [P], such an element has one position. *)
Lemma NoDup_filter_inj {A} (P : A → Prop) `{∀ x, Decision (P x)} (l : list A) i j x :
  NoDup (filter P l) → P x → l !! i = Some x → l !! j = Some x → i = j.
Proof.
  intros Hd HP. revert i j. induction l as [|y l IH]; intros i j Hi Hj; [done|].
  rewrite filter_cons in Hd.
  assert (∀ k : nat, l !! k = Some x → x ∈ filter P l) as Hin.
  { intros k Hk. apply list_elem_of_filter. split; [done|]. by eapply list_elem_of_lookup_2. }
  destruct i as [|i], j as [|j]; simpl in *; [done|..].
  - injection Hi as ->. rewrite decide_True in Hd by done. apply NoDup_cons in Hd as [Hn _]. naive_solver.
  - injection Hj as ->. rewrite decide_True in Hd by done. apply NoDup_cons in Hd as [Hn _]. naive_solver.
  - f_equal. apply IH; [|done..]. case_decide; [by apply NoDup_cons in Hd as [_ ?]|done].
Qed.

(** A finite case analysis on a bounded integer, discharged by computation. *)
Lemma forall_Z_below (n : Z) (P : Z → bool) :
  forallb P (seqZ 0 n) = true → ∀ z, 0 ≤ z < n → P z = true.
Proof.
  intros H z Hz. rewrite forallb_forall in H. apply H.
  apply list_elem_of_In, elem_of_seqZ. lia.
Qed.

