(* ===== verification/Types.v ===== *)
(** * Enumerations of the public interface

    [core/posix/standard_stream.{h,cpp}], [core/posix/signal.h] (the [Signal]
    enum), [core/posix/exit.h], [core/posix/wait.{h,cpp}] and the flags of
    [core/testing/fork_and_run.{h,cpp}].  A C++ enumeration with a fixed
    underlying type holds every value of that type ([static_cast] does not
    check), so each is modelled as an integer with its named enumerators. *)

From S2P Require Import Prelude.

(** ** core::posix::StandardStream *)

Module StandardStream.

(** [enum class StandardStream : std::uint8_t] *)
Definition t : Type := Z.
Definition empty : t := 0.
Definition stdin : t := Z.shiftl 1 0.
Definition stdout : t := Z.shiftl 1 1.
Definition stderr : t := Z.shiftl 1 2.

Definition lor (l r : t) : t := u8 (Z.lor (u8 l) (u8 r)).
Definition land (l r : t) : t := u8 (Z.land (u8 l) (u8 r)).

(** The test [(flags & s) != StandardStream::empty] of [fork] and [vfork]. *)
Definition requested (flags s : t) : bool := negb (land flags s =? empty).

Definition wf (f : t) : Prop := 0 ≤ f < 2 ^ 8.

End StandardStream.

(** ** core::posix::Signal *)

Module Signal.

(** [enum class Signal], underlying type [int]; the numbers are Linux's. *)
Definition t : Type := Z.
Definition unknown : t := 0.
Definition sig_hup : t := 1.
Definition sig_int : t := 2.
Definition sig_quit : t := 3.
Definition sig_ill : t := 4.
Definition sig_abrt : t := 6.
Definition sig_fpe : t := 8.
Definition sig_kill : t := 9.
Definition sig_segv : t := 11.
Definition sig_pipe : t := 13.
Definition sig_alrm : t := 14.
Definition sig_term : t := 15.
Definition sig_usr1 : t := 10.
Definition sig_usr2 : t := 12.
Definition sig_chld : t := 17.
Definition sig_cont : t := 18.
Definition sig_stop : t := 19.
Definition sig_tstp : t := 20.
Definition sig_ttin : t := 21.
Definition sig_ttou : t := 22.

(** The enumerators, in the order of the declaration. *)
Definition enumerators : list t :=
  [unknown; sig_hup; sig_int; sig_quit; sig_ill; sig_abrt; sig_fpe; sig_kill;
   sig_segv; sig_pipe; sig_alrm; sig_term; sig_usr1; sig_usr2; sig_chld;
   sig_cont; sig_stop; sig_tstp; sig_ttin; sig_ttou].

End Signal.

(** ** core::posix::exit::Status *)

Module Exit.

(** [enum class Status], underlying type [int]. *)
Definition Status : Type := Z.
Definition success : Status := 0.
Definition failure : Status := 1.

End Exit.

(** ** core::posix::wait *)

Module Wait.

(** [enum class Flags : std::uint8_t] *)
Definition Flags : Type := Z.
Definition continued : Flags := 8.
Definition untraced : Flags := 2.
Definition no_hang : Flags := 1.

Definition lor (l r : Flags) : Flags := u8 (Z.lor (u8 l) (u8 r)).

(** [Result::Status] *)
Inductive Status : Type :=
| s_undefined
| s_no_state_change
| s_exited
| s_signaled
| s_stopped
| s_continued.

(** The union [Result::detail]; its active member, if one was written. *)
Inductive Detail : Type :=
| if_exited (status : Exit.Status)
| if_signaled (signal : Signal.t) (core_dumped : bool)
| if_stopped (signal : Signal.t).

(** [struct Result]; [status] is initialised, [detail] is not. *)
Record Result : Type := mkResult { status : Status; detail : option Detail }.

Definition default_Result : Result := mkResult s_undefined None.

(** The status macros of [sys/wait.h] on an [int]. *)
Definition WTERMSIG (s : Z) : Z := Z.land s 127.
Definition WEXITSTATUS (s : Z) : Z := Z.shiftr (Z.land s 65280) 8.
Definition WSTOPSIG (s : Z) : Z := WEXITSTATUS s.
Definition WIFEXITED (s : Z) : bool := WTERMSIG s =? 0.
Definition WIFSIGNALED (s : Z) : bool := Z.shiftr (swrap 8 (Z.land s 127 + 1)) 1 >? 0.
Definition WIFSTOPPED (s : Z) : bool := Z.land s 255 =? 127.
Definition WIFCONTINUED (s : Z) : bool := s =? 65535.
Definition WCOREDUMP (s : Z) : bool := negb (Z.land s 128 =? 0).

(** What [ChildProcess::wait_for] makes of a status word once the child changed state. *)
Definition decode (s : Z) : Result :=
  if WIFEXITED s then mkResult s_exited (Some (if_exited (WEXITSTATUS s)))
  else if WIFSIGNALED s then mkResult s_signaled (Some (if_signaled (WTERMSIG s) (WCOREDUMP s)))
  else if WIFSTOPPED s then mkResult s_stopped (Some (if_stopped (WSTOPSIG s)))
  else if WIFCONTINUED s then mkResult s_continued None
  else default_Result.

#[global] Instance Status_eq_dec : EqDecision Status.
Proof. solve_decision. Defined.
#[global] Instance Detail_eq_dec : EqDecision Detail.
Proof. solve_decision. Defined.
#[global] Instance Result_eq_dec : EqDecision Result.
Proof. solve_decision. Defined.

(** The status word the kernel reports for each state change (wait(2), [_exit]'s
    [status & 0xff], the terminating signal with the core bit, ...). *)
Inductive change : Type :=
| Exited (code : Z)
| Signaled (sig : Z) (core : bool)
| Stopped (sig : Z)
| Continued.

#[global] Instance change_eq_dec : EqDecision change.
Proof. solve_decision. Defined.

Definition change_ok (c : change) : bool :=
  match c with
  | Exited code => (0 <=? code) && (code <? 256)
  | Signaled sig _ => (1 <=? sig) && (sig <? 127)
  | Stopped sig => (0 <=? sig) && (sig <? 256)
  | Continued => true
  end.

Definition encode (c : change) : Z :=
  match c with
  | Exited code => Z.shiftl code 8
  | Signaled sig core => Z.lor sig (if core then 128 else 0)
  | Stopped sig => Z.lor (Z.shiftl sig 8) 127
  | Continued => 65535
  end.

Definition result_of (c : change) : Result :=
  match c with
  | Exited code => mkResult s_exited (Some (if_exited code))
  | Signaled sig core => mkResult s_signaled (Some (if_signaled sig core))
  | Stopped sig => mkResult s_stopped (Some (if_stopped sig))
  | Continued => mkResult s_continued None
  end.

(** The active member of the union is the one the status calls for, with values in range. *)
Definition wf (r : Result) : bool :=
  match status r, detail r with
  | s_exited, Some (if_exited n) => (0 <=? n) && (n <? 256)
  | s_signaled, Some (if_signaled n _) => (1 <=? n) && (n <? 127)
  | s_stopped, Some (if_stopped n) => (0 <=? n) && (n <? 256)
  | s_continued, None | s_no_state_change, None | s_undefined, None => true
  | _, _ => false
  end.

(** The changes that end a process. *)
Definition terminal (s : Z) : bool := WIFSIGNALED s || WIFEXITED s.

End Wait.

(** ** core::testing::ForkAndRunResult *)

Module ForkAndRunResult.

(** [enum class ForkAndRunResult], underlying type [int]. *)
Definition t : Type := Z.
Definition empty : t := 0.
Definition client_failed : t := Z.shiftl 1 0.
Definition service_failed : t := Z.shiftl 1 1.

(** The operands go through [static_cast<unsigned int>] and back. *)
Definition lor (lhs rhs : t) : t := i32 (Z.lor (u32 lhs) (u32 rhs)).
Definition land (lhs rhs : t) : t := i32 (Z.land (u32 lhs) (u32 rhs)).

(** [(result & flag) != empty], the way the library's clients read the result. *)
Definition reports (result flag : t) : bool := negb (land result flag =? empty).

End ForkAndRunResult.

(** ** Bit-level lemmas *)

Lemma decode_encode_exited : ∀ z, 0 ≤ z < 256 →
  bool_decide (Wait.decode (Wait.encode (Wait.Exited z)) = Wait.result_of (Wait.Exited z)) = true.
Proof. apply (forall_Z_below 256 (λ z, bool_decide _)). vm_compute. reflexivity. Qed.

Lemma decode_encode_signaled b : ∀ z, 0 ≤ z < 126 →
  bool_decide (Wait.decode (Wait.encode (Wait.Signaled (z + 1) b)) =
    Wait.result_of (Wait.Signaled (z + 1) b)) = true.
Proof. apply (forall_Z_below 126 (λ z, bool_decide _)). destruct b; vm_compute; reflexivity. Qed.

Lemma decode_encode_stopped : ∀ z, 0 ≤ z < 256 →
  bool_decide (Wait.decode (Wait.encode (Wait.Stopped z)) = Wait.result_of (Wait.Stopped z)) = true.
Proof. apply (forall_Z_below 256 (λ z, bool_decide _)). vm_compute. reflexivity. Qed.

Lemma decode_encode c :
  Wait.change_ok c = true → Wait.decode (Wait.encode c) = Wait.result_of c.
Proof.
  destruct c as [code|sig core|sig|]; simpl; intros H.
  - eapply bool_decide_eq_true, decode_encode_exited. lia.
  - pose proof (decode_encode_signaled core (sig - 1) ltac:(lia)) as E.
    apply bool_decide_eq_true in E. by rewrite Z.sub_add in E.
  - eapply bool_decide_eq_true, decode_encode_stopped. lia.
  - reflexivity.
Qed.

(** Only words that satisfy one of the two tests of the death observer end a child. *)
Lemma terminal_encode c :
  Wait.change_ok c = true →
  Wait.terminal (Wait.encode c) =
    match c with Wait.Exited _ | Wait.Signaled _ _ => true | _ => false end.
Proof.
  intros H. assert (E := decode_encode c H). unfold Wait.terminal. revert E.
  unfold Wait.decode.
  destruct (Wait.WIFEXITED _), (Wait.WIFSIGNALED _); rewrite ?orb_true_r; simpl;
    try (destruct (Wait.WIFSTOPPED _)); try (destruct (Wait.WIFCONTINUED _));
    destruct c; simpl; intros; try reflexivity; discriminate.
Qed.

Lemma WTERMSIG_range s : 0 ≤ Wait.WTERMSIG s < 128.
Proof. unfold Wait.WTERMSIG. change 127 with (Z.ones 7). rewrite Z.land_ones by lia. apply Z.mod_pos_bound. lia. Qed.

Lemma WEXITSTATUS_range s : 0 ≤ Wait.WEXITSTATUS s < 256.
Proof.
  unfold Wait.WEXITSTATUS. rewrite Z.shiftr_land. change (Z.shiftr 65280 8) with (Z.ones 8).
  rewrite Z.land_ones by lia. apply Z.mod_pos_bound. lia.
Qed.

(** The comparison in the macro is made on a signed char: 127, the mark of a stopped
    child, overflows it. *)
Lemma WIFSIGNALED_range s : Wait.WIFSIGNALED s = true → 1 ≤ Wait.WTERMSIG s < 127.
Proof.
  pose proof (WTERMSIG_range s) as Hr. unfold Wait.WIFSIGNALED. fold (Wait.WTERMSIG s).
  assert (∀ z, 0 ≤ z < 128 →
    implb (Z.shiftr (swrap 8 (z + 1)) 1 >? 0) ((1 <=? z) && (z <? 127)) = true) as Hall.
  { apply (forall_Z_below 128 (λ z, implb (Z.shiftr (swrap 8 (z + 1)) 1 >? 0) ((1 <=? z) && (z <? 127)))).
    vm_compute. reflexivity. }
  specialize (Hall _ Hr). intros Hs. rewrite Hs in Hall. simpl in Hall. lia.
Qed.

Lemma decode_wf s : Wait.wf (Wait.decode s) = true.
Proof.
  unfold Wait.decode, Wait.WSTOPSIG. pose proof (WEXITSTATUS_range s). pose proof (WIFSIGNALED_range s) as Hs.
  generalize dependent (Wait.WEXITSTATUS s). intros x Hx.
  destruct (Wait.WIFEXITED s); [unfold Wait.wf; cbn [Wait.status Wait.detail]; lia|].
  destruct (Wait.WIFSIGNALED s).
  - specialize (Hs eq_refl). unfold Wait.wf. cbn [Wait.status Wait.detail]. lia.
  - destruct (Wait.WIFSTOPPED s); [unfold Wait.wf; cbn [Wait.status Wait.detail]; lia|].
    by destruct (Wait.WIFCONTINUED s).
Qed.

(** A single-bit mask test reads that bit. *)
Lemma land_bit_eq0 (z : Z) (i : Z) :
  0 ≤ i → (Z.land z (2 ^ i) =? 0) = negb (Z.testbit z i).
Proof.
  intros Hi. destruct (Z.eqb_spec (Z.land z (2 ^ i)) 0) as [E|E].
  - apply (f_equal (λ x, Z.testbit x i)) in E.
    rewrite Z.land_spec, Z.pow2_bits_true, andb_true_r, Z.bits_0 in E by lia. by rewrite E.
  - destruct (Z.testbit z i) eqn:B; [reflexivity|]. exfalso. apply E.
    apply Z.bits_inj_0. intros k. rewrite Z.land_spec, Z.pow2_bits_eqb by lia.
    destruct (Z.eqb_spec i k) as [<-|]; [by rewrite B|by rewrite andb_false_r].
Qed.

Lemma uwrap_testbit w z i : 0 ≤ i < w → Z.testbit (uwrap w z) i = Z.testbit z i.
Proof. intros. unfold uwrap. apply Z.mod_pow2_bits_low. lia. Qed.

Lemma lor_lt_pow2 w a b : 0 ≤ w → 0 ≤ a < 2 ^ w → 0 ≤ b < 2 ^ w → 0 ≤ Z.lor a b < 2 ^ w.
Proof.
  intros Hw Ha Hb.
  assert (Z.lor a b = Z.lor a b mod 2 ^ w) as ->.
  { rewrite <- Z.land_ones by lia. rewrite Z.land_lor_distr_l, !Z.land_ones by lia.
    by rewrite !Z.mod_small by lia. }
  apply Z.mod_pos_bound. lia.
Qed.

Lemma land_lt_pow2 w a b : 0 ≤ w → 0 ≤ a < 2 ^ w → 0 ≤ b → 0 ≤ Z.land a b < 2 ^ w.
Proof.
  intros Hw Ha Hb.
  assert (Z.land a b = Z.land a b mod 2 ^ w) as ->.
  { rewrite <- Z.land_ones by lia. rewrite <- Z.land_assoc, (Z.land_comm b), Z.land_assoc.
    by rewrite Z.land_ones, (Z.mod_small a) by lia. }
  apply Z.mod_pos_bound. lia.
Qed.

(** The stream test reads one bit of the flags. *)
Lemma requested_testbit flags i :
  0 ≤ i < 8 → StandardStream.requested flags (2 ^ i) = Z.testbit flags i.
Proof.
  intros Hi. unfold StandardStream.requested, StandardStream.land, StandardStream.empty.
  assert (2 ^ i < 2 ^ 8) by (apply Z.pow_lt_mono_r; lia).
  assert (0 < 2 ^ i) by (apply Z.pow_pos_nonneg; lia).
  rewrite (uwrap_small 8 (2 ^ i)) by lia.
  rewrite uwrap_small by (apply land_lt_pow2; [lia|apply uwrap_range; lia|lia]).
  rewrite land_bit_eq0, negb_involutive by lia. by apply uwrap_testbit.
Qed.

(** ** Properties *)

(** [StandardStream] as the set of streams it selects. *)
Definition streams_of (f : StandardStream.t) : gset Z :=
  list_to_set (filter (λ s, StandardStream.requested f s = true)
    [StandardStream.stdin; StandardStream.stdout; StandardStream.stderr]).

Lemma elem_of_streams_of f s :
  s ∈ streams_of f ↔
    ∃ i, 0 ≤ i < 3 ∧ s = 2 ^ i ∧ Z.testbit f i = true.
Proof.
  unfold streams_of. rewrite elem_of_list_to_set, list_elem_of_filter, !elem_of_cons, elem_of_nil.
  unfold StandardStream.stdin, StandardStream.stdout, StandardStream.stderr.
  split.
  - intros [H Hs]. destruct Hs as [->|[->|[->|Hs]]]; [exists 0|exists 1|exists 2|done];
      (split; [lia|split; [reflexivity|]]); rewrite <- requested_testbit by lia; exact H.
  - intros (i & Hi & -> & Hb). rewrite requested_testbit by lia. split; [done|].
    assert (i = 0 ∨ i = 1 ∨ i = 2) as [->|[->| ->]] by lia; auto.
Qed.

(** [operator|] and [operator&] on StandardStream compute the union and the
    intersection of the selected streams, and stay in the range of [std::uint8_t]. *)
Theorem standard_stream_ops l r :
  streams_of (StandardStream.lor l r) = streams_of l ∪ streams_of r ∧
  streams_of (StandardStream.land l r) = streams_of l ∩ streams_of r ∧
  StandardStream.wf (StandardStream.lor l r) ∧ StandardStream.wf (StandardStream.land l r).
Proof.
  assert (∀ i, 0 ≤ i < 3 → Z.testbit (StandardStream.lor l r) i = Z.testbit l i || Z.testbit r i) as Hor.
  { intros. unfold StandardStream.lor. by rewrite uwrap_testbit, Z.lor_spec, !uwrap_testbit by lia. }
  assert (∀ i, 0 ≤ i < 3 → Z.testbit (StandardStream.land l r) i = Z.testbit l i && Z.testbit r i) as Hand.
  { intros. unfold StandardStream.land. by rewrite uwrap_testbit, Z.land_spec, !uwrap_testbit by lia. }
  repeat split; try (apply uwrap_range; lia).
  - apply set_eq. intros s. rewrite elem_of_union, !elem_of_streams_of. split.
    + intros (i & Hi & -> & Hb). rewrite Hor in Hb by lia.
      apply orb_true_iff in Hb as []; eauto.
    + intros [(i & Hi & -> & Hb)|(i & Hi & -> & Hb)]; exists i; rewrite Hor, Hb by lia;
        rewrite ?orb_true_r; auto.
  - apply set_eq. intros s. rewrite elem_of_intersection, !elem_of_streams_of. split.
    + intros (i & Hi & -> & Hb). rewrite Hand in Hb by lia.
      apply andb_true_iff in Hb as []; eauto 10.
    + intros [(i & Hi & -> & Hb) (j & Hj & Hij & Hb')]. exists i. rewrite Hand, Hb by lia.
      apply Z.pow_inj_r in Hij as ->; [|lia..]. auto.
Qed.

(** [wait_for]'s decoding of a status word inverts the kernel's encoding of every
    state change: exit codes 0..255, terminating signals with and without a core
    dump, stop signals, and continuation. *)
Theorem wait_status_roundtrip c :
  Wait.change_ok c = true → Wait.decode (Wait.encode c) = Wait.result_of c.
Proof. apply decode_encode. Qed.

Lemma wait_status_roundtrip_witness :
  Wait.decode (Wait.encode (Wait.Signaled 11 true)) =
    Wait.mkResult Wait.s_signaled (Some (Wait.if_signaled Signal.sig_segv true)).
Proof. exact (wait_status_roundtrip (Wait.Signaled 11 true) eq_refl). Defined.
