(* ===== verification/CppString.v ===== *)
(** * The parts of the C++ string and stream library the sources use

    [std::string] as a list of characters with [size_type] positions modulo
    2^64 ([npos] is 2^64 - 1): [find_first_of], [find_last_of], [substr],
    [erase], [c_str]; decimal and hexadecimal output of integers with a field
    width; formatted extraction from an [std::istream] in the "C" locale
    (integers with range check, words, characters). *)

From Stdlib Require Ascii.
From S2P Require Import Prelude.
Export Ascii.AsciiSyntax.
Delimit Scope char_scope with char.
Bind Scope char_scope with Ascii.ascii.

Declare Scope str_scope.
Delimit Scope str_scope with str.

Abbreviation ascii := Ascii.ascii.
Abbreviation str := (list ascii).
Definition lit (s : string) : str := String.list_ascii_of_string s.
Notation "'$' s" := (lit s%string) (at level 1, format "'$' s") : str_scope.
Open Scope str_scope.

Definition npos : Z := 2 ^ 64 - 1.
Definition slen (s : str) : Z := Z.of_nat (length s).

(** Strings that fit in memory: positions are exact. *)
Definition addressable (s : str) : Prop := slen s < 2 ^ 63.

(** ** Searching and slicing *)

Definition find_first_of (c : ascii) (s : str) : Z :=
  match list_find (λ x, x = c) s with Some (i, _) => Z.of_nat i | None => npos end.

Definition find_last_of (c : ascii) (s : str) : Z :=
  match list_find (λ x, x = c) (reverse s) with
  | Some (i, _) => slen s - 1 - Z.of_nat i
  | None => npos
  end.

(** [s.substr(pos, n)] *)
Definition substr (pos n : Z) (s : str) : outcome str :=
  if slen s <? pos then Throw OutOfRange
  else Ok (take (Z.to_nat (Z.min n (slen s - pos))) (drop (Z.to_nat pos) s)).

(** [s.erase(pos)] *)
Definition erase (pos : Z) (s : str) : outcome str :=
  if slen s <? pos then Throw OutOfRange else Ok (take (Z.to_nat pos) s).

(** A C string made from [s.c_str()]: up to the first NUL. *)
Fixpoint c_str (s : str) : str :=
  match s with
  | [] => []
  | c :: s => if bool_decide (c = Ascii.zero) then [] else c :: c_str s
  end.

Lemma slen_nonneg s : 0 ≤ slen s.
Proof. unfold slen. lia. Qed.

Lemma slen_app s1 s2 : slen (s1 ++ s2) = slen s1 + slen s2.
Proof. unfold slen. rewrite length_app. lia. Qed.

Lemma slen_cons c s : slen (c :: s) = 1 + slen s.
Proof. unfold slen. simpl. lia. Qed.

Lemma list_find_app_eq {A} `{EqDecision A} (c : A) s1 s2 :
  c ∉ s1 → list_find (λ x, x = c) (s1 ++ c :: s2) = Some (length s1, c).
Proof.
  intros Hc. induction s1 as [|d s1 IH]; simpl.
  - by rewrite decide_True.
  - apply not_elem_of_cons in Hc as [? ?]. rewrite decide_False by done. by rewrite IH.
Qed.

Lemma list_find_eq_None {A} `{EqDecision A} (c : A) s :
  c ∉ s → list_find (λ x, x = c) s = None.
Proof. intros Hc. apply list_find_None, Forall_forall. intros x Hx ->. done. Qed.

Lemma find_first_of_app c s1 s2 :
  c ∉ s1 → find_first_of c (s1 ++ c :: s2) = slen s1.
Proof. intros. unfold find_first_of. by rewrite list_find_app_eq. Qed.

Lemma find_first_of_absent c s : c ∉ s → find_first_of c s = npos.
Proof. intros. unfold find_first_of. by rewrite list_find_eq_None. Qed.

Lemma find_last_of_app c s1 s2 :
  c ∉ s2 → find_last_of c (s1 ++ c :: s2) = slen s1.
Proof.
  intros Hc. unfold find_last_of.
  rewrite reverse_app, reverse_cons, <- app_assoc. simpl.
  rewrite list_find_app_eq by (by rewrite elem_of_reverse).
  rewrite slen_app, slen_cons, length_reverse. unfold slen. lia.
Qed.

Lemma find_last_of_absent c s : c ∉ s → find_last_of c s = npos.
Proof. intros. unfold find_last_of. rewrite list_find_eq_None; [done|]. by rewrite elem_of_reverse. Qed.

(** A found position is inside the string. *)
Lemma find_first_of_bounds c s :
  find_first_of c s = npos ∨ 0 ≤ find_first_of c s < slen s.
Proof.
  unfold find_first_of. destruct (list_find _ s) as [[i x]|] eqn:E; [right|by left].
  apply list_find_Some in E as (E & _). apply lookup_lt_Some in E. unfold slen. lia.
Qed.

Lemma find_last_of_bounds c s :
  find_last_of c s = npos ∨ 0 ≤ find_last_of c s < slen s.
Proof.
  unfold find_last_of. destruct (list_find _ (reverse s)) as [[i x]|] eqn:E; [right|by left].
  apply list_find_Some in E as (E & _). apply lookup_lt_Some in E.
  rewrite length_reverse in E. unfold slen. lia.
Qed.

(** Slicing a string at a known split. *)
Lemma substr_middle s1 s2 s3 :
  substr (slen s1) (slen s2) (s1 ++ s2 ++ s3) = Ok s2.
Proof.
  unfold substr. rewrite !slen_app.
  destruct (Z.ltb_spec (slen s1 + (slen s2 + slen s3)) (slen s1));
    [pose proof (slen_nonneg s2); pose proof (slen_nonneg s3); lia|].
  rewrite Z.min_l by (pose proof (slen_nonneg s3); lia).
  unfold slen. rewrite !Nat2Z.id, drop_app_length, take_app_length. done.
Qed.

Lemma substr_rest s1 s2 n : slen s2 ≤ n → substr (slen s1) n (s1 ++ s2) = Ok s2.
Proof.
  intros Hn. unfold substr. rewrite slen_app.
  destruct (Z.ltb_spec (slen s1 + slen s2) (slen s1)); [pose proof (slen_nonneg s2); lia|].
  rewrite Z.min_r by lia. unfold slen.
  replace (Z.of_nat (length s1) + Z.of_nat (length s2) - Z.of_nat (length s1))
    with (Z.of_nat (length s2)) by lia.
  rewrite !Nat2Z.id, drop_app_length. by rewrite firstn_all.
Qed.

Lemma erase_app s1 s2 : erase (slen s1) (s1 ++ s2) = Ok s1.
Proof.
  unfold erase. rewrite slen_app.
  destruct (Z.ltb_spec (slen s1 + slen s2) (slen s1)); [pose proof (slen_nonneg s2); lia|].
  unfold slen. by rewrite Nat2Z.id, take_app_length.
Qed.

Lemma c_str_id s : Ascii.zero ∉ s → c_str s = s.
Proof.
  induction s as [|c s IH]; simpl; [done|]. intros [? ?]%not_elem_of_cons.
  rewrite bool_decide_eq_false_2 by congruence. by rewrite IH.
Qed.

Lemma c_str_no_nul s : Ascii.zero ∉ c_str s.
Proof.
  induction s as [|c s IH]; simpl; [apply not_elem_of_nil|].
  case_bool_decide; [apply not_elem_of_nil|]. apply not_elem_of_cons. auto.
Qed.

(** ** Output of integers *)

Definition digit_char (d : Z) : ascii :=
  Ascii.ascii_of_N (Z.to_N (if d <? 10 then 48 + d else 87 + d)).

(** The digits of [n] in base [b], most significant first; [fuel] bits are enough for [n < 2^fuel]. *)
Fixpoint digits (fuel : nat) (b n : Z) : list Z :=
  match fuel with
  | O => [n]
  | S f => if n <? b then [n] else digits f b (n / b) ++ [n mod b]
  end.

Definition undigits (b : Z) (ds : list Z) : Z := foldl (λ a d, a * b + d) 0 ds.

Definition bits (n : Z) : nat := S (Z.to_nat (Z.log2 n)).

Definition print_base (b n : Z) : str := digit_char <$> digits (bits n) b n.

(** [out << n] for a signed or unsigned integer, [std::dec] *)
Definition print_dec (n : Z) : str :=
  if n <? 0 then "-"%char :: print_base 10 (- n) else print_base 10 n.

(** [out << std::setw(w) << s]: padded on the left. *)
Definition setw (w : Z) (s : str) : str :=
  replicate (Z.to_nat (w - slen s)) " "%char ++ s.

(** [out << p] for a [void*]: hexadecimal with base, the null pointer prints as 0. *)
Definition print_ptr (p : Z) : str :=
  if p =? 0 then $"0" else $"0x" ++ print_base 16 p.

Lemma undigits_app b ds d : undigits b (ds ++ [d]) = undigits b ds * b + d.
Proof. unfold undigits. by rewrite foldl_app. Qed.

Lemma digits_spec fuel b n :
  2 ≤ b → 0 ≤ n < 2 ^ Z.of_nat fuel →
  undigits b (digits fuel b n) = n ∧ Forall (λ d, 0 ≤ d < b) (digits fuel b n) ∧
  digits fuel b n ≠ [].
Proof.
  intros Hb. revert n. induction fuel as [|f IH]; intros n Hn; simpl.
  - assert (n = 0) as -> by (change (2 ^ Z.of_nat 0) with 1 in Hn; lia).
    split_and!; [done| |done]. repeat constructor; lia.
  - destruct (Z.ltb_spec n b); [split_and!; [done| |done]; repeat constructor; lia|].
    destruct (IH (n / b)) as (IH1 & IH2 & IH3).
    { rewrite Nat2Z.inj_succ, Z.pow_succ_r in Hn by lia. split; [apply Z.div_pos; lia|].
      apply Z.div_lt_upper_bound; [lia|]. nia. }
    rewrite undigits_app, IH1. split_and!.
    + rewrite (Z.mul_comm _ b). symmetry. apply Z.div_mod. lia.
    + apply Forall_app. split; [done|]. repeat constructor; apply Z.mod_pos_bound; lia.
    + destruct (digits f b (n / b)); done.
Qed.

Lemma bits_spec n : 0 ≤ n → 0 ≤ n < 2 ^ Z.of_nat (bits n).
Proof.
  intros Hn. split; [done|]. unfold bits. rewrite Nat2Z.inj_succ.
  pose proof (Z.log2_nonneg n). rewrite Z2Nat.id by lia.
  destruct (Z.eq_dec n 0) as [->|]; [done|]. apply Z.log2_spec. lia.
Qed.

(** ** Formatted input *)

(** An [std::istream]: the characters left and the [failbit] ([good] is its negation). *)
Record istream : Type := mkIn { chars : str; failbit : bool }.

(** The "C" locale's white space: space, \t \n \v \f \r. *)
Definition is_space (c : ascii) : bool :=
  let n := Ascii.N_of_ascii c in (n =? 32)%N || ((9 <=? n)%N && (n <=? 13)%N).

Fixpoint skip_ws (s : str) : str :=
  match s with c :: s' => if is_space c then skip_ws s' else s | [] => [] end.

Definition digit_val (c : ascii) : option Z :=
  let n := Z.of_N (Ascii.N_of_ascii c) in
  if (48 <=? n) && (n <=? 57) then Some (n - 48) else None.

(** The longest prefix of decimal digits, and the rest. *)
Fixpoint span_digits (s : str) : list Z * str :=
  match s with
  | c :: s' =>
      match digit_val c with
      | Some d => let '(ds, r) := span_digits s' in (d :: ds, r)
      | None => ([], s)
      end
  | [] => ([], [])
  end.

Definition read_sign (s : str) : bool * str :=
  match s with
  | "-"%char :: s' => (true, s')
  | "+"%char :: s' => (false, s')
  | _ => (false, s)
  end.

(** [in >> x] for an integer type with values [lo..hi] ([num_get]): nothing happens on a
    failed stream; no digits store 0 and fail; an out-of-range value stores the
    nearest limit and fails.  For an unsigned type ([lo = 0]) a minus sign
    negates modulo [hi + 1], and the range check is on the magnitude. *)
Definition read_int (lo hi : Z) (old : Z) (st : istream) : Z * istream :=
  if failbit st then (old, st) else
  let s := skip_ws (chars st) in
  match s with
  | [] => (old, mkIn [] true)
  | _ =>
    let '(neg, s1) := read_sign s in
    let '(ds, r) := span_digits s1 in
    match ds with
    | [] => (0, mkIn r true)
    | _ =>
      let m := undigits 10 ds in
      if lo =? 0 then
        if hi <? m then (hi, mkIn r true)
        else ((if neg then (- m) mod (hi + 1) else m), mkIn r false)
      else
        let v := if neg then - m else m in
        if v <? lo then (lo, mkIn r true)
        else if hi <? v then (hi, mkIn r true)
        else (v, mkIn r false)
    end
  end.

(** [in >> word] for an [std::string] *)
Fixpoint span_word (s : str) : str * str :=
  match s with
  | c :: s' => if is_space c then ([], s) else let '(w, r) := span_word s' in (c :: w, r)
  | [] => ([], [])
  end.

Definition read_word (old : str) (st : istream) : str * istream :=
  if failbit st then (old, st) else
  match skip_ws (chars st) with
  | [] => (old, mkIn [] true)
  | s => let '(w, r) := span_word s in (w, mkIn r false)
  end.

(** [char c; in >> c]; [None] when [c] stays uninitialised *)
Definition read_char (st : istream) : option ascii * istream :=
  if failbit st then (None, st) else
  match skip_ws (chars st) with
  | [] => (None, mkIn [] true)
  | c :: r => (Some c, mkIn r false)
  end.

Definition read_i32 := read_int (- 2 ^ 31) (2 ^ 31 - 1).
Definition read_u32 := read_int 0 (2 ^ 32 - 1).
Definition read_i64 := read_int (- 2 ^ 63) (2 ^ 63 - 1).
Definition read_u64 := read_int 0 (2 ^ 64 - 1).

(** ** Printing and reading back *)

Definition starts_nondigit (r : str) : Prop :=
  match r with [] => True | c :: _ => digit_val c = None end.

Lemma digit_char_facts : ∀ d, 0 ≤ d < 10 →
  bool_decide (digit_val (digit_char d) = Some d ∧ is_space (digit_char d) = false ∧
    digit_char d ≠ "-"%char ∧ digit_char d ≠ "+"%char) = true.
Proof. apply (forall_Z_below 10 (λ d, bool_decide _)). vm_compute. reflexivity. Qed.

Lemma digit_char_spec d : 0 ≤ d < 10 →
  digit_val (digit_char d) = Some d ∧ is_space (digit_char d) = false ∧
  digit_char d ≠ "-"%char ∧ digit_char d ≠ "+"%char.
Proof. intros H. eapply bool_decide_eq_true, digit_char_facts, H. Qed.

Lemma span_digits_print ds r :
  Forall (λ d, 0 ≤ d < 10) ds → starts_nondigit r →
  span_digits ((digit_char <$> ds) ++ r) = (ds, r).
Proof.
  intros Hds Hr. induction Hds as [|d ds Hd Hds IH].
  - destruct r as [|c r]; simpl in *; [done|]. by rewrite Hr.
  - rewrite fmap_cons. cbn [app span_digits].
    destruct (digit_char_spec d Hd) as [-> _]. by rewrite IH.
Qed.

Lemma skip_ws_app ws s : forallb is_space ws = true → skip_ws (ws ++ s) = skip_ws s.
Proof. induction ws as [|c ws IH]; simpl; [done|]. intros [-> ?]%andb_true_iff. auto. Qed.

Lemma read_sign_digit d s : 0 ≤ d < 10 → read_sign (digit_char d :: s) = (false, digit_char d :: s).
Proof.
  intros Hd. destruct (digit_char_spec d Hd) as (_ & _ & Hm & Hp). unfold read_sign.
  destruct (digit_char d) as [[] [] [] [] [] [] [] []]; done.
Qed.

Lemma digits_cons fuel b n : digits fuel b n ≠ [] → ∃ d ds, digits fuel b n = d :: ds.
Proof. destruct (digits fuel b n); [done|eauto]. Qed.

(** What [read_int] sees of a printed magnitude. *)
Lemma print_base_shape n : 0 ≤ n → ∃ d ds,
  digits (bits n) 10 n = d :: ds ∧ Forall (λ d, 0 ≤ d < 10) (d :: ds) ∧ undigits 10 (d :: ds) = n.
Proof.
  intros Hn. destruct (digits_spec (bits n) 10 n ltac:(lia) (bits_spec n Hn)) as (H1 & H2 & H3).
  destruct (digits_cons _ _ _ H3) as (d & ds & E). rewrite E in *. eauto.
Qed.

Lemma read_int_print lo hi old ws n r :
  lo ≤ n ≤ hi → lo ≤ 0 → forallb is_space ws = true → starts_nondigit r →
  read_int lo hi old (mkIn (ws ++ print_dec n ++ r) false) = (n, mkIn r false).
Proof.
  intros Hn Hlo Hws Hr. unfold read_int. simpl. rewrite skip_ws_app by done.
  unfold print_dec. destruct (Z.ltb_spec n 0) as [Hneg|Hpos].
  - destruct (print_base_shape (- n)) as (d & ds & E & Hds & Hv); [lia|].
    unfold print_base. rewrite E.
    pose proof (span_digits_print (d :: ds) r Hds Hr) as Hspan.
    generalize dependent (digit_char <$> d :: ds). intros body Hspan.
    simpl. rewrite Hspan. cbv beta iota zeta. rewrite Hv.
    destruct (Z.eqb_spec lo 0); [lia|].
    rewrite Z.opp_involutive.
    destruct (Z.ltb_spec n lo); [lia|]. destruct (Z.ltb_spec hi n); [lia|done].
  - destruct (print_base_shape n) as (d & ds & E & Hds & Hv); [lia|].
    unfold print_base. rewrite E.
    assert (0 ≤ d < 10) as Hd by (by inversion Hds).
    rewrite fmap_cons. cbn [skip_ws app].
    destruct (digit_char_spec d Hd) as (_ & -> & _).
    rewrite read_sign_digit by done.
    change (digit_char d :: (digit_char <$> ds) ++ r) with ((digit_char <$> d :: ds) ++ r).
    rewrite (span_digits_print (d :: ds) r Hds Hr). cbv beta iota zeta. rewrite Hv.
    destruct (Z.eqb_spec lo 0).
    + destruct (Z.ltb_spec hi n); [lia|done].
    + destruct (Z.ltb_spec n lo); [lia|]. destruct (Z.ltb_spec hi n); [lia|done].
Qed.

(** A word without white space, read back. *)
Lemma span_word_app w r :
  forallb (negb ∘ is_space) w = true → match r with [] => True | c :: _ => is_space c = true end →
  span_word (w ++ r) = (w, r).
Proof.
  intros Hw Hr. induction w as [|c w IH]; simpl.
  - destruct r as [|c r]; simpl; [done|]. by rewrite Hr.
  - simpl in Hw. apply andb_true_iff in Hw as [Hc Hw]. apply negb_true_iff in Hc.
    rewrite Hc. by rewrite IH.
Qed.

Lemma skip_ws_word w r :
  w ≠ [] → forallb (negb ∘ is_space) w = true → skip_ws (w ++ r) = w ++ r.
Proof.
  destruct w as [|c w]; [done|]. simpl. intros _ [Hc _]%andb_true_iff.
  apply negb_true_iff in Hc. by rewrite Hc.
Qed.

Lemma read_word_print old ws w r :
  w ≠ [] → forallb (negb ∘ is_space) w = true → forallb is_space ws = true →
  match r with [] => True | c :: _ => is_space c = true end →
  read_word old (mkIn (ws ++ w ++ r) false) = (w, mkIn r false).
Proof.
  intros Hne Hw Hws Hr. unfold read_word. cbn [failbit chars].
  rewrite skip_ws_app, skip_ws_word by done.
  pose proof (span_word_app w r Hw Hr) as E.
  destruct w as [|c w]; [done|]. cbn [app] in *. by rewrite E.
Qed.

Lemma is_space_not_digit c : is_space c = true → digit_val c = None.
Proof. by destruct c as [[] [] [] [] [] [] [] []]. Qed.
