(* ===== verification/Kernel.v ===== *)
(** * The operating system the library calls

    process-cpp is a wrapper around system calls.  The kernel is not part of the
    repository, so it is a parameter of the model: each class below lists the
    calls one group of components makes ([FdKernel]: pipe, dup, dup2, close;
    [ForkKernel]: fork, vfork; [ProcKernel]: getpgid, kill, waitpid; [ExecKernel]:
    execve), together with the observations of the kernel state that the manual pages
    talk about, and a second class states the documented behaviour as laws.
    Every component is written against the calls and proved against the laws.

    [Module Ref] of [RefKernel] is an executable kernel satisfying all the laws;
    the witnesses of the other files run on it. *)

From S2P Require Import Prelude.
From S2P Require Import Types.
From S2P Require Import CppString.

(** ** errno *)

Definition EPERM : Z := 1.
Definition ENOENT : Z := 2.
Definition ESRCH : Z := 3.
Definition EINTR : Z := 4.
Definition EBADF : Z := 9.
Definition ECHILD : Z := 10.
Definition EAGAIN : Z := 11.
Definition EINVAL : Z := 22.
Definition EMFILE : Z := 24.

(** ** Descriptors *)

(** What a descriptor of the calling process refers to: an end of an anonymous
    pipe, or some other open file. *)
Inductive Ofd : Type :=
| PipeRead (p : positive)
| PipeWrite (p : positive)
| OtherFile (n : Z).

#[export] Instance Ofd_eq_dec : EqDecision Ofd.
Proof. solve_decision. Defined.

(** The thread's [errno], set by a failing call. *)
Class Errno (W : Type) : Type := errno : W → Z.

Class FdKernel (W : Type) : Type := {
  fd_table : W → gmap Z Ofd;
  sys_pipe : W → (Z * (Z * Z)) * W;   (* rc, fds[0], fds[1] *)
  sys_dup : Z → W → Z * W;
  sys_dup2 : Z → Z → W → Z * W;
  sys_close : Z → W → Z * W }.

(** No descriptor of the table refers to pipe [p]. *)
Definition pipe_unused (p : positive) (T : gmap Z Ofd) : Prop :=
  ∀ fd, T !! fd ≠ Some (PipeRead p) ∧ T !! fd ≠ Some (PipeWrite p).

(** pipe(2), dup(2), dup2(2), close(2).  Every call may fail; [close] releases the
    descriptor whatever it returns (Linux). *)
Class FdLaws (W : Type) {K : FdKernel W} : Prop := {
  pipe_law w rc r x w' :
    sys_pipe w = ((rc, (r, x)), w') →
    (rc = -1 ∧ fd_table w' = fd_table w) ∨
    (rc = 0 ∧ 0 ≤ r ∧ 0 ≤ x ∧ r ≠ x ∧
     fd_table w !! r = None ∧ fd_table w !! x = None ∧
     ∃ p, pipe_unused p (fd_table w) ∧
       fd_table w' = <[r := PipeRead p]> (<[x := PipeWrite p]> (fd_table w)));
  dup_law fd w rc w' :
    sys_dup fd w = (rc, w') →
    (rc = -1 ∧ fd_table w' = fd_table w) ∨
    (0 ≤ rc ∧ fd_table w !! rc = None ∧
     ∃ o, fd_table w !! fd = Some o ∧ fd_table w' = <[rc := o]> (fd_table w));
  dup2_law old new w rc w' :
    sys_dup2 old new w = (rc, w') →
    (rc = -1 ∧ fd_table w' = fd_table w) ∨
    (rc = new ∧ ∃ o, fd_table w !! old = Some o ∧ fd_table w' = <[new := o]> (fd_table w));
  close_law fd w rc w' :
    sys_close fd w = (rc, w') → fd_table w' = delete fd (fd_table w) }.

(** RLIMIT_NOFILE: how many descriptors the process may have. *)
Class FdLimit (W : Type) : Type := fd_limit : W → nat.

(** getpid(2) *)
Class Pid (W : Type) : Type := getpid : W → Z.

(** ** Forking *)

(** [sys_fork w = (rc, wp, wc)]: what fork returns in the parent, the parent's
    world and the child's, which is meaningful when [rc ≠ -1].  [cerr_write] is
    the effect of writing to [std::cerr]. *)
Class ForkKernel (W : Type) : Type := {
  sys_fork : W → Z * W * W;
  sys_vfork : W → Z * W * W;
  cerr_write : str → W → W }.

(** fork(2), vfork(2): the child gets a copy of the descriptor table and a fresh
    positive pid; the parent's table is untouched. *)
Class ForkLaws (W : Type) {I : Pid W} {K : FdKernel W} {F : ForkKernel W} : Prop := {
  fork_law w rc wp wc :
    sys_fork w = (rc, wp, wc) →
    fd_table wp = fd_table w ∧ getpid wp = getpid w ∧
    (rc = -1 ∨ (0 < rc ∧ fd_table wc = fd_table w));
  vfork_law w rc wp wc :
    sys_vfork w = (rc, wp, wc) →
    fd_table wp = fd_table w ∧ getpid wp = getpid w ∧
    (rc = -1 ∨ (0 < rc ∧ fd_table wc = fd_table w));
  cerr_law s w : fd_table (cerr_write s w) = fd_table w }.

(** Below the limit, and for descriptors that are open, the calls succeed (nothing else that the
    manual pages list can be wrong with them: EMFILE, EBADF; a [dup2] onto an open descriptor
    needs no new one).  What is left out is an exhausted system (ENFILE) and other threads (EBUSY). *)
Class RoomLaws (W : Type) {K : FdKernel W} {F : ForkKernel W} {N : FdLimit W} : Prop := {
  pipe_room w rc fds w' :
    sys_pipe w = ((rc, fds), w') →
    fd_limit w' = fd_limit w ∧ ((size (fd_table w) + 2 ≤ fd_limit w)%nat → rc ≠ -1);
  dup_room fd w rc w' :
    sys_dup fd w = (rc, w') →
    fd_limit w' = fd_limit w ∧
    (is_Some (fd_table w !! fd) → (size (fd_table w) + 1 ≤ fd_limit w)%nat → rc ≠ -1);
  dup2_room old new w rc w' :
    sys_dup2 old new w = (rc, w') →
    0 ≤ new → is_Some (fd_table w !! old) → is_Some (fd_table w !! new) → rc ≠ -1;
  close_room fd w rc w' : sys_close fd w = (rc, w') → fd_limit w' = fd_limit w;
  fork_room w rc wp wc : sys_fork w = (rc, wp, wc) → fd_limit wp = fd_limit w }.

(** ** Executing a program *)

(** A program image: path, arguments, environment, and the descriptors it starts with. *)
Record image : Type := mkImage {
  i_path : str; i_argv : list str; i_env : list str; i_fds : gmap Z Ofd }.

(** [sys_execve fn argv env w = (inl rc, w')]: the call returned [rc]; [(inr st, w')]:
    it did not return, the new image ran to its end and the process exited with
    status [st].  [images] are the images the process has run. *)
Class ExecKernel (W : Type) : Type := {
  images : W → list image;
  sys_execve : str → list str → list str → W → (Z + Z) * W }.

(** execve(2): the call returns only on error; the descriptors stay open. *)
Class ExecLaws (W : Type) {K : FdKernel W} {X : ExecKernel W} : Prop := {
  execve_law fn argv env w r w' :
    sys_execve fn argv env w = (r, w') →
    (r = inl (-1) ∧ images w' = images w) ∨
    (∃ st more, r = inr st ∧ 0 ≤ st < 256 ∧
       images w' = images w ++ mkImage fn argv env (fd_table w) :: more) }.

(** ** Processes and signals *)

Class ProcKernel (W : Type) : Type := {
  groups : W → gmap Z Z;              (* existing processes, with their process group *)
  signal_log : W → list (Z * Z);      (* (pid, signal) pairs delivered, oldest first *)
  children : W → gmap Z (option Z);   (* own children: None alive, Some st dead, not reaped *)
  sys_getpgid : Z → W → Z * W;
  sys_kill : Z → Z → W → Z * W;
  sys_waitpid : Z → Z → W → (Z * Z) * W }.  (* rc, *status *)

(** kill(2): which processes [kill(pid, _)] may signal. *)
Definition addressee (self : Z) (g : gmap Z Z) (pid p : Z) : bool :=
  if 0 <? pid then p =? pid
  else if pid =? 0 then bool_decide (is_Some (g !! p) ∧ g !! p = g !! self)
  else if pid =? -1 then negb (p =? 1) && bool_decide (is_Some (g !! p))
  else bool_decide (g !! p = Some (- pid)).

(** Between two calls children may die (and nothing else happens to them). *)
Definition evolves (v v' : gmap Z (option Z)) : Prop :=
  dom v = dom v' ∧
  ∀ p st, v !! p = Some (Some st) → v' !! p = Some (Some st).

(** The child [p] is in the process group of the caller. *)
Definition same_group {W} {I : Pid W} {P : ProcKernel W} (w : W) (p : Z) : bool :=
  bool_decide (groups w !! p = groups w !! getpid w).

Class ProcLaws (W : Type) {E : Errno W} {I : Pid W} {P : ProcKernel W} : Prop := {
  getpgid_law pid w rc w' :
    sys_getpgid pid w = (rc, w') →
    (rc = -1 ∨ groups w !! (if pid =? 0 then getpid w else pid) = Some rc) ∧
    (pid < 0 → rc = -1) ∧
    groups w' = groups w ∧ getpid w' = getpid w ∧ signal_log w' = signal_log w;
  kill_law pid sig w rc w' :
    sys_kill pid sig w = (rc, w') →
    (rc = -1 ∧ signal_log w' = signal_log w) ∨
    (rc = 0 ∧ ∃ l, signal_log w' = signal_log w ++ map (λ p, (p, sig)) l ∧
       Forall (λ p, addressee (getpid w) (groups w) pid p = true) l ∧ NoDup l ∧
       (sig ≠ 0 → l ≠ []));
  (* waitpid for one child, any options: a failure, no change, or a change the kernel encoded *)
  waitpid_status_law pid opts w rc st w' :
    0 < pid →
    sys_waitpid pid opts w = ((rc, st), w') →
    rc = -1 ∨ (rc = 0 ∧ Z.testbit opts 0 = true) ∨
    (rc = pid ∧ ∃ c, Wait.change_ok c = true ∧ st = Wait.encode c);
  (* a child that is dead already: reported and reaped at once, with any of the options *)
  waitpid_dead_law pid opts w dead rc st w' :
    Z.land opts (Z.lor Wait.no_hang (Z.lor Wait.untraced Wait.continued)) = opts →
    children w !! pid = Some (Some dead) →
    sys_waitpid pid opts w = ((rc, st), w') →
    rc = pid ∧ st = dead ∧ children w' !! pid = None;
  child_pid_law w p : is_Some (children w !! p) → 0 < p;
  (* waitpid(pid, _, WNOHANG) for a single child *)
  waitpid_one_law pid w rc st w' :
    0 < pid →
    sys_waitpid pid Wait.no_hang w = ((rc, st), w') →
    groups w' = groups w ∧ getpid w' = getpid w ∧
    ∃ v, evolves (children w) v ∧
      match v !! pid with
      | Some (Some st') => rc = pid ∧ st = st' ∧ children w' = delete pid v
      | Some None => rc = 0 ∧ children w' = v
      | None => rc = -1 ∧ errno w' = ECHILD ∧ children w' = v
      end;
  (* waitpid(0, _, WNOHANG): any child of the caller's process group *)
  waitpid_group_law w rc st w' :
    sys_waitpid 0 Wait.no_hang w = ((rc, st), w') →
    groups w' = groups w ∧ getpid w' = getpid w ∧
    ∃ v, evolves (children w) v ∧
      ((v !! rc = Some (Some st) ∧ Wait.terminal st = true ∧ same_group w rc = true ∧ children w' = delete rc v) ∨
       (rc = 0 ∧ children w' = v ∧ ∀ p s, v !! p = Some (Some s) → same_group w p = false) ∨
       (rc = -1 ∧ errno w' = ECHILD ∧ children w' = v ∧
        ∀ p s, v !! p = Some s → same_group w p = false)) }.

(** Each call changes only its own part of the kernel state. *)
Class FrameLaws (W : Type) {I : Pid W} {K : FdKernel W} {P : ProcKernel W} : Prop := {
  kill_frame pid sig w rc w' :
    sys_kill pid sig w = (rc, w') → fd_table w' = fd_table w ∧ getpid w' = getpid w;
  close_frame fd w rc w' :
    sys_close fd w = (rc, w') → signal_log w' = signal_log w ∧ getpid w' = getpid w;
  waitpid_frame pid opts w r w' :
    sys_waitpid pid opts w = (r, w') → fd_table w' = fd_table w ∧ signal_log w' = signal_log w ∧
      getpid w' = getpid w;
  dup_frame fd w rc w' :
    sys_dup fd w = (rc, w') → signal_log w' = signal_log w ∧ getpid w' = getpid w }.

(** [throw std::system_error(errno, std::system_category());] *)
Definition throw_errno {W A} `{Errno W} : M W A := λ w, (Throw (SystemError (errno w)), w).

(** [if (rc == -1) throw std::system_error(errno, std::system_category());] *)
Definition check_rc {W} `{Errno W} (rc : Z) : M W unit :=
  if rc =? -1 then throw_errno else mret tt.

(** [if (rc == -1) e = std::error_code(errno, std::system_category());] on the
    caller's [std::error_code], whose value is an integer (0: no error). *)
Definition store_rc {W} `{Errno W} (rc e : Z) (w : W) : Z :=
  if rc =? -1 then errno w else e.
