(* ===== verification/RefKernel.v ===== *)
(** * An executable kernel satisfying the laws

    A concrete state of the operating system as the calling process sees it:
    lowest-numbered descriptor allocation under a [RLIMIT_NOFILE] bound, a
    process table with process groups, a log of delivered signals, the own
    children, and a schedule of the deaths that happen before each [waitpid].
    [vfork] differs from [fork] only in what the two processes share, which is
    not kernel state. *)

From S2P Require Import Prelude.
From S2P Require Import Types.
From S2P Require Import CppString.
From S2P Require Import Kernel.

Module Ref.

Record t : Type := mk {
  fds : gmap Z Ofd;
  err : Z;
  limit : nat;
  next_pipe : positive;
  pid : Z;
  next_pid : Z;
  procs : gmap Z Z;
  log : list (Z * Z);
  kids : gmap Z (option Z);
  deaths : list (list (Z * Z));
  err_out : list str;
  execs : list image }.

Definition set_fds (T : gmap Z Ofd) (w : t) : t :=
  mk T (err w) (limit w) (next_pipe w) (pid w) (next_pid w) (procs w) (log w) (kids w)
    (deaths w) (err_out w) (execs w).
Definition set_err (e : Z) (w : t) : t :=
  mk (fds w) e (limit w) (next_pipe w) (pid w) (next_pid w) (procs w) (log w) (kids w)
    (deaths w) (err_out w) (execs w).
Definition set_next_pipe (p : positive) (w : t) : t :=
  mk (fds w) (err w) (limit w) p (pid w) (next_pid w) (procs w) (log w) (kids w)
    (deaths w) (err_out w) (execs w).
Definition set_log (l : list (Z * Z)) (w : t) : t :=
  mk (fds w) (err w) (limit w) (next_pipe w) (pid w) (next_pid w) (procs w) l (kids w)
    (deaths w) (err_out w) (execs w).
Definition set_kids (c : gmap Z (option Z)) (ds : list (list (Z * Z))) (w : t) : t :=
  mk (fds w) (err w) (limit w) (next_pipe w) (pid w) (next_pid w) (procs w) (log w) c
    ds (err_out w) (execs w).
Definition say (s : str) (w : t) : t :=
  mk (fds w) (err w) (limit w) (next_pipe w) (pid w) (next_pid w) (procs w) (log w) (kids w)
    (deaths w) (err_out w ++ [s]) (execs w).

Definition add_exec (i : image) (w : t) : t :=
  mk (fds w) (err w) (limit w) (next_pipe w) (pid w) (next_pid w) (procs w) (log w) (kids w)
    (deaths w) (err_out w) (execs w ++ [i]).

(** *** Descriptors *)

Definition lowest_free (T : gmap Z Ofd) : option Z :=
  head (filter (λ i, T !! i = None) (seqZ 0 (Z.of_nat (S (size T))))).

Definition pipe_id (o : Ofd) : positive :=
  match o with PipeRead p | PipeWrite p => p | OtherFile _ => 1%positive end.

(** A pipe identity above every one in the table. *)
Definition new_pipe (w : t) : positive :=
  (foldr Pos.max (next_pipe w) (pipe_id <$> (map_to_list (fds w)).*2) + 1)%positive.

Definition fail {A} (a : A) (e : Z) (w : t) : A * t := (a, set_err e w).

Definition pipe (w : t) : (Z * (Z * Z)) * t :=
  if decide (limit w < S (S (size (fds w))))%nat then fail (-1, (-1, -1)) EMFILE w else
  match lowest_free (fds w) with
  | Some r =>
    let p := new_pipe w in
    match lowest_free (<[r := PipeRead p]> (fds w)) with
    | Some x => ((0, (r, x)),
        set_next_pipe p (set_fds (<[r := PipeRead p]> (<[x := PipeWrite p]> (fds w))) w))
    | None => fail (-1, (-1, -1)) EMFILE w
    end
  | None => fail (-1, (-1, -1)) EMFILE w
  end.

Definition dup (fd : Z) (w : t) : Z * t :=
  match fds w !! fd with
  | None => fail (-1) EBADF w
  | Some o =>
    if decide (limit w < S (size (fds w)))%nat then fail (-1) EMFILE w else
    match lowest_free (fds w) with
    | Some n => (n, set_fds (<[n := o]> (fds w)) w)
    | None => fail (-1) EMFILE w
    end
  end.

Definition dup2 (old new : Z) (w : t) : Z * t :=
  match fds w !! old with
  | None => fail (-1) EBADF w
  | Some o => (new, set_fds (<[new := o]> (fds w)) w)
  end.

Definition close (fd : Z) (w : t) : Z * t :=
  match fds w !! fd with
  | None => fail (-1) EBADF w
  | Some _ => (0, set_fds (delete fd (fds w)) w)
  end.

Lemma lowest_free_spec T n : lowest_free T = Some n → 0 ≤ n ∧ T !! n = None.
Proof.
  unfold lowest_free. intros H. apply head_Some_elem_of in H.
  apply list_elem_of_filter in H as [H1 H2]. apply elem_of_seqZ in H2. split; [lia|done].
Qed.

Lemma foldr_max_ge (p n : positive) l : p ∈ l → (p ≤ foldr Pos.max n l)%positive.
Proof. induction 1; simpl; lia. Qed.

Lemma new_pipe_unused w : pipe_unused (new_pipe w) (fds w).
Proof.
  assert (∀ fd o, fds w !! fd = Some o → pipe_id o ≠ new_pipe w) as H.
  { intros fd o Ho. unfold new_pipe.
    assert (pipe_id o ≤ foldr Pos.max (next_pipe w) (pipe_id <$> (map_to_list (fds w)).*2))%positive;
      [|lia].
    apply foldr_max_ge, list_elem_of_fmap_2, list_elem_of_fmap.
    exists (fd, o). split; [done|]. by apply elem_of_map_to_list. }
  intros fd. split; intros E; by apply H in E.
Qed.

(** *** Processes *)

Definition fork (w : t) : Z * t * t :=
  let c := next_pid w in
  if decide (c ≤ 0) then (-1, set_err EAGAIN w, w) else
  let g := default (pid w) (procs w !! pid w) in
  let ps := <[c := g]> (procs w) in
  (c,
   mk (fds w) (err w) (limit w) (next_pipe w) (pid w) (c + 1) ps (log w)
     (<[c := None]> (kids w)) (deaths w) (err_out w) (execs w),
   mk (fds w) (err w) (limit w) (next_pipe w) c (c + 1) ps (log w) ∅ [] (err_out w) (execs w)).

Definition getpgid (p : Z) (w : t) : Z * t :=
  if decide (p < 0) then fail (-1) ESRCH w else
  match procs w !! (if p =? 0 then pid w else p) with
  | Some g => if decide (0 < g) then (g, w) else fail (-1) ESRCH w
  | None => fail (-1) ESRCH w
  end.

Definition kill (p sig : Z) (w : t) : Z * t :=
  let l := filter (λ q, addressee (pid w) (procs w) p q = true) (map_to_list (procs w)).*1 in
  match l with
  | [] => fail (-1) ESRCH w
  | _ => (0, set_log (log w ++ map (λ q, (q, sig)) l) w)
  end.

(** The programs of this system: absolute paths, all of which succeed. *)
Definition execve (fn : str) (argv env : list str) (w : t) : (Z + Z) * t :=
  if bool_decide (head fn = Some "/"%char) then (inr 0, add_exec (mkImage fn argv env (fds w)) w)
  else fail (inl (-1)) ENOENT w.

(** The status words of a dead process. *)
Definition exit_words : list Z :=
  map (λ c, Wait.encode (Wait.Exited c)) (seqZ 0 256) ++
  map (λ s, Wait.encode (Wait.Signaled s false)) (seqZ 1 126) ++
  map (λ s, Wait.encode (Wait.Signaled s true)) (seqZ 1 126).

(** The children as the laws see them: positive pids, status words of dead processes. *)
Definition sane (o : option Z) : option Z :=
  match o with Some st => Some (if bool_decide (st ∈ exit_words) then st else 0) | None => None end.
Definition kids_view (w : t) : gmap Z (option Z) :=
  sane <$> filter (λ kv, 0 < kv.1) (kids w).

Definition die (v : gmap Z (option Z)) (d : Z * Z) : gmap Z (option Z) :=
  match v !! d.1 with Some None => <[d.1 := sane (Some d.2)]> v | _ => v end.

(** A blocking call on a child that never dies is interrupted by a signal ([EINTR]).
    The deaths that happen before the next call returns: the scheduled batch, or,
    when the call blocks ([WNOHANG] not given), all that are still to come. *)
Definition batch (opts : Z) (w : t) : list (Z * Z) :=
  if Z.testbit opts 0 then default [] (head (deaths w)) else concat (deaths w).
Definition later (opts : Z) (w : t) : list (list (Z * Z)) :=
  if Z.testbit opts 0 then tail (deaths w) else [].
Definition tick (opts : Z) (w : t) : gmap Z (option Z) :=
  foldl die (kids_view w) (batch opts w).

Definition in_group (w : t) (p : Z) : bool := bool_decide (procs w !! p = procs w !! pid w).

Definition waitpid (p opts : Z) (w : t) : (Z * Z) * t :=
  let v := tick opts w in
  let w1 := set_kids v (later opts w) w in
  if decide (0 < p) then
    match v !! p with
    | Some (Some st) => ((p, st), set_kids (delete p v) (later opts w) w)
    | Some None => if Z.testbit opts 0 then ((0, 0), w1) else fail (-1, 0) EINTR w1
    | None => fail (-1, 0) ECHILD w1
    end
  else
    match filter (λ q, in_group w q.1 = true ∧ is_Some q.2) (map_to_list v) with
    | (q, Some st) :: _ => ((q, st), set_kids (delete q v) (later opts w) w)
    | _ => if existsb (in_group w) (map_to_list v).*1 then ((0, 0), w1)
           else fail (-1, 0) ECHILD w1
    end.

(** *** Lemmas on the children *)

Definition wf_view (v : gmap Z (option Z)) : Prop :=
  ∀ p o, v !! p = Some o → 0 < p ∧ sane o = o.

Lemma sane_idem o : sane (sane o) = sane o.
Proof.
  destruct o as [st|]; [|done]. unfold sane. f_equal.
  destruct (bool_decide (st ∈ exit_words)) eqn:E; [by rewrite E|by case_bool_decide].
Qed.

Lemma exit_words_spec st :
  st ∈ exit_words → ∃ c, Wait.change_ok c = true ∧ st = Wait.encode c ∧ Wait.terminal st = true.
Proof.
  unfold exit_words. rewrite !elem_of_app, !list_elem_of_In, !in_map_iff.
  setoid_rewrite <- list_elem_of_In. setoid_rewrite elem_of_seqZ.
  intros [(c & <- & Hc)|[(c & <- & Hc)|(c & <- & Hc)]]; eexists;
    (split; [|split; [reflexivity|rewrite terminal_encode; [reflexivity|]]]); simpl; lia.
Qed.

Lemma sane_id_spec st : sane (Some st) = Some st →
  ∃ c, Wait.change_ok c = true ∧ st = Wait.encode c ∧ Wait.terminal st = true.
Proof.
  unfold sane. case_bool_decide; [intros _; by apply exit_words_spec|intros [= <-]].
  by exists (Wait.Exited 0).
Qed.

Lemma kids_view_wf w : wf_view (kids_view w).
Proof.
  intros p o. unfold kids_view. rewrite lookup_fmap_Some. intros (o' & <- & H).
  apply map_lookup_filter_Some in H as [_ H]. by rewrite sane_idem.
Qed.

Lemma kids_view_id v ds w : wf_view v → kids_view (set_kids v ds w) = v.
Proof.
  intros Hv. apply map_eq. intros p. unfold kids_view; simpl. rewrite lookup_fmap.
  destruct (v !! p) as [o|] eqn:E.
  - destruct (Hv _ _ E) as [Hp Ho].
    rewrite (proj2 (map_lookup_filter_Some _ _ _ o)); [|done]. simpl. by rewrite Ho.
  - rewrite (proj2 (map_lookup_filter_None _ _ _)); [done|by left].
Qed.

Lemma die_wf v d : wf_view v → wf_view (die v d).
Proof.
  intros Hv p o. unfold die. destruct (v !! d.1) as [[?|]|] eqn:E; [by apply Hv| |by apply Hv].
  rewrite lookup_insert. case_decide; [|by apply Hv]. intros [= <-].
  subst p. split; [by apply (Hv _ _ E)|apply (sane_idem (Some d.2))].
Qed.

Lemma delete_wf v p : wf_view v → wf_view (delete p v).
Proof. intros Hv q o. rewrite lookup_delete. case_decide; [done|apply Hv]. Qed.

Lemma evolves_refl v : evolves v v.
Proof. by split. Qed.

Lemma evolves_trans v1 v2 v3 : evolves v1 v2 → evolves v2 v3 → evolves v1 v3.
Proof. intros [D1 E1] [D2 E2]. split; [congruence|eauto]. Qed.

Lemma die_evolves v d : evolves v (die v d).
Proof.
  unfold die. destruct (v !! d.1) as [[?|]|] eqn:E; [apply evolves_refl| |apply evolves_refl].
  split.
  - rewrite dom_insert_lookup_L; [done|by eexists].
  - intros p st Hp. rewrite lookup_insert_ne; [done|]. congruence.
Qed.

Lemma foldl_die ds v : wf_view v → wf_view (foldl die v ds) ∧ evolves v (foldl die v ds).
Proof.
  revert v. induction ds as [|d ds IH]; intros v Hv; simpl.
  - split; [done|apply evolves_refl].
  - destruct (IH _ (die_wf _ d Hv)). split; [done|].
    eapply evolves_trans; [apply die_evolves|done].
Qed.

Lemma tick_wf opts w : wf_view (tick opts w).
Proof. apply foldl_die, kids_view_wf. Qed.

Lemma tick_evolves opts w : evolves (kids_view w) (tick opts w).
Proof. apply foldl_die, kids_view_wf. Qed.

(** *** Instances *)

#[global] Instance errno_kernel : Errno t := err.

#[global] Instance pid_kernel : Pid t := pid.

#[global] Instance fd_kernel : FdKernel t := {|
  fd_table := fds; sys_pipe := pipe; sys_dup := dup; sys_dup2 := dup2;
  sys_close := close |}.

#[global] Instance fork_kernel : ForkKernel t := {|
  sys_fork := fork; sys_vfork := fork; cerr_write := say |}.

#[global] Instance proc_kernel : ProcKernel t := {|
  groups := procs; signal_log := log; children := kids_view;
  sys_getpgid := getpgid; sys_kill := kill; sys_waitpid := waitpid |}.

#[global] Instance exec_kernel : ExecKernel t := {| images := execs; sys_execve := execve |}.

#[global] Instance exec_laws : ExecLaws t.
Proof.
  split. intros fn argv env w r w'. simpl. unfold execve, fail.
  case_bool_decide; intros [= <- <-]; [right|by left].
  exists 0, []. simpl. split_and!; [done|lia|lia|done].
Qed.

#[global] Instance fd_laws : FdLaws t.
Proof.
  split; simpl.
  - intros w rc r x w'. unfold pipe, fail.
    case_decide; [intros [= <- <- <- <-]; auto|].
    destruct (lowest_free (fds w)) as [r0|] eqn:Er; [|intros [= <- <- <- <-]; auto].
    destruct (lowest_free (<[r0:=PipeRead (new_pipe w)]> (fds w))) as [x0|] eqn:Ex; [|intros [= <- <- <- <-]; auto].
    intros [= <- <- <- <-]. right.
    apply lowest_free_spec in Er as [Hr1 Hr2]. apply lowest_free_spec in Ex as [Hx1 Hx2].
    apply lookup_insert_None in Hx2 as [Hx2 Hx3]. repeat split; auto.
    exists (new_pipe w). split; [apply new_pipe_unused|done].
  - intros fd w rc w'. unfold dup, fail.
    destruct (fds w !! fd) as [o|] eqn:E; [|intros [= <- <-]; auto].
    case_decide; [intros [= <- <-]; auto|].
    destruct (lowest_free (fds w)) as [n|] eqn:En; [|intros [= <- <-]; auto].
    apply lowest_free_spec in En as [? ?]. intros [= <- <-]. right. eauto.
  - intros old new w rc w'. unfold dup2, fail.
    destruct (fds w !! old) as [o|] eqn:E; intros [= <- <-]; [right; eauto|auto].
  - intros fd w rc w'. unfold close, fail.
    destruct (fds w !! fd) eqn:E; intros [= <- <-]; simpl; [done|]. by rewrite delete_id.
Qed.

#[global] Instance limit_kernel : FdLimit t := limit.

(** There is always a number that is not in use: one more candidate than entries. *)
Lemma lowest_free_is_Some (T : gmap Z Ofd) : is_Some (lowest_free T).
Proof.
  unfold lowest_free. destruct (filter _ _) as [|n l] eqn:El; [|by eexists]. exfalso.
  assert (∀ i, i ∈ seqZ 0 (Z.of_nat (S (size T))) → i ∈ (map_to_list T).*1) as Hin.
  { intros i Hi. destruct (T !! i) as [o|] eqn:Ei.
    - apply list_elem_of_fmap. exists (i, o). split; [done|]. by apply elem_of_map_to_list.
    - assert (i ∈ filter (λ i, T !! i = None) (seqZ 0 (Z.of_nat (S (size T))))) as H
        by (by apply list_elem_of_filter). rewrite El in H. by apply elem_of_nil in H. }
  pose proof (submseteq_length _ _ (NoDup_submseteq _ _ (NoDup_seqZ _ _) Hin)) as Hl.
  rewrite length_seqZ, length_fmap, length_map_to_list in Hl. lia.
Qed.

#[global] Instance room_laws : RoomLaws t.
Proof.
  split; simpl.
  - intros w rc q w'. unfold pipe, fail, fd_limit, limit_kernel.
    case_decide; [intros [= <- <- <-]; split; [done|lia]|].
    destruct (lowest_free_is_Some (fds w)) as [r ->].
    destruct (lowest_free_is_Some (<[r := PipeRead (new_pipe w)]> (fds w))) as [x ->].
    by intros [= <- <- <-].
  - intros fd w rc w'. unfold dup, fail, fd_limit, limit_kernel.
    destruct (fds w !! fd) as [o|]; [|intros [= <- <-]; split; [done|by intros []]].
    case_decide; [intros [= <- <-]; split; [done|lia]|].
    destruct (lowest_free (fds w)) as [n|] eqn:En; [|by destruct (lowest_free_is_Some (fds w)); congruence].
    apply lowest_free_spec in En as [? _]. intros [= <- <-]. split; [done|lia].
  - intros old new w rc w'. unfold dup2, fail.
    destruct (fds w !! old) as [o|]; intros [= <- <-]; [intros; lia|by intros _ []].
  - intros fd w rc w'. unfold close, fail. by destruct (fds w !! fd); intros [= <- <-].
  - intros w rc wp wc. unfold fork. case_decide; by intros [= <- <- <-].
Qed.

#[global] Instance frame_laws : FrameLaws t.
Proof.
  split; simpl.
  - intros p sig w rc w'. unfold kill, fail. by destruct (filter _ _); intros [= <- <-].
  - intros fd w rc w'. unfold close, fail. by destruct (fds w !! fd); intros [= <- <-].
  - intros p opts w r w'. unfold waitpid, fail.
    destruct (decide (0 < p)).
    + destruct (tick opts w !! p) as [[]|]; [|destruct (Z.testbit opts 0)|]; by intros [= <- <-].
    + destruct (filter _ (map_to_list (tick opts w))) as [|[q [st|]] l];
        [destruct (existsb _ _)|..|destruct (existsb _ _)]; by intros [= <- <-].
  - intros fd w rc w'. unfold dup, fail. destruct (fds w !! fd); [|by intros [= <- <-]].
    case_decide; [by intros [= <- <-]|]. by destruct (lowest_free _); intros [= <- <-].
Qed.

#[global] Instance fork_laws : ForkLaws t.
Proof.
  split; simpl; [| |done]; intros w rc wp wc; unfold fork; case_decide;
    intros [= <- <- <-]; simpl; repeat split; auto; right; split; auto; lia.
Qed.

Lemma waitpid_one_ok p w rc st w' :
  0 < p → waitpid p Wait.no_hang w = ((rc, st), w') →
  procs w' = procs w ∧ pid w' = pid w ∧
  ∃ v, evolves (kids_view w) v ∧
    match v !! p with
    | Some (Some st') => rc = p ∧ st = st' ∧ kids_view w' = delete p v
    | Some None => rc = 0 ∧ kids_view w' = v
    | None => rc = -1 ∧ err w' = ECHILD ∧ kids_view w' = v
    end.
Proof.
  intros Hp. unfold waitpid. rewrite decide_True by done. intros E.
  pose proof (tick_wf Wait.no_hang w) as Hwf. pose proof (tick_evolves Wait.no_hang w) as Hev.
  remember (tick Wait.no_hang w) as v eqn:Ev.
  destruct (v !! p) as [[s|]|] eqn:L; injection E as <- <- <-; (split; [done|]); (split; [done|]);
    exists v; (split; [done|]); rewrite L; repeat split;
    try (rewrite kids_view_id; [done|by try apply delete_wf]).
  change (kids_view (set_err ECHILD ?x)) with (kids_view x). by apply kids_view_id.
Qed.

Lemma waitpid_group_ok w rc st w' :
  waitpid 0 Wait.no_hang w = ((rc, st), w') →
  procs w' = procs w ∧ pid w' = pid w ∧
  ∃ v, evolves (kids_view w) v ∧
    ((v !! rc = Some (Some st) ∧ Wait.terminal st = true ∧ in_group w rc = true ∧ kids_view w' = delete rc v) ∨
     (rc = 0 ∧ kids_view w' = v ∧ ∀ p s, v !! p = Some (Some s) → in_group w p = false) ∨
     (rc = -1 ∧ err w' = ECHILD ∧ kids_view w' = v ∧
      ∀ p s, v !! p = Some s → in_group w p = false)).
Proof.
  unfold waitpid. rewrite decide_False by lia. intros E.
  pose proof (tick_wf Wait.no_hang w) as Hwf. pose proof (tick_evolves Wait.no_hang w) as Hev.
  remember (tick Wait.no_hang w) as v eqn:Ev.
  destruct (filter _ (map_to_list v)) as [|[q o] l] eqn:F.
  - assert (∀ p s, v !! p = Some (Some s) → in_group w p = false) as Hz.
    { intros p s Hp. apply elem_of_map_to_list in Hp.
      destruct (in_group w p) eqn:G; [|done]. exfalso.
      assert ((p, Some s) ∈ filter (λ q, in_group w q.1 = true ∧ is_Some q.2) (map_to_list v)) as H
        by (apply list_elem_of_filter; split; [split; eauto|done]).
      rewrite F in H. by apply elem_of_nil in H. }
    destruct (existsb _ _) eqn:X; injection E as <- <- <-; (split; [done|]); (split; [done|]);
      exists v; (split; [done|]); right.
    + left. repeat split; [|done]. by apply kids_view_id.
    + right. repeat split; [by apply (kids_view_id v (later Wait.no_hang w) w)|].
      intros p s' Hp. destruct (in_group w p) eqn:G; [|done].
      apply not_true_iff_false in X. exfalso. apply X, existsb_exists.
      exists p. split; [|done]. apply list_elem_of_In, list_elem_of_fmap.
      exists (p, s'). split; [done|]. by apply elem_of_map_to_list.
  - assert ((q, o) ∈ filter (λ q, in_group w q.1 = true ∧ is_Some q.2) (map_to_list v)) as H
      by (rewrite F; by left).
    apply list_elem_of_filter in H as [[G [s Hs]] Hq]. simpl in G, Hs. subst o.
    injection E as <- <- <-. (split; [done|]); (split; [done|]). exists v. split; [done|].
    left. apply elem_of_map_to_list in Hq.
    destruct (Hwf _ _ Hq) as [_ Hs]. apply sane_id_spec in Hs as (_ & _ & _ & Hs).
    repeat split; [done..|]. by apply kids_view_id, delete_wf.
Qed.

#[global] Instance proc_laws : ProcLaws t.
Proof.
  split; simpl.
  - intros p w rc w'. unfold getpgid, fail. case_decide.
    { intros [= <- <-]. repeat split; auto. }
    destruct (procs w !! (if p =? 0 then pid w else p)) eqn:E; [case_decide|]; intros [= <- <-];
      repeat split; auto; lia.
  - intros p sig w rc w'. unfold kill, fail.
    set (l := filter _ _). destruct l as [|q l'] eqn:E; intros [= <- <-]; [by left|right].
    split; [done|]. exists (q :: l'). repeat split.
    + rewrite <- E. apply Forall_forall. intros x Hx. by apply list_elem_of_filter in Hx as [? _].
    + rewrite <- E. apply NoDup_filter, NoDup_fst_map_to_list.
    + done.
  - intros p opts w rc st w' Hp. unfold waitpid. rewrite decide_True by done.
    pose proof (tick_wf opts w) as Hwf.
    destruct (tick opts w !! p) as [[s|]|] eqn:L;
      [|destruct (Z.testbit opts 0) eqn:Eo|]; intros [= <- <- <-]; [|tauto..].
    right. right. split; [done|]. apply Hwf in L as [_ L].
    apply sane_id_spec in L as (c & ? & ? & _). eauto.
  - intros p opts w dead rc st w' _ Hd.
    destruct (kids_view_wf _ _ _ Hd) as [Hp _]. destruct (tick_evolves opts w) as [_ Hev].
    unfold waitpid. rewrite decide_True by done. rewrite (Hev _ _ Hd).
    intros [= <- <- <-]. split; [done|]. split; [done|].
    rewrite kids_view_id by apply delete_wf, tick_wf. by rewrite lookup_delete_eq.
  - intros w p [o H]. by apply kids_view_wf in H as [? _].
  - exact waitpid_one_ok.
  - exact waitpid_group_ok.
Qed.

End Ref.
