(* ===== verification/Progress.v ===== *)
(** * Progress of one thread among others

    The library's loops run in a thread of their own while other threads and the
    kernel act on the same state.  [inevitable P n c] says that, from [c], the thread
    gets to [P] with at most [n] steps of its own, however the steps of the others are
    interleaved with them, and is never stuck before: under every schedule that keeps
    running the thread, [P] happens.  [inevitable_rank] proves it from a rank that the
    thread's steps decrease and the others do not increase. *)

From S2P Require Import Prelude.

Section progress.
Context {C : Type} (thread other : C → C → Prop).

(** An interleaving with [k] steps of the thread in which [P] did not hold before its
    last configuration. *)
Inductive unfinished (P : C → Prop) : nat → C → C → Prop :=
| unfinished_refl c : unfinished P 0 c c
| unfinished_thread k c c1 c' :
    ¬ P c → thread c c1 → unfinished P k c1 c' → unfinished P (S k) c c'
| unfinished_other k c c1 c' :
    ¬ P c → other c c1 → unfinished P k c1 c' → unfinished P k c c'.

Definition inevitable (P : C → Prop) (n : nat) (c : C) : Prop :=
  ∀ k c', unfinished P k c c' → ¬ P c' → (k < n)%nat ∧ ∃ c'', thread c' c''.

Lemma inevitable_rank (P J : C → Prop) (m : C → nat) c :
  J c →
  (∀ c, J c → ¬ P c → (0 < m c)%nat ∧ ∃ c', thread c c') →
  (∀ c c', J c → ¬ P c → thread c c' → P c' ∨ (J c' ∧ (m c' < m c)%nat)) →
  (∀ c c', J c → ¬ P c → other c c' → P c' ∨ (J c' ∧ (m c' ≤ m c)%nat)) →
  inevitable P (m c) c.
Proof.
  intros Hc Hen Hth Hot k c' Hr. revert Hc.
  induction Hr as [c|k c c1 c' Hn Hs Hr IH|k c c1 c' Hn Hs Hr IH]; intros Hc Hn'.
  - destruct (Hen c Hc Hn'). split; [lia|done].
  - destruct (Hth c c1 Hc Hn Hs) as [Hp|[Hc1 Hm]].
    + inversion Hr; by subst.
    + destruct (IH Hc1 Hn'). split; [lia|done].
  - destruct (Hot c c1 Hc Hn Hs) as [Hp|[Hc1 Hm]].
    + inversion Hr; by subst.
    + destruct (IH Hc1 Hn'). split; [lia|done].
Qed.

Lemma inevitable_mono P n n' c : (n ≤ n')%nat → inevitable P n c → inevitable P n' c.
Proof. intros Hle H k c' Hr Hn. destruct (H k c' Hr Hn). split; [lia|done]. Qed.
End progress.
