(* ===== verification/Extend.v ===== *)
(** * A kernel inside a larger state

    Several components run on a state that contains the kernel's and something of their
    own (a signal mask, the bytes in the pipes, the registry of an observer).  When the
    state [T] extends [S], the calls of a kernel on [S] are calls on [T] that leave the
    rest alone, and the laws carry over. *)

From S2P Require Import Prelude.
From S2P Require Import Types.
From S2P Require Import CppString.
From S2P Require Import Kernel.

(** [S] is a part of [T]. *)
Class Extends (T S : Type) : Type := {
  part : T → S;
  set_part : S → T → T;
  part_set s t : part (set_part s t) = s }.
#[export] Hint Mode Extends ! - : typeclass_instances.

Section extend.
Context {T S : Type} {X : Extends T S}.

Definition up {A} (f : S → A * S) (t : T) : A * T :=
  let '(a, s) := f (part t) in (a, set_part s t).

Lemma up_inv {A} (f : S → A * S) t a t' :
  up f t = (a, t') → f (part t) = (a, part t') ∧ t' = set_part (part t') t.
Proof. unfold up. destruct (f (part t)) as [b s]. intros [= <- <-]. by rewrite part_set. Qed.

Definition errno_up {E : Errno S} : Errno T := λ t, errno (part t).
Definition pid_up {I : Pid S} : Pid T := λ t, getpid (part t).

Definition fd_up {K : FdKernel S} : FdKernel T := {|
  fd_table := λ t, fd_table (part t);
  sys_pipe := up sys_pipe;
  sys_dup := λ fd, up (sys_dup fd);
  sys_dup2 := λ o n, up (sys_dup2 o n);
  sys_close := λ fd, up (sys_close fd) |}.

Definition proc_up {P : ProcKernel S} : ProcKernel T := {|
  groups := λ t, groups (part t);
  signal_log := λ t, signal_log (part t);
  children := λ t, children (part t);
  sys_getpgid := λ p, up (sys_getpgid p);
  sys_kill := λ p s, up (sys_kill p s);
  sys_waitpid := λ p o, up (sys_waitpid p o) |}.

(** Both processes have the rest of the state. *)
Definition fork_up {F : ForkKernel S} : ForkKernel T := {|
  sys_fork := λ t, let '(rc, p, c) := sys_fork (part t) in (rc, set_part p t, set_part c t);
  sys_vfork := λ t, let '(rc, p, c) := sys_vfork (part t) in (rc, set_part p t, set_part c t);
  cerr_write := λ s t, set_part (cerr_write s (part t)) t |}.

Lemma fork_laws_up {I : Pid S} {K : FdKernel S} {F : ForkKernel S} {K' : FdKernel T} :
  (∀ t, fd_table t = fd_table (part t)) → ForkLaws S → ForkLaws T (I := pid_up) (K := K') (F := fork_up).
Proof.
  intros Ht L. split; simpl.
  - intros w rc wp wc. destruct (sys_fork (part w)) as [[rc1 p] c] eqn:Ef. intros [= <- <- <-].
    apply fork_law in Ef. rewrite !Ht. unfold pid_up, getpid. by rewrite !part_set.
  - intros w rc wp wc. destruct (sys_vfork (part w)) as [[rc1 p] c] eqn:Ef. intros [= <- <- <-].
    apply vfork_law in Ef. rewrite !Ht. unfold pid_up, getpid. by rewrite !part_set.
  - intros s w. rewrite !Ht, part_set. apply cerr_law.
Qed.

Lemma fd_laws_up {K : FdKernel S} : FdLaws S → FdLaws T (K := fd_up).
Proof.
  intros L. split; simpl.
  - intros ????? [H _]%up_inv. exact (pipe_law _ _ _ _ _ H).
  - intros ???? [H _]%up_inv. exact (dup_law _ _ _ _ H).
  - intros ????? [H _]%up_inv. exact (dup2_law _ _ _ _ _ H).
  - intros ???? [H _]%up_inv. exact (close_law _ _ _ _ H).
Qed.

Lemma proc_laws_up {E : Errno S} {I : Pid S} {P : ProcKernel S} :
  ProcLaws S → ProcLaws T (E := errno_up) (I := pid_up) (P := proc_up).
Proof.
  intros L. split; simpl.
  - intros ???? [H _]%up_inv. exact (getpgid_law _ _ _ _ H).
  - intros ????? [H _]%up_inv. exact (kill_law _ _ _ _ _ H).
  - intros ?????? Hp [H _]%up_inv. exact (waitpid_status_law _ _ _ _ _ _ Hp H).
  - intros ??????? Ho Hd [H _]%up_inv. exact (waitpid_dead_law _ _ _ _ _ _ _ Ho Hd H).
  - intros ??. apply child_pid_law.
  - intros ????? Hp [H _]%up_inv. exact (waitpid_one_law _ _ _ _ _ Hp H).
  - intros ???? [H _]%up_inv. exact (waitpid_group_law _ _ _ _ H).
Qed.
End extend.
