(* ===== verification/PipeIO.v ===== *)
(** * Bytes in pipes, and several processes that share them

    read(2), write(2) and poll(2) on pipes ([PipeIO]), with the bytes a pipe holds as an
    observation of the kernel, and the switch from one process to another ([Scheduler]):
    descriptor tables belong to processes, pipes do not.  [Module RefSync] is an executable
    kernel with pipe buffers that satisfies the laws. *)

From S2P Require Import Prelude.
From S2P Require Import Types.
From S2P Require Import CppString.
From S2P Require Import Kernel.
From S2P Require Import RefKernel.
From S2P Require Import Extend.

Class PipeIO (W : Type) : Type := {
  buffer : W → positive → list Z;
  sys_poll : Z → bool → Z → W → Z * W;           (* fd, POLLIN?, timeout *)
  sys_write : Z → list Z → W → Z * W;
  sys_read : Z → Z → W → (Z * list Z) * W }.

(** The rest of the kernel state is left alone. *)
Definition io_frame {W} `{FdKernel W} `{PipeIO W} (p : positive) (w w' : W) : Prop :=
  fd_table w' = fd_table w ∧ ∀ q, q ≠ p → buffer w' q = buffer w q.

(** A write appends what it writes; writes of a few bytes are atomic; a read takes what
    there is, up to the count; a descriptor that is not open is refused. *)
Class PipeIOLaws (W : Type) {K : FdKernel W} {O : PipeIO W} : Prop := {
  poll_law fd i t w rc w' :
    sys_poll fd i t w = (rc, w') → fd_table w' = fd_table w ∧ ∀ q, buffer w' q = buffer w q;
  write_append_law fd p data w n w' :
    fd_table w !! fd = Some (PipeWrite p) → sys_write fd data w = (n, w') →
    io_frame p w w' ∧
    ((n = -1 ∧ buffer w' p = buffer w p) ∨
     (0 ≤ n ≤ Z.of_nat (length data) ∧ buffer w' p = buffer w p ++ take (Z.to_nat n) data));
  write_law fd p data w n w' :
    Z.of_nat (length data) ≤ 512 → fd_table w !! fd = Some (PipeWrite p) →
    sys_write fd data w = (n, w') →
    io_frame p w w' ∧
    ((n = -1 ∧ buffer w' p = buffer w p) ∨
     (n = Z.of_nat (length data) ∧ buffer w' p = buffer w p ++ data));
  read_law fd p count w n data w' :
    fd_table w !! fd = Some (PipeRead p) → sys_read fd count w = ((n, data), w') →
    io_frame p w w' ∧
    ((n = -1 ∧ buffer w' p = buffer w p) ∨
     (data = take (Z.to_nat count) (buffer w p) ∧ n = Z.of_nat (length data) ∧
      buffer w' p = drop (Z.to_nat count) (buffer w p)));
  write_bad_law fd data w n w' :
    fd_table w !! fd = None → sys_write fd data w = (n, w') →
    n = -1 ∧ fd_table w' = fd_table w ∧ ∀ q, buffer w' q = buffer w q;
  read_bad_law fd count w n data w' :
    fd_table w !! fd = None → sys_read fd count w = ((n, data), w') →
    n = -1 ∧ fd_table w' = fd_table w ∧ ∀ q, buffer w' q = buffer w q;
  (* a new pipe is empty, the ones in use keep their bytes *)
  pipe_buffer_law w rc r x w' q :
    sys_pipe w = ((rc, (r, x)), w') →
    (¬ pipe_unused q (fd_table w) → buffer w' q = buffer w q) ∧
    (rc = 0 → fd_table w' !! r = Some (PipeRead q) → buffer w' q = []);
  dup_buffer_law fd w r w' : sys_dup fd w = (r, w') → ∀ q, buffer w' q = buffer w q;
  (* the bytes stay as long as somebody can read them *)
  close_buffer_law fd w r w' q n :
    sys_close fd w = (r, w') → fd_table w' !! n = Some (PipeRead q) → buffer w' q = buffer w q }.

(** The kernel runs the process whose table is [T]. *)
Class Scheduler (W : Type) : Type := schedule : gmap Z Ofd → W → W.

(** The pipes do not belong to a process: they keep their bytes over a context switch, and
    when one of the processes closes an end. *)
Class SchedulerLaws (W : Type) {K : FdKernel W} {O : PipeIO W} {Sc : Scheduler W} : Prop := {
  schedule_table T w : fd_table (schedule T w) = T;
  schedule_buffer T w q : buffer (schedule T w) q = buffer w q;
  close_shared_law fd w r w' q : sys_close fd w = (r, w') → buffer w' q = buffer w q }.

(** fork(2) does not touch the bytes in the pipes. *)
Class ForkBufferLaws (W : Type) {F : ForkKernel W} {O : PipeIO W} : Prop := {
  fork_buffer_law w rc wp wc q : sys_fork w = (rc, wp, wc) → buffer wp q = buffer w q }.

(** A kernel with pipe buffers. *)
Module RefSync.
Record t : Type := mk { base : Ref.t; bufs : gmap positive (list Z) }.

Definition buf (w : t) (p : positive) : list Z := default [] (bufs w !! p).

#[global] Instance extends : Extends t Ref.t := {|
  part := base; set_part := λ b w, mk b (bufs w); part_set := λ _ _, eq_refl |}.
#[global] Instance errno_sync : Errno t := errno_up.

(** A new pipe starts empty. *)
Definition pipe (w : t) : (Z * (Z * Z)) * t :=
  let '(r, w') := up sys_pipe w in
  (r, match fd_table (part w') !! r.2.1 with
      | Some (PipeRead p) => mk (base w') (if r.1 =? 0 then delete p (bufs w') else bufs w')
      | _ => w'
      end).

#[global] Instance pid_sync : Pid t := pid_up.
#[global] Instance proc_sync : ProcKernel t := proc_up.
#[global] Instance fork_sync : ForkKernel t := fork_up.

#[global] Instance fd_sync : FdKernel t := {|
  fd_table := λ w, fd_table (base w);
  sys_pipe := pipe;
  sys_dup := λ fd, up (sys_dup fd);
  sys_dup2 := λ o n, up (sys_dup2 o n);
  sys_close := λ fd, up (sys_close fd) |}.

Lemma pipe_base w r w' : pipe w = (r, w') → Ref.pipe (base w) = (r, base w').
Proof.
  unfold pipe. destruct (up sys_pipe w) as [r1 w1] eqn:Eu. apply up_inv in Eu as [H _].
  intros [= <- <-]. simpl in H. rewrite H. f_equal. by repeat case_match.
Qed.

#[global] Instance fd_sync_laws : FdLaws t.
Proof.
  destruct (fd_laws_up (T := t) Ref.fd_laws) as [_ H2 H3 H4]. split; [|exact H2|exact H3|exact H4].
  intros w rc r x w' H%pipe_base. exact (pipe_law (FdLaws := Ref.fd_laws) _ _ _ _ _ H).
Qed.

Lemma up_bufs {A} (f : Ref.t → A * Ref.t) w a w' : up f w = (a, w') → bufs w' = bufs w.
Proof. by intros [_ ->]%up_inv. Qed.

Definition write (fd : Z) (data : list Z) (w : t) : Z * t :=
  match Ref.fds (base w) !! fd with
  | Some (PipeWrite p) => (Z.of_nat (length data), mk (base w) (<[p := buf w p ++ data]> (bufs w)))
  | _ => (-1, w)
  end.
Definition read (fd count : Z) (w : t) : (Z * list Z) * t :=
  match Ref.fds (base w) !! fd with
  | Some (PipeRead p) =>
      let data := take (Z.to_nat count) (buf w p) in
      ((Z.of_nat (length data), data), mk (base w) (<[p := drop (Z.to_nat count) (buf w p)]> (bufs w)))
  | _ => ((-1, []), w)
  end.
(** Input is ready when the pipe is not empty, output always. *)
Definition poll (fd : Z) (input : bool) (timeout : Z) (w : t) : Z * t :=
  match Ref.fds (base w) !! fd with
  | Some (PipeRead p) => (if input && negb (bool_decide (buf w p = [])) then 1 else 0, w)
  | Some (PipeWrite _) => (if input then 0 else 1, w)
  | _ => (0, w)
  end.

#[global] Instance io_kernel : PipeIO t := {|
  buffer := buf; sys_poll := poll; sys_write := write; sys_read := read |}.

Lemma buf_insert w p l q :
  buf (mk (base w) (<[p := l]> (bufs w))) q = if decide (q = p) then l else buf w q.
Proof. unfold buf. simpl. rewrite lookup_insert. repeat case_decide; naive_solver. Qed.

Lemma buf_same w w' : bufs w' = bufs w → ∀ q, buf w' q = buf w q.
Proof. unfold buf. by intros ->. Qed.

#[global] Instance io_laws : PipeIOLaws t.
Proof.
  split; simpl.
  - intros fd i tm w rc w'. unfold poll. destruct (Ref.fds (base w) !! fd) as [[]|]; by intros [= <- <-].
  - intros fd p data w n w' Hfd. unfold write. rewrite Hfd. intros [= <- <-]. split.
    + split; [done|]. intros q Hq. simpl. rewrite buf_insert. by case_decide.
    + right. split; [lia|]. rewrite buf_insert, Nat2Z.id, take_ge by lia. by case_decide.
  - intros fd p data w n w' _ Hfd. unfold write. rewrite Hfd. intros [= <- <-]. split.
    + split; [done|]. intros q Hq. simpl. rewrite buf_insert. by case_decide.
    + right. rewrite buf_insert. by case_decide.
  - intros fd p count w n data w' Hfd. unfold read. rewrite Hfd. intros [= <- <- <-]. split.
    + split; [done|]. intros q Hq. simpl. rewrite buf_insert. by case_decide.
    + right. rewrite buf_insert. by case_decide.
  - intros fd data w n w' Hfd. unfold write. rewrite Hfd. by intros [= <- <-].
  - intros fd count w n data w' Hfd. unfold read. rewrite Hfd. by intros [= <- <- <-].
  - intros w rc r x w' q. unfold pipe. destruct (up sys_pipe w) as [r1 w1] eqn:Eu.
    pose proof (up_bufs _ _ _ _ Eu) as Hw1. apply up_inv in Eu as [Hb _]. intros [= -> <-].
    apply (pipe_law (FdLaws := Ref.fd_laws)) in Hb. simpl in *.
    destruct Hb as [[-> Ht]|(-> & _ & _ & _ & _ & _ & p & Hp & Ht)].
    + split; [|done]. intros _. by repeat case_match; apply buf_same.
    + assert (Ref.fds (base w1) !! r = Some (PipeRead p)) as Hr by (rewrite Ht; apply lookup_insert_eq).
      rewrite Hr. simpl. rewrite Hr. unfold buf; simpl. split.
      * intros Hq. rewrite lookup_delete_ne, Hw1; [done|]. by intros ->.
      * intros _ [= <-]. by rewrite lookup_delete_eq.
  - intros fd w r w' H%up_bufs. by apply buf_same.
  - intros fd w r w' q n H%up_bufs _. by apply buf_same.
Qed.
End RefSync.

(** A context switch of [RefSync]. *)
#[export] Instance ref_schedule : Scheduler RefSync.t := λ T w,
  RefSync.mk (Ref.set_fds T (RefSync.base w)) (RefSync.bufs w).

#[export] Instance ref_schedule_laws : SchedulerLaws RefSync.t.
Proof. split; [done|done|]. intros fd w r w' q H%RefSync.up_bufs. by apply RefSync.buf_same. Qed.

#[export] Instance ref_fork_sync_laws : ForkLaws RefSync.t := fork_laws_up (λ _, eq_refl) Ref.fork_laws.

#[export] Instance ref_fork_buffers : ForkBufferLaws RefSync.t.
Proof.
  split. intros w rc wp wc q. simpl. destruct (Ref.fork (RefSync.base w)) as [[rc1 p] c]. by intros [= <- <- <-].
Qed.
