(* ===== verification/Pipe.v ===== *)
(** * core::posix::ChildProcess::Pipe

    The RAII pair of descriptors of [core/posix/child_process.cpp] (lines
    191-271): constructor, copy constructor, assignment, destructor, the two
    closers and the static [invalid()] instance.  The second half is the
    ownership discipline the other files use: [owns b L T] says that the
    descriptor table [T] is the base table [b] plus exactly the descriptors [L]. *)

From S2P Require Import Prelude.
From S2P Require Import Types.
From S2P Require Import Kernel.
From S2P Require Import RefKernel.

Module Pipe.

(** [int fds[2]] *)
Record t : Type := mk { fds0 : Z; fds1 : Z }.

#[global] Instance eq_dec : EqDecision t.
Proof. solve_decision. Defined.

Section operations.
Context {W : Type} {E : Errno W} {K : FdKernel W}.

Definition ctor : M W t :=
  '(rc, (f0, f1)) ← call sys_pipe;
  check_rc rc ;;
  mret (mk f0 f1).

(** [if (fd != -1) x = ::dup(fd);] with [x] initialised to -1 *)
Definition dup_end (fd : Z) (w : W) : Z * W :=
  if fd =? -1 then (-1, w) else sys_dup fd w.

(** [if (fd != -1) ::close(fd);] *)
Definition close_end (fd : Z) (w : W) : W :=
  if fd =? -1 then w else (sys_close fd w).2.

Definition copy (rhs : t) (w : W) : t * W :=
  let '(f0, w1) := dup_end (fds0 rhs) w in
  let '(f1, w2) := dup_end (fds1 rhs) w1 in
  (mk f0 f1, w2).

Definition dtor (self : t) (w : W) : W :=
  close_end (fds1 self) (close_end (fds0 self) w).

Definition read_fd (self : t) : Z := fds0 self.
Definition write_fd (self : t) : Z := fds1 self.

Definition close_read_fd (self : t) (w : W) : t * W :=
  if fds0 self =? -1 then (self, w)
  else (mk (-1) (fds1 self), (sys_close (fds0 self) w).2).

Definition close_write_fd (self : t) (w : W) : t * W :=
  if fds1 self =? -1 then (self, w)
  else (mk (fds0 self) (-1), (sys_close (fds1 self) w).2).

(** [operator=]: the descriptors of [rhs] are read after the own ones were closed;
    writing [fds[0]] does not change [rhs.fds[1]], also when [rhs] is [*this]. *)
Definition assign (self rhs : t) (w : W) : t * W :=
  let w1 := close_end (fds1 self) (close_end (fds0 self) w) in
  let '(f0, w2) := dup_end (fds0 rhs) w1 in
  let '(f1, w3) := dup_end (fds1 rhs) w2 in
  (mk f0 f1, w3).

End operations.

(** The process memory the library keeps besides the kernel state: the function-local
    [static Pipe p] of [invalid()], [None] until it has been constructed. *)
Record env (W : Type) : Type := mkEnv { world : W; invalid_p : option t }.
Arguments mkEnv {W} _ _.
Arguments world {W} _.
Arguments invalid_p {W} _.

Section statics.
Context {W : Type} {E : Errno W} {K : FdKernel W}.

(** Runs a computation on the kernel state of the process. *)
Definition lift {A} (m : M W A) : M (env W) A :=
  zoom world (λ w e, mkEnv w (invalid_p e)) m.

Definition on_world (f : W → W) (e : env W) : env W := mkEnv (f (world e)) (invalid_p e).

(** First call: construct [p], then [call_once] closes both ends; every call returns a copy. *)
Definition invalid : M (env W) t :=
  p ← (s ← gets invalid_p;
       match s with
       | Some p => mret p
       | None =>
           p ← lift ctor;
           p ← lift (call (close_read_fd p));
           p ← lift (call (close_write_fd p));
           modify (λ e, mkEnv (world e) (Some p)) ;;
           mret p
       end);
  lift (call (copy p)).

End statics.

(** The descriptors a pipe object holds. *)
Definition held_end (fd : Z) : list Z := if decide (fd = -1) then [] else [fd].
Definition held (p : t) : list Z := held_end (fds0 p) ++ held_end (fds1 p).

Definition closed : t := mk (-1) (-1).

End Pipe.

#[global] Arguments Pipe.ctor : simpl never.
#[global] Arguments Pipe.copy : simpl never.
#[global] Arguments Pipe.dtor : simpl never.
#[global] Arguments Pipe.assign : simpl never.
#[global] Arguments Pipe.close_read_fd : simpl never.
#[global] Arguments Pipe.close_write_fd : simpl never.

(** ** Ownership of descriptors *)

Definition owns (b : gmap Z Ofd) (L : list Z) (T : gmap Z Ofd) : Prop :=
  NoDup L ∧
  (∀ fd, fd ∈ L → 0 ≤ fd ∧ is_Some (T !! fd) ∧ b !! fd = None) ∧
  (∀ fd, fd ∉ L → T !! fd = b !! fd).

#[export] Instance owns_Permutation b :
  Proper ((≡ₚ) ==> (=) ==> (↔)) (owns b).
Proof.
  intros L L' HL T ? <-. unfold owns. setoid_rewrite HL. done.
Qed.

Section owns.
Context (b : gmap Z Ofd).
Implicit Types (L : list Z) (T : gmap Z Ofd).

Lemma owns_nil T : owns b [] T ↔ T = b.
Proof.
  split; [|intros ->; split_and!; [constructor|set_solver|done]].
  intros (_ & _ & H). apply map_eq. intros fd. apply H. set_solver.
Qed.

Lemma owns_open L T fd : owns b L T → fd ∈ L → is_Some (T !! fd).
Proof. intros (_ & H & _) Hin. by apply H. Qed.

Lemma owns_alloc L T n o :
  owns b L T → 0 ≤ n → T !! n = None → owns b (n :: L) (<[n := o]> T).
Proof.
  intros (Hd & Hin & Hout) Hn HT.
  assert (n ∉ L) as Hnew by (intros Hi; destruct (Hin _ Hi) as (_ & [? E] & _); congruence).
  split_and!.
  - by constructor.
  - intros fd [->|Hfd]%elem_of_cons.
    + rewrite lookup_insert_eq. split_and!; [done|eauto|]. by rewrite <- Hout.
    + rewrite lookup_insert_ne by (intros ->; done). by apply Hin.
  - intros fd Hfd. rewrite lookup_insert_ne by set_solver. apply Hout. set_solver.
Qed.

Lemma owns_release L T n : owns b (n :: L) T → owns b L (delete n T).
Proof.
  intros (Hd & Hin & Hout). apply NoDup_cons in Hd as [Hn Hd]. split_and!; [done| |].
  - intros fd Hfd. rewrite lookup_delete_ne by (intros ->; done). apply Hin. set_solver.
  - intros fd Hfd. rewrite lookup_delete. case_decide as E.
    + subst. symmetry. apply Hin. set_solver.
    + apply Hout. set_solver.
Qed.

(** A base descriptor is never touched. *)
Lemma owns_base L T fd o : owns b L T → b !! fd = Some o → T !! fd = Some o.
Proof.
  intros (_ & Hin & Hout) Hb. rewrite Hout; [done|].
  intros Hi. destruct (Hin _ Hi) as (_ & _ & E). congruence.
Qed.
End owns.

Create HintDb fds discriminated.
#[export] Hint Resolve owns_alloc owns_release owns_open owns_base : fds.

(** ** The operations keep the books *)

Section pipe_lemmas.
Context {W : Type} {EW : Errno W} {K : FdKernel W} {LW : FdLaws W}.
Implicit Types (w : W) (p : Pipe.t) (b : gmap Z Ofd) (L : list Z).

(** The table after the closing idiom [if (fd != -1) ::close(fd);]. *)
Lemma close_end_table fd w :
  fd_table (Pipe.close_end fd w) = if decide (fd = -1) then fd_table w else delete fd (fd_table w).
Proof.
  unfold Pipe.close_end. case_Zeqb; case_decide; try done.
  destruct (sys_close fd w) as [rc w'] eqn:E. simpl. by eapply close_law.
Qed.

Lemma close_end_owns b L fd w :
  owns b (Pipe.held_end fd ++ L) (fd_table w) → owns b L (fd_table (Pipe.close_end fd w)).
Proof.
  rewrite close_end_table. unfold Pipe.held_end. case_decide; [done|]. apply owns_release.
Qed.

(** [dup] of an end: no end, a failure, or a fresh descriptor for the same file. *)
Lemma dup_end_spec fd w n w' :
  Pipe.dup_end fd w = (n, w') →
  (n = -1 ∧ fd_table w' = fd_table w) ∨
  (fd ≠ -1 ∧ 0 ≤ n ∧ fd_table w !! n = None ∧
   ∃ o, fd_table w !! fd = Some o ∧ fd_table w' = <[n := o]> (fd_table w)).
Proof.
  unfold Pipe.dup_end. case_Zeqb; [intros [= <- <-]; by left|].
  intros [|(? & ? & ?)]%dup_law; [by left|right; auto].
Qed.

Lemma dup_end_owns b L fd w n w' :
  Pipe.dup_end fd w = (n, w') →
  owns b L (fd_table w) → owns b (Pipe.held_end n ++ L) (fd_table w').
Proof.
  intros [[-> ->]|(_ & Hn & Hf & o & _ & ->)]%dup_end_spec HL; [done|].
  unfold Pipe.held_end. rewrite decide_False by lia. by apply owns_alloc.
Qed.

Lemma pipe_ctor_spec w r w' :
  Pipe.ctor w = (r, w') →
  (∃ e, r = Throw (SystemError e) ∧ fd_table w' = fd_table w) ∨
  (∃ p i, r = Ok p ∧ 0 ≤ Pipe.fds0 p ∧ 0 ≤ Pipe.fds1 p ∧ Pipe.fds0 p ≠ Pipe.fds1 p ∧
     fd_table w !! Pipe.fds0 p = None ∧ fd_table w !! Pipe.fds1 p = None ∧
     pipe_unused i (fd_table w) ∧
     fd_table w' =
       <[Pipe.fds0 p := PipeRead i]> (<[Pipe.fds1 p := PipeWrite i]> (fd_table w))).
Proof.
  unfold Pipe.ctor, call, check_rc, mbind, M_bind, throw_errno.
  destruct (sys_pipe w) as [[rc [f0 f1]] w1] eqn:E. simpl.
  destruct (pipe_law _ _ _ _ _ E) as [[-> HT]|(-> & H0 & H1 & Hne & F0 & F1 & i & Hi & HT)];
    simpl; intros [= <- <-]; [left; eauto|right].
  exists (Pipe.mk f0 f1), i. simpl. repeat split; auto; by apply Hi.
Qed.

Lemma ctor_owns b L w p w' :
  Pipe.ctor w = (Ok p, w') →
  owns b L (fd_table w) → owns b (Pipe.held p ++ L) (fd_table w').
Proof.
  intros [(e & ? & _)|(q & i & [= <-] & H0 & H1 & Hne & F0 & F1 & _ & ->)]%pipe_ctor_spec HL; [done|].
  unfold Pipe.held, Pipe.held_end. rewrite !decide_False by lia. simpl.
  apply owns_alloc; [by apply owns_alloc|done|]. by rewrite lookup_insert_ne.
Qed.

Lemma ctor_throw w e w' : Pipe.ctor w = (Throw e, w') → fd_table w' = fd_table w.
Proof. intros [(? & _ & ?)|(? & ? & ? & _)]%pipe_ctor_spec; done. Qed.

Lemma copy_owns b L rhs w p w' :
  Pipe.copy rhs w = (p, w') →
  owns b L (fd_table w) → owns b (Pipe.held p ++ L) (fd_table w').
Proof.
  unfold Pipe.copy. destruct (Pipe.dup_end _ w) as [f0 w1] eqn:E0.
  destruct (Pipe.dup_end _ w1) as [f1 w2] eqn:E1. intros [= <- <-] HL.
  unfold Pipe.held; simpl. rewrite (Permutation_app_comm (Pipe.held_end f0)), <- app_assoc.
  eauto using dup_end_owns.
Qed.

(** [refers w fd w' fd']: [fd'] is either invalid or open in [w'] on the file [fd] has in [w]. *)
Definition refers (T : gmap Z Ofd) (fd : Z) (T' : gmap Z Ofd) (fd' : Z) : Prop :=
  fd' = -1 ∨ fd ≠ -1 ∧ ∃ o, T !! fd = Some o ∧ T' !! fd' = Some o.

Lemma refers_mono T1 T fd T' T2 fd' :
  T1 ⊆ T → T' ⊆ T2 → refers T1 fd T' fd' → refers T fd T2 fd'.
Proof.
  intros H1 H2 [|(Hfd & o & Ho & Ho')]; [by left|right]. split; [done|]. exists o.
  split; [by eapply lookup_weaken|by eapply lookup_weaken].
Qed.

Lemma dup_end_refers fd w n w' :
  Pipe.dup_end fd w = (n, w') →
  fd_table w ⊆ fd_table w' ∧ refers (fd_table w) fd (fd_table w') n.
Proof.
  intros [[-> ->]|(Hne & Hn & Hf & o & Ho & ->)]%dup_end_spec; [split; [done|by left]|].
  split; [by apply insert_subseteq|right]. split; [done|]. exists o. by rewrite lookup_insert_eq.
Qed.

Definition pipe_open (T : gmap Z Ofd) (p : Pipe.t) : Prop :=
  ∀ fd, fd ∈ Pipe.held p → is_Some (T !! fd).

Lemma elem_of_held p fd : fd ∈ Pipe.held p ↔ fd ≠ -1 ∧ (fd = Pipe.fds0 p ∨ fd = Pipe.fds1 p).
Proof. unfold Pipe.held, Pipe.held_end. repeat case_decide; set_solver. Qed.

(** A copy adds entries, and its ends are open on the files of the original's ends. *)
Lemma copy_refers rhs w p w' :
  Pipe.copy rhs w = (p, w') → pipe_open (fd_table w) rhs →
  fd_table w ⊆ fd_table w' ∧
  refers (fd_table w) (Pipe.fds0 rhs) (fd_table w') (Pipe.fds0 p) ∧
  refers (fd_table w) (Pipe.fds1 rhs) (fd_table w') (Pipe.fds1 p).
Proof.
  unfold Pipe.copy. destruct (Pipe.dup_end (Pipe.fds0 rhs) w) as [f0 w1] eqn:E0.
  destruct (Pipe.dup_end (Pipe.fds1 rhs) w1) as [f1 w2] eqn:E1. intros [= <- <-] Hop. simpl.
  apply dup_end_refers in E0 as [S0 R0]. apply dup_end_spec in E1 as H1.
  apply dup_end_refers in E1 as [S1 _].
  split; [by etrans|split; [by eapply refers_mono; [..|exact R0]|]].
  destruct H1 as [[-> _]|(Hne & Hn & Hf & o & Ho & Ht)]; [by left|right].
  split; [done|]. exists o. rewrite Ht, lookup_insert_eq. split; [|done].
  destruct (Hop (Pipe.fds1 rhs)) as [o' Ho']; [apply elem_of_held; auto|].
  rewrite Ho'. by rewrite (lookup_weaken _ _ _ _ Ho' S0) in Ho.
Qed.

Lemma owns_pipe_open b L T p : owns b L T → Pipe.held p ⊆ L → pipe_open T p.
Proof. intros HL Hp fd Hfd. eapply owns_open; [done|by apply Hp]. Qed.

(** The source of a reference, seen in an earlier table in which it was already open. *)
Lemma refers_open T T1 p fd T' fd' :
  T ⊆ T1 → pipe_open T p → fd = Pipe.fds0 p ∨ fd = Pipe.fds1 p →
  refers T1 fd T' fd' → refers T fd T' fd'.
Proof.
  intros HT Hp Hfd [|(E & o & Ho & Ho')]; [by left|right]. split; [done|].
  destruct (Hp fd) as [o1 Ho1]; [by apply elem_of_held|].
  exists o1. split; [done|]. by rewrite (lookup_weaken _ _ _ _ Ho1 HT) in Ho; simplify_eq.
Qed.

Lemma pipe_open_mono T T' p : T ⊆ T' → pipe_open T p → pipe_open T' p.
Proof. intros HT Hp fd Hfd. destruct (Hp fd Hfd) as [o Ho]. exists o. by eapply lookup_weaken. Qed.

Lemma dtor_owns b L p w :
  owns b (Pipe.held p ++ L) (fd_table w) → owns b L (fd_table (Pipe.dtor p w)).
Proof.
  unfold Pipe.held, Pipe.dtor. rewrite <- app_assoc. eauto using close_end_owns.
Qed.

Lemma assign_owns b L self rhs w p w' :
  Pipe.assign self rhs w = (p, w') →
  owns b (Pipe.held self ++ L) (fd_table w) → owns b (Pipe.held p ++ L) (fd_table w').
Proof.
  unfold Pipe.assign. intros E HL. eapply copy_owns; [exact E|]. by apply dtor_owns.
Qed.

Lemma close_read_fd_owns b L p w p' w' :
  Pipe.close_read_fd p w = (p', w') →
  owns b (Pipe.held p ++ L) (fd_table w) → owns b (Pipe.held p' ++ L) (fd_table w').
Proof.
  unfold Pipe.close_read_fd. case_Zeqb as E; [by intros [= <- <-]|].
  intros [= <- <-] HL. unfold Pipe.held, Pipe.held_end at 1. simpl.
  assert (Pipe.close_end (Pipe.fds0 p) w = (sys_close (Pipe.fds0 p) w).2) as <-.
  { unfold Pipe.close_end. by case_Zeqb. }
  apply close_end_owns. unfold Pipe.held in HL. by rewrite <- app_assoc in HL.
Qed.

Lemma close_write_fd_owns b L p w p' w' :
  Pipe.close_write_fd p w = (p', w') →
  owns b (Pipe.held p ++ L) (fd_table w) → owns b (Pipe.held p' ++ L) (fd_table w').
Proof.
  unfold Pipe.close_write_fd. case_Zeqb as E; [by intros [= <- <-]|].
  intros [= <- <-] HL. unfold Pipe.held. simpl. rewrite app_nil_r.
  assert (Pipe.close_end (Pipe.fds1 p) w = (sys_close (Pipe.fds1 p) w).2) as <-.
  { unfold Pipe.close_end. by case_Zeqb. }
  apply close_end_owns. unfold Pipe.held in HL.
  by rewrite app_assoc, (Permutation_app_comm (Pipe.held_end (Pipe.fds1 p))).
Qed.

(** The static instance has been closed by the time anyone sees it. *)
Definition static_ok (e : Pipe.env W) : Prop :=
  match Pipe.invalid_p e with None => True | Some p => p = Pipe.closed end.

Lemma close_read_fd_table p w :
  (Pipe.close_read_fd p w).1 = Pipe.mk (-1) (Pipe.fds1 p) ∧
  fd_table (Pipe.close_read_fd p w).2 = fd_table (Pipe.close_end (Pipe.fds0 p) w).
Proof.
  unfold Pipe.close_read_fd, Pipe.close_end. destruct p as [f0 f1]. simpl.
  case_Zeqb; simpl; [by subst|done].
Qed.

Lemma close_write_fd_table p w :
  (Pipe.close_write_fd p w).1 = Pipe.mk (Pipe.fds0 p) (-1) ∧
  fd_table (Pipe.close_write_fd p w).2 = fd_table (Pipe.close_end (Pipe.fds1 p) w).
Proof.
  unfold Pipe.close_write_fd, Pipe.close_end. destruct p as [f0 f1]. simpl.
  case_Zeqb; simpl; [by subst|done].
Qed.

Lemma invalid_spec e r e' :
  static_ok e → Pipe.invalid e = (r, e') →
  fd_table (Pipe.world e') = fd_table (Pipe.world e) ∧ static_ok e' ∧
  ((r = Ok Pipe.closed ∧ Pipe.invalid_p e' = Some Pipe.closed) ∨
   (∃ x, r = Throw (SystemError x)) ∧ Pipe.invalid_p e = None).
Proof.
  unfold static_ok, Pipe.invalid, Pipe.lift, zoom, call, gets, modify, mbind, M_bind, mret, M_ret.
  assert (∀ w, Pipe.copy Pipe.closed w = (Pipe.closed, w)) as Hcopy by done.
  destruct e as [w [p|]]; simpl; [intros ->; rewrite Hcopy; intros [= <- <-]; simpl; auto|].
  destruct (Pipe.ctor w) as [rc w1] eqn:Ec. intros _ Hr.
  apply pipe_ctor_spec in Ec as [(x & -> & Ht)|(p & i & -> & H0 & H1 & Hne & F0 & F1 & _ & Ht)];
    [injection Hr as <- <-; simpl; eauto 10|].
  revert Hr. simpl. destruct (close_read_fd_table p w1) as [Ep1 Et1].
  destruct (Pipe.close_read_fd p w1) as [p1 w2] eqn:C1. cbn [fst snd] in Ep1, Et1. subst p1.
  simpl.
  destruct (close_write_fd_table (Pipe.mk (-1) (Pipe.fds1 p)) w2) as [Ep2 Et2].
  destruct (Pipe.close_write_fd (Pipe.mk (-1) (Pipe.fds1 p)) w2) as [p2 w3] eqn:C2.
  cbn [fst snd Pipe.fds0 Pipe.fds1] in Ep2, Et2. subst p2. simpl.
  change (Pipe.mk (-1) (-1)) with Pipe.closed.
  intros [= <- <-]. simpl. split; [|auto].
  rewrite Et2, close_end_table, Et1, close_end_table, Ht, !decide_False by lia.
  rewrite delete_insert_id by (rewrite lookup_insert_ne; done). by rewrite delete_insert_id.
Qed.
End pipe_lemmas.

(** ** Programs over pipe objects *)

(** [held_all ps]: the descriptors held by the live objects [ps]. *)
Definition held_all (ps : list Pipe.t) : list Z := ps ≫= Pipe.held.

#[export] Instance held_all_Permutation : Proper ((≡ₚ) ==> (≡ₚ)) held_all.
Proof. unfold held_all. solve_proper. Qed.

Lemma held_all_middle ps1 p ps2 : held_all (ps1 ++ p :: ps2) ≡ₚ Pipe.held p ++ held_all (ps1 ++ ps2).
Proof. by rewrite <- Permutation_middle. Qed.

Section programs.
Context {W : Type} {EW : Errno W} {K : FdKernel W} {LW : FdLaws W}.

(** One operation of a program that keeps its live [Pipe] objects in a list.  The
    right-hand side of an assignment is another live object. *)
Inductive pipe_step : list Pipe.t * W → list Pipe.t * W → Prop :=
| step_ctor ps w p w' :
    Pipe.ctor w = (Ok p, w') → pipe_step (ps, w) (p :: ps, w')
| step_ctor_throw ps w e w' :
    Pipe.ctor w = (Throw e, w') → pipe_step (ps, w) (ps, w')
| step_copy ps w q p w' :
    q ∈ ps → Pipe.copy q w = (p, w') → pipe_step (ps, w) (p :: ps, w')
| step_assign ps1 p ps2 w q p' w' :
    q ∈ ps1 ++ ps2 → Pipe.assign p q w = (p', w') →
    pipe_step (ps1 ++ p :: ps2, w) (ps1 ++ p' :: ps2, w')
| step_close_read ps1 p ps2 w p' w' :
    Pipe.close_read_fd p w = (p', w') →
    pipe_step (ps1 ++ p :: ps2, w) (ps1 ++ p' :: ps2, w')
| step_close_write ps1 p ps2 w p' w' :
    Pipe.close_write_fd p w = (p', w') →
    pipe_step (ps1 ++ p :: ps2, w) (ps1 ++ p' :: ps2, w')
| step_dtor ps1 p ps2 w :
    pipe_step (ps1 ++ p :: ps2, w) (ps1 ++ ps2, Pipe.dtor p w).

Definition books (b : gmap Z Ofd) (s : list Pipe.t * W) : Prop :=
  owns b (held_all s.1) (fd_table s.2).

Lemma pipe_step_books b s s' : pipe_step s s' → books b s → books b s'.
Proof.
  unfold books. destruct 1; simpl; rewrite ?held_all_middle;
    eauto using ctor_owns, copy_owns, assign_owns, close_read_fd_owns, close_write_fd_owns, dtor_owns.
  match goal with E : Pipe.ctor _ = (Throw _, _) |- _ => by rewrite (ctor_throw _ _ _ E) end.
Qed.

(** C5: in every program over [ChildProcess::Pipe] objects (construction, copy,
    assignment from another object, closing an end, destruction, in any order and
    with any system call failing) the descriptor table is at all times the
    initial one plus exactly the descriptors held by the live objects, each held
    once: no descriptor is leaked, closed twice or taken from the program. *)
Theorem pipe_ownership w ps w' :
  rtc pipe_step ([], w) (ps, w') →
  owns (fd_table w) (held_all ps) (fd_table w') ∧ (ps = [] → fd_table w' = fd_table w).
Proof.
  intros Hr. assert (books (fd_table w) (ps, w')) as Hb.
  { remember ([], w) as s eqn:Es. revert Hr.
    assert (books (fd_table w) s) as Hs by (subst; by apply owns_nil).
    generalize (ps, w'). clear Es. induction 1; eauto using pipe_step_books. }
  split; [exact Hb|]. intros ->. by apply owns_nil.
Qed.

(** Assigning a [Pipe] to itself is not a no-op: [operator=] has no
    self-assignment guard, so both ends are closed and the object becomes the
    invalid pipe [{-1, -1}]. *)
Theorem pipe_self_assignment p w :
  (Pipe.assign p p w).1 = Pipe.closed ∧
  ∀ fd, fd ∈ Pipe.held p → fd_table (Pipe.assign p p w).2 !! fd = None.
Proof.
  unfold Pipe.assign.
  set (w1 := Pipe.close_end (Pipe.fds1 p) (Pipe.close_end (Pipe.fds0 p) w)).
  assert (∀ fd, fd ∈ Pipe.held p → fd_table w1 !! fd = None) as Hgone.
  { intros fd. unfold w1, Pipe.held, Pipe.held_end. rewrite !close_end_table.
    repeat case_decide; simpl; set_unfold; rewrite ?lookup_delete_None; naive_solver. }
  assert (∀ fd w2, fd = -1 ∨ fd ∈ Pipe.held p → fd_table w2 = fd_table w1 →
    (Pipe.dup_end fd w2).1 = -1 ∧ fd_table (Pipe.dup_end fd w2).2 = fd_table w1) as Hdup.
  { intros fd w2 Hfd HT. destruct (Pipe.dup_end fd w2) as [n w3] eqn:E. simpl.
    apply dup_end_spec in E as [[-> ->]|(Hne & _ & _ & o & Ho & _)]; [done|].
    destruct Hfd as [|Hfd]; [done|]. rewrite HT, Hgone in Ho by done. done. }
  assert (∀ fd, fd = Pipe.fds0 p ∨ fd = Pipe.fds1 p → fd = -1 ∨ fd ∈ Pipe.held p) as Hin.
  { intros fd. unfold Pipe.held, Pipe.held_end. repeat case_decide; set_solver. }
  destruct (Hdup (Pipe.fds0 p) w1) as [E0 T0]; [auto..|].
  destruct (Pipe.dup_end (Pipe.fds0 p) w1) as [f0 w2]; simpl in *.
  destruct (Hdup (Pipe.fds1 p) w2) as [E1 T1]; [auto..|].
  destruct (Pipe.dup_end (Pipe.fds1 p) w2) as [f1 w3]; simpl in *. subst.
  split; [done|]. intros fd Hfd. rewrite T1. auto.
Qed.
End programs.

(** ** Witnesses *)

Definition pipe_ex : Ref.t :=
  Ref.mk (list_to_map [(0, OtherFile 0); (1, OtherFile 1); (2, OtherFile 2)]) 0 8 1 5 10 ∅ [] ∅ [] [] [].

(** A pipe is made, copied, one end of the copy closed, and both are destroyed. *)
Definition pipe_ex1 : Ref.t := (Pipe.ctor pipe_ex).2.
Definition pipe_ex2 : Pipe.t * Ref.t := Pipe.copy (Pipe.mk 3 4) pipe_ex1.
Definition pipe_ex3 : Pipe.t * Ref.t := Pipe.close_read_fd pipe_ex2.1 pipe_ex2.2.

Lemma pipe_ownership_witness :
  Ref.fds (Pipe.dtor (Pipe.mk 3 4) (Pipe.dtor pipe_ex3.1 pipe_ex3.2)) = Ref.fds pipe_ex.
Proof.
  apply (pipe_ownership (LW := Ref.fd_laws) pipe_ex [] _); [|reflexivity].
  eapply rtc_l; [apply (step_ctor [] _ (Pipe.mk 3 4) pipe_ex1); vm_compute; reflexivity|].
  eapply rtc_l; [apply (step_copy _ _ (Pipe.mk 3 4) pipe_ex2.1 pipe_ex2.2);
    [by left|exact (surjective_pairing pipe_ex2)]|].
  eapply rtc_l; [exact (step_close_read [] pipe_ex2.1 [Pipe.mk 3 4] _ pipe_ex3.1 pipe_ex3.2 (surjective_pairing pipe_ex3))|].
  eapply rtc_l; [exact (step_dtor [] pipe_ex3.1 [Pipe.mk 3 4] pipe_ex3.2)|].
  apply rtc_once. exact (step_dtor [] (Pipe.mk 3 4) [] _).
Defined.

Lemma pipe_self_assignment_witness :
  let w := (Pipe.ctor pipe_ex).2 in
  Ref.fds w !! 3 = Some (PipeRead 2) ∧
  (Pipe.assign (Pipe.mk 3 4) (Pipe.mk 3 4) w).1 = Pipe.closed ∧
  Ref.fds (Pipe.assign (Pipe.mk 3 4) (Pipe.mk 3 4) w).2 !! 3 = None.
Proof.
  destruct (pipe_self_assignment (LW := Ref.fd_laws) (Pipe.mk 3 4) (Pipe.ctor pipe_ex).2) as [H1 H2].
  split_and!; [vm_compute; reflexivity|exact H1|apply H2; by left].
Defined.
