(* ===== verification/InvalidOnce.v ===== *)
(** * Pipe::invalid() called from several threads

    [ChildProcess::Pipe::invalid] ([src/core/posix/child_process.cpp]) keeps a
    function-local [static Pipe p], whose construction C++ guards (one thread constructs, the
    others wait, and after an exception another one tries again), and closes both ends of it
    under [std::call_once]; then every call copies [p].  Here calls of several threads are
    interleaved at the operations on the guard, on the [once_flag] and on the descriptors. *)

From S2P Require Import Prelude.
From S2P Require Import Types.
From S2P Require Import Kernel.
From S2P Require Import RefKernel.
From S2P Require Import Pipe.

Module InvalidOnce.

(** Where a call is. *)
Inductive phase : Type :=
| Calling                          (* before the static variable *)
| Constructing                     (* Pipe(), this thread has the guard *)
| Arriving                         (* before call_once *)
| ClosingRead                      (* in the lambda: p.close_read_fd() *)
| ClosingWrite                     (* p.close_write_fd() *)
| Copying                          (* return p *)
| Returned (r : outcome Pipe.t).

(** The guard of a static variable, and a [std::once_flag]. *)
Inductive guard : Type := Idle | Busy (i : nat) | Done.

(** Before its construction [p] is a placeholder that no code looks at. *)
Record config (W : Type) : Type := mk {
  calls : gmap nat phase;
  initialised : guard;
  p : Pipe.t;
  flag : guard;
  world : W }.
Arguments mk {W} _ _ _ _ _.
Arguments calls {W} _.
Arguments initialised {W} _.
Arguments p {W} _.
Arguments flag {W} _.
Arguments world {W} _.

Section steps.
Context {W : Type} {E : Errno W} {K : FdKernel W}.

(** The next step of call [i]; none while it has to wait for another thread, and after the end. *)
Definition advance (i : nat) (ph : phase) (c : config W) : option (config W) :=
  let to ph' g q f w := Some (mk (<[i := ph']> (calls c)) g q f w) in
  match ph with
  | Calling =>
      match initialised c with
      | Idle => to Constructing (Busy i) (p c) (flag c) (world c)
      | Busy _ => None
      | Done => to Arriving Done (p c) (flag c) (world c)
      end
  | Constructing =>
      match Pipe.ctor (world c) with
      | (Ok q, w) => to Arriving Done q (flag c) w
      | (Throw x, w) => to (Returned (Throw x)) Idle (p c) (flag c) w
      | (Undefined, w) => to (Returned Undefined) Idle (p c) (flag c) w
      end
  | Arriving =>
      match flag c with
      | Idle => to ClosingRead (initialised c) (p c) (Busy i) (world c)
      | Busy _ => None
      | Done => to Copying (initialised c) (p c) Done (world c)
      end
  | ClosingRead =>
      let '(q, w) := Pipe.close_read_fd (p c) (world c) in to ClosingWrite (initialised c) q (flag c) w
  | ClosingWrite =>
      let '(q, w) := Pipe.close_write_fd (p c) (world c) in to Copying (initialised c) q Done w
  | Copying =>
      let '(q, w) := Pipe.copy (p c) (world c) in to (Returned (Ok q)) (initialised c) (p c) (flag c) w
  | Returned _ => None
  end.

Inductive step : config W → config W → Prop :=
| step_call i c :
    calls c !! i = None →
    step c (mk (<[i := Calling]> (calls c)) (initialised c) (p c) (flag c) (world c))
| step_advance i ph c c' :
    calls c !! i = Some ph → advance i ph c = Some c' → step c c'.

Definition start (w : W) : config W := mk ∅ Idle Pipe.closed Idle w.

End steps.
End InvalidOnce.

Section invalid_once.
Context {W : Type} {E : Errno W} {K : FdKernel W}.
Implicit Types (c : InvalidOnce.config W) (w : W).

(** What the guards say about a call in phase [ph]. *)
Definition fits c (j : nat) (ph : InvalidOnce.phase) : Prop :=
  match ph with
  | InvalidOnce.Calling => True
  | InvalidOnce.Constructing => InvalidOnce.initialised c = InvalidOnce.Busy j
  | InvalidOnce.Arriving => InvalidOnce.initialised c = InvalidOnce.Done
  | InvalidOnce.ClosingRead => InvalidOnce.flag c = InvalidOnce.Busy j
  | InvalidOnce.ClosingWrite => InvalidOnce.flag c = InvalidOnce.Busy j ∧ Pipe.fds0 (InvalidOnce.p c) = -1
  | InvalidOnce.Copying => InvalidOnce.flag c = InvalidOnce.Done
  | InvalidOnce.Returned (Ok q) => q = Pipe.closed ∧ InvalidOnce.flag c = InvalidOnce.Done
  | InvalidOnce.Returned (Throw x) => ∃ code, x = SystemError code
  | InvalidOnce.Returned Undefined => False
  end.

(** What each guard says about the object and about who works on it. *)
Record sound (b : gmap Z Ofd) c : Prop := {
  sound_fits j ph : InvalidOnce.calls c !! j = Some ph → fits c j ph;
  sound_static : match InvalidOnce.initialised c with
    | InvalidOnce.Idle => InvalidOnce.p c = Pipe.closed ∧ InvalidOnce.flag c = InvalidOnce.Idle
    | InvalidOnce.Busy i => InvalidOnce.p c = Pipe.closed ∧ InvalidOnce.flag c = InvalidOnce.Idle ∧
        InvalidOnce.calls c !! i = Some InvalidOnce.Constructing
    | InvalidOnce.Done => True
    end;
  sound_flag : match InvalidOnce.flag c with
    | InvalidOnce.Idle => InvalidOnce.initialised c = InvalidOnce.Done →
        ∃ i, InvalidOnce.calls c !! i = Some InvalidOnce.Arriving
    | InvalidOnce.Busy i => InvalidOnce.initialised c = InvalidOnce.Done ∧
        (InvalidOnce.calls c !! i = Some InvalidOnce.ClosingRead ∨
         InvalidOnce.calls c !! i = Some InvalidOnce.ClosingWrite)
    | InvalidOnce.Done => InvalidOnce.initialised c = InvalidOnce.Done ∧ InvalidOnce.p c = Pipe.closed
    end;
  sound_owns : owns b (Pipe.held (InvalidOnce.p c)) (fd_table (InvalidOnce.world c)) }.

Lemma start_sound w : sound (fd_table w) (InvalidOnce.start w).
Proof. split; simpl; [done|done|done|]. by apply owns_nil. Qed.

(** The other calls see that [i] has changed the guards. *)
Lemma others_fit b c c' i ph' :
  sound b c → InvalidOnce.calls c' = <[i := ph']> (InvalidOnce.calls c) → fits c' i ph' →
  (∀ j ph, j ≠ i → fits c j ph → fits c' j ph) →
  ∀ j ph, InvalidOnce.calls c' !! j = Some ph → fits c' j ph.
Proof.
  intros Hs Hc Hi Hother j ph. rewrite Hc. intros [[<- <-]|[Hne Hj]]%lookup_insert_Some; [done|].
  apply Hother; [done|]. by apply (sound_fits b).
Qed.

(** A new call waits for nobody and changes nothing. *)
Lemma sound_call b c i :
  sound b c → InvalidOnce.calls c !! i = None →
  sound b (InvalidOnce.mk (<[i := InvalidOnce.Calling]> (InvalidOnce.calls c)) (InvalidOnce.initialised c)
    (InvalidOnce.p c) (InvalidOnce.flag c) (InvalidOnce.world c)).
Proof.
  intros Hs Hi. pose proof Hs as [Hf Hst Hfl Ho].
  assert (∀ j ph, InvalidOnce.calls c !! j = Some ph →
    <[i := InvalidOnce.Calling]> (InvalidOnce.calls c) !! j = Some ph) as Hkeep.
  { intros j ph Hj. rewrite lookup_insert_ne; [done|]. congruence. }
  split; [eapply (others_fit b); [done|done|done|]; by intros j []|simpl..|done].
  - destruct (InvalidOnce.initialised c); [done|naive_solver|done].
  - destruct (InvalidOnce.flag c); [|naive_solver|done].
    intros Hd. destruct (Hfl Hd) as [k Hk]. exists k. by apply Hkeep.
Qed.

Context {LF : FdLaws W}.

(** A step of call [i], and what remains to be shown about it. *)
Lemma sound_update b c i ph' g q f w :
  sound b c →
  let c' := InvalidOnce.mk (<[i := ph']> (InvalidOnce.calls c)) g q f w in
  fits c' i ph' → (∀ j ph, j ≠ i → fits c j ph → fits c' j ph) →
  match g with
  | InvalidOnce.Idle => q = Pipe.closed ∧ f = InvalidOnce.Idle
  | InvalidOnce.Busy k => q = Pipe.closed ∧ f = InvalidOnce.Idle ∧ InvalidOnce.calls c' !! k = Some InvalidOnce.Constructing
  | InvalidOnce.Done => True
  end →
  match f with
  | InvalidOnce.Idle => g = InvalidOnce.Done → ∃ k, InvalidOnce.calls c' !! k = Some InvalidOnce.Arriving
  | InvalidOnce.Busy k => g = InvalidOnce.Done ∧
      (InvalidOnce.calls c' !! k = Some InvalidOnce.ClosingRead ∨
       InvalidOnce.calls c' !! k = Some InvalidOnce.ClosingWrite)
  | InvalidOnce.Done => g = InvalidOnce.Done ∧ q = Pipe.closed
  end → owns b (Pipe.held q) (fd_table w) → sound b c'.
Proof. intros Hs c' Hi Hother Hst Hfl Ho. split; [by apply (others_fit b c c' i ph')|done..]. Qed.

Lemma closed_of q : Pipe.fds0 q = -1 → Pipe.mk (Pipe.fds0 q) (-1) = Pipe.closed.
Proof. by intros ->. Qed.

Lemma sound_advance b c i ph c' :
  sound b c → InvalidOnce.calls c !! i = Some ph → InvalidOnce.advance i ph c = Some c' → sound b c'.
Proof.
  intros Hs Hi Ha. pose proof Hs as [_ Hst Hfl Ho]. pose proof (sound_fits b c Hs _ _ Hi) as Hfit.
  destruct c as [calls g q f w]. simpl in *. destruct ph as [| | | | | |r]; simpl in *.
  - destruct g as [|k|]; [|done|]; injection Ha as <-.
    + destruct Hst as [-> ->]. apply (sound_update b _ _ _ _ _ _ _ Hs); simpl; try done.
      * by intros j [].
      * by rewrite lookup_insert_eq.
    + apply (sound_update b _ _ _ _ _ _ _ Hs); simpl; try done. simpl.
      destruct f as [|k|]; [|split; [done|]|done]; [exists i; by rewrite lookup_insert_eq|].
      rewrite lookup_insert_ne; [apply Hfl|]. intros <-. rewrite Hi in Hfl. naive_solver.
  - subst g. destruct Hst as (-> & -> & _). destruct (Pipe.ctor w) as [r w1] eqn:Ec.
    pose proof (pipe_ctor_spec w r w1 Ec) as [(x & -> & Ht)|(p & _ & -> & _)]; injection Ha as <-.
    + apply (sound_update b _ _ _ _ _ _ _ Hs); simpl; try done; [by eexists| |by rewrite Ht].
      intros j [| | | | | |[]] Hne; simpl; naive_solver.
    + apply (sound_update b _ _ _ _ _ _ _ Hs); simpl; try done.
      * intros j [| | | | | |[]] Hne; simpl; naive_solver.
      * intros _. exists i. by rewrite lookup_insert_eq.
      * rewrite <- (app_nil_r (Pipe.held p)). by apply (ctor_owns b [] _ _ _ Ec).
  - subst g. destruct f as [|k|]; [|done|]; injection Ha as <-; apply (sound_update b _ _ _ _ _ _ _ Hs); simpl; try done.
    + intros j [| | | | | |[]] Hne; simpl; naive_solver.
    + rewrite lookup_insert_eq. by auto.
  - subst f. destruct Hfl as [-> _]. destruct (close_read_fd_table q w) as [Ep Et].
    destruct (Pipe.close_read_fd q w) as [q1 w1] eqn:Ec. injection Ha as <-. simpl in Ep.
    apply (sound_update b _ _ _ _ _ _ _ Hs); simpl; try done.
    + simpl. by subst q1.
    + intros j [| | | | | |[]] Hne; simpl; naive_solver.
    + split; [done|]. rewrite lookup_insert_eq. by auto.
    + rewrite <- (app_nil_r (Pipe.held q1)). apply (close_read_fd_owns b [] _ _ _ _ Ec). by rewrite app_nil_r.
  - destruct Hfit as [-> H0]. destruct Hfl as [-> _]. destruct (close_write_fd_table q w) as [Ep Et].
    destruct (Pipe.close_write_fd q w) as [q1 w1] eqn:Ec. injection Ha as <-. simpl in Ep.
    apply (sound_update b _ _ _ _ _ _ _ Hs); simpl; try done.
    + intros j [| | | | | |[]] Hne; simpl; naive_solver.
    + split; [done|]. subst q1. by apply closed_of.
    + rewrite <- (app_nil_r (Pipe.held q1)). apply (close_write_fd_owns b [] _ _ _ _ Ec). by rewrite app_nil_r.
  - subst f. destruct Hfl as [-> ->]. change (Pipe.copy Pipe.closed w) with (Pipe.closed, w) in Ha.
    injection Ha as <-. by apply (sound_update b _ _ _ _ _ _ _ Hs).
  - done.
Qed.

(** The thread that works on the object, or any other one that has not returned, can go on. *)
Lemma sound_progress b c i ph :
  sound b c → InvalidOnce.calls c !! i = Some ph → (∀ r, ph ≠ InvalidOnce.Returned r) →
  ∃ k phk, InvalidOnce.calls c !! k = Some phk ∧ is_Some (InvalidOnce.advance k phk c).
Proof.
  intros Hs Hi Hph. pose proof Hs as [_ Hst Hfl _].
  assert (∀ k phk, InvalidOnce.calls c !! k = Some phk →
    phk ∈ [InvalidOnce.Constructing; InvalidOnce.ClosingRead; InvalidOnce.ClosingWrite; InvalidOnce.Copying] →
    is_Some (InvalidOnce.advance k phk c)) as Hgo.
  { intros k phk _ Hin. rewrite !elem_of_cons, elem_of_nil in Hin.
    destruct Hin as [->|[->|[->|[->|[]]]]]; simpl;
      [destruct (Pipe.ctor _) as [[]]|destruct (Pipe.close_read_fd _ _)|destruct (Pipe.close_write_fd _ _)
      |destruct (Pipe.copy _ _)]; by eexists. }
  destruct ph as [| | | | | |r]; [| | | | | |by destruct (Hph r)]; try (exists i; eexists; split; [done|]; apply Hgo; [done|set_solver]).
  - destruct (InvalidOnce.initialised c) as [|k|] eqn:Eg; [|destruct Hst as (_ & _ & Hk)|].
    + exists i, InvalidOnce.Calling. simpl. by rewrite Eg.
    + exists k, InvalidOnce.Constructing. split; [done|]. apply Hgo; [done|set_solver].
    + exists i, InvalidOnce.Calling. simpl. by rewrite Eg.
  - destruct (InvalidOnce.flag c) as [|k|] eqn:Eg; [|destruct Hfl as [_ [Hk|Hk]]|].
    + exists i, InvalidOnce.Arriving. simpl. by rewrite Eg.
    + eexists k, _. split; [exact Hk|]. apply Hgo; [done|set_solver].
    + eexists k, _. split; [exact Hk|]. apply Hgo; [done|set_solver].
    + exists i, InvalidOnce.Arriving. simpl. by rewrite Eg.
Qed.

(** C21: however the calls of [Pipe::invalid()] of several threads interleave: a call returns a
    pipe without descriptors or throws the error of pipe(2); at most the two ends of one
    pipe are open besides those that were open before, and none when nobody is inside; and
    there is no deadlock. *)
Theorem invalid_once w c :
  rtc InvalidOnce.step (InvalidOnce.start w) c →
  (∀ i r, InvalidOnce.calls c !! i = Some (InvalidOnce.Returned r) →
     r = Ok Pipe.closed ∨ ∃ code, r = Throw (SystemError code)) ∧
  owns (fd_table w) (Pipe.held (InvalidOnce.p c)) (fd_table (InvalidOnce.world c)) ∧
  ((∀ i ph, InvalidOnce.calls c !! i = Some ph → ∃ r, ph = InvalidOnce.Returned r) →
   fd_table (InvalidOnce.world c) = fd_table w) ∧
  (∀ i ph, InvalidOnce.calls c !! i = Some ph → (∀ r, ph ≠ InvalidOnce.Returned r) →
   ∃ k phk, InvalidOnce.calls c !! k = Some phk ∧ is_Some (InvalidOnce.advance k phk c)).
Proof.
  intros Hr. assert (sound (fd_table w) c) as Hs.
  { pose proof (start_sound w) as H0. induction Hr as [|c1 c2 c3 Hst _ IH]; [done|]. apply IH.
    destruct Hst; eauto using sound_call, sound_advance. }
  split_and!; [|by apply sound_owns| |by eauto using sound_progress].
  - intros i [q|x|] Hi; apply (sound_fits _ _ Hs) in Hi; [left; by destruct Hi as [-> _]| |done].
    right. destruct Hi as [code ->]. by exists code.
  - intros Hall. pose proof Hs as [_ Hst Hfl Ho]. apply owns_nil.
    assert (InvalidOnce.p c = Pipe.closed) as Hp; [|by rewrite Hp in Ho].
    destruct (InvalidOnce.initialised c) as [|k|]; [by destruct Hst|by destruct Hst|].
    destruct (InvalidOnce.flag c) as [|k|]; [|destruct Hfl as [_ [Hk|Hk]]|by destruct Hfl];
      [destruct (Hfl eq_refl) as [k Hk]|..]; by destruct (Hall _ _ Hk).
Qed.
End invalid_once.

(** ** Witness *)

(** The calls advance in the order of a schedule. *)
Fixpoint run_schedule {W} {E : Errno W} {K : FdKernel W} (l : list nat) (c : InvalidOnce.config W)
    : option (InvalidOnce.config W) :=
  match l with
  | [] => Some c
  | i :: l => ph ← InvalidOnce.calls c !! i; c' ← InvalidOnce.advance i ph c; run_schedule l c'
  end.

Lemma run_schedule_steps {W} {E : Errno W} {K : FdKernel W} l (c c' : InvalidOnce.config W) :
  run_schedule l c = Some c' → rtc InvalidOnce.step c c'.
Proof.
  revert c. induction l as [|i l IH]; intros c; simpl; [by intros [= ->]|].
  intros (ph & Hi & (c1 & Ha & Hr)%bind_Some)%bind_Some.
  eapply rtc_l; [by eapply InvalidOnce.step_advance|by apply IH].
Qed.

Abbreviation empty_process := (Ref.mk ∅ 0 8 1 5 10 ∅ [] ∅ [] [] []).
Abbreviation two_calls := (InvalidOnce.mk (<[1%nat := InvalidOnce.Calling]> (<[0%nat := InvalidOnce.Calling]> ∅))
  InvalidOnce.Idle Pipe.closed InvalidOnce.Idle empty_process).

(** Thread 1 arrives while thread 0 closes the ends, and has to wait for it. *)
Lemma invalid_once_witness :
  ∃ c, rtc InvalidOnce.step (InvalidOnce.start empty_process) c ∧
    InvalidOnce.calls c !! 1%nat = Some (InvalidOnce.Returned (Ok Pipe.closed)) ∧
    fd_table (InvalidOnce.world c) = fd_table empty_process.
Proof.
  destruct (run_schedule [0; 0; 1; 0; 0; 0; 1; 1; 0]%nat two_calls) as [c|] eqn:Ec; [|vm_compute in Ec; discriminate Ec].
  assert (rtc InvalidOnce.step (InvalidOnce.start empty_process) c) as Hr.
  { eapply rtc_l; [apply (InvalidOnce.step_call 0%nat); reflexivity|].
    eapply rtc_l; [apply (InvalidOnce.step_call 1%nat); reflexivity|]. exact (run_schedule_steps _ _ _ Ec). }
  destruct (invalid_once (LF := Ref.fd_laws) _ _ Hr) as (_ & _ & Hclean & _).
  vm_compute in Ec. injection Ec as <-. eexists. split; [exact Hr|]. split; [vm_compute; reflexivity|].
  apply Hclean. intros i ph Hi. apply elem_of_map_to_list in Hi.
  match type of Hi with _ ∈ ?l =>
    change l with [(1%nat, InvalidOnce.Returned (Ok Pipe.closed)); (0%nat, InvalidOnce.Returned (Ok Pipe.closed))] in Hi end.
  rewrite !elem_of_cons, elem_of_nil in Hi. destruct Hi as [[= -> ->]|[[= -> ->]|[]]]; by eexists.
Defined.
