(* ===== verification/Backtrace.v ===== *)
(** * core::posix::backtrace

    [src/core/posix/backtrace.{h,cpp}]: symbols and frames, the visitor, and
    [print_backtrace] of [src/core/posix/fork.cpp].  [abi::__cxa_demangle],
    [::backtrace] and [::backtrace_symbols] are not part of the repository: the
    demangler is a parameter returning the pointer's string and the status, and
    a stack walk is given by its frame pointers and symbol strings ([None] when
    [backtrace_symbols] returned a null pointer). *)

From S2P Require Import Prelude.
From S2P Require Import CppString.

Module Backtrace.

(** ** The interface *)

(** The abstract classes [Frame::Symbol] and [Frame] of [backtrace.h]. *)
Class SymbolI (Sym : Type) : Type := {
  is_cxx : Sym → bool;
  demangled : Sym → str;
  raw : Sym → str }.

Class FrameI (Fr Sym : Type) {SI : SymbolI Sym} : Type := {
  depth : Fr → Z;
  frame_pointer : Fr → Z;
  symbol : Fr → Sym }.

(** [typedef std::function<bool(const Frame& frame)> FrameHandler;] *)
Definition FrameHandler (S Fr : Type) : Type := Fr → M S bool.

(** ** The implementation *)

(** [Frame::Symbol]'s data members *)
Record Symbol : Type := mkSymbol { raw_ : str; demangled_ : str; is_cxx_ : bool }.

(** [Frame]'s data members *)
Record Frame : Type := mkFrame { depth_ : Z; frame_pointer_ : Z; symbol_ : Symbol }.

(** The virtual functions. *)
#[global] Instance impl_Symbol : SymbolI Symbol :=
  {| is_cxx := is_cxx_; demangled := demangled_; raw := raw_ |}.
#[global] Instance impl_Frame : FrameI Frame Symbol :=
  {| depth := depth_; frame_pointer := frame_pointer_; symbol := symbol_ |}.

(** What [::backtrace] and [::backtrace_symbols] returned. *)
Record walk : Type := mkWalk { frames : list Z; symbols : option (list str) }.

Definition max_frames : Z := 64.

Section demangler.
Context (cxa_demangle : str → option str * Z).

Definition demangle (symbol : str) : str * bool :=
  match cxa_demangle (c_str symbol) with
  | (Some result, 0) => (result, true)
  | _ => ([], false)
  end.

(** The text between the first "(" and the last ")", as the constructor cuts it out. *)
Definition mangled_part (raw : str) (first last : Z) : outcome str :=
  match substr (u64 (first + 1)) (u64 (u64 (last - 1) - u64 (first + 1))) raw with
  | Ok mangled_symbol =>
      let plus := find_first_of "+" mangled_symbol in
      if plus =? npos then Ok mangled_symbol else erase plus mangled_symbol
  | r => r
  end.

Definition Symbol_ctor (symbol : str) : outcome Symbol :=
  let first := find_first_of "(" symbol in
  let last := find_last_of ")" symbol in
  if negb (first =? npos) && negb (last =? npos) then
    match mangled_part symbol first last with
    | Ok mangled_symbol =>
        let '(d, is_cxx) := demangle mangled_symbol in
        Ok (mkSymbol symbol (if is_cxx then d else symbol) is_cxx)
    | Throw e => Throw e
    | Undefined => Undefined
    end
  else Ok (mkSymbol symbol [] false).

Definition for_testing_from_raw_symbol (symbol : str) : outcome Symbol := Symbol_ctor symbol.

(** [for (int i = 0; i < frame_count; i++)], [n] iterations left. *)
Fixpoint visit_loop {S} (w : walk) (handler : FrameHandler S Frame) (i : Z) (n : nat) : M S unit :=
  match n with
  | O => mret tt
  | Datatypes.S n =>
      match frames w !! Z.to_nat i, symbols w ≫= (.!! Z.to_nat i) with
      | Some fp, Some symbol =>
          match Symbol_ctor symbol with
          | Ok sym =>
              continue ← handler (mkFrame i fp sym);
              if (continue : bool) then visit_loop w handler (i + 1) n else mret tt
          | Throw e => throw e
          | Undefined => undefined
          end
      | _, _ => undefined
      end
  end.

Definition visit_with_handler {S} (w : walk) (handler : FrameHandler S Frame) : M S unit :=
  visit_loop w handler 0 (length (frames w)).

(** One line of [print_backtrace(out, line_prefix)], written against the interface. *)
Definition backtrace_line {Fr Sym : Type} {SI : SymbolI Sym} {FI : FrameI Fr Sym} (line_prefix : str) (f : Fr) : str :=
  line_prefix ++ setw 2 (print_dec (depth f)) ++ $"@" ++ setw 14 (print_ptr (frame_pointer f))
    ++ $": " ++ (if is_cxx (symbol f) then demangled (symbol f) else raw (symbol f))
    ++ ["010"%char].

Definition print_backtrace {S} (out : str → S → S) (w : walk) (line_prefix : str) : M S unit :=
  visit_with_handler w (λ f, modify (out (backtrace_line line_prefix f)) ;; mret true).

(** ** Lemmas *)

Lemma mangled_part_ok raw :
  addressable raw →
  let first := find_first_of "(" raw in
  let last := find_last_of ")" raw in
  first ≠ npos → last ≠ npos → ∃ m, mangled_part raw first last = Ok m.
Proof.
  intros Hs first last Hf Hl. unfold mangled_part, addressable in *.
  destruct (find_first_of_bounds "(" raw) as [|Bf]; [done|].
  fold first in Bf. rewrite (uwrap_small 64 (first + 1)) by lia.
  unfold substr. destruct (Z.ltb_spec (slen raw) (first + 1)); [lia|].
  set (m := take _ _). case_Zeqb as Hp; [by eexists|].
  unfold erase. destruct (find_first_of_bounds "+" m) as [|Bp]; [done|].
  destruct (Z.ltb_spec (slen m) (find_first_of "+" m)); [lia|]. by eexists.
Qed.

Lemma Symbol_ctor_ok raw : addressable raw → ∃ sym, Symbol_ctor raw = Ok sym ∧ raw_ sym = raw.
Proof.
  intros Hs. unfold Symbol_ctor.
  destruct (find_first_of "(" raw =? npos) eqn:E1; [simpl; by eexists|].
  destruct (find_last_of ")" raw =? npos) eqn:E2; [simpl; by eexists|]. simpl.
  destruct (mangled_part_ok raw Hs) as [m ->]; [lia..|].
  destruct (demangle m). by eexists.
Qed.

(** The slice for a raw symbol [obj(body)rest]: the last character of [body] is dropped. *)
Lemma mangled_part_slice obj body c rest :
  addressable (obj ++ "("%char :: (body ++ [c]) ++ ")"%char :: rest) →
  "("%char ∉ obj → ")"%char ∉ rest →
  let raw := obj ++ "("%char :: (body ++ [c]) ++ ")"%char :: rest in
  mangled_part raw (find_first_of "(" raw) (find_last_of ")" raw) =
    (if find_first_of "+" body =? npos then Ok body else erase (find_first_of "+" body) body).
Proof.
  intros Hs Ho Hr raw. unfold addressable in Hs. fold raw in Hs.
  assert (find_first_of "(" raw = slen obj) as -> by (by apply find_first_of_app).
  assert (find_last_of ")" raw = slen obj + 1 + slen body + 1) as ->.
  { unfold raw. replace (obj ++ "("%char :: (body ++ [c]) ++ ")"%char :: rest)
      with ((obj ++ "("%char :: body ++ [c]) ++ ")"%char :: rest)
      by (by rewrite <- !app_assoc; simpl; rewrite <- !app_assoc).
    rewrite find_last_of_app by done. rewrite slen_app, slen_cons, slen_app.
    change (slen [c]) with 1. lia. }
  unfold raw in Hs. rewrite slen_app, slen_cons, !slen_app, !slen_cons in Hs.
  pose proof (slen_nonneg obj). pose proof (slen_nonneg body). pose proof (slen_nonneg rest).
  pose proof (slen_nonneg (@nil ascii)). assert (slen [c] = 1) by done.
  unfold mangled_part. rewrite (uwrap_small 64 (slen obj + 1)) by lia.
  rewrite (uwrap_small 64 (slen obj + 1 + slen body + 1 - 1)) by lia.
  rewrite uwrap_small by lia.
  replace (slen obj + 1 + slen body + 1 - 1 - (slen obj + 1)) with (slen body) by lia.
  replace (slen obj + 1) with (slen (obj ++ ["("%char])) by (by rewrite slen_app).
  unfold raw. replace (obj ++ "("%char :: (body ++ [c]) ++ ")"%char :: rest)
    with ((obj ++ ["("%char]) ++ body ++ ([c] ++ ")"%char :: rest))
    by (by rewrite <- !app_assoc).
  by rewrite substr_middle.
Qed.

(** ** The visitor against its specification *)

(** The frame the loop builds from one entry of the walk. *)
Definition frame_at (i fp : Z) (symbol : str) : Frame :=
  mkFrame i fp (match Symbol_ctor symbol with Ok s => s | _ => mkSymbol symbol [] false end).

(** All frames of a walk, outermost call last, numbered from [i]. *)
Fixpoint frames_from (i : Z) (fps : list Z) (syms : list str) : list Frame :=
  match fps, syms with
  | fp :: fps, s :: syms => frame_at i fp s :: frames_from (i + 1) fps syms
  | _, _ => []
  end.

(** The elements up to and including the first one that [p] refuses. *)
Fixpoint take_through {A} (p : A → bool) (l : list A) : list A :=
  match l with
  | [] => []
  | x :: l => x :: (if p x then take_through p l else [])
  end.

Lemma visit_loop_spec {S} (upd : Frame → S → S) fps syms p pre_f pre_s log :
  length fps = length syms → length pre_f = length pre_s → Forall addressable syms →
  visit_loop (mkWalk (pre_f ++ fps) (Some (pre_s ++ syms)))
    (λ f, modify (upd f) ;; mret (p f)) (Z.of_nat (length pre_f)) (length fps) log =
  (Ok tt, foldl (λ s f, upd f s) log
    (take_through p (frames_from (Z.of_nat (length pre_f)) fps syms))).
Proof.
  revert syms pre_f pre_s log.
  induction fps as [|fp fps IH]; intros [|s syms] pre_f pre_s log Hlen Hpre Hs; try done.
  inversion Hs as [|?? Ha Hs']; subst. simpl.
  rewrite Nat2Z.id, list_lookup_middle by done.
  replace ((pre_s ++ s :: syms) !! length pre_f) with (Some s)
    by (by rewrite list_lookup_middle).
  destruct (Symbol_ctor_ok s Ha) as (sym & Hsym & _). rewrite Hsym.
  cbv [mbind M_bind modify mret M_ret]. unfold frame_at. rewrite Hsym.
  destruct (p _) eqn:Hp; [|done].
  specialize (IH syms (pre_f ++ [fp]) (pre_s ++ [s]) (upd (mkFrame (Z.of_nat (length pre_f)) fp sym) log)).
  rewrite <- !app_assoc in IH. simpl in IH. rewrite length_app in IH. simpl in IH.
  replace (Z.of_nat (length pre_f + 1)) with (Z.of_nat (length pre_f) + 1) in IH by lia.
  apply IH; [by injection Hlen|by rewrite !length_app, Hpre|done].
Qed.

Lemma foldl_log {A} (log l : list A) : foldl (λ s x, s ++ [x]) log l = log ++ l.
Proof.
  revert log. induction l as [|x l IH]; intros log; simpl; [by rewrite app_nil_r|].
  by rewrite IH, <- app_assoc.
Qed.

Lemma take_through_all {A} (l : list A) : take_through (λ _, true) l = l.
Proof. induction l; simpl; congruence. Qed.

(** [print_backtrace] writes one line per frame, in order. *)
Lemma print_backtrace_spec {S} (out : str → S → S) fps syms prefix s :
  length fps = length syms → Forall addressable syms →
  print_backtrace out (mkWalk fps (Some syms)) prefix s =
  (Ok tt, foldl (λ s f, out (backtrace_line prefix f) s) s (frames_from 0 fps syms)).
Proof.
  intros Hl Hs. etrans; [by apply (visit_loop_spec (λ f, out (backtrace_line prefix f)) fps syms (λ _, true) [] [])|].
  by rewrite take_through_all.
Qed.

(** C39: [visit_with_handler] invokes the handler on the frames of the walk in
    order, numbered 0, 1, ..., each with the symbol built from its own string,
    and stops right after the first frame for which the handler returns false. *)
Theorem visit_with_handler_visits fps syms p log :
  length fps = length syms → Forall addressable syms →
  visit_with_handler (mkWalk fps (Some syms)) (λ f, modify (λ l, l ++ [f]) ;; mret (p f)) log =
  (Ok tt, log ++ take_through p (frames_from 0 fps syms)).
Proof.
  intros. etrans; [by apply (visit_loop_spec (λ f l, l ++ [f]) fps syms p [] [])|].
  by rewrite foldl_log.
Qed.

(** For the symbol strings glibc prints, [object(name+offset) [address]], the
    constructor demangles exactly [name]: [demangled()] is the demangler's
    answer for it, or the raw string with [is_cxx()] false when there is none. *)
Theorem symbol_with_offset obj name off rest :
  "("%char ∉ obj → "+"%char ∉ name → ")"%char ∉ rest →
  addressable (obj ++ "("%char :: (name ++ "+"%char :: off) ++ ")"%char :: rest) →
  let raw := obj ++ "("%char :: (name ++ "+"%char :: off) ++ ")"%char :: rest in
  Symbol_ctor raw =
    Ok (mkSymbol raw (if (demangle name).2 then (demangle name).1 else raw) (demangle name).2).
Proof.
  intros Ho Hn Hr Hs raw.
  assert (∃ body c, name ++ "+"%char :: off = body ++ [c] ∧
    (if find_first_of "+" body =? npos then Ok body else erase (find_first_of "+" body) body) = Ok name)
    as (body & c & Hb & Hcut).
  { destruct off as [|c off _] using rev_ind.
    - exists name, "+"%char. split; [done|]. by rewrite find_first_of_absent.
    - exists (name ++ "+"%char :: off), c. rewrite <- app_assoc. split; [done|].
      rewrite find_first_of_app by done. rewrite erase_app.
      case_Zeqb as E; [|done]. exfalso. revert Hs E. unfold addressable, npos.
      rewrite !slen_app, slen_cons, !slen_app.
      pose proof (slen_nonneg obj). pose proof (slen_nonneg ("+"%char :: off ++ [c])).
      pose proof (slen_nonneg (")"%char :: rest)). lia. }
  unfold raw in *. rewrite Hb in *. unfold Symbol_ctor.
  rewrite mangled_part_slice, Hcut by done.
  rewrite find_first_of_app by done.
  replace (obj ++ "("%char :: (body ++ [c]) ++ ")"%char :: rest)
    with ((obj ++ "("%char :: body ++ [c]) ++ ")"%char :: rest) at 1
    by (by rewrite <- app_assoc; simpl; rewrite <- app_assoc).
  rewrite find_last_of_app by done. unfold addressable in Hs.
  rewrite slen_app, slen_cons, !slen_app, !slen_cons in Hs.
  pose proof (slen_nonneg obj). pose proof (slen_nonneg body). pose proof (slen_nonneg rest).
  change (slen []) with 0 in Hs.
  destruct (Z.eqb_spec (slen obj) npos); [unfold npos in *; lia|].
  rewrite slen_app, slen_cons, slen_app. change (slen [c]) with 1.
  destruct (Z.eqb_spec (slen obj + (1 + (slen body + 1))) npos); [unfold npos in *; lia|].
  simpl. by destruct (demangle name) as [d []].
Qed.

(** Without an offset, [object(name)], the constructor cuts one character too
    many: it asks the demangler for [name] less its last character. *)
Theorem symbol_without_offset obj name c rest :
  "("%char ∉ obj → "+"%char ∉ name → ")"%char ∉ rest →
  addressable (obj ++ "("%char :: (name ++ [c]) ++ ")"%char :: rest) →
  let raw := obj ++ "("%char :: (name ++ [c]) ++ ")"%char :: rest in
  mangled_part raw (find_first_of "(" raw) (find_last_of ")" raw) = Ok name.
Proof.
  intros Ho Hn Hr Hs. cbv zeta. rewrite mangled_part_slice by done.
  by rewrite find_first_of_absent.
Qed.

(** What a symbol answers, for any string: [raw()] is the string; [demangled()] of a C++
    symbol is the demangler's answer for a part of it, and otherwise the string itself, but
    only if there is a pair of parentheses: without one [demangled()] is empty, where the
    header promises [raw()]. *)
Theorem symbol_answers s :
  addressable s → ∃ sym, for_testing_from_raw_symbol s = Ok sym ∧ raw sym = s ∧
    if is_cxx sym then ∃ m, cxa_demangle (c_str m) = (Some (demangled sym), 0)
    else demangled sym =
      if (find_first_of "(" s =? npos) || (find_last_of ")" s =? npos) then [] else s.
Proof.
  intros Hs. unfold for_testing_from_raw_symbol, Symbol_ctor.
  destruct (Z.eqb_spec (find_first_of "(" s) npos); [by eexists|].
  destruct (Z.eqb_spec (find_last_of ")" s) npos); [by eexists|]. simpl.
  destruct (mangled_part_ok s Hs) as [m ->]; [done..|]. unfold demangle.
  destruct (cxa_demangle (c_str m)) as [[d|] [| |]] eqn:Ed; eexists; (split; [reflexivity|]); simpl; eauto.
Qed.

End demangler.

(** A demangler that knows one symbol. *)
Definition demangle_f (s : str) : option str * Z :=
  if bool_decide (s = $"_Z1fv") then (Some ($"f()"), 0) else (None, -2).

Lemma visit_with_handler_visits_witness :
  visit_with_handler demangle_f
    (mkWalk [16; 32; 48] (Some [$"a(_Z1fv+0x4) [0x10]"; $"b(g+0x1) [0x20]"; $"[0x30]"]))
    (λ f, modify (λ l, l ++ [f]) ;; mret (is_cxx_ (symbol_ f))) [] =
  (Ok tt, [mkFrame 0 16 (mkSymbol ($"a(_Z1fv+0x4) [0x10]") ($"f()") true);
           mkFrame 1 32 (mkSymbol ($"b(g+0x1) [0x20]") ($"b(g+0x1) [0x20]") false)]).
Proof.
  rewrite visit_with_handler_visits; [vm_compute; reflexivity|reflexivity|].
  repeat constructor; vm_compute; reflexivity.
Defined.

Lemma symbol_with_offset_witness :
  Symbol_ctor demangle_f ($"a(_Z1fv+0x4) [0x10]") =
    Ok (mkSymbol ($"a(_Z1fv+0x4) [0x10]") ($"f()") true).
Proof.
  apply (symbol_with_offset demangle_f ($"a") ($"_Z1fv") ($"0x4") ($" [0x10]")); by_decision.
Defined.

Lemma symbol_answers_witness :
  ∃ sym, for_testing_from_raw_symbol demangle_f ($"[0x30]") = Ok sym ∧ raw sym = $"[0x30]" ∧ demangled sym = [].
Proof.
  destruct (symbol_answers demangle_f ($"[0x30]")) as (sym & H & Hr & Hd); [by_decision|].
  exists sym. vm_compute in H. injection H as <-. repeat split; vm_compute; reflexivity.
Defined.

Lemma symbol_without_offset_witness :
  mangled_part ($"a(_Z1fv) [0x10]") 1 7 = Ok ($"_Z1f").
Proof.
  apply (symbol_without_offset ($"a") ($"_Z1f") "v"%char ($" [0x10]")); by_decision.
Defined.

End Backtrace.
