(* ===== verification/Process.v ===== *)
(** * Signalable, ProcessGroup, Process

    [src/core/posix/signalable.cpp], [process_group.cpp], [process.cpp] and the
    two process accessors of [this_process.cpp].  A [Process] and a
    [ProcessGroup] are both [Signalable]s; the base class keeps its own copy of
    the number handed to [kill]. *)

From S2P Require Import Prelude.
From S2P Require Import Types.
From S2P Require Import Kernel.
From S2P Require Import RefKernel.

Module Signalable.

(** [struct Signalable::Private { pid_t pid; }] *)
Record t : Type := mk { pid : Z }.

Definition ctor (pid : Z) : t := mk pid.

Section operations.
Context {W : Type} {E : Errno W} {P : ProcKernel W}.

Definition send_signal_or_throw (self : t) (signal : Signal.t) : M W unit :=
  result ← call (sys_kill (pid self) signal);
  check_rc result.

(** The result is the caller's error code after the call. *)
Definition send_signal (self : t) (signal : Signal.t) (e : Z) (w : W) : Z * W :=
  let '(result, w') := sys_kill (pid self) signal w in
  (store_rc result e w', w').

End operations.
End Signalable.

Module ProcessGroup.

Record t : Type := mk { base : Signalable.t; d_id : Z }.

Definition id (self : t) : Z := d_id self.

(** [Signalable(-id)]: kill(2) takes the negated group id. *)
Definition ctor (id : Z) : t := mk (Signalable.ctor (- id)) id.

End ProcessGroup.

Module Process.

Record t : Type := mk { base : Signalable.t; d_pid : Z }.

Definition ctor (pid : Z) : outcome t :=
  let p := mk (Signalable.ctor pid) pid in
  if pid <? 0 then Throw (RuntimeError "Cannot construct instance for invalid pid.") else Ok p.

(** [Process p(0); p.d->pid = -1; return p;] *)
Definition invalid : outcome t :=
  match ctor 0 with
  | Ok p => Ok (mk (base p) (-1))
  | r => r
  end.

Definition pid (self : t) : Z := d_pid self.

Section operations.
Context {W : Type} {E : Errno W} {P : ProcKernel W}.

Definition process_group_or_throw (self : t) : M W ProcessGroup.t :=
  pgid ← call (sys_getpgid (pid self));
  check_rc pgid ;;
  mret (ProcessGroup.ctor pgid).

(** The error code after the call, and the group returned in both cases. *)
Definition process_group (self : t) (se : Z) (w : W) : (Z * ProcessGroup.t) * W :=
  let '(pgid, w') := sys_getpgid (pid self) w in
  ((store_rc pgid se w', ProcessGroup.ctor pgid), w').

End operations.
End Process.

(** [this_process::instance()]: a function-local static, so the pid of the first call
    is kept; [this_process::parent()] asks every time; the stream accessors return
    references to the global streams. *)
Module ThisProcess.

(** A [noexcept(true)] function: an escaping exception calls std::terminate. *)
Definition noexcept {A} (o : outcome A) : outcome A := match o with Throw _ => Undefined | _ => o end.

(** The static [self], [None] before the first call. *)
Definition instance (self : option Process.t) (getpid : Z) : outcome Process.t * option Process.t :=
  match self with
  | Some p => (Ok p, self)
  | None => match noexcept (Process.ctor getpid) with Ok p => (Ok p, Some p) | r => (r, None) end
  end.

Definition parent (getppid : Z) : outcome Process.t := noexcept (Process.ctor getppid).

(** The global streams the accessors refer to. *)
Inductive stream : Type := std_cin | std_cout | std_cerr.

Definition cin : stream := std_cin.
Definition cout : stream := std_cout.
Definition cerr : stream := std_cerr.

End ThisProcess.

(** ** Lemmas *)

Section lemmas.
Context {W : Type} {E : Errno W} {I : Pid W} {P : ProcKernel W} {L : ProcLaws W}.

(** A throwing or successful send, in terms of what was delivered. *)
Lemma send_signal_or_throw_spec s sig w r w' :
  Signalable.send_signal_or_throw s sig w = (r, w') →
  (∃ e, r = Throw (SystemError e) ∧ signal_log w' = signal_log w) ∨
  (r = Ok tt ∧ ∃ l, signal_log w' = signal_log w ++ map (λ p, (p, sig)) l ∧
    Forall (λ p, addressee (getpid w) (groups w) (Signalable.pid s) p = true) l ∧
    NoDup l ∧ (sig ≠ 0 → l ≠ [])).
Proof.
  unfold Signalable.send_signal_or_throw, call, check_rc, throw_errno, mbind, M_bind.
  destruct (sys_kill _ _ w) as [rc w1] eqn:K.
  apply kill_law in K as [[-> Hl]|(-> & l & Hl)]; simpl; intros [= <- <-]; [left; eauto|right; eauto].
Qed.

(** The two overloads agree: one throws exactly when the other stores an error. *)
Lemma send_signal_overloads s sig e w :
  Signalable.send_signal_or_throw s sig w =
    (let '(rc, w') := sys_kill (Signalable.pid s) sig w in
     if rc =? -1 then (Throw (SystemError (Signalable.send_signal s sig e w).1), w')
     else (Ok tt, w')).
Proof.
  unfold Signalable.send_signal_or_throw, Signalable.send_signal, call, check_rc, throw_errno,
    store_rc, mbind, M_bind.
  destruct (sys_kill _ _ w) as [rc w1]. simpl. by destruct (rc =? -1).
Qed.

Lemma addressee_pos self g pid p : 0 < pid → addressee self g pid p = true → p = pid.
Proof. unfold addressee. destruct (Z.ltb_spec 0 pid); [|lia]. intros _ ?%Z.eqb_eq. done. Qed.

Lemma NoDup_const {A} (x : A) l : NoDup l → l ≠ [] → Forall (λ y, y = x) l → l = [x].
Proof.
  destruct l as [|y [|z l]]; [done| |]; intros Hd _ HF.
  - by inversion HF; subst.
  - inversion HF as [|?? -> HF']; inversion HF' as [|?? -> _]; subst.
    apply NoDup_cons in Hd as [Hn _]. exfalso. apply Hn. by left.
Qed.

(** ** Properties *)

Lemma send_to_one pid sig w r w' :
  0 < pid → sig ≠ Signal.unknown →
  Signalable.send_signal_or_throw (Signalable.ctor pid) sig w = (r, w') →
  (∃ e, r = Throw (SystemError e) ∧ signal_log w' = signal_log w) ∨
  (r = Ok tt ∧ signal_log w' = signal_log w ++ [(pid, sig)]).
Proof.
  intros Hpid Hsig Hs.
  apply send_signal_or_throw_spec in Hs as [|(-> & l & Hl & Hf & Hd & Hne)]; [by left|right].
  split; [done|]. simpl in Hf.
  rewrite (NoDup_const pid l Hd (Hne Hsig)) in Hl; [done|].
  eapply Forall_impl; [exact Hf|]. intros q. by apply addressee_pos.
Qed.

(** Signalling a [Process] built from a positive pid either throws and delivers
    nothing, or delivers the signal to that process and to nobody else. *)
Theorem process_signal_delivery pid p sig w r w' :
  0 < pid → sig ≠ Signal.unknown → Process.ctor pid = Ok p →
  Signalable.send_signal_or_throw (Process.base p) sig w = (r, w') →
  (∃ e, r = Throw (SystemError e) ∧ signal_log w' = signal_log w) ∨
  (r = Ok tt ∧ signal_log w' = signal_log w ++ [(pid, sig)]).
Proof.
  intros Hpid Hsig Hc Hs. unfold Process.ctor in Hc.
  destruct (Z.ltb_spec pid 0); [done|]. injection Hc as <-. by apply send_to_one.
Qed.

(** [this_process::instance()] is made once and kept in a static: the first call gives
    the calling process, and every later one the same object, also in a forked child, which
    has a copy of the static and another pid: signalling "this process" there signals the
    parent. *)
Theorem instance_survives_fork pid self st sig w r w' :
  0 < pid → sig ≠ Signal.unknown → ThisProcess.instance None pid = (Ok self, st) →
  Process.pid self = pid ∧
  ThisProcess.instance st (getpid w) = (Ok self, st) ∧
  (Signalable.send_signal_or_throw (Process.base self) sig w = (r, w') →
   (∃ e, r = Throw (SystemError e) ∧ signal_log w' = signal_log w) ∨
   (r = Ok tt ∧ signal_log w' = signal_log w ++ [(pid, sig)])).
Proof.
  intros Hpid Hsig Hi. unfold ThisProcess.instance, Process.ctor in Hi.
  destruct (Z.ltb_spec pid 0); [lia|]. injection Hi as <- <-. split_and!; [done|done|by apply send_to_one].
Qed.

(** C25: the group of a process is the one the kernel has it in, whichever overload of
    [process_group] asks.  Signalling that group (of an id other than 1, which kill(2) cannot
    address) makes exactly one kill with the negated id, with either overload of [send_signal]:
    when it fails, one throws and the other stores the same errno, and nothing was delivered;
    when it succeeds both say so, and the signal was delivered to at least one process and to
    members of that group only. *)
Theorem process_group_signal_delivery p g se sig w w1 :
  0 < Process.pid p →
  Process.process_group_or_throw p w = (Ok g, w1) →
  ProcessGroup.id g ≠ 1 → 0 < ProcessGroup.id g → sig ≠ Signal.unknown →
  groups w !! Process.pid p = Some (ProcessGroup.id g) ∧
  Process.process_group p se w = ((se, g), w1) ∧
  let '(rc, w2) := sys_kill (- ProcessGroup.id g) sig w1 in
  (rc = -1 ∧ signal_log w2 = signal_log w ∧
   Signalable.send_signal_or_throw (ProcessGroup.base g) sig w1 = (Throw (SystemError (errno w2)), w2) ∧
   Signalable.send_signal (ProcessGroup.base g) sig se w1 = (errno w2, w2)) ∨
  (rc = 0 ∧ Signalable.send_signal_or_throw (ProcessGroup.base g) sig w1 = (Ok tt, w2) ∧
   Signalable.send_signal (ProcessGroup.base g) sig se w1 = (se, w2) ∧
   ∃ l, l ≠ [] ∧ NoDup l ∧ signal_log w2 = signal_log w ++ map (λ q, (q, sig)) l ∧
     Forall (λ q, groups w !! q = Some (ProcessGroup.id g)) l).
Proof.
  intros Hp Hg H1 Hpos Hsig.
  unfold Process.process_group_or_throw, Process.process_group, call, check_rc, mbind, M_bind in *.
  destruct (sys_getpgid _ w) as [rc w0] eqn:G.
  apply getpgid_law in G as ([->|Hgr] & _ & Hgs & Hself & Hlog); [done|]. unfold store_rc.
  destruct (Z.eqb_spec rc (-1)); [done|]. injection Hg as <- <-. simpl in *.
  destruct (Z.eqb_spec (Process.pid p) 0); [lia|]. split; [done|]. split; [done|].
  unfold Signalable.send_signal_or_throw, Signalable.send_signal, call, check_rc, throw_errno, store_rc, mbind, M_bind.
  simpl. destruct (sys_kill _ _ w0) as [k w2] eqn:Ek.
  apply kill_law in Ek as [[-> Hl]|(-> & l & Hl & Hf & Hd & Hne)]; [left; by rewrite Hl|right].
  split_and!; [done..|]. exists l. rewrite Hl, Hlog. split_and!; [auto|done|done|].
  eapply Forall_impl; [exact Hf|]. intros q. unfold addressee; simpl. rewrite Hgs.
  destruct (Z.ltb_spec 0 (- rc)); [lia|]. destruct (Z.eqb_spec (- rc) 0); [lia|].
  destruct (Z.eqb_spec (- rc) (-1)); [lia|]. rewrite bool_decide_eq_true, Z.opp_involutive. done.
Qed.

(** Signalling the process group 1 is not confined to that group: the negated id
    is -1, for which [kill] addresses every process except init. *)
Theorem process_group_one_broadcasts self g q :
  addressee self g (Signalable.pid (ProcessGroup.base (ProcessGroup.ctor 1))) q = true ↔
  is_Some (g !! q) ∧ q ≠ 1.
Proof.
  unfold addressee. simpl.
  rewrite andb_true_iff, negb_true_iff, Z.eqb_neq, bool_decide_eq_true. tauto.
Qed.

(** [Process::invalid()] reports pid -1 but is still signalable: the base class
    kept 0, so a signal sent through it goes to the caller's own process group. *)
Theorem process_invalid_signals_own_group p sig w w' :
  Process.invalid = Ok p → sig ≠ Signal.unknown →
  Signalable.send_signal_or_throw (Process.base p) sig w = (Ok tt, w') →
  Process.pid p = -1 ∧
  ∃ l, l ≠ [] ∧ signal_log w' = signal_log w ++ map (λ q, (q, sig)) l ∧
    Forall (λ q, is_Some (groups w !! q) ∧ groups w !! q = groups w !! getpid w) l.
Proof.
  intros [= <-] Hsig Hs. split; [done|].
  apply send_signal_or_throw_spec in Hs as [(? & ? & _)|(_ & l & Hl & Hf & _ & Hne)]; [done|].
  exists l. split_and!; [auto|done|]. eapply Forall_impl; [exact Hf|]. intros q.
  unfold addressee; simpl. by rewrite bool_decide_eq_true.
Qed.

(** Querying the group of an invalid process: the throwing overload throws, the
    other one stores an error and hands out a group of id -1, whose signals
    address process 1 (init). *)
Theorem process_group_of_invalid p se w :
  Process.invalid = Ok p →
  (∃ e w', Process.process_group_or_throw p w = (Throw (SystemError e), w')) ∧
  (∃ e w', Process.process_group p se w = ((e, ProcessGroup.ctor (-1)), w') ∧ e = errno w') ∧
  ∀ self g q, addressee self g (Signalable.pid (ProcessGroup.base (ProcessGroup.ctor (-1)))) q = true
    ↔ q = 1.
Proof.
  intros [= <-].
  unfold Process.process_group_or_throw, Process.process_group, call, check_rc, throw_errno,
    store_rc, mbind, M_bind. simpl.
  destruct (sys_getpgid (-1) w) as [rc w1] eqn:G.
  apply getpgid_law in G as (_ & Hm & _). rewrite (Hm ltac:(lia)). simpl.
  split_and!; [by do 2 eexists|by do 2 eexists|]. intros self g q. apply Z.eqb_eq.
Qed.
End lemmas.

(** ** Witnesses *)

(** Processes 5 (the caller) and 7 in group 5, process 9 in group 9, init. *)
Definition procs_ex : Ref.t :=
  Ref.mk ∅ 0 16 1 5 10 (list_to_map [(1, 1); (5, 5); (7, 5); (9, 9)]) [] ∅ [] [] [].

Lemma process_signal_delivery_witness :
  Ref.log (Signalable.send_signal_or_throw (Signalable.ctor 9) Signal.sig_term procs_ex).2 = [(9, 15)].
Proof.
  destruct (@process_signal_delivery Ref.t _ _ _ Ref.proc_laws 9 (Process.mk (Signalable.ctor 9) 9) Signal.sig_term procs_ex
    _ _ ltac:(lia) ltac:(done) eq_refl eq_refl) as [(e & H & _)|[_ H]]; [|exact H].
  vm_compute in H. discriminate.
Defined.

(** Process 7 called [instance()] and then forked process 5. *)
Lemma instance_survives_fork_witness :
  ∃ self st, ThisProcess.instance None 7 = (Ok self, st) ∧ Ref.pid procs_ex = 5 ∧
    ThisProcess.instance st (Ref.pid procs_ex) = (Ok self, st) ∧ Process.pid self = 7.
Proof.
  exists (Process.mk (Signalable.ctor 7) 7). eexists. split; [reflexivity|].
  destruct (@instance_survives_fork Ref.t _ _ _ Ref.proc_laws 7 (Process.mk (Signalable.ctor 7) 7) _ Signal.sig_term
    procs_ex (Ok tt) procs_ex ltac:(lia) ltac:(done) eq_refl) as (H1 & H2 & _).
  split_and!; [reflexivity|exact H2|exact H1].
Defined.

(** Process 7 is in the group of process 5: both get the signal. *)
Lemma process_group_signal_delivery_witness :
  ∃ l, l ≠ [] ∧ Forall (λ q, Ref.procs procs_ex !! q = Some 5) l ∧
    Ref.log (Signalable.send_signal (ProcessGroup.base (ProcessGroup.ctor 5)) Signal.sig_term 0 procs_ex).2 =
      map (λ q, (q, 15)) l.
Proof.
  destruct (@process_group_signal_delivery Ref.t _ _ _ Ref.proc_laws (Process.mk (Signalable.ctor 7) 7) (ProcessGroup.ctor 5)
    0 Signal.sig_term procs_ex procs_ex ltac:(simpl; lia) ltac:(vm_compute; reflexivity)
    ltac:(vm_compute; discriminate) ltac:(simpl; lia) ltac:(done)) as (_ & _ & H).
  destruct (sys_kill (- ProcessGroup.id (ProcessGroup.ctor 5)) Signal.sig_term procs_ex) as [rc w2] eqn:Ek.
  destruct H as [(H & _)|(_ & _ & Hs & l & Hl & _ & Hlog & Hf)].
  - exfalso. apply (f_equal fst) in Ek. rewrite H in Ek. vm_compute in Ek. discriminate Ek.
  - exists l. split; [exact Hl|]. split; [exact Hf|]. rewrite Hs. exact Hlog.
Defined.

Lemma process_invalid_signals_own_group_witness :
  ∃ l, l ≠ [] ∧ Forall (λ q, is_Some (Ref.procs procs_ex !! q) ∧ Ref.procs procs_ex !! q = Some 5) l.
Proof.
  destruct (@process_invalid_signals_own_group Ref.t _ _ _ Ref.proc_laws (Process.mk (Signalable.ctor 0) (-1)) Signal.sig_term
    procs_ex _ eq_refl ltac:(done) ltac:(vm_compute; reflexivity)) as (_ & l & Hne & _ & Hf).
  exists l. split; [exact Hne|exact Hf].
Defined.

Lemma process_group_of_invalid_witness :
  ∃ e w', Process.process_group_or_throw (Process.mk (Signalable.ctor 0) (-1)) procs_ex =
    (Throw (SystemError e), w').
Proof. exact (proj1 (@process_group_of_invalid Ref.t _ _ _ Ref.proc_laws _ 0 procs_ex eq_refl)). Defined.
