(* ===== verification/ChildProcess.v ===== *)
(** * core::posix::ChildProcess

    [src/core/posix/child_process.cpp], lines 273-397: the shared [Private]
    (three pipes, the descriptors of the stream buffers, the pids for the
    automatic cleanup), construction, destruction, [wait_for] and the stream
    accessors.  A stream is represented by the descriptor its buffer works on;
    buffering itself is not modelled. *)

From S2P Require Import Prelude.
From S2P Require Import Types.
From S2P Require Import Kernel.
From S2P Require Import RefKernel.
From S2P Require Import Pipe.
From S2P Require Import Process.

Module ChildProcess.

(** The anonymous struct [pipes] of [Private], members in declaration order. *)
Record Pipes : Type := mkPipes { p_stdin : Pipe.t; p_stdout : Pipe.t; p_stderr : Pipe.t }.

Record Private : Type := mkPrivate {
  pipes : Pipes;
  serr : Z;
  sin : Z;
  sout : Z;
  original_parent_pid : Z;
  original_child_pid : Z }.

Record t : Type := mk { base : Process.t; d : Private }.

Definition pid (self : t) : Z := Process.pid (base self).

Section operations.
Context {W : Type} {E : Errno W} {I : Pid W} {K : FdKernel W} {P : ProcKernel W}.

(** [Private(pid, stderr, stdin, stdout)]: the constructor's parameters come in the
    order stderr, stdin, stdout and initialise, in that order, the members
    stdin, stdout, stderr of the aggregate [pipes]. *)
Definition Private_ctor (pid : Z) (stderr stdin stdout : Pipe.t) (w : W) : Private * W :=
  let '(m_stdin, w1) := Pipe.copy stderr w in
  let '(m_stdout, w2) := Pipe.copy stdin w1 in
  let '(m_stderr, w3) := Pipe.copy stdout w2 in
  let pipes := mkPipes m_stdin m_stdout m_stderr in
  (mkPrivate pipes
     (Pipe.read_fd (p_stderr pipes))
     (Pipe.write_fd (p_stdin pipes))
     (Pipe.read_fd (p_stdout pipes))
     (getpid w3) pid, w3).

(** [~Private()]: the body, then the members in reverse order of declaration (the
    stream buffers never close their handles). *)
Definition Private_dtor (self : Private) (w : W) : W :=
  let w1 :=
    if original_parent_pid self =? getpid w then
      if negb (original_child_pid self =? -1) then
        (sys_kill (original_child_pid self) Signal.sig_kill w).2
      else w
    else w in
  let w2 := Pipe.dtor (p_stderr (pipes self)) w1 in
  let w3 := Pipe.dtor (p_stdout (pipes self)) w2 in
  Pipe.dtor (p_stdin (pipes self)) w3.

(** [ChildProcess(pid, stdin_pipe, stdout_pipe, stderr_pipe)]:
    [d(new Private{pid, stdin_pipe, stdout_pipe, stderr_pipe})]. *)
Definition ctor (pid : Z) (stdin_pipe stdout_pipe stderr_pipe : Pipe.t) : M W t :=
  match Process.ctor pid with
  | Ok base =>
      d ← call (Private_ctor pid stdin_pipe stdout_pipe stderr_pipe);
      mret (mk base d)
  | Throw e => throw e
  | Undefined => undefined
  end.

(** The destructor of the last copy. *)
Definition dtor (self : t) (w : W) : W := Private_dtor (d self) w.

(** [ChildProcess::invalid()]: "We take the init process as child."; the three
    temporaries are destroyed after the call. *)
Definition invalid : M (Pipe.env W) t :=
  let invalid_pid := 1 in
  a ← Pipe.invalid;
  b ← Pipe.invalid;
  c ← Pipe.invalid;
  finally (Pipe.lift (ctor invalid_pid a b c))
    (Pipe.on_world (λ w, Pipe.dtor a (Pipe.dtor b (Pipe.dtor c w)))).

Definition wait_for (self : t) (flags : Wait.Flags) : M W Wait.Result :=
  '(result_pid, status) ← call (sys_waitpid (pid self) flags);
  check_rc result_pid ;;
  if result_pid =? 0 then mret (Wait.mkResult Wait.s_no_state_change None)
  else mret (Wait.decode status).

(** The stream accessors, as the descriptor behind each stream. *)
Definition cerr (self : t) : Z := serr (d self).
Definition cin (self : t) : Z := sin (d self).
Definition cout (self : t) : Z := sout (d self).

End operations.

(** The descriptors a child process object keeps open. *)
Definition held (self : t) : list Z :=
  held_all [p_stdin (pipes (d self)); p_stdout (pipes (d self)); p_stderr (pipes (d self))].

End ChildProcess.

(** ** Lemmas *)

Section lemmas.
Context {W : Type} {E : Errno W} {I : Pid W} {K : FdKernel W} {P : ProcKernel W}.
Context {LF : FdLaws W} {LP : ProcLaws W} {LX : FrameLaws W}.
Implicit Types (w : W) (c : ChildProcess.t).

(** Construction copies each argument into the member of the same stream: the two
    permutations, in the call and in the constructor, cancel. *)
Lemma child_ctor_spec pid i o e w c w' :
  ChildProcess.ctor pid i o e w = (Ok c, w') →
  0 ≤ pid ∧ ChildProcess.base c = Process.mk (Signalable.ctor pid) pid ∧
  ChildProcess.original_child_pid (ChildProcess.d c) = pid ∧
  ∃ w1 w2, Pipe.copy i w = (ChildProcess.p_stdin (ChildProcess.pipes (ChildProcess.d c)), w1) ∧
    Pipe.copy o w1 = (ChildProcess.p_stdout (ChildProcess.pipes (ChildProcess.d c)), w2) ∧
    Pipe.copy e w2 = (ChildProcess.p_stderr (ChildProcess.pipes (ChildProcess.d c)), w') ∧
    ChildProcess.original_parent_pid (ChildProcess.d c) = getpid w' ∧
    ChildProcess.cin c = Pipe.fds1 (ChildProcess.p_stdin (ChildProcess.pipes (ChildProcess.d c))) ∧
    ChildProcess.cout c = Pipe.fds0 (ChildProcess.p_stdout (ChildProcess.pipes (ChildProcess.d c))) ∧
    ChildProcess.cerr c = Pipe.fds0 (ChildProcess.p_stderr (ChildProcess.pipes (ChildProcess.d c))).
Proof.
  unfold ChildProcess.ctor, Process.ctor. destruct (Z.ltb_spec pid 0); [done|].
  unfold call, mbind, M_bind, ChildProcess.Private_ctor.
  destruct (Pipe.copy i w) as [a w1] eqn:E1. destruct (Pipe.copy o w1) as [b w2] eqn:E2.
  destruct (Pipe.copy e w2) as [g w3] eqn:E3. intros [= <- <-]. simpl. eauto 20.
Qed.

Lemma ctor_nonneg_ok pid i o e w :
  0 ≤ pid → ∃ c w', ChildProcess.ctor pid i o e w = (Ok c, w').
Proof.
  intros Hp. unfold ChildProcess.ctor, Process.ctor. destruct (Z.ltb_spec pid 0); [lia|].
  unfold call, mbind, M_bind, mret, M_ret.
  destruct (ChildProcess.Private_ctor _ _ _ _ w) as [? ?]. eauto.
Qed.

Lemma child_ctor_owns b L pid i o e w c w' :
  ChildProcess.ctor pid i o e w = (Ok c, w') →
  owns b L (fd_table w) → owns b (ChildProcess.held c ++ L) (fd_table w').
Proof.
  intros (_ & _ & _ & w1 & w2 & E1 & E2 & E3 & _)%child_ctor_spec HL.
  unfold ChildProcess.held, held_all. simpl. rewrite app_nil_r.
  pose proof (copy_owns _ _ _ _ _ _ E1 HL) as H1.
  pose proof (copy_owns _ _ _ _ _ _ E2 H1) as H2.
  pose proof (copy_owns _ _ _ _ _ _ E3 H2) as H3.
  revert H3. apply owns_Permutation; [|done]. rewrite <- !app_assoc. apply Permutation_app_swap3.
Qed.

Lemma pipe_dtor_frame p w :
  signal_log (Pipe.dtor p w) = signal_log w ∧ getpid (Pipe.dtor p w) = getpid w.
Proof.
  assert (∀ fd w, signal_log (Pipe.close_end fd w) = signal_log w ∧
    getpid (Pipe.close_end fd w) = getpid w) as H.
  { intros fd v. unfold Pipe.close_end. case_Zeqb; [done|].
    destruct (sys_close fd v) as [rc v'] eqn:Ec. by eapply close_frame. }
  unfold Pipe.dtor. destruct (H (Pipe.fds1 p) (Pipe.close_end (Pipe.fds0 p) w)) as [-> ->]. apply H.
Qed.

(** The world after the kill of the cleanup, before the pipes go. *)
Lemma private_dtor_split p w :
  ∃ w1, fd_table w1 = fd_table w ∧
    ChildProcess.Private_dtor p w =
      Pipe.dtor (ChildProcess.p_stdin (ChildProcess.pipes p))
        (Pipe.dtor (ChildProcess.p_stdout (ChildProcess.pipes p))
          (Pipe.dtor (ChildProcess.p_stderr (ChildProcess.pipes p)) w1)) ∧
    ((ChildProcess.original_parent_pid p ≠ getpid w ∨ ChildProcess.original_child_pid p = -1) ∧
       w1 = w ∨
     ChildProcess.original_parent_pid p = getpid w ∧ ChildProcess.original_child_pid p ≠ -1 ∧
       w1 = (sys_kill (ChildProcess.original_child_pid p) Signal.sig_kill w).2).
Proof.
  unfold ChildProcess.Private_dtor. eexists. split; [|split; [reflexivity|]].
  - case_Zeqb; [|done]. case_Zeqb; [done|]. simpl.
    destruct (sys_kill _ _ w) as [rc w1] eqn:Ek. by eapply kill_frame.
  - case_Zeqb; [case_Zeqb|]; simpl; tauto.
Qed.

Lemma child_ctor_refers pid i o e w c w' :
  ChildProcess.ctor pid i o e w = (Ok c, w') →
  pipe_open (fd_table w) i → pipe_open (fd_table w) o → pipe_open (fd_table w) e →
  refers (fd_table w) (Pipe.write_fd i) (fd_table w') (ChildProcess.cin c) ∧
  refers (fd_table w) (Pipe.read_fd o) (fd_table w') (ChildProcess.cout c) ∧
  refers (fd_table w) (Pipe.read_fd e) (fd_table w') (ChildProcess.cerr c).
Proof.
  intros (_ & _ & _ & w1 & w2 & E1 & E2 & E3 & _ & -> & -> & ->)%child_ctor_spec Hi Ho He.
  apply copy_refers in E1 as (S1 & _ & R1); [|done].
  apply copy_refers in E2 as (S2 & R2 & _); [|eapply pipe_open_mono; [exact S1|done]].
  apply copy_refers in E3 as (S3 & R3 & _); [|eapply pipe_open_mono; [etrans; [exact S1|exact S2]|done]].
  split_and!.
  - eapply refers_mono; [reflexivity|etrans; [exact S2|exact S3]|exact R1].
  - eapply refers_open; [exact S1|exact Ho|by left|].
    eapply refers_mono; [reflexivity|exact S3|exact R2].
  - eapply refers_open; [etrans; [exact S1|exact S2]|exact He|by left|exact R3].
Qed.

Lemma child_invalid_spec e c e' :
  static_ok e → ChildProcess.invalid e = (Ok c, e') →
  ChildProcess.pid c = 1 ∧ ChildProcess.original_child_pid (ChildProcess.d c) = 1 ∧
  ChildProcess.held c = [] ∧ fd_table (Pipe.world e') = fd_table (Pipe.world e) ∧
  ChildProcess.original_parent_pid (ChildProcess.d c) = getpid (Pipe.world e').
Proof.
  intros Hs H. unfold ChildProcess.invalid in H.
  apply M_bind_Ok in H as (a & e1 & E1 & H). apply M_bind_Ok in H as (b & e2 & E2 & H).
  apply M_bind_Ok in H as (g & e3 & E3 & H).
  apply invalid_spec in E1 as (T1 & S1 & [[[= ->] _]|[[? ?] _]]); [|done..].
  apply invalid_spec in E2 as (T2 & S2 & [[[= ->] _]|[[? ?] _]]); [|done..].
  apply invalid_spec in E3 as (T3 & S3 & [[[= ->] _]|[[? ?] _]]); [|done..].
  unfold finally, Pipe.lift, zoom in H.
  destruct (ChildProcess.ctor _ _ _ _ _) as [[c'| |] w'] eqn:Ec; [|done..].
  injection H as <- <-. simpl.
  apply child_ctor_spec in Ec as (_ & Hb & Hp & w1 & w2 & [= Q1 <-] & [= Q2 <-] & [= Q3 <-] & Hpp & _).
  unfold ChildProcess.pid, ChildProcess.held. rewrite Hb, Hp, <- Q1, <- Q2, <- Q3.
  assert (∀ v : W, Pipe.dtor Pipe.closed v = v) as Hd by done.
  rewrite !Hd. split_and!; [done..| |done]. by rewrite T3, T2, T1.
Qed.

(** ** Properties *)

(** [r] is what [wait_for] must make of the result [rc] and status word [st] of [waitpid], which
    left the kernel in [w1]. *)
Definition reads_as pid flags (rc st : Z) w1 (r : outcome Wait.Result) : Prop :=
  (rc = -1 ∧ r = Throw (SystemError (errno w1))) ∨
  (rc = 0 ∧ Z.testbit flags 0 = true ∧ r = Ok (Wait.mkResult Wait.s_no_state_change None)) ∨
  (rc = pid ∧ ∃ ch, Wait.change_ok ch = true ∧ st = Wait.encode ch ∧ r = Ok (Wait.result_of ch)).

Lemma wait_for_reads c flags w rc st w1 :
  0 < ChildProcess.pid c → sys_waitpid (ChildProcess.pid c) flags w = ((rc, st), w1) →
  ∃ r, ChildProcess.wait_for c flags w = (r, w1) ∧ reads_as (ChildProcess.pid c) flags rc st w1 r.
Proof.
  intros Hp Ew. unfold ChildProcess.wait_for, call, check_rc, throw_errno, mbind, M_bind, reads_as. rewrite Ew.
  apply waitpid_status_law in Ew as [->|[[-> Hf]|(-> & ch & Hok & ->)]]; [by eauto|by eauto 10| |done].
  destruct (Z.eqb_spec (ChildProcess.pid c) (-1)); [lia|]. simpl.
  destruct (Z.eqb_spec (ChildProcess.pid c) 0); [lia|].
  eexists. split; [reflexivity|]. rewrite decode_encode by done. eauto 10.
Qed.

Lemma wait_for_cases c flags w r w' :
  0 < ChildProcess.pid c →
  ChildProcess.wait_for c flags w = (r, w') →
  (∃ e, r = Throw (SystemError e)) ∨
  (r = Ok (Wait.mkResult Wait.s_no_state_change None) ∧ Z.testbit flags 0 = true) ∨
  (∃ ch, Wait.change_ok ch = true ∧ r = Ok (Wait.result_of ch)).
Proof.
  intros Hp Hw. destruct (sys_waitpid (ChildProcess.pid c) flags w) as [[rc st] w1] eqn:Ew.
  destruct (wait_for_reads _ _ _ _ _ _ Hp Ew) as (r' & Hr & Hcase). rewrite Hw in Hr. injection Hr as <- <-.
  unfold reads_as in Hcase. naive_solver.
Qed.

(** C31: for a child with a positive pid the result of [wait_for] is determined by what
    [waitpid] returned: -1 is thrown as the system error with the errno of that call, 0 (only
    possible with [no_hang]) is [no_state_change], and the pid of the child is reported as
    exactly the state change that the status word encodes, with its exit status, signal and
    core flag; nothing but that one call touches the kernel. *)
Theorem wait_for_reports c flags w rc st w1 :
  0 < ChildProcess.pid c → sys_waitpid (ChildProcess.pid c) flags w = ((rc, st), w1) →
  ∃ r, ChildProcess.wait_for c flags w = (r, w1) ∧ reads_as (ChildProcess.pid c) flags rc st w1 r.
Proof. apply wait_for_reads. Qed.

(** C33: whatever [waitpid] reports, a result of [wait_for] is well formed: the member of
    the union that the status calls for is the one that was written, an exit status or
    stop signal is in 0..255 and a terminating signal in 1..126, and no member was written
    for the other states. *)
Theorem wait_result_typed c flags w r w' :
  ChildProcess.wait_for c flags w = (Ok r, w') → Wait.wf r = true.
Proof.
  unfold ChildProcess.wait_for, call, check_rc, throw_errno, mbind, M_bind.
  destruct (sys_waitpid _ _ w) as [[rc st] w1]. destruct (rc =? -1); [done|]. cbv [mret M_ret].
  destruct (rc =? 0); intros [= <- <-]; [done|apply decode_wf].
Qed.

(** Each member of a new [ChildProcess] holds copies of the ends of the argument
    for the same stream, although the constructor's parameters are declared in
    the order stderr, stdin, stdout and passed in the order stdin, stdout,
    stderr; [cin] writes to the stdin pipe, [cout] and [cerr] read from theirs. *)
Theorem child_streams_wired pid i o e w c w' :
  ChildProcess.ctor pid i o e w = (Ok c, w') →
  pipe_open (fd_table w) i → pipe_open (fd_table w) o → pipe_open (fd_table w) e →
  refers (fd_table w) (Pipe.write_fd i) (fd_table w') (ChildProcess.cin c) ∧
  refers (fd_table w) (Pipe.read_fd o) (fd_table w') (ChildProcess.cout c) ∧
  refers (fd_table w) (Pipe.read_fd e) (fd_table w') (ChildProcess.cerr c).
Proof. apply child_ctor_refers. Qed.

Lemma child_dtor_owns b L c w :
  owns b (ChildProcess.held c ++ L) (fd_table w) → owns b L (fd_table (ChildProcess.dtor c w)).
Proof.
  intros HL. unfold ChildProcess.dtor.
  destruct (private_dtor_split (ChildProcess.d c) w) as (w1 & Ht & -> & _). rewrite <- Ht in HL.
  unfold ChildProcess.held, held_all in HL. simpl in HL. rewrite app_nil_r, <- !app_assoc in HL.
  rewrite Permutation_app_swap3 in HL. auto using dtor_owns.
Qed.

(** What the cleanup logs, for a child with a positive pid. *)
Lemma child_dtor_log c w :
  let pid := ChildProcess.original_child_pid (ChildProcess.d c) in
  0 < pid →
  signal_log (ChildProcess.dtor c w) = signal_log w ++
    (if bool_decide (ChildProcess.original_parent_pid (ChildProcess.d c) = getpid w ∧
                     (sys_kill pid Signal.sig_kill w).1 = 0)
     then [(pid, Signal.sig_kill)] else []).
Proof.
  intros pid Hpid. unfold ChildProcess.dtor.
  destruct (private_dtor_split (ChildProcess.d c) w) as (w1 & _ & -> & Hw1).
  rewrite !(proj1 (pipe_dtor_frame _ _)). fold pid in Hw1.
  destruct Hw1 as [[Hno ->]|(Hp & _ & ->)].
  - rewrite bool_decide_false by (intros [? _]; destruct Hno; [done|lia]). by rewrite app_nil_r.
  - destruct (sys_kill pid _ w) as [rc w2] eqn:Ek. simpl.
    apply kill_law in Ek as [[-> ->]|(-> & l & -> & Hf & Hd & Hne)].
    + rewrite bool_decide_false by (by intros [_ ?]). by rewrite app_nil_r.
    + rewrite bool_decide_true by done. rewrite (NoDup_const pid l); [done|done|by apply Hne|].
      eapply Forall_impl; [exact Hf|]. intros q. by apply addressee_pos.
Qed.

(** C35: destroying the last copy of a [ChildProcess] releases exactly the
    descriptors it holds; it signals no process but the child's pid, with SIGKILL,
    exactly when it runs in the process that created the object and kill succeeds:
    in a forked copy nothing is killed, but in the creator the pid is signalled whether
    or not the child was waited for, whoever has that pid by then. *)
Theorem child_destruction b L c w :
  let pid := ChildProcess.original_child_pid (ChildProcess.d c) in
  owns b (ChildProcess.held c ++ L) (fd_table w) → 0 < pid →
  owns b L (fd_table (ChildProcess.dtor c w)) ∧
  signal_log (ChildProcess.dtor c w) = signal_log w ++
    (if bool_decide (ChildProcess.original_parent_pid (ChildProcess.d c) = getpid w ∧
                     (sys_kill pid Signal.sig_kill w).1 = 0)
     then [(pid, Signal.sig_kill)] else []).
Proof. intros pid HL Hpid. split; [by apply child_dtor_owns|by apply child_dtor_log]. Qed.

(** [ChildProcess::invalid()] is not inert: it holds no descriptor, but its pid is
    that of init and its destructor sends SIGKILL to process 1. *)
Theorem child_invalid_targets_init e c e' :
  static_ok e → ChildProcess.invalid e = (Ok c, e') →
  ChildProcess.pid c = 1 ∧ ChildProcess.held c = [] ∧
  fd_table (Pipe.world e') = fd_table (Pipe.world e) ∧
  ((sys_kill 1 Signal.sig_kill (Pipe.world e')).1 = 0 →
    signal_log (ChildProcess.dtor c (Pipe.world e')) =
      signal_log (Pipe.world e') ++ [(1, Signal.sig_kill)]).
Proof.
  intros Hs Hi. apply child_invalid_spec in Hi as (Hb & Hpid & Hh & Ht & Hpp); [|done].
  split_and!; [done..|]. intros Hk. rewrite child_dtor_log; rewrite Hpid; [|lia].
  by rewrite bool_decide_true.
Qed.
End lemmas.

(** ** Witnesses *)

(** A parent (pid 5) with its standard descriptors, one child (10) that has exited with code 3,
    the stdin pipe (3, 4) of that child. *)
Definition child_base : gmap Z Ofd :=
  list_to_map [(0, OtherFile 0); (1, OtherFile 1); (2, OtherFile 2); (3, PipeRead 7)].
Definition child_ex : Ref.t :=
  Ref.mk (<[4 := PipeWrite 7]> child_base) 0 64 8 5 11 (list_to_map [(1, 1); (5, 5); (10, 5)]) [] (<[10 := Some 768]> ∅) [] [] [].

Definition child_obj : ChildProcess.t :=
  ChildProcess.mk (Process.mk (Signalable.ctor 10) 10)
    (ChildProcess.mkPrivate (ChildProcess.mkPipes (Pipe.mk (-1) 4) Pipe.closed Pipe.closed)
       (-1) 4 (-1) 5 10).

(** The dead child 10 of [child_ex] is reported with the exit status 3 of its status word. *)
Lemma wait_for_reports_witness :
  (sys_waitpid 10 Wait.untraced child_ex).1 = (10, Wait.encode (Wait.Exited 3)) ∧
  (ChildProcess.wait_for child_obj Wait.untraced child_ex).1 = Ok (Wait.result_of (Wait.Exited 3)).
Proof.
  split; [vm_compute; reflexivity|].
  destruct (sys_waitpid 10 Wait.untraced child_ex) as [[rc st] w1] eqn:Ew.
  assert (rc = 10 ∧ st = Wait.encode (Wait.Exited 3)) as [-> ->].
  { apply (f_equal fst) in Ew. vm_compute in Ew. injection Ew as <- <-. split; reflexivity. }
  destruct (wait_for_reports (LP := Ref.proc_laws) child_obj Wait.untraced child_ex _ _ _
    ltac:(vm_compute; reflexivity) Ew) as (r & -> & [[H _]|[[H _]|(_ & ch & Hok & Hst & ->)]]);
    [discriminate H..|].
  simpl. do 2 f_equal. rewrite <- (decode_encode ch Hok), <- Hst. reflexivity.
Defined.

Lemma wait_result_typed_witness :
  match (ChildProcess.wait_for child_obj Wait.untraced child_ex).1 with
  | Ok r => Wait.wf r = true
  | _ => False
  end.
Proof.
  destruct (ChildProcess.wait_for child_obj Wait.untraced child_ex) as [[r|x|] w'] eqn:Ew;
    [exact (wait_result_typed _ _ _ _ _ Ew)|apply (f_equal fst) in Ew; vm_compute in Ew; discriminate Ew..].
Defined.

Lemma child_streams_wired_witness :
  let r := ChildProcess.ctor 10 (Pipe.mk (-1) 4) Pipe.closed Pipe.closed child_ex in
  match r.1 with
  | Ok c => Ref.fds r.2 !! ChildProcess.cin c = Some (PipeWrite 7)
  | _ => False
  end.
Proof.
  destruct (child_streams_wired (I := Ref.pid_kernel) (LF := Ref.fd_laws) 10 (Pipe.mk (-1) 4) Pipe.closed Pipe.closed
    child_ex _ _ ltac:(vm_compute; reflexivity)) as ([H|(_ & o & H1 & H2)] & _).
  - intros fd Hfd. vm_compute in Hfd. apply list_elem_of_singleton in Hfd as ->. by eexists.
  - intros fd Hfd. by apply elem_of_nil in Hfd.
  - intros fd Hfd. by apply elem_of_nil in Hfd.
  - vm_compute in H. discriminate.
  - vm_compute in H1. vm_compute. congruence.
Defined.

Lemma child_destruction_witness :
  Ref.fds (ChildProcess.dtor child_obj child_ex) = child_base ∧
  Ref.log (ChildProcess.dtor child_obj child_ex) = [(10, 9)].
Proof.
  destruct (child_destruction (LF := Ref.fd_laws) (LP := Ref.proc_laws) (LX := Ref.frame_laws)
    child_base [] child_obj child_ex) as [H1 H2].
  - apply (owns_alloc _ []); [by apply owns_nil|lia|reflexivity].
  - vm_compute. reflexivity.
  - split; [by apply owns_nil|]. etrans; [exact H2|vm_compute; reflexivity].
Defined.

(** The child is reaped by [wait_for], its pid goes to a process of somebody else (group
    77), and the destructor kills that one. *)
Example reused_pid_is_killed :
  let w1 := (ChildProcess.wait_for child_obj Wait.untraced child_ex).2 in
  let w2 := Ref.mk (Ref.fds w1) 0 64 8 5 11 (<[10 := 77]> (Ref.procs w1)) (Ref.log w1) (Ref.kids w1) [] [] [] in
  (ChildProcess.wait_for child_obj Wait.untraced child_ex).1 =
    Ok (Wait.result_of (Wait.Exited 3)) ∧
  Ref.kids w1 = ∅ ∧ Ref.log (ChildProcess.dtor child_obj w2) = [(10, 9)].
Proof. vm_compute. auto. Qed.

Lemma child_invalid_targets_init_witness :
  let r := ChildProcess.invalid (Pipe.mkEnv child_ex None) in
  match r.1 with
  | Ok c => ChildProcess.pid c = 1 ∧ Ref.log (ChildProcess.dtor c (Pipe.world r.2)) = [(1, 9)]
  | _ => False
  end.
Proof.
  destruct (child_invalid_targets_init (E := Ref.errno_kernel) (LF := Ref.fd_laws) (LP := Ref.proc_laws) (LX := Ref.frame_laws)
    (Pipe.mkEnv child_ex None) _ _ I ltac:(vm_compute; reflexivity)) as (H1 & _ & _ & H2).
  split; [exact H1|]. exact (H2 eq_refl).
Defined.
