(* ===== verification/Hierarchy.v ===== *)
(** * The interfaces Signalable, ProcessGroup and Process

    [include/core/posix/signalable.h], [process_group.h] and [process.h]: classes with
    virtual functions, of which [ChildProcess] is a further subclass and which a client
    may use through a reference to the base.  The classes below have the virtual functions
    as operations and, in the [Doc] classes, what their documentation promises; the
    library's types are instances.  The client is proved against the interface: code that
    signals the group of a process, once with the throwing overloads and once with
    those that report through an [std::error_code]. *)

From S2P Require Import Prelude.
From S2P Require Import Types.
From S2P Require Import Kernel.
From S2P Require Import RefKernel.
From S2P Require Import Pipe.
From S2P Require Import Process.
From S2P Require Import ChildProcess.

(** ** The virtual functions *)

Class SignalableI (X W : Type) : Type := {
  signal_or_throw : X → Signal.t → M W unit;
  signal_ec : X → Signal.t → Z → W → Z * W }.

Class ProcessGroupI (G W : Type) : Type := {
  group_signalable :: SignalableI G W;
  group_id : G → Z }.

Class ProcessI (X G W : Type) : Type := {
  process_signalable :: SignalableI X W;
  process_pid : X → Z;
  group_or_throw : X → M W G;
  group_ec : X → Z → W → (Z * G) * W }.

(** ** What they promise *)

(** The two forms of a function: one throws [std::system_error] exactly if the other stores an
    error, the same one; otherwise the caller's error code is left alone. *)
Definition same_report {W A B} (e : Z) (r : outcome A * W) (s : (Z * B) * W) (same : A → B → Prop) : Prop :=
  match r with
  | (Ok a, w') => s.1.1 = e ∧ same a s.1.2 ∧ s.2 = w'
  | (Throw (SystemError n), w') => n ≠ 0 ∧ s.1.1 = n ∧ s.2 = w'
  | _ => False
  end.

Class SignalableDoc (X W : Type) {P : ProcKernel W} {S : SignalableI X W} : Type := {
  reaches : X → W → Z → Prop;         (* who may receive a signal sent to the object *)
  (* "Sends a signal to this signalable object.  Throws std::system_error in case of problems." *)
  send_doc x sig w r w' :
    signal_or_throw x sig w = (r, w') →
    (∃ e, r = Throw (SystemError e) ∧ signal_log w' = signal_log w) ∨
    (r = Ok tt ∧ ∃ l, signal_log w' = signal_log w ++ map (λ p, (p, sig)) l ∧
       Forall (reaches x w) l ∧ NoDup l ∧ (sig ≠ Signal.unknown → l ≠ []));
  (* "e Set to contain an error if an issue arises." *)
  send_ec_doc x sig e w :
    same_report e (signal_or_throw x sig w) ((signal_ec x sig e w).1, tt, (signal_ec x sig e w).2) (=) }.

Class ProcessGroupDoc (G W : Type) {P : ProcKernel W} {I : ProcessGroupI G W} : Type := {
  group_signalable_doc :: SignalableDoc G W;
  proper : G → Prop;                  (* made by the library for a group *)
  (* "delivered individually to all of the processes that are members of the group" *)
  group_members g w p : proper g → 1 < group_id g → reaches g w p → groups w !! p = Some (group_id g) }.

Class ProcessDoc (X G W : Type) {P : ProcKernel W} {IG : ProcessGroupI G W} {DG : ProcessGroupDoc G W}
    {IX : ProcessI X G W} : Type := {
  process_signalable_doc :: SignalableDoc X W;
  genuine : X → Prop;                 (* made for an existing process *)
  genuine_pid x : genuine x → 0 < process_pid x;
  genuine_reaches x w p : genuine x → reaches x w p → p = process_pid x;
  (* "Queries the id of the process group this process belongs to." *)
  group_doc x w r w' :
    genuine x → group_or_throw x w = (r, w') →
    groups w' = groups w ∧ signal_log w' = signal_log w ∧
    ((∃ e, r = Throw (SystemError e)) ∨ ∃ g, r = Ok g ∧ proper g ∧ groups w !! process_pid x = Some (group_id g));
  group_ec_doc x e w : same_report e (group_or_throw x w) (group_ec x e w) (=) }.

(** errno(3): a failing call sets errno to a number that is not zero. *)
Class ErrnoLaws (W : Type) {E : Errno W} {P : ProcKernel W} : Prop := {
  kill_errno pid sig w w' : sys_kill pid sig w = (-1, w') → errno w' ≠ 0;
  getpgid_errno pid w w' : sys_getpgid pid w = (-1, w') → errno w' ≠ 0 }.

(** ** The library's classes *)

Section instances.
Context {W : Type} {E : Errno W} {I : Pid W} {P : ProcKernel W}.

#[export] Instance Signalable_interface : SignalableI Signalable.t W := {|
  signal_or_throw := Signalable.send_signal_or_throw;
  signal_ec := Signalable.send_signal |}.

#[export] Instance ProcessGroup_interface : ProcessGroupI ProcessGroup.t W := {|
  group_signalable := {|
    signal_or_throw g := signal_or_throw (ProcessGroup.base g);
    signal_ec g := signal_ec (ProcessGroup.base g) |};
  group_id := ProcessGroup.id |}.

#[export] Instance Process_interface : ProcessI Process.t ProcessGroup.t W := {|
  process_signalable := {|
    signal_or_throw p := signal_or_throw (Process.base p);
    signal_ec p := signal_ec (Process.base p) |};
  process_pid := Process.pid;
  group_or_throw := Process.process_group_or_throw;
  group_ec := Process.process_group |}.

(** [ChildProcess] overrides none of them. *)
#[export] Instance ChildProcess_interface : ProcessI ChildProcess.t ProcessGroup.t W := {|
  process_signalable := {|
    signal_or_throw c := signal_or_throw (ChildProcess.base c);
    signal_ec c := signal_ec (ChildProcess.base c) |};
  process_pid c := process_pid (ChildProcess.base c);
  group_or_throw c := group_or_throw (ChildProcess.base c);
  group_ec c := group_ec (ChildProcess.base c) |}.

Context {L : ProcLaws W} {LE : ErrnoLaws W}.

Lemma signalable_overloads x sig e (w : W) :
  same_report e (Signalable.send_signal_or_throw x sig w)
    ((Signalable.send_signal x sig e w).1, tt, (Signalable.send_signal x sig e w).2) (=).
Proof.
  unfold Signalable.send_signal_or_throw, Signalable.send_signal, call, check_rc, throw_errno, store_rc, mbind, M_bind.
  destruct (sys_kill _ _ w) as [rc w'] eqn:Ek. case_Zeqb; simpl; [|done]. subst. by apply kill_errno in Ek.
Qed.

Lemma group_overloads p e (w : W) :
  same_report e (Process.process_group_or_throw p w) (Process.process_group p e w) (=).
Proof.
  unfold Process.process_group_or_throw, Process.process_group, call, check_rc, throw_errno, store_rc, mbind, M_bind.
  destruct (sys_getpgid _ w) as [rc w'] eqn:Ek. case_Zeqb; simpl; [|done]. subst. by apply getpgid_errno in Ek.
Qed.

#[export] Instance Signalable_doc : SignalableDoc Signalable.t W := {|
  reaches s w p := addressee (getpid w) (groups w) (Signalable.pid s) p = true;
  send_doc := send_signal_or_throw_spec;
  send_ec_doc := signalable_overloads |}.

(** The base of a group has the negated id. *)
Definition negated (g : ProcessGroup.t) : Prop := Signalable.pid (ProcessGroup.base g) = - ProcessGroup.id g.

Lemma negated_members g (w : W) p :
  negated g → 1 < ProcessGroup.id g → addressee (getpid w) (groups w) (Signalable.pid (ProcessGroup.base g)) p = true →
  groups w !! p = Some (ProcessGroup.id g).
Proof.
  intros -> Hid. unfold addressee. destruct (Z.ltb_spec 0 (- ProcessGroup.id g)); [lia|]. repeat case_Zeqb; try lia.
  by rewrite bool_decide_eq_true, Z.opp_involutive.
Qed.

#[export] Instance ProcessGroup_doc : ProcessGroupDoc ProcessGroup.t W := {|
  group_signalable_doc := {|
    reaches g := reaches (ProcessGroup.base g);
    send_doc g := send_doc (ProcessGroup.base g);
    send_ec_doc g := send_ec_doc (ProcessGroup.base g) |};
  proper := negated;
  group_members := negated_members |}.

(** A process made by the constructor with a positive pid. *)
Definition constructed (p : Process.t) : Prop := 0 < Process.pid p ∧ Signalable.pid (Process.base p) = Process.pid p.

Lemma constructed_ok pid p : 0 < pid → Process.ctor pid = Ok p → constructed p ∧ Process.pid p = pid.
Proof. intros Hpid. unfold Process.ctor. destruct (Z.ltb_spec pid 0); [lia|]. by intros [= <-]. Qed.

Lemma constructed_reaches p (w : W) q :
  constructed p → addressee (getpid w) (groups w) (Signalable.pid (Process.base p)) q = true → q = Process.pid p.
Proof. intros [Hpid ->]. by apply addressee_pos. Qed.

Lemma constructed_group p (w : W) r w' :
  constructed p → Process.process_group_or_throw p w = (r, w') →
  groups w' = groups w ∧ signal_log w' = signal_log w ∧
  ((∃ e, r = Throw (SystemError e)) ∨ ∃ g, r = Ok g ∧ negated g ∧ groups w !! Process.pid p = Some (ProcessGroup.id g)).
Proof.
  intros [Hpid _]. unfold Process.process_group_or_throw, call, check_rc, throw_errno, mbind, M_bind.
  destruct (sys_getpgid _ w) as [rc w0] eqn:G. apply getpgid_law in G as (Hrc & _ & Hgs & _ & Hlog).
  rewrite (proj2 (Z.eqb_neq (Process.pid p) 0)) in Hrc by lia.
  case_Zeqb; intros [= <- <-]; (split_and!; [done|done|]); [left; eauto|right].
  destruct Hrc; [done|]. eexists. by split_and!.
Qed.

Definition Process_signalable_doc : SignalableDoc Process.t W := {|
  reaches p := reaches (Process.base p);
  send_doc p := send_doc (Process.base p);
  send_ec_doc p := send_ec_doc (Process.base p) |}.

#[export] Instance Process_doc : ProcessDoc Process.t ProcessGroup.t W := {|
  process_signalable_doc := Process_signalable_doc;
  genuine := constructed;
  genuine_pid p Hp := proj1 Hp;
  genuine_reaches := constructed_reaches;
  group_doc := constructed_group;
  group_ec_doc := group_overloads |}.

Definition ChildProcess_signalable_doc : SignalableDoc ChildProcess.t W := {|
  reaches c := reaches (ChildProcess.base c);
  send_doc c := send_doc (ChildProcess.base c);
  send_ec_doc c := send_ec_doc (ChildProcess.base c) |}.

#[export] Instance ChildProcess_doc : ProcessDoc ChildProcess.t ProcessGroup.t W := {|
  process_signalable_doc := ChildProcess_signalable_doc;
  genuine c := genuine (ChildProcess.base c);
  genuine_pid c := genuine_pid (ChildProcess.base c);
  genuine_reaches c := genuine_reaches (ChildProcess.base c);
  group_doc c := group_doc (ChildProcess.base c);
  group_ec_doc c := group_ec_doc (ChildProcess.base c) |}.
End instances.

(** ** A client of the interface *)

Section client.
Context {X G W : Type} {P : ProcKernel W} {IG : ProcessGroupI G W} {DG : ProcessGroupDoc G W}.
Context {IX : ProcessI X G W} {DX : ProcessDoc X G W}.
Implicit Types (x : X) (w : W).

(** [p.process_group_or_throw().send_signal_or_throw(signal)] *)
Definition signal_group x (sig : Signal.t) : M W unit :=
  g ← group_or_throw x; signal_or_throw g sig.

(** The same with error codes: [auto g = p.process_group(e); if (!e) g.send_signal(signal, e);] *)
Definition signal_group_ec x (sig : Signal.t) (w : W) : Z * W :=
  let '((e, g), w1) := group_ec x 0 w in
  if e =? 0 then signal_ec g sig e w1 else (e, w1).

(** The signals [sig] to some of the members of [gid], each once and at least one. *)
Definition to_members (gid sig : Z) w w' : Prop :=
  ∃ l, l ≠ [] ∧ NoDup l ∧ signal_log w' = signal_log w ++ map (λ q, (q, sig)) l ∧
    Forall (λ q, groups w !! q = Some gid) l.

Lemma signal_group_reports x sig w :
  same_report 0 (signal_group x sig w) ((signal_group_ec x sig w).1, tt, (signal_group_ec x sig w).2) (=).
Proof.
  unfold signal_group, signal_group_ec, mbind, M_bind. pose proof (group_ec_doc x 0 w) as Hg.
  destruct (group_ec x 0 w) as [[e g] w1], (group_or_throw x w) as [[g'|[]|] w2]; simpl in Hg; try done.
  - destruct Hg as (-> & -> & ->). simpl. apply send_ec_doc.
  - destruct Hg as (Hn & -> & ->). by rewrite (proj2 (Z.eqb_neq _ _) Hn).
Qed.

(** Code that signals the group of a process, written against the virtual functions of
    [Process] and [ProcessGroup], for every implementation that does what they are
    documented to do: either it returns, and then the signal has reached members of the
    process's group only, each once (provided the group's id is greater than 1), or
    it throws [std::system_error] and nobody has been signalled.  The same code with the
    error-code overloads does the same and reports the same error. *)
Theorem group_client x sig w :
  genuine x → sig ≠ Signal.unknown →
  match signal_group x sig w with
  | (Ok _, w') => signal_group_ec x sig w = (0, w') ∧
      ∃ gid, groups w !! process_pid x = Some gid ∧ (1 < gid → to_members gid sig w w')
  | (Throw (SystemError n), w') => n ≠ 0 ∧ signal_group_ec x sig w = (n, w') ∧ signal_log w' = signal_log w
  | _ => False
  end.
Proof.
  intros Hx Hsig. pose proof (signal_group_reports x sig w) as Hrep.
  destruct (signal_group_ec x sig w) as [e we]. simpl in Hrep.
  assert (match signal_group x sig w with
    | (Ok _, w') => ∃ gid, groups w !! process_pid x = Some gid ∧ (1 < gid → to_members gid sig w w')
    | (_, w') => signal_log w' = signal_log w end) as Hlog.
  { unfold signal_group, mbind, M_bind. destruct (group_or_throw x w) as [r w1] eqn:Eg.
    apply group_doc in Eg as (Hgs & Hl & [[n ->]|(g & -> & Hpr & Hgid)]); [done| |done].
    destruct (signal_or_throw g sig w1) as [r w2] eqn:Es.
    apply send_doc in Es as [(n & -> & ->)|(-> & l & Hl2 & Hall & Hd & Hne)]; [done|].
    exists (group_id g). split; [done|]. intros H1. exists l. split_and!; [auto|done|by rewrite Hl2, Hl|].
    eapply Forall_impl; [exact Hall|]. intros q Hq. rewrite <- Hgs. by apply (group_members g). }
  destruct (signal_group x sig w) as [[[]|[]|] w']; try done.
  - destruct Hrep as (He & _ & Hw). simpl in He, Hw. subst. by split.
  - destruct Hrep as (Hn & He & Hw). simpl in He, Hw. subst. by split_and!.
Qed.
End client.

(** ** Witness *)

#[export] Instance ref_errno_laws : ErrnoLaws Ref.t.
Proof. split; simpl; unfold Ref.kill, Ref.getpgid, Ref.fail; intros; repeat case_match; simplify_eq; try done; lia. Qed.

(** Process 7 is a child in group 5, with the caller. *)
Definition child7 : ChildProcess.t :=
  ChildProcess.mk (Process.mk (Signalable.ctor 7) 7)
    (ChildProcess.mkPrivate (ChildProcess.mkPipes Pipe.closed Pipe.closed Pipe.closed) (-1) (-1) (-1) 5 7).

Lemma group_client_witness :
  ∃ w', signal_group (G := ProcessGroup.t) child7 Signal.sig_term procs_ex = (Ok tt, w') ∧
    signal_group_ec (G := ProcessGroup.t) child7 Signal.sig_term procs_ex = (0, w') ∧
    to_members 5 Signal.sig_term procs_ex w'.
Proof.
  pose proof (group_client (X := ChildProcess.t) (G := ProcessGroup.t)
    (DG := ProcessGroup_doc (L := Ref.proc_laws)) (DX := ChildProcess_doc (L := Ref.proc_laws))
    child7 Signal.sig_term procs_ex (conj eq_refl eq_refl) ltac:(done)) as H.
  destruct (signal_group child7 Signal.sig_term procs_ex) as [[[]|x|] w'] eqn:Es;
    [|apply (f_equal fst) in Es; vm_compute in Es; discriminate Es..].
  destruct H as (H1 & gid & H2 & H3). exists w'. split; [reflexivity|]. split; [exact H1|].
  vm_compute in H2. injection H2 as <-. by apply H3.
Defined.
