(* ===== verification/SharedChild.v ===== *)
(** * Copies of a ChildProcess

    [ChildProcess] objects are copied freely: the copies share one [Private] through the
    [std::shared_ptr] member [d] ([include/core/posix/child_process.h]), and the destructor
    of [Private] ([src/core/posix/child_process.cpp]), which closes the pipes and kills the
    child, runs when the last copy goes.  [Module Shared] has the heap of these objects with
    their use counts and the compiler's copy constructor, assignment and destructor; the
    theorem is about programs that make, copy, assign and destroy objects. *)

From S2P Require Import Prelude.
From S2P Require Import Types.
From S2P Require Import CppString.
From S2P Require Import Kernel.
From S2P Require Import RefKernel.
From S2P Require Import Pipe.
From S2P Require Import Process.
From S2P Require Import ChildProcess.

Module Shared.

(** An object: the base class (whose own shared parts never change) and the pointer [d]. *)
Record t : Type := mk { base : Process.t; d : positive }.

Definition pid (self : t) : Z := Process.pid (base self).

(** The shared parts with their use counts, and the objects whose destructor has run (the
    identity and the pid of the child). *)
Record state (W : Type) : Type := mkState {
  heap : gmap positive (nat * ChildProcess.Private);
  next : positive;
  gone : list (positive * Z);
  world : W }.
Arguments mkState {W} _ _ _ _.
Arguments heap {W} _.
Arguments next {W} _.
Arguments gone {W} _.
Arguments world {W} _.

Section operations.
Context {W : Type} {E : Errno W} {I : Pid W} {K : FdKernel W} {P : ProcKernel W}.

Definition on_heap (f : gmap positive (nat * ChildProcess.Private) → gmap positive (nat * ChildProcess.Private))
    (s : state W) : state W := mkState (f (heap s)) (next s) (gone s) (world s).

(** [ChildProcess(pid, stdin_pipe, stdout_pipe, stderr_pipe)]: [d(new Private{...})]. *)
Definition make (pid : Z) (stdin_pipe stdout_pipe stderr_pipe : Pipe.t) : M (state W) t := λ s,
  match ChildProcess.ctor pid stdin_pipe stdout_pipe stderr_pipe (world s) with
  | (Ok c, w') =>
      (Ok (mk (ChildProcess.base c) (next s)),
       mkState (<[next s := (1%nat, ChildProcess.d c)]> (heap s)) (Pos.succ (next s)) (gone s) w')
  | (Throw x, w') => (Throw x, mkState (heap s) (next s) (gone s) w')
  | (Undefined, w') => (Undefined, mkState (heap s) (next s) (gone s) w')
  end.

(** The copy constructor of [std::shared_ptr]: one more owner. *)
Definition retain (l : positive) : M (state W) unit := λ s,
  match heap s !! l with
  | Some (n, p) => (Ok tt, on_heap <[l := (S n, p)]> s)
  | None => (Undefined, s)
  end.

(** Its destructor: the last owner destroys the object. *)
Definition release (l : positive) : M (state W) unit := λ s,
  match heap s !! l with
  | Some (S (S n), p) => (Ok tt, on_heap <[l := (S n, p)]> s)
  | Some (_, p) =>
      (Ok tt, mkState (delete l (heap s)) (next s) (gone s ++ [(l, ChildProcess.original_child_pid p)])
                (ChildProcess.Private_dtor p (world s)))
  | None => (Undefined, s)
  end.

(** The implicit copy constructor, destructor and assignment of [ChildProcess]. *)
Definition copy (rhs : t) : M (state W) t := retain (d rhs) ;; mret (mk (base rhs) (d rhs)).
Definition dtor (self : t) : M (state W) unit := release (d self).
Definition assign (self rhs : t) : M (state W) t :=
  retain (d rhs) ;; release (d self) ;; mret (mk (base rhs) (d rhs)).

(** The object as the other files see it. *)
Definition view (self : t) (s : state W) : option ChildProcess.t :=
  (λ np, ChildProcess.mk (base self) np.2) <$> heap s !! d self.

End operations.
End Shared.

(** ** Books of the heap *)

Definition private_held (p : ChildProcess.Private) : list Z :=
  held_all [ChildProcess.p_stdin (ChildProcess.pipes p); ChildProcess.p_stdout (ChildProcess.pipes p);
            ChildProcess.p_stderr (ChildProcess.pipes p)].

(** The descriptors of the shared parts. *)
Definition heap_held (H : gmap positive (nat * ChildProcess.Private)) : list Z :=
  map_to_list H ≫= λ x, private_held x.2.2.

Lemma heap_held_insert H l n p :
  heap_held (<[l := (n, p)]> H) ≡ₚ private_held p ++ heap_held (delete l H).
Proof.
  unfold heap_held. rewrite <- insert_delete_eq, map_to_list_insert by apply lookup_delete_eq. done.
Qed.

Lemma heap_held_lookup H l n p :
  H !! l = Some (n, p) → heap_held H ≡ₚ private_held p ++ heap_held (delete l H).
Proof. intros Hl. rewrite <- (insert_id H l (n, p)) at 1 by done. apply heap_held_insert. Qed.

(** How many of the objects share [l]. *)
Definition copies (l : positive) (hs : list Shared.t) : nat := length (filter (λ h, Shared.d h = l) hs).

#[export] Instance copies_Permutation l : Proper ((≡ₚ) ==> (=)) (copies l).
Proof. intros hs hs' H. unfold copies. by rewrite H. Qed.

Lemma copies_cons l h hs : copies l (h :: hs) = ((if decide (Shared.d h = l) then 1 else 0) + copies l hs)%nat.
Proof. unfold copies. rewrite filter_cons. by case_decide. Qed.

Lemma copies_in h hs : h ∈ hs → (0 < copies (Shared.d h) hs)%nat.
Proof.
  intros Hh. unfold copies. destruct (filter _ hs) eqn:Ef; [|simpl; lia]. exfalso.
  eapply (elem_of_nil h). rewrite <- Ef. by apply list_elem_of_filter.
Qed.

(** ** Programs over ChildProcess objects *)

Section programs.
Context {W : Type} {E : Errno W} {I : Pid W} {K : FdKernel W} {P : ProcKernel W}.
Implicit Types (s : Shared.state W) (h : Shared.t) (hs : list Shared.t) (w : W).

(** One operation of a program that keeps its objects in a list.  The constructor is private
    to the library, which calls it with the pid of a child. *)
Inductive shared_step : list Shared.t * Shared.state W → list Shared.t * Shared.state W → Prop :=
| shared_make hs s pid i o e h s' :
    0 < pid → Shared.make pid i o e s = (Ok h, s') → shared_step (hs, s) (h :: hs, s')
| shared_copy hs s q h s' :
    q ∈ hs → Shared.copy q s = (Ok h, s') → shared_step (hs, s) (h :: hs, s')
| shared_assign hs1 h hs2 s q h' s' :
    q ∈ hs1 ++ h :: hs2 → Shared.assign h q s = (Ok h', s') →
    shared_step (hs1 ++ h :: hs2, s) (hs1 ++ h' :: hs2, s')
| shared_dtor hs1 h hs2 s s' :
    Shared.dtor h s = (Ok tt, s') → shared_step (hs1 ++ h :: hs2, s) (hs1 ++ hs2, s').

Definition kill_of (g : positive * Z) : Z * Z := (g.2, Signal.sig_kill).

(** Every object refers to a living shared part, whose count is right and whose descriptors
    are accounted for; destroyed ones are gone for good, and only they have been killed. *)
Record shared_inv (b : gmap Z Ofd) (log : list (Z * Z)) hs s : Prop := {
  inv_count l n p : Shared.heap s !! l = Some (n, p) →
    n = copies l hs ∧ (0 < n)%nat ∧ 0 < ChildProcess.original_child_pid p ∧ (l < Shared.next s)%positive;
  inv_alive h : h ∈ hs → ∃ n p, Shared.heap s !! Shared.d h = Some (n, p) ∧
    ChildProcess.original_child_pid p = Shared.pid h;
  inv_owns : owns b (heap_held (Shared.heap s)) (fd_table (Shared.world s));
  inv_gone : NoDup (Shared.gone s).*1 ∧
    (∀ l, l ∈ (Shared.gone s).*1 → Shared.heap s !! l = None ∧ (l < Shared.next s)%positive) ∧
    ∀ l, (l < Shared.next s)%positive → is_Some (Shared.heap s !! l) ∨ l ∈ (Shared.gone s).*1;
  inv_kills : ∃ kills, signal_log (Shared.world s) = log ++ kills ∧
    kills `sublist_of` (kill_of <$> Shared.gone s) }.

Lemma shared_inv_perm b log hs hs' s : hs ≡ₚ hs' → shared_inv b log hs s → shared_inv b log hs' s.
Proof.
  intros Hp [H1 H2 H3 H4 H5]. split; [|..|done|done|done].
  - intros l n p Hl. rewrite <- Hp. by apply H1.
  - intros h Hh. rewrite <- Hp in Hh. by apply H2.
Qed.

Context {LF : FdLaws W} {LP : ProcLaws W} {LX : FrameLaws W}.

(** Changing a count does not change which parts are there. *)
Lemma gone_update (H : gmap positive (nat * ChildProcess.Private)) (G : list (positive * Z)) nxt l x y :
  H !! l = Some x →
  (NoDup G.*1 ∧ (∀ k, k ∈ G.*1 → H !! k = None ∧ (k < nxt)%positive) ∧
   ∀ k, (k < nxt)%positive → is_Some (H !! k) ∨ k ∈ G.*1) →
  NoDup G.*1 ∧ (∀ k, k ∈ G.*1 → <[l := y]> H !! k = None ∧ (k < nxt)%positive) ∧
   ∀ k, (k < nxt)%positive → is_Some (<[l := y]> H !! k) ∨ k ∈ G.*1.
Proof.
  intros Hl (Hd & Hg & Hf). split_and!; [done| |].
  - intros k Hk. destruct (Hg k Hk). by rewrite lookup_insert_ne by congruence.
  - intros k Hk. rewrite lookup_insert. case_decide; [by left|by apply Hf].
Qed.

Lemma retain_inv b log hs s q :
  shared_inv b log hs s → q ∈ hs →
  ∃ s', Shared.retain (Shared.d q) s = (Ok tt, s') ∧ shared_inv b log (Shared.mk (Shared.base q) (Shared.d q) :: hs) s'.
Proof.
  intros Hinv Hq. destruct (inv_alive _ _ _ _ Hinv q Hq) as (n & p & Hl & Hpid). unfold Shared.retain. rewrite Hl.
  eexists. split; [done|]. destruct Hinv as [H1 H2 H3 H4 H5]. destruct (H1 _ _ _ Hl) as (Hn & Hpos & Hcp & Hlt).
  split; simpl; [..|done].
  - intros l n' p'. rewrite copies_cons. simpl. rewrite lookup_insert. case_decide as Eq.
    + intros [= <- <-]. subst. split_and!; [lia|lia|done|done].
    + by apply H1.
  - intros h Hh. apply elem_of_cons in Hh as [->|Hh]; simpl.
    + rewrite lookup_insert_eq. by eexists _, _.
    + destruct (H2 h Hh) as (n' & p' & Hl' & Hp'). rewrite lookup_insert. case_decide as Eq.
      * eexists _, _. split; [done|]. rewrite <- Eq in Hl'. by simplify_eq.
      * by eexists _, _.
  - rewrite heap_held_insert. by rewrite <- (heap_held_lookup _ _ _ _ Hl).
  - by eapply gone_update.
Qed.

(** The destructor of the shared part. *)
Lemma private_dtor_books b L p w :
  owns b (private_held p ++ L) (fd_table w) → 0 < ChildProcess.original_child_pid p →
  owns b L (fd_table (ChildProcess.Private_dtor p w)) ∧
  ∃ k, signal_log (ChildProcess.Private_dtor p w) = signal_log w ++ k ∧
    k `sublist_of` [(ChildProcess.original_child_pid p, Signal.sig_kill)].
Proof.
  intros HL Hp. pose (c := ChildProcess.mk (Process.mk (Signalable.ctor 1) 1) p).
  split; [by apply (child_dtor_owns b L c)|].
  pose proof (child_dtor_log c w Hp) as Hlog. eexists. split; [exact Hlog|].
  clear Hlog. simpl. case_bool_decide; [reflexivity|apply sublist_nil_l].
Qed.

Lemma release_inv b log hs s h :
  shared_inv b log (h :: hs) s → ∃ s', Shared.release (Shared.d h) s = (Ok tt, s') ∧ shared_inv b log hs s'.
Proof.
  intros Hinv. destruct (inv_alive _ _ _ _ Hinv h) as (n & p & Hl & Hpid); [by left|].
  destruct Hinv as [H1 H2 H3 H4 H5]. destruct (H1 _ _ _ Hl) as (Hn & Hpos & Hcp & Hlt).
  rewrite copies_cons, decide_True in Hn by done. unfold Shared.release. rewrite Hl.
  destruct n as [|[|n]]; [lia|eexists; split; [done|]..].
  - assert (copies (Shared.d h) hs = 0%nat) as H0 by lia.
    assert (∀ h', h' ∈ hs → Shared.d h' ≠ Shared.d h) as Hne.
    { intros h' Hh' Eq. apply copies_in in Hh'. rewrite Eq in Hh'. lia. }
    rewrite (heap_held_lookup _ _ _ _ Hl) in H3.
    destruct (private_dtor_books _ _ _ _ H3 Hcp) as (HL & k & Hk & Hsub).
    split; simpl; [..|exact HL| |].
    + intros l n' p' [Hne' Hl']%lookup_delete_Some. apply H1 in Hl'.
      by rewrite copies_cons, decide_False in Hl' by done.
    + intros h' Hh'. destruct (H2 h') as (n' & p' & Hl' & ?); [by right|]. exists n', p'.
      rewrite lookup_delete_ne; [done|]. intros Eq. by apply (Hne h' Hh').
    + destruct H4 as (Hd & Hg & Hf). rewrite fmap_app. split_and!.
      * apply NoDup_app. split_and!; [done| |apply NoDup_singleton].
        intros l Hin Hin'. apply list_elem_of_singleton in Hin' as ->. destruct (Hg _ Hin). simpl in *. congruence.
      * intros l [Hin| ->%list_elem_of_singleton]%elem_of_app; [|by rewrite lookup_delete_eq].
        destruct (Hg l Hin). by rewrite lookup_delete_None; auto.
      * intros l Hlt'. rewrite elem_of_app. simpl. rewrite list_elem_of_singleton.
        destruct (decide (l = Shared.d h)) as [->|Hne']; [by right; right|].
        rewrite lookup_delete_ne by done. destruct (Hf l Hlt'); auto.
    + destruct H5 as (kills & Hlog & Hks). exists (kills ++ k). rewrite Hk, Hlog, app_assoc. split; [done|].
      rewrite fmap_app. by apply sublist_app.
  - split; simpl; [..|done].
    + intros l n' p'. rewrite lookup_insert. case_decide as Eq.
      * intros [= <- <-]. subst. split_and!; [lia|lia|done|done].
      * intros Hl'. apply H1 in Hl'. by rewrite copies_cons, decide_False in Hl' by done.
    + intros h' Hh'. destruct (H2 h') as (n' & p' & Hl' & ?); [by right|]. rewrite lookup_insert. case_decide as Eq.
      * eexists _, _. split; [done|]. rewrite <- Eq in Hl'. by simplify_eq.
      * by eexists _, _.
    + rewrite heap_held_insert. by rewrite <- (heap_held_lookup _ _ _ _ Hl).
    + by eapply gone_update.
Qed.

Lemma pipe_copy_log rhs w p w' : Pipe.copy rhs w = (p, w') → signal_log w' = signal_log w.
Proof.
  assert (∀ fd v n v', Pipe.dup_end fd v = (n, v') → signal_log v' = signal_log v) as Hd.
  { intros fd v n v'. unfold Pipe.dup_end. case_Zeqb; [by intros [= _ <-]|]. intros H. by eapply dup_frame. }
  unfold Pipe.copy. destruct (Pipe.dup_end _ w) as [f0 w1] eqn:E0. destruct (Pipe.dup_end _ w1) as [f1 w2] eqn:E1.
  intros [= _ <-]. by rewrite (Hd _ _ _ _ E1), (Hd _ _ _ _ E0).
Qed.

Lemma make_inv b log hs s pid i o e h s' :
  0 < pid → Shared.make pid i o e s = (Ok h, s') → shared_inv b log hs s → shared_inv b log (h :: hs) s'.
Proof.
  intros Hpid. unfold Shared.make. destruct (ChildProcess.ctor _ _ _ _ _) as [[c|x|] w'] eqn:Ec; [|done..].
  intros [= <- <-] [H1 H2 H3 H4 H5].
  pose proof (child_ctor_owns _ _ _ _ _ _ _ _ _ Ec H3) as HL.
  apply child_ctor_spec in Ec as (_ & Hb & Hcp & w1 & w2 & E1%pipe_copy_log & E2%pipe_copy_log & E3%pipe_copy_log & _).
  assert (Shared.heap s !! Shared.next s = None) as Hfresh.
  { destruct (Shared.heap s !! Shared.next s) as [[n p]|] eqn:El; [|done]. apply H1 in El. lia. }
  assert (∀ h, h ∈ hs → Shared.d h ≠ Shared.next s) as Hne.
  { intros h Hh Eq. destruct (H2 h Hh) as (n & p & Hl & _). congruence. }
  assert (copies (Shared.next s) hs = 0%nat) as H0.
  { unfold copies. destruct (filter _ hs) as [|h l] eqn:Ef; [done|]. exfalso.
    assert (h ∈ filter (λ h, Shared.d h = Shared.next s) hs) as Hin by (rewrite Ef; by left).
    apply list_elem_of_filter in Hin as [Eq Hin]. by apply (Hne h). }
  split; simpl.
  - intros l n p. rewrite copies_cons, lookup_insert. simpl. case_decide as Eq.
    + intros [= <- <-]. subst l. rewrite Hcp, H0. split_and!; [done|lia|done|lia].
    + intros Hl. destruct (H1 _ _ _ Hl) as (? & ? & ? & ?). split_and!; [done|done|done|lia].
  - intros h [->|Hh]%elem_of_cons; simpl.
    + rewrite lookup_insert_eq. eexists _, _. split; [done|]. unfold Shared.pid. simpl. by rewrite Hb, Hcp.
    + rewrite lookup_insert_ne by (intros ?; by apply (Hne h Hh)). by apply H2.
  - by rewrite heap_held_insert, delete_id.
  - destruct H4 as (Hd & Hg & Hf). split_and!; [done| |].
    + intros l Hin. destruct (Hg l Hin) as [Hn Hlt]. rewrite lookup_insert_ne by lia. split; [done|lia].
    + intros l Hlt. rewrite lookup_insert. case_decide as Eq; [by left|]. apply Hf. lia.
  - by rewrite E3, E2, E1.
Qed.

Lemma shared_step_inv b log hs s hs' s' :
  shared_step (hs, s) (hs', s') → shared_inv b log hs s → shared_inv b log hs' s'.
Proof.
  inversion 1 as [?? pid i o e h ? Hpid Hm|?? q h ? Hq Hm|hs1 h hs2 ? q h' ? Hq Hm|hs1 h hs2 ?? Hm]; subst; intros Hinv.
  - by eapply make_inv.
  - destruct (retain_inv _ _ _ _ _ Hinv Hq) as (s1 & Er & Hinv').
    unfold Shared.copy, mbind, M_bind in Hm. rewrite Er in Hm. by injection Hm as <- <-.
  - destruct (retain_inv _ _ _ _ _ Hinv Hq) as (s1 & Er & Hinv').
    unfold Shared.assign, mbind, M_bind in Hm. rewrite Er in Hm.
    apply (shared_inv_perm _ _ _ (h :: Shared.mk (Shared.base q) (Shared.d q) :: hs1 ++ hs2)) in Hinv';
      [|by rewrite <- Permutation_middle; apply Permutation_swap].
    destruct (release_inv _ _ _ _ _ Hinv') as (s2 & El & Hinv2). rewrite El in Hm. injection Hm as <- <-.
    eapply shared_inv_perm; [|exact Hinv2]. apply Permutation_middle.
  - apply (shared_inv_perm _ _ _ (h :: hs1 ++ hs2)) in Hinv; [|by rewrite Permutation_middle].
    destruct (release_inv _ _ _ _ _ Hinv) as (s2 & El & Hinv2). unfold Shared.dtor in Hm. rewrite El in Hm.
    by injection Hm as <-.
Qed.

(** What the books say about the objects there are. *)
Lemma shared_inv_facts b log hs s :
  shared_inv b log hs s →
  (∀ h, h ∈ hs → ∃ p, Shared.heap s !! Shared.d h = Some (copies (Shared.d h) hs, p) ∧
     ChildProcess.original_child_pid p = Shared.pid h) ∧
  (∀ l, (l < Shared.next s)%positive → (l ∈ (Shared.gone s).*1 ↔ copies l hs = 0%nat)) ∧
  (hs = [] → Shared.heap s = ∅ ∧ fd_table (Shared.world s) = b).
Proof.
  intros [H1 H2 H3 (Hd & Hg & Hf) H5]. split_and!.
  - intros h Hh. destruct (H2 h Hh) as (n & p & Hl & Hp). exists p. by destruct (H1 _ _ _ Hl) as (<- & _).
  - intros l Hlt. split.
    + intros Hin. destruct (Hg _ Hin) as [Hn _]. unfold copies.
      destruct (filter _ hs) as [|h hs'] eqn:Ef; [done|]. exfalso.
      assert (h ∈ filter (λ h, Shared.d h = l) hs) as Hh by (rewrite Ef; by left).
      apply list_elem_of_filter in Hh as [Eq Hh]. destruct (H2 h Hh) as (n & p & Hl & _). congruence.
    + intros H0. destruct (Hf l Hlt) as [[[n p] Hl]|]; [|done]. destruct (H1 _ _ _ Hl) as (-> & ? & _). lia.
  - intros ->. assert (Shared.heap s = ∅) as He.
    { apply map_eq. intros l. rewrite lookup_empty. destruct (Shared.heap s !! l) as [[n p]|] eqn:El; [|done].
      destruct (H1 _ _ _ El) as (-> & Hpos & _). by unfold copies in Hpos; simpl in Hpos; lia. }
    split; [done|]. apply owns_nil. by rewrite He in H3.
Qed.

Lemma shared_inv_start w : shared_inv (fd_table w) (signal_log w) [] (Shared.mkState ∅ 1 [] w).
Proof.
  split; simpl; [done|by intros h ?%elem_of_nil|by apply owns_nil
    |split_and!; [constructor|by intros l ?%elem_of_nil|intros l; lia]|].
  exists []. by rewrite app_nil_r.
Qed.

(** C14: in every program that makes, copies, assigns (also to itself) and destroys
    [ChildProcess] objects, each object refers to a living shared part with its child's pid,
    whose use count is the number of its copies; the descriptor table is the initial one
    plus exactly what the living shared parts hold; the destructor of a shared part has
    run, once, exactly if no copy is left: SIGKILL goes to the children of destroyed
    parts only, once each at most, and to nobody while a copy is left; with no object
    left nothing is open. *)
Theorem shared_children w hs s :
  rtc shared_step ([], Shared.mkState ∅ 1 [] w) (hs, s) →
  (∀ h, h ∈ hs → ∃ p, Shared.heap s !! Shared.d h = Some (copies (Shared.d h) hs, p) ∧
     ChildProcess.original_child_pid p = Shared.pid h) ∧
  owns (fd_table w) (heap_held (Shared.heap s)) (fd_table (Shared.world s)) ∧
  (NoDup (Shared.gone s).*1 ∧
   ∀ l, (l < Shared.next s)%positive → (l ∈ (Shared.gone s).*1 ↔ copies l hs = 0%nat)) ∧
  (∃ kills, signal_log (Shared.world s) = signal_log w ++ kills ∧
     kills `sublist_of` (kill_of <$> Shared.gone s)) ∧
  (hs = [] → Shared.heap s = ∅ ∧ fd_table (Shared.world s) = fd_table w).
Proof.
  intros Hr. assert (shared_inv (fd_table w) (signal_log w) hs s) as Hinv.
  { refine (rtc_ind_r (λ c, shared_inv (fd_table w) (signal_log w) c.1 c.2) ([], _) (shared_inv_start w) _ _ Hr).
    intros [hs1 s1] [hs2 s2] _ Hst. by apply shared_step_inv. }
  destruct (shared_inv_facts _ _ _ _ Hinv) as (F1 & F2 & F3). destruct Hinv as [_ _ H3 (Hd & _) H5]. by split_and!.
Qed.
End programs.

(** ** Witness *)

(** An object for child 10 is made and copied; the first copy is assigned to itself and
    destroyed, which kills nobody; destroying the second one kills the child. *)
Definition shared_start : Shared.state Ref.t := Shared.mkState ∅ 1 [] child_ex.
Definition shared1 := Shared.make 10 (Pipe.mk (-1) 4) Pipe.closed Pipe.closed shared_start.
Definition shared_obj : Shared.t := Shared.mk (Process.mk (Signalable.ctor 10) 10) 1.
Definition shared2 := Shared.copy shared_obj shared1.2.
Definition shared3 := Shared.assign shared_obj shared_obj shared2.2.
Definition shared4 := Shared.dtor shared_obj shared3.2.
Definition shared5 := Shared.dtor shared_obj shared4.2.

Lemma shared_children_witness :
  Ref.log (Shared.world shared4.2) = [] ∧ Ref.log (Shared.world shared5.2) = [(10, 9)] ∧
  Ref.fds (Shared.world shared5.2) = Ref.fds child_ex.
Proof.
  split; [vm_compute; reflexivity|]. split; [vm_compute; reflexivity|].
  destruct (shared_children (LF := Ref.fd_laws) (LP := Ref.proc_laws) (LX := Ref.frame_laws) child_ex [] shared5.2)
    as (_ & _ & _ & _ & H); [|by apply H].
  eapply rtc_l; [apply (shared_make [] _ 10 (Pipe.mk (-1) 4) Pipe.closed Pipe.closed shared_obj shared1.2);
    [lia|vm_compute; reflexivity]|].
  eapply rtc_l; [apply (shared_copy _ _ shared_obj shared_obj shared2.2); [by left|vm_compute; reflexivity]|].
  eapply rtc_l; [apply (shared_assign [] shared_obj [shared_obj] _ shared_obj shared_obj shared3.2);
    [by left|vm_compute; reflexivity]|].
  eapply rtc_l; [apply (shared_dtor [] shared_obj [shared_obj] _ shared4.2); vm_compute; reflexivity|].
  apply rtc_once. apply (shared_dtor [] shared_obj [] _ shared5.2). vm_compute. reflexivity.
Defined.
