(* ===== verification/Fork.v ===== *)
(** * core::posix::fork and core::posix::vfork

    [src/core/posix/fork.cpp].  The three local [Pipe] objects live in a stack
    frame that is part of the state, so that unwinding and scope exit destroy
    their current values.  The kernel's fork returns twice: the parent continues
    with its own copy of the frame and of the descriptor table, the child with
    another one; after vfork the two share the frame (and the statics) but not
    the descriptor table, and the child runs first.  A run of [fork] therefore
    yields two results, [parent] and [child]. *)

From S2P Require Import Prelude.
From S2P Require Import Types.
From S2P Require Import CppString.
From S2P Require Import Kernel.
From S2P Require Import RefKernel.
From S2P Require Import Pipe.
From S2P Require Import Backtrace.
From S2P Require Import Process.
From S2P Require Import ChildProcess.

Module Fork.

Definition STDIN_FILENO : Z := 0.
Definition STDOUT_FILENO : Z := 1.
Definition STDERR_FILENO : Z := 2.

(** The locals of [fork]. *)
Record frame : Type := mkFrame { stdin_pipe : Pipe.t; stdout_pipe : Pipe.t; stderr_pipe : Pipe.t }.

Definition set_stdin (p : Pipe.t) (f : frame) : frame := mkFrame p (stdout_pipe f) (stderr_pipe f).
Definition set_stdout (p : Pipe.t) (f : frame) : frame := mkFrame (stdin_pipe f) p (stderr_pipe f).
Definition set_stderr (p : Pipe.t) (f : frame) : frame := mkFrame (stdin_pipe f) (stdout_pipe f) p.

(** Both sides of a fork: how the parent's call ends, and the child's exit status with
    the state it exits in ([None] when no child was created). *)
Record forked (W A : Type) : Type := mkForked {
  parent : outcome A * Pipe.env W;
  child : option (outcome Exit.Status * Pipe.env W) }.
Arguments mkForked {W A} _ _.
Arguments parent {W A} _.
Arguments child {W A} _.

Definition is_child (pid : Z) : bool := pid =? 0.

Section fork.
Context {W : Type} {E : Errno W} {I : Pid W} {K : FdKernel W} {F : ForkKernel W} {P : ProcKernel W}.
(** [e.what()], the demangler and the stack walk of the calling thread. *)
Context (what : exn → str) (cxa_demangle : str → option str * Z) (walk : W → Backtrace.walk).

(** The state of a running body: locals, statics, kernel. *)
Abbreviation state := (frame * Pipe.env W)%type.

Definition liftE {A} (m : M (Pipe.env W) A) : M state A := zoom snd (λ e s, (s.1, e)) m.
Definition liftW {A} (m : M W A) : M state A := liftE (Pipe.lift m).

(** A [void] member call on one of the locals. *)
Definition on_pipe (sel : frame → Pipe.t) (upd : Pipe.t → frame → frame)
    (op : Pipe.t → W → Pipe.t * W) : M state unit :=
  f ← gets fst;
  p ← liftW (call (op (sel f)));
  modify (λ s, (upd p s.1, s.2)).

(** [x_pipe = ChildProcess::Pipe();]: temporary, assignment, end of the temporary. *)
Definition assign_new (sel : frame → Pipe.t) (upd : Pipe.t → frame → frame) : M state unit :=
  tmp ← liftW Pipe.ctor;
  on_pipe sel upd (λ p, Pipe.assign p tmp) ;;
  liftW (modify (Pipe.dtor tmp)).

Definition when (b : bool) (m : M state unit) : M state unit := if b then m else mret tt.

(** Destruction of the locals, in reverse order. *)
Definition destroy (f : frame) (w : W) : W :=
  Pipe.dtor (stdin_pipe f) (Pipe.dtor (stdout_pipe f) (Pipe.dtor (stderr_pipe f) w)).

Definition redirect_stream_to_fd (fd stream : Z) : M W unit :=
  rc ← call (sys_dup2 fd stream);
  check_rc rc.

(** [Pipe stdin_pipe{Pipe::invalid()}; ...] *)
Definition locals : M (Pipe.env W) frame :=
  a ← Pipe.invalid;
  b ← on_throw Pipe.invalid (Pipe.on_world (Pipe.dtor a));
  c ← on_throw Pipe.invalid (Pipe.on_world (λ w, Pipe.dtor a (Pipe.dtor b w)));
  mret (mkFrame a b c).

(** [Pipe stdin_pipe, stdout_pipe, stderr_pipe;] *)
Definition new_locals : M (Pipe.env W) frame :=
  a ← Pipe.lift Pipe.ctor;
  b ← on_throw (Pipe.lift Pipe.ctor) (Pipe.on_world (Pipe.dtor a));
  c ← on_throw (Pipe.lift Pipe.ctor) (Pipe.on_world (λ w, Pipe.dtor a (Pipe.dtor b w)));
  mret (mkFrame a b c).

Definition open_requested (flags : StandardStream.t) : M state unit :=
  when (StandardStream.requested flags StandardStream.stdin) (assign_new stdin_pipe set_stdin) ;;
  when (StandardStream.requested flags StandardStream.stdout) (assign_new stdout_pipe set_stdout) ;;
  when (StandardStream.requested flags StandardStream.stderr) (assign_new stderr_pipe set_stderr).

(** The child closes the parent's ends. *)
Definition child_close : M state unit :=
  on_pipe stdin_pipe set_stdin Pipe.close_write_fd ;;
  on_pipe stdout_pipe set_stdout Pipe.close_read_fd ;;
  on_pipe stderr_pipe set_stderr Pipe.close_read_fd.

(** The start of the child's try block, up to the call of [main]. *)
Definition child_prologue (flags : StandardStream.t) : M state unit :=
  child_close ;;
  f ← gets fst;
  when (StandardStream.requested flags StandardStream.stdin)
    (liftW (redirect_stream_to_fd (Pipe.read_fd (stdin_pipe f)) STDIN_FILENO)) ;;
  when (StandardStream.requested flags StandardStream.stdout)
    (liftW (redirect_stream_to_fd (Pipe.write_fd (stdout_pipe f)) STDOUT_FILENO)) ;;
  when (StandardStream.requested flags StandardStream.stderr)
    (liftW (redirect_stream_to_fd (Pipe.write_fd (stderr_pipe f)) STDERR_FILENO)).

(** The two catch clauses. *)
Definition report (e : exn) : M W unit :=
  modify (cerr_write
    (if is_std_exception e then
       $"core::posix::fork(): An unhandled std::exception occured in the child process:"
         ++ ["010"%char] ++ $"  what(): " ++ what e ++ ["010"%char]
     else $"core::posix::fork(): An unhandled exception occured in the child process."
         ++ ["010"%char])) ;;
  w ← gets walk;
  Backtrace.print_backtrace cxa_demangle cerr_write w ($"  ").

(** The child: [result] is [failure] until [main] has returned. *)
Definition child_main (flags : StandardStream.t) (main : M (Pipe.env W) Exit.Status) :
    M state Exit.Status :=
  try_catch (child_prologue flags ;; liftE main)
    (λ e, liftW (report e) ;; mret Exit.failure).

(** The parent closes the child's ends. *)
Definition parent_close : M state unit :=
  on_pipe stdin_pipe set_stdin Pipe.close_read_fd ;;
  on_pipe stdout_pipe set_stdout Pipe.close_write_fd ;;
  on_pipe stderr_pipe set_stderr Pipe.close_write_fd.

(** The parent: closing the child's ends and making the process object. *)
Definition parent_body (pid : Z) : M state ChildProcess.t :=
  parent_close ;;
  f ← gets fst;
  liftW (ChildProcess.ctor pid (stdin_pipe f) (stdout_pipe f) (stderr_pipe f)).

(** Everything after the system call returned [pid]: [inl] is a return from the
    function, [inr] is [::exit(result)]. *)
Definition after_fork (flags : StandardStream.t) (main : M (Pipe.env W) Exit.Status) (pid : Z) :
    M state (ChildProcess.t + Exit.Status) :=
  if pid =? -1 then liftW throw_errno
  else if is_child pid then r ← child_main flags main; mret (inr r)
  else c ← parent_body pid; mret (inl c).

(** Leaving the scope of the locals by return or exception. *)
Definition leave (r : outcome (ChildProcess.t + Exit.Status) * state) :
    outcome ChildProcess.t * Pipe.env W :=
  match r with
  | (Ok (inl c), (f, e)) => (Ok c, Pipe.on_world (destroy f) e)
  | (Throw x, (f, e)) => (Throw x, Pipe.on_world (destroy f) e)
  | (_, (_, e)) => (Undefined, e)
  end.

(** The child's end: [exit] does not run the destructors of the locals. *)
Definition exits (r : outcome (ChildProcess.t + Exit.Status) * state) :
    outcome Exit.Status * Pipe.env W :=
  match r with
  | (Ok (inr st), (_, e)) => (Ok (i32 st), e)
  | (Throw x, (_, e)) => (Throw x, e)
  | (_, (_, e)) => (Undefined, e)
  end.

Definition fork (main : M (Pipe.env W) Exit.Status) (flags : StandardStream.t) (e : Pipe.env W) :
    forked W ChildProcess.t :=
  match locals e with
  | (Ok f, e1) =>
      match open_requested flags (f, e1) with
      | (Ok _, (f, e2)) =>
          let '(pid, wp, wc) := sys_fork (Pipe.world e2) in
          mkForked
            (leave (after_fork flags main pid (f, Pipe.mkEnv wp (Pipe.invalid_p e2))))
            (if pid =? -1 then None
             else Some (exits (after_fork flags main 0 (f, Pipe.mkEnv wc (Pipe.invalid_p e2)))))
      | (Throw x, (f, e2)) => mkForked (Throw x, Pipe.on_world (destroy f) e2) None
      | (Undefined, (_, e2)) => mkForked (Undefined, e2) None
      end
  | (Throw x, e1) => mkForked (Throw x, e1) None
  | (Undefined, e1) => mkForked (Undefined, e1) None
  end.

(** vfork: all three pipes are created whatever the flags; the parent resumes in the
    memory the child left behind. *)
Definition vfork (main : M (Pipe.env W) Exit.Status) (flags : StandardStream.t) (e : Pipe.env W) :
    forked W ChildProcess.t :=
  match new_locals e with
  | (Ok f, e1) =>
      let '(pid, wp, wc) := sys_vfork (Pipe.world e1) in
      if pid =? -1 then
        mkForked (leave (after_fork flags main pid (f, Pipe.mkEnv wp (Pipe.invalid_p e1)))) None
      else
        let r := after_fork flags main 0 (f, Pipe.mkEnv wc (Pipe.invalid_p e1)) in
        mkForked
          (leave (after_fork flags main pid (r.2.1, Pipe.mkEnv wp (Pipe.invalid_p r.2.2))))
          (Some (exits r))
  | (Throw x, e1) => mkForked (Throw x, e1) None
  | (Undefined, e1) => mkForked (Undefined, e1) None
  end.

End fork.
End Fork.
