(* ===== verification/ForkProps.v ===== *)
(** * Descriptor accounting and stream redirection of fork and vfork

    Proofs about [Fork]: every path of [fork] in the parent leaves exactly the
    descriptors of the returned object behind (none when it throws), the child
    starts [main] with its standard streams connected to the parent's ends, and
    what sharing the memory does to [vfork]. *)

From S2P Require Import Prelude.
From S2P Require Import Types.
From S2P Require Import CppString.
From S2P Require Import Kernel.
From S2P Require Import RefKernel.
From S2P Require Import Pipe.
From S2P Require Import Backtrace.
From S2P Require Import Process.
From S2P Require Import ChildProcess.
From S2P Require Import Fork.

(** The descriptors held by the locals. *)
Definition frame_held (f : Fork.frame) : list Z :=
  held_all [Fork.stdin_pipe f; Fork.stdout_pipe f; Fork.stderr_pipe f].

(** [sel] and [upd] access one local; [rest] is what the other two hold. *)
Record local (sel : Fork.frame → Pipe.t) (upd : Pipe.t → Fork.frame → Fork.frame)
    (rest : Fork.frame → list Z) : Prop := mkLocal {
  local_get f : frame_held f ≡ₚ Pipe.held (sel f) ++ rest f;
  local_set p f : frame_held (upd p f) ≡ₚ Pipe.held p ++ rest f }.

Lemma local_stdin : local Fork.stdin_pipe Fork.set_stdin
  (λ f, held_all [Fork.stdout_pipe f; Fork.stderr_pipe f]).
Proof. by split. Qed.

Lemma local_stdout : local Fork.stdout_pipe Fork.set_stdout
  (λ f, held_all [Fork.stdin_pipe f; Fork.stderr_pipe f]).
Proof.
  split; intros; unfold frame_held, held_all; simpl; apply Permutation_app_swap_app.
Qed.

Lemma local_stderr : local Fork.stderr_pipe Fork.set_stderr
  (λ f, held_all [Fork.stdout_pipe f; Fork.stdin_pipe f]).
Proof.
  split; intros; unfold frame_held, held_all; simpl; apply Permutation_app_swap3.
Qed.

#[export] Hint Resolve local_stdin local_stdout local_stderr : preserves.

Section accounting.
Context {W : Type} {E : Errno W} {I : Pid W} {K : FdKernel W} {F : ForkKernel W} {P : ProcKernel W}.
Context {LF : FdLaws W} {LK : ForkLaws W}.
Context (what : exn → str) (cxa_demangle : str → option str * Z) (walk : W → Backtrace.walk).
Context (b : gmap Z Ofd).
Abbreviation state := (Fork.frame * Pipe.env W)%type.

(** The locals own their descriptors, on top of [L] and the base table. *)
Definition fowns (L : list Z) (s : state) : Prop :=
  owns b (frame_held s.1 ++ L) (fd_table (Pipe.world s.2)) ∧ static_ok s.2.

(** An operation on a pipe object that keeps the books, whatever else is held. *)
Definition book_keeping (op : Pipe.t → W → Pipe.t * W) : Prop :=
  ∀ L p w p' w', op p w = (p', w') →
    owns b (Pipe.held p ++ L) (fd_table w) → owns b (Pipe.held p' ++ L) (fd_table w').

Lemma close_read_book : book_keeping Pipe.close_read_fd.
Proof. intros ?????. apply close_read_fd_owns. Qed.

Lemma close_write_book : book_keeping Pipe.close_write_fd.
Proof. intros ?????. apply close_write_fd_owns. Qed.

Lemma assign_book tmp : book_keeping (λ p, Pipe.assign p tmp).
Proof. intros ?????. apply assign_owns. Qed.

(** A member call on a local always returns. *)
Lemma on_pipe_eq sel upd (op : Pipe.t → W → Pipe.t * W) (s : state) :
  Fork.on_pipe sel upd op s =
    (Ok tt, (upd (op (sel s.1) (Pipe.world s.2)).1 s.1,
             Pipe.mkEnv (op (sel s.1) (Pipe.world s.2)).2 (Pipe.invalid_p s.2))).
Proof.
  cbv [Fork.on_pipe gets mbind M_bind Fork.liftW Fork.liftE Pipe.lift zoom call modify].
  by destruct (op _ _).
Qed.

Lemma on_pipe_preserves L sel upd rest op :
  local sel upd rest → book_keeping op → preserves (fowns L) (Fork.on_pipe sel upd op).
Proof.
  intros [Hget Hset] Hop [f e] [HL Hs]. rewrite on_pipe_eq.
  destruct (op (sel f) (Pipe.world e)) as [p w'] eqn:Eop. split; [|done]. simpl in *.
  rewrite Eop. rewrite Hget, <- app_assoc in HL. rewrite Hset, <- app_assoc. by eapply Hop.
Qed.

Lemma assign_new_preserves L sel upd rest :
  local sel upd rest → preserves (fowns L) (Fork.assign_new sel upd).
Proof.
  intros Hl [f e] [HL Hs]. unfold Fork.assign_new.
  cbv [Fork.liftW Fork.liftE Pipe.lift zoom]; unfold mbind at 1, M_bind; simpl.
  destruct (Pipe.ctor (Pipe.world e)) as [r w'] eqn:Ec.
  destruct r as [tmp|x|]; simpl.
  - eapply ctor_owns in Ec as Ho; [|exact HL].
    set (s1 := (f, Pipe.mkEnv w' (Pipe.invalid_p e)) : state).
    assert (fowns (Pipe.held tmp ++ L) s1) as H1.
    { split; [|done]. simpl. by rewrite Permutation_app_swap_app. }
    apply (on_pipe_preserves _ _ _ _ _ Hl (assign_book tmp)) in H1.
    unfold mbind, M_bind, modify. rewrite on_pipe_eq in *. destruct H1 as [H1 H2].
    split; [|done]. simpl in *. apply dtor_owns. by rewrite Permutation_app_swap_app.
  - split; [|done]. simpl. by rewrite (ctor_throw _ _ _ Ec).
  - by apply pipe_ctor_spec in Ec as [(? & ? & _)|(? & ? & ? & _)].
Qed.

Lemma when_preserves (J : state → Prop) c m : preserves J m → preserves J (Fork.when c m).
Proof. unfold Fork.when. destruct c; [done|]. intros _. apply preserves_ret. Qed.

#[local] Hint Resolve on_pipe_preserves assign_new_preserves when_preserves
  close_read_book close_write_book assign_book : preserves.

Lemma open_requested_preserves L flags : preserves (fowns L) (Fork.open_requested flags).
Proof.
  unfold Fork.open_requested. repeat (apply preserves_bind; [|intros _]); eauto with preserves.
Qed.

Lemma parent_close_preserves L : preserves (fowns L) Fork.parent_close.
Proof.
  unfold Fork.parent_close. repeat (apply preserves_bind; [|intros _]); eauto with preserves.
Qed.

Lemma child_close_preserves L : preserves (fowns L) Fork.child_close.
Proof.
  unfold Fork.child_close. repeat (apply preserves_bind; [|intros _]); eauto with preserves.
Qed.

Lemma parent_close_ok (s : state) : ∃ s', Fork.parent_close s = (Ok tt, s').
Proof. unfold Fork.parent_close, mbind, M_bind. rewrite !on_pipe_eq. eauto. Qed.

Lemma child_close_ok (s : state) : ∃ s', Fork.child_close s = (Ok tt, s').
Proof. unfold Fork.child_close, mbind, M_bind. rewrite !on_pipe_eq. eauto. Qed.

(** The local variables start out invalid, or nothing was constructed at all. *)
Lemma locals_spec e r e' :
  static_ok e → Fork.locals e = (r, e') →
  fd_table (Pipe.world e') = fd_table (Pipe.world e) ∧ static_ok e' ∧
  (r = Ok (Fork.mkFrame Pipe.closed Pipe.closed Pipe.closed) ∨ ∃ x, r = Throw (SystemError x)).
Proof.
  intros Hs. unfold Fork.locals, on_throw, mbind, M_bind.
  destruct (Pipe.invalid e) as [r1 e1] eqn:E1.
  apply invalid_spec in E1 as (T1 & S1 & [[-> Q1]|[[x ->] _]]); [| |done];
    [|intros [= <- <-]; split_and!; eauto].
  destruct (Pipe.invalid e1) as [r2 e2] eqn:E2.
  apply invalid_spec in E2 as (T2 & S2 & [[-> Q2]|[_ Q2]]); [|congruence|done].
  destruct (Pipe.invalid e2) as [r3 e3] eqn:E3.
  apply invalid_spec in E3 as (T3 & S3 & [[-> Q3]|[_ Q3]]); [|congruence|done].
  intros [= <- <-]. split_and!; [congruence|done|by left].
Qed.

(** Leaving the scope of the locals gives their descriptors back. *)
Lemma destroy_owns L f w :
  owns b (frame_held f ++ L) (fd_table w) → owns b L (fd_table (Fork.destroy f w)).
Proof.
  unfold Fork.destroy, frame_held, held_all; simpl. rewrite app_nil_r, <- !app_assoc.
  rewrite Permutation_app_swap3. auto using dtor_owns.
Qed.

Lemma parent_body_spec L pid s r s' :
  0 < pid → fowns L s → Fork.parent_body pid s = (r, s') →
  ∃ c, r = Ok c ∧ ChildProcess.pid c = pid ∧
    owns b (frame_held s'.1 ++ ChildProcess.held c ++ L) (fd_table (Pipe.world s'.2)) ∧ static_ok s'.2.
Proof.
  intros Hpid Hs Hr.
  pose proof (parent_close_preserves L s Hs) as [H1 H2].
  unfold Fork.parent_body in Hr. unfold mbind at 1, M_bind in Hr.
  destruct (parent_close_ok s) as [s1 E1]. rewrite E1 in *. destruct s1 as [f e].
  cbv [gets mbind M_bind Fork.liftW Fork.liftE Pipe.lift zoom] in Hr. simpl in *.
  destruct (ctor_nonneg_ok pid (Fork.stdin_pipe f) (Fork.stdout_pipe f) (Fork.stderr_pipe f)
    (Pipe.world e)) as (c & w' & Ec); [lia|].
  rewrite Ec in Hr. injection Hr as <- <-. exists c. simpl.
  eapply child_ctor_owns in Ec as Ho; [|exact H1].
  apply child_ctor_spec in Ec as (_ & Hb & _).
  split_and!; [done|by unfold ChildProcess.pid; rewrite Hb| |done].
  by rewrite Permutation_app_swap_app.
Qed.

Lemma assign_new_defined sel upd : defined (Fork.assign_new (W := W) sel upd).
Proof.
  intros [f e]. unfold Fork.assign_new.
  cbv [Fork.liftW Fork.liftE Pipe.lift zoom]; unfold mbind at 1, M_bind; simpl.
  destruct (Pipe.ctor (Pipe.world e)) as [r w'] eqn:Ec.
  apply pipe_ctor_spec in Ec as [(x & -> & _)|(p & i & -> & _)]; [done|].
  unfold mbind, M_bind. by rewrite on_pipe_eq.
Qed.

Lemma open_requested_defined flags : defined (Fork.open_requested (W := W) flags).
Proof.
  unfold Fork.open_requested, Fork.when.
  repeat (apply defined_bind; [|intros _]);
    match goal with |- defined (if ?c then _ else _) => destruct c end;
    auto using assign_new_defined with defined.
Qed.
End accounting.

(** ** fork *)

Section fork_properties.
Context {W : Type} {E : Errno W} {I : Pid W} {K : FdKernel W} {F : ForkKernel W} {P : ProcKernel W}.
Context {LF : FdLaws W} {LK : ForkLaws W}.
Context (what : exn → str) (cxa_demangle : str → option str * Z) (walk : W → Backtrace.walk).
Implicit Types (e : Pipe.env W) (main : M (Pipe.env W) Exit.Status).

(** What [fork] guarantees about the descriptor table of the parent. *)
Definition accounted e (res : outcome ChildProcess.t * Pipe.env W) : Prop :=
  static_ok res.2 ∧
  match res.1 with
  | Ok c => owns (fd_table (Pipe.world e)) (ChildProcess.held c) (fd_table (Pipe.world res.2)) ∧
      0 < ChildProcess.pid c
  | Throw _ => fd_table (Pipe.world res.2) = fd_table (Pipe.world e)
  | Undefined => False
  end.

(** The parent's side after the system call. *)
Lemma after_fork_accounted e main flags pid (s : Fork.frame * Pipe.env W) :
  pid = -1 ∨ 0 < pid → fowns (fd_table (Pipe.world e)) [] s →
  accounted e (Fork.leave (Fork.after_fork what cxa_demangle walk flags main pid s)).
Proof.
  intros Hpid Hs. unfold Fork.after_fork, Fork.is_child.
  destruct (Z.eqb_spec pid (-1)) as [->|Hne].
  - destruct s as [f e2]. destruct Hs as [HL Hok].
    split; [done|]. simpl in *. apply owns_nil, destroy_owns, HL.
  - destruct (Z.eqb_spec pid 0); [lia|]. unfold mbind, M_bind.
    destruct (Fork.parent_body pid s) as [r [f e2]] eqn:Er.
    destruct (parent_body_spec _ [] pid s _ _ ltac:(lia) Hs Er) as (c & -> & Hc & HL & Hok).
    split; [done|]. simpl in *. rewrite Hc. split; [|lia].
    rewrite app_nil_r in HL. by apply destroy_owns.
Qed.

Lemma fork_accounted main flags e :
  static_ok e →
  accounted e (Fork.parent (Fork.fork what cxa_demangle walk main flags e)).
Proof.
  intros Hs. unfold Fork.fork. destruct (Fork.locals e) as [r e1] eqn:El.
  apply locals_spec in El as (Ht & Hs1 & [->|[x ->]]); [| |done]; [|by split].
  set (f0 := Fork.mkFrame _ _ _).
  assert (fowns (fd_table (Pipe.world e)) [] (f0, e1)) as H0.
  { split; [|done]. simpl. by apply owns_nil. }
  pose proof (open_requested_preserves _ [] flags _ H0) as H1.
  pose proof (open_requested_defined flags (f0, e1)) as Hdef.
  destruct (Fork.open_requested flags (f0, e1)) as [[[]|x|] [f e2]]; simpl in H1, Hdef; [| |done].
  - destruct (sys_fork (Pipe.world e2)) as [[pid wp] wc] eqn:Ef.
    apply fork_law in Ef as (Hwp & _ & Hpid). simpl. apply after_fork_accounted; [naive_solver|].
    destruct H1 as [HL Hok]. split; [|done]. simpl in *. by rewrite Hwp.
  - destruct H1 as [HL Hok]. split; [done|]. simpl in *. apply owns_nil, destroy_owns, HL.
Qed.

(** C3: every way [fork] can end in the parent is accounted for: on success the
    descriptor table is the one before the call plus exactly the descriptors the
    returned [ChildProcess] holds, and the pid is positive; when it throws
    (pipe, dup or fork failing at any point) the table is unchanged. *)
Theorem fork_parent_accounting main flags e :
  static_ok e →
  accounted e (Fork.parent (Fork.fork what cxa_demangle walk main flags e)).
Proof. apply fork_accounted. Qed.
End fork_properties.

(** ** Redirection *)

(** The six ends of the locals; valid ones are pairwise different. *)
Definition ends (f : Fork.frame) : list Z :=
  [Pipe.fds0 (Fork.stdin_pipe f); Pipe.fds1 (Fork.stdin_pipe f);
   Pipe.fds0 (Fork.stdout_pipe f); Pipe.fds1 (Fork.stdout_pipe f);
   Pipe.fds0 (Fork.stderr_pipe f); Pipe.fds1 (Fork.stderr_pipe f)].

Lemma frame_held_ends f : frame_held f = filter (λ fd, fd ≠ -1) (ends f).
Proof.
  destruct f as [[a0 a1] [b0 b1] [c0 c1]]. unfold frame_held, held_all, ends. simpl.
  unfold Pipe.held, Pipe.held_end; simpl. rewrite !filter_cons, filter_nil.
  repeat (case_decide; simplify_eq; simpl); done.
Qed.

(** Both ends of [p], where valid, are open on the pipe [i]. *)
Definition connected (T : gmap Z Ofd) (i : positive) (p : Pipe.t) : Prop :=
  (Pipe.fds0 p ≠ -1 → T !! Pipe.fds0 p = Some (PipeRead i)) ∧
  (Pipe.fds1 p ≠ -1 → T !! Pipe.fds1 p = Some (PipeWrite i)).

(** A stream that was asked for has a connected pipe, any other the invalid one. *)
Definition wire (T : gmap Z Ofd) (req : bool) (i : positive) (p : Pipe.t) : Prop :=
  connected T i p ∧ (req = false → p = Pipe.closed).

Lemma connected_mono T T' i p : T ⊆ T' → connected T i p → connected T' i p.
Proof. intros HT [H0 H1]. split; intros; (eapply lookup_weaken; [eauto|done]). Qed.

Lemma wire_mono T T' r i p : T ⊆ T' → wire T r i p → wire T' r i p.
Proof. intros HT [H1 H2]. split; [by eapply connected_mono|done]. Qed.

Lemma wire_closed T r i : wire T r i Pipe.closed.
Proof. by split. Qed.

Section redirection.
Context {W : Type} {E : Errno W} {I : Pid W} {K : FdKernel W} {F : ForkKernel W} {P : ProcKernel W}.
Context {LF : FdLaws W} {LK : ForkLaws W}.
Abbreviation state := (Fork.frame * Pipe.env W)%type.
Implicit Types (s : Fork.frame * Pipe.env W).

(** Assigning a new pipe to an invalid local connects it and leaves the rest of the table alone. *)
Lemma assign_new_spec sel upd s s' :
  sel s.1 = Pipe.closed → Fork.assign_new sel upd s = (Ok tt, s') →
  fd_table (Pipe.world s.2) ⊆ fd_table (Pipe.world s'.2) ∧
  ∃ i p, s'.1 = upd p s.1 ∧ connected (fd_table (Pipe.world s'.2)) i p ∧
    pipe_unused i (fd_table (Pipe.world s.2)).
Proof.
  destruct s as [f e]. simpl. intros Hsel. unfold Fork.assign_new.
  cbv [Fork.liftW Fork.liftE Pipe.lift zoom]; unfold mbind at 1, M_bind; simpl.
  destruct (Pipe.ctor (Pipe.world e)) as [r w1] eqn:Ec.
  apply pipe_ctor_spec in Ec as [(x & -> & _)|(q & i & -> & G0 & G1 & Gne & F0 & F1 & Hun & Ht)]; [done|].
  unfold mbind, M_bind. rewrite on_pipe_eq. simpl. rewrite Hsel.
  change (Pipe.assign Pipe.closed q w1) with (Pipe.copy q w1).
  destruct (Pipe.copy q w1) as [p w2] eqn:Ep. simpl. intros [= <-]. simpl.
  pose proof (copy_owns (fd_table w1) [] _ _ _ _ Ep ltac:(by apply owns_nil)) as Hnew.
  apply copy_refers in Ep as (Hsub & R0 & R1).
  2: { intros fd (_ & [->| ->])%elem_of_held; rewrite Ht, ?lookup_insert_eq; [by eexists|].
       rewrite lookup_insert_ne, lookup_insert_eq by done. by eexists. }
  assert (∀ fd, fd ∈ Pipe.held p → fd_table w1 !! fd = None) as Hfresh.
  { intros fd Hfd. apply Hnew. rewrite app_nil_r. done. }
  assert (fd_table w1 !! Pipe.fds0 q = Some (PipeRead i)) as Q0 by (by rewrite Ht, lookup_insert_eq).
  assert (fd_table w1 !! Pipe.fds1 q = Some (PipeWrite i)) as Q1
    by (by rewrite Ht, lookup_insert_ne, lookup_insert_eq by done).
  assert (∀ fd o, fd_table w2 !! fd = Some o → fd ≠ Pipe.fds0 q → fd ≠ Pipe.fds1 q →
    fd_table (Pipe.dtor q w2) !! fd = Some o) as Hkeep.
  { intros fd o Ho N0 N1. unfold Pipe.dtor. rewrite !close_end_table, !decide_False by lia.
    by rewrite !lookup_delete_ne by done. }
  split.
  - apply map_subseteq_spec. intros fd o Ho. apply Hkeep; [|congruence..].
    eapply lookup_weaken; [|exact Hsub]. rewrite Ht, !lookup_insert_ne by congruence. done.
  - exists i, p. split; [done|]. split; [|exact Hun].
    split; intros Hv; [destruct R0 as [|(_ & o & Ho & Ho')]|destruct R1 as [|(_ & o & Ho & Ho')]];
      try done; simplify_eq; apply Hkeep; try done;
      intros Eq; (assert (fd_table w1 !! Pipe.fds0 q = None ∨ fd_table w1 !! Pipe.fds1 q = None) as [|];
        [|congruence..]); [left|right|left|right]; rewrite <- Eq; apply Hfresh, elem_of_held; auto.
Qed.

Lemma when_assign_spec req sel upd s s' :
  sel s.1 = Pipe.closed → upd (sel s.1) s.1 = s.1 →
  Fork.when req (Fork.assign_new sel upd) s = (Ok tt, s') →
  fd_table (Pipe.world s.2) ⊆ fd_table (Pipe.world s'.2) ∧
  ∃ i p, s'.1 = upd p s.1 ∧ wire (fd_table (Pipe.world s'.2)) req i p ∧
    (p ≠ Pipe.closed → pipe_unused i (fd_table (Pipe.world s.2))).
Proof.
  intros Hsel Hupd. unfold Fork.when. destruct req.
  - intros (Hsub & i & p & -> & Hc & Hun)%assign_new_spec; [|done]. split; [done|]. exists i, p. by split_and!.
  - intros [= <-]. split; [done|]. exists 1%positive, Pipe.closed. rewrite <- Hsel.
    split; [done|]. rewrite Hsel. split; [apply wire_closed|done].
Qed.

(** The pipes of the streams that have one are new and different. *)
Definition fresh_pipes (b : gmap Z Ofd) (i j k : positive) (f : Fork.frame) : Prop :=
  (Fork.stdin_pipe f ≠ Pipe.closed → pipe_unused i b) ∧
  (Fork.stdout_pipe f ≠ Pipe.closed → pipe_unused j b) ∧
  (Fork.stderr_pipe f ≠ Pipe.closed → pipe_unused k b) ∧
  (Fork.stdin_pipe f ≠ Pipe.closed → Fork.stdout_pipe f ≠ Pipe.closed → i ≠ j) ∧
  (Fork.stdin_pipe f ≠ Pipe.closed → Fork.stderr_pipe f ≠ Pipe.closed → i ≠ k) ∧
  (Fork.stdout_pipe f ≠ Pipe.closed → Fork.stderr_pipe f ≠ Pipe.closed → j ≠ k).

Lemma unused_subseteq p (T T' : gmap Z Ofd) : T ⊆ T' → pipe_unused p T' → pipe_unused p T.
Proof. intros HT Hun fd. destruct (Hun fd). split; intros ?%(lookup_weaken _ T'); done. Qed.

(** A pipe that a valid end refers to is in use, so a new one is another. *)
Lemma wire_new T r i p j : wire T r i p → p ≠ Pipe.closed → pipe_unused j T → i ≠ j.
Proof.
  intros [[H0 H1] _] Hp Hun <-. destruct p as [f0 f1]; simpl in *.
  destruct (decide (f0 = -1)), (decide (f1 = -1)); subst; [done|..];
    [destruct (Hun f1) as [_ []]|destruct (Hun f0) as [[] _]|destruct (Hun f0) as [[] _]]; auto.
Qed.

(** After the pipes have been opened, the frame is wired as the flags ask. *)
Lemma open_requested_wired flags e s' :
  Fork.open_requested flags (Fork.mkFrame Pipe.closed Pipe.closed Pipe.closed, e) = (Ok tt, s') →
  let T := fd_table (Pipe.world s'.2) in
  ∃ i j k,
    wire T (StandardStream.requested flags StandardStream.stdin) i (Fork.stdin_pipe s'.1) ∧
    wire T (StandardStream.requested flags StandardStream.stdout) j (Fork.stdout_pipe s'.1) ∧
    wire T (StandardStream.requested flags StandardStream.stderr) k (Fork.stderr_pipe s'.1) ∧
    fresh_pipes (fd_table (Pipe.world e)) i j k s'.1.
Proof.
  unfold Fork.open_requested. intros H.
  apply M_bind_Ok in H as ([] & s1 & H1 & H). apply M_bind_Ok in H as ([] & s2 & H2 & H3).
  apply when_assign_spec in H1 as (S1 & i & p & Ef1 & W1 & U1); [|done..].
  apply when_assign_spec in H2 as (S2 & j & q & Ef2 & W2 & U2); [|by rewrite Ef1..].
  apply when_assign_spec in H3 as (S3 & k & r & Ef3 & W3 & U3); [|by rewrite Ef2, Ef1..].
  exists i, j, k. rewrite Ef3, Ef2, Ef1. simpl in *.
  split_and!; [eapply wire_mono; [etrans; [exact S2|exact S3]|done]|by eapply wire_mono|done|].
  split_and!; simpl; intros.
  - auto.
  - eapply unused_subseteq; [exact S1|auto].
  - eapply unused_subseteq; [etrans; [exact S1|exact S2]|auto].
  - eapply wire_new; [exact W1|done|auto].
  - eapply wire_new; [exact W1|done|]. eapply unused_subseteq; [exact S2|auto].
  - eapply wire_new; [exact W2|done|auto].
Qed.

(** ** The two closing sequences *)

Definition del (fd : Z) (T : gmap Z Ofd) : gmap Z Ofd := if decide (fd = -1) then T else delete fd T.

Lemma del_ne fd T x : x ≠ fd ∨ x = -1 → del fd T !! x = T !! x.
Proof.
  unfold del. case_decide; [done|]. intros [|]; rewrite lookup_delete_ne by congruence; done.
Qed.

Lemma close_read_fd_eq p (w : W) : ∃ w',
  Pipe.close_read_fd p w = (Pipe.mk (-1) (Pipe.fds1 p), w') ∧
  fd_table w' = del (Pipe.fds0 p) (fd_table w).
Proof.
  destruct (close_read_fd_table p w) as [H1 H2]. rewrite close_end_table in H2.
  exists (Pipe.close_read_fd p w).2. split; [|done]. rewrite <- H1. apply surjective_pairing.
Qed.

Lemma close_write_fd_eq p (w : W) : ∃ w',
  Pipe.close_write_fd p w = (Pipe.mk (Pipe.fds0 p) (-1), w') ∧
  fd_table w' = del (Pipe.fds1 p) (fd_table w).
Proof.
  destruct (close_write_fd_table p w) as [H1 H2]. rewrite close_end_table in H2.
  exists (Pipe.close_write_fd p w).2. split; [|done]. rewrite <- H1. apply surjective_pairing.
Qed.

Lemma parent_close_spec s : ∃ e',
  Fork.parent_close s =
    (Ok tt, (Fork.mkFrame (Pipe.mk (-1) (Pipe.fds1 (Fork.stdin_pipe s.1)))
                          (Pipe.mk (Pipe.fds0 (Fork.stdout_pipe s.1)) (-1))
                          (Pipe.mk (Pipe.fds0 (Fork.stderr_pipe s.1)) (-1)), e')) ∧
  fd_table (Pipe.world e') =
    del (Pipe.fds1 (Fork.stderr_pipe s.1)) (del (Pipe.fds1 (Fork.stdout_pipe s.1))
      (del (Pipe.fds0 (Fork.stdin_pipe s.1)) (fd_table (Pipe.world s.2)))) ∧
  Pipe.invalid_p e' = Pipe.invalid_p s.2.
Proof.
  destruct s as [[a b c] e]. unfold Fork.parent_close, mbind, M_bind.
  rewrite on_pipe_eq; simpl. destruct (close_read_fd_eq a (Pipe.world e)) as (w1 & -> & H1).
  rewrite on_pipe_eq; simpl. destruct (close_write_fd_eq b w1) as (w2 & -> & H2).
  rewrite on_pipe_eq; simpl. destruct (close_write_fd_eq c w2) as (w3 & -> & H3).
  eexists. split; [reflexivity|]. simpl. by rewrite H3, H2, H1.
Qed.

Lemma child_close_spec s : ∃ e',
  Fork.child_close s =
    (Ok tt, (Fork.mkFrame (Pipe.mk (Pipe.fds0 (Fork.stdin_pipe s.1)) (-1))
                          (Pipe.mk (-1) (Pipe.fds1 (Fork.stdout_pipe s.1)))
                          (Pipe.mk (-1) (Pipe.fds1 (Fork.stderr_pipe s.1))), e')) ∧
  fd_table (Pipe.world e') =
    del (Pipe.fds0 (Fork.stderr_pipe s.1)) (del (Pipe.fds0 (Fork.stdout_pipe s.1))
      (del (Pipe.fds1 (Fork.stdin_pipe s.1)) (fd_table (Pipe.world s.2)))) ∧
  Pipe.invalid_p e' = Pipe.invalid_p s.2.
Proof.
  destruct s as [[a b c] e]. unfold Fork.child_close, mbind, M_bind.
  rewrite on_pipe_eq; simpl. destruct (close_write_fd_eq a (Pipe.world e)) as (w1 & -> & H1).
  rewrite on_pipe_eq; simpl. destruct (close_read_fd_eq b w1) as (w2 & -> & H2).
  rewrite on_pipe_eq; simpl. destruct (close_read_fd_eq c w2) as (w3 & -> & H3).
  eexists. split; [reflexivity|]. simpl. by rewrite H3, H2, H1.
Qed.

(** Two different positions among the ends hold different valid descriptors. *)
Lemma ends_ne b L f T n m x y :
  owns b (frame_held f ++ L) T → ends f !! n = Some x → ends f !! m = Some y → n ≠ m →
  x ≠ y ∨ x = -1.
Proof.
  intros (Hd & _) Hx Hy Hnm. destruct (decide (x = -1)) as [|Hv]; [by right|left]. intros <-.
  apply NoDup_app in Hd as (Hd & _ & _). rewrite frame_held_ends in Hd.
  apply Hnm. by eapply (NoDup_filter_inj (λ fd, fd ≠ -1) (ends f)).
Qed.

(** What survives a closing sequence: a wired end at another position. *)
Lemma del3_wired b L f T n1 n2 n3 m x1 x2 x3 y :
  owns b (frame_held f ++ L) T →
  ends f !! n1 = Some x1 → ends f !! n2 = Some x2 → ends f !! n3 = Some x3 → ends f !! m = Some y →
  m ≠ n1 → m ≠ n2 → m ≠ n3 → del x1 (del x2 (del x3 T)) !! y = T !! y.
Proof.
  intros Ho H1 H2 H3 Hy N1 N2 N3.
  rewrite !del_ne by (eapply ends_ne; eauto). done.
Qed.

Lemma destroy_table f (w : W) :
  fd_table (Fork.destroy f w) =
    del (Pipe.fds1 (Fork.stdin_pipe f)) (del (Pipe.fds0 (Fork.stdin_pipe f))
    (del (Pipe.fds1 (Fork.stdout_pipe f)) (del (Pipe.fds0 (Fork.stdout_pipe f))
    (del (Pipe.fds1 (Fork.stderr_pipe f)) (del (Pipe.fds0 (Fork.stderr_pipe f)) (fd_table w)))))).
Proof. unfold Fork.destroy, Pipe.dtor. by rewrite !close_end_table. Qed.

(** Destroying the locals does not touch what somebody else holds. *)
Lemma destroy_keeps b L f (w : W) x :
  owns b (frame_held f ++ L) (fd_table w) → x ∈ L → fd_table (Fork.destroy f w) !! x = fd_table w !! x.
Proof.
  intros (Hd & _) Hx. apply NoDup_app in Hd as (_ & Hdis & _).
  assert (∀ y, y ∈ ends f → x ≠ y ∨ x = -1) as Hne.
  { intros y Hy. destruct (decide (x = -1)) as [|Hv]; [by right|left]. intros ->.
    eapply Hdis; [|exact Hx]. rewrite frame_held_ends. by apply list_elem_of_filter. }
  rewrite destroy_table, !del_ne; [done|apply Hne; unfold ends; set_solver..].
Qed.

(** ** The parent's side *)

Lemma fowns_open b L s p :
  fowns b L s → p ∈ [Fork.stdin_pipe s.1; Fork.stdout_pipe s.1; Fork.stderr_pipe s.1] →
  pipe_open (fd_table (Pipe.world s.2)) p.
Proof.
  intros [HL _] Hp. eapply owns_pipe_open; [exact HL|]. intros fd Hfd.
  apply elem_of_app. left. unfold frame_held, held_all. apply list_elem_of_bind. eauto.
Qed.

(** An end of the new object refers to the end of the local it was copied from. *)
Lemma stream_of_ref b c s T src fd o :
  refers T src (fd_table (Pipe.world s.2)) fd → (src ≠ -1 → T !! src = Some o) →
  owns b (frame_held s.1 ++ ChildProcess.held c) (fd_table (Pipe.world s.2)) →
  (fd ≠ -1 → fd ∈ ChildProcess.held c) →
  (fd ≠ -1 → fd_table (Fork.destroy s.1 (Pipe.world s.2)) !! fd = Some o) ∧ (src = -1 → fd = -1).
Proof.
  intros R Hsrc HL Hin. split.
  - intros Hv. destruct R as [|(Hs & o' & H1 & H2)]; [done|].
    rewrite (destroy_keeps b (ChildProcess.held c)) by auto. rewrite Hsrc in H1 by done. by simplify_eq.
  - intros ->. by destruct R as [|[? _]].
Qed.

Lemma parent_streams b pid s c s' req0 req1 req2 i j k :
  0 < pid → fowns b [] s →
  wire (fd_table (Pipe.world s.2)) req0 i (Fork.stdin_pipe s.1) →
  wire (fd_table (Pipe.world s.2)) req1 j (Fork.stdout_pipe s.1) →
  wire (fd_table (Pipe.world s.2)) req2 k (Fork.stderr_pipe s.1) →
  Fork.parent_body pid s = (Ok c, s') →
  let T' := fd_table (Fork.destroy s'.1 (Pipe.world s'.2)) in
  (ChildProcess.cin c ≠ -1 → T' !! ChildProcess.cin c = Some (PipeWrite i)) ∧
  (req0 = false → ChildProcess.cin c = -1) ∧
  (ChildProcess.cout c ≠ -1 → T' !! ChildProcess.cout c = Some (PipeRead j)) ∧
  (req1 = false → ChildProcess.cout c = -1) ∧
  (ChildProcess.cerr c ≠ -1 → T' !! ChildProcess.cerr c = Some (PipeRead k)) ∧
  (req2 = false → ChildProcess.cerr c = -1).
Proof.
  intros Hpid Hs [[_ Wi] Ni] [[Wo _] No] [[We _] Ne] Hb.
  destruct (parent_body_spec b [] pid s _ _ Hpid Hs Hb) as (c' & [= <-] & _ & HL & _).
  rewrite app_nil_r in HL.
  destruct (parent_close_spec s) as (e1 & Ec & Ht & _).
  pose proof (parent_close_preserves b [] s Hs) as Hs1. rewrite Ec in Hs1.
  unfold Fork.parent_body in Hb. unfold mbind at 1, M_bind in Hb. rewrite Ec in Hb.
  cbv [gets mbind M_bind Fork.liftW Fork.liftE Pipe.lift zoom] in Hb. simpl in Hb.
  destruct (ChildProcess.ctor _ _ _ _ _) as [r w'] eqn:Ek in Hb. injection Hb as -> <-. simpl in *.
  pose proof (child_ctor_spec _ _ _ _ _ _ _ Ek) as (_ & _ & _ & _ & _ & _ & _ & _ & _ & Ei & Eo & Ee).
  destruct Hs as [HL0 _].
  apply child_ctor_refers in Ek as (R1 & R2 & R3);
    [|eapply (fowns_open b [] (_, e1) _ Hs1); simpl; set_solver..]. simpl in *.
  assert (∀ fd, fd ≠ -1 → fd = ChildProcess.cin c ∨ fd = ChildProcess.cout c ∨ fd = ChildProcess.cerr c →
    fd ∈ ChildProcess.held c) as Hin.
  { intros fd Hv Hfd. unfold ChildProcess.held, held_all. apply list_elem_of_bind. rewrite Ei, Eo, Ee in Hfd.
    destruct Hfd as [->|[->| ->]]; eexists; (split; [apply elem_of_held; eauto|set_solver]). }
  set (s' := (Fork.mkFrame (Pipe.mk (-1) (Pipe.fds1 (Fork.stdin_pipe s.1)))
                           (Pipe.mk (Pipe.fds0 (Fork.stdout_pipe s.1)) (-1))
                           (Pipe.mk (Pipe.fds0 (Fork.stderr_pipe s.1)) (-1)),
              Pipe.mkEnv w' (Pipe.invalid_p e1)) : state).
  assert (∀ m y, ends s.1 !! m = Some y → m ≠ 0%nat → m ≠ 3%nat → m ≠ 5%nat →
    fd_table (Pipe.world e1) !! y = fd_table (Pipe.world s.2) !! y) as Hsame.
  { intros m y Hy N0 N3 N5. rewrite Ht.
    eapply (del3_wired b [] s.1 _ 5 3 0); [exact HL0|reflexivity|reflexivity|reflexivity|exact Hy|done..]. }
  destruct (stream_of_ref b c s' _ _ _ _ R1
    ltac:(intros Hv; unfold Pipe.write_fd in *; simpl in *; rewrite (Hsame 1%nat) by done; exact (Wi Hv)) HL
    ltac:(auto)) as [A1 A2].
  destruct (stream_of_ref b c s' _ _ _ _ R2
    ltac:(intros Hv; unfold Pipe.read_fd in *; simpl in *; rewrite (Hsame 2%nat) by done; exact (Wo Hv)) HL
    ltac:(auto)) as [B1 B2].
  destruct (stream_of_ref b c s' _ _ _ _ R3
    ltac:(intros Hv; unfold Pipe.read_fd in *; simpl in *; rewrite (Hsame 4%nat) by done; exact (We Hv)) HL
    ltac:(auto)) as [C1 C2].
  split_and!; auto; intros Hr.
  - apply A2. unfold Pipe.write_fd. simpl. by rewrite (Ni Hr).
  - apply B2. unfold Pipe.read_fd. simpl. by rewrite (No Hr).
  - apply C2. unfold Pipe.read_fd. simpl. by rewrite (Ne Hr).
Qed.

(** ** The child's side *)

(** A table in which the three standard streams are open and -1 is not a descriptor. *)
Definition std_open (T : gmap Z Ofd) : Prop :=
  T !! (-1) = None ∧ ∀ n, 0 ≤ n ≤ 2 → is_Some (T !! n).

Lemma redirect_spec req fd n s s' :
  0 ≤ n → Fork.when req (Fork.liftW (Fork.redirect_stream_to_fd fd n)) s = (Ok tt, s') →
  s'.1 = s.1 ∧
  if req then ∃ o, fd_table (Pipe.world s.2) !! fd = Some o ∧
    fd_table (Pipe.world s'.2) = <[n := o]> (fd_table (Pipe.world s.2))
  else fd_table (Pipe.world s'.2) = fd_table (Pipe.world s.2).
Proof.
  intros Hn. unfold Fork.when. destruct req; [|by intros [= <-]]. destruct s as [f e].
  cbv [Fork.liftW Fork.liftE Pipe.lift zoom Fork.redirect_stream_to_fd mbind M_bind call check_rc throw_errno].
  simpl. destruct (sys_dup2 fd n (Pipe.world e)) as [rc w'] eqn:Ed.
  case_Zeqb; intros [= <-]. simpl.
  apply dup2_law in Ed as [[-> _]|(_ & o & Ho & Ht)]; [lia|eauto].
Qed.

(** A valid end of the locals is not one of the standard streams. *)
Lemma ends_not_std b L f T x : std_open b →
  owns b (frame_held f ++ L) T → x ∈ ends f → ¬ 0 ≤ x ≤ 2.
Proof.
  intros [_ Hstd] (_ & Hin & _) Hx Hr. destruct (Hin x) as (_ & _ & Hb).
  { apply elem_of_app. left. rewrite frame_held_ends. apply list_elem_of_filter. split; [lia|done]. }
  destruct (Hstd x Hr). congruence.
Qed.

(** The outcome of one redirection, as seen in the final table. *)
Definition redirected (T' : gmap Z Ofd) (b : gmap Z Ofd) (req : bool) (n : Z) (o : Ofd) : Prop :=
  T' !! n = if req then Some o else b !! n.

(** The child's table once it has closed the parent's ends. *)
Definition child_table s : gmap Z Ofd :=
  del (Pipe.fds0 (Fork.stderr_pipe s.1)) (del (Pipe.fds0 (Fork.stdout_pipe s.1))
    (del (Pipe.fds1 (Fork.stdin_pipe s.1)) (fd_table (Pipe.world s.2)))).

Lemma child_streams b flags s s' i j k :
  std_open b → fowns b [] s →
  wire (fd_table (Pipe.world s.2)) (StandardStream.requested flags StandardStream.stdin) i
    (Fork.stdin_pipe s.1) →
  wire (fd_table (Pipe.world s.2)) (StandardStream.requested flags StandardStream.stdout) j
    (Fork.stdout_pipe s.1) →
  wire (fd_table (Pipe.world s.2)) (StandardStream.requested flags StandardStream.stderr) k
    (Fork.stderr_pipe s.1) →
  Fork.child_prologue flags s = (Ok tt, s') →
  let T' := fd_table (Pipe.world s'.2) in
  redirected T' b (StandardStream.requested flags StandardStream.stdin) 0 (PipeRead i) ∧
  redirected T' b (StandardStream.requested flags StandardStream.stdout) 1 (PipeWrite j) ∧
  redirected T' b (StandardStream.requested flags StandardStream.stderr) 2 (PipeWrite k) ∧
  (∀ fd, ¬ 0 ≤ fd ≤ 2 → T' !! fd = child_table s !! fd) ∧
  (StandardStream.requested flags StandardStream.stdin = true → Pipe.fds0 (Fork.stdin_pipe s.1) ≠ -1) ∧
  (StandardStream.requested flags StandardStream.stdout = true → Pipe.fds1 (Fork.stdout_pipe s.1) ≠ -1) ∧
  (StandardStream.requested flags StandardStream.stderr = true → Pipe.fds1 (Fork.stderr_pipe s.1) ≠ -1).
Proof.
  intros Hstd [HL _] [[Wi _] _] [[_ Wo] _] [[_ We] _] Hp. unfold child_table. unfold Fork.child_prologue in Hp.
  destruct (child_close_spec s) as (e1 & Ec & Ht & _).
  unfold mbind at 1, M_bind in Hp. rewrite Ec in Hp. unfold mbind at 1, M_bind, gets in Hp. simpl in Hp.
  apply M_bind_Ok in Hp as ([] & s1 & H1 & Hp). apply M_bind_Ok in Hp as ([] & s2 & H2 & H3).
  unfold Pipe.read_fd, Pipe.write_fd in *. simpl in *.
  apply redirect_spec in H1 as [F1 H1]; [|done]. apply redirect_spec in H2 as [F2 H2]; [|done].
  apply redirect_spec in H3 as [_ H3]; [|done]. simpl in *.
  set (T1 := fd_table (Pipe.world e1)) in *.
  assert (∀ n, 0 ≤ n ≤ 2 → T1 !! n = b !! n) as Hb.
  { intros n Hn. rewrite Ht, !del_ne.
    - apply HL. rewrite app_nil_r, frame_held_ends. intros [_ Hin]%list_elem_of_filter.
      by eapply ends_not_std.
    - left. intros ->. eapply ends_not_std; [done..| |exact Hn]. unfold ends. set_solver.
    - left. intros ->. eapply ends_not_std; [done..| |exact Hn]. unfold ends. set_solver.
    - left. intros ->. eapply ends_not_std; [done..| |exact Hn]. unfold ends. set_solver. }
  assert (T1 !! (-1) = None) as Hneg.
  { rewrite Ht, !del_ne by auto. destruct HL as (_ & Hin & ->); [apply Hstd|].
    intros Hi. apply Hin in Hi. lia. }
  assert (∀ m y o, ends s.1 !! m = Some y → m ≠ 1%nat → m ≠ 2%nat → m ≠ 4%nat →
    (y ≠ -1 → fd_table (Pipe.world s.2) !! y = Some o) → ¬ 0 ≤ y ≤ 2 ∧
    ∀ o', T1 !! y = Some o' → o' = o) as Hsrc.
  { intros m y o Hy N1 N2 N4 Hw.
    split; [eapply ends_not_std; [done..|by eapply list_elem_of_lookup_2]|].
    intros o' Ho'. assert (y ≠ -1) as Hv by congruence. revert Ho'.
    rewrite Ht, (del3_wired b [] s.1 _ 4 2 1 m _ _ _ y);
      [|done|reflexivity|reflexivity|reflexivity|done..]. naive_solver. }
  destruct (Hsrc 0%nat _ (PipeRead i) eq_refl ltac:(lia) ltac:(lia) ltac:(lia) Wi) as [A1 A2].
  destruct (Hsrc 3%nat _ (PipeWrite j) eq_refl ltac:(lia) ltac:(lia) ltac:(lia) Wo) as [B1 B2].
  destruct (Hsrc 5%nat _ (PipeWrite k) eq_refl ltac:(lia) ltac:(lia) ltac:(lia) We) as [C1 C2].
  unfold redirected. unfold Fork.STDIN_FILENO, Fork.STDOUT_FILENO, Fork.STDERR_FILENO in *.
  destruct (StandardStream.requested flags StandardStream.stdin);
  destruct (StandardStream.requested flags StandardStream.stdout);
  destruct (StandardStream.requested flags StandardStream.stderr);
  repeat match goal with H : ∃ _, _ |- _ => destruct H as (? & ? & ?) end;
  repeat match goal with H : fd_table (Pipe.world _) = _ |- _ => rewrite H in *; clear H end;
  rewrite ?lookup_insert_ne in * by lia; split_and!; rewrite ?lookup_insert_ne by done;
  rewrite ?lookup_insert_eq;
  first [apply Hb; lia|by f_equal; auto|by intros fd Hfd; rewrite ?lookup_insert_ne by lia; rewrite Ht
    |by intros _ Hy; rewrite Hy in *; congruence].
Qed.
End redirection.

(** ** How the child ends *)

Section child_properties.
Context {W : Type} {E : Errno W} {I : Pid W} {K : FdKernel W} {F : ForkKernel W} {P : ProcKernel W}.
Context {LF : FdLaws W} {LK : ForkLaws W}.
Context (what : exn → str) (cxa_demangle : str → option str * Z) (walk : W → Backtrace.walk).
Implicit Types (e : Pipe.env W) (main : M (Pipe.env W) Exit.Status).

(** The handlers: report the exception on std::cerr and exit with [failure]. *)
Definition handled (x : exn) : M (Pipe.env W) Exit.Status :=
  Pipe.lift (Fork.report what cxa_demangle walk x) ;; mret Exit.failure.

(** [exit] with the status a computation ends with. *)
Definition exit_of (r : outcome Exit.Status * Pipe.env W) : outcome Exit.Status * Pipe.env W :=
  (match r.1 with Ok st => Ok (i32 st) | Throw x => Throw x | Undefined => Undefined end, r.2).

(** [main] run in the environment [e]. *)
Definition child_run main e : outcome Exit.Status * Pipe.env W := exit_of (try_catch main handled e).

Lemma when_redirect_defined req fd n :
  defined (Fork.when req (Fork.liftW (W := W) (Fork.redirect_stream_to_fd fd n))).
Proof.
  intros [f e]. unfold Fork.when. destruct req; [|done].
  cbv [Fork.liftW Fork.liftE Pipe.lift zoom Fork.redirect_stream_to_fd mbind M_bind call check_rc throw_errno].
  simpl. destruct (sys_dup2 fd n (Pipe.world e)). by case_Zeqb.
Qed.

Lemma child_prologue_defined flags : defined (Fork.child_prologue (W := W) flags).
Proof.
  unfold Fork.child_prologue. apply defined_bind.
  { intros s. by destruct (child_close_ok s) as [s' ->]. }
  intros _. apply defined_bind; [done|]. intros f.
  repeat (apply defined_bind; [apply when_redirect_defined|intros _]). apply when_redirect_defined.
Qed.

(** The state in which the child starts: the locals with the pipes the flags ask for, and the
    environment of the new process; [None] when no process was created. *)
Definition child_start flags e : option (Fork.frame * Pipe.env W) :=
  match Fork.locals e with
  | (Ok f, e1) =>
      match Fork.open_requested flags (f, e1) with
      | (Ok _, (f, e2)) =>
          let '(pid, _, wc) := sys_fork (Pipe.world e2) in
          if pid =? -1 then None else Some (f, Pipe.mkEnv wc (Pipe.invalid_p e2))
      | _ => None
      end
  | _ => None
  end.

(** The environment in which the child calls [main], if it gets that far. *)
Definition main_env flags e : option (Pipe.env W) :=
  s ← child_start flags e;
  match Fork.child_prologue flags s with (Ok _, s1) => Some s1.2 | _ => None end.

(** How the child ends from a starting state: [main] once the streams are redirected, the
    handlers when a redirection throws. *)
Definition child_end flags main (s : Fork.frame * Pipe.env W) : outcome Exit.Status * Pipe.env W :=
  match Fork.child_prologue flags s with
  | (Ok _, s1) => child_run main s1.2
  | (Throw x, s1) => exit_of (handled x s1.2)
  | (Undefined, s1) => (Undefined, s1.2)
  end.

Lemma after_fork_child flags main s :
  Fork.exits (Fork.after_fork what cxa_demangle walk flags main 0 s) = child_end flags main s.
Proof.
  unfold Fork.after_fork. simpl. unfold Fork.child_main, child_end, child_run.
  unfold mbind, M_bind, try_catch.
  destruct (Fork.child_prologue flags s) as [[[]|x|] [f1 e1]] eqn:Ep; [| |done].
  - cbv [Fork.liftE zoom]. simpl. destruct (main e1) as [[st|x|] e2]; [done| |done].
    unfold handled, Fork.liftW, Fork.liftE, Pipe.lift, zoom, mbind, M_bind. simpl.
    by destruct (Fork.report _ _ _ _ _) as [[]].
  - unfold handled, Fork.liftW, Fork.liftE, Pipe.lift, zoom, mbind, M_bind. simpl.
    by destruct (Fork.report _ _ _ _ _) as [[]].
Qed.

(** The child of a [fork] is exactly that. *)
Lemma fork_child main flags e :
  Fork.child (Fork.fork what cxa_demangle walk main flags e) = child_end flags main <$> child_start flags e.
Proof.
  unfold Fork.fork, child_start. destruct (Fork.locals e) as [[f0|?|] e1]; [|done..].
  destruct (Fork.open_requested flags (f0, e1)) as [[[]|?|] [f e2]]; [|done..].
  destruct (sys_fork (Pipe.world e2)) as [[pid wp] wc]. cbn [Fork.child].
  destruct (pid =? -1); [done|]. by rewrite after_fork_child.
Qed.

(** The child either reaches [main] with the streams redirected, or one of the redirections threw. *)
Lemma child_exits flags main s :
  let r := Fork.exits (Fork.after_fork what cxa_demangle walk flags main 0 s) in
  (∃ s1, Fork.child_prologue flags s = (Ok tt, s1) ∧ r = child_run main s1.2) ∨
  (∃ x em, r = exit_of (handled x em)).
Proof.
  simpl. rewrite after_fork_child. unfold child_end.
  pose proof (child_prologue_defined flags s) as Hdef.
  destruct (Fork.child_prologue flags s) as [[[]|x|] s1]; [left|right|done]; eauto.
Qed.

(** What the flags promise: per stream, the parent's end and the child's end of one pipe,
    or an invalid end in the parent and the inherited stream in the child. *)
Definition parent_side (T : gmap Z Ofd) (req : bool) (fd : Z) (o : Ofd) : Prop :=
  (fd ≠ -1 → T !! fd = Some o) ∧ (req = false → fd = -1).

(** Both sides of a successful [fork]: [c] and [T] are the parent's object and descriptor
    table, [b] the table before the call, [ch] the child's end. *)
Definition wired_fork main flags (b T : gmap Z Ofd) (c : ChildProcess.t)
    (ch : option (outcome Exit.Status * Pipe.env W)) : Prop :=
  let req := StandardStream.requested flags in
  ∃ i j k r,
    parent_side T (req StandardStream.stdin) (ChildProcess.cin c) (PipeWrite i) ∧
    parent_side T (req StandardStream.stdout) (ChildProcess.cout c) (PipeRead j) ∧
    parent_side T (req StandardStream.stderr) (ChildProcess.cerr c) (PipeRead k) ∧
    ch = Some r ∧
    ((∃ em, redirected (fd_table (Pipe.world em)) b (req StandardStream.stdin) 0 (PipeRead i) ∧
       redirected (fd_table (Pipe.world em)) b (req StandardStream.stdout) 1 (PipeWrite j) ∧
       redirected (fd_table (Pipe.world em)) b (req StandardStream.stderr) 2 (PipeWrite k) ∧
       r = child_run main em) ∨
     (∃ x em, r = exit_of (handled x em))).

(** The calls inside a [fork] that returned [c]. *)
Lemma fork_returned main flags e c ep :
  static_ok e → Fork.parent (Fork.fork what cxa_demangle walk main flags e) = (Ok c, ep) →
  ∃ e1 f e2 pid wp wc s3,
    Fork.locals e = (Ok (Fork.mkFrame Pipe.closed Pipe.closed Pipe.closed), e1) ∧
    fowns (fd_table (Pipe.world e)) [] (Fork.mkFrame Pipe.closed Pipe.closed Pipe.closed, e1) ∧
    Fork.open_requested flags (Fork.mkFrame Pipe.closed Pipe.closed Pipe.closed, e1) = (Ok tt, (f, e2)) ∧
    sys_fork (Pipe.world e2) = (pid, wp, wc) ∧ 0 < pid ∧
    Fork.parent_body pid (f, Pipe.mkEnv wp (Pipe.invalid_p e2)) = (Ok c, s3) ∧
    ep = Pipe.on_world (Fork.destroy s3.1) s3.2 ∧
    child_start flags e = Some (f, Pipe.mkEnv wc (Pipe.invalid_p e2)).
Proof.
  intros Hs. unfold Fork.fork, child_start. destruct (Fork.locals e) as [r e1] eqn:El.
  apply locals_spec in El as (Ht & Hs1 & [->|[x ->]]); [| |done]; [|done].
  assert (fowns (fd_table (Pipe.world e)) [] (Fork.mkFrame Pipe.closed Pipe.closed Pipe.closed, e1)) as H0.
  { split; [|done]. simpl. by apply owns_nil. }
  destruct (Fork.open_requested flags _) as [[[]|x|] [f e2]] eqn:Eo; [|done..].
  destruct (sys_fork (Pipe.world e2)) as [[pid wp] wc] eqn:Ef. cbn [Fork.parent].
  pose proof (fork_law _ _ _ _ Ef) as (_ & _ & [->|[Hpid _]]); [done|]. intros Hp.
  rewrite (proj2 (Z.eqb_neq pid (-1))) by lia.
  unfold Fork.after_fork, Fork.is_child in Hp.
  rewrite (proj2 (Z.eqb_neq pid (-1))), (proj2 (Z.eqb_neq pid 0)) in Hp by lia.
  unfold mbind, M_bind in Hp.
  destruct (Fork.parent_body pid _) as [[c'|x|] [f3 e3]] eqn:Eb in Hp; [|done..].
  injection Hp as -> <-. exists e1, f, e2, pid, wp, wc, (f3, e3). by split_and!.
Qed.

(** What happened inside a [fork] that returned [c]: the locals [f] with their pipes, and the
    two processes going on from the same table. *)
Lemma fork_anatomy main flags e c ep :
  static_ok e → Fork.parent (Fork.fork what cxa_demangle walk main flags e) = (Ok c, ep) →
  ∃ f e2 pid wp wc s3 i j k,
    fowns (fd_table (Pipe.world e)) [] (f, e2) ∧
    (wire (fd_table (Pipe.world e2)) (StandardStream.requested flags StandardStream.stdin) i (Fork.stdin_pipe f) ∧
     wire (fd_table (Pipe.world e2)) (StandardStream.requested flags StandardStream.stdout) j (Fork.stdout_pipe f) ∧
     wire (fd_table (Pipe.world e2)) (StandardStream.requested flags StandardStream.stderr) k (Fork.stderr_pipe f) ∧
     fresh_pipes (fd_table (Pipe.world e)) i j k f) ∧
    0 < pid ∧ fd_table wp = fd_table (Pipe.world e2) ∧ fd_table wc = fd_table (Pipe.world e2) ∧
    Fork.parent_body pid (f, Pipe.mkEnv wp (Pipe.invalid_p e2)) = (Ok c, s3) ∧
    ep = Pipe.on_world (Fork.destroy s3.1) s3.2 ∧
    Fork.child (Fork.fork what cxa_demangle walk main flags e) =
      Some (Fork.exits (Fork.after_fork what cxa_demangle walk flags main 0
        (f, Pipe.mkEnv wc (Pipe.invalid_p e2)))).
Proof.
  intros Hs (e1 & f & e2 & pid & wp & wc & s3 & El & H0 & Eo & Ef & Hpid & Eb & -> & Est)%fork_returned; [|done].
  pose proof (open_requested_preserves _ [] flags _ H0) as H1. rewrite Eo in H1.
  apply locals_spec in El as (Ht & _ & _); [|done].
  apply open_requested_wired in Eo as (i & j & k & HW). rewrite Ht in HW. simpl in H1, HW.
  apply fork_law in Ef as (Hwp & _ & [->|[_ Hwc]]); [done|].
  exists f, e2, pid, wp, wc, s3, i, j, k.
  rewrite fork_child, Est, after_fork_child. split; [exact H1|]. split; [exact HW|]. by split_and!.
Qed.

Lemma fork_wired main flags e c ep :
  static_ok e → std_open (fd_table (Pipe.world e)) →
  Fork.parent (Fork.fork what cxa_demangle walk main flags e) = (Ok c, ep) →
  wired_fork main flags (fd_table (Pipe.world e)) (fd_table (Pipe.world ep)) c
    (Fork.child (Fork.fork what cxa_demangle walk main flags e)).
Proof.
  intros Hs Hstd (f & e2 & pid & wp & wc & s3 & i & j & k & [HL Hok] & (W1 & W2 & W3 & _) & Hpid
    & Hwp & Hwc & Eb & -> & Ech)%fork_anatomy; [|done].
  exists i, j, k. eexists. simpl in HL, Hok.
  apply (parent_streams (fd_table (Pipe.world e)) _ _ _ _ (StandardStream.requested flags StandardStream.stdin)
    (StandardStream.requested flags StandardStream.stdout)
    (StandardStream.requested flags StandardStream.stderr) i j k) in Eb as (A & A' & B & B' & C & C');
    [|lia|split; simpl; by rewrite ?Hwp|simpl; by rewrite Hwp..].
  split_and!; [done|done|done|exact Ech|].
  destruct (child_exits flags main (f, Pipe.mkEnv wc (Pipe.invalid_p e2))) as [(s1 & Hpro & ->)|]; [left|by right].
  exists s1.2.
  apply (child_streams (fd_table (Pipe.world e)) _ _ _ i j k Hstd) in Hpro as (D1 & D2 & D3 & _);
    [done|split; simpl; by rewrite ?Hwc|simpl; by rewrite Hwc..].
Qed.

(** Every stack walk the handlers make is complete: a symbol string per frame. *)
Definition walks_ok : Prop := ∀ w, ∃ fps syms,
  walk w = Backtrace.mkWalk fps (Some syms) ∧ length fps = length syms ∧ Forall addressable syms.

(** The text of the two handlers. *)
Definition complaint (x : exn) : str :=
  if is_std_exception x then
    $"core::posix::fork(): An unhandled std::exception occured in the child process:"
      ++ ["010"%char] ++ $"  what(): " ++ what x ++ ["010"%char]
  else $"core::posix::fork(): An unhandled exception occured in the child process."
      ++ ["010"%char].

(** The lines of the backtrace of the thread in state [w], one per frame of its stack. *)
Definition trace_lines (w : W) : list str :=
  Backtrace.backtrace_line ($"  ") <$>
    Backtrace.frames_from cxa_demangle 0 (Backtrace.frames (walk w)) (default [] (Backtrace.symbols (walk w))).

(** A child that dies of [x] in the environment [e]: the complaint about [x], then the
    backtrace, line by line, and the status [failure]. *)
Definition died (x : exn) e : outcome Exit.Status * Pipe.env W :=
  let w := cerr_write (complaint x) (Pipe.world e) in
  (Ok Exit.failure, Pipe.mkEnv (foldl (λ w l, cerr_write l w) w (trace_lines w)) (Pipe.invalid_p e)).

Lemma handled_eq x e : walks_ok → handled x e = died x e.
Proof.
  intros Hwalk. destruct (Hwalk (cerr_write (complaint x) (Pipe.world e))) as (fps & syms & Ew & Hl & Hs).
  unfold died, trace_lines. rewrite Ew. cbn [Backtrace.frames Backtrace.symbols default].
  unfold handled, Pipe.lift, zoom, Fork.report, mbind, M_bind, modify, gets. fold (complaint x).
  rewrite Ew, (Backtrace.print_backtrace_spec cxa_demangle cerr_write) by done. simpl. repeat f_equal.
  generalize (cerr_write (complaint x) (Pipe.world e)).
  induction (Backtrace.frames_from _ _ _ _) as [|? ? IH]; intros w; simpl; [done|]. by rewrite IH.
Qed.

Lemma handled_spec x e : walks_ok → ∃ lines,
  handled x e = (Ok Exit.failure,
    Pipe.mkEnv (foldl (λ w l, cerr_write l w) (cerr_write (complaint x) (Pipe.world e)) lines)
      (Pipe.invalid_p e)).
Proof. intros Hwalk. rewrite handled_eq by done. by eexists. Qed.

(** How a child that starts in [s] ends, read off the results of the redirections and of [main]. *)
Definition ends_as flags main (s : Fork.frame * Pipe.env W) (r : outcome Exit.Status * Pipe.env W) : Prop :=
  match Fork.child_prologue flags s with
  | (Ok _, s1) =>
      match main s1.2 with
      | (Ok st, e') => r = (Ok (i32 st), e')
      | (Throw x, e') => r = died x e'
      | (Undefined, _) => False
      end
  | (Throw x, s1) => r = died x s1.2
  | (Undefined, _) => False
  end.

Lemma fork_child_ends main flags e r :
  walks_ok → defined main →
  Fork.child (Fork.fork what cxa_demangle walk main flags e) = Some r →
  ∃ s, child_start flags e = Some s ∧ ends_as flags main s r.
Proof.
  intros Hwalk Hmain. rewrite fork_child. intros (s & -> & Hs)%fmap_Some. exists s. split; [done|].
  unfold ends_as, child_end, child_run, try_catch in *. pose proof (child_prologue_defined flags s) as Hdef.
  destruct (Fork.child_prologue flags s) as [[[]|x|] s1]; [| |done].
  - specialize (Hmain s1.2). destruct (main s1.2) as [[st|x|] e']; [done| |done].
    rewrite handled_eq in Hs by done. exact Hs.
  - rewrite handled_eq in Hs by done. exact Hs.
Qed.

(** C34: the child never returns into the caller and no exception escapes it.  From the state
    in which the child starts: when the redirections succeed and [main] returns in the
    environment they leave, the child exits with that status in the state [main] left; when
    [main] or a redirection throws [x], whatever [x] is, the child exits with status 1
    after writing to std::cerr, in the state in which [x] was thrown, the complaint about
    exactly [x] (with [what()] for a std::exception) and every line of the backtrace. *)
Theorem fork_child_exits main flags e r :
  walks_ok → defined main →
  Fork.child (Fork.fork what cxa_demangle walk main flags e) = Some r →
  ∃ s, child_start flags e = Some s ∧ ends_as flags main s r.
Proof. apply fork_child_ends. Qed.
End child_properties.

(** ** Witnesses *)

(** A process (pid 5) with its standard streams, and what the C++ runtime provides. *)
Definition fork_ex : Pipe.env Ref.t :=
  Pipe.mkEnv (Ref.mk (list_to_map [(0, OtherFile 0); (1, OtherFile 1); (2, OtherFile 2)])
    0 64 1 5 10 (list_to_map [(1, 1); (5, 5)]) [] ∅ [] [] []) None.
Definition what_ex (x : exn) : str := match x with RuntimeError s => String.list_ascii_of_string s | _ => $"?" end.
Definition demangle_ex (s : str) : option str * Z := (None, -2).
Definition walk_ex (w : Ref.t) : Backtrace.walk := Backtrace.mkWalk [64] (Some [$"prog(main+0x4) [0x40]"]).
Abbreviation fork_run := (Fork.fork what_ex demangle_ex walk_ex).

Lemma walks_ok_ex : walks_ok walk_ex.
Proof.
  intros w. eexists _, _. split; [reflexivity|]. split; [reflexivity|].
  constructor; [vm_compute; reflexivity|constructor].
Qed.

(** stdin and stdout are asked for, not stderr. *)
Definition flags_ex : StandardStream.t := StandardStream.lor StandardStream.stdin StandardStream.stdout.

Lemma std_open_ex : std_open (fd_table (Pipe.world fork_ex)).
Proof.
  split; [reflexivity|]. intros n Hn. assert (n = 0 ∨ n = 1 ∨ n = 2) as [->|[->| ->]] by lia; by eexists.
Qed.

Lemma fork_parent_accounting_witness :
  accounted fork_ex (Fork.parent (fork_run (mret 0) flags_ex fork_ex)) ∧
  is_ok (Fork.parent (fork_run (mret 0) flags_ex fork_ex)).1 = true.
Proof.
  split; [|vm_compute; reflexivity].
  apply (fork_parent_accounting (LF := Ref.fd_laws) (LK := Ref.fork_laws)). exact I.
Defined.

(** A child whose [main] throws: status 1, after the complaint about that exception and one
    line of backtrace on std::cerr. *)
Lemma fork_child_exits_witness :
  ∃ r s, Fork.child (fork_run (throw (RuntimeError "boom")) flags_ex fork_ex) = Some r ∧
    child_start flags_ex fork_ex = Some s ∧
    ends_as what_ex demangle_ex walk_ex flags_ex (throw (RuntimeError "boom")) s r ∧
    r.1 = Ok 1 ∧ Ref.err_out (Pipe.world r.2) =
      [complaint what_ex (RuntimeError "boom"); $"   0@          0x40: prog(main+0x4) [0x40]" ++ ["010"%char]].
Proof.
  destruct (Fork.child (fork_run (throw (RuntimeError "boom")) flags_ex fork_ex)) as [r|] eqn:Ec;
    [|apply (f_equal (λ x, match x with Some _ => true | None => false end)) in Ec; vm_compute in Ec; discriminate Ec].
  destruct (fork_child_exits what_ex demangle_ex walk_ex (throw (RuntimeError "boom")) flags_ex fork_ex r
    walks_ok_ex ltac:(intros e; discriminate) Ec) as (s & Hs & Hr).
  exists r, s. split; [reflexivity|]. split; [exact Hs|]. split; [exact Hr|].
  pose proof (f_equal (λ x, match x with Some y => y.1 | None => Undefined end) Ec) as E1.
  pose proof (f_equal (λ x, match x with Some y => Ref.err_out (Pipe.world y.2) | None => [] end) Ec) as E2.
  cbv beta iota in E1, E2. rewrite <- E1, <- E2. split; vm_compute; reflexivity.
Defined.
