(* ===== verification/ForkRoom.v ===== *)
(** * What fork connects, and the descriptors it needs

    [Pipe]'s copies may lose an end silently ([::dup] is not checked), so the streams of the
    object [fork] returns depend on there being free descriptors.  Here the calls are counted:
    with room for eight more descriptors ([RLIMIT_NOFILE]) no [pipe] or [dup] of [fork] fails,
    every requested stream is connected on both sides, and the child reaches [main]. *)

From S2P Require Import Prelude.
From S2P Require Import Types.
From S2P Require Import CppString.
From S2P Require Import Kernel.
From S2P Require Import RefKernel.
From S2P Require Import Pipe.
From S2P Require Import Backtrace.
From S2P Require Import Process.
From S2P Require Import ChildProcess.
From S2P Require Import Fork.
From S2P Require Import ForkProps.

(** The table has one entry for each descriptor of the base and each one held. *)
Lemma owns_size b L T : owns b L T → size T = (size b + length L)%nat.
Proof.
  intros (Hd & Hin & Hout).
  assert (dom T = dom b ∪ list_to_set L) as HT.
  { apply set_eq. intros fd. rewrite elem_of_union, !elem_of_dom, elem_of_list_to_set.
    destruct (decide (fd ∈ L)) as [Hi|Hi].
    - destruct (Hin _ Hi) as (_ & ? & _). tauto.
    - rewrite (Hout _ Hi). tauto. }
  rewrite <- !(size_dom (D := gset Z)), HT, size_union, size_list_to_set; [done..|].
  intros fd Hb%elem_of_dom Hi%elem_of_list_to_set. destruct (Hin _ Hi) as (_ & _ & E).
  rewrite E in Hb. by destruct Hb.
Qed.

Section room.
Context {W : Type} {E : Errno W} {I : Pid W} {K : FdKernel W} {F : ForkKernel W} {P : ProcKernel W} {N : FdLimit W}.
Context {LF : FdLaws W} {LK : ForkLaws W} {LR : RoomLaws W}.
Implicit Types (w : W) (p : Pipe.t) (s : Fork.frame * Pipe.env W).

(** Room for [n] more descriptors. *)
Definition room (n : nat) w : Prop := (size (fd_table w) + n ≤ fd_limit w)%nat.

(** The ends that [p] has, [q] has too. *)
Definition as_many p q : Prop :=
  (Pipe.fds0 p ≠ -1 → Pipe.fds0 q ≠ -1) ∧ (Pipe.fds1 p ≠ -1 → Pipe.fds1 q ≠ -1).

(** ** Copies do not lose ends *)

Lemma dup_end_room fd w n w' k :
  Pipe.dup_end fd w = (n, w') → (fd ≠ -1 → is_Some (fd_table w !! fd)) →
  room (length (Pipe.held_end fd) + k) w →
  room k w' ∧ fd_limit w' = fd_limit w ∧ (fd ≠ -1 → n ≠ -1).
Proof.
  intros Hd Hop. unfold room, Pipe.held_end. pose proof (dup_end_spec _ _ _ _ Hd) as Hs.
  unfold Pipe.dup_end in Hd. case_Zeqb; case_decide; try done; [injection Hd as <- <-; done|].
  simpl. intros Hr. destruct (dup_room _ _ _ _ Hd) as [-> Hok].
  assert (n ≠ -1) as Hn by (apply Hok; [auto|lia]). split; [|done].
  destruct Hs as [[? _]|(_ & _ & Hf & o & _ & ->)]; [done|].
  rewrite map_size_insert_None by done. lia.
Qed.

Lemma copy_room p w q w' k :
  Pipe.copy p w = (q, w') → pipe_open (fd_table w) p → room (length (Pipe.held p) + k) w →
  room k w' ∧ fd_limit w' = fd_limit w ∧ as_many p q.
Proof.
  unfold Pipe.copy. destruct (Pipe.dup_end (Pipe.fds0 p) w) as [f0 w1] eqn:E0.
  destruct (Pipe.dup_end (Pipe.fds1 p) w1) as [f1 w2] eqn:E1. intros [= <- <-] Hop Hr.
  unfold Pipe.held in Hr. rewrite length_app, <- Nat.add_assoc in Hr.
  pose proof (dup_end_refers _ _ _ _ E0) as [Hsub _].
  apply (dup_end_room _ _ _ _ (length (Pipe.held_end (Pipe.fds1 p)) + k)) in E0 as (R0 & L0 & N0);
    [|intros; apply Hop, elem_of_held; auto|done].
  apply (dup_end_room _ _ _ _ k) in E1 as (R1 & L1 & N1); [|intros Hv|done].
  - split; [done|]. split; [congruence|]. by split.
  - destruct (Hop (Pipe.fds1 p)) as [o Ho]; [apply elem_of_held; auto|].
    exists o. by eapply lookup_weaken.
Qed.

(** ** No operation changes the limit *)

Lemma close_end_limit fd w : fd_limit (Pipe.close_end fd w) = fd_limit w.
Proof.
  unfold Pipe.close_end. case_Zeqb; [done|]. destruct (sys_close fd w) eqn:Ec. by eapply close_room.
Qed.

Lemma dtor_limit p w : fd_limit (Pipe.dtor p w) = fd_limit w.
Proof. unfold Pipe.dtor. by rewrite !close_end_limit. Qed.

Lemma dup_end_limit fd w : fd_limit (Pipe.dup_end fd w).2 = fd_limit w.
Proof.
  unfold Pipe.dup_end. case_Zeqb; [done|]. destruct (sys_dup fd w) eqn:Ed. by eapply dup_room in Ed as [? _].
Qed.

Lemma copy_limit p w : fd_limit (Pipe.copy p w).2 = fd_limit w.
Proof.
  unfold Pipe.copy. pose proof (dup_end_limit (Pipe.fds0 p) w) as H0.
  destruct (Pipe.dup_end _ w) as [f0 w1]. pose proof (dup_end_limit (Pipe.fds1 p) w1) as H1.
  destruct (Pipe.dup_end _ w1) as [f1 w2]. simpl in *. congruence.
Qed.

Lemma close_read_limit p w : fd_limit (Pipe.close_read_fd p w).2 = fd_limit w.
Proof.
  unfold Pipe.close_read_fd. case_Zeqb; [done|]. destruct (sys_close _ w) eqn:Ec. by eapply close_room.
Qed.

Lemma close_write_limit p w : fd_limit (Pipe.close_write_fd p w).2 = fd_limit w.
Proof.
  unfold Pipe.close_write_fd. case_Zeqb; [done|]. destruct (sys_close _ w) eqn:Ec. by eapply close_room.
Qed.

Lemma ctor_limit w : fd_limit (Pipe.ctor w).2 = fd_limit w.
Proof.
  unfold Pipe.ctor, call, check_rc, throw_errno, mbind, M_bind.
  destruct (sys_pipe w) as [[rc [f0 f1]] w1] eqn:Ep. apply pipe_room in Ep as [Hl _].
  by destruct (rc =? -1).
Qed.

Lemma invalid_limit e r e' : Pipe.invalid e = (r, e') → fd_limit (Pipe.world e') = fd_limit (Pipe.world e).
Proof.
  unfold Pipe.invalid. cbv [mbind M_bind gets Pipe.lift zoom call modify mret M_ret].
  destruct (Pipe.invalid_p e) as [p|].
  - pose proof (copy_limit p (Pipe.world e)) as Hc. destruct (Pipe.copy p _) as [q w1].
    simpl in *. intros [= <- <-]. exact Hc.
  - pose proof (ctor_limit (Pipe.world e)) as Hc. destruct (Pipe.ctor _) as [[p|x|] w1]; simpl in Hc;
      [simpl|by intros [= <- <-]..].
    pose proof (close_read_limit p w1) as H1. destruct (Pipe.close_read_fd p w1) as [p1 w2]; simpl in *.
    pose proof (close_write_limit p1 w2) as H2. destruct (Pipe.close_write_fd p1 w2) as [p2 w3]; simpl in *.
    pose proof (copy_limit p2 w3) as H3. destruct (Pipe.copy p2 w3) as [p3 w4]; simpl in *.
    intros [= <- <-]. simpl. congruence.
Qed.

Lemma locals_limit e r e' : Fork.locals e = (r, e') → fd_limit (Pipe.world e') = fd_limit (Pipe.world e).
Proof.
  unfold Fork.locals, on_throw, mbind, M_bind.
  destruct (Pipe.invalid e) as [[a|x|] e1] eqn:E1; apply invalid_limit in E1; [|by intros [= <- <-]..].
  destruct (Pipe.invalid e1) as [[b|x|] e2] eqn:E2; apply invalid_limit in E2;
    [|intros [= <- <-]; simpl; rewrite ?dtor_limit; congruence..].
  destruct (Pipe.invalid e2) as [[g|x|] e3] eqn:E3; apply invalid_limit in E3;
    intros [= <- <-]; simpl; rewrite ?dtor_limit; congruence.
Qed.

(** ** The pipes of the requested streams *)

Definition full p : Prop := Pipe.fds0 p ≠ -1 ∧ Pipe.fds1 p ≠ -1.

Lemma held_length p : (length (Pipe.held p) ≤ 2)%nat.
Proof. unfold Pipe.held, Pipe.held_end. repeat case_decide; simpl; lia. Qed.

Lemma frame_held_length f :
  length (frame_held f) =
    (length (Pipe.held (Fork.stdin_pipe f)) + length (Pipe.held (Fork.stdout_pipe f)) +
     length (Pipe.held (Fork.stderr_pipe f)))%nat.
Proof. unfold frame_held, held_all. simpl. rewrite !length_app. simpl. lia. Qed.

(** Room for [n] as long as the locals hold at most [8 - n] descriptors. *)
Lemma fowns_room b s n m :
  fowns b [] s → (size b + m ≤ fd_limit (Pipe.world s.2))%nat → (length (frame_held s.1) + n ≤ m)%nat →
  room n (Pipe.world s.2).
Proof. intros [HL _] Hm Hn. apply owns_size in HL. rewrite app_nil_r in HL. unfold room. lia. Qed.

Lemma assign_new_room sel upd s s' :
  sel s.1 = Pipe.closed → room 4 (Pipe.world s.2) → Fork.assign_new sel upd s = (Ok tt, s') →
  fd_limit (Pipe.world s'.2) = fd_limit (Pipe.world s.2) ∧ ∃ p, s'.1 = upd p s.1 ∧ full p.
Proof.
  destruct s as [f e]. simpl. intros Hsel Hr. unfold Fork.assign_new.
  cbv [Fork.liftW Fork.liftE Pipe.lift zoom]; unfold mbind at 1, M_bind; simpl.
  pose proof (ctor_limit (Pipe.world e)) as Hl.
  destruct (Pipe.ctor (Pipe.world e)) as [r w1] eqn:Ec. simpl in Hl.
  apply pipe_ctor_spec in Ec as [(x & -> & _)|(q & i & -> & G0 & G1 & Gne & F0 & F1 & _ & Ht)]; [done|].
  unfold mbind, M_bind. rewrite on_pipe_eq. simpl. rewrite Hsel.
  change (Pipe.assign Pipe.closed q w1) with (Pipe.copy q w1).
  destruct (Pipe.copy q w1) as [p w2] eqn:Ep. simpl. intros [= <-]. simpl.
  apply (copy_room _ _ _ _ 0) in Ep as (_ & Hl2 & N0 & N1).
  - split; [rewrite dtor_limit; congruence|]. exists p. split; [done|]. split; [apply N0|apply N1]; lia.
  - intros fd (_ & [->| ->])%elem_of_held; rewrite Ht, ?lookup_insert_eq; [by eexists|].
    rewrite lookup_insert_ne, lookup_insert_eq by done. by eexists.
  - pose proof (held_length q). unfold room in *. rewrite Hl, Ht.
    rewrite !map_size_insert_None; [lia|done|by rewrite lookup_insert_ne].
Qed.

Lemma when_room b req sel upd rest s s' :
  local sel upd rest → fowns b [] s → sel s.1 = Pipe.closed → upd (sel s.1) s.1 = s.1 →
  (size b + 8 ≤ fd_limit (Pipe.world s.2))%nat → (length (frame_held s.1) ≤ 4)%nat →
  Fork.when req (Fork.assign_new sel upd) s = (Ok tt, s') →
  fowns b [] s' ∧ fd_limit (Pipe.world s'.2) = fd_limit (Pipe.world s.2) ∧
  ∃ p, s'.1 = upd p s.1 ∧ (req = true → full p).
Proof.
  intros Hl Hs Hsel Hupd Hlim Hlen Hw. unfold Fork.when in Hw. destruct req.
  - pose proof (assign_new_preserves b [] _ _ _ Hl s Hs) as Hs'. rewrite Hw in Hs'. split; [done|].
    apply assign_new_room in Hw as (-> & p & -> & Hp); [|done|eapply fowns_room; [done..|lia]]. eauto.
  - injection Hw as <-. split; [done|]. split; [done|]. exists (sel s.1). by rewrite Hupd.
Qed.

(** The frame after [open_requested], with the pipes that were asked for complete. *)
Lemma open_requested_room b flags e s' :
  fowns b [] (Fork.mkFrame Pipe.closed Pipe.closed Pipe.closed, e) →
  (size b + 8 ≤ fd_limit (Pipe.world e))%nat →
  Fork.open_requested flags (Fork.mkFrame Pipe.closed Pipe.closed Pipe.closed, e) = (Ok tt, s') →
  fd_limit (Pipe.world s'.2) = fd_limit (Pipe.world e) ∧
  (StandardStream.requested flags StandardStream.stdin = true → full (Fork.stdin_pipe s'.1)) ∧
  (StandardStream.requested flags StandardStream.stdout = true → full (Fork.stdout_pipe s'.1)) ∧
  (StandardStream.requested flags StandardStream.stderr = true → full (Fork.stderr_pipe s'.1)).
Proof.
  unfold Fork.open_requested. intros H0 Hlim H.
  apply M_bind_Ok in H as ([] & s1 & H1 & H). apply M_bind_Ok in H as ([] & s2 & H2 & H3).
  eapply (when_room b) in H1 as (O1 & L1 & p & E1 & P1); [|apply local_stdin|done..|simpl; lia].
  simpl in L1, E1.
  eapply (when_room b) in H2 as (O2 & L2 & q & E2 & P2);
    [|apply local_stdout|done|by rewrite E1..|by rewrite L1|rewrite E1, frame_held_length; simpl].
  2: { pose proof (held_length p). lia. }
  rewrite E1 in E2. simpl in E2.
  eapply (when_room b) in H3 as (O3 & L3 & r & E3 & P3);
    [|apply local_stderr|done|by rewrite E2..|by rewrite L2, L1|rewrite E2, frame_held_length; simpl].
  2: { pose proof (held_length p). pose proof (held_length q). lia. }
  rewrite E2 in E3. rewrite L3, L2, L1, E3. simpl. auto.
Qed.

(** ** The parent's object *)

Lemma on_pipe_limit sel upd op s :
  (∀ p w, fd_limit (op p w).2 = fd_limit w) →
  fd_limit (Pipe.world (Fork.on_pipe sel upd op s).2.2) = fd_limit (Pipe.world s.2).
Proof. intros Hop. rewrite on_pipe_eq. simpl. apply Hop. Qed.

Lemma parent_close_limit s :
  fd_limit (Pipe.world (Fork.parent_close s).2.2) = fd_limit (Pipe.world s.2).
Proof.
  unfold Fork.parent_close, mbind, M_bind. rewrite !on_pipe_eq. simpl.
  by rewrite !close_write_limit, close_read_limit.
Qed.

Lemma half_held_0 x : (length (Pipe.held (Pipe.mk (-1) x)) ≤ 1)%nat.
Proof. unfold Pipe.held, Pipe.held_end. simpl. case_decide; simpl; lia. Qed.

Lemma half_held_1 x : (length (Pipe.held (Pipe.mk x (-1))) ≤ 1)%nat.
Proof. unfold Pipe.held, Pipe.held_end. simpl. case_decide; simpl; lia. Qed.

(** The object has every end that its locals have. *)
Lemma parent_body_room b pid s c s' :
  fowns b [] s → (size b + 8 ≤ fd_limit (Pipe.world s.2))%nat → Fork.parent_body pid s = (Ok c, s') →
  (Pipe.fds1 (Fork.stdin_pipe s.1) ≠ -1 → ChildProcess.cin c ≠ -1) ∧
  (Pipe.fds0 (Fork.stdout_pipe s.1) ≠ -1 → ChildProcess.cout c ≠ -1) ∧
  (Pipe.fds0 (Fork.stderr_pipe s.1) ≠ -1 → ChildProcess.cerr c ≠ -1).
Proof.
  intros Hs Hlim Hb. destruct (parent_close_spec s) as (e1 & Ec & _).
  pose proof (parent_close_preserves b [] s Hs) as Hs1. pose proof (parent_close_limit s) as Hl.
  rewrite Ec in Hs1, Hl. simpl in Hl.
  unfold Fork.parent_body in Hb. unfold mbind at 1, M_bind in Hb. rewrite Ec in Hb.
  cbv [gets mbind M_bind Fork.liftW Fork.liftE Pipe.lift zoom] in Hb. simpl in Hb.
  destruct (ChildProcess.ctor _ _ _ _ _) as [r w'] eqn:Ek in Hb. injection Hb as -> <-.
  assert (∀ p, p ∈ _ → pipe_open (fd_table (Pipe.world e1)) p) as Hop by exact (λ p, fowns_open b [] _ p Hs1).
  simpl in Hop. set (a := Pipe.mk (-1) _) in *. set (o := Pipe.mk (Pipe.fds0 (Fork.stdout_pipe s.1)) _) in *.
  set (g := Pipe.mk (Pipe.fds0 (Fork.stderr_pipe s.1)) _) in *.
  assert (room (length (Pipe.held a) + (length (Pipe.held o) + (length (Pipe.held g) + 0))) (Pipe.world e1)) as Hr.
  { eapply (fowns_room b (Fork.mkFrame a o g, e1)); [exact Hs1|simpl; rewrite Hl; exact Hlim|].
    rewrite frame_held_length. simpl. pose proof (half_held_0 (Pipe.fds1 (Fork.stdin_pipe s.1))) as H1.
    pose proof (half_held_1 (Pipe.fds0 (Fork.stdout_pipe s.1))) as H2.
    pose proof (half_held_1 (Pipe.fds0 (Fork.stderr_pipe s.1))) as H3.
    fold a in H1. fold o in H2. fold g in H3. lia. }
  apply child_ctor_spec in Ek as (_ & _ & _ & w1 & w2 & E1 & E2 & E3 & _ & -> & -> & ->).
  destruct (copy_refers _ _ _ _ E1) as [S1 _]; [apply Hop; set_solver|].
  eapply copy_room in E1 as (R1 & _ & _ & N1); [|apply Hop; set_solver|exact Hr].
  assert (pipe_open (fd_table w1) o) as Ho by (eapply pipe_open_mono; [exact S1|apply Hop; set_solver]).
  destruct (copy_refers _ _ _ _ E2 Ho) as [S2 _].
  eapply copy_room in E2 as (R2 & _ & N2 & _); [|done|exact R1].
  eapply copy_room in E3 as (_ & _ & N3 & _); [|eapply pipe_open_mono; [etrans; [exact S1|exact S2]|apply Hop; set_solver]|exact R2].
  auto.
Qed.

(** ** The child's redirections *)

(** A redirection of an open descriptor onto an open one succeeds and closes nothing. *)
Lemma when_redirect_ok req fd n s :
  0 ≤ n → is_Some (fd_table (Pipe.world s.2) !! n) →
  (req = true → is_Some (fd_table (Pipe.world s.2) !! fd)) →
  ∃ s', Fork.when req (Fork.liftW (Fork.redirect_stream_to_fd fd n)) s = (Ok tt, s') ∧
    ∀ x, is_Some (fd_table (Pipe.world s.2) !! x) → is_Some (fd_table (Pipe.world s'.2) !! x).
Proof.
  intros Hn Hto Hfrom. unfold Fork.when. destruct req; [|by eexists]. destruct s as [f e].
  cbv [Fork.liftW Fork.liftE Pipe.lift zoom Fork.redirect_stream_to_fd mbind M_bind call check_rc throw_errno].
  simpl in *. destruct (sys_dup2 fd n (Pipe.world e)) as [rc w'] eqn:Ed.
  pose proof (dup2_room _ _ _ _ _ Ed Hn (Hfrom eq_refl) Hto) as Hrc.
  case_Zeqb; [done|]. eexists. split; [reflexivity|]. simpl.
  apply dup2_law in Ed as [[-> _]|(_ & o & _ & ->)]; [done|].
  intros x Hx. rewrite lookup_insert. case_decide; [by eexists|done].
Qed.

Lemma child_prologue_ok b flags s :
  std_open b → fowns b [] s →
  (StandardStream.requested flags StandardStream.stdin = true → Pipe.fds0 (Fork.stdin_pipe s.1) ≠ -1) →
  (StandardStream.requested flags StandardStream.stdout = true → Pipe.fds1 (Fork.stdout_pipe s.1) ≠ -1) →
  (StandardStream.requested flags StandardStream.stderr = true → Pipe.fds1 (Fork.stderr_pipe s.1) ≠ -1) →
  ∃ s', Fork.child_prologue flags s = (Ok tt, s').
Proof.
  intros Hstd [HL _] Hi Ho He. unfold Fork.child_prologue.
  destruct (child_close_spec s) as (e1 & Ec & Ht & _).
  unfold mbind at 1, M_bind. rewrite Ec. unfold mbind at 1, M_bind, gets. simpl.
  unfold Pipe.read_fd, Pipe.write_fd, Fork.STDIN_FILENO, Fork.STDOUT_FILENO, Fork.STDERR_FILENO. simpl.
  rewrite app_nil_r in HL.
  assert (∀ n, 0 ≤ n ≤ 2 → is_Some (fd_table (Pipe.world e1) !! n)) as Hn.
  { intros n Hn. destruct (proj2 Hstd n Hn) as [o Hb]. exists o. rewrite Ht, !del_ne.
    - by eapply owns_base.
    - left. intros ->. eapply ends_not_std; [done|by rewrite app_nil_r| |exact Hn]. unfold ends. set_solver.
    - left. intros ->. eapply ends_not_std; [done|by rewrite app_nil_r| |exact Hn]. unfold ends. set_solver.
    - left. intros ->. eapply ends_not_std; [done|by rewrite app_nil_r| |exact Hn]. unfold ends. set_solver. }
  assert (∀ m y, ends s.1 !! m = Some y → m ≠ 1%nat → m ≠ 2%nat → m ≠ 4%nat → y ≠ -1 →
    is_Some (fd_table (Pipe.world e1) !! y)) as Hsrc.
  { intros m y Hy N1 N2 N4 Hv.
    rewrite Ht, (del3_wired b [] s.1 _ 4 2 1 m _ _ _ y);
      [|by rewrite app_nil_r|reflexivity|reflexivity|reflexivity|done..].
    eapply owns_open; [exact HL|]. rewrite frame_held_ends. apply list_elem_of_filter.
    split; [done|by eapply list_elem_of_lookup_2]. }
  set (s0 := (Fork.mkFrame _ _ _, e1)).
  destruct (when_redirect_ok (StandardStream.requested flags StandardStream.stdin)
    (Pipe.fds0 (Fork.stdin_pipe s.1)) 0 s0) as (s1 & H1 & M1);
    [lia|apply Hn; lia|intros Hr; apply (Hsrc 0%nat); [reflexivity|lia..|exact (Hi Hr)]|].
  unfold mbind at 1, M_bind. rewrite H1.
  destruct (when_redirect_ok (StandardStream.requested flags StandardStream.stdout)
    (Pipe.fds1 (Fork.stdout_pipe s.1)) 1 s1) as (s2 & H2 & M2);
    [lia|apply M1, Hn; lia|intros Hr; apply M1, (Hsrc 3%nat); [reflexivity|lia..|exact (Ho Hr)]|].
  unfold mbind at 1, M_bind. rewrite H2.
  destruct (when_redirect_ok (StandardStream.requested flags StandardStream.stderr)
    (Pipe.fds1 (Fork.stderr_pipe s.1)) 2 s2) as (s3 & H3 & _);
    [lia|apply M2, M1, Hn; lia|intros Hr; apply M2, M1, (Hsrc 5%nat); [reflexivity|lia..|exact (He Hr)]|].
  exists s3. exact H3.
Qed.
End room.

(** ** What fork promises for each stream *)

Section fork_streams.
Context {W : Type} {E : Errno W} {I : Pid W} {K : FdKernel W} {F : ForkKernel W} {P : ProcKernel W} {N : FdLimit W}.
Context {LF : FdLaws W} {LK : ForkLaws W} {LR : RoomLaws W}.
Context (what : exn → str) (cxa_demangle : str → option str * Z) (walk : W → Backtrace.walk).
Implicit Types (e : Pipe.env W) (main : M (Pipe.env W) Exit.Status).

(** The parent's descriptor of a stream: the end [o] of its pipe when the stream was asked
    for, which can be missing (-1) only when descriptors ran out; -1 when it was not. *)
Definition parent_end (enough : Prop) (T : gmap Z Ofd) (req : bool) (fd : Z) (o : Ofd) : Prop :=
  if req then (fd ≠ -1 ∧ T !! fd = Some o) ∨ (fd = -1 ∧ ¬ enough) else fd = -1.

(** The child from its start [s] on: the redirections lead to a table in which its standard
    streams are the child's ends of the same pipes, and [main] is what it runs; they can throw
    only when descriptors ran out, and then the handlers end the child. *)
Definition child_side (enough : Prop) main flags (b : gmap Z Ofd) (i j k : positive)
    (s : Fork.frame * Pipe.env W) (ch : option (outcome Exit.Status * Pipe.env W)) : Prop :=
  let req := StandardStream.requested flags in
  match Fork.child_prologue flags s with
  | (Ok _, s1) =>
      redirected (fd_table (Pipe.world s1.2)) b (req StandardStream.stdin) 0 (PipeRead i) ∧
      redirected (fd_table (Pipe.world s1.2)) b (req StandardStream.stdout) 1 (PipeWrite j) ∧
      redirected (fd_table (Pipe.world s1.2)) b (req StandardStream.stderr) 2 (PipeWrite k) ∧
      ch = Some (child_run what cxa_demangle walk main s1.2)
  | (Throw x, s1) => ¬ enough ∧ ch = Some (exit_of (handled what cxa_demangle walk x s1.2))
  | (Undefined, _) => False
  end.

Lemma parent_end_intro enough T req fd o :
  (fd ≠ -1 → T !! fd = Some o) → (req = false → fd = -1) → (enough → req = true → fd ≠ -1) →
  parent_end enough T req fd o.
Proof.
  intros H1 H2 H3. unfold parent_end. destruct req; [|auto].
  destruct (decide (fd = -1)) as [Heq|Hne]; [right; split; [done|]|left; auto].
  intros He. by apply (H3 He).
Qed.

(** C2: when [fork] returns a process object there is a child, and for every stream the flags
    ask for there is one new pipe (three different ones for three streams) such that the
    parent's descriptor is its parent end and the child's standard descriptor the other end
    (stdin: the parent writes, the child reads; stdout and stderr the other way round); a
    stream not asked for is -1 in the parent and inherited by the child.  The child, from the
    state in which it started, runs [main] in exactly the environment the redirections left.
    With room for eight more descriptors nothing of this can be missing: every requested
    stream is connected and the child reaches [main]; only without it can a requested
    descriptor be -1 or a redirection throw, which ends the child in the handlers. *)
Theorem fork_streams_connected main flags e c ep :
  static_ok e → std_open (fd_table (Pipe.world e)) →
  Fork.parent (Fork.fork what cxa_demangle walk main flags e) = (Ok c, ep) →
  let req := StandardStream.requested flags in
  let T := fd_table (Pipe.world ep) in
  let enough := room 8 (Pipe.world e) in
  ∃ i j k s, child_start flags e = Some s ∧
    fresh_pipes (fd_table (Pipe.world e)) i j k s.1 ∧
    parent_end enough T (req StandardStream.stdin) (ChildProcess.cin c) (PipeWrite i) ∧
    parent_end enough T (req StandardStream.stdout) (ChildProcess.cout c) (PipeRead j) ∧
    parent_end enough T (req StandardStream.stderr) (ChildProcess.cerr c) (PipeRead k) ∧
    child_side enough main flags (fd_table (Pipe.world e)) i j k s
      (Fork.child (Fork.fork what cxa_demangle walk main flags e)).
Proof.
  intros Hs Hstd (e1 & f & e2 & pid & wp & wc & s3 & El & H0 & Eo & Ef & Hpid & Eb & -> & Est)%fork_returned; [|done].
  pose proof (open_requested_preserves _ [] flags _ H0) as [HL Hok]. rewrite Eo in HL, Hok. simpl in HL, Hok.
  pose proof (locals_limit _ _ _ El) as Hl0. apply locals_spec in El as (Ht & _ & _); [|done].
  pose proof (λ H, open_requested_room _ _ _ _ H0 H Eo) as Hroom. rewrite Hl0 in Hroom. simpl in Hroom.
  apply open_requested_wired in Eo as (i & j & k & W1 & W2 & W3 & Hfr). rewrite Ht in Hfr. simpl in W1, W2, W3, Hfr.
  pose proof (fork_room _ _ _ _ Ef) as Hl1. apply fork_law in Ef as (Hwp & _ & [->|[_ Hwc]]); [done|].
  exists i, j, k, (f, Pipe.mkEnv wc (Pipe.invalid_p e2)). split; [done|]. split; [exact Hfr|].
  assert (fowns (fd_table (Pipe.world e)) [] (f, Pipe.mkEnv wp (Pipe.invalid_p e2))) as Hfp
    by (split; simpl; by rewrite ?Hwp).
  pose proof (λ H, parent_body_room _ _ _ _ _ Hfp H Eb) as Hpb. simpl in Hpb. rewrite Hl1 in Hpb.
  apply (parent_streams (fd_table (Pipe.world e)) _ _ _ _ (StandardStream.requested flags StandardStream.stdin)
    (StandardStream.requested flags StandardStream.stdout)
    (StandardStream.requested flags StandardStream.stderr) i j k) in Eb as (A & A' & B & B' & C & C');
    [|lia|exact Hfp|simpl; by rewrite Hwp..].
  assert (room 8 (Pipe.world e) → (size (fd_table (Pipe.world e)) + 8 ≤ fd_limit (Pipe.world e2))%nat) as Hbig
    by (intros H; by rewrite (proj1 (Hroom H))).
  split_and!; [apply parent_end_intro; [done|done|]..|].
  - intros H Hr. apply (Hpb (Hbig H)). by apply (Hroom H).
  - intros H Hr. apply (Hpb (Hbig H)). by apply (Hroom H).
  - intros H Hr. apply (Hpb (Hbig H)). by apply (Hroom H).
  - rewrite fork_child, Est. simpl.
    assert (fowns (fd_table (Pipe.world e)) [] (f, Pipe.mkEnv wc (Pipe.invalid_p e2))) as Hfo
      by (split; simpl; by rewrite ?Hwc).
    assert (room 8 (Pipe.world e) → ∃ s', Fork.child_prologue flags (f, Pipe.mkEnv wc (Pipe.invalid_p e2)) = (Ok tt, s')) as Hreach.
    { intros H. apply Hroom in H as (_ & Fi & Fo & Fe).
      apply (child_prologue_ok (fd_table (Pipe.world e))); [done|exact Hfo|intros Hr; simpl..];
        [by apply Fi|by apply Fo|by apply Fe]. }
    unfold child_side, child_end. pose proof (child_prologue_defined flags (f, Pipe.mkEnv wc (Pipe.invalid_p e2))) as Hdef.
    destruct (Fork.child_prologue flags _) as [[[]|x|] s1] eqn:Hpro; [| |done].
    + apply (child_streams (fd_table (Pipe.world e)) _ _ _ i j k Hstd) in Hpro as (D1 & D2 & D3 & _);
        [by split_and!|exact Hfo|simpl; by rewrite Hwc..].
    + split; [|done]. intros [s' [=]]%Hreach.
Qed.
End fork_streams.

(** ** Witnesses *)

(** A limit of 64 and three descriptors in use: both requested streams are connected, stderr
    is not there, and the child runs [main]. *)
Lemma fork_streams_connected_witness :
  ∃ c ep i j em, Fork.parent (fork_run (mret 7) flags_ex fork_ex) = (Ok c, ep) ∧
    fd_table (Pipe.world ep) !! ChildProcess.cin c = Some (PipeWrite i) ∧
    fd_table (Pipe.world ep) !! ChildProcess.cout c = Some (PipeRead j) ∧
    ChildProcess.cerr c = -1 ∧ i ≠ j ∧
    fd_table (Pipe.world em) !! 0 = Some (PipeRead i) ∧ fd_table (Pipe.world em) !! 1 = Some (PipeWrite j) ∧
    Fork.child (fork_run (mret 7) flags_ex fork_ex) = Some (child_run what_ex demangle_ex walk_ex (mret 7) em).
Proof.
  destruct (Fork.parent (fork_run (mret 7) flags_ex fork_ex)) as [[c|x|] ep] eqn:Ep;
    [|apply (f_equal fst) in Ep; vm_compute in Ep; discriminate..].
  assert (room 8 (Pipe.world fork_ex)) as Hroom by (vm_compute; lia).
  destruct (fork_streams_connected (LF := Ref.fd_laws) (LK := Ref.fork_laws) (LR := Ref.room_laws)
    what_ex demangle_ex walk_ex (mret 7) flags_ex fork_ex _ _ I std_open_ex Ep)
    as (i & j & k & s & Hst & (_ & _ & _ & Hij & _) & Hi & Ho & He & Hc).
  destruct Hi as [[_ Hi]|[_ []]]; [|exact Hroom]. destruct Ho as [[_ Ho]|[_ []]]; [|exact Hroom].
  unfold child_side in Hc. destruct (Fork.child_prologue flags_ex s) as [[[]|x|] s1];
    [destruct Hc as (D1 & D2 & _ & Hc)|destruct Hc as [[] _]; exact Hroom|destruct Hc].
  exists c, ep, i, j, s1.2. split_and!; [done|exact Hi|exact Ho|exact He| |exact D1|exact D2|exact Hc].
  assert (option_map (λ s, (Fork.stdin_pipe s.1, Fork.stdout_pipe s.1)) (child_start flags_ex fork_ex) =
    Some (Pipe.mk 5 6, Pipe.mk 7 8)) as Hpipes by (vm_compute; reflexivity).
  rewrite Hst in Hpipes. cbn [option_map] in Hpipes. apply Hij; intros Hcl; rewrite Hcl in Hpipes; discriminate Hpipes.
Defined.
