(* ===== verification/ForkEnds.v ===== *)
(** * Who holds the ends of the pipes after a fork

    [fork] ([src/core/posix/fork.cpp]) closes, on both sides, the ends the other side uses.
    What this is for: a reader sees the end of a stream when no process has the other end
    open any more (pipe(7)).  Here it is shown that after [fork] each end is open on one
    side only, so that destroying the [ChildProcess] ends the child's standard input and
    the end of the child ends the parent's streams; and that a second child, which
    inherits the parent's ends, keeps the first one's input open. *)

From S2P Require Import Prelude.
From S2P Require Import Types.
From S2P Require Import CppString.
From S2P Require Import Kernel.
From S2P Require Import RefKernel.
From S2P Require Import Pipe.
From S2P Require Import Backtrace.
From S2P Require Import Process.
From S2P Require Import ChildProcess.
From S2P Require Import Fork.
From S2P Require Import ForkProps.

(** ** End of file *)

Definition no_reader (p : positive) (T : gmap Z Ofd) : Prop := ∀ fd, T !! fd ≠ Some (PipeRead p).
Definition no_writer (p : positive) (T : gmap Z Ofd) : Prop := ∀ fd, T !! fd ≠ Some (PipeWrite p).

(** pipe(7): "If all file descriptors referring to the write end of a pipe have been closed,
    then an attempt to read(2) from the pipe will see end-of-file".  [Ts] are the tables of
    the processes there are. *)
Definition at_eof (p : positive) (Ts : list (gmap Z Ofd)) : Prop := Forall (no_writer p) Ts.

Lemma unused_no_writer p T : pipe_unused p T → no_writer p T.
Proof. intros Hun fd. by destruct (Hun fd). Qed.

(** The parent's [end_] of the pipe is at [fd] and nowhere else, and its [other] end is not
    open in the parent. *)
Definition only_here (T : gmap Z Ofd) (fd : Z) (end_ other : positive → Ofd) (p : positive) : Prop :=
  T !! fd = Some (end_ p) ∧ (∀ n, T !! n = Some (end_ p) → n = fd) ∧ ∀ n, T !! n ≠ Some (other p).

(** Each stream of [c] that is open in the parent (table [T]) is the only end of its kind in
    the parent, and the child (table [Tc]) has only ends of the other kind. *)
Definition exclusive (T Tc : gmap Z Ofd) (c : ChildProcess.t) : Prop :=
  (ChildProcess.cin c ≠ -1 → ∃ p, only_here T (ChildProcess.cin c) PipeWrite PipeRead p ∧ no_writer p Tc) ∧
  (ChildProcess.cout c ≠ -1 → ∃ p, only_here T (ChildProcess.cout c) PipeRead PipeWrite p ∧ no_reader p Tc) ∧
  (ChildProcess.cerr c ≠ -1 → ∃ p, only_here T (ChildProcess.cerr c) PipeRead PipeWrite p ∧ no_reader p Tc).

(** ** The parent *)

Section parent.
Context {W : Type} {E : Errno W} {I : Pid W} {K : FdKernel W} {F : ForkKernel W} {P : ProcKernel W}.
Context {LF : FdLaws W} {LK : ForkLaws W}.
Implicit Types (s : Fork.frame * Pipe.env W) (c : ChildProcess.t).

(** The descriptors of the three streams. *)
Definition streams c : list Z := [ChildProcess.cin c; ChildProcess.cout c; ChildProcess.cerr c].

Lemma copy_ends rhs (w : W) p w' :
  Pipe.copy rhs w = (p, w') →
  (Pipe.fds0 rhs = -1 → Pipe.fds0 p = -1) ∧ (Pipe.fds1 rhs = -1 → Pipe.fds1 p = -1).
Proof.
  unfold Pipe.copy, Pipe.dup_end. intros Hc.
  split; intros Hr; rewrite Hr in Hc; repeat case_match; simplify_eq; done.
Qed.

(** The object of the parent holds its streams and nothing else, and a stream is valid only
    if the local has a pipe. *)
Lemma parent_body_streams pid s c s' :
  Fork.parent_body pid s = (Ok c, s') →
  ChildProcess.held c = filter (λ fd, fd ≠ -1) (streams c) ∧
  (ChildProcess.cin c ≠ -1 → Fork.stdin_pipe s.1 ≠ Pipe.closed) ∧
  (ChildProcess.cout c ≠ -1 → Fork.stdout_pipe s.1 ≠ Pipe.closed) ∧
  (ChildProcess.cerr c ≠ -1 → Fork.stderr_pipe s.1 ≠ Pipe.closed).
Proof.
  destruct (parent_close_spec s) as (e1 & Ec & _). unfold Fork.parent_body.
  unfold mbind at 1, M_bind. rewrite Ec. cbv [gets mbind M_bind Fork.liftW Fork.liftE Pipe.lift zoom]. simpl.
  destruct (ChildProcess.ctor _ _ _ _ _) as [r w'] eqn:Ek. intros [= -> <-].
  apply child_ctor_spec in Ek as (_ & _ & _ & w1 & w2 & E1 & E2 & E3 & _ & Ei & Eo & Ee).
  apply copy_ends in E1 as [A0 A1], E2 as [B0 B1], E3 as [C0 C1]. simpl in *.
  unfold streams, ChildProcess.held, held_all. rewrite Ei, Eo, Ee. simpl.
  unfold Pipe.held. rewrite (A0 eq_refl), (B1 eq_refl), (C1 eq_refl).
  split; [|split_and!; intros Hv Hp; apply Hv; [apply A1|apply B0|apply C0]; by rewrite Hp].
  unfold Pipe.held_end. rewrite !filter_cons, filter_nil. repeat (case_decide; simplify_eq; simpl); done.
Qed.

(** An entry of the parent's table is one of its streams, or was there before. *)
Lemma parent_entry b T c fd o :
  owns b (filter (λ fd, fd ≠ -1) (streams c)) T → T !! fd = Some o →
  (fd ≠ -1 ∧ (fd = ChildProcess.cin c ∨ fd = ChildProcess.cout c ∨ fd = ChildProcess.cerr c)) ∨ b !! fd = Some o.
Proof.
  intros (_ & _ & Hout) Ho. destruct (decide (fd ∈ filter (λ fd, fd ≠ -1) (streams c))) as [Hin|Hin].
  - left. apply list_elem_of_filter in Hin as [Hv Hin]. unfold streams in Hin. set_solver.
  - right. by rewrite <- Hout.
Qed.

(** The facts about the three streams of the parent: which pipe each is on, and that the
    pipes are new and different. *)
Definition stream_pipes (b T : gmap Z Ofd) c (i j k : positive) : Prop :=
  (ChildProcess.cin c ≠ -1 → T !! ChildProcess.cin c = Some (PipeWrite i) ∧ pipe_unused i b) ∧
  (ChildProcess.cout c ≠ -1 → T !! ChildProcess.cout c = Some (PipeRead j) ∧ pipe_unused j b) ∧
  (ChildProcess.cerr c ≠ -1 → T !! ChildProcess.cerr c = Some (PipeRead k) ∧ pipe_unused k b) ∧
  (ChildProcess.cin c ≠ -1 → ChildProcess.cout c ≠ -1 → i ≠ j) ∧
  (ChildProcess.cin c ≠ -1 → ChildProcess.cerr c ≠ -1 → i ≠ k) ∧
  (ChildProcess.cout c ≠ -1 → ChildProcess.cerr c ≠ -1 → j ≠ k).

Lemma parent_only b T c i j k :
  owns b (filter (λ fd, fd ≠ -1) (streams c)) T → stream_pipes b T c i j k →
  (ChildProcess.cin c ≠ -1 → only_here T (ChildProcess.cin c) PipeWrite PipeRead i) ∧
  (ChildProcess.cout c ≠ -1 → only_here T (ChildProcess.cout c) PipeRead PipeWrite j) ∧
  (ChildProcess.cerr c ≠ -1 → only_here T (ChildProcess.cerr c) PipeRead PipeWrite k).
Proof.
  intros HL (Hi & Ho & He & Hij & Hik & Hjk).
  split_and!; intros Hv; (split_and!; [naive_solver|intros n Hn|intros n Hn]);
    (destruct (parent_entry _ _ _ _ _ HL Hn) as [[Hvn [->|[-> | ->]]]|Hb];
      [| | |exfalso; clear HL; naive_solver]); naive_solver.
Qed.
End parent.

(** ** The child *)

Section child.
Context {W : Type} {E : Errno W} {I : Pid W} {K : FdKernel W} {F : ForkKernel W} {P : ProcKernel W}.
Context {LF : FdLaws W} {LK : ForkLaws W}.
Context (what : exn → str) (cxa_demangle : str → option str * Z) (walk : W → Backtrace.walk).
Implicit Types (s : Fork.frame * Pipe.env W) (c : ChildProcess.t) (e : Pipe.env W).
Implicit Types (main : M (Pipe.env W) Exit.Status).

Lemma del_Some x T fd (o : Ofd) : del x T !! fd = Some o → T !! fd = Some o ∧ (fd = x → fd = -1).
Proof. unfold del. case_decide; [naive_solver|]. rewrite lookup_delete_Some. naive_solver. Qed.

(** What the child has at [fd] is an end of its own kind, or was there before the pipes. *)
Lemma child_table_entry b s i j k fd o r0 r1 r2 :
  fowns b [] s →
  wire (fd_table (Pipe.world s.2)) r0 i (Fork.stdin_pipe s.1) →
  wire (fd_table (Pipe.world s.2)) r1 j (Fork.stdout_pipe s.1) →
  wire (fd_table (Pipe.world s.2)) r2 k (Fork.stderr_pipe s.1) →
  child_table s !! fd = Some o →
  (o = PipeRead i ∧ Fork.stdin_pipe s.1 ≠ Pipe.closed) ∨
  (o = PipeWrite j ∧ Fork.stdout_pipe s.1 ≠ Pipe.closed) ∨
  (o = PipeWrite k ∧ Fork.stderr_pipe s.1 ≠ Pipe.closed) ∨ b !! fd = Some o.
Proof.
  intros [HL _] [[Wi _] _] [[_ Wo] _] [[_ We] _]. unfold child_table.
  destruct s as [[[i0 i1] [o0 o1] [e0 e1]] ev]. simpl in *.
  destruct HL as (_ & _ & Hout). rewrite app_nil_r in Hout.
  intros [[[HT N1]%del_Some N2]%del_Some N3]%del_Some.
  destruct (decide (fd ∈ frame_held (Fork.mkFrame (Pipe.mk i0 i1) (Pipe.mk o0 o1) (Pipe.mk e0 e1)))) as [Hin|Hin].
  - rewrite frame_held_ends in Hin. apply list_elem_of_filter in Hin as [Hv Hin]. unfold ends in Hin. simpl in Hin.
    rewrite !elem_of_cons, elem_of_nil in Hin. destruct Hin as [->|[->|[->|[->|[->|[->|[]]]]]]];
      [rewrite Wi in HT by done|by destruct Hv; auto|by destruct Hv; auto|rewrite Wo in HT by done
      |by destruct Hv; auto|rewrite We in HT by done]; injection HT as <-;
      [left|right; left|right; right; left]; (split; [done|]); by intros [=].
  - rewrite Hout in HT by done. auto.
Qed.

(** The child that has come to [main]: the ends it has, and what it inherited. *)
Lemma child_has b flags s s' i j k :
  std_open b → fowns b [] s →
  wire (fd_table (Pipe.world s.2)) (StandardStream.requested flags StandardStream.stdin) i (Fork.stdin_pipe s.1) →
  wire (fd_table (Pipe.world s.2)) (StandardStream.requested flags StandardStream.stdout) j (Fork.stdout_pipe s.1) →
  wire (fd_table (Pipe.world s.2)) (StandardStream.requested flags StandardStream.stderr) k (Fork.stderr_pipe s.1) →
  Fork.child_prologue flags s = (Ok tt, s') →
  (∀ fd o, fd_table (Pipe.world s'.2) !! fd = Some o →
    (o = PipeRead i ∧ Fork.stdin_pipe s.1 ≠ Pipe.closed) ∨
    (o = PipeWrite j ∧ Fork.stdout_pipe s.1 ≠ Pipe.closed) ∨
    (o = PipeWrite k ∧ Fork.stderr_pipe s.1 ≠ Pipe.closed) ∨ b !! fd = Some o) ∧
  (∀ fd o, 2 < fd → b !! fd = Some o → fd_table (Pipe.world s'.2) !! fd = Some o).
Proof.
  intros Hstd Hs W0 W1 W2 Hp. pose proof Hs as [HL _].
  destruct (child_streams b flags s s' i j k Hstd Hs W0 W1 W2 Hp) as (R0 & R1 & R2 & Hrest & V0 & V1 & V2).
  split.
  - intros fd o Ho. destruct (decide (0 ≤ fd ≤ 2)) as [Hfd|Hfd].
    + assert (fd = 0 ∨ fd = 1 ∨ fd = 2) as [->|[-> | ->]] by lia;
        [rewrite R0 in Ho|rewrite R1 in Ho|rewrite R2 in Ho];
        destruct s as [[[i0 i1] [o0 o1] [e0 e1]] ev]; simpl in *; case_match; simplify_eq; auto.
      * left. split; [done|]. intros [=]; by destruct (V0 eq_refl).
      * right. left. split; [done|]. intros [=]; by destruct (V1 eq_refl).
      * right. right. left. split; [done|]. intros [=]; by destruct (V2 eq_refl).
    + rewrite Hrest in Ho by done. by eapply child_table_entry.
  - intros fd o Hfd Hb. rewrite Hrest by lia. unfold child_table.
    assert (∀ y, y ∈ ends s.1 → fd ≠ y ∨ fd = -1) as Hne.
    { intros y Hy. left. intros ->. destruct HL as (_ & Hin & _).
      destruct (Hin y) as (_ & _ & ?); [|congruence].
      apply elem_of_app. left. rewrite frame_held_ends. apply list_elem_of_filter. split; [lia|done]. }
    rewrite !del_ne; [by eapply owns_base|apply Hne; unfold ends; set_solver..].
Qed.

(** The standard streams of the child. *)
Definition child_ends (b Tc : gmap Z Ofd) flags (i j k : positive) : Prop :=
  redirected Tc b (StandardStream.requested flags StandardStream.stdin) 0 (PipeRead i) ∧
  redirected Tc b (StandardStream.requested flags StandardStream.stdout) 1 (PipeWrite j) ∧
  redirected Tc b (StandardStream.requested flags StandardStream.stderr) 2 (PipeWrite k).

Lemma fork_sole_ends main flags e c ep :
  static_ok e → std_open (fd_table (Pipe.world e)) →
  Fork.parent (Fork.fork what cxa_demangle walk main flags e) = (Ok c, ep) →
  let b := fd_table (Pipe.world e) in
  let T := fd_table (Pipe.world ep) in
  ∃ r i j k, Fork.child (Fork.fork what cxa_demangle walk main flags e) = Some r ∧
    owns b (ChildProcess.held c) T ∧ stream_pipes b T c i j k ∧
    ((∃ em, r = child_run what cxa_demangle walk main em ∧
        (∀ fd o, 2 < fd → b !! fd = Some o → fd_table (Pipe.world em) !! fd = Some o) ∧
        exclusive T (fd_table (Pipe.world em)) c ∧
        child_ends b (fd_table (Pipe.world em)) flags i j k) ∨
     (∃ x em, r = exit_of (handled what cxa_demangle walk x em))).
Proof.
  intros Hs Hstd Hp. pose proof (fork_accounted what cxa_demangle walk main flags e Hs) as [_ Hacc].
  rewrite Hp in Hacc. destruct Hacc as [HLc _]. simpl in HLc.
  apply fork_anatomy in Hp as (f & e2 & pid & wp & wc & s3 & i & j & k & [HL Hok] & (W1 & W2 & W3 & Hfr) & Hpid
    & Hwp & Hwc & Eb & -> & Ech); [|done].
  pose proof (parent_body_streams _ _ _ _ Eb) as (Hheld & V1 & V2 & V3). simpl in *.
  apply (parent_streams (fd_table (Pipe.world e)) _ _ _ _ (StandardStream.requested flags StandardStream.stdin)
    (StandardStream.requested flags StandardStream.stdout)
    (StandardStream.requested flags StandardStream.stderr) i j k) in Eb as (A & _ & B & _ & C & _);
    [|lia|split; simpl; by rewrite ?Hwp|simpl; by rewrite Hwp..].
  destruct Hfr as (U1 & U2 & U3 & N12 & N13 & N23).
  assert (stream_pipes (fd_table (Pipe.world e)) (fd_table (Fork.destroy s3.1 (Pipe.world s3.2))) c i j k) as Hpipes
    by (split_and!; auto).
  eexists _, i, j, k. split; [exact Ech|]. split; [done|]. split; [done|].
  destruct (child_exits what cxa_demangle walk flags main (f, Pipe.mkEnv wc (Pipe.invalid_p e2)))
    as [(s1 & Hpro & ->)|]; [left|by right].
  exists s1.2. split; [done|].
  destruct (child_has (fd_table (Pipe.world e)) flags (f, Pipe.mkEnv wc (Pipe.invalid_p e2)) s1 i j k)
    as [Hc Hinh]; [done|split; simpl; by rewrite ?Hwc|simpl; by rewrite ?Hwc..|done|].
  split; [exact Hinh|]. simpl in Hc. split.
  2: { apply (child_streams (fd_table (Pipe.world e)) _ _ _ i j k Hstd) in Hpro as (D1 & D2 & D3 & _);
       [done|split; simpl; by rewrite ?Hwc|simpl; by rewrite Hwc..]. }
  destruct (parent_only _ _ _ _ _ _ ltac:(by rewrite <- Hheld) Hpipes) as (O1 & O2 & O3).
  split_and!; intros Hv; [exists i|exists j|exists k]; (split; [auto|]); intros fd Hfd;
    (destruct (Hc _ _ Hfd) as [[Eo ?]|[[Eo ?]|[[Eo ?]|Hb]]]; [try discriminate Eo; injection Eo as Eo..|]);
    first [by destruct (U1 (V1 Hv) fd)|by destruct (U2 (V2 Hv) fd)|by destruct (U3 (V3 Hv) fd)
      |by apply N12; auto|by apply N13; auto|by apply N23; auto].
Qed.

Context {LX : FrameLaws W}.

(** C13: after a [fork] no end of a pipe is open where it should not be: each stream of the
    parent's object is the only end of its kind in the parent, which has no other end of that
    pipe, and the child reaches [main] with ends of the other kind only.  So the streams
    end when they should: the child's standard input does not see end-of-file before the
    object is destroyed and sees it then, and the parent's [cout] and [cerr] see it when
    the child is gone. *)
Theorem fork_streams_end main flags e c ep :
  static_ok e → std_open (fd_table (Pipe.world e)) →
  Fork.parent (Fork.fork what cxa_demangle walk main flags e) = (Ok c, ep) →
  let T := fd_table (Pipe.world ep) in
  ∃ r, Fork.child (Fork.fork what cxa_demangle walk main flags e) = Some r ∧
    ((∃ em, r = child_run what cxa_demangle walk main em ∧
        let Tc := fd_table (Pipe.world em) in
        exclusive T Tc c ∧
        (ChildProcess.cin c ≠ -1 → ∃ p, T !! ChildProcess.cin c = Some (PipeWrite p) ∧
           ¬ at_eof p [T; Tc] ∧ at_eof p [fd_table (ChildProcess.dtor c (Pipe.world ep)); Tc]) ∧
        (∀ p, T !! ChildProcess.cout c = Some (PipeRead p) ∨ T !! ChildProcess.cerr c = Some (PipeRead p) →
           at_eof p [T])) ∨
     (∃ x em, r = exit_of (handled what cxa_demangle walk x em))).
Proof.
  intros Hs Hstd Hp. destruct (fork_sole_ends main flags e c ep Hs Hstd Hp)
    as (r & i & j & k & Hr & HL & Hpipes & Hcase). simpl. exists r. split; [done|].
  destruct Hcase as [(em & -> & _ & Hex & _)|]; [left|by right]. exists em. split; [done|]. split; [done|].
  assert (fd_table (Pipe.world ep) !! (-1) = None) as Hneg.
  { destruct HL as (_ & Hin & ->); [apply Hstd|]. intros Hi. apply Hin in Hi. lia. }
  assert (fd_table (ChildProcess.dtor c (Pipe.world ep)) = fd_table (Pipe.world e)) as Hafter.
  { apply owns_nil, child_dtor_owns. by rewrite app_nil_r. }
  destruct Hex as (H0 & H1 & H2). destruct Hpipes as (P0 & _). split.
  - intros Hv. destruct (H0 Hv) as (p & (Hp1 & _ & Hp2) & Hc). destruct (P0 Hv) as [Hi Hun].
    assert (p = i) as -> by congruence. exists i. split_and!; [done| |].
    + intros Heof. apply Forall_cons in Heof as [Hno _]. by apply (Hno (ChildProcess.cin c)).
    + rewrite Hafter. repeat constructor; [by apply unused_no_writer|done].
  - intros p Hp'. apply Forall_singleton.
    destruct Hp' as [Hp'|Hp']; [destruct H1 as (q & (Hq & _ & Hno) & _)|destruct H2 as (q & (Hq & _ & Hno) & _)];
      try congruence; assert (q = p) as -> by congruence; exact Hno.
Qed.

(** The descriptors are not closed on exec and a child keeps what it inherits: a second child
    has the parent's end of the first one's standard input, so that this input does not end
    before the second child does, although the object of the first one is destroyed. *)
Theorem sibling_keeps_input main main2 flags flags2 e c ep c2 ep2 :
  static_ok e → std_open (fd_table (Pipe.world e)) →
  Fork.parent (Fork.fork what cxa_demangle walk main flags e) = (Ok c, ep) →
  Fork.parent (Fork.fork what cxa_demangle walk main2 flags2 ep) = (Ok c2, ep2) →
  ChildProcess.cin c ≠ -1 →
  ∃ r2, Fork.child (Fork.fork what cxa_demangle walk main2 flags2 ep) = Some r2 ∧
    ((∃ em2, r2 = child_run what cxa_demangle walk main2 em2 ∧
        ∃ p, fd_table (Pipe.world ep) !! ChildProcess.cin c = Some (PipeWrite p) ∧
          ∀ T Tc, ¬ at_eof p [T; Tc; fd_table (Pipe.world em2)]) ∨
     (∃ x em, r2 = exit_of (handled what cxa_demangle walk x em))).
Proof.
  intros Hs Hstd Hp Hp2 Hv.
  pose proof (fork_accounted what cxa_demangle walk main flags e Hs) as [Hs1 _]. rewrite Hp in Hs1. simpl in Hs1.
  destruct (fork_sole_ends main flags e c ep Hs Hstd Hp) as (r & i & j & k & _ & HL & Hpipes & _).
  destruct (fork_sole_ends main2 flags2 ep c2 ep2 Hs1) as (r2 & ? & ? & ? & Hr2 & _ & _ & Hcase); [|done|].
  { destruct Hstd as [Hneg Hopen]. split.
    - destruct HL as (_ & Hin & ->); [done|]. intros Hi. apply Hin in Hi. lia.
    - intros n Hn. destruct (Hopen n Hn) as [o Ho]. exists o. by eapply owns_base. }
  exists r2. split; [done|]. destruct Hcase as [(em2 & -> & Hinh & _)|]; [left|by right].
  exists em2. split; [done|]. destruct Hpipes as (P0 & _). destruct (P0 Hv) as [Hi Hun]. exists i. split; [done|].
  intros T Tc Heof. apply Forall_cons in Heof as [_ Heof]. apply Forall_cons in Heof as [_ Heof].
  apply Forall_cons in Heof as [Heof _]. apply (Heof (ChildProcess.cin c)). apply Hinh; [|done].
  destruct (decide (2 < ChildProcess.cin c)) as [|Hle]; [done|]. exfalso.
  destruct HL as (_ & Hin & Hout). destruct (decide (ChildProcess.cin c ∈ ChildProcess.held c)) as [Hc|Hc].
  - destruct (Hin _ Hc) as (H0 & _ & Hb). destruct (proj2 Hstd (ChildProcess.cin c)) as [o Ho]; [lia|congruence].
  - rewrite Hout in Hi by done. by destruct (Hun (ChildProcess.cin c)).
Qed.
End child.

(** ** Witnesses *)

Abbreviation first_fork := (fork_run (mret 7) flags_ex fork_ex).

(** The first child's standard input ends when its object is destroyed. *)
Lemma fork_streams_end_witness :
  ∃ c ep em p, Fork.parent first_fork = (Ok c, ep) ∧
    at_eof p [fd_table (ChildProcess.dtor c (Pipe.world ep)); fd_table (Pipe.world em)] ∧
    ¬ at_eof p [fd_table (Pipe.world ep); fd_table (Pipe.world em)].
Proof.
  destruct (Fork.parent first_fork) as [[c|x|] ep] eqn:Ep;
    [|apply (f_equal fst) in Ep; vm_compute in Ep; discriminate Ep..].
  assert (ChildProcess.cin c ≠ -1) as Hcin.
  { apply (f_equal fst) in Ep. vm_compute in Ep. injection Ep as <-. vm_compute. discriminate. }
  destruct (fork_streams_end (LF := Ref.fd_laws) (LK := Ref.fork_laws) (LX := Ref.frame_laws)
    what_ex demangle_ex walk_ex (mret 7) flags_ex fork_ex c ep I std_open_ex Ep)
    as (r & Hr & [(em & _ & _ & Hi & _)|(x & em & Hx)]).
  - destruct (Hi Hcin) as (p & _ & H1 & H2). exists c, ep, em, p. split; [reflexivity|]. split; [exact H2|exact H1].
  - exfalso. rewrite Hx in Hr. apply (f_equal (option_map fst)) in Hr. vm_compute in Hr. discriminate Hr.
Defined.

(** A second child without redirection keeps the first one's input open. *)
Lemma sibling_keeps_input_witness :
  ∃ c ep em2 p, Fork.parent first_fork = (Ok c, ep) ∧
    ∀ T Tc, ¬ at_eof p [T; Tc; fd_table (Pipe.world (W := Ref.t) em2)].
Proof.
  destruct (Fork.parent first_fork) as [[c|x|] ep] eqn:Ep;
    [|apply (f_equal fst) in Ep; vm_compute in Ep; discriminate Ep..].
  assert (ChildProcess.cin c ≠ -1) as Hcin.
  { apply (f_equal fst) in Ep. vm_compute in Ep. injection Ep as <-. vm_compute. discriminate. }
  destruct (Fork.parent (fork_run (mret 0) StandardStream.empty ep)) as [[c2|x|] ep2] eqn:Ep2;
    [|exfalso; vm_compute in Ep; injection Ep as _ <-; apply (f_equal fst) in Ep2; vm_compute in Ep2; discriminate Ep2..].
  destruct (sibling_keeps_input (LF := Ref.fd_laws) (LK := Ref.fork_laws)
    what_ex demangle_ex walk_ex (mret 7) (mret 0) flags_ex StandardStream.empty fork_ex c ep c2 ep2 I std_open_ex Ep Ep2 Hcin)
    as (r2 & Hr2 & [(em2 & _ & p & _ & Hno)|(x & em & Hx)]).
  - exists c, ep, em2, p. split; [reflexivity|exact Hno].
  - exfalso. rewrite Hx in Hr2. vm_compute in Ep. injection Ep as _ <-.
    apply (f_equal (option_map fst)) in Hr2. vm_compute in Hr2. discriminate Hr2.
Defined.
