(* ===== verification/ForkFrame.v ===== *)
(** * What fork does not touch

    [fork] ([src/core/posix/fork.cpp]) works on the kernel with pipe, dup, dup2, close and
    fork only.  A property of the kernel state that these calls keep is kept by the whole
    function, in the parent whatever happens, and in the child up to the call of [main].
    The bytes in the pipes ([Transport]) and the signal mask ([TrapFork]) are instances. *)

From S2P Require Import Prelude.
From S2P Require Import Types.
From S2P Require Import CppString.
From S2P Require Import Kernel.
From S2P Require Import Pipe.
From S2P Require Import Backtrace.
From S2P Require Import Process.
From S2P Require Import ChildProcess.
From S2P Require Import Fork.
From S2P Require Import ForkProps.

(** The calls that make, copy and close descriptors keep [J]. *)
Record stable {W : Type} {K : FdKernel W} (J : W → Prop) : Prop := {
  keeps_pipe w : J w → J (sys_pipe w).2;
  keeps_dup fd w : J w → J (sys_dup fd w).2;
  keeps_close fd w : J w → J (sys_close fd w).2 }.

Section frame.
Context {W : Type} {E : Errno W} {I : Pid W} {K : FdKernel W} {F : ForkKernel W} {P : ProcKernel W}.
Context {LF : FdLaws W} {LK : ForkLaws W}.
Context (J : W → Prop) (HJ : stable J).
Implicit Types (w : W) (e : Pipe.env W) (p : Pipe.t).

(** ** The operations on pipe objects *)

Lemma keeps_close_end fd w : J w → J (Pipe.close_end fd w).
Proof. unfold Pipe.close_end. case_Zeqb; [done|]. apply (keeps_close J HJ). Qed.

Lemma keeps_dup_end fd w : J w → J (Pipe.dup_end fd w).2.
Proof. unfold Pipe.dup_end. case_Zeqb; [done|]. apply (keeps_dup J HJ). Qed.

Lemma keeps_dtor p w : J w → J (Pipe.dtor p w).
Proof. unfold Pipe.dtor. auto using keeps_close_end. Qed.

Lemma keeps_copy p w : J w → J (Pipe.copy p w).2.
Proof.
  intros Hw. unfold Pipe.copy. pose proof (keeps_dup_end (Pipe.fds0 p) w Hw) as H1.
  destruct (Pipe.dup_end _ w) as [f0 w1]. pose proof (keeps_dup_end (Pipe.fds1 p) w1 H1) as H2.
  by destruct (Pipe.dup_end _ w1).
Qed.

Lemma keeps_assign p rhs w : J w → J (Pipe.assign p rhs w).2.
Proof. intros Hw. apply (keeps_copy rhs). by apply keeps_dtor. Qed.

Lemma keeps_close_read p w : J w → J (Pipe.close_read_fd p w).2.
Proof. intros Hw. unfold Pipe.close_read_fd. case_Zeqb; [done|]. by apply (keeps_close J HJ). Qed.

Lemma keeps_close_write p w : J w → J (Pipe.close_write_fd p w).2.
Proof. intros Hw. unfold Pipe.close_write_fd. case_Zeqb; [done|]. by apply (keeps_close J HJ). Qed.

Lemma keeps_ctor w : J w → J (Pipe.ctor w).2.
Proof.
  intros Hw%(keeps_pipe J HJ). unfold Pipe.ctor, call, mbind, M_bind, check_rc, throw_errno.
  destruct (sys_pipe w) as [[rc [r x]] w']. by destruct (rc =? -1).
Qed.

(** ** The parent's side of fork *)

Definition keepsE e : Prop := J (Pipe.world e).
Definition keepsS (s : Fork.frame * Pipe.env W) : Prop := keepsE s.2.

Lemma keeps_lift {A} (m : M W A) : preserves J m → preserves keepsE (Pipe.lift m).
Proof. intros Hm e He. unfold Pipe.lift, zoom. specialize (Hm _ He). by destruct (m (Pipe.world e)). Qed.

Lemma keeps_liftW {A} (m : M W A) : preserves J m → preserves keepsS (Fork.liftW m).
Proof.
  intros Hm [f e] He. apply keeps_lift in Hm. specialize (Hm e He). unfold Fork.liftW, Fork.liftE, zoom.
  cbn [fst snd]. by destruct (Pipe.lift m e).
Qed.

(** A call of a system call or of a [void] member function. *)
Lemma keeps_call {A} (f : W → A * W) :
  (∀ w, J w → J (f w).2) → preserves keepsE (Pipe.lift (call f)).
Proof. intros Hf. apply keeps_lift. intros w Hw. specialize (Hf w Hw). unfold call. by destruct (f w). Qed.

Lemma keeps_invalid : preserves keepsE Pipe.invalid.
Proof.
  unfold Pipe.invalid. apply preserves_bind; [|intros p; by apply keeps_call, keeps_copy].
  apply preserves_bind; [by intros e|]. intros [p|]; [apply preserves_ret|].
  apply preserves_bind; [apply keeps_lift; intros w Hw; by apply keeps_ctor|intros p1].
  apply preserves_bind; [apply keeps_call, keeps_close_read|intros p2].
  apply preserves_bind; [apply keeps_call, keeps_close_write|intros p3].
  apply preserves_bind; [by apply preserves_modify|intros _; apply preserves_ret].
Qed.

Lemma keeps_on_throw {A} (m : M (Pipe.env W) A) f :
  preserves keepsE m → (∀ w, J w → J (f w)) → preserves keepsE (on_throw m (Pipe.on_world f)).
Proof.
  intros Hm Hf e He. specialize (Hm e He). unfold on_throw. destruct (m e) as [[|x|] e1]; [done| |done].
  by apply Hf.
Qed.

Lemma keeps_locals : preserves keepsE Fork.locals.
Proof.
  unfold Fork.locals. apply preserves_bind; [apply keeps_invalid|intros p1].
  apply preserves_bind; [apply keeps_on_throw; [apply keeps_invalid|apply keeps_dtor]|intros p2].
  apply preserves_bind; [apply keeps_on_throw; [apply keeps_invalid|by auto using keeps_dtor]|intros p3].
  apply preserves_ret.
Qed.

Lemma keeps_on_pipe sel upd op :
  (∀ p w, J w → J (op p w).2) → preserves keepsS (Fork.on_pipe sel upd op).
Proof. intros Hop s Hs. rewrite on_pipe_eq. by apply Hop. Qed.

Lemma keeps_assign_new sel upd : preserves keepsS (Fork.assign_new sel upd).
Proof.
  unfold Fork.assign_new. apply preserves_bind; [apply keeps_liftW; intros w Hw; by apply keeps_ctor|intros tmp].
  apply preserves_bind; [by apply keeps_on_pipe; intros; apply keeps_assign|intros _].
  apply keeps_liftW, preserves_modify. intros w. apply keeps_dtor.
Qed.

Lemma keeps_open_requested flags : preserves keepsS (Fork.open_requested flags).
Proof.
  unfold Fork.open_requested. repeat (apply preserves_bind; [|intros _]);
    auto using when_preserves, keeps_assign_new.
Qed.

Lemma keeps_child_ctor pid i o p : preserves J (ChildProcess.ctor pid i o p).
Proof.
  unfold ChildProcess.ctor. destruct (Process.ctor pid); auto using preserves_throw, preserves_undefined.
  apply preserves_bind; [|intros ?; apply preserves_ret]. intros w Hw. unfold call, ChildProcess.Private_ctor.
  pose proof (keeps_copy i w Hw) as H1. destruct (Pipe.copy i w) as [p1 w1].
  pose proof (keeps_copy o w1 H1) as H2. destruct (Pipe.copy o w1) as [p2 w2].
  pose proof (keeps_copy p w2 H2) as H3. by destruct (Pipe.copy p w2) as [p3 w3].
Qed.

Lemma keeps_parent_body pid : preserves keepsS (Fork.parent_body pid).
Proof.
  unfold Fork.parent_body, Fork.parent_close. apply preserves_bind; [|intros _].
  - repeat (apply preserves_bind; [|intros _]); auto using keeps_on_pipe, keeps_close_read, keeps_close_write.
  - apply preserves_bind; [by intros e|]. intros f. apply keeps_liftW, keeps_child_ctor.
Qed.

Lemma keeps_destroy f w : J w → J (Fork.destroy f w).
Proof. unfold Fork.destroy. auto using keeps_dtor. Qed.


(** ** Both processes *)

Context (what : exn → str) (cxa_demangle : str → option str * Z) (walk : W → Backtrace.walk).
Implicit Types (main : M (Pipe.env W) Exit.Status).

(** In the parent, however the call ends. *)
Lemma fork_keeps_parent main flags e :
  (∀ w rc wp wc, J w → sys_fork w = (rc, wp, wc) → J wp) →
  J (Pipe.world e) → J (Pipe.world (Fork.parent (Fork.fork what cxa_demangle walk main flags e)).2).
Proof.
  intros Hfork He. assert (keepsE e) as H0 by done. unfold Fork.fork. apply keeps_locals in H0.
  destruct (Fork.locals e) as [[f|x|] e1]; [|done..].
  assert (keepsS (f, e1)) as H1 by done. apply (keeps_open_requested flags) in H1.
  destruct (Fork.open_requested flags (f, e1)) as [[[]|x|] [f2 e2]]; [|by apply keeps_destroy|done].
  destruct (sys_fork (Pipe.world e2)) as [[pid wp] wc] eqn:Ef. cbn [Fork.parent].
  pose proof (Hfork _ _ _ _ H1 Ef) as H2. apply fork_law in Ef as (_ & _ & Hpid).
  unfold Fork.after_fork, Fork.is_child. destruct Hpid as [->|[Hpid _]]; [by apply keeps_destroy|].
  rewrite (proj2 (Z.eqb_neq pid (-1))), (proj2 (Z.eqb_neq pid 0)) by lia.
  assert (keepsS (f2, Pipe.mkEnv wp (Pipe.invalid_p e2))) as H3 by done.
  apply (keeps_parent_body pid) in H3. unfold mbind, M_bind.
  destruct (Fork.parent_body pid _) as [[c'|x|] [f3 e3]]; [by apply keeps_destroy..|done].
Qed.

Lemma keeps_redirect fd n :
  (∀ fd n w, J w → J (sys_dup2 fd n w).2) → preserves J (Fork.redirect_stream_to_fd fd n).
Proof.
  intros Hdup w Hw. specialize (Hdup fd n w Hw).
  unfold Fork.redirect_stream_to_fd, call, check_rc, throw_errno, mbind, M_bind.
  destruct (sys_dup2 fd n w) as [rc w']. by destruct (rc =? -1).
Qed.

Lemma keeps_prologue flags :
  (∀ fd n w, J w → J (sys_dup2 fd n w).2) → preserves keepsS (Fork.child_prologue flags).
Proof.
  intros Hdup. unfold Fork.child_prologue, Fork.child_close. apply preserves_bind; [|intros _].
  - repeat (apply preserves_bind; [|intros _]); auto using keeps_on_pipe, keeps_close_read, keeps_close_write.
  - apply preserves_bind; [by intros e|]. intros f.
    repeat (apply preserves_bind; [|intros _]); auto using when_preserves, keeps_liftW, keeps_redirect.
Qed.

(** In the child: it comes to [main] with [J], or a redirection has thrown. *)
Lemma fork_keeps_child main flags e r :
  (∀ fd n w, J w → J (sys_dup2 fd n w).2) →
  (∀ w rc wp wc, J w → sys_fork w = (rc, wp, wc) → rc ≠ -1 → J wc) →
  J (Pipe.world e) → Fork.child (Fork.fork what cxa_demangle walk main flags e) = Some r →
  (∃ em, r = child_run what cxa_demangle walk main em ∧ J (Pipe.world em)) ∨
  (∃ x em, r = exit_of (handled what cxa_demangle walk x em)).
Proof.
  intros Hdup Hfork He. assert (keepsE e) as H0 by done. unfold Fork.fork. apply keeps_locals in H0.
  destruct (Fork.locals e) as [[f|x|] e1]; [|done..].
  assert (keepsS (f, e1)) as H1 by done. apply (keeps_open_requested flags) in H1.
  destruct (Fork.open_requested flags (f, e1)) as [[[]|x|] [f2 e2]]; [|done..].
  destruct (sys_fork (Pipe.world e2)) as [[pid wp] wc] eqn:Ef. cbn [Fork.child].
  case_Zeqb as Hpid; [done|]. intros [= <-]. pose proof (Hfork _ _ _ _ H1 Ef Hpid) as H2.
  destruct (child_exits what cxa_demangle walk flags main (f2, Pipe.mkEnv wc (Pipe.invalid_p e2)))
    as [(s1 & Hpro & ->)|]; [left|by right].
  exists s1.2. split; [done|].
  assert (keepsS (f2, Pipe.mkEnv wc (Pipe.invalid_p e2))) as H3 by done.
  apply (keeps_prologue flags Hdup) in H3. by rewrite Hpro in H3.
Qed.
End frame.
