(* ===== verification/Transport.v ===== *)
(** * Bytes between parent and child

    What the redirection of [fork] ([src/core/posix/fork.cpp]) is for: what the parent writes
    to [ChildProcess::cin()] is what the child reads from its standard input, and what the
    child writes to its standard output and error is what the parent reads from [cout()] and
    [cerr()] ([src/core/posix/child_process.cpp]).  The two processes share the pipes and
    have descriptor tables of their own; their reads, writes and closes are interleaved.
    The stream objects are represented by their descriptors. *)

From stdpp Require Import functions.
From S2P Require Import Prelude.
From S2P Require Import Types.
From S2P Require Import CppString.
From S2P Require Import Kernel.
From S2P Require Import RefKernel.
From S2P Require Import Extend.
From S2P Require Import PipeIO.
From S2P Require Import Pipe.
From S2P Require Import Backtrace.
From S2P Require Import Process.
From S2P Require Import ChildProcess.
From S2P Require Import Fork.
From S2P Require Import ForkProps.
From S2P Require Import ForkEnds.
From S2P Require Import ForkFrame.

(** ** New pipes are empty *)

Section tidy.
Context {W : Type} {E : Errno W} {I : Pid W} {K : FdKernel W} {F : ForkKernel W} {P : ProcKernel W}.
Context {O : PipeIO W} {Sc : Scheduler W}.
Context {LF : FdLaws W} {LK : ForkLaws W} {LO : PipeIOLaws W} {LS : SchedulerLaws W} {LB : ForkBufferLaws W}.
Context (b : gmap Z Ofd).
Implicit Types (w : W) (e : Pipe.env W) (p : Pipe.t).

(** A pipe that was not there at the beginning (table [b]) is not there now, or empty. *)
Definition tidy w : Prop :=
  ∀ q, pipe_unused q b → pipe_unused q (fd_table w) ∨ buffer w q = [].

Lemma tidy_close fd w : tidy w → tidy (sys_close fd w).2.
Proof.
  intros Hw q Hq. destruct (sys_close fd w) as [r w'] eqn:Ec. simpl.
  rewrite (close_shared_law _ _ _ _ q Ec), (close_law _ _ _ _ Ec).
  destruct (Hw q Hq) as [Hun|]; [left|by right]. eapply unused_subseteq; [apply delete_subseteq|done].
Qed.

Lemma tidy_dup fd w : tidy w → tidy (sys_dup fd w).2.
Proof.
  intros Hw q Hq. destruct (sys_dup fd w) as [r w'] eqn:Ed. simpl. rewrite (dup_buffer_law _ _ _ _ Ed q).
  destruct (Hw q Hq) as [Hun|]; [left|by right].
  apply dup_law in Ed as [[_ ->]|(_ & _ & o & Ho & ->)]; [done|].
  intros n. destruct (Hun fd), (Hun n). rewrite !lookup_insert. case_decide; [split; congruence|done].
Qed.

(** A call that keeps the bytes of the pipes in use. *)
Lemma tidy_kept w w' q :
  (¬ pipe_unused q (fd_table w) → buffer w' q = buffer w q) →
  pipe_unused q (fd_table w) ∨ buffer w q = [] → pipe_unused q (fd_table w) ∨ buffer w' q = [].
Proof.
  intros Hkeep [|Hb]; [by left|]. destruct (decide (buffer w' q = [])) as [|Hne]; [by right|left].
  intros n. split; intros Hn; apply Hne; (rewrite Hkeep; [done|]); intros Hun; by destruct (Hun n).
Qed.

Lemma tidy_pipe w : tidy w → tidy (sys_pipe w).2.
Proof.
  intros Hw q Hq. destruct (sys_pipe w) as [[rc [r x]] w'] eqn:Ep. simpl.
  destruct (pipe_buffer_law _ _ _ _ _ q Ep) as [Hkeep Hnew].
  pose proof (tidy_kept w w' q Hkeep (Hw q Hq)) as Hold.
  apply pipe_law in Ep as [[-> Ht]|(-> & _ & _ & Hrx & _ & _ & p & Hun & Ht)]; [by rewrite Ht|].
  destruct (decide (q = p)) as [->|Hqp]; [right; apply Hnew; [done|by rewrite Ht, lookup_insert_eq]|].
  destruct Hold as [Hun'|]; [left|by right]. rewrite Ht. intros n. destruct (Hun' n).
  rewrite !lookup_insert. repeat case_decide; split; congruence.
Qed.

Lemma tidy_stable : stable tidy.
Proof. split; [apply tidy_pipe|apply tidy_dup|apply tidy_close]. Qed.

Lemma tidy_fork w rc wp wc : tidy w → sys_fork w = (rc, wp, wc) → tidy wp.
Proof.
  intros Hw Hf q Hq. rewrite (fork_buffer_law _ _ _ _ q Hf). apply fork_law in Hf as (-> & _). by apply Hw.
Qed.
End tidy.

(** ** Two processes and three pipes *)

Module Transport.

(** The redirected streams, by the name they have in the child. *)
Inductive stream : Type := In | Out | Err.
Inductive side : Type := Parent | Child.

#[global] Instance stream_eq_dec : EqDecision stream.
Proof. solve_decision. Defined.
#[global] Instance side_eq_dec : EqDecision side.
Proof. solve_decision. Defined.

(** The descriptor of a stream in the parent: [cin()], [cout()], [cerr()]. *)
Definition parent_fd (c : ChildProcess.t) (s : stream) : Z :=
  match s with In => ChildProcess.cin c | Out => ChildProcess.cout c | Err => ChildProcess.cerr c end.

(** The descriptor of a stream in the child. *)
Definition child_fd (s : stream) : Z :=
  match s with In => Fork.STDIN_FILENO | Out => Fork.STDOUT_FILENO | Err => Fork.STDERR_FILENO end.

Definition fd_of (c : ChildProcess.t) (d : side) : stream → Z :=
  match d with Parent => parent_fd c | Child => child_fd end.

(** The parent writes the child's input, the child writes the other two. *)
Definition writer (s : stream) : side := match s with In => Parent | _ => Child end.
Definition reader (s : stream) : side := match s with In => Child | _ => Parent end.

(** The stream is redirected, and the copy of its descriptor has not failed. *)
Definition used (c : ChildProcess.t) (s : stream) : Prop := parent_fd c s ≠ -1.

(** What the two processes do; [Close] is any [close] of either. *)
Inductive action : Type :=
| Write (s : stream) (data : list Z)
| Read (s : stream) (count : Z)
| Close (d : side) (fd : Z).

Definition usable (c : ChildProcess.t) (a : action) : Prop :=
  match a with Write s _ | Read s _ => used c s | Close _ _ => True end.

(** The two descriptor tables, the kernel, and what has been sent and received so far. *)
Record system (W : Type) : Type := mkSys {
  tables : side → gmap Z Ofd; kernel : W; sent : stream → list Z; got : stream → list Z }.
Arguments mkSys {W} _ _ _ _.
Arguments tables {W} _ _.
Arguments kernel {W} _.
Arguments sent {W} _ _.
Arguments got {W} _ _.

Section system.
Context {W : Type} {K : FdKernel W} {O : PipeIO W} {Sc : Scheduler W}.
Implicit Types (σ : system W) (a : action) (s : stream).

(** The kernel when process [d] runs. *)
Definition runs (d : side) σ : W := schedule (tables σ d) (kernel σ).

(** A call counts with the number of bytes it returns; -1 is none. *)
Definition act (c : ChildProcess.t) σ a : system W :=
  match a with
  | Write s data =>
      let d := writer s in
      let r := sys_write (fd_of c d s) data (runs d σ) in
      mkSys (<[d := fd_table r.2]> (tables σ)) r.2
        (<[s := sent σ s ++ take (Z.to_nat r.1) data]> (sent σ)) (got σ)
  | Read s count =>
      let d := reader s in
      let r := sys_read (fd_of c d s) count (runs d σ) in
      mkSys (<[d := fd_table r.2]> (tables σ)) r.2 (sent σ)
        (<[s := got σ s ++ take (Z.to_nat r.1.1) r.1.2]> (got σ))
  | Close d fd =>
      let r := sys_close fd (runs d σ) in
      mkSys (<[d := fd_table r.2]> (tables σ)) r.2 (sent σ) (got σ)
  end.

Definition run c (acts : list action) σ : system W := foldl (act c) σ acts.

(** After the fork: the parent has returned with [ep], the child has come to [main] with
    [em]. *)
Definition start (ep em : Pipe.env W) : system W :=
  mkSys (λ d, fd_table (Pipe.world (match d with Parent => ep | Child => em end)))
    (Pipe.world ep) (λ _, []) (λ _, []).
End system.
End Transport.

(** ** Conservation of the bytes *)

Section conservation.
Import Transport.
Context {W : Type} {K : FdKernel W} {O : PipeIO W} {Sc : Scheduler W}.
Context {LF : FdLaws W} {LO : PipeIOLaws W} {LS : SchedulerLaws W}.
Context (c : ChildProcess.t) (T0 : side → gmap Z Ofd) (pipe_of : stream → positive).
Implicit Types (σ : system W) (a : action) (s : stream).

(** At the beginning the two ends of a stream are on the pipe of the stream, and no two
    streams share a pipe. *)
Definition linked : Prop :=
  (∀ s, used c s → T0 (writer s) !! fd_of c (writer s) s = Some (PipeWrite (pipe_of s)) ∧
                   T0 (reader s) !! fd_of c (reader s) s = Some (PipeRead (pipe_of s))) ∧
  (∀ s s', used c s → used c s' → pipe_of s = pipe_of s' → s = s').

(** What is in the pipe is what has been sent and not been received. *)
Definition conserved σ : Prop :=
  (∀ d, tables σ d ⊆ T0 d) ∧
  (∀ s, used c s → got σ s ++ buffer (kernel σ) (pipe_of s) = sent σ s).

Lemma tables_insert (Ts : side → gmap Z Ofd) d T :
  (∀ d, Ts d ⊆ T0 d) → T ⊆ T0 d → ∀ d', <[d := T]> Ts d' ⊆ T0 d'.
Proof.
  intros HT Hd d'. destruct (decide (d = d')) as [->|]; [by rewrite fn_lookup_insert|].
  by rewrite fn_lookup_insert_ne.
Qed.

(** A descriptor of a used stream is open as it was, or closed. *)
Lemma end_or_closed σ d fd o :
  (∀ d, tables σ d ⊆ T0 d) → T0 d !! fd = Some o →
  fd_table (runs d σ) !! fd = Some o ∨ fd_table (runs d σ) !! fd = None.
Proof.
  intros HT Ho. unfold runs. rewrite schedule_table. destruct (tables σ d !! fd) as [o'|] eqn:E; [left|by right].
  pose proof (lookup_weaken _ _ _ _ E (HT d)). congruence.
Qed.

Lemma write_conserved s data σ : linked → used c s → conserved σ → conserved (act c σ (Write s data)).
Proof.
  intros [HL Hinj] Hs [HT HC]. destruct (HL s Hs) as [Hw _]. simpl.
  destruct (sys_write _ data (runs (writer s) σ)) as [n w'] eqn:Ew. simpl.
  assert (fd_table w' = tables σ (writer s) ∧ (∀ q, q ≠ pipe_of s → buffer w' q = buffer (kernel σ) q) ∧
    buffer w' (pipe_of s) = buffer (kernel σ) (pipe_of s) ++ take (Z.to_nat n) data) as (Ht & Hq & Hp).
  { destruct (end_or_closed σ _ _ _ HT Hw) as [E|E]; [apply (write_append_law _ _ _ _ _ _ E) in Ew|
      apply (write_bad_law _ _ _ _ _ E) in Ew]; unfold io_frame, runs in Ew; rewrite schedule_table in Ew;
      setoid_rewrite schedule_buffer in Ew; [destruct Ew as [[? ?] [[-> ->]|[_ ->]]]|destruct Ew as (-> & ? & ?)];
      split_and!; rewrite ?app_nil_r; auto. }
  split; simpl.
  - rewrite Ht. by apply tables_insert.
  - intros s' Hs'. destruct (decide (s = s')) as [<-|Hne].
    + by rewrite fn_lookup_insert, Hp, app_assoc, HC.
    + rewrite fn_lookup_insert_ne, Hq by eauto. by apply HC.
Qed.

Lemma read_conserved s count σ : linked → used c s → conserved σ → conserved (act c σ (Read s count)).
Proof.
  intros [HL Hinj] Hs [HT HC]. destruct (HL s Hs) as [_ Hr]. simpl.
  destruct (sys_read _ count (runs (reader s) σ)) as [[n data] w'] eqn:Er. simpl.
  assert (fd_table w' = tables σ (reader s) ∧ (∀ q, q ≠ pipe_of s → buffer w' q = buffer (kernel σ) q) ∧
    take (Z.to_nat n) data ++ buffer w' (pipe_of s) = buffer (kernel σ) (pipe_of s)) as (Ht & Hq & Hp).
  { destruct (end_or_closed σ _ _ _ HT Hr) as [E|E]; [apply (read_law _ _ _ _ _ _ _ E) in Er|
      apply (read_bad_law _ _ _ _ _ _ E) in Er]; unfold io_frame, runs in Er; rewrite schedule_table in Er;
      setoid_rewrite schedule_buffer in Er; [destruct Er as [[? ?] [[-> ->]|(-> & -> & ->)]]|destruct Er as (-> & ? & ?)];
      split_and!; simpl; auto. by rewrite Nat2Z.id, (take_ge _ _ (le_n _)), take_drop. }
  split; simpl.
  - rewrite Ht. by apply tables_insert.
  - intros s' Hs'. destruct (decide (s = s')) as [<-|Hne].
    + by rewrite fn_lookup_insert, <- app_assoc, Hp, HC.
    + rewrite fn_lookup_insert_ne, Hq by eauto. by apply HC.
Qed.

Lemma close_conserved d fd σ : conserved σ → conserved (act c σ (Close d fd)).
Proof.
  intros [HT HC]. simpl. destruct (sys_close fd (runs d σ)) as [r w'] eqn:Ec. simpl.
  pose proof (λ q, close_shared_law _ _ _ _ q Ec) as Hb. apply close_law in Ec. unfold runs in Hb, Ec.
  rewrite schedule_table in Ec. split; simpl.
  - rewrite Ec. apply tables_insert; [done|]. etrans; [apply delete_subseteq|done].
  - intros s Hs. rewrite Hb, schedule_buffer. by apply HC.
Qed.

Lemma run_conserved acts σ : linked → Forall (usable c) acts → conserved σ → conserved (run c acts σ).
Proof.
  intros HL Ha. revert σ. induction Ha as [|a acts Ha _ IH]; intros σ Hσ; [done|]. apply IH.
  destruct a; auto using write_conserved, read_conserved, close_conserved.
Qed.

(** A read of everything that succeeds leaves nothing behind. *)
Lemma read_drains s count σ :
  linked → used c s → conserved σ → Z.of_nat (length (sent σ s)) ≤ count →
  (sys_read (fd_of c (reader s) s) count (runs (reader s) σ)).1.1 = -1 ∨ got (act c σ (Read s count)) s = sent σ s.
Proof.
  intros [HL _] Hs [HT HC] Hcount. destruct (HL s Hs) as [_ Hr]. simpl.
  destruct (sys_read _ count (runs (reader s) σ)) as [[n data] w'] eqn:Er. simpl.
  destruct (end_or_closed σ _ _ _ HT Hr) as [E|E]; [|by left; apply (read_bad_law _ _ _ _ _ _ E) in Er as [-> _]].
  apply (read_law _ _ _ _ _ _ _ E) in Er as [_ [[-> _]|(-> & -> & _)]]; [by left|right].
  unfold runs. rewrite fn_lookup_insert, schedule_buffer, Nat2Z.id, (take_ge _ _ (le_n _)), <- (HC s Hs).
  f_equal. apply take_ge. rewrite <- (HC s Hs), length_app in Hcount. lia.
Qed.
End conservation.

(** ** After a fork *)

Section transport.
Import Transport.
Context {W : Type} {E : Errno W} {I : Pid W} {K : FdKernel W} {F : ForkKernel W} {P : ProcKernel W}.
Context {O : PipeIO W} {Sc : Scheduler W}.
Context {LF : FdLaws W} {LK : ForkLaws W} {LO : PipeIOLaws W} {LS : SchedulerLaws W} {LB : ForkBufferLaws W}.
Context (what : exn → str) (cxa_demangle : str → option str * Z) (walk : W → Backtrace.walk).
Implicit Types (e ep em : Pipe.env W) (main : M (Pipe.env W) Exit.Status).

(** The parent's end of a stream on the pipe [p]. *)
Definition parent_end (s : stream) (p : positive) : Ofd :=
  match s with In => PipeWrite p | _ => PipeRead p end.

Definition asked flags (s : stream) : bool :=
  StandardStream.requested flags
    (match s with In => StandardStream.stdin | Out => StandardStream.stdout | Err => StandardStream.stderr end).

Lemma used_asked main flags e c ep s :
  static_ok e → std_open (fd_table (Pipe.world e)) →
  Fork.parent (Fork.fork what cxa_demangle walk main flags e) = (Ok c, ep) → used c s → asked flags s = true.
Proof.
  intros Hs Hstd Hp Hu. destruct (fork_wired what cxa_demangle walk main flags e c ep Hs Hstd Hp)
    as (i & j & k & r & [_ A] & [_ B] & [_ C] & _).
  unfold used, parent_fd, asked in *. apply not_false_iff_true. intros Hreq. destruct s; auto.
Qed.

(** The two sides of a fork are linked, and nothing is in the pipes yet. *)
Lemma fork_starts flags e c ep em i j k :
  stream_pipes (fd_table (Pipe.world e)) (fd_table (Pipe.world ep)) c i j k →
  child_ends (fd_table (Pipe.world e)) (fd_table (Pipe.world em)) flags i j k →
  (∀ s, used c s → asked flags s = true) → tidy (fd_table (Pipe.world e)) (Pipe.world ep) →
  let pipe_of s := match s with In => i | Out => j | Err => k end in
  (∀ s, used c s → fd_table (Pipe.world ep) !! parent_fd c s = Some (parent_end s (pipe_of s))) ∧
  linked c (tables (start ep em)) pipe_of ∧ conserved c (tables (start ep em)) pipe_of (start ep em).
Proof.
  intros (Hi & Hj & Hk & Hij & Hik & Hjk) (Ci & Cj & Ck) Hreq Htidy pipe_of. unfold redirected in *.
  assert (∀ s, used c s → fd_table (Pipe.world ep) !! parent_fd c s = Some (parent_end s (pipe_of s)) ∧
    pipe_unused (pipe_of s) (fd_table (Pipe.world e))) as Hpar.
  { intros [] Hu; [apply Hi, Hu|apply Hj, Hu|apply Hk, Hu]. }
  split; [intros s Hs; by apply Hpar|]. split; split.
  - intros s Hs. destruct (Hpar s Hs) as [Hfd _]. pose proof (Hreq s Hs) as Hr. unfold asked in Hr.
    destruct s; simpl in *; rewrite Hr in *; by split.
  - intros [] [] Hs Hs' He; try done; exfalso; simpl in He; first [by apply Hij|by apply Hik|by apply Hjk].
  - done.
  - intros s Hs. simpl. destruct (Hpar s Hs) as [Hfd Hun]. destruct (Htidy _ Hun) as [Hun'|]; [|done].
    destruct (Hun' (parent_fd c s)). by destruct s.
Qed.

(** C4: what is written to the streams of a forked child arrives: after a successful [fork]
    parent and child may write, read and close in any interleaving, and on each redirected
    stream ([cin] towards the child, [cout] and [cerr] from it) the bytes the one side has
    received so far, followed by those still in the pipe, are the bytes the other side has
    sent: nothing is lost, doubled, reordered or mixed up between the streams, or was in
    the pipe before.  A read of all that has been sent fails or gets the rest. *)
Theorem streams_transport main flags e c ep :
  static_ok e → std_open (fd_table (Pipe.world e)) →
  Fork.parent (Fork.fork what cxa_demangle walk main flags e) = (Ok c, ep) →
  ∃ r, Fork.child (Fork.fork what cxa_demangle walk main flags e) = Some r ∧
    ((∃ em, r = child_run what cxa_demangle walk main em ∧
        ∀ acts s, Forall (usable c) acts → used c s →
          let σ := run c acts (start ep em) in
          (∃ p, fd_table (Pipe.world ep) !! parent_fd c s = Some (parent_end s p) ∧
             got σ s ++ buffer (kernel σ) p = sent σ s) ∧
          ∀ count, Z.of_nat (length (sent σ s)) ≤ count →
            (sys_read (fd_of c (reader s) s) count (runs (reader s) σ)).1.1 = -1 ∨
            got (act c σ (Read s count)) s = sent σ s) ∨
     (∃ x em, r = exit_of (handled what cxa_demangle walk x em))).
Proof.
  intros Hs Hstd Hp.
  assert (tidy (fd_table (Pipe.world e)) (Pipe.world ep)) as Htidy.
  { pose proof (fork_keeps_parent _ (tidy_stable (fd_table (Pipe.world e))) what cxa_demangle walk main flags e
      (tidy_fork _) (λ q Hq, or_introl Hq)) as Ht. by rewrite Hp in Ht. }
  destruct (fork_sole_ends what cxa_demangle walk main flags e c ep Hs Hstd Hp)
    as (r & i & j & k & Hr & _ & Hpipes & Hcase). exists r. split; [done|].
  destruct Hcase as [(em & -> & _ & _ & Hends)|]; [left|by right]. exists em. split; [done|].
  intros acts s Hacts Hu σ.
  destruct (fork_starts flags e c ep em i j k Hpipes Hends (λ s, used_asked main flags e c ep s Hs Hstd Hp) Htidy)
    as (Hpar & Hlink & H0).
  pose proof (run_conserved _ _ _ acts _ Hlink Hacts H0) as Hσ. split; [|intros count; by eapply read_drains].
  eexists. split; [by apply Hpar|]. by apply Hσ.
Qed.
End transport.

(** ** Witness *)

Definition sync_fork_ex : Pipe.env RefSync.t := Pipe.mkEnv (RefSync.mk (Pipe.world fork_ex) ∅) None.

Abbreviation sync_fork := (Fork.fork what_ex demangle_ex (λ w, walk_ex (RefSync.base w)) (mret 7) flags_ex sync_fork_ex).

(** The parent sends three bytes and closes its end; the child takes two of them. *)
Definition acts_ex (c : ChildProcess.t) : list Transport.action :=
  [Transport.Write Transport.In [1; 2; 3]; Transport.Close Transport.Parent (ChildProcess.cin c);
   Transport.Read Transport.In 2].

Lemma streams_transport_witness :
  ∃ c ep em p, Fork.parent sync_fork = (Ok c, ep) ∧
    let σ := Transport.run c (acts_ex c) (Transport.start ep em) in
    Transport.sent σ Transport.In = [1; 2; 3] ∧
    Transport.got σ Transport.In ++ buffer (Transport.kernel σ) p = [1; 2; 3].
Proof.
  destruct (Fork.parent sync_fork) as [[c|x|] ep] eqn:Ep;
    [|apply (f_equal fst) in Ep; vm_compute in Ep; discriminate Ep..].
  assert (Transport.used c Transport.In) as Hin.
  { apply (f_equal fst) in Ep. vm_compute in Ep. injection Ep as <-. vm_compute. discriminate. }
  destruct (streams_transport (LF := RefSync.fd_sync_laws) (LK := ref_fork_sync_laws) (LO := RefSync.io_laws)
    (LS := ref_schedule_laws) (LB := ref_fork_buffers)
    what_ex demangle_ex (λ w, walk_ex (RefSync.base w)) (mret 7) flags_ex sync_fork_ex c ep I std_open_ex Ep)
    as (r & Hr & [(em & _ & Hσ)|(x & em & Hx)]).
  - destruct (Hσ (acts_ex c) Transport.In) as [(p & _ & Hgot) _]; [by repeat constructor|done|].
    exists c, ep, em, p. split; [reflexivity|].
    assert (Transport.sent (Transport.run c (acts_ex c) (Transport.start ep em)) Transport.In = [1; 2; 3]) as Hsent.
    { vm_compute in Ep. injection Ep as <- <-. vm_compute. reflexivity. }
    cbv zeta. split; [exact Hsent|]. rewrite <- Hsent. exact Hgot.
  - exfalso. rewrite Hx in Hr. apply (f_equal (option_map fst)) in Hr. vm_compute in Hr. discriminate Hr.
Defined.
