(* ===== verification/VforkProps.v ===== *)
(** * What sharing the memory does to vfork

    After [::vfork] the child runs first, on the stack of the parent: the
    [close_*] members it calls on the three [Pipe] locals set descriptors of the
    parent's objects to -1 while closing them only in the child's own table. *)

From S2P Require Import Prelude.
From S2P Require Import Types.
From S2P Require Import CppString.
From S2P Require Import Kernel.
From S2P Require Import RefKernel.
From S2P Require Import Pipe.
From S2P Require Import Backtrace.
From S2P Require Import Process.
From S2P Require Import ChildProcess.
From S2P Require Import Fork.
From S2P Require Import ForkProps.

Section vfork.
Context {W : Type} {E : Errno W} {I : Pid W} {K : FdKernel W} {F : ForkKernel W} {P : ProcKernel W}.
Context {LF : FdLaws W} {LK : ForkLaws W}.
Context (what : exn → str) (cxa_demangle : str → option str * Z) (walk : W → Backtrace.walk).
Implicit Types (e : Pipe.env W) (main : M (Pipe.env W) Exit.Status) (f : Fork.frame).
Abbreviation state := (Fork.frame * Pipe.env W)%type.

(** The locals after the child has closed the ends of the parent. *)
Definition child_closed f : Fork.frame :=
  Fork.mkFrame (Pipe.mk (Pipe.fds0 (Fork.stdin_pipe f)) (-1))
               (Pipe.mk (-1) (Pipe.fds1 (Fork.stdout_pipe f)))
               (Pipe.mk (-1) (Pipe.fds1 (Fork.stderr_pipe f))).

(** The ends of the parent: what the child's [close_*] calls forget. *)
Definition parent_ends f : list Z :=
  [Pipe.fds1 (Fork.stdin_pipe f); Pipe.fds0 (Fork.stdout_pipe f); Pipe.fds0 (Fork.stderr_pipe f)].

Lemma liftE_frame {A} f (m : M (Pipe.env W) A) : preserves (λ s : state, s.1 = f) (Fork.liftE m).
Proof. intros [g e]. unfold Fork.liftE, zoom. simpl. by destruct (m e). Qed.

Lemma liftW_frame {A} f (m : M W A) : preserves (λ s : state, s.1 = f) (Fork.liftW m).
Proof. apply liftE_frame. Qed.

(** Whatever [main] does, the child leaves its closed locals behind. *)
Lemma child_frame flags main f e :
  (Fork.after_fork what cxa_demangle walk flags main 0 (f, e)).2.1 = child_closed f.
Proof.
  set (J := λ s : state, s.1 = child_closed f).
  unfold Fork.after_fork. simpl. unfold mbind at 1, M_bind, Fork.child_main, try_catch.
  unfold Fork.child_prologue. rewrite M_bind_assoc.
  match goal with |- context [(Fork.child_close ≫= ?k) (f, e)] =>
    assert (J ((Fork.child_close ≫= k) (f, e)).2) as H1;
    [|destruct ((Fork.child_close ≫= k) (f, e)) as [[st|x|] s1]; simpl in *; [done| |done]] end.
  - destruct (child_close_spec (f, e)) as (e1 & Ec & _).
    unfold mbind at 1, M_bind. rewrite Ec. apply (preserves_bind J); [|intros; apply liftE_frame|done].
    apply preserves_bind; [apply preserves_gets|intros g].
    repeat (apply preserves_bind; [apply when_preserves, liftW_frame|intros _]).
    apply when_preserves, liftW_frame.
  - pose proof (liftW_frame _ (Fork.report what cxa_demangle walk x) s1 H1) as H2.
    unfold mbind, M_bind. by destruct (Fork.liftW _ s1) as [[]].
Qed.

Lemma new_locals_spec e f e1 :
  Fork.new_locals e = (Ok f, e1) →
  owns (fd_table (Pipe.world e)) (frame_held f) (fd_table (Pipe.world e1)) ∧ Forall (λ fd, fd ≠ -1) (ends f).
Proof.
  unfold Fork.new_locals. intros H.
  apply M_bind_Ok in H as (a & s1 & H1 & H). apply M_bind_Ok in H as (b & s2 & H2 & H).
  apply M_bind_Ok in H as (c & s3 & H3 & H). injection H as <- <-.
  assert (∀ d s p s', on_throw (Pipe.lift Pipe.ctor) d s = (Ok p, s') →
    ∃ w', Pipe.ctor (Pipe.world s) = (Ok p, w') ∧ s' = Pipe.mkEnv w' (Pipe.invalid_p s)) as Hct.
  { intros d s p s'. unfold on_throw, Pipe.lift, zoom. destruct (Pipe.ctor (Pipe.world s)) as [[]]; naive_solver. }
  apply Hct in H2 as (w2 & C2 & ->).
  apply Hct in H3 as (w3 & C3 & ->).
  unfold Pipe.lift, zoom in H1. destruct (Pipe.ctor (Pipe.world e)) as [r1 w1] eqn:C1.
  injection H1 as -> <-. simpl in *. split.
  - pose proof (ctor_owns _ [] _ _ _ C1 ltac:(by apply owns_nil)) as O1.
    pose proof (ctor_owns _ _ _ _ _ C2 O1) as O2. pose proof (ctor_owns _ _ _ _ _ C3 O2) as O3.
    revert O3. apply owns_Permutation; [|done]. unfold frame_held, held_all. simpl.
    by rewrite Permutation_app_swap3.
  - unfold ends. simpl.
    apply pipe_ctor_spec in C1 as [(? & ? & _)|(? & ? & [= <-] & ? & ? & _)]; [done|].
    apply pipe_ctor_spec in C2 as [(? & ? & _)|(? & ? & [= <-] & ? & ? & _)]; [done|].
    apply pipe_ctor_spec in C3 as [(? & ? & _)|(? & ? & [= <-] & ? & ? & _)]; [done|].
    repeat constructor; lia.
Qed.

(** The descriptors of fresh locals, split as the child leaves them. *)
Lemma frame_held_split f :
  Forall (λ fd, fd ≠ -1) (ends f) → frame_held f ≡ₚ frame_held (child_closed f) ++ parent_ends f.
Proof.
  destruct f as [[a0 a1] [b0 b1] [c0 c1]]. unfold ends, frame_held, held_all, parent_ends. simpl.
  rewrite !Forall_cons. intros (? & ? & ? & ? & ? & ? & _).
  unfold Pipe.held, Pipe.held_end. simpl. rewrite !decide_False by done. simpl. solve_Permutation.
Qed.

(** A process object made of invalid pipes has no streams. *)
Lemma child_of_closed pid (w : W) c w' :
  ChildProcess.ctor pid Pipe.closed Pipe.closed Pipe.closed w = (Ok c, w') →
  ChildProcess.held c = [] ∧ ChildProcess.cin c = -1 ∧ ChildProcess.cout c = -1 ∧ ChildProcess.cerr c = -1.
Proof.
  intros (_ & _ & _ & w1 & w2 & E1 & E2 & E3 & _ & Hi & Ho & He)%child_ctor_spec.
  unfold Pipe.copy, Pipe.closed in *; simpl in *.
  injection E1 as E1 _. injection E2 as E2 _. injection E3 as E3 _.
  unfold ChildProcess.held, held_all. rewrite Hi, Ho, He, <- E1, <- E2, <- E3. done.
Qed.

(** The parent's body on locals the child has closed. *)
Lemma parent_body_closed b pid f e c s' :
  Forall (λ fd, fd ≠ -1) (ends f) →
  owns b (frame_held f) (fd_table (Pipe.world e)) →
  Fork.parent_body pid (child_closed f, e) = (Ok c, s') →
  s'.1 = Fork.mkFrame Pipe.closed Pipe.closed Pipe.closed ∧
  ChildProcess.held c = [] ∧ ChildProcess.cin c = -1 ∧ ChildProcess.cout c = -1 ∧
  ChildProcess.cerr c = -1 ∧ owns b (parent_ends f) (fd_table (Pipe.world s'.2)).
Proof.
  intros Hends HL. rewrite (frame_held_split _ Hends) in HL.
  unfold Fork.parent_body, mbind at 1, M_bind.
  destruct (parent_close_spec (child_closed f, e)) as (e1 & -> & Ht & _). simpl in *.
  cbv [gets mbind M_bind Fork.liftW Fork.liftE Pipe.lift zoom]. simpl.
  destruct (ChildProcess.ctor _ _ _ _ _) as [r w'] eqn:Ek. intros [= -> <-]. simpl.
  pose proof (child_of_closed _ _ _ _ Ek) as (Hh & Hi & Ho & He). split_and!; try done.
  apply (child_ctor_owns b (parent_ends f)) in Ek; [by rewrite Hh in Ek|]. rewrite Ht.
  destruct f as [[a0 a1] [b0 b1] [c0 c1]]. simpl in *.
  unfold ends in Hends. simpl in Hends. rewrite !Forall_cons in Hends.
  destruct Hends as (? & ? & ? & ? & ? & ? & _).
  unfold frame_held, held_all, Pipe.held, Pipe.held_end in HL. simpl in HL.
  unfold del. rewrite !decide_False in * by done. simpl in *. by do 3 apply owns_release.
Qed.

(** C36: [vfork] cannot hand out the child's streams: whenever it returns a process
    object, all three descriptors of that object are -1, whatever the flags, while the
    three parent ends of the pipes it created stay open in the parent's table without
    an owner. *)
Theorem vfork_loses_streams main flags e c ep :
  Fork.parent (Fork.vfork what cxa_demangle walk main flags e) = (Ok c, ep) →
  ChildProcess.cin c = -1 ∧ ChildProcess.cout c = -1 ∧ ChildProcess.cerr c = -1 ∧
  ChildProcess.held c = [] ∧
  ∃ x y z, owns (fd_table (Pipe.world e)) [x; y; z] (fd_table (Pipe.world ep)).
Proof.
  unfold Fork.vfork. destruct (Fork.new_locals e) as [[f|?|] e1] eqn:El; [|done..].
  apply new_locals_spec in El as [HL Hends].
  destruct (sys_vfork (Pipe.world e1)) as [[pid wp] wc] eqn:Ef.
  apply vfork_law in Ef as (Hwp & _ & Hpid).
  destruct Hpid as [->|[Hpid _]]; [done|].
  rewrite (proj2 (Z.eqb_neq pid (-1))) by lia. cbn [Fork.parent].
  rewrite child_frame. set (r := Fork.after_fork _ _ _ _ _ 0 _).
  unfold Fork.after_fork, Fork.is_child.
  rewrite (proj2 (Z.eqb_neq pid (-1))), (proj2 (Z.eqb_neq pid 0)) by lia.
  unfold mbind at 1, M_bind.
  destruct (Fork.parent_body pid _) as [[c'|x|] [f3 e3]] eqn:Eb; [|done..]. intros [= -> <-].
  apply (parent_body_closed (fd_table (Pipe.world e))) in Eb
    as (Hf & Hh & Hi & Ho & He & Hown); [|done|simpl; by rewrite Hwp].
  split_and!; try done. unfold parent_ends in Hown. eexists _, _, _. simpl in *. by rewrite Hf, destroy_table.
Qed.
End vfork.

(** ** Witness *)

Lemma vfork_loses_streams_witness :
  ∃ c ep x y z,
    Fork.parent (Fork.vfork what_ex demangle_ex walk_ex (mret 0) flags_ex fork_ex) = (Ok c, ep) ∧
    ChildProcess.cin c = -1 ∧ ChildProcess.cout c = -1 ∧
    owns (fd_table (Pipe.world fork_ex)) [x; y; z] (fd_table (Pipe.world ep)).
Proof.
  destruct (Fork.parent (Fork.vfork what_ex demangle_ex walk_ex (mret 0) flags_ex fork_ex))
    as [[c|x|] ep] eqn:Ep; [|vm_compute in Ep; discriminate..].
  destruct (vfork_loses_streams (LF := Ref.fd_laws) (LK := Ref.fork_laws) what_ex demangle_ex walk_ex
    (mret 0) flags_ex fork_ex c ep Ep) as (H1 & H2 & _ & _ & x & y & z & H3).
  exists c, ep, x, y, z. exact (conj eq_refl (conj H1 (conj H2 H3))).
Defined.
