(* ===== verification/Environment.v ===== *)
(** * core::posix::this_process::env

    [src/core/posix/this_process.cpp], lines 44-148: the accessors of the
    process environment.  The array [::environ] and the calls of the C library
    that change it are a parameter ([EnvKernel]) with the behaviour documented
    in setenv(3) and unsetenv(3) as laws; getenv(3) is the search in the array.
    The static mutex [env_guard] is part of the state: locking it twice in one
    thread is undefined.  [Module RefEnv] is an executable environment that
    satisfies the laws. *)

From S2P Require Import Prelude.
From S2P Require Import Types.
From S2P Require Import CppString.
From S2P Require Import Kernel.

(** ** The C library *)

(** [strip name e]: what follows [name=] in the entry [e]. *)
Fixpoint strip (name e : str) : option str :=
  match name, e with
  | [], c :: v => if bool_decide (c = "="%char) then Some v else None
  | n :: name, c :: e => if bool_decide (n = c) then strip name e else None
  | _, [] => None
  end.

(** The value of the first entry for [name] in an environment array. *)
Fixpoint find_env (name : str) (l : list str) : option str :=
  match l with
  | [] => None
  | e :: l => match strip name e with Some v => Some v | None => find_env name l end
  end.

(** Names setenv and unsetenv refuse with EINVAL. *)
Definition bad_name (name : str) : bool := bool_decide (name = [] ∨ "="%char ∈ name).

Class EnvKernel (W : Type) : Type := {
  environ : W → option (list str);
  sys_setenv : str → str → Z → W → Z * W;
  sys_unsetenv : str → W → Z * W }.

(** getenv(3) *)
Definition getenv {W} `{EnvKernel W} (name : str) (w : W) : option str :=
  match name with [] => None | _ => find_env name (default [] (environ w)) end.

(** setenv(3), unsetenv(3).  Either call may run out of memory. *)
Class EnvLaws (W : Type) {E : Errno W} {K : EnvKernel W} : Prop := {
  setenv_law name value overwrite w rc w' :
    sys_setenv name value overwrite w = (rc, w') →
    (bad_name name = true → rc = -1 ∧ errno w' = EINVAL) ∧
    ((rc = -1 ∧ environ w' = environ w) ∨
     (rc = 0 ∧
      (overwrite = 0 → is_Some (getenv name w) → environ w' = environ w) ∧
      (overwrite ≠ 0 ∨ getenv name w = None →
       ∀ n, bad_name n = false → getenv n w' = if decide (n = name) then Some value else getenv n w)));
  unsetenv_law name w rc w' :
    sys_unsetenv name w = (rc, w') →
    (bad_name name = true → rc = -1 ∧ errno w' = EINVAL) ∧
    ((rc = -1 ∧ environ w' = environ w) ∨
     (rc = 0 ∧
      ∀ n, bad_name n = false → getenv n w' = if decide (n = name) then None else getenv n w)) }.

Module Env.

(** The process state: the C library's, and whether [env_guard] is locked. *)
Record state (W : Type) : Type := mkState { lib : W; env_guard : bool }.
Arguments mkState {W} _ _.
Arguments lib {W} _.
Arguments env_guard {W} _.

Section operations.
Context {W : Type} {E : Errno W} {K : EnvKernel W}.
Abbreviation ENV := (M (state W)).

Definition libc {A} (m : M W A) : ENV A := zoom lib (λ w s, mkState w (env_guard s)) m.

(** [std::lock_guard<std::mutex> lg(env_guard());] for the rest of the body. *)
Definition guarded {A} (m : ENV A) : ENV A := λ s,
  if env_guard s then (Undefined, s)
  else finally m (λ s', mkState (lib s') false) (mkState (lib s) true).

(** A [noexcept(true)] function: an escaping exception calls std::terminate. *)
Definition noexcept {A} (m : ENV A) : ENV A := try_catch m (λ _, undefined).

Definition lift_outcome {A} (o : outcome A) : ENV A := λ s, (o, s).

(** The loop over the array: [l] is what [it] still points at, [all] the array.  If
    the functor replaced the array, [it] points into freed memory. *)
Fixpoint for_each_loop (all l : list str) (functor : str → str → ENV unit) : ENV unit :=
  match l with
  | [] => mret tt
  | line :: l =>
      key ← lift_outcome (substr 0 (find_first_of "=" line) line);
      value ← lift_outcome (substr (u64 (find_first_of "=" line + 1)) npos line);
      functor key value ;;
      now ← gets (λ s, environ (lib s));
      if bool_decide (now = Some all) then for_each_loop all l functor else undefined
  end.

Definition for_each (functor : str → str → ENV unit) : ENV unit :=
  noexcept (guarded (
    it ← gets (λ s, environ (lib s));
    match it with None => mret tt | Some l => for_each_loop l l functor end)).

Definition not_defined (key : str) : exn :=
  RuntimeError (String.string_of_list_ascii
    ($"Variable with name " ++ key ++ $" is not defined in the environment")).

Definition get_or_throw (key : str) : ENV str :=
  guarded (
    result ← gets (λ s, getenv (c_str key) (lib s));
    match result with None => throw (not_defined key) | Some v => mret v end).

Definition get (key default_value : str) : ENV str :=
  noexcept (guarded (
    result ← gets (λ s, getenv (c_str key) (lib s));
    mret (match result with Some v => v | None => default_value end))).

Definition unset_or_throw (key : str) : ENV unit :=
  guarded (libc (rc ← call (sys_unsetenv (c_str key)); check_rc rc)).

(** [bool unset(key, se)]: the result and the caller's error code. *)
Definition unset (key : str) (se : Z) : ENV (bool * Z) :=
  noexcept (guarded (libc (
    rc ← call (sys_unsetenv (c_str key));
    if rc =? -1 then code ← gets errno; mret (false, code) else mret (true, se)))).

Definition overwrite : Z := 0.

Definition set_or_throw (key value : str) : ENV unit :=
  guarded (libc (rc ← call (sys_setenv (c_str key) (c_str value) overwrite); check_rc rc)).

Definition set (key value : str) (se : Z) : ENV (bool * Z) :=
  noexcept (guarded (libc (
    rc ← call (sys_setenv (c_str key) (c_str value) overwrite);
    if rc =? -1 then code ← gets errno; mret (false, code) else mret (true, se)))).

End operations.
End Env.

(** ** Lemmas on entries *)

Definition entry (p : str * str) : str := p.1 ++ "="%char :: p.2.

(** Keys that name a variable: not empty, no "=", no NUL. *)
Definition key_ok (k : str) : Prop := bad_name k = false ∧ Ascii.zero ∉ k.

#[export] Instance key_ok_dec k : Decision (key_ok k).
Proof. unfold key_ok. apply _. Defined.

Lemma strip_Some name e v : strip name e = Some v ↔ e = (name ++ "="%char :: v).
Proof.
  revert e. induction name as [|n name IH]; intros [|c e]; simpl; try (by split).
  - case_bool_decide; naive_solver.
  - case_bool_decide; [subst; rewrite IH|]; naive_solver.
Qed.

Lemma key_ok_inv k : key_ok k → k ≠ [] ∧ ("="%char ∉ k) ∧ c_str k = k.
Proof.
  intros [Hb Hz]. unfold bad_name in Hb. apply bool_decide_eq_false in Hb.
  split_and!; [tauto|tauto|by apply c_str_id].
Qed.

(** Two entries with the same text up to the first "=" have the same key. *)
Lemma entry_inj k v k' v' :
  "="%char ∉ k → "="%char ∉ k' → entry (k, v) = entry (k', v') → k = k' ∧ v = v'.
Proof.
  unfold entry; simpl. revert k'. induction k as [|c k IH]; intros [|c' k'] Hk Hk'; simpl; intros H; simplify_eq.
  - done.
  - set_solver.
  - set_solver.
  - destruct (IH k') as [-> ->]; [set_solver..|done|done].
Qed.

Lemma find_env_entries k v ps :
  "="%char ∉ k → Forall (λ p, "="%char ∉ p.1) ps → NoDup ps.*1 → (k, v) ∈ ps →
  find_env k (entry <$> ps) = Some v.
Proof.
  intros Hk Hps. induction ps as [|[k' v'] ps IH]; intros Hd Hin; [set_solver|].
  apply Forall_cons in Hps as [Hk' Hps]. simpl in *. apply NoDup_cons in Hd as [Hn Hd].
  apply elem_of_cons in Hin as [[= <- <-]|Hin].
  - by rewrite (proj2 (strip_Some k (entry (k, v)) v) eq_refl).
  - destruct (strip k (entry (k', v'))) as [u|] eqn:Es; [|by apply IH].
    apply strip_Some in Es. change (k ++ "="%char :: u) with (entry (k, u)) in Es.
    apply entry_inj in Es as [-> ->]; [|done..]. exfalso. apply Hn.
    apply list_elem_of_fmap. by exists (k, v).
Qed.

Lemma find_env_absent k ps :
  "="%char ∉ k → Forall (λ p, "="%char ∉ p.1) ps → k ∉ ps.*1 → find_env k (entry <$> ps) = None.
Proof.
  intros Hk Hps. induction ps as [|[k' v'] ps IH]; intros Hn; [done|].
  apply Forall_cons in Hps as [Hk' Hps]. simpl in *. apply not_elem_of_cons in Hn as [Hne Hn].
  destruct (strip k (entry (k', v'))) as [u|] eqn:Es; [|by apply IH].
  apply strip_Some in Es. change (k ++ "="%char :: u) with (entry (k, u)) in Es.
  apply entry_inj in Es as [-> _]; done.
Qed.

(** How the loop takes an entry apart. *)
Lemma split_entry k v :
  "="%char ∉ k → addressable (entry (k, v)) →
  substr 0 (find_first_of "=" (entry (k, v))) (entry (k, v)) = Ok k ∧
  substr (u64 (find_first_of "=" (entry (k, v)) + 1)) npos (entry (k, v)) = Ok v.
Proof.
  intros Hk Ha. unfold entry in *; simpl in *. unfold addressable in Ha.
  rewrite slen_app, slen_cons in Ha. pose proof (slen_nonneg k). pose proof (slen_nonneg v).
  rewrite find_first_of_app by done. split; [exact (substr_middle [] k ("="%char :: v))|].
  rewrite uwrap_small by lia. replace (slen k + 1) with (slen (k ++ ["="%char])) by (by rewrite slen_app).
  replace (k ++ "="%char :: v) with ((k ++ ["="%char]) ++ v) by (by rewrite <- app_assoc).
  apply substr_rest. unfold npos. lia.
Qed.

Section environment.
Context {W : Type} {E : Errno W} {K : EnvKernel W}.
Implicit Types (s : Env.state W) (w : W).

(** The environment as a map from names to values. *)
Definition view s (k : str) : option str := getenv k (Env.lib s).

Lemma get_spec k d s :
  Env.env_guard s = false → key_ok k → Env.get k d s = (Ok (default d (view s k)), s).
Proof.
  destruct s as [w []]; simpl; intros; [done|].
  destruct (key_ok_inv k) as (_ & _ & Hc); [done|].
  cbv [Env.get Env.noexcept try_catch Env.guarded finally gets mbind M_bind mret M_ret view]. simpl.
  rewrite Hc. by destruct (getenv k w).
Qed.

(** What a guarded call of the C library amounts to. *)
Lemma guarded_libc {A} (m : M W A) s :
  Env.env_guard s = false → (m (Env.lib s)).1 ≠ Undefined →
  Env.guarded (Env.libc m) s = ((m (Env.lib s)).1, Env.mkState (m (Env.lib s)).2 false).
Proof.
  destruct s as [w []]; simpl; intros Hg Hm; [done|].
  unfold Env.guarded, Env.libc, finally, zoom. simpl. by destruct (m w) as [[]].
Qed.

(** A functor that does its work on the C library's side of the state. *)
Definition visitor (f : str → str → W → W) (k v : str) : M (Env.state W) unit :=
  modify (λ s, Env.mkState (f k v (Env.lib s)) (Env.env_guard s)).

Lemma for_each_loop_spec f all ps s :
  (∀ k v w, environ (f k v w) = environ w) →
  Forall (λ p, ("="%char ∉ p.1) ∧ addressable (entry p)) ps →
  environ (Env.lib s) = Some all →
  Env.for_each_loop all (entry <$> ps) (visitor f) s =
    (Ok tt, Env.mkState (foldl (λ w p, f p.1 p.2 w) (Env.lib s) ps) (Env.env_guard s)).
Proof.
  intros Hf Hps. revert s. induction ps as [|[k v] ps IH]; intros s He; [by destruct s|].
  apply Forall_cons in Hps as [[Hk Ha] Hps]. destruct (split_entry k v Hk Ha) as [E1 E2].
  rewrite fmap_cons. cbn [Env.for_each_loop].
  unfold mbind at 1, M_bind, Env.lift_outcome. rewrite E1. cbv beta match.
  unfold mbind at 1, M_bind. rewrite E2. cbv beta match.
  unfold mbind, M_bind, gets. unfold visitor at 1, modify. cbv beta match.
  rewrite bool_decide_true by (simpl; by rewrite Hf). rewrite IH; [done|done|]. simpl. by rewrite Hf.
Qed.

Lemma for_each_visits f ps s :
  Env.env_guard s = false →
  environ (Env.lib s) = Some (entry <$> ps) →
  Forall (λ p, key_ok p.1 ∧ addressable (entry p)) ps →
  (∀ k v w, environ (f k v w) = environ w) →
  Env.for_each (visitor f) s =
    (Ok tt, Env.mkState (foldl (λ w p, f p.1 p.2 w) (Env.lib s) ps) false).
Proof.
  intros Hg He Hps Hf. destruct s as [w g]; simpl in *; subst g.
  cbv [Env.for_each Env.noexcept try_catch Env.guarded finally gets]. unfold mbind, M_bind. simpl.
  rewrite He, for_each_loop_spec; [done|done| |done].
  eapply Forall_impl; [exact Hps|]. intros p [H1 H2]. by apply key_ok_inv in H1 as (_ & ? & _).
Qed.

(** [for_each] calls the functor once per variable, in the order of the
    environment array, with the name and the value [getenv] gives for that name, and
    releases the lock. *)
Theorem env_for_each f d ps s :
  Env.env_guard s = false →
  environ (Env.lib s) = Some (entry <$> ps) →
  Forall (λ p, key_ok p.1 ∧ addressable (entry p)) ps → NoDup ps.*1 →
  (∀ k v w, environ (f k v w) = environ w) →
  Env.for_each (visitor f) s =
    (Ok tt, Env.mkState (foldl (λ w p, f p.1 p.2 w) (Env.lib s) ps) false) ∧
  ∀ k v, (k, v) ∈ ps → Env.get k d s = (Ok v, s).
Proof.
  intros Hg He Hps Hd Hf. split; [by apply for_each_visits|].
  intros k v Hin. rewrite Forall_forall in Hps. destruct (Hps _ Hin) as [Hk _].
  rewrite get_spec by done. unfold view, getenv. rewrite He. simpl.
  destruct (key_ok_inv k Hk) as (Hne & Heq & _). destruct k as [|c k]; [done|].
  rewrite (find_env_entries _ v); [done|done| |done|done].
  apply Forall_forall. intros p Hp. destruct (Hps _ Hp) as [H1 _]. by apply key_ok_inv in H1 as (_ & ? & _).
Qed.

(** The throwing and the error-code variants of [set] and [unset] do the same:
    where the one returns, the other returns true and leaves the error code alone;
    where the one throws std::system_error, the other returns false with that code. *)
Theorem env_variants_agree key value se s :
  (match Env.set_or_throw key value s with
   | (Ok _, s') => Env.set key value se s = (Ok (true, se), s')
   | (Throw x, s') => ∃ c, x = SystemError c ∧ Env.set key value se s = (Ok (false, c), s')
   | (Undefined, s') => Env.set key value se s = (Undefined, s')
   end) ∧
  (match Env.unset_or_throw key s with
   | (Ok _, s') => Env.unset key se s = (Ok (true, se), s')
   | (Throw x, s') => ∃ c, x = SystemError c ∧ Env.unset key se s = (Ok (false, c), s')
   | (Undefined, s') => Env.unset key se s = (Undefined, s')
   end).
Proof.
  destruct s as [w []]; [done|].
  cbv [Env.set_or_throw Env.set Env.unset_or_throw Env.unset Env.noexcept try_catch Env.guarded finally
       Env.libc zoom mbind M_bind call check_rc throw_errno gets mret M_ret]. simpl.
  split.
  - destruct (sys_setenv _ _ _ w) as [rc w']. case_Zeqb; [by eexists|done].
  - destruct (sys_unsetenv _ w) as [rc w']. case_Zeqb; [by eexists|done].
Qed.

(** A functor that calls back into the environment functions locks [env_guard]
    a second time: [for_each] over a non-empty environment is undefined then. *)
Theorem env_for_each_not_reentrant key d line l s :
  Env.env_guard s = false → environ (Env.lib s) = Some (line :: l) → addressable line →
  (Env.for_each (λ _ _, v ← Env.get key d; mret tt) s).1 = Undefined.
Proof.
  destruct s as [w g]; simpl. intros -> He Ha.
  cbv [Env.for_each Env.noexcept try_catch Env.guarded finally gets]. unfold mbind at 1, M_bind. simpl.
  rewrite He. cbn [Env.for_each_loop]. unfold addressable in Ha. pose proof (slen_nonneg line).
  assert (∃ k, substr 0 (find_first_of "=" line) line = Ok k) as [k Ek].
  { unfold substr. destruct (Z.ltb_spec (slen line) 0); [lia|eauto]. }
  assert (∃ v, substr (u64 (find_first_of "=" line + 1)) npos line = Ok v) as [v Ev].
  { destruct (find_first_of_bounds "=" line) as [->|Hb].
    - replace (u64 (npos + 1)) with 0 by done. unfold substr. destruct (Z.ltb_spec (slen line) 0); [lia|eauto].
    - rewrite uwrap_small by lia. unfold substr.
      destruct (Z.ltb_spec (slen line) (find_first_of "=" line + 1)); [lia|eauto]. }
  unfold mbind at 1, M_bind, Env.lift_outcome. rewrite Ek. cbv beta match.
  unfold mbind at 1, M_bind. by rewrite Ev.
Qed.

Context {L : EnvLaws W}.

(** After a successful [set_or_throw] the variable has the new value if it was not
    defined before and keeps its old value otherwise ([overwrite] is 0); every other
    variable is unchanged, and [get] sees all of it. *)
Theorem env_set_get key value s s' :
  key_ok key → Env.set_or_throw key value s = (Ok tt, s') →
  Env.env_guard s' = false ∧
  ∀ k d, key_ok k →
    Env.get k d s' =
      (Ok (if decide (k = key) then default (c_str value) (view s key) else default d (view s k)), s').
Proof.
  intros Hk. destruct s as [w []]; [done|]. unfold Env.set_or_throw.
  destruct (key_ok_inv key Hk) as (_ & _ & ->).
  cbv [Env.guarded finally Env.libc zoom mbind M_bind call check_rc throw_errno]. simpl.
  destruct (sys_setenv key (c_str value) Env.overwrite w) as [rc w'] eqn:Es.
  case_Zeqb; [done|]. intros [= <-]. split; [done|].
  apply setenv_law in Es as [_ [[-> _]|(-> & Hkeep & Hnew)]]; [done|].
  intros k d Hkk. rewrite get_spec by done. do 2 f_equal. unfold view; simpl.
  destruct (getenv key w) as [v|] eqn:Eg.
  - assert (environ w' = environ w) as He by (apply Hkeep; [done|by eexists]).
    assert (∀ n, getenv n w' = getenv n w) as -> by (intros n; unfold getenv; by rewrite He).
    case_decide; [subst; by rewrite Eg|done].
  - rewrite Hnew; [|by right|apply Hkk]. by case_decide.
Qed.

(** After a successful [unset_or_throw] the variable is gone ([get_or_throw] throws
    std::runtime_error naming it) and every other variable is unchanged. *)
Theorem env_unset_get key s s' :
  key_ok key → Env.unset_or_throw key s = (Ok tt, s') →
  Env.get_or_throw key s' = (Throw (Env.not_defined key), s') ∧
  ∀ k d, key_ok k → k ≠ key → Env.get k d s' = (Ok (default d (view s k)), s').
Proof.
  intros Hk. destruct s as [w []]; [done|]. unfold Env.unset_or_throw.
  destruct (key_ok_inv key Hk) as (_ & _ & Hc). rewrite Hc.
  cbv [Env.guarded finally Env.libc zoom mbind M_bind call check_rc throw_errno]. simpl.
  destruct (sys_unsetenv key w) as [rc w'] eqn:Es.
  case_Zeqb; [done|]. intros [= <-].
  apply unsetenv_law in Es as [_ [[-> _]|(-> & Hnew)]]; [done|]. split.
  - cbv [Env.get_or_throw Env.guarded finally gets mbind M_bind]. simpl. rewrite Hc.
    rewrite Hnew by apply Hk. by rewrite decide_True.
  - intros k d Hkk Hne. rewrite get_spec by done. unfold view; simpl.
    rewrite Hnew by apply Hkk. by rewrite decide_False.
Qed.

(** A key that is empty or contains "=" is refused: [set_or_throw] and
    [unset_or_throw] throw EINVAL, release the lock and leave the environment array as
    it was. *)
Theorem env_bad_key key value s :
  Env.env_guard s = false → bad_name key = true → Ascii.zero ∉ key →
  let refused (s' : Env.state W) := environ (Env.lib s') = environ (Env.lib s) ∧ Env.env_guard s' = false in
  (∃ s', Env.set_or_throw key value s = (Throw (SystemError EINVAL), s') ∧ refused s') ∧
  (∃ s', Env.unset_or_throw key s = (Throw (SystemError EINVAL), s') ∧ refused s').
Proof.
  destruct s as [w g]; simpl. intros -> Hb Hz.
  cbv [Env.set_or_throw Env.unset_or_throw Env.guarded finally Env.libc zoom mbind M_bind call check_rc
       throw_errno]. simpl. rewrite (c_str_id key Hz). split.
  - destruct (sys_setenv _ _ _ w) as [rc w'] eqn:Es. apply setenv_law in Es as [He Hw].
    destruct He as [-> He]; [done|]. simpl. rewrite He. eexists. split; [done|].
    by destruct Hw as [[_ ?]|[? _]].
  - destruct (sys_unsetenv _ w) as [rc w'] eqn:Es. apply unsetenv_law in Es as [He Hw].
    destruct He as [-> He]; [done|]. simpl. rewrite He. eexists. split; [done|].
    by destruct Hw as [[_ ?]|[? _]].
Qed.
End environment.

(** ** An executable environment *)

Module RefEnv.

(** The array, errno, and a log for functors to write to. *)
Record t : Type := mk { vars : list str; err : Z; seen : list (str * str) }.

Definition remove (name : str) (l : list str) : list str := filter (λ e, strip name e = None) l.

Definition setenv (name value : str) (overwrite : Z) (w : t) : Z * t :=
  if bad_name name then (-1, mk (vars w) EINVAL (seen w))
  else match find_env name (vars w), overwrite with
       | Some _, 0 => (0, w)
       | _, _ => (0, mk (remove name (vars w) ++ [entry (name, value)]) (err w) (seen w))
       end.

Definition unsetenv (name : str) (w : t) : Z * t :=
  if bad_name name then (-1, mk (vars w) EINVAL (seen w))
  else (0, mk (remove name (vars w)) (err w) (seen w)).

#[global] Instance errno_env : Errno t := err.

#[global] Instance env_kernel : EnvKernel t := {|
  environ := λ w, Some (vars w); sys_setenv := setenv; sys_unsetenv := unsetenv |}.

Lemma find_env_app n l1 l2 :
  find_env n (l1 ++ l2) = match find_env n l1 with Some v => Some v | None => find_env n l2 end.
Proof. induction l1 as [|e l1 IH]; simpl; [done|]. by destruct (strip n e). Qed.

Lemma find_env_remove n name l :
  bad_name n = false → bad_name name = false →
  find_env n (remove name l) = if decide (n = name) then None else find_env n l.
Proof.
  intros Hn Hname. unfold bad_name in *. apply bool_decide_eq_false in Hn, Hname.
  induction l as [|e l IH]; [by case_decide|]. unfold remove in *. rewrite filter_cons.
  destruct (strip name e) as [u|] eqn:Es.
  - rewrite decide_False by done. rewrite IH. case_decide; [done|]. simpl.
    destruct (strip n e) as [v|] eqn:En; [|done]. exfalso.
    apply strip_Some in Es, En. subst e. apply (entry_inj name u n v) in En as [-> _]; tauto.
  - rewrite decide_True by done. simpl. rewrite IH. case_decide; [subst; by rewrite Es|done].
Qed.

#[global] Instance env_laws : EnvLaws t.
Proof.
  assert (∀ n w, bad_name n = false → getenv n w = find_env n (vars w)) as Hget.
  { intros n w Hn. unfold getenv. by destruct n. }
  split.
  - intros name value ov w rc w'. simpl. unfold setenv.
    destruct (bad_name name) eqn:Eb; [intros [= <- <-]; split; [done|by left]|].
    set (w1 := mk (remove name (vars w) ++ [entry (name, value)]) (err w) (seen w)).
    assert (∀ n, bad_name n = false →
      getenv n w1 = if decide (n = name) then Some value else getenv n w) as Hw1.
    { intros n Hn. rewrite !Hget by done. simpl. rewrite find_env_app, find_env_remove by done.
      case_decide.
      - subst. simpl. by rewrite (proj2 (strip_Some name (entry (name, value)) value) eq_refl).
      - destruct (find_env n (vars w)); [done|]. simpl.
        destruct (strip n (entry (name, value))) as [u|] eqn:En; [|done]. exfalso.
        apply strip_Some in En. unfold bad_name in *. apply bool_decide_eq_false in Hn, Eb.
        apply (entry_inj name value n u) in En as [-> _]; tauto. }
    intros H. split; [done|]. right.
    destruct (find_env name (vars w)) as [v|] eqn:Ef; [destruct (decide (ov = 0)) as [->|]|].
    + injection H as <- <-. split_and!; [done|done|]. rewrite Hget, Ef by done. intros [|]; done.
    + assert ((rc, w') = (0, w1)) as [= -> ->] by (rewrite <- H; by destruct ov).
      split_and!; done.
    + injection H as <- <-. split_and!; [done| |done]. rewrite Hget, Ef by done. by intros _ [? ?].
  - intros name w rc w'. simpl. unfold unsetenv.
    destruct (bad_name name) eqn:Eb; intros [= <- <-]; (split; [done|]); [by left|right].
    split; [done|]. intros n Hn. rewrite !Hget by done. simpl. by apply find_env_remove.
Qed.

(** A functor that records its calls. *)
Definition record (k v : str) (w : t) : t := mk (vars w) (err w) (seen w ++ [(k, v)]).

End RefEnv.

(** ** Witnesses *)

Definition env_ex : Env.state RefEnv.t :=
  Env.mkState (RefEnv.mk [$"HOME=/root"; $"OPTS=a=b"] 0 []) false.

Lemma env_for_each_witness :
  RefEnv.seen (Env.lib (Env.for_each (visitor RefEnv.record) env_ex).2) =
    [($"HOME", $"/root"); ($"OPTS", $"a=b")].
Proof.
  destruct (env_for_each RefEnv.record [] [($"HOME", $"/root"); ($"OPTS", $"a=b")] env_ex) as [-> _];
    [reflexivity|reflexivity| | |reflexivity|reflexivity].
  - repeat constructor; by_decision.
  - by_decision.
Defined.

Lemma env_for_each_not_reentrant_witness :
  (Env.for_each (λ _ _, v ← Env.get ($"HOME") []; mret tt) env_ex).1 = Undefined.
Proof.
  apply (env_for_each_not_reentrant ($"HOME") [] ($"HOME=/root") [$"OPTS=a=b"] env_ex);
    [reflexivity|reflexivity|vm_compute; reflexivity].
Defined.

(** An existing variable keeps its value. *)
Lemma env_set_get_witness :
  (Env.get ($"HOME") [] (Env.set_or_throw ($"HOME") ($"/tmp") env_ex).2).1 = Ok ($"/root").
Proof.
  destruct (env_set_get (L := RefEnv.env_laws) ($"HOME") ($"/tmp") env_ex
    (Env.set_or_throw ($"HOME") ($"/tmp") env_ex).2) as [_ H];
    [by_decision|vm_compute; reflexivity|]. rewrite H; [reflexivity|by_decision].
Defined.

Lemma env_unset_get_witness :
  (Env.get_or_throw ($"HOME") (Env.unset_or_throw ($"HOME") env_ex).2).1 = Throw (Env.not_defined ($"HOME")).
Proof.
  destruct (env_unset_get (L := RefEnv.env_laws) ($"HOME") env_ex
    (Env.unset_or_throw ($"HOME") env_ex).2) as [H _];
    [by_decision|vm_compute; reflexivity|]. by rewrite H.
Defined.

Lemma env_bad_key_witness :
  (Env.set_or_throw ($"A=B") ($"1") env_ex).1 = Throw (SystemError 22).
Proof.
  destruct (env_bad_key (L := RefEnv.env_laws) ($"A=B") ($"1") env_ex) as [(s' & H & _) _];
    [reflexivity|vm_compute; reflexivity|by_decision|]. by rewrite H.
Defined.
