(* ===== verification/EnvSpec.v ===== *)
(** * The environment as a map

    What the functions of [core::posix::this_process::env] promise, without the C
    library's array of strings and without the mutex: a finite map from names to values.
    [vars] reads the map off the array; [env_refines_map] says that every sequence of
    calls gives results the map allows, with the map changing accordingly. *)

From S2P Require Import Prelude.
From S2P Require Import Types.
From S2P Require Import CppString.
From S2P Require Import Kernel.
From S2P Require Import Environment.

(** ** From the array to the map *)

(** Splits an entry at its first "=". *)
Fixpoint split_eq (e : str) : option (str * str) :=
  match e with
  | [] => None
  | c :: e =>
      if bool_decide (c = "="%char) then Some ([], e)
      else match split_eq e with Some (k, v) => Some (c :: k, v) | None => None end
  end.

(** The first entry for a name counts; entries without a name do not. *)
Fixpoint env_map (l : list str) : gmap str str :=
  match l with
  | [] => ∅
  | e :: l =>
      match split_eq e with
      | Some (k, v) => if bad_name k then env_map l else <[k := v]> (env_map l)
      | None => env_map l
      end
  end.

(** [strip], which getenv searches with, and [split_eq] agree. *)
Lemma strip_split n e :
  "="%char ∉ n →
  strip n e = (p ← split_eq e; if decide (p.1 = n) then Some p.2 else None).
Proof.
  revert n. induction e as [|c e IH]; intros [|c' n] Hn; simpl; try done.
  - case_bool_decide; simpl; [done|]. by destruct (split_eq e) as [[k v]|].
  - case_bool_decide as Hc; subst; rewrite ?IH by set_solver.
    + rewrite bool_decide_false by set_solver. destruct (split_eq e) as [[k v]|]; simpl; [|done].
      repeat case_decide; congruence.
    + case_bool_decide; simpl; [done|]. destruct (split_eq e) as [[k v]|]; simpl; [|done].
      case_decide; congruence.
Qed.

Lemma lookup_env_map n l :
  env_map l !! n = if bad_name n then None else find_env n l.
Proof.
  induction l as [|e l IH]; simpl; [rewrite lookup_empty; by destruct (bad_name n)|].
  destruct (bad_name n) eqn:Hn.
  - destruct (split_eq e) as [[k v]|]; [|done]. destruct (bad_name k) eqn:Hk; [done|].
    rewrite lookup_insert_ne; [done|]. congruence.
  - rewrite strip_split by (unfold bad_name in Hn; apply bool_decide_eq_false in Hn; tauto).
    destruct (split_eq e) as [[k v]|]; simpl; [|done].
    destruct (decide (k = n)) as [->|Hne].
    + rewrite Hn. by rewrite lookup_insert_eq.
    + destruct (bad_name k); [done|]. by rewrite lookup_insert_ne.
Qed.

(** ** The specification *)

Module MapEnv.

(** The calls; those with an error code carry the caller's. *)
Inductive op : Type :=
| Get (key default_value : str)
| GetOrThrow (key : str)
| SetOrThrow (key value : str)
| Set_ (key value : str) (se : Z)
| UnsetOrThrow (key : str)
| Unset (key : str) (se : Z).

(** What they give back: a value, nothing, or success with the error code. *)
Inductive response : Type := Value (v : str) | Done | Flag (b : bool) (se : Z).

(** An existing variable keeps its value. *)
Definition put (k v : str) (m : gmap str str) : gmap str str :=
  match m !! k with Some _ => m | None => <[k := v]> m end.

(** Changing calls may fail with some error, and do with EINVAL when the name is bad; the
    map is unchanged then. *)
Inductive changes (k : str) (f : gmap str str → gmap str str) : gmap str str → option Z → gmap str str → Prop :=
| change_done m : bad_name k = false → changes k f m None (f m)
| change_refused m e : (bad_name k = true → e = EINVAL) → changes k f m (Some e) m.

Definition thrown (e : option Z) : outcome response :=
  match e with None => Ok Done | Some c => Throw (SystemError c) end.
Definition flagged (se : Z) (e : option Z) : outcome response :=
  match e with None => Ok (Flag true se) | Some c => Ok (Flag false c) end.

Inductive step : gmap str str → op → outcome response → gmap str str → Prop :=
| spec_get m k d : step m (Get k d) (Ok (Value (default d (m !! k)))) m
| spec_get_or_throw m k :
    step m (GetOrThrow k)
      (match m !! k with Some v => Ok (Value v) | None => Throw (Env.not_defined k) end) m
| spec_set_or_throw m k v e m' :
    changes k (put k (c_str v)) m e m' → step m (SetOrThrow k v) (thrown e) m'
| spec_set m k v se e m' :
    changes k (put k (c_str v)) m e m' → step m (Set_ k v se) (flagged se e) m'
| spec_unset_or_throw m k e m' :
    changes k (delete k) m e m' → step m (UnsetOrThrow k) (thrown e) m'
| spec_unset m k se e m' :
    changes k (delete k) m e m' → step m (Unset k se) (flagged se e) m'.

Inductive steps : gmap str str → list op → list (outcome response) → gmap str str → Prop :=
| steps_nil m : steps m [] [] m
| steps_cons m o r m1 os rs m' :
    step m o r m1 → steps m1 os rs m' → steps m (o :: os) (r :: rs) m'.

(** Names are C strings; looking one up needs a proper name. *)
Definition op_ok (o : op) : bool :=
  match o with
  | Get k _ | GetOrThrow k => bool_decide (key_ok k)
  | SetOrThrow k _ | Set_ k _ _ | UnsetOrThrow k | Unset k _ => bool_decide (Ascii.zero ∉ k)
  end.

End MapEnv.

(** ** The implementation *)

Section refinement.
Context {W : Type} {E : Errno W} {K : EnvKernel W} {L : EnvLaws W}.
Implicit Types (s : Env.state W) (w : W).

Definition wrap {A} (f : A → MapEnv.response) (m : M (Env.state W) A) : M (Env.state W) MapEnv.response :=
  a ← m; mret (f a).

(** The function a call runs. *)
Definition perform (o : MapEnv.op) : M (Env.state W) MapEnv.response :=
  match o with
  | MapEnv.Get k d => wrap MapEnv.Value (Env.get k d)
  | MapEnv.GetOrThrow k => wrap MapEnv.Value (Env.get_or_throw k)
  | MapEnv.SetOrThrow k v => wrap (λ _, MapEnv.Done) (Env.set_or_throw k v)
  | MapEnv.Set_ k v se => wrap (λ r, MapEnv.Flag r.1 r.2) (Env.set k v se)
  | MapEnv.UnsetOrThrow k => wrap (λ _, MapEnv.Done) (Env.unset_or_throw k)
  | MapEnv.Unset k se => wrap (λ r, MapEnv.Flag r.1 r.2) (Env.unset k se)
  end.

(** A client that makes the calls one after the other and catches what they throw. *)
Fixpoint perform_all (os : list MapEnv.op) (s : Env.state W) : list (outcome MapEnv.response) * Env.state W :=
  match os with
  | [] => ([], s)
  | o :: os =>
      let '(r, s1) := perform o s in
      let '(rs, s') := perform_all os s1 in (r :: rs, s')
  end.

Definition vars s : gmap str str := env_map (default [] (environ (Env.lib s))).

Lemma vars_lookup s k : bad_name k = false → vars s !! k = getenv k (Env.lib s).
Proof.
  intros Hk. unfold vars, getenv. rewrite lookup_env_map, Hk.
  destruct k; [by apply bool_decide_eq_false in Hk; naive_solver|done].
Qed.

Lemma vars_bad s k : bad_name k = true → vars s !! k = None.
Proof. intros Hk. unfold vars. by rewrite lookup_env_map, Hk. Qed.

(** setenv without overwriting, and unsetenv, on the map. *)
Lemma setenv_map key value w rc w' g g' :
  sys_setenv key value Env.overwrite w = (rc, w') →
  MapEnv.changes key (MapEnv.put key value) (vars (Env.mkState w g))
    (if rc =? -1 then Some (errno w') else None) (vars (Env.mkState w' g')).
Proof.
  intros [He [[-> Hw]|(-> & Hkeep & Hnew)]]%setenv_law; simpl.
  - unfold vars. simpl. rewrite Hw. constructor. intros Hb. by destruct (He Hb).
  - destruct (bad_name key) eqn:Hb; [by destruct (He eq_refl)|].
    replace (vars (Env.mkState w' g')) with (MapEnv.put key value (vars (Env.mkState w g))); [by constructor|].
    unfold MapEnv.put. rewrite vars_lookup by done. simpl. destruct (getenv key w) as [v|] eqn:Eg.
    + unfold vars. simpl. by rewrite Hkeep.
    + apply map_eq. intros n. destruct (bad_name n) eqn:Hn.
      * rewrite lookup_insert_ne by congruence. by rewrite !vars_bad.
      * rewrite lookup_insert, !vars_lookup by done. simpl. rewrite Hnew by (by right || done).
        by repeat case_decide.
Qed.

Lemma unsetenv_map key w rc w' g g' :
  sys_unsetenv key w = (rc, w') →
  MapEnv.changes key (delete key) (vars (Env.mkState w g))
    (if rc =? -1 then Some (errno w') else None) (vars (Env.mkState w' g')).
Proof.
  intros [He [[-> Hw]|(-> & Hnew)]]%unsetenv_law; simpl.
  - unfold vars. simpl. rewrite Hw. constructor. intros Hb. by destruct (He Hb).
  - destruct (bad_name key) eqn:Hb; [by destruct (He eq_refl)|].
    replace (vars (Env.mkState w' g')) with (delete key (vars (Env.mkState w g))); [by constructor|].
    apply map_eq. intros n. destruct (bad_name n) eqn:Hn.
    + rewrite lookup_delete_ne by congruence. by rewrite !vars_bad.
    + rewrite lookup_delete, !vars_lookup by done. simpl. rewrite Hnew by done. by repeat case_decide.
Qed.

Lemma perform_refines o s r s' :
  Env.env_guard s = false → MapEnv.op_ok o = true → perform o s = (r, s') →
  Env.env_guard s' = false ∧ MapEnv.step (vars s) o r (vars s').
Proof.
  destruct s as [w g]. intros Hg Hok. simpl in Hg. subst g.
  destruct o as [k d|k|k v|k v se|k|k se]; simpl in Hok; apply bool_decide_eq_true in Hok; unfold perform, wrap.
  - unfold mbind, M_bind. rewrite get_spec by done. intros [= <- <-]. split; [done|].
    unfold view. rewrite <- vars_lookup by apply Hok. constructor.
  - cbv [Env.get_or_throw Env.guarded finally gets mbind M_bind mret M_ret]. simpl.
    destruct (key_ok_inv k Hok) as (_ & _ & ->). destruct Hok as [Hb _].
    pose proof (vars_lookup (Env.mkState w false) k Hb) as Hv. simpl in Hv.
    pose proof (MapEnv.spec_get_or_throw (vars (Env.mkState w false)) k) as Hspec. rewrite Hv in Hspec.
    destruct (getenv k w); intros [= <- <-]; done.
  - cbv [Env.set_or_throw Env.guarded finally Env.libc zoom mbind M_bind call check_rc throw_errno mret M_ret]. simpl.
    rewrite (c_str_id k) by done. destruct (sys_setenv k (c_str v) Env.overwrite w) as [rc w'] eqn:Es.
    pose proof (MapEnv.spec_set_or_throw _ _ _ _ _ (setenv_map _ _ _ _ _ false false Es)) as Hspec.
    destruct (rc =? -1); intros [= <- <-]; done.
  - cbv [Env.set Env.noexcept try_catch Env.guarded finally Env.libc zoom mbind M_bind call gets mret M_ret]. simpl.
    rewrite (c_str_id k) by done. destruct (sys_setenv k (c_str v) Env.overwrite w) as [rc w'] eqn:Es.
    pose proof (MapEnv.spec_set _ _ _ se _ _ (setenv_map _ _ _ _ _ false false Es)) as Hspec.
    destruct (rc =? -1); intros [= <- <-]; done.
  - cbv [Env.unset_or_throw Env.guarded finally Env.libc zoom mbind M_bind call check_rc throw_errno mret M_ret]. simpl.
    rewrite (c_str_id k) by done. destruct (sys_unsetenv k w) as [rc w'] eqn:Es.
    pose proof (MapEnv.spec_unset_or_throw _ _ _ _ (unsetenv_map _ _ _ _ false false Es)) as Hspec.
    destruct (rc =? -1); intros [= <- <-]; done.
  - cbv [Env.unset Env.noexcept try_catch Env.guarded finally Env.libc zoom mbind M_bind call gets mret M_ret]. simpl.
    rewrite (c_str_id k) by done. destruct (sys_unsetenv k w) as [rc w'] eqn:Es.
    pose proof (MapEnv.spec_unset _ _ se _ _ (unsetenv_map _ _ _ _ false false Es)) as Hspec.
    destruct (rc =? -1); intros [= <- <-]; done.
Qed.

Lemma perform_all_refines os s rs s' :
  Env.env_guard s = false → forallb MapEnv.op_ok os = true → perform_all os s = (rs, s') →
  Env.env_guard s' = false ∧ MapEnv.steps (vars s) os rs (vars s').
Proof.
  revert s rs s'. induction os as [|o os IH]; simpl; intros s rs s' Hg Hok.
  - intros [= <- <-]. split; [done|constructor].
  - apply andb_true_iff in Hok as [Ho Hos]. destruct (perform o s) as [r s1] eqn:Ep.
    destruct (perform_refines o s r s1 Hg Ho Ep) as [Hg1 Hs1].
    destruct (perform_all os s1) as [rs1 s2] eqn:Ea. intros [= <- <-].
    destruct (IH s1 rs1 s2 Hg1 Hos Ea) as [Hg2 Hs2]. split; [done|by econstructor].
Qed.

(** C12: any sequence of calls of the accessors (throwing or with an error code, failing or
    not, names that setenv refuses included) behaves like the same calls on a finite map
    from names to values, in which setting a variable that exists changes nothing, and
    leaves the mutex free. *)
Theorem env_refines_map os s rs s' :
  Env.env_guard s = false → forallb MapEnv.op_ok os = true → perform_all os s = (rs, s') →
  Env.env_guard s' = false ∧ MapEnv.steps (vars s) os rs (vars s').
Proof. apply perform_all_refines. Qed.
End refinement.

(** ** Witness *)

(** Setting a variable twice, looking it up, unsetting it, and a bad name. *)
Definition env_calls_ex : list MapEnv.op :=
  [MapEnv.SetOrThrow ($"A") ($"1"); MapEnv.Set_ ($"A") ($"2") 0; MapEnv.Get ($"A") []; MapEnv.UnsetOrThrow ($"A");
   MapEnv.GetOrThrow ($"A"); MapEnv.Unset ($"A=B") 0].

Lemma env_refines_map_witness :
  MapEnv.steps (vars env_ex) env_calls_ex
    [Ok MapEnv.Done; Ok (MapEnv.Flag true 0); Ok (MapEnv.Value ($"1")); Ok MapEnv.Done;
     Throw (Env.not_defined ($"A")); Ok (MapEnv.Flag false 22)]
    (vars (perform_all env_calls_ex env_ex).2).
Proof.
  refine (proj2 (env_refines_map (L := RefEnv.env_laws) env_calls_ex env_ex _ _ eq_refl _ _));
    vm_compute; reflexivity.
Defined.
