(* ===== verification/EnvThreads.v ===== *)
(** * The environment accessors called from several threads

    Every accessor of [core::posix::this_process::env] ([src/core/posix/this_process.cpp])
    takes the mutex [env_guard] for its whole body.  Here the calls of several threads are
    interleaved at the points where the body touches the process: taking the mutex, the
    call of the C library, reading what it left behind (the string getenv points to, which
    setenv may move, and errno), and giving the mutex back.  Each call takes effect at one
    point between its start and its return: the history in the order of these points is a
    sequential execution of the definitions of [Environment], and so of the map of
    [EnvSpec]. *)

From S2P Require Import Prelude.
From S2P Require Import Types.
From S2P Require Import CppString.
From S2P Require Import Kernel.
From S2P Require Import Environment.
From S2P Require Import EnvSpec.

Module EnvThreads.

(** Where a call is. *)
Inductive phase : Type :=
| Calling                                  (* before the lock_guard *)
| Entered                                  (* the mutex is taken *)
| Found (p : option nat)                   (* getenv has returned *)
| Called (rc : Z)                          (* setenv or unsetenv has returned *)
| Leaving (r : outcome MapEnv.response)    (* before the mutex is given back *)
| Returned (r : outcome MapEnv.response).

(** The calls so far by number, who has the mutex, the process, and the calls that have
    returned, in the order in which they gave the mutex back. *)
Record config (W : Type) : Type := mk {
  calls : gmap nat (MapEnv.op * phase);
  owner : option nat;
  world : W;
  history : list (nat * MapEnv.op * outcome MapEnv.response) }.
Arguments mk {W} _ _ _ _.
Arguments calls {W} _.
Arguments owner {W} _.
Arguments world {W} _.
Arguments history {W} _.

(** getenv(3) returns a pointer into the array: the entry it found. *)
Fixpoint find_at (name : str) (l : list str) : option nat :=
  match l with
  | [] => None
  | e :: l => match strip name e with Some _ => Some 0%nat | None => S <$> find_at name l end
  end.

Section steps.
Context {W : Type} {E : Errno W} {K : EnvKernel W}.

Definition getenv_at (name : str) (w : W) : option nat :=
  match name with [] => None | _ => find_at name (default [] (environ w)) end.

(** The string behind the pointer, when it is read. *)
Definition read_at (name : str) (p : nat) (w : W) : option str :=
  default [] (environ w) !! p ≫= strip name.

Definition libc_call (o : MapEnv.op) (w : W) : phase * W :=
  match o with
  | MapEnv.Get k _ | MapEnv.GetOrThrow k => (Found (getenv_at (c_str k) w), w)
  | MapEnv.SetOrThrow k v | MapEnv.Set_ k v _ =>
      let '(rc, w') := sys_setenv (c_str k) (c_str v) Env.overwrite w in (Called rc, w')
  | MapEnv.UnsetOrThrow k | MapEnv.Unset k _ =>
      let '(rc, w') := sys_unsetenv (c_str k) w in (Called rc, w')
  end.

(** The rest of the body, up to the end of the lock_guard. *)
Definition answer (o : MapEnv.op) (ph : phase) (w : W) : outcome MapEnv.response :=
  match o, ph with
  | MapEnv.Get _ d, Found None => Ok (MapEnv.Value d)
  | MapEnv.GetOrThrow k, Found None => Throw (Env.not_defined k)
  | MapEnv.Get k _, Found (Some p) | MapEnv.GetOrThrow k, Found (Some p) =>
      match read_at (c_str k) p w with Some v => Ok (MapEnv.Value v) | None => Undefined end
  | MapEnv.SetOrThrow _ _, Called rc | MapEnv.UnsetOrThrow _, Called rc =>
      if rc =? -1 then Throw (SystemError (errno w)) else Ok MapEnv.Done
  | MapEnv.Set_ _ _ se, Called rc | MapEnv.Unset _ se, Called rc =>
      Ok (if rc =? -1 then MapEnv.Flag false (errno w) else MapEnv.Flag true se)
  | _, _ => Undefined
  end.

(** The next step of call [i]; none while somebody else has the mutex, and after the end. *)
Definition advance (i : nat) (o : MapEnv.op) (ph : phase) (c : config W) : option (config W) :=
  let to ph' own w h := Some (mk (<[i := (o, ph')]> (calls c)) own w h) in
  match ph with
  | Calling =>
      match owner c with
      | None => to Entered (Some i) (world c) (history c)
      | Some _ => None
      end
  | Entered => let '(ph', w') := libc_call o (world c) in to ph' (owner c) w' (history c)
  | Found _ | Called _ => to (Leaving (answer o ph (world c))) (owner c) (world c) (history c)
  | Leaving r => to (Returned r) None (world c) (history c ++ [(i, o, r)])
  | Returned _ => None
  end.

Inductive step : config W → config W → Prop :=
| step_call i o c :
    calls c !! i = None →
    step c (mk (<[i := (o, Calling)]> (calls c)) (owner c) (world c) (history c))
| step_advance i o ph c c' :
    calls c !! i = Some (o, ph) → advance i o ph c = Some c' → step c c'.

Definition start (w : W) : config W := mk ∅ None w [].

End steps.
End EnvThreads.

(** ** Lemmas *)

Lemma find_at_Some name l p :
  EnvThreads.find_at name l = Some p → ∃ v, l !! p ≫= strip name = Some v.
Proof.
  revert p. induction l as [|e l IH]; intros p; simpl; [done|].
  destruct (strip name e) as [v|] eqn:Es; [intros [= <-]; by exists v|].
  intros (q & Hq & ->)%fmap_Some. by apply IH.
Qed.

Lemma find_at_spec name l :
  find_env name l = (p ← EnvThreads.find_at name l; l !! p ≫= strip name).
Proof.
  induction l as [|e l IH]; simpl; [done|]. destruct (strip name e) as [v|] eqn:Es; [done|].
  rewrite IH. by destruct (EnvThreads.find_at name l).
Qed.

Section threads.
Context {W : Type} {E : Errno W} {K : EnvKernel W}.
Implicit Types (w : W) (c : EnvThreads.config W) (o : MapEnv.op).

(** What the pointer refers to, as long as the array is the same. *)
Lemma getenv_read name w :
  match EnvThreads.getenv_at name w with
  | Some p => ∃ v, EnvThreads.read_at name p w = Some v ∧ getenv name w = Some v
  | None => getenv name w = None
  end.
Proof.
  unfold getenv, EnvThreads.getenv_at, EnvThreads.read_at. destruct name as [|ch name]; [done|].
  rewrite find_at_spec. destruct (EnvThreads.find_at (ch :: name) _) as [p|] eqn:Ef; [|done].
  destruct (find_at_Some _ _ _ Ef) as [v Hv]. exists v. by split.
Qed.

(** A call that nobody disturbs between its steps is the sequential definition. *)
Lemma perform_steps o w :
  let '(ph, w') := EnvThreads.libc_call o w in
  perform o (Env.mkState w false) = (EnvThreads.answer o ph w', Env.mkState w' false).
Proof.
  destruct o as [k d|k|k v|k v se|k|k se]; unfold perform, wrap;
    cbv [EnvThreads.libc_call EnvThreads.answer Env.get Env.get_or_throw Env.set Env.set_or_throw Env.unset
      Env.unset_or_throw Env.noexcept try_catch Env.guarded finally Env.libc zoom mbind M_bind call check_rc
      throw_errno gets mret M_ret throw]; simpl.
  - pose proof (getenv_read (c_str k) w) as Hg. destruct (EnvThreads.getenv_at (c_str k) w) as [p|].
    + by destruct Hg as (v & -> & ->).
    + by rewrite Hg.
  - pose proof (getenv_read (c_str k) w) as Hg. destruct (EnvThreads.getenv_at (c_str k) w) as [p|].
    + by destruct Hg as (v & -> & ->).
    + by rewrite Hg.
  - destruct (sys_setenv _ _ _ w) as [rc w']. by destruct (rc =? -1).
  - destruct (sys_setenv _ _ _ w) as [rc w']. by destruct (rc =? -1).
  - destruct (sys_unsetenv _ w) as [rc w']. by destruct (rc =? -1).
  - destruct (sys_unsetenv _ w) as [rc w']. by destruct (rc =? -1).
Qed.

(** The history as a client sees it: the calls and their results. *)
Definition history_ops c : list MapEnv.op := (λ h, h.1.2) <$> EnvThreads.history c.
Definition history_results c : list (outcome MapEnv.response) := snd <$> EnvThreads.history c.

Lemma perform_all_snoc os o (s : Env.state W) rs s1 r s2 :
  perform_all os s = (rs, s1) → perform o s1 = (r, s2) →
  perform_all (os ++ [o]) s = (rs ++ [r], s2).
Proof.
  revert s rs. induction os as [|o' os IH]; intros s rs; simpl.
  - intros [= <- ->] ->. done.
  - destruct (perform o' s) as [r' s']. destruct (perform_all os s') as [rs' s''] eqn:Ea.
    intros [= <- ->] Hp. by rewrite (IH _ _ Ea Hp).
Qed.

(** ** The invariant *)

(** The call has, or does not have, the mutex. *)
Definition outside (ph : EnvThreads.phase) : bool :=
  match ph with EnvThreads.Calling | EnvThreads.Returned _ => true | _ => false end.

(** Call [o], which has the mutex and found the process in state [wb], has come to [ph] and
    made [w] of it. *)
Definition inside wb o (ph : EnvThreads.phase) w : Prop :=
  match ph with
  | EnvThreads.Entered => w = wb
  | EnvThreads.Found _ | EnvThreads.Called _ => EnvThreads.libc_call o wb = (ph, w)
  | EnvThreads.Leaving r => perform o (Env.mkState wb false) = (r, Env.mkState w false)
  | _ => False
  end.

(** [wb] is the process as the last call to give back the mutex left it. *)
Definition serial (w0 wb : W) c : Prop :=
  perform_all (history_ops c) (Env.mkState w0 false) = (history_results c, Env.mkState wb false) ∧
  match EnvThreads.owner c with
  | None => EnvThreads.world c = wb ∧ ∀ i o ph, EnvThreads.calls c !! i = Some (o, ph) → outside ph = true
  | Some i => (∃ o ph, EnvThreads.calls c !! i = Some (o, ph) ∧ inside wb o ph (EnvThreads.world c)) ∧
      ∀ j o ph, EnvThreads.calls c !! j = Some (o, ph) → j ≠ i → outside ph = true
  end.

(** Exactly the calls that have returned are in the history, each once. *)
Definition recorded c : Prop :=
  NoDup (EnvThreads.history c).*1.*1 ∧
  ∀ i o r, EnvThreads.calls c !! i = Some (o, EnvThreads.Returned r) ↔ (i, o, r) ∈ EnvThreads.history c.

Lemma inside_outside wb o ph w : inside wb o ph w → outside ph = false.
Proof. by destruct ph. Qed.

(** A call inside its critical section is the one that has the mutex. *)
Lemma serial_owner w0 wb c i o ph :
  serial w0 wb c → EnvThreads.calls c !! i = Some (o, ph) → outside ph = false →
  EnvThreads.owner c = Some i ∧ inside wb o ph (EnvThreads.world c) ∧
  ∀ j o' ph', EnvThreads.calls c !! j = Some (o', ph') → j ≠ i → outside ph' = true.
Proof.
  intros [_ Hs] Hi Ho. destruct (EnvThreads.owner c) as [k|].
  - destruct Hs as [(ok & phk & Hk & Hin) Hout]. destruct (decide (i = k)) as [->|Hne].
    + simplify_eq. auto.
    + rewrite (Hout _ _ _ Hi Hne) in Ho. done.
  - destruct Hs as [_ Hout]. rewrite (Hout _ _ _ Hi) in Ho. done.
Qed.

(** The owner goes on. *)
Lemma serial_inside w0 wb c i o ph w' :
  serial w0 wb c → EnvThreads.owner c = Some i → inside wb o ph w' →
  (∀ j o' ph', EnvThreads.calls c !! j = Some (o', ph') → j ≠ i → outside ph' = true) →
  serial w0 wb (EnvThreads.mk (<[i := (o, ph)]> (EnvThreads.calls c)) (Some i) w' (EnvThreads.history c)).
Proof.
  intros [Hall _] _ Hin Hout. split; [exact Hall|]. simpl. split.
  - exists o, ph. by rewrite lookup_insert_eq.
  - intros j o' ph' Hj Hne. rewrite lookup_insert_ne in Hj by done. by eapply Hout.
Qed.

Lemma libc_call_inside o wb ph w : EnvThreads.libc_call o wb = (ph, w) → inside wb o ph w.
Proof. destruct o; simpl; repeat case_match; intros; simplify_eq; simpl; by repeat case_match; simplify_eq. Qed.

Lemma serial_advance w0 wb c i o ph c' :
  serial w0 wb c → EnvThreads.calls c !! i = Some (o, ph) → EnvThreads.advance i o ph c = Some c' →
  ∃ wb', serial w0 wb' c'.
Proof.
  intros Hs Hi Ha. destruct (outside ph) eqn:Eo.
  - destruct ph; try done. unfold EnvThreads.advance in Ha. exists wb.
    destruct Hs as [Hall Hs]. destruct (EnvThreads.owner c); [done|]. injection Ha as <-.
    destruct Hs as [Hw Hout]. split; [exact Hall|]. simpl. split.
    + exists o, EnvThreads.Entered. by rewrite lookup_insert_eq.
    + intros j o' ph' Hj Hne. rewrite lookup_insert_ne in Hj by done. by eapply Hout.
  - destruct (serial_owner _ _ _ _ _ _ Hs Hi Eo) as (Hown & Hin & Hout).
    unfold EnvThreads.advance in Ha. destruct ph as [| |p|rc|r|r]; try done.
    + destruct (EnvThreads.libc_call o (EnvThreads.world c)) as [ph' w'] eqn:El.
      injection Ha as <-. exists wb. rewrite Hown. apply serial_inside; [done|done| |done].
      simpl in Hin. rewrite Hin in El. by apply libc_call_inside.
    + injection Ha as <-. exists wb. rewrite Hown. apply serial_inside; [done|done| |done].
      simpl in Hin |- *. pose proof (perform_steps o wb) as Hp. by rewrite Hin in Hp.
    + injection Ha as <-. exists wb. rewrite Hown. apply serial_inside; [done|done| |done].
      simpl in Hin |- *. pose proof (perform_steps o wb) as Hp. by rewrite Hin in Hp.
    + injection Ha as <-. exists (EnvThreads.world c). destruct Hs as [Hall _]. split.
      * unfold history_ops, history_results. simpl. rewrite !fmap_app. simpl.
        by eapply perform_all_snoc.
      * simpl. split; [done|]. intros j o' ph' [[_ [= _ <-]]|[Hne Hj]]%lookup_insert_Some; [done|].
        by eapply Hout.
Qed.

Lemma serial_step w0 wb c c' : serial w0 wb c → EnvThreads.step c c' → ∃ wb', serial w0 wb' c'.
Proof.
  intros Hs Hst. revert Hs. destruct Hst as [i o c0 Hi|i o ph c0 c0' Hi Ha]; intros Hs; [|by eapply serial_advance].
  exists wb.
  destruct Hs as [Hall Hs]. split; [exact Hall|]. simpl. destruct (EnvThreads.owner c0) as [k|].
  - destruct Hs as [(ok & phk & Hk & Hin) Hout]. split.
    + exists ok, phk. rewrite lookup_insert_ne by congruence. done.
    + intros j o' ph' [[_ [= _ <-]]|[_ Hj]]%lookup_insert_Some Hne; [done|by eapply Hout].
  - destruct Hs as [Hw Hout]. split; [done|].
    intros j o' ph' [[_ [= _ <-]]|[_ Hj]]%lookup_insert_Some; [done|by eapply Hout].
Qed.

(** A step other than the last of a call leaves the record alone. *)
Lemma recorded_insert c i o ph own w :
  recorded c → (∀ r, ph ≠ EnvThreads.Returned r) →
  (∀ o' r, EnvThreads.calls c !! i ≠ Some (o', EnvThreads.Returned r)) →
  recorded (EnvThreads.mk (<[i := (o, ph)]> (EnvThreads.calls c)) own w (EnvThreads.history c)).
Proof.
  intros [Hd Hr] Hph Hi. split; [done|]. simpl. intros j o' r. rewrite <- Hr, lookup_insert.
  case_decide; [subst|done]. split; [intros [= _ ->]; by destruct (Hph r)|by intros ?%Hi].
Qed.

Lemma recorded_step c c' : recorded c → EnvThreads.step c c' → recorded c'.
Proof.
  intros Hrec Hst. revert Hrec. destruct Hst as [i o c0 Hi|i o ph c0 c0' Hi Ha]; intros Hrec.
  - apply recorded_insert; [done|done|congruence].
  - unfold EnvThreads.advance in Ha. destruct ph as [| |p|rc|r|r]; [..|done].
    + destruct (EnvThreads.owner c0); [done|]. injection Ha as <-. apply recorded_insert; [done|done|congruence].
    + destruct (EnvThreads.libc_call o (EnvThreads.world c0)) as [ph' w'] eqn:El. injection Ha as <-.
      apply libc_call_inside in El. apply recorded_insert; [done|by intros r ->|congruence].
    + injection Ha as <-. apply recorded_insert; [done|done|congruence].
    + injection Ha as <-. apply recorded_insert; [done|done|congruence].
    + injection Ha as <-. destruct Hrec as [Hd Hr]. split; simpl.
      * rewrite !fmap_app. apply NoDup_app. split_and!; [done| |apply NoDup_singleton].
        intros j Hj Hj'. apply list_elem_of_singleton in Hj' as ->.
        apply list_elem_of_fmap in Hj as ([k o'] & Ek & Hj). simpl in Ek. subst k.
        apply list_elem_of_fmap in Hj as ([[k o''] r'] & Ek & Hj). simpl in Ek. simplify_eq.
        apply Hr in Hj. congruence.
      * intros j o' r'. rewrite elem_of_app, list_elem_of_singleton, <- Hr, lookup_insert.
        case_decide as Hij; [subst j|].
        -- split; [intros [= <- <-]; by right|]. intros [Hj|[= -> ->]]; [congruence|done].
        -- split; [by left|]. intros [Hj|Heq]; [done|by simplify_eq].
Qed.

Lemma history_step c c' : EnvThreads.step c c' → EnvThreads.history c `prefix_of` EnvThreads.history c'.
Proof.
  intros [i o c0 Hi|i o ph c0 c0' Hi Ha]; [done|]. unfold EnvThreads.advance in Ha.
  destruct ph; repeat case_match; simplify_eq; simpl; try done. by apply prefix_app_r.
Qed.

Lemma start_serial w0 : serial w0 w0 (EnvThreads.start w0).
Proof. split; [done|]. simpl. split; [done|]. intros i o ph. by rewrite lookup_empty. Qed.

Lemma start_recorded w0 : recorded (EnvThreads.start w0).
Proof.
  split; [constructor|]. simpl. intros i o r. rewrite lookup_empty. split; [done|by intros ?%elem_of_nil].
Qed.

(** Somebody can always go on: the call that has the mutex, or else any that waits. *)
Lemma serial_progress w0 wb c i o ph :
  serial w0 wb c → EnvThreads.calls c !! i = Some (o, ph) → (∀ r, ph ≠ EnvThreads.Returned r) →
  ∃ k ok phk c', EnvThreads.calls c !! k = Some (ok, phk) ∧ EnvThreads.advance k ok phk c = Some c'.
Proof.
  intros [_ Hs] Hi Hph. destruct (EnvThreads.owner c) as [k|] eqn:Eo.
  - destruct Hs as [(ok & phk & Hk & Hin) _]. exists k, ok, phk. unfold EnvThreads.advance.
    destruct phk; try done; try (by eexists).
    destruct (EnvThreads.libc_call ok (EnvThreads.world c)) as [ph' w']. by eexists.
  - destruct Hs as [_ Hout]. specialize (Hout i o ph Hi). exists i, o, ph. unfold EnvThreads.advance. rewrite Eo.
    destruct ph; try done; [by eexists|by destruct (Hph r)].
Qed.

Context {L : EnvLaws W}.

(** C16: the accessors of the environment can be called from any number of threads: however
    the calls interleave, each takes effect at one point between its start and its return.
    The calls that have returned, in the order of these points, and their results are a
    sequential execution, and so one of a finite map; every returned call is in this
    history once and with its result, the history only grows (a call that starts after
    another has returned comes after it), no string is read that a setenv has moved, and
    some call can always go on. *)
Theorem env_linearizable w0 c c' :
  rtc EnvThreads.step (EnvThreads.start w0) c → rtc EnvThreads.step c c' →
  EnvThreads.history c `prefix_of` EnvThreads.history c' ∧
  (NoDup (EnvThreads.history c').*1.*1 ∧
   ∀ i o r, EnvThreads.calls c' !! i = Some (o, EnvThreads.Returned r) ↔ (i, o, r) ∈ EnvThreads.history c') ∧
  (∃ wb,
    perform_all (history_ops c') (Env.mkState w0 false) = (history_results c', Env.mkState wb false) ∧
    (EnvThreads.owner c' = None → EnvThreads.world c' = wb) ∧
    (forallb MapEnv.op_ok (history_ops c') = true →
     MapEnv.steps (vars (Env.mkState w0 false)) (history_ops c') (history_results c') (vars (Env.mkState wb false)))) ∧
  (∀ i o ph, EnvThreads.calls c' !! i = Some (o, ph) → (∀ r, ph ≠ EnvThreads.Returned r) →
    ∃ k ok phk c'', EnvThreads.calls c' !! k = Some (ok, phk) ∧ EnvThreads.advance k ok phk c' = Some c'').
Proof.
  intros Hr Hr'. assert (rtc EnvThreads.step (EnvThreads.start w0) c') as Hall by by etrans.
  assert (∃ wb, serial w0 wb c') as [wb Hs].
  { pose proof (ex_intro (λ wb, serial w0 wb (EnvThreads.start w0)) w0 (start_serial w0)) as H0. clear -Hall H0 L.
    induction Hall as [|c1 c2 c3 Hst _ IH]; [done|]. destruct H0 as [wb Hs]. by eapply IH, serial_step. }
  assert (recorded c') as Hrec.
  { pose proof (start_recorded w0) as H0. clear -Hall H0. induction Hall; eauto using recorded_step. }
  split; [clear -Hr'; induction Hr' as [|c1 c2 c3 Hst _ IH]; [done|]; etrans; [by apply history_step|exact IH]|].
  split; [exact Hrec|]. split.
  - exists wb. pose proof Hs as [Hp Ho]. split_and!; [done| |].
    + intros Hn. rewrite Hn in Ho. apply Ho.
    + intros Hok. by eapply (perform_all_refines _ (Env.mkState w0 false)).
  - intros i o ph Hi Hph. by eapply serial_progress.
Qed.
End threads.

(** ** Witness *)

(** The calls take steps in the order of [js]; a call that waits for the mutex stays. *)
Fixpoint interleave {W} `{Errno W, EnvKernel W} (js : list nat) (c : EnvThreads.config W) : EnvThreads.config W :=
  match js with
  | [] => c
  | j :: js =>
      interleave js (default c ('(o, ph) ← EnvThreads.calls c !! j; EnvThreads.advance j o ph c))
  end.

Lemma interleave_steps {W} `{Errno W, EnvKernel W} js (c : EnvThreads.config W) :
  rtc EnvThreads.step c (interleave js c).
Proof.
  revert c. induction js as [|j js IH]; intros c; simpl; [done|].
  destruct (EnvThreads.calls c !! j) as [[o ph]|] eqn:Ej; simpl; [|apply IH].
  destruct (EnvThreads.advance j o ph c) as [c1|] eqn:Ea; simpl; [|apply IH].
  eapply rtc_l; [by eapply EnvThreads.step_advance|apply IH].
Qed.

(** Two calls have started; the second gets the mutex first, the first one tries in between. *)
Definition threads_ex : EnvThreads.config RefEnv.t :=
  EnvThreads.mk (<[1%nat := (MapEnv.Get ($"A") ($"no"), EnvThreads.Calling)]>
    (<[0%nat := (MapEnv.SetOrThrow ($"A") ($"1"), EnvThreads.Calling)]> ∅)) None (Env.lib env_ex) [].

Lemma threads_ex_reached : rtc EnvThreads.step (EnvThreads.start (Env.lib env_ex)) threads_ex.
Proof.
  eapply rtc_l; [by apply (EnvThreads.step_call 0 (MapEnv.SetOrThrow ($"A") ($"1")))|].
  apply rtc_once. by apply (EnvThreads.step_call 1 (MapEnv.Get ($"A") ($"no")) (EnvThreads.mk _ _ _ _)).
Qed.

Definition threads_end : EnvThreads.config RefEnv.t :=
  interleave [1; 0; 1; 0; 1; 1; 0; 0; 0; 0]%nat threads_ex.

Lemma env_linearizable_witness :
  history_results threads_end = [Ok (MapEnv.Value ($"no")); Ok MapEnv.Done] ∧
  (vars (Env.mkState (EnvThreads.world threads_end) false)) !! ($"A") = Some ($"1").
Proof.
  destruct (env_linearizable (L := RefEnv.env_laws) (Env.lib env_ex) threads_ex threads_end threads_ex_reached
    (interleave_steps _ _)) as (_ & _ & (wb & Hp & Hw & _) & _).
  rewrite (Hw ltac:(vm_compute; reflexivity)). split; [vm_compute; reflexivity|].
  assert (wb = Env.lib (perform_all (history_ops threads_end) (Env.mkState (Env.lib env_ex) false)).2) as ->
    by (rewrite Hp; reflexivity).
  vm_compute. reflexivity.
Defined.
