(* ===== verification/Exec.v ===== *)
(** * core::posix::exec

    [src/core/posix/exec.cpp]: the child of a [fork] builds the argument and
    environment arrays of C strings and calls execve.  The arrays are modelled as
    the code makes them: allocated uninitialised with a computed size, filled
    through a running pointer, terminated by a null pointer; a store past the end
    is undefined.  A [std::map] is the list of its elements in iteration order. *)

From S2P Require Import Prelude.
From S2P Require Import Types.
From S2P Require Import CppString.
From S2P Require Import Kernel.
From S2P Require Import RefKernel.
From S2P Require Import Pipe.
From S2P Require Import Backtrace.
From S2P Require Import Process.
From S2P Require Import ChildProcess.
From S2P Require Import Fork.
From S2P Require Import ForkProps.
From S2P Require Import Environment.

Module Exec.

(** One [char*] of an array. *)
Inductive slot : Type := Uninit | Null | Str (s : str).

(** An array under construction and the position of [it]. *)
Definition arr : Type := list slot * nat.

(** [*it = v;] *)
Definition store (v : slot) : M arr unit := λ a,
  if decide (a.2 < length a.1)%nat then (Ok tt, (<[a.2 := v]> a.1, a.2)) else (Undefined, a).

(** [it++;] *)
Definition advance : M arr unit := modify (λ a, (a.1, S a.2)).

(** [for (auto element : l) { *it = ::strdup(element.c_str()); it++; }] *)
Fixpoint store_all (l : list str) : M arr unit :=
  match l with
  | [] => mret tt
  | s :: l => store (Str (c_str s)) ;; advance ;; store_all l
  end.

(** [it = new char*[n]; fill] *)
Definition new_array {S} (n : nat) (fill : M arr unit) : M S (list slot) := λ s,
  match fill (replicate n Uninit, 0%nat) with
  | (Ok _, a) => (Ok a.1, s)
  | (Throw e, _) => (Throw e, s)
  | (Undefined, _) => (Undefined, s)
  end.

Definition pargv {S} (fn : str) (argv : list str) : M S (list slot) :=
  new_array (length argv + 2) (store (Str (c_str fn)) ;; advance ;; store_all argv ;; store Null).

Definition penv {S} (env : list (str * str)) : M S (list slot) :=
  new_array (length env + 1) (store_all (entry <$> env) ;; store Null).

(** What the kernel reads: the strings up to the null pointer. *)
Fixpoint c_array (a : list slot) : option (list str) :=
  match a with
  | Str s :: a => l ← c_array a; Some (s :: l)
  | Null :: _ => Some []
  | _ => None
  end.

Section exec.
Context {W : Type} {E : Errno W} {I : Pid W} {K : FdKernel W} {F : ForkKernel W} {P : ProcKernel W}.
Context {X : ExecKernel W}.
Context (what : exn → str) (cxa_demangle : str → option str * Z) (walk : W → Backtrace.walk).

(** [execve(fn.c_str(), pargv, penv)]: when it does not return, the child ends with the
    status of the new image; the caller does nothing but exit with the value. *)
Definition execve (fn : str) (pargv penv : list slot) : M (Pipe.env W) Z :=
  match c_array pargv, c_array penv with
  | Some a, Some e =>
      r ← Pipe.lift (call (sys_execve (c_str fn) a e));
      mret (match r with inl rc => rc | inr st => st end)
  | _, _ => undefined
  end.

(** The lambda handed to [fork]. *)
Definition exec_main (fn : str) (argv : list str) (env : list (str * str))
    (child_setup : M (Pipe.env W) unit) : M (Pipe.env W) Exit.Status :=
  a ← pargv fn argv;
  e ← penv env;
  child_setup ;;
  execve fn a e.

(** The overload with [child_setup]. *)
Definition exec_with_setup (fn : str) (argv : list str) (env : list (str * str))
    (flags : StandardStream.t) (child_setup : M (Pipe.env W) unit) (s : Pipe.env W) :
    Fork.forked W ChildProcess.t :=
  Fork.fork what cxa_demangle walk (exec_main fn argv env child_setup) flags s.

Definition exec (fn : str) (argv : list str) (env : list (str * str)) (flags : StandardStream.t) :
    Pipe.env W → Fork.forked W ChildProcess.t :=
  exec_with_setup fn argv env flags (mret tt).

End exec.
End Exec.

(** ** The arrays *)

Lemma store_middle (v x : Exec.slot) pre post :
  Exec.store v (pre ++ x :: post, length pre) = (Ok tt, (pre ++ v :: post, length pre)).
Proof.
  unfold Exec.store. simpl. rewrite decide_True by (rewrite length_app; simpl; lia).
  by rewrite insert_app_r_alt, Nat.sub_diag by lia.
Qed.

(** [strs l]: the cells a filling loop leaves. *)
Definition strs (l : list str) : list Exec.slot := (λ s, Exec.Str (c_str s)) <$> l.

Lemma store_all_spec l pre post :
  length post = length l → ∀ rest,
  Exec.store_all l (pre ++ post ++ rest, length pre) =
    (Ok tt, ((pre ++ strs l) ++ rest, length (pre ++ strs l))).
Proof.
  revert pre post. induction l as [|s l IH]; intros pre [|x post] Hlen rest; try done.
  { simpl. by rewrite app_nil_r. }
  cbn [Exec.store_all app]. unfold mbind at 1, M_bind. rewrite store_middle. cbv beta match.
  unfold mbind at 1, M_bind, Exec.advance, modify. cbn [fst snd].
  specialize (IH (pre ++ [Exec.Str (c_str s)]) post ltac:(by injection Hlen) rest).
  rewrite <- app_assoc in IH. cbn [app] in IH.
  replace (length (pre ++ [Exec.Str (c_str s)])) with (S (length pre)) in IH
    by (rewrite length_app; simpl; lia).
  rewrite IH. rewrite <- (app_assoc pre). done.
Qed.

Lemma c_array_strs l r : Exec.c_array (strs l ++ Exec.Null :: r) = Some (c_str <$> l).
Proof. induction l as [|s l IH]; simpl; [done|]. by rewrite IH. Qed.

Lemma pargv_spec {S} fn argv (s : S) :
  Exec.pargv fn argv s = (Ok (strs (fn :: argv) ++ [Exec.Null]), s).
Proof.
  unfold Exec.pargv, Exec.new_array. replace (length argv + 2)%nat with (1 + (length argv + 1))%nat by lia.
  rewrite !replicate_add. unfold mbind at 1, M_bind.
  match goal with |- context [(?a ++ ?b, 0%nat)] => change (a ++ b, 0%nat) with
    ([] ++ Exec.Uninit :: b, length (@nil Exec.slot)) end.
  rewrite store_middle. cbv beta match.
  unfold mbind at 1, M_bind, Exec.advance, modify. cbn [fst snd].
  unfold mbind, M_bind.
  pose proof (store_all_spec argv [Exec.Str (c_str fn)] (replicate (length argv) Exec.Uninit)
    (length_replicate _ _) [Exec.Uninit]) as H.
  cbn [app length] in *. change (replicate 1 Exec.Uninit) with [Exec.Uninit].
  rewrite H. cbv beta match. change (Exec.Str (c_str fn) :: strs argv) with (strs (fn :: argv)).
  change (Datatypes.S (length (strs argv))) with (length (strs (fn :: argv))).
  rewrite app_comm_cons.
  by rewrite store_middle.
Qed.

Lemma penv_spec {S} env (s : S) : Exec.penv env s = (Ok (strs (entry <$> env) ++ [Exec.Null]), s).
Proof.
  unfold Exec.penv, Exec.new_array. rewrite replicate_add. unfold mbind, M_bind.
  pose proof (store_all_spec (entry <$> env) [] (replicate (length env) Exec.Uninit)
    ltac:(by rewrite length_replicate, length_fmap) [Exec.Uninit]) as H.
  cbn [app length] in H. change (replicate 1 Exec.Uninit) with [Exec.Uninit]. rewrite H. cbv beta match.
  by rewrite store_middle.
Qed.

(** The environment block of the new image. *)
Definition env_block (env : list (str * str)) : list str := c_str <$> (entry <$> env).

(** Strings without NUL arrive whole. *)
Lemma env_block_entries env :
  Forall (λ p, key_ok p.1 ∧ Ascii.zero ∉ p.2) env → env_block env = entry <$> env.
Proof.
  intros Henv. unfold env_block. rewrite <- (list_fmap_id (entry <$> env)) at 2. rewrite <- !list_fmap_compose.
  apply list_fmap_ext. intros i [k' v'] Hi. simpl. apply c_str_id.
  apply list_elem_of_lookup_2 in Hi. rewrite Forall_forall in Henv.
  destruct (Henv _ Hi) as [[_ Hk] Hv]. unfold entry. simpl in *. set_solver.
Qed.

Lemma env_block_lookup env k v :
  Forall (λ p, key_ok p.1 ∧ Ascii.zero ∉ p.2) env → NoDup env.*1 → (k, v) ∈ env →
  find_env k (env_block env) = Some v.
Proof.
  intros Henv Hd Hin. rewrite env_block_entries by done. rewrite Forall_forall in Henv.
  apply find_env_entries; [|apply Forall_forall; intros p Hp|done|done].
  - destruct (Henv _ Hin) as [Hk _]. by apply key_ok_inv in Hk as (_ & ? & _).
  - destruct (Henv _ Hp) as [Hk _]. by apply key_ok_inv in Hk as (_ & ? & _).
Qed.

(** ** The child of exec *)

Section exec_properties.
Context {W : Type} {E : Errno W} {I : Pid W} {K : FdKernel W} {F : ForkKernel W} {P : ProcKernel W}.
Context {X : ExecKernel W}.
Context (what : exn → str) (cxa_demangle : str → option str * Z) (walk : W → Backtrace.walk).
Implicit Types (e : Pipe.env W) (setup : M (Pipe.env W) unit).

Lemma exec_main_eq fn argv env setup e :
  Exec.exec_main fn argv env setup e =
  match setup e with
  | (Ok _, e1) =>
      let r := sys_execve (c_str fn) (c_str <$> fn :: argv) (env_block env) (Pipe.world e1) in
      (Ok (match r.1 with inl rc => rc | inr st => st end), Pipe.mkEnv r.2 (Pipe.invalid_p e1))
  | (Throw x, e1) => (Throw x, e1)
  | (Undefined, e1) => (Undefined, e1)
  end.
Proof.
  unfold Exec.exec_main. unfold mbind at 1, M_bind. rewrite pargv_spec.
  unfold mbind at 1, M_bind. rewrite penv_spec. unfold mbind, M_bind.
  destruct (setup e) as [[[]|x|] e1]; [|done..].
  unfold Exec.execve. rewrite (c_array_strs (fn :: argv) []), (c_array_strs (entry <$> env) []).
  unfold mbind, M_bind, Pipe.lift, zoom, call. fold (env_block env).
  by destruct (sys_execve _ _ _ _) as [[]].
Qed.

(** The lambda [exec] runs in the child writes both arrays within their bounds and
    terminated, and (unless [child_setup] throws) calls execve on the file with
    argv = file, arguments... and one "key=value" string per map element, each string
    cut at its first NUL; a variable of the map is what the new image finds in its
    environment under that name. *)
Theorem exec_main_calls_execve fn argv env setup e e1 :
  setup e = (Ok tt, e1) →
  (let r := sys_execve (c_str fn) (c_str <$> fn :: argv) (env_block env) (Pipe.world e1) in
   Exec.exec_main fn argv env setup e =
     (Ok (match r.1 with inl rc => rc | inr st => st end), Pipe.mkEnv r.2 (Pipe.invalid_p e1))) ∧
  (Forall (λ p, key_ok p.1 ∧ Ascii.zero ∉ p.2) env → NoDup env.*1 →
   ∀ k v, (k, v) ∈ env → find_env k (env_block env) = Some v).
Proof.
  intros Hs. split; [rewrite exec_main_eq; by rewrite Hs|]. intros. by apply env_block_lookup.
Qed.

Context {LF : FdLaws W} {LK : ForkLaws W} {LX : ExecLaws W}.

(** A [child_setup] that leaves the descriptors alone and has no undefined behaviour. *)
Definition setup_ok setup : Prop := ∀ e,
  (setup e).1 ≠ Undefined ∧ fd_table (Pipe.world (setup e).2) = fd_table (Pipe.world e).

(** The image [exec] asks for, started with the standard streams the flags ask for. *)
Definition started (b : gmap Z Ofd) (flags : StandardStream.t) (i j k : positive)
    fn argv env (im : image) : Prop :=
  i_path im = c_str fn ∧ i_argv im = (c_str <$> fn :: argv) ∧ i_env im = env_block env ∧
  redirected (i_fds im) b (StandardStream.requested flags StandardStream.stdin) 0 (PipeRead i) ∧
  redirected (i_fds im) b (StandardStream.requested flags StandardStream.stdout) 1 (PipeWrite j) ∧
  redirected (i_fds im) b (StandardStream.requested flags StandardStream.stderr) 2 (PipeWrite k).

(** The child threw [x], in the environment [ex], before it came to execve: redirecting a
    stream or in [child_setup]. *)
Definition threw_before flags setup e (x : exn) (ex : Pipe.env W) : Prop :=
  (∃ s f, child_start flags e = Some s ∧ Fork.child_prologue flags s = (Throw x, (f, ex))) ∨
  (∃ em, main_env flags e = Some em ∧ setup em = (Throw x, ex)).

(** The three ways the child can go: execve starts the image, execve fails, or it is never called. *)
Lemma exec_child_cases fn argv env flags setup e r :
  walks_ok walk → setup_ok setup →
  Fork.child (Exec.exec_with_setup what cxa_demangle walk fn argv env flags setup e) = Some r →
  (∃ em e1 more st, main_env flags e = Some em ∧ setup em = (Ok tt, e1) ∧ r.1 = Ok st ∧ 0 ≤ st < 256 ∧
     images (Pipe.world r.2) = images (Pipe.world e1) ++
       mkImage (c_str fn) (c_str <$> fn :: argv) (env_block env) (fd_table (Pipe.world e1)) :: more) ∨
  (∃ em e1, main_env flags e = Some em ∧ setup em = (Ok tt, e1) ∧ r.1 = Ok (-1) ∧
     images (Pipe.world r.2) = images (Pipe.world e1)) ∨
  (∃ x ex, threw_before flags setup e x ex ∧ r = died what cxa_demangle walk x ex).
Proof.
  intros Hwalk Hset Hc. unfold Exec.exec_with_setup in Hc.
  apply fork_child_ends in Hc as (s & Hst & He); [|done|].
  2: { intros em. rewrite exec_main_eq. destruct (Hset em) as [Hd _]. by destruct (setup em) as [[]]. }
  unfold threw_before, main_env. unfold ends_as in He. rewrite Hst. cbn [mbind option_bind].
  destruct (Fork.child_prologue flags s) as [[[]|x|] s1] eqn:Ep; [| |done].
  2: { right. right. exists x, s1.2. split; [left|done]. exists s, s1.1. split; [done|]. by destruct s1. }
  rewrite exec_main_eq in He. destruct (Hset s1.2) as [Hd Ht].
  destruct (setup s1.2) as [[[]|x|] e1] eqn:Es; [| |done].
  2: { right. right. exists x, e1. split; [right; eauto|done]. }
  destruct (sys_execve _ _ _ _) as [q w'] eqn:Ex. simpl in He.
  apply execve_law in Ex as [[-> Him]|(st & more & -> & Hstat & Him)]; [right; left|left].
  - exists s1.2, e1. rewrite He. simpl. by split_and!.
  - exists s1.2, e1, more, st. rewrite He. simpl. rewrite swrap_small by lia. split_and!; [done..|lia|lia|done].
Qed.

(** The two sides of [exec], from those of [fork]. *)
Lemma exec_sides fn argv env flags setup e c ep :
  static_ok e → std_open (fd_table (Pipe.world e)) → walks_ok walk → setup_ok setup →
  Fork.parent (Exec.exec_with_setup what cxa_demangle walk fn argv env flags setup e) = (Ok c, ep) →
  let T := fd_table (Pipe.world ep) in
  let req := StandardStream.requested flags in
  ∃ i j k r,
    parent_side T (req StandardStream.stdin) (ChildProcess.cin c) (PipeWrite i) ∧
    parent_side T (req StandardStream.stdout) (ChildProcess.cout c) (PipeRead j) ∧
    parent_side T (req StandardStream.stderr) (ChildProcess.cerr c) (PipeRead k) ∧
    Fork.child (Exec.exec_with_setup what cxa_demangle walk fn argv env flags setup e) = Some r ∧
    ((∃ wm im more st, r.1 = Ok st ∧ 0 ≤ st < 256 ∧
        images (Pipe.world r.2) = images wm ++ im :: more ∧
        started (fd_table (Pipe.world e)) flags i j k fn argv env im) ∨
     r.1 = Ok (-1) ∨ r.1 = Ok Exit.failure).
Proof.
  intros Hs Hstd Hwalk Hset Hp. unfold Exec.exec_with_setup in *.
  destruct (fork_wired what cxa_demangle walk _ _ _ _ _ Hs Hstd Hp)
    as (i & j & k & r & H1 & H2 & H3 & H4 & Hr).
  exists i, j, k, r. split_and!; [done..|].
  destruct Hr as [(em & R0 & R1 & R2 & ->)|(x & em & ->)].
  2: { right. right. destruct (handled_spec what cxa_demangle walk x em Hwalk) as [lines ->]. done. }
  unfold child_run, try_catch. rewrite exec_main_eq. destruct (Hset em) as [Hd Ht].
  destruct (setup em) as [[[]|x|] e1]; simpl in *; [| |done].
  2: { right. right. destruct (handled_spec what cxa_demangle walk x e1 Hwalk) as [lines ->]. done. }
  destruct (sys_execve _ _ _ _) as [q w'] eqn:Ex.
  apply execve_law in Ex as [[-> _]|(st & more & -> & Hst & Him)]; [right; by left|left].
  eexists (Pipe.world e1), _, more, st. simpl.
  rewrite swrap_small by lia. split_and!; [done|lia|lia|exact Him|].
  unfold started; simpl. by rewrite Ht.
Qed.

(** C7: when [exec] returns a process object, its child either runs the requested image
    with its standard streams on the other ends of the object's pipes and ends with the
    image's status, or ends with status -1 (execve failed) or [failure] (setting up the
    streams, or [child_setup], threw); the caller of [exec] is not told which. *)
Theorem exec_starts_image fn argv env flags setup e c ep :
  static_ok e → std_open (fd_table (Pipe.world e)) → walks_ok walk → setup_ok setup →
  Fork.parent (Exec.exec_with_setup what cxa_demangle walk fn argv env flags setup e) = (Ok c, ep) →
  let T := fd_table (Pipe.world ep) in
  let req := StandardStream.requested flags in
  ∃ i j k r,
    parent_side T (req StandardStream.stdin) (ChildProcess.cin c) (PipeWrite i) ∧
    parent_side T (req StandardStream.stdout) (ChildProcess.cout c) (PipeRead j) ∧
    parent_side T (req StandardStream.stderr) (ChildProcess.cerr c) (PipeRead k) ∧
    Fork.child (Exec.exec_with_setup what cxa_demangle walk fn argv env flags setup e) = Some r ∧
    ((∃ wm im more st, r.1 = Ok st ∧ 0 ≤ st < 256 ∧
        images (Pipe.world r.2) = images wm ++ im :: more ∧
        started (fd_table (Pipe.world e)) flags i j k fn argv env im) ∨
     r.1 = Ok (-1) ∨ r.1 = Ok Exit.failure).
Proof. apply exec_sides. Qed.
End exec_properties.

(** ** Witnesses *)

Lemma exec_main_calls_execve_witness :
  Exec.exec_main (W := Ref.t) ($"/bin/ls") [$"-l"] [($"A", $"1")] (mret tt) fork_ex =
    (Ok 0, Pipe.mkEnv (Ref.add_exec (mkImage ($"/bin/ls") [$"/bin/ls"; $"-l"] [$"A=1"]
      (Ref.fds (Pipe.world fork_ex))) (Pipe.world fork_ex)) None).
Proof.
  destruct (exec_main_calls_execve (W := Ref.t) ($"/bin/ls") [$"-l"] [($"A", $"1")] (mret tt) fork_ex fork_ex
    eq_refl) as [H _]. rewrite H. vm_compute. reflexivity.
Defined.

Lemma exec_starts_image_witness :
  ∃ r, Fork.child (Exec.exec_with_setup what_ex demangle_ex walk_ex ($"/bin/ls") [$"-l"] [] flags_ex
         (mret tt) fork_ex) = Some r ∧ r.1 = Ok 0.
Proof.
  destruct (Fork.parent (Exec.exec_with_setup what_ex demangle_ex walk_ex ($"/bin/ls") [$"-l"] [] flags_ex
         (mret tt) fork_ex)) as [[c|x|] ep] eqn:Ep; [|vm_compute in Ep; discriminate..].
  assert (setup_ok (W := Ref.t) (mret tt)) as Hs by (intros e; split; [discriminate|reflexivity]).
  destruct (exec_starts_image (LF := Ref.fd_laws) (LK := Ref.fork_laws) (LX := Ref.exec_laws)
    what_ex demangle_ex walk_ex ($"/bin/ls") [$"-l"] [] flags_ex (mret tt) fork_ex c ep
    I std_open_ex walks_ok_ex Hs Ep) as (i & j & k & r & _ & _ & _ & Hr & _).
  exists r. split; [exact Hr|]. clear -Hr. vm_compute in Hr. injection Hr as <-. reflexivity.
Defined.
