(* ===== verification/ExecEnv.v ===== *)
(** * The environment of an executed program

    [exec] ([src/core/posix/exec.cpp]) prints the map it is given into an array of strings
    and hands it to execve; the accessors of [this_process::env]
    ([src/core/posix/this_process.cpp]) take such an array apart again.  A program started
    by [exec] that uses this library finds exactly the variables of the map. *)

From S2P Require Import Prelude.
From S2P Require Import Types.
From S2P Require Import CppString.
From S2P Require Import Kernel.
From S2P Require Import RefKernel.
From S2P Require Import Pipe.
From S2P Require Import Backtrace.
From S2P Require Import Process.
From S2P Require Import ChildProcess.
From S2P Require Import Fork.
From S2P Require Import ForkProps.
From S2P Require Import Environment.
From S2P Require Import EnvSpec.
From S2P Require Import Exec.

(** A map that survives the way through C strings: names that can name a variable, values
    without NUL, strings that fit into memory. *)
Definition portable (env : list (str * str)) : Prop :=
  NoDup env.*1 ∧ Forall (λ p, key_ok p.1 ∧ (Ascii.zero ∉ p.2) ∧ addressable (entry p)) env.

#[export] Instance portable_dec env : Decision (portable env).
Proof. unfold portable, addressable. apply _. Defined.

Section image.
Context {V : Type} {EV : Errno V} {KV : EnvKernel V}.
Implicit Types (s : Env.state V).

(** The program sees the map [env]: through every reading accessor, and as a whole. *)
Record sees (env : list (str * str)) s : Prop := {
  sees_vars : vars s = list_to_map env;
  sees_get k d : key_ok k → Env.get k d s = (Ok (default d ((list_to_map env : gmap str str) !! k)), s);
  sees_get_or_throw k : key_ok k → Env.get_or_throw k s =
    (match (list_to_map env : gmap str str) !! k with Some v => Ok v | None => Throw (Env.not_defined k) end, s);
  sees_for_each f : (∀ k v w, environ (f k v w) = environ w) →
    Env.for_each (visitor f) s = (Ok tt, Env.mkState (foldl (λ w p, f p.1 p.2 w) (Env.lib s) env) false) }.

Lemma portable_entries env : portable env → env_block env = entry <$> env.
Proof.
  intros [_ Henv]. apply env_block_entries. eapply Forall_impl; [exact Henv|]. by intros p (? & ? & _).
Qed.

(** What getenv finds in the printed map. *)
Lemma find_env_block env k :
  portable env → bad_name k = false → find_env k (env_block env) = (list_to_map env : gmap str str) !! k.
Proof.
  intros Hport Hk. rewrite portable_entries by done. destruct Hport as [Hd Henv].
  assert ("="%char ∉ k) as Heq by (unfold bad_name in Hk; apply bool_decide_eq_false in Hk; tauto).
  assert (Forall (λ p : str * str, "="%char ∉ p.1) env) as Hkeys.
  { eapply Forall_impl; [exact Henv|]. intros p (Hp & _). by apply key_ok_inv in Hp as (_ & ? & _). }
  destruct (list_to_map env !! k) as [v|] eqn:El.
  - apply find_env_entries; [done..|]. by apply elem_of_list_to_map_2.
  - apply find_env_absent; [done..|]. by apply not_elem_of_list_to_map_2.
Qed.

Lemma image_sees env s :
  portable env → Env.env_guard s = false → environ (Env.lib s) = Some (env_block env) → sees env s.
Proof.
  intros Hport Hg He.
  assert (∀ k, key_ok k → getenv k (Env.lib s) = (list_to_map env : gmap str str) !! k) as Hget.
  { intros k Hk. unfold getenv. rewrite He. simpl. destruct (key_ok_inv k Hk) as (Hne & _). destruct k; [done|].
    apply find_env_block; [done|apply Hk]. }
  split.
  - apply map_eq. intros k. unfold vars. rewrite He, lookup_env_map. simpl.
    destruct (bad_name k) eqn:Hk; [|by apply find_env_block].
    symmetry. apply not_elem_of_list_to_map_1. intros (p & -> & Hp)%list_elem_of_fmap.
    destruct Hport as [_ Henv]. rewrite Forall_forall in Henv. destruct (Henv _ Hp) as [[Hb _] _]. congruence.
  - intros k d Hk. rewrite get_spec by done. unfold view. by rewrite Hget.
  - intros k Hk. destruct s as [w g]; simpl in *; subst g. destruct (key_ok_inv k Hk) as (_ & _ & Hc).
    cbv [Env.get_or_throw Env.guarded finally gets mbind M_bind]. simpl. rewrite Hc, Hget by done.
    by destruct (list_to_map env !! k).
  - intros f Hf. apply for_each_visits; [done|by rewrite <- portable_entries| |done].
    destruct Hport as [_ Henv]. eapply Forall_impl; [exact Henv|]. by intros p (? & _ & ?).
Qed.
End image.

(** ** From the caller of exec to the program *)

Section exec_environment.
Context {W : Type} {E : Errno W} {I : Pid W} {K : FdKernel W} {F : ForkKernel W} {P : ProcKernel W} {X : ExecKernel W}.
Context {LF : FdLaws W} {LK : ForkLaws W} {LX : ExecLaws W}.
Context {V : Type} {EV : Errno V} {KV : EnvKernel V}.
Context (what : exn → str) (cxa_demangle : str → option str * Z) (walk : W → Backtrace.walk).
Implicit Types (e : Pipe.env W) (setup : M (Pipe.env W) unit).

Lemma exec_env_arrives fn argv env flags setup e c ep :
  static_ok e → std_open (fd_table (Pipe.world e)) → walks_ok walk → setup_ok setup → portable env →
  Fork.parent (Exec.exec_with_setup what cxa_demangle walk fn argv env flags setup e) = (Ok c, ep) →
  ∃ r, Fork.child (Exec.exec_with_setup what cxa_demangle walk fn argv env flags setup e) = Some r ∧
    ((∃ wm im more st, r.1 = Ok st ∧ images (Pipe.world r.2) = images wm ++ im :: more ∧
        i_path im = c_str fn ∧
        ∀ s : Env.state V, Env.env_guard s = false → environ (Env.lib s) = Some (i_env im) → sees env s) ∨
     r.1 = Ok (-1) ∨ r.1 = Ok Exit.failure).
Proof.
  intros Hs Hstd Hwalk Hset Hport Hp.
  destruct (exec_sides what cxa_demangle walk fn argv env flags setup e c ep Hs Hstd Hwalk Hset Hp)
    as (i & j & k & r & _ & _ & _ & Hr & Hcase). exists r. split; [done|].
  destruct Hcase as [(wm & im & more & st & Hst & _ & Him & Hpath & _ & Henv & _)|]; [left|by right].
  exists wm, im, more, st. split_and!; [done..|]. intros s Hg He. rewrite Henv in He. by apply image_sees.
Qed.

(** C17: the variables given to [exec] arrive.  For a map that C strings can carry (names that
    can name a variable, no NUL in the values, no name twice), either execve started the
    program, with the file and arguments given, as the next image of the child after
    [child_setup], and the program, when it reads its environment with the accessors of this
    library, finds exactly that map: [get] and [get_or_throw] give its values and report every
    other name as not defined, and [for_each] visits its elements in order; or execve failed and
    the child ends with -1, no image having been started; or redirecting a stream or [child_setup]
    threw, execve was never called, and the child ends with [failure] after reporting that
    exception. *)
Theorem exec_environment_arrives fn argv env flags setup e c ep :
  static_ok e → walks_ok walk → setup_ok setup → portable env →
  Fork.parent (Exec.exec_with_setup what cxa_demangle walk fn argv env flags setup e) = (Ok c, ep) →
  ∃ r, Fork.child (Exec.exec_with_setup what cxa_demangle walk fn argv env flags setup e) = Some r ∧
    ((∃ em e1 im more st, main_env flags e = Some em ∧ setup em = (Ok tt, e1) ∧ r.1 = Ok st ∧ 0 ≤ st < 256 ∧
        images (Pipe.world r.2) = images (Pipe.world e1) ++ im :: more ∧
        i_path im = c_str fn ∧ i_argv im = (c_str <$> fn :: argv) ∧
        ∀ s : Env.state V, Env.env_guard s = false → environ (Env.lib s) = Some (i_env im) → sees env s) ∨
     (∃ em e1, main_env flags e = Some em ∧ setup em = (Ok tt, e1) ∧ r.1 = Ok (-1) ∧
        images (Pipe.world r.2) = images (Pipe.world e1)) ∨
     (∃ x ex, threw_before flags setup e x ex ∧ r = died what cxa_demangle walk x ex)).
Proof.
  intros Hs Hwalk Hset Hport Hp.
  destruct (fork_returned what cxa_demangle walk _ _ _ _ _ Hs Hp)
    as (e1 & f & e2 & pid & wp & wc & s3 & _ & _ & _ & _ & _ & _ & _ & Hst).
  destruct (Fork.child (Exec.exec_with_setup what cxa_demangle walk fn argv env flags setup e)) as [r|] eqn:Hc.
  2: { unfold Exec.exec_with_setup in Hc. rewrite fork_child, Hst in Hc. done. }
  exists r. split; [done|].
  apply exec_child_cases in Hc as [(em & e4 & more & st & H1 & H2 & H3 & H4 & H5)|[H|H]]; [left|by auto..].
  eexists em, e4, _, more, st. split_and!; [done|done|done|apply H4|apply H4|exact H5|done|done|].
  intros s Hg He. by apply image_sees.
Qed.
End exec_environment.

(** ** Witness *)

Abbreviation map_ex := [($"HOME", $"/root"); ($"OPTS", $"a=b")].
Abbreviation exec_ex :=
  (Exec.exec_with_setup what_ex demangle_ex walk_ex ($"/bin/ls") [$"-l"] map_ex flags_ex (mret tt) fork_ex).

(** The program reads OPTS, whose value contains an "=". *)
Lemma exec_environment_arrives_witness :
  ∃ s : Env.state RefEnv.t, Env.env_guard s = false ∧ sees map_ex s ∧
    Env.get ($"OPTS") [] s = (Ok ($"a=b"), s).
Proof.
  destruct (Fork.parent exec_ex) as [[c|x|] ep] eqn:Ep; [|apply (f_equal fst) in Ep; vm_compute in Ep; discriminate Ep..].
  assert (setup_ok (W := Ref.t) (mret tt)) as Hs by (intros e; split; [discriminate|reflexivity]).
  destruct (exec_environment_arrives (LF := Ref.fd_laws) (LK := Ref.fork_laws) (LX := Ref.exec_laws)
    (V := RefEnv.t) what_ex demangle_ex walk_ex ($"/bin/ls") [$"-l"] map_ex flags_ex (mret tt) fork_ex c ep
    I walks_ok_ex Hs ltac:(by_decision) Ep) as (r & Hr & Hcase).
  assert (option_map fst (Fork.child exec_ex) = Some (Ok 0)) as H0 by (vm_compute; reflexivity).
  rewrite Hr in H0. injection H0 as H0.
  destruct Hcase as [(em & e1 & im & more & st & _ & _ & _ & _ & _ & _ & _ & Hsees)|[(em & e1 & _ & _ & Hr2 & _)|(x & ex & _ & Hr2)]];
    [|rewrite Hr2 in H0; discriminate H0|rewrite Hr2 in H0; discriminate H0].
  set (s := Env.mkState (RefEnv.mk (i_env im) 0 []) false).
  assert (sees map_ex s) as Hsee by (apply Hsees; reflexivity).
  exists s. split; [reflexivity|]. split; [exact Hsee|].
  rewrite (sees_get _ _ Hsee); [vm_compute; reflexivity|by_decision].
Defined.
