(* ===== verification/EnvInherit.v ===== *)
(** * Passing the environment on

    [exec] does not pass the environment of the caller on by itself; the idiom of this
    library's tests ([tests/posix_process_test.cpp]) collects it with
    [this_process::env::for_each] into a [std::map] and hands that to [exec].  Here is the
    round trip: the array of the caller, taken apart by [for_each], inserted into a sorted
    map, printed by [exec], and read by the accessors in the program, which finds the
    caller's variables. *)

From Stdlib Require Import Sorted.
From S2P Require Import Prelude.
From S2P Require Import Types.
From S2P Require Import CppString.
From S2P Require Import Kernel.
From S2P Require Import RefKernel.
From S2P Require Import Pipe.
From S2P Require Import Backtrace.
From S2P Require Import Process.
From S2P Require Import ChildProcess.
From S2P Require Import Fork.
From S2P Require Import ForkProps.
From S2P Require Import Environment.
From S2P Require Import EnvSpec.
From S2P Require Import Exec.
From S2P Require Import ExecEnv.

(** ** std::map<std::string, std::string> *)

Module StrMap.

(** [operator<] of [std::string]: characters compare as unsigned. *)
Fixpoint ltb (a b : str) : bool :=
  match a, b with
  | _, [] => false
  | [], _ :: _ => true
  | x :: a, y :: b =>
      if bool_decide (x = y) then ltb a b
      else (Ascii.N_of_ascii x <? Ascii.N_of_ascii y)%N
  end.

(** [insert]: a key that is there keeps its value. *)
Fixpoint insert (k v : str) (l : list (str * str)) : list (str * str) :=
  match l with
  | [] => [(k, v)]
  | (k', v') :: l' =>
      if ltb k k' then (k, v) :: l
      else if ltb k' k then (k', v') :: insert k v l'
      else l
  end.

End StrMap.

Abbreviation sorted := (StronglySorted (λ p q : str * str, StrMap.ltb p.1 q.1 = true)).

Lemma N_of_ascii_inj x y : Ascii.N_of_ascii x = Ascii.N_of_ascii y → x = y.
Proof. intros Hxy. rewrite <- (Ascii.ascii_N_embedding x), <- (Ascii.ascii_N_embedding y). by f_equal. Qed.

Lemma ltb_trans a b c : StrMap.ltb a b = true → StrMap.ltb b c = true → StrMap.ltb a c = true.
Proof.
  revert b c. induction a as [|x a IH]; intros [|y b] [|z c]; simpl; try done.
  repeat case_bool_decide; subst; try done; rewrite ?N.ltb_lt; try lia. eauto.
Qed.

Lemma ltb_irrefl a : StrMap.ltb a a = false.
Proof. induction a as [|x a IH]; simpl; [done|]. by rewrite bool_decide_true. Qed.

Lemma ltb_total a b : StrMap.ltb a b = false → StrMap.ltb b a = false → a = b.
Proof.
  revert b. induction a as [|x a IH]; intros [|y b]; simpl; try done.
  repeat case_bool_decide; subst; try done; [intros; f_equal; auto|].
  rewrite !N.ltb_ge. intros. exfalso. assert (x = y); [|done]. apply N_of_ascii_inj. lia.
Qed.

Lemma insert_elem k v l p : p ∈ StrMap.insert k v l → p = (k, v) ∨ p ∈ l.
Proof.
  induction l as [|[k' v'] l IH]; simpl; [set_solver|]. repeat case_match; rewrite ?elem_of_cons; naive_solver.
Qed.

Lemma insert_sorted k v l : sorted l → sorted (StrMap.insert k v l).
Proof.
  induction 1 as [|[k' v'] l Hs IH Hall]; simpl; [by repeat constructor|].
  destruct (StrMap.ltb k k') eqn:E1.
  - constructor; [by constructor|]. constructor; [done|]. eapply Forall_impl; [exact Hall|].
    intros p Hp. by eapply ltb_trans.
  - destruct (StrMap.ltb k' k) eqn:E2; [|by constructor]. constructor; [done|].
    apply Forall_forall. intros p [->|Hp]%insert_elem; [done|]. rewrite Forall_forall in Hall. by apply Hall.
Qed.

Lemma sorted_fresh k l : Forall (λ p : str * str, StrMap.ltb k p.1 = true) l → (list_to_map l : gmap str str) !! k = None.
Proof.
  intros Hall. apply not_elem_of_list_to_map_1. intros (p & -> & Hp)%list_elem_of_fmap.
  rewrite Forall_forall in Hall. specialize (Hall p Hp). by rewrite ltb_irrefl in Hall.
Qed.

(** On the map the list stands for it is the insertion of [setenv] without overwriting. *)
Lemma insert_map k v l :
  sorted l → (list_to_map (StrMap.insert k v l) : gmap str str) = MapEnv.put k v (list_to_map l).
Proof.
  unfold MapEnv.put. induction 1 as [|[k' v'] l Hs IH Hall]; simpl; [by rewrite lookup_empty|].
  destruct (StrMap.ltb k k') eqn:E1; simpl.
  - rewrite lookup_insert_ne, sorted_fresh; [done|..].
    + eapply Forall_impl; [exact Hall|]. intros p Hp. by eapply ltb_trans.
    + intros ->. by rewrite ltb_irrefl in E1.
  - destruct (StrMap.ltb k' k) eqn:E2; simpl.
    + rewrite lookup_insert_ne by (intros ->; by rewrite ltb_irrefl in E2). rewrite IH.
      destruct (list_to_map l !! k); [done|]. apply insert_insert_ne. intros ->. by rewrite ltb_irrefl in E2.
    + rewrite (ltb_total k k' E1 E2), lookup_insert_eq. done.
Qed.

Lemma sorted_NoDup l : sorted l → NoDup l.*1.
Proof.
  induction 1 as [|p l Hs IH Hall]; [constructor|]. constructor; [|done].
  intros (q & Eq & Hq)%list_elem_of_fmap. rewrite Forall_forall in Hall. specialize (Hall q Hq).
  by rewrite Eq, ltb_irrefl in Hall.
Qed.

(** ** Collecting the environment *)

(** A C library next to a local variable of the caller. *)
#[export] Instance pair_env {V A} {K : EnvKernel V} : EnvKernel (V * A) := {|
  environ w := environ w.1;
  sys_setenv n v o w := let '(rc, w') := sys_setenv n v o w.1 in (rc, (w', w.2));
  sys_unsetenv n w := let '(rc, w') := sys_unsetenv n w.1 in (rc, (w', w.2)) |}.

Section collect.
Context {V : Type} {EV : Errno V} {KV : EnvKernel V}.
Implicit Types (s : Env.state V) (ps : list (str * str)).

(** [[&env](key, value) { env.insert(std::make_pair(key, value)); }] *)
Definition collect (k v : str) (w : V * list (str * str)) : V * list (str * str) := (w.1, StrMap.insert k v w.2).

(** [std::map<...> env; for_each(...);]: the outcome, and [env] afterwards. *)
Definition collected s : outcome unit * list (str * str) :=
  let r := Env.for_each (visitor collect) (Env.mkState (Env.lib s, []) (Env.env_guard s)) in
  (r.1, (Env.lib r.2).2).

(** Entries that the accessors and C strings can represent; names may be repeated. *)
Definition readable ps : Prop := Forall (λ p, key_ok p.1 ∧ (Ascii.zero ∉ p.2) ∧ addressable (entry p)) ps.

Lemma collect_all ps (w : V) acc :
  sorted acc → readable acc → readable ps →
  let env := (foldl (λ w p, collect p.1 p.2 w) (w, acc) ps).2 in
  sorted env ∧ readable env ∧
  ∀ k, (list_to_map env : gmap str str) !! k =
    match (list_to_map acc : gmap str str) !! k with Some v => Some v | None => (list_to_map ps : gmap str str) !! k end.
Proof.
  intros Hs Ha Hp. revert acc Hs Ha. induction Hp as [|[k v] ps Hkv Hp IH]; intros acc Hs Ha; simpl.
  - split_and!; [done|done|]. intros k. by destruct (list_to_map acc !! k).
  - destruct (IH (StrMap.insert k v acc)) as (H1 & H2 & H3); [by apply insert_sorted| |].
    { apply Forall_forall. intros p [->|Hin]%insert_elem; [done|]. unfold readable in Ha.
      rewrite Forall_forall in Ha. by apply Ha. }
    split_and!; [done|done|]. intros n. rewrite H3, insert_map by done. unfold MapEnv.put.
    destruct (list_to_map acc !! k) as [u|] eqn:Ek.
    + destruct (list_to_map acc !! n) eqn:En; [done|]. rewrite lookup_insert_ne by congruence. done.
    + rewrite lookup_insert. case_decide; [subst; by rewrite Ek, lookup_insert_eq|].
      by rewrite lookup_insert_ne.
Qed.

(** The variables in an array of readable entries. *)
Lemma env_map_entries ps : readable ps → env_map (entry <$> ps) = list_to_map ps.
Proof.
  assert (∀ k v, "="%char ∉ k → split_eq (entry (k, v)) = Some (k, v)) as Hsplit.
  { intros k v. unfold entry. simpl. induction k as [|c k IH]; intros Hk; simpl; [done|].
    rewrite bool_decide_false by set_solver. by rewrite IH by set_solver. }
  induction 1 as [|[k v] ps (Hk & _) _ IH]; [done|]. rewrite fmap_cons. cbn [env_map].
  rewrite Hsplit by (by apply key_ok_inv in Hk as (_ & ? & _)). destruct Hk as [Hb _]. simpl in Hb. by rewrite Hb, IH.
Qed.

Lemma collected_spec ps s :
  Env.env_guard s = false → environ (Env.lib s) = Some (entry <$> ps) → readable ps →
  (collected s).1 = Ok tt ∧ portable (collected s).2 ∧ list_to_map (collected s).2 = vars s.
Proof.
  intros Hg He Hps. unfold collected. rewrite (for_each_visits collect ps); [|done|done| |done].
  2: { eapply Forall_impl; [exact Hps|]. by intros p (? & _ & ?). }
  cbn [fst snd Env.lib]. destruct (collect_all ps (Env.lib s) []) as (H1 & H2 & H3); [constructor|constructor|done|].
  split; [done|]. split; [split; [by apply sorted_NoDup|done]|].
  unfold vars. rewrite He. simpl. rewrite env_map_entries by done. apply map_eq. intros k. by rewrite H3.
Qed.
End collect.

(** ** To the program *)

Section inherit.
Context {W : Type} {E : Errno W} {I : Pid W} {K : FdKernel W} {F : ForkKernel W} {P : ProcKernel W} {X : ExecKernel W}.
Context {LF : FdLaws W} {LK : ForkLaws W} {LX : ExecLaws W}.
Context {V : Type} {EV : Errno V} {KV : EnvKernel V}.
Context (what : exn → str) (cxa_demangle : str → option str * Z) (walk : W → Backtrace.walk).
Implicit Types (e : Pipe.env W) (setup : M (Pipe.env W) unit) (s : Env.state V).

(** C18: a process that collects its environment with [for_each] into a [std::map] and passes
    the map to [exec] hands on its variables: collecting succeeds, and the program that
    is started finds, with the accessors of this library, the same value for every name
    as the caller, also when the caller's array has a name twice (the first entry
    counts on both sides); otherwise the child ends without having run the program. *)
Theorem environment_inherited fn argv flags setup e c ep ps s :
  Env.env_guard s = false → environ (Env.lib s) = Some (entry <$> ps) → readable ps →
  static_ok e → std_open (fd_table (Pipe.world e)) → walks_ok walk → setup_ok setup →
  let run := Exec.exec_with_setup what cxa_demangle walk fn argv (collected s).2 flags setup e in
  Fork.parent run = (Ok c, ep) →
  (collected s).1 = Ok tt ∧
  ∃ r, Fork.child run = Some r ∧
    ((∃ wm im more st, r.1 = Ok st ∧ images (Pipe.world r.2) = images wm ++ im :: more ∧ i_path im = c_str fn ∧
        ∀ s' : Env.state V, Env.env_guard s' = false → environ (Env.lib s') = Some (i_env im) →
          vars s' = vars s ∧
          ∀ k d, key_ok k → (Env.get k d s').1 = (Env.get k d s).1) ∨
     r.1 = Ok (-1) ∨ r.1 = Ok Exit.failure).
Proof.
  intros Hg He Hps Hs Hstd Hwalk Hset run Hp. destruct (collected_spec ps s Hg He Hps) as (Hc & Hport & Hvars).
  split; [done|].
  destruct (exec_env_arrives (V := V) what cxa_demangle walk fn argv _ flags setup e c ep Hs Hstd Hwalk Hset Hport Hp)
    as (r & Hr & Hcase). exists r. split; [done|].
  destruct Hcase as [(wm & im & more & st & Hst & Him & Hpath & Hsees)|]; [left|by right].
  exists wm, im, more, st. split_and!; [done..|]. intros s' Hg' He'. specialize (Hsees s' Hg' He').
  split; [rewrite <- Hvars; apply Hsees|]. intros k d Hk. rewrite (sees_get _ _ Hsees k d Hk), get_spec by done.
  unfold view. rewrite <- vars_lookup by apply Hk. by rewrite Hvars.
Qed.
End inherit.

(** ** Witness *)

(** The caller's array is not sorted and has PATH twice. *)
Definition array_ex : list (str * str) :=
  [($"PATH", $"/bin"); ($"HOME", $"/root"); ($"PATH", $"/sbin"); ($"OPTS", $"a=b")].
Definition inherit_ex : Env.state RefEnv.t := Env.mkState (RefEnv.mk (entry <$> array_ex) 0 []) false.

Abbreviation inherit_run :=
  (Exec.exec_with_setup what_ex demangle_ex walk_ex ($"/bin/ls") [] (collected inherit_ex).2 flags_ex (mret tt) fork_ex).

Lemma environment_inherited_witness :
  (collected inherit_ex).2 = [($"HOME", $"/root"); ($"OPTS", $"a=b"); ($"PATH", $"/bin")] ∧
  ∃ s' : Env.state RefEnv.t, vars s' = vars inherit_ex.
Proof.
  split; [vm_compute; reflexivity|].
  destruct (Fork.parent inherit_run) as [[c|x|] ep] eqn:Ep; [|apply (f_equal fst) in Ep; vm_compute in Ep; discriminate Ep..].
  assert (setup_ok (W := Ref.t) (mret tt)) as Hs by (intros e; split; [discriminate|reflexivity]).
  destruct (environment_inherited (KV := RefEnv.env_kernel) (LF := Ref.fd_laws) (LK := Ref.fork_laws) (LX := Ref.exec_laws)
    what_ex demangle_ex walk_ex ($"/bin/ls") [] flags_ex (mret tt) fork_ex c ep array_ex inherit_ex
    eq_refl eq_refl ltac:(unfold readable, addressable; by_decision) I std_open_ex walks_ok_ex Hs Ep) as (_ & r & Hr & Hcase).
  vm_compute in Hr. injection Hr as <-.
  destruct Hcase as [(wm & im & more & st & _ & _ & _ & Hsees)|[[=]|[=]]].
  exists (Env.mkState (RefEnv.mk (i_env im) 0 []) false). apply Hsees; reflexivity.
Defined.
