(* ===== verification/Lifecycle.v ===== *)
(** * The life of a child: fork, exit, wait_for

    [fork] and [exec] ([src/core/posix/fork.cpp], [exec.cpp]) make the child end in
    [::exit(result)]; the kernel keeps the low eight bits of the status for the parent,
    and [ChildProcess::wait_for] ([child_process.cpp]) decodes them.  This file composes
    the three: what the parent learns about the [main] the child ran. *)

From S2P Require Import Prelude.
From S2P Require Import Types.
From S2P Require Import CppString.
From S2P Require Import Kernel.
From S2P Require Import RefKernel.
From S2P Require Import Pipe.
From S2P Require Import Backtrace.
From S2P Require Import Process.
From S2P Require Import ChildProcess.
From S2P Require Import Fork.
From S2P Require Import ForkProps.
From S2P Require Import Environment.
From S2P Require Import Exec.

(** exit(3): "the value of status & 0xFF is returned to the parent process as a process
    exit status, and can be collected using one of the wait(2) family of calls". *)
Definition exit_record (status : Z) : Z := Wait.encode (Wait.Exited (Z.land status 255)).

(** What [wait_for] reports for such a child. *)
Definition reported (status : Z) : Wait.Result := Wait.result_of (Wait.Exited (Z.land status 255)).

Lemma land_255 z : Z.land z 255 = z mod 256.
Proof. exact (Z.land_ones z 8 ltac:(lia)). Qed.

(** The conversion to [int] keeps the bits that matter. *)
Lemma reported_i32 z : reported (i32 z) = reported z.
Proof.
  unfold reported. rewrite !land_255. do 2 f_equal. unfold swrap.
  change (2 ^ (32 - 1)) with (8388608 * 256). change (2 ^ 32) with (16777216 * 256).
  rewrite (Z.mod_eq (z + _)) by lia.
  set (q := (z + 8388608 * 256) / (16777216 * 256)).
  replace (z + 8388608 * 256 - 16777216 * 256 * q - 8388608 * 256) with (z + (- 16777216 * q) * 256) by ring.
  apply Z_mod_plus_full.
Qed.

Lemma decode_exit_record status : Wait.decode (exit_record status) = reported status.
Proof.
  apply decode_encode. simpl. rewrite land_255. pose proof (Z.mod_pos_bound status 256). lia.
Qed.

Section lifecycle.
Context {W : Type} {E : Errno W} {I : Pid W} {K : FdKernel W} {F : ForkKernel W} {P : ProcKernel W}.
Context {X : ExecKernel W}.
Context {LF : FdLaws W} {LK : ForkLaws W} {LP : ProcLaws W} {LE : ExecLaws W}.
Context (what : exn → str) (cxa_demangle : str → option str * Z) (walk : W → Backtrace.walk).
Implicit Types (e : Pipe.env W) (c : ChildProcess.t) (w : W).

(** The combinations of [Wait::Flags] that waitpid(2) knows. *)
Definition wait_options : Wait.Flags := Z.lor Wait.no_hang (Z.lor Wait.untraced Wait.continued).

(** A wait for a child that has exited and was not reaped yet. *)
Lemma wait_for_exited c status opts w r w' :
  0 < ChildProcess.pid c → Z.land opts wait_options = opts →
  children w !! ChildProcess.pid c = Some (Some (exit_record status)) →
  ChildProcess.wait_for c opts w = (r, w') →
  r = Ok (reported status) ∧ children w' !! ChildProcess.pid c = None.
Proof.
  intros Hp Ho Hdead. unfold ChildProcess.wait_for, call, check_rc, throw_errno, mbind, M_bind.
  destruct (sys_waitpid _ _ w) as [[rc st] w1] eqn:Ew.
  apply (waitpid_dead_law _ _ _ _ _ _ _ Ho Hdead) in Ew as (-> & -> & Hc).
  destruct (Z.eqb_spec (ChildProcess.pid c) (-1)); [lia|]. cbv [mret M_ret].
  destruct (Z.eqb_spec (ChildProcess.pid c) 0); [lia|].
  intros [= <- <-]. by rewrite decode_exit_record, Hc.
Qed.

(** What the parent is told ([r]) and the state the child left ([ec]), read off what the child
    that started in [s] did. *)
Definition told main flags (s : Fork.frame * Pipe.env W) (ec : Pipe.env W) (r : outcome Wait.Result) : Prop :=
  match Fork.child_prologue flags s with
  | (Ok _, s1) =>
      match main s1.2 with
      | (Ok v, e') => r = Ok (reported v) ∧ ec = e'
      | (Throw x, e') => r = Ok (reported Exit.failure) ∧ ec = (died what cxa_demangle walk x e').2
      | (Undefined, _) => False
      end
  | (Throw x, s1) => r = Ok (reported Exit.failure) ∧ ec = (died what cxa_demangle walk x s1.2).2
  | (Undefined, _) => False
  end.

(** C32: what [main] returns in the child is what the parent's [wait_for] reports: after a
    [fork], once the kernel has recorded the child's [exit], [wait_for] with any combination of
    its flags reaps the child and says [exited], with the low eight bits of what [main] returned
    in the environment in which the child called it, or with [failure] exactly when [main] (or
    redirecting a stream before it) threw, which the child then has reported on std::cerr. *)
Theorem exit_status_travels main flags e c ep status ec opts w r w' :
  static_ok e → walks_ok walk → defined main →
  Fork.parent (Fork.fork what cxa_demangle walk main flags e) = (Ok c, ep) →
  Fork.child (Fork.fork what cxa_demangle walk main flags e) = Some (Ok status, ec) →
  Z.land opts wait_options = opts →
  children w !! ChildProcess.pid c = Some (Some (exit_record status)) →
  ChildProcess.wait_for c opts w = (r, w') →
  children w' !! ChildProcess.pid c = None ∧
  ∃ s, child_start flags e = Some s ∧ told main flags s ec r.
Proof.
  intros Hs Hwalk Hmain Hp Hc Ho Hdead Hw.
  pose proof (fork_accounted what cxa_demangle walk main flags e Hs) as [_ Hacc].
  rewrite Hp in Hacc. destruct Hacc as [_ Hpid]. simpl in Hpid.
  destruct (wait_for_exited _ _ _ _ _ _ Hpid Ho Hdead Hw) as [-> Hgone]. split; [done|].
  apply fork_child_ends in Hc as (s & Hst & He); [|done..]. exists s. split; [done|].
  unfold ends_as, told in *. destruct (Fork.child_prologue flags s) as [[[]|x|] s1]; [|by injection He as -> ->|done].
  destruct (main s1.2) as [[v|x|] e']; [|by injection He as -> ->|done].
  injection He as -> ->. by rewrite reported_i32.
Qed.

(** The same for [exec]: the parent that waits is told the status of the image, 255 when
    execve failed, 1 when setting up the child threw; an image that itself ends with 255
    or 1 cannot be told from these. *)
Theorem exec_status_travels fn argv env flags setup e c ep status ec opts w r w' :
  static_ok e → walks_ok walk → setup_ok setup →
  Fork.parent (Exec.exec_with_setup what cxa_demangle walk fn argv env flags setup e) = (Ok c, ep) →
  Fork.child (Exec.exec_with_setup what cxa_demangle walk fn argv env flags setup e) = Some (Ok status, ec) →
  Z.land opts wait_options = opts →
  children w !! ChildProcess.pid c = Some (Some (exit_record status)) →
  ChildProcess.wait_for c opts w = (r, w') →
  (∃ wm st wx, sys_execve (c_str fn) (c_str <$> fn :: argv) (env_block env) wm = (inr st, wx) ∧
     r = Ok (Wait.result_of (Wait.Exited st))) ∨
  r = Ok (Wait.result_of (Wait.Exited 255)) ∨ r = Ok (Wait.result_of (Wait.Exited 1)).
Proof.
  intros Hs Hwalk Hset Hp Hc Ho Hdead Hw. unfold Exec.exec_with_setup in *.
  pose proof (fork_accounted what cxa_demangle walk (Exec.exec_main fn argv env setup) flags e Hs) as [_ Hacc].
  rewrite Hp in Hacc. destruct Hacc as [_ Hpid]. simpl in Hpid.
  destruct (wait_for_exited _ _ _ _ _ _ Hpid Ho Hdead Hw) as [-> _].
  apply fork_child_ends in Hc as (s & _ & He); [|done|].
  2: { intros em. rewrite exec_main_eq. destruct (Hset em) as [Hd _]. by destruct (setup em) as [[]]. }
  unfold ends_as in He. destruct (Fork.child_prologue flags s) as [[[]|x|] s1]; [|injection He as -> _; by auto|done].
  destruct (Exec.exec_main fn argv env setup s1.2) as [[v|x|] e'] eqn:Em; [|injection He as -> _; by auto|done].
  injection He as -> ->. rewrite reported_i32. rewrite exec_main_eq in Em. destruct (Hset s1.2) as [Hd _].
  destruct (setup s1.2) as [[[]|x|] e1]; [|done..].
  destruct (sys_execve _ _ _ _) as [q wx] eqn:Ex. injection Em as <- _. simpl.
  pose proof Ex as Ex'. apply execve_law in Ex' as [[-> _]|(st & more & -> & Hst & _)]; [right; by left|left].
  exists (Pipe.world e1), st, wx. split; [done|]. unfold reported. by rewrite land_255, Z.mod_small.
Qed.
End lifecycle.

(** ** Witnesses *)

(** The child (pid 10) ran a [main] that returned 259; the kernel has recorded its exit
    ([child_ex]) and the parent, waiting with [untraced], is told 3. *)
Lemma exit_status_travels_witness :
  ∃ c, (Fork.parent (fork_run (mret 259) StandardStream.empty fork_ex)).1 = Ok c ∧
    (ChildProcess.wait_for c Wait.untraced child_ex).1 = Ok (Wait.result_of (Wait.Exited 3)).
Proof.
  destruct (Fork.parent (fork_run (mret 259) StandardStream.empty fork_ex)) as [[c|x|] ep] eqn:Ep;
    [|apply (f_equal fst) in Ep; vm_compute in Ep; discriminate Ep..].
  assert (ChildProcess.pid c = 10) as Hpid.
  { apply (f_equal fst) in Ep. vm_compute in Ep. injection Ep as <-. reflexivity. }
  destruct (Fork.child (fork_run (mret 259) StandardStream.empty fork_ex)) as [[[status|x|] ec]|] eqn:Ec;
    [|apply (f_equal (option_map fst)) in Ec; vm_compute in Ec; discriminate Ec..].
  assert (status = 259) as ->.
  { apply (f_equal (option_map fst)) in Ec. vm_compute in Ec. injection Ec as <-. reflexivity. }
  destruct (exit_status_travels (LF := Ref.fd_laws) (LK := Ref.fork_laws) (LP := Ref.proc_laws)
    what_ex demangle_ex walk_ex (mret 259) StandardStream.empty fork_ex c ep 259 ec Wait.untraced child_ex _ _
    I walks_ok_ex (defined_ret _) Ep Ec eq_refl ltac:(rewrite Hpid; vm_compute; reflexivity) (surjective_pairing _))
    as (_ & s & _ & Ht). exists c. split; [reflexivity|].
  unfold told in Ht. destruct (Fork.child_prologue StandardStream.empty s) as [[[]|x|] s1].
  - destruct Ht as [Hr _]. rewrite Hr. vm_compute. reflexivity.
  - exfalso. destruct Ht as [Hr _]. unfold ChildProcess.wait_for in Hr. rewrite Hpid in Hr.
    vm_compute in Hr. discriminate Hr.
  - destruct Ht.
Defined.
