(* ===== verification/Procfs.v ===== *)
(** * core::posix::linux::proc::process

    [src/core/posix/linux/proc/process/{stat,state,oom_adj,oom_score,
    oom_score_adj}.cpp] and their headers: reading /proc/PID/stat into [Stat], and
    reading and writing the three oom files.  The files are a parameter
    ([FileKernel]); [std::ifstream] on a file that cannot be opened is a stream
    whose failbit is set, and an [std::ofstream] drops what cannot be written. *)

From S2P Require Import Prelude.
From S2P Require Import Types.
From S2P Require Import CppString.
From S2P Require Import Kernel.
From S2P Require Import Process.

Class FileKernel (W : Type) : Type := {
  file : W → str → option str;                  (* contents of a readable file *)
  write_file : str → str → W → bool * W }.      (* truncate and write; accepted? *)

(** [std::ifstream in(path);] *)
Definition ifstream {W} `{FileKernel W} (path : str) (w : W) : istream :=
  match file w path with Some s => mkIn s false | None => mkIn [] true end.

(** [std::stringstream ss; ss << "/proc/" << process.pid() << name;] *)
Definition proc_path (process : Process.t) (name : str) : str :=
  $"/proc/" ++ print_dec (Process.pid process) ++ name.

Module Stat.

(** [enum class State], a cast of the character read. *)
Definition State : Type := Z.
Definition undefined : State := -1.
Definition running : State := 82.
Definition sleeping : State := 83.
Definition disk_sleep : State := 68.
Definition zombie : State := 90.
Definition traced_or_stopped : State := 84.
Definition paging : State := 87.

Definition state_of_char (c : ascii) : State := swrap 8 (Z.of_N (Ascii.N_of_ascii c)).

(** [char c; in >> c; state = static_cast<State>(c);]: [None] is the cast of an
    uninitialised [c]. *)
Definition read_State (inp : istream) : option State * istream :=
  let '(c, inp) := read_char inp in (state_of_char <$> c, inp).

Record Time : Type := mkTime { user : Z; system : Z; user_for_children : Z; system_for_children : Z }.

Record Size : Type := mkSize { virt : Z; resident_set : Z; resident_set_limit : Z }.

Record Addresses : Type := mkAddresses { start_code : Z; end_code : Z; start_stack : Z; stack_pointer : Z; instruction_pointer : Z }.

Record Signals : Type := mkSignals { pending : Z; blocked : Z; ignored : Z; caught : Z }.

(** The struct, in the order of its members. *)
Record Stat : Type := mkStat {
  pid : Z;
  executable : str;
  state : option State;
  parent : Z;
  process_group : Z;
  session_id : Z;
  tty_nr : Z;
  controlling_process_group : Z;
  kernel_flags : Z;
  minor_faults_count : Z;
  minor_faults_count_by_children : Z;
  major_faults_count : Z;
  major_faults_count_by_children : Z;
  time : Time;
  priority : Z;
  nice : Z;
  thread_count : Z;
  time_before_next_sig_alarm : Z;
  start_time : Z;
  size : Size;
  addresses : Addresses;
  signals : Signals;
  channel : Z;
  swap_count : Z;
  swap_count_children : Z;
  exit_signal : Z;
  cpu_count : Z;
  realtime_priority : Z;
  scheduling_policy : Z;
  aggregated_block_io_delays : Z;
  guest_time : Z;
  guest_time_children : Z }.

(** The default member initialisers. *)
Definition default_Stat : Stat :=
  mkStat
    1 [] (Some undefined) (-1) (-1) (-1) (-1) (-1) 0 0 0 0 0 (mkTime 0 0 0 0) 0 0 0 0 0 (mkSize
    0 0 0) (mkAddresses 0 0 0 0 0) (mkSignals 0 0 0 0) 0 0 0 (-1) (-1) 0 0 0 0 0.

(** [in >> stat]: the members in the order of the extraction chain. *)
Definition read_Stat (s : Stat) (inp : istream) : Stat * istream :=
  let '(v_pid, inp) := read_i32 (pid s) inp in
  let '(v_executable, inp) := read_word (executable s) inp in
  let '(v_state, inp) := read_State inp in
  let '(v_parent, inp) := read_i32 (parent s) inp in
  let '(v_process_group, inp) := read_i32 (process_group s) inp in
  let '(v_session_id, inp) := read_i32 (session_id s) inp in
  let '(v_tty_nr, inp) := read_i32 (tty_nr s) inp in
  let '(v_controlling_process_group, inp) := read_i32 (controlling_process_group s) inp in
  let '(v_kernel_flags, inp) := read_u32 (kernel_flags s) inp in
  let '(v_minor_faults_count, inp) := read_u64 (minor_faults_count s) inp in
  let '(v_minor_faults_count_by_children, inp) := read_u64 (minor_faults_count_by_children s) inp in
  let '(v_major_faults_count, inp) := read_u64 (major_faults_count s) inp in
  let '(v_major_faults_count_by_children, inp) := read_u64 (major_faults_count_by_children s) inp in
  let '(v_user, inp) := read_u64 (user (time s)) inp in
  let '(v_system, inp) := read_u64 (system (time s)) inp in
  let '(v_user_for_children, inp) := read_u64 (user_for_children (time s)) inp in
  let '(v_system_for_children, inp) := read_u64 (system_for_children (time s)) inp in
  let '(v_priority, inp) := read_i64 (priority s) inp in
  let '(v_nice, inp) := read_i64 (nice s) inp in
  let '(v_thread_count, inp) := read_i64 (thread_count s) inp in
  let '(v_time_before_next_sig_alarm, inp) := read_i64 (time_before_next_sig_alarm s) inp in
  let '(v_start_time, inp) := read_i64 (start_time s) inp in
  let '(v_virt, inp) := read_u64 (virt (size s)) inp in
  let '(v_resident_set, inp) := read_u64 (resident_set (size s)) inp in
  let '(v_resident_set_limit, inp) := read_u64 (resident_set_limit (size s)) inp in
  let '(v_start_code, inp) := read_u64 (start_code (addresses s)) inp in
  let '(v_end_code, inp) := read_u64 (end_code (addresses s)) inp in
  let '(v_start_stack, inp) := read_u64 (start_stack (addresses s)) inp in
  let '(v_stack_pointer, inp) := read_u64 (stack_pointer (addresses s)) inp in
  let '(v_instruction_pointer, inp) := read_u64 (instruction_pointer (addresses s)) inp in
  let '(v_pending, inp) := read_u64 (pending (signals s)) inp in
  let '(v_blocked, inp) := read_u64 (blocked (signals s)) inp in
  let '(v_ignored, inp) := read_u64 (ignored (signals s)) inp in
  let '(v_caught, inp) := read_u64 (caught (signals s)) inp in
  let '(v_channel, inp) := read_u64 (channel s) inp in
  let '(v_swap_count, inp) := read_u64 (swap_count s) inp in
  let '(v_swap_count_children, inp) := read_u64 (swap_count_children s) inp in
  let '(v_exit_signal, inp) := read_i32 (exit_signal s) inp in
  let '(v_cpu_count, inp) := read_i32 (cpu_count s) inp in
  let '(v_realtime_priority, inp) := read_u32 (realtime_priority s) inp in
  let '(v_scheduling_policy, inp) := read_u32 (scheduling_policy s) inp in
  let '(v_aggregated_block_io_delays, inp) := read_u64 (aggregated_block_io_delays s) inp in
  let '(v_guest_time, inp) := read_u64 (guest_time s) inp in
  let '(v_guest_time_children, inp) := read_u64 (guest_time_children s) inp in
  (mkStat
    v_pid v_executable v_state v_parent v_process_group v_session_id v_tty_nr
    v_controlling_process_group v_kernel_flags v_minor_faults_count
    v_minor_faults_count_by_children v_major_faults_count v_major_faults_count_by_children
    (mkTime v_user v_system v_user_for_children v_system_for_children) v_priority v_nice
    v_thread_count v_time_before_next_sig_alarm v_start_time (mkSize v_virt v_resident_set
    v_resident_set_limit) (mkAddresses v_start_code v_end_code v_start_stack v_stack_pointer
    v_instruction_pointer) (mkSignals v_pending v_blocked v_ignored v_caught) v_channel
    v_swap_count v_swap_count_children v_exit_signal v_cpu_count v_realtime_priority
    v_scheduling_policy v_aggregated_block_io_delays v_guest_time v_guest_time_children, inp).


Section operations.
Context {W : Type} {K : FileKernel W}.

(** [process >> stat] *)
Definition read (process : Process.t) (s : Stat) (w : W) : Stat :=
  (read_Stat s (ifstream (proc_path process ($"/stat")) w)).1.
End operations.
End Stat.

Module OomAdj.

(** <linux/oom.h> *)
Definition OOM_DISABLE : Z := -17.
Definition OOM_ADJUST_MIN : Z := -16.
Definition OOM_ADJUST_MAX : Z := 15.

Record t : Type := mk { value : Z }.

Definition disable_value : Z := OOM_DISABLE.
Definition min_value : Z := OOM_ADJUST_MIN.
Definition max_value : Z := OOM_ADJUST_MAX.

Definition is_valid (self : t) : bool := (disable_value <=? value self) && (value self <=? max_value).

Section operations.
Context {W : Type} {K : FileKernel W}.

(** [process >> adj] *)
Definition read (process : Process.t) (adj : t) (w : W) : t :=
  mk (read_i32 (value adj) (ifstream (proc_path process ($"/oom_adj")) w)).1.

(** [process << adj] *)
Definition write (process : Process.t) (adj : t) : M W unit :=
  throw_if (negb (is_valid adj)) (LogicError "Value for adjusting the oom score is invalid.") ;;
  modify (λ w, (write_file (proc_path process ($"/oom_adj")) (print_dec (value adj)) w).2).
End operations.
End OomAdj.

Module OomScore.

Record t : Type := mk { value : Z }.
Definition default_OomScore : t := mk 0.

(** [process >> score] *)
Definition read {W} {K : FileKernel W} (process : Process.t) (score : t) (w : W) : t :=
  mk (read_i32 (value score) (ifstream (proc_path process ($"/oom_score")) w)).1.
End OomScore.

Module OomScoreAdj.

(** <linux/oom.h> *)
Definition OOM_SCORE_ADJ_MIN : Z := -1000.
Definition OOM_SCORE_ADJ_MAX : Z := 1000.

Record t : Type := mk { value : Z }.

Definition min_value : Z := OOM_SCORE_ADJ_MIN.
Definition max_value : Z := OOM_SCORE_ADJ_MAX.

Definition is_valid (self : t) : bool := (min_value <=? value self) && (value self <=? max_value).

Section operations.
Context {W : Type} {K : FileKernel W}.

(** [process >> score_adj] *)
Definition read (process : Process.t) (score_adj : t) (w : W) : t :=
  mk (read_i32 (value score_adj) (ifstream (proc_path process ($"/oom_score_adj")) w)).1.

(** [process << score_adj] *)
Definition write (process : Process.t) (score_adj : t) : M W unit :=
  throw_if (negb (is_valid score_adj)) (LogicError "Value for adjusting the oom score is invalid.") ;;
  modify (λ w, (write_file (proc_path process ($"/oom_score_adj")) (print_dec (value score_adj)) w).2).
End operations.
End OomScoreAdj.

(** ** The text of /proc/PID/stat *)

Import Stat.

Definition in_i32 (n : Z) : Prop := - 2 ^ 31 ≤ n ≤ 2 ^ 31 - 1.
Definition in_u32 (n : Z) : Prop := 0 ≤ n ≤ 2 ^ 32 - 1.
Definition in_i64 (n : Z) : Prop := - 2 ^ 63 ≤ n ≤ 2 ^ 63 - 1.
Definition in_u64 (n : Z) : Prop := 0 ≤ n ≤ 2 ^ 64 - 1.

(** The numbers of a line after the state, in the order of proc(5). *)
Definition numbers (s : Stat) : list Z :=
  [parent s;
   process_group s;
   session_id s;
   tty_nr s;
   controlling_process_group s;
   kernel_flags s;
   minor_faults_count s;
   minor_faults_count_by_children s;
   major_faults_count s;
   major_faults_count_by_children s;
   user (time s);
   system (time s);
   user_for_children (time s);
   system_for_children (time s);
   priority s;
   nice s;
   thread_count s;
   time_before_next_sig_alarm s;
   start_time s;
   virt (size s);
   resident_set (size s);
   resident_set_limit (size s);
   start_code (addresses s);
   end_code (addresses s);
   start_stack (addresses s);
   stack_pointer (addresses s);
   instruction_pointer (addresses s);
   pending (signals s);
   blocked (signals s);
   ignored (signals s);
   caught (signals s);
   channel s;
   swap_count s;
   swap_count_children s;
   exit_signal s;
   cpu_count s;
   realtime_priority s;
   scheduling_policy s;
   aggregated_block_io_delays s;
   guest_time s;
   guest_time_children s].

(** Every member holds a value of its type. *)
Definition in_range (s : Stat) : Prop :=
  in_i32 (pid s) ∧
  in_i32 (parent s) ∧
  in_i32 (process_group s) ∧
  in_i32 (session_id s) ∧
  in_i32 (tty_nr s) ∧
  in_i32 (controlling_process_group s) ∧
  in_u32 (kernel_flags s) ∧
  in_u64 (minor_faults_count s) ∧
  in_u64 (minor_faults_count_by_children s) ∧
  in_u64 (major_faults_count s) ∧
  in_u64 (major_faults_count_by_children s) ∧
  in_u64 (user (time s)) ∧
  in_u64 (system (time s)) ∧
  in_u64 (user_for_children (time s)) ∧
  in_u64 (system_for_children (time s)) ∧
  in_i64 (priority s) ∧
  in_i64 (nice s) ∧
  in_i64 (thread_count s) ∧
  in_i64 (time_before_next_sig_alarm s) ∧
  in_i64 (start_time s) ∧
  in_u64 (virt (size s)) ∧
  in_u64 (resident_set (size s)) ∧
  in_u64 (resident_set_limit (size s)) ∧
  in_u64 (start_code (addresses s)) ∧
  in_u64 (end_code (addresses s)) ∧
  in_u64 (start_stack (addresses s)) ∧
  in_u64 (stack_pointer (addresses s)) ∧
  in_u64 (instruction_pointer (addresses s)) ∧
  in_u64 (pending (signals s)) ∧
  in_u64 (blocked (signals s)) ∧
  in_u64 (ignored (signals s)) ∧
  in_u64 (caught (signals s)) ∧
  in_u64 (channel s) ∧
  in_u64 (swap_count s) ∧
  in_u64 (swap_count_children s) ∧
  in_i32 (exit_signal s) ∧
  in_i32 (cpu_count s) ∧
  in_u32 (realtime_priority s) ∧
  in_u32 (scheduling_policy s) ∧
  in_u64 (aggregated_block_io_delays s) ∧
  in_u64 (guest_time s) ∧
  in_u64 (guest_time_children s).

(** Numbers, each after a space, and the end of the line. *)
Definition fields (l : list Z) : str := concat ((λ n, " "%char :: print_dec n) <$> l) ++ ["010"%char].

(** The line the kernel prints for the process described by [s], in state [c] and with
    the command name [comm]. *)
Definition stat_line (s : Stat) (comm : str) (c : ascii) : str :=
  print_dec (pid s) ++ $" (" ++ comm ++ $") " ++ [c] ++ fields (numbers s).

Lemma fields_nondigit l : starts_nondigit (fields l).
Proof. by destruct l. Qed.

Lemma read_field lo hi old n l :
  lo ≤ n ≤ hi → lo ≤ 0 → read_int lo hi old (mkIn (fields (n :: l)) false) = (n, mkIn (fields l) false).
Proof.
  intros Hn Hlo. unfold fields at 1. rewrite fmap_cons. cbn [concat].
  change (" "%char :: print_dec n) with ([" "%char] ++ print_dec n). rewrite <- !app_assoc.
  apply read_int_print; [done..|apply fields_nondigit].
Qed.

Lemma read_pid old n r :
  in_i32 n → starts_nondigit r → read_i32 old (mkIn (print_dec n ++ r) false) = (n, mkIn r false).
Proof. intros Hn Hr. unfold in_i32 in Hn. apply (read_int_print _ _ old [] n r); [lia|lia|done..]. Qed.

Lemma read_State_char c r :
  is_space c = false → read_State (mkIn (" "%char :: c :: r) false) = (Some (state_of_char c), mkIn r false).
Proof. intros Hc. unfold read_State, read_char. simpl. by rewrite Hc. Qed.

(** Words without white space. *)
Definition solid (s : str) : Prop := forallb (negb ∘ is_space) s = true.

Lemma solid_app s1 s2 : solid s1 → solid s2 → solid (s1 ++ s2).
Proof. unfold solid. rewrite forallb_app. by intros -> ->. Qed.

(** One numeric member: a read from the front of the remaining fields. *)
Lemma read_field_i32 old n l :
  in_i32 n → read_i32 old (mkIn (fields (n :: l)) false) = (n, mkIn (fields l) false).
Proof. intros Hn. unfold in_i32 in Hn. apply read_field; lia. Qed.
Lemma read_field_u32 old n l :
  in_u32 n → read_u32 old (mkIn (fields (n :: l)) false) = (n, mkIn (fields l) false).
Proof. intros Hn. unfold in_u32 in Hn. apply read_field; lia. Qed.
Lemma read_field_i64 old n l :
  in_i64 n → read_i64 old (mkIn (fields (n :: l)) false) = (n, mkIn (fields l) false).
Proof. intros Hn. unfold in_i64 in Hn. apply read_field; lia. Qed.
Lemma read_field_u64 old n l :
  in_u64 n → read_u64 old (mkIn (fields (n :: l)) false) = (n, mkIn (fields l) false).
Proof. intros Hn. unfold in_u64 in Hn. apply read_field; lia. Qed.

Ltac read_numbers :=
  repeat (first [rewrite read_field_u64 by assumption|rewrite read_field_i32 by assumption
    |rewrite read_field_i64 by assumption|rewrite read_field_u32 by assumption]; cbv beta iota).

Lemma read_Stat_line s comm c old :
  in_range s → executable s = $"(" ++ comm ++ $")" → solid comm → is_space c = false →
  state s = Some (state_of_char c) →
  read_Stat old (mkIn (stat_line s comm c) false) = (s, mkIn (fields []) false).
Proof.
  intros Hr Hx Hc Hsp Hst. unfold in_range in Hr.
  destruct s as [? ? ? ? ? ? ? ? ? ? ? ? ? [] ? ? ? ? ? [] [] [] ? ? ? ? ? ? ? ? ? ?]; simpl in Hx, Hst, Hr.
  destruct_and! Hr. subst. unfold read_Stat, stat_line, numbers. simpl pid.
  rewrite read_pid by done. cbv beta iota.
  change ($" (" ++ comm ++ $") " ++ [c] ++ ?r) with ([" "%char] ++ ("("%char :: comm ++ $") " ++ [c] ++ r)).
  match goal with |- context [[" "%char] ++ ("("%char :: comm ++ $") " ++ ?r)] =>
    replace ("("%char :: comm ++ $") " ++ r) with (($"(" ++ comm ++ $")") ++ " "%char :: r)
      by (by rewrite <- !app_assoc) end.
  rewrite read_word_print; [|done|by repeat apply solid_app|done..]. cbv beta iota.
  cbn [app]. rewrite read_State_char by done. cbv beta iota.
  cbn [time size addresses signals parent process_group]. read_numbers. reflexivity.
Qed.

Section procfs.
Context {W : Type} {K : FileKernel W}.
Implicit Types (w : W) (process : Process.t).

(** C30: reading /proc/PID/stat gives back the process status the kernel printed, all 44
    members, whatever the object held before, as long as the command name contains no
    white space. *)
Theorem stat_roundtrip process s comm c old w :
  in_range s → executable s = $"(" ++ comm ++ $")" → solid comm → is_space c = false →
  state s = Some (state_of_char c) →
  file w (proc_path process ($"/stat")) = Some (stat_line s comm c) →
  Stat.read process old w = s.
Proof.
  intros Hr Hx Hc Hsp Hst Hf. unfold Stat.read, ifstream. rewrite Hf. by rewrite (read_Stat_line s).
Qed.

(** A command name with a space in it is cut there: [executable] is only the part
    before the space and [state] the first character after it. *)
Theorem stat_comm_with_space process s a d b c old w :
  in_i32 (pid s) → solid a → is_space d = false →
  file w (proc_path process ($"/stat")) = Some (stat_line s (a ++ " "%char :: d :: b) c) →
  let r := Stat.read process old w in
  pid r = pid s ∧ executable r = $"(" ++ a ∧ state r = Some (state_of_char d).
Proof.
  intros Hp Ha Hd Hf. unfold Stat.read, ifstream. rewrite Hf. unfold stat_line, read_Stat.
  rewrite read_pid by done. cbv beta iota.
  match goal with |- context [mkIn ?t false] =>
    replace t with ([" "%char] ++ ($"(" ++ a) ++ " "%char :: d :: b ++ $") " ++ [c] ++ fields (numbers s))
      by (by rewrite <- !app_assoc) end.
  rewrite read_word_print; [|done|by apply solid_app|done..]. cbv beta iota.
  rewrite read_State_char by done. cbv beta iota.
  repeat match goal with |- context [match ?x with (_, _) => _ end] => destruct x end. done.
Qed.

(** When the file cannot be read (the process is gone) nothing is reported: every
    member keeps its old value, except that [state] is set from an uninitialised
    variable. *)
Theorem stat_unreadable process old w :
  file w (proc_path process ($"/stat")) = None →
  ∃ r, Stat.read process old w = r ∧ state r = None ∧
    pid r = pid old ∧ executable r = executable old ∧ numbers r = numbers old.
Proof. intros Hf. eexists. split; [done|]. unfold Stat.read, ifstream. rewrite Hf. by destruct old as [? ? ? ? ? ? ? ? ? ? ? ? ? [] ? ? ? ? ? [] [] [] ? ? ? ? ? ? ? ? ? ?]. Qed.

(** [OomAdj] values are written exactly when they are in -17..15: a value outside
    throws std::logic_error before any file is touched, any other (the disabling -17,
    below [min_value()], included) is written in decimal to the oom_adj file. *)
Theorem oom_adj_write process adj w :
  OomAdj.write process adj w =
    if decide (-17 ≤ OomAdj.value adj ≤ 15) then
      (Ok tt, (write_file (proc_path process ($"/oom_adj")) (print_dec (OomAdj.value adj)) w).2)
    else (Throw (LogicError "Value for adjusting the oom score is invalid."), w).
Proof.
  unfold OomAdj.write, throw_if, OomAdj.is_valid, OomAdj.disable_value, OomAdj.max_value,
    OomAdj.OOM_DISABLE, OomAdj.OOM_ADJUST_MAX.
  case_decide; [rewrite !(proj2 (Z.leb_le _ _)) by lia; done|].
  destruct (Z.leb_spec (-17) (OomAdj.value adj)); [|done].
  destruct (Z.leb_spec (OomAdj.value adj) 15); [lia|done].
Qed.

(** Reading one of the oom files that holds a decimal [int] gives that value, and an
    unreadable file leaves the object as it was, without an exception. *)
Theorem oom_read process n w :
  in_i32 n →
  (file w (proc_path process ($"/oom_score")) = Some (print_dec n ++ ["010"%char]) →
   ∀ old, OomScore.read process old w = OomScore.mk n) ∧
  (file w (proc_path process ($"/oom_adj")) = Some (print_dec n ++ ["010"%char]) →
   ∀ old, OomAdj.read process old w = OomAdj.mk n) ∧
  (file w (proc_path process ($"/oom_score_adj")) = Some (print_dec n ++ ["010"%char]) →
   ∀ old, OomScoreAdj.read process old w = OomScoreAdj.mk n) ∧
  (file w (proc_path process ($"/oom_score")) = None →
   ∀ old, OomScore.read process old w = old).
Proof.
  intros Hn. unfold OomScore.read, OomAdj.read, OomScoreAdj.read, ifstream.
  split_and!; intros -> [old]; [by rewrite read_pid..|done].
Qed.

(** proc(5): the kernel accepts a score adjustment in its range and reports it back, or
    refuses the write. *)
Class ScoreAdjLaw : Prop := score_adj_law process n w ok w' :
  OomScoreAdj.OOM_SCORE_ADJ_MIN ≤ n ≤ OomScoreAdj.OOM_SCORE_ADJ_MAX →
  write_file (proc_path process ($"/oom_score_adj")) (print_dec n) w = (ok, w') →
  if ok : bool then
    file w' (proc_path process ($"/oom_score_adj")) = Some (print_dec n ++ ["010"%char])
  else w' = w.

(** C40: an [OomScoreAdj] below -1000 or above 1000 throws std::logic_error and changes
    nothing; a value in the range never throws: when the kernel accepts the write, reading
    returns exactly that value afterwards, into any object, and when it refuses, the value is
    silently dropped and nothing has changed. *)
Theorem oom_score_adj_roundtrip {L : ScoreAdjLaw} process adj w r w' :
  OomScoreAdj.write process adj w = (r, w') →
  if decide (-1000 ≤ OomScoreAdj.value adj ≤ 1000) then
    r = Ok tt ∧
    if (write_file (proc_path process ($"/oom_score_adj")) (print_dec (OomScoreAdj.value adj)) w).1
    then ∀ old, OomScoreAdj.read process old w' = adj
    else w' = w
  else r = Throw (LogicError "Value for adjusting the oom score is invalid.") ∧ w' = w.
Proof.
  unfold OomScoreAdj.write, throw_if, OomScoreAdj.is_valid, OomScoreAdj.min_value, OomScoreAdj.max_value,
    OomScoreAdj.OOM_SCORE_ADJ_MIN, OomScoreAdj.OOM_SCORE_ADJ_MAX.
  case_decide as Hr; [rewrite !(proj2 (Z.leb_le _ _)) by lia|]; simpl.
  - intros [= <- <-]. split; [done|].
    destruct (write_file _ _ w) as [ok w1] eqn:Ew. apply score_adj_law in Ew; [|done]. simpl.
    destruct ok; [|done]. intros [old]. unfold OomScoreAdj.read, ifstream. rewrite Ew.
    rewrite read_pid; [by destruct adj|unfold in_i32; lia|done].
  - destruct (Z.leb_spec (-1000) (OomScoreAdj.value adj)); [|by intros [= <- <-]].
    destruct (Z.leb_spec (OomScoreAdj.value adj) 1000); [lia|by intros [= <- <-]].
Qed.
End procfs.

(** ** Witnesses *)

(** A /proc with plain files. *)
Abbreviation proc_ex := (gmap (list ascii) (list ascii)).
#[export] Instance proc_ex_files : FileKernel proc_ex := {|
  file := λ w p, w !! p;
  write_file := λ p s w, match w !! p with Some _ => (true, <[p := s ++ ["010"%char]]> w) | None => (false, w) end |}.

#[export] Instance proc_ex_law : ScoreAdjLaw (W := proc_ex).
Proof.
  intros process n w ok w' _. simpl. destruct (w !! _); intros [= <- <-]; [|done].
  by rewrite lookup_insert_eq.
Qed.

Definition self_ex : Process.t := Process.mk (Signalable.ctor 42) 42.
Definition stat_ex : Stat :=
  mkStat 42 ($"(cat)") (Some running) 1 42 42 (-1) 42 4194304 1 2 3 4 (mkTime 5 6 7 8) 20 0 1 0 1000
    (mkSize 4096 1 (2 ^ 64 - 1)) (mkAddresses 1 2 3 4 5) (mkSignals 0 0 0 0) 0 0 0 17 3 0 0 0 0 0.

Lemma stat_roundtrip_witness :
  Stat.read self_ex default_Stat
    (<[$"/proc/42/stat" := $"42 (cat) R 1 42 42 -1 42 4194304 1 2 3 4 5 6 7 8 20 0 1 0 1000 4096 1 18446744073709551615 1 2 3 4 5 0 0 0 0 0 0 0 17 3 0 0 0 0 0" ++ ["010"%char]]> (∅ : proc_ex)) = stat_ex.
Proof.
  apply (stat_roundtrip self_ex stat_ex ($"cat") "R"%char).
  - unfold in_range, in_i32, in_u32, in_i64, in_u64. simpl. repeat split; lia.
  - reflexivity.
  - reflexivity.
  - reflexivity.
  - reflexivity.
  - vm_compute. reflexivity.
Defined.

Lemma stat_comm_with_space_witness :
  executable (Stat.read self_ex default_Stat
    (<[$"/proc/42/stat" := stat_line stat_ex ($"tmux: server") "S"%char]> (∅ : proc_ex))) = $"(tmux:".
Proof.
  apply (stat_comm_with_space self_ex stat_ex ($"tmux:") "s"%char ($"erver") "S"%char default_Stat).
  - unfold in_i32. simpl. lia.
  - reflexivity.
  - reflexivity.
  - vm_compute. reflexivity.
Defined.

Lemma stat_unreadable_witness : pid (Stat.read self_ex default_Stat (∅ : proc_ex)) = 1.
Proof.
  destruct (stat_unreadable (K := proc_ex_files) self_ex default_Stat (∅ : proc_ex)
    (lookup_empty _))
    as (r & -> & _ & Hp & _). exact Hp.
Defined.

Lemma oom_read_witness :
  OomScore.read self_ex OomScore.default_OomScore
    (<[$"/proc/42/oom_score" := $"667" ++ ["010"%char]]> (∅ : proc_ex)) = OomScore.mk 667.
Proof.
  apply (oom_read self_ex 667); [unfold in_i32; lia|vm_compute; reflexivity].
Defined.

Lemma oom_score_adj_roundtrip_witness :
  ∃ w' : proc_ex,
    OomScoreAdj.write self_ex (OomScoreAdj.mk (-500)) (<[$"/proc/42/oom_score_adj" := $"0"]> ∅) = (Ok tt, w') ∧
    OomScoreAdj.read self_ex (OomScoreAdj.mk 0) w' = OomScoreAdj.mk (-500).
Proof.
  destruct (OomScoreAdj.write self_ex (OomScoreAdj.mk (-500))
    (<[$"/proc/42/oom_score_adj" := $"0"]> (∅ : proc_ex))) as [r w'] eqn:Ew.
  pose proof (oom_score_adj_roundtrip (L := proc_ex_law) self_ex (OomScoreAdj.mk (-500)) _ _ _ Ew) as H.
  rewrite decide_True in H by (simpl; lia). destruct H as [-> H]. exists w'. split; [reflexivity|].
  assert ((write_file (proc_path self_ex ($"/oom_score_adj")) (print_dec (OomScoreAdj.value (OomScoreAdj.mk (-500))))
    (<[$"/proc/42/oom_score_adj" := $"0"]> (∅ : proc_ex))).1 = true) as Hw by (vm_compute; reflexivity).
  rewrite Hw in H. apply H.
Defined.
