(* ===== verification/SignalTrap.v ===== *)
(** * core::posix::SignalTrap

    [src/core/posix/signal.cpp]: blocking signals, receiving them through a
    signalfd and emitting [signal_raised], until [stop] writes to an eventfd.
    The loop of [run] is driven by a script, the list of what the successive
    calls of poll (and read) report, so that every behaviour of the kernel and of
    the other threads is some script; a script that ends means that the loop is
    blocked in poll.  The slots connected to [signal_raised] are a parameter and
    may throw. *)

From S2P Require Import Prelude.
From S2P Require Import Types.
From S2P Require Import CppString.
From S2P Require Import Kernel.
From S2P Require Import RefKernel.
From S2P Require Import Extend.

(** ** sigset_t *)

(** <signal.h>: the signal numbers a set can hold. *)
Definition sig_valid (n : Z) : bool := (1 <=? n) && (n <=? 64).

Definition sigaddset (s : gset Z) (n : Z) : gset Z := if sig_valid n then s ∪ {[n]} else s.

(** 1, 0, or -1 for a number that is not a signal *)
Definition sigismember (s : gset Z) (n : Z) : Z :=
  if sig_valid n then (if decide (n ∈ s) then 1 else 0) else -1.

(** ** The kernel *)

Class SigKernel (W : Type) : Type := {
  sigmask : W → gset Z;
  sys_sigprocmask : gset Z → W → gset Z * W;     (* SIG_BLOCK, returns the old mask *)
  sys_pthread_sigmask : gset Z → W → gset Z * W;
  sys_eventfd : W → Z * W;
  sys_signalfd : gset Z → W → Z * W;
  event_count : W → Z → Z;                        (* the counter behind an eventfd *)
  sys_write_event : Z → W → Z * W;                (* adds 1; bytes written *)
  sys_read_event : Z → W → Z * W }.               (* resets to 0; bytes read *)

(** Signals that cannot be blocked: SIGKILL and SIGSTOP. *)
Definition unblockable : gset Z := {[9; 19]}.

(** What a new descriptor does to the table. *)
Definition opens {W} `{FdKernel W} (w : W) (rc : Z) (w' : W) : Prop :=
  (rc = -1 ∧ fd_table w' = fd_table w) ∨
  (0 ≤ rc ∧ fd_table w !! rc = None ∧ ∃ o, fd_table w' = <[rc := o]> (fd_table w)).

(** sigprocmask(2), pthread_sigmask(3), eventfd(2) (EFD_NONBLOCK), signalfd(2) *)
Class SigLaws (W : Type) {K : FdKernel W} {S : SigKernel W} : Prop := {
  sigprocmask_law s w o w' :
    sys_sigprocmask s w = (o, w') →
    o = sigmask w ∧ sigmask w' = sigmask w ∪ (s ∖ unblockable) ∧ fd_table w' = fd_table w;
  pthread_sigmask_law s w o w' :
    sys_pthread_sigmask s w = (o, w') →
    o = sigmask w ∧ sigmask w' = sigmask w ∪ (s ∖ unblockable) ∧ fd_table w' = fd_table w;
  eventfd_law w rc w' : sys_eventfd w = (rc, w') → opens w rc w' ∧ sigmask w' = sigmask w;
  signalfd_law s w rc w' : sys_signalfd s w = (rc, w') → opens w rc w' ∧ sigmask w' = sigmask w;
  write_event_law fd w rc w' :
    sys_write_event fd w = (rc, w') →
    (rc = 8 ∧ event_count w' fd = event_count w fd + 1) ∨ (rc = -1 ∧ event_count w' fd = event_count w fd);
  read_event_law fd w rc w' :
    sys_read_event fd w = (rc, w') →
    (rc = 8 ∧ 0 < event_count w fd ∧ event_count w' fd = 0) ∨
    (rc = -1 ∧ event_count w fd = 0 ∧ event_count w' fd = 0);
  close_mask_law fd w rc w' : sys_close fd w = (rc, w') → sigmask w' = sigmask w;
  masked_law w : sigmask w ## unblockable }.

Module SignalTrap.

Inductive Scope : Type := process | thread.
Inductive State : Type := not_running | running.

#[global] Instance State_eq_dec : EqDecision State.
Proof. solve_decision. Defined.

Record t : Type := mk {
  scope : Scope;
  state : State;
  event_fd : Z;
  old_signals_mask : gset Z;
  blocked_signals_mask : gset Z }.

Definition set_state (s : State) (self : t) : t :=
  mk (scope self) s (event_fd self) (old_signals_mask self) (blocked_signals_mask self).

(** What one call of poll reports, with what the read of the signalfd returns when its
    POLLIN is set: the byte count and the numbers in the buffer. *)
Inductive poll_event : Type :=
| PollFailed (errno : Z)
| PollZero
| PollReady (signals : option (Z * list Z)) (event : bool).

Definition signal_info_buffer_size : nat := 5.
Definition sizeof_siginfo : Z := 128.

Section operations.
Context {W : Type} {E : Errno W} {K : FdKernel W} {S : SigKernel W}.
(** The slots of [on_signal_raised]. *)
Context (on_signal_raised : Signal.t → M W unit).

Definition set_thread_signal_mask (new_mask : gset Z) : W → gset Z * W := sys_pthread_sigmask new_mask.
Definition set_process_signal_mask (new_mask : gset Z) : W → gset Z * W := sys_sigprocmask new_mask.

Definition set_mask (sc : Scope) : gset Z → W → gset Z * W :=
  match sc with process => set_process_signal_mask | thread => set_thread_signal_mask end.

Definition ctor (sc : Scope) (blocked_signals : list Signal.t) : M W t :=
  fd ← call sys_eventfd;
  if fd =? -1 then throw_errno else
  let blocked := foldl sigaddset ∅ blocked_signals in
  old ← call (set_mask sc blocked);
  mret (mk sc not_running fd old blocked).

Definition dtor (self : t) (w : W) : W :=
  let '(_, w) := set_mask (scope self) (old_signals_mask self) w in
  (sys_close (event_fd self) w).2.

(** The int is converted to bool. *)
Definition has (self : t) (signal : Signal.t) : bool :=
  negb (sigismember (blocked_signals_mask self) signal =? 0).

(** Inside a member function: the object and the kernel. *)
Definition liftW {A} (m : M W A) : M (t * W) A := zoom snd (λ w s, (s.1, w)) m.

(** The inner loop over the buffer, from [i], for [n] more entries. *)
Fixpoint dispatch (infos : list Z) (i n : nat) : M (t * W) unit :=
  match n with
  | O => mret tt
  | Datatypes.S n =>
      match infos !! i with
      | Some signo =>
          self ← gets fst;
          (if has self (i32 signo) then liftW (on_signal_raised (i32 signo)) else mret tt) ;;
          dispatch infos (Datatypes.S i) n
      | None => undefined
      end
  end.

(** [result / sizeof(signalfd_siginfo)], in unsigned arithmetic; more entries than the
    buffer has are an access out of bounds. *)
Definition entries (result : Z) : Z := u64 result / sizeof_siginfo.

Definition read_signals (result : Z) (infos : list Z) : M (t * W) unit :=
  if Z.of_nat signal_info_buffer_size <? entries result then undefined
  else dispatch infos 0 (Z.to_nat (entries result)).

(** [auto result = ::read(event_fd, &value, sizeof(value));], the result discarded. *)
Definition drain_event : M (t * W) unit :=
  self ← gets fst;
  _ ← liftW (call (sys_read_event (event_fd self)));
  mret tt.

(** The loop: [true] when it is left, [false] when it is still waiting in poll. *)
Fixpoint loop (script : list poll_event) : M (t * W) bool :=
  match script with
  | [] => mret false
  | PollFailed e :: script => if e =? EINTR then loop script else mret true
  | PollZero :: script => loop script
  | PollReady sigs event :: script =>
      match sigs with Some (result, infos) => read_signals result infos | None => mret tt end ;;
      if event then drain_event ;; mret true else loop script
  end.

(** The destructor of the local [scope]. *)
Definition close_signal_fd (fd : Z) (s : t * W) : t * W :=
  if fd =? -1 then s else (s.1, (sys_close fd s.2).2).

Definition run (script : list poll_event) : M (t * W) bool :=
  self ← gets fst;
  throw_if (bool_decide (state self = running)) (RuntimeError "SignalTrap::run can only be run once.") ;;
  modify (λ s, (set_state running s.1, s.2)) ;;
  fd ← liftW (call (sys_signalfd (blocked_signals_mask self)));
  on_throw (
    (if fd =? -1 then liftW throw_errno else mret tt) ;;
    left ← loop script;
    if (left : bool) then
      modify (λ s, (set_state not_running s.1, s.2)) ;;
      modify (close_signal_fd fd) ;;
      mret true
    else mret false) (close_signal_fd fd).

Definition sizeof_value : Z := 8.

Definition stop (self : t) : M W unit :=
  n ← call (sys_write_event (event_fd self));
  if n =? sizeof_value then mret tt else throw_errno.

Definition trap_signals_for_process (blocked_signals : list Signal.t) : M W t :=
  ctor process blocked_signals.
Definition trap_signals_for_all_subsequent_threads (blocked_signals : list Signal.t) : M W t :=
  ctor thread blocked_signals.

End operations.
End SignalTrap.

(** ** Lemmas *)

Lemma elem_of_sigaddsets n l s :
  n ∈ foldl sigaddset s l ↔ n ∈ s ∨ (n ∈ l ∧ sig_valid n = true).
Proof.
  revert s. induction l as [|m l IH]; intros s; simpl; [set_solver|].
  rewrite IH. unfold sigaddset. destruct (sig_valid m) eqn:Hm; set_unfold; naive_solver congruence.
Qed.

Lemma has_mask t s :
  sig_valid s = true → SignalTrap.has t s = bool_decide (s ∈ SignalTrap.blocked_signals_mask t).
Proof. unfold SignalTrap.has, sigismember. intros ->. by case_decide; case_bool_decide. Qed.

Section lemmas.
Context {W : Type} {E : Errno W} {K : FdKernel W} {S : SigKernel W}.
Implicit Types (w : W) (self : SignalTrap.t).

(** The parts of a script the loop goes through without leaving. *)
Definition signals_of (e : SignalTrap.poll_event) : list Z :=
  match e with
  | SignalTrap.PollReady (Some (result, infos)) _ => take (Z.to_nat (result / 128)) infos
  | _ => []
  end.

(** A read that delivered 1 to 5 whole entries, each with a signal number. *)
Definition read_ok (sigs : option (Z * list Z)) : Prop :=
  match sigs with
  | None => True
  | Some (result, infos) =>
      ∃ n : nat, result = 128 * Z.of_nat n ∧ (n ≤ 5)%nat ∧ (n ≤ length infos)%nat ∧
        Forall (λ s, sig_valid s = true) infos
  end.

Definition quiet (e : SignalTrap.poll_event) : Prop :=
  match e with
  | SignalTrap.PollFailed e => e = EINTR
  | SignalTrap.PollZero => True
  | SignalTrap.PollReady sigs event => event = false ∧ read_ok sigs
  end.

(** Slots that do their work without throwing. *)
Definition slots (emit : Signal.t → W → W) (s : Signal.t) : M W unit := modify (emit s).

(** The effect of emitting the trapped signals of [l], in order. *)
Definition emitted (emit : Signal.t → W → W) self (l : list Z) w : W :=
  foldl (λ w s, emit s w) w (filter (λ s, SignalTrap.has self s = true) l).

Lemma emitted_app emit self l1 l2 w :
  emitted emit self (l1 ++ l2) w = emitted emit self l2 (emitted emit self l1 w).
Proof. unfold emitted. by rewrite filter_app, foldl_app. Qed.

Lemma dispatch_spec emit infos i n self w :
  (i + n ≤ length infos)%nat → Forall (λ s, sig_valid s = true) infos →
  SignalTrap.dispatch (slots emit) infos i n (self, w) =
    (Ok tt, (self, emitted emit self (take n (drop i infos)) w)).
Proof.
  revert i w. induction n as [|n IH]; intros i w Hlen Hv; [done|]. cbn [SignalTrap.dispatch].
  destruct (lookup_lt_is_Some_2 infos i ltac:(lia)) as [s Hs]. rewrite Hs.
  assert (sig_valid s = true) as Hsv by (by eapply Forall_lookup_1 in Hs; [|exact Hv]).
  unfold sig_valid in Hsv. apply andb_true_iff in Hsv as [H1%Z.leb_le H2%Z.leb_le].
  rewrite swrap_small by lia. rewrite (drop_S infos s) by done. cbn [take].
  cbv [mbind M_bind gets]. cbn [fst snd]. unfold emitted. rewrite filter_cons.
  destruct (SignalTrap.has self s).
  - rewrite decide_True by done. cbv [SignalTrap.liftW zoom slots modify]. cbn [fst snd].
    rewrite IH by (done || lia). done.
  - rewrite decide_False by done. cbv [mret M_ret]. rewrite IH by (done || lia). done.
Qed.

Lemma read_signals_spec emit result infos self w :
  read_ok (Some (result, infos)) →
  SignalTrap.read_signals (slots emit) result infos (self, w) =
    (Ok tt, (self, emitted emit self (take (Z.to_nat (result / 128)) infos) w)).
Proof.
  intros (n & -> & H5 & Hl & Hv). unfold SignalTrap.read_signals, SignalTrap.entries.
  unfold SignalTrap.sizeof_siginfo, SignalTrap.signal_info_buffer_size.
  rewrite uwrap_small by lia. rewrite (Z.mul_comm 128), Z.div_mul by lia. rewrite Nat2Z.id.
  destruct (Z.ltb_spec (Z.of_nat 5) (Z.of_nat n)); [lia|].
  rewrite dispatch_spec by (done || lia). done.
Qed.

Lemma loop_quiet emit pre script self w :
  Forall quiet pre →
  SignalTrap.loop (slots emit) (pre ++ script) (self, w) =
    SignalTrap.loop (slots emit) script (self, emitted emit self (pre ≫= signals_of) w).
Proof.
  intros Hq. revert w. induction Hq as [|e pre He Hq IH]; intros w; [done|].
  change ((e :: pre) ++ script) with (e :: (pre ++ script)). cbn [SignalTrap.loop].
  destruct e as [err| |[[result infos]|] event]; simpl in He.
  - subst. simpl. apply IH.
  - apply IH.
  - destruct He as [-> Hr]. unfold mbind at 1, M_bind. rewrite read_signals_spec by done. cbv beta match.
    rewrite IH. cbn [mbind list_bind signals_of]. by rewrite emitted_app.
  - destruct He as [-> _]. apply IH.
Qed.

Context (on_signal_raised : Signal.t → M W unit).

(** Nothing in the loop touches the object. *)
Definition object_is self (s : SignalTrap.t * W) : Prop := s.1 = self.

Lemma liftW_object self {A} (m : M W A) : preserves (object_is self) (SignalTrap.liftW m).
Proof. intros [x w]. unfold SignalTrap.liftW, zoom. simpl. by destruct (m w). Qed.

Lemma read_signals_object self result infos :
  preserves (object_is self) (SignalTrap.read_signals on_signal_raised result infos).
Proof.
  assert (∀ n i, preserves (object_is self) (SignalTrap.dispatch on_signal_raised infos i n)) as HD.
  { induction n as [|n IH]; intros i; cbn [SignalTrap.dispatch]; [apply preserves_ret|].
    destruct (infos !! i); [|apply preserves_undefined].
    apply preserves_bind; [apply preserves_gets|intros x].
    apply preserves_bind; [|intros _; apply IH]. apply preserves_if; [apply liftW_object|apply preserves_ret]. }
  unfold SignalTrap.read_signals. apply preserves_if; [apply preserves_undefined|apply HD].
Qed.

Lemma drain_object self : preserves (object_is self) (SignalTrap.drain_event ;; mret true).
Proof.
  apply preserves_bind; [|intros; apply preserves_ret].
  apply preserves_bind; [apply preserves_gets|intros x].
  apply preserves_bind; [apply liftW_object|intros; apply preserves_ret].
Qed.

Lemma loop_object self script : preserves (object_is self) (SignalTrap.loop on_signal_raised script).
Proof.
  induction script as [|[e| |[[result infos]|] event] script IH]; cbn [SignalTrap.loop].
  - apply preserves_ret.
  - apply preserves_if; [done|apply preserves_ret].
  - done.
  - apply preserves_bind; [apply read_signals_object|intros _; apply preserves_if; [apply drain_object|done]].
  - apply preserves_bind; [apply preserves_ret|intros _; apply preserves_if; [apply drain_object|done]].
Qed.
End lemmas.

Section properties.
Context {W : Type} {E : Errno W} {K : FdKernel W} {S : SigKernel W}.
Implicit Types (w : W) (self : SignalTrap.t).

(** [run] on a trap that is not running and gets its signalfd. *)
Lemma run_eq on_signal_raised script self w fd w1 :
  SignalTrap.state self = SignalTrap.not_running →
  sys_signalfd (SignalTrap.blocked_signals_mask self) w = (fd, w1) → fd ≠ -1 →
  SignalTrap.run on_signal_raised script (self, w) =
    match SignalTrap.loop on_signal_raised script (SignalTrap.set_state SignalTrap.running self, w1) with
    | (Ok true, s) => (Ok true, (SignalTrap.set_state SignalTrap.not_running s.1, (sys_close fd s.2).2))
    | (Ok false, s) => (Ok false, s)
    | (Throw x, s) => (Throw x, (s.1, (sys_close fd s.2).2))
    | (Undefined, s) => (Undefined, s)
    end.
Proof.
  intros Hst Hfd Hne. unfold SignalTrap.run, SignalTrap.close_signal_fd.
  cbv [mbind M_bind gets throw_if modify on_throw]. cbn [fst snd]. rewrite Hst. simpl.
  cbv [SignalTrap.liftW zoom call]. cbn [fst snd]. rewrite Hfd.
  rewrite (proj2 (Z.eqb_neq fd (-1))) by done. cbv [mret M_ret].
  by destruct (SignalTrap.loop _ _ _) as [[[]|x|] s].
Qed.

Lemma drain_eq self w :
  (SignalTrap.drain_event ;; mret true) (self, w) =
    (Ok true, (self, (sys_read_event (SignalTrap.event_fd self) w).2)).
Proof.
  cbv [SignalTrap.drain_event mbind M_bind gets SignalTrap.liftW zoom call mret M_ret]. cbn [fst snd].
  by destruct (sys_read_event _ w).
Qed.

(** A run that ends with a stop request. *)
Lemma run_stopped emit pre sigs script self w fd w1 :
  SignalTrap.state self = SignalTrap.not_running →
  sys_signalfd (SignalTrap.blocked_signals_mask self) w = (fd, w1) → fd ≠ -1 →
  Forall quiet pre → read_ok sigs →
  SignalTrap.run (slots emit) (pre ++ SignalTrap.PollReady sigs true :: script) (self, w) =
    (Ok true, (self, (sys_close fd (sys_read_event (SignalTrap.event_fd self) (emitted emit self
      ((pre ≫= signals_of) ++ signals_of (SignalTrap.PollReady sigs true)) w1)).2).2)).
Proof.
  intros Hst Hfd Hne Hpre Hsigs. rewrite (run_eq _ _ _ _ fd w1), loop_quiet by done.
  assert (∀ l (v : W), emitted emit (SignalTrap.set_state SignalTrap.running self) l v = emitted emit self l v)
    as Hset by done.
  assert (SignalTrap.set_state SignalTrap.not_running (SignalTrap.set_state SignalTrap.running self) = self)
    as Hself by (destruct self; simpl in *; by rewrite Hst).
  rewrite emitted_app. cbn [SignalTrap.loop]. unfold mbind at 1, M_bind.
  destruct sigs as [[result infos]|].
  - rewrite read_signals_spec, !Hset by done. cbv beta match.
    rewrite drain_eq. cbn [fst snd]. by rewrite Hself.
  - cbv [mret M_ret]. rewrite !Hset. rewrite drain_eq. cbn [fst snd signals_of]. by rewrite Hself.
Qed.

(** A run that ends with an error of poll. *)
Lemma run_poll_failed emit pre e self w fd w1 :
  SignalTrap.state self = SignalTrap.not_running →
  sys_signalfd (SignalTrap.blocked_signals_mask self) w = (fd, w1) → fd ≠ -1 →
  Forall quiet pre → e ≠ EINTR →
  SignalTrap.run (slots emit) (pre ++ [SignalTrap.PollFailed e]) (self, w) =
    (Ok true, (self, (sys_close fd (emitted emit self (pre ≫= signals_of) w1)).2)).
Proof.
  intros Hst Hfd Hne Hpre He. rewrite (run_eq _ _ _ _ fd w1), loop_quiet by done.
  cbn [SignalTrap.loop]. rewrite (proj2 (Z.eqb_neq e EINTR)) by done. cbv [mret M_ret]. cbn [fst snd].
  assert (SignalTrap.set_state SignalTrap.not_running (SignalTrap.set_state SignalTrap.running self) = self)
    as -> by (destruct self; simpl in *; by rewrite Hst).
  done.
Qed.

(** C26: [run] emits exactly the trapped signals that were read, in the order of their
    arrival, including those read together with the stop request, and then returns with
    the stop request consumed, the state reset and the signalfd closed: interruptions, empty polls and signals that
    are not trapped have no effect. *)
Theorem run_delivers emit pre sigs script self w fd w1 :
  SignalTrap.state self = SignalTrap.not_running →
  sys_signalfd (SignalTrap.blocked_signals_mask self) w = (fd, w1) → fd ≠ -1 →
  Forall quiet pre → read_ok sigs →
  SignalTrap.run (slots emit) (pre ++ SignalTrap.PollReady sigs true :: script) (self, w) =
    (Ok true, (self, (sys_close fd (sys_read_event (SignalTrap.event_fd self) (emitted emit self
      ((pre ≫= signals_of) ++ signals_of (SignalTrap.PollReady sigs true)) w1)).2).2)).
Proof. apply run_stopped. Qed.

(** Any exception out of [run] (no signalfd, a slot that throws, a second run) leaves
    the state at [running], so that from then on every [run] throws "SignalTrap::run can
    only be run once." without doing anything. *)
Theorem run_exception_is_final on_signal_raised script self w x self' w' :
  SignalTrap.run on_signal_raised script (self, w) = (Throw x, (self', w')) →
  SignalTrap.state self' = SignalTrap.running ∧
  ∀ script2 w2, SignalTrap.run on_signal_raised script2 (self', w2) =
    (Throw (RuntimeError "SignalTrap::run can only be run once."), (self', w2)).
Proof.
  intros H. assert (SignalTrap.state self' = SignalTrap.running) as Hst.
  2: { split; [done|]. intros script2 w2. unfold SignalTrap.run, mbind, M_bind, gets, throw_if. simpl.
       by rewrite Hst. }
  unfold SignalTrap.run, mbind, M_bind, gets, throw_if, on_throw in H. simpl in H.
  destruct (SignalTrap.state self) eqn:Es; simpl in H; [|injection H as _ <- _; done].
  cbv [SignalTrap.liftW zoom call] in H. cbn [fst snd] in H.
  destruct (sys_signalfd _ w) as [fd w1] eqn:Efd. cbv beta match in H.
  pose proof (loop_object on_signal_raised (SignalTrap.set_state SignalTrap.running self) script
    (SignalTrap.set_state SignalTrap.running self, w1) eq_refl) as Hobj.
  destruct (Z.eqb_spec fd (-1)) as [->|Hne].
  - simpl in H. injection H as _ <- _. done.
  - cbv [mret M_ret] in H.
    destruct (SignalTrap.loop on_signal_raised script _) as [[[]|y|] [self1 w2]]; simpl in Hobj;
      try discriminate H.
    cbv [SignalTrap.close_signal_fd] in H. rewrite (proj2 (Z.eqb_neq fd (-1))) in H by done.
    injection H as _ <- _. by rewrite Hobj.
Qed.

(** When the read of the signalfd fails (it is non-blocking, so another reader can
    have taken the signals after poll), the -1 becomes a huge unsigned count and the loop
    runs past the buffer. *)
Theorem failed_read_overruns on_signal_raised infos event script self w :
  SignalTrap.loop (W := W) on_signal_raised (SignalTrap.PollReady (Some (-1, infos)) event :: script)
    (self, w) = (Undefined, (self, w)).
Proof. done. Qed.

(** A trap made for [signals] [has] exactly these, except that it also claims to have
    every number that is not a signal: [has(Signal::unknown)] is true. *)
Theorem trap_has sc signals w self w' :
  SignalTrap.ctor sc signals w = (Ok self, w') →
  (∀ s, SignalTrap.has self s = true ↔ s ∈ signals ∨ sig_valid s = false) ∧
  SignalTrap.has self Signal.unknown = true.
Proof.
  intros H. assert (SignalTrap.blocked_signals_mask self = foldl sigaddset ∅ signals) as Hb.
  { unfold SignalTrap.ctor, mbind, M_bind, call in H. destruct (sys_eventfd w) as [fd w1].
    destruct (fd =? -1); [done|]. destruct (SignalTrap.set_mask _ _ _). by injection H as <- _. }
  split; [|done]. intros s. unfold SignalTrap.has, sigismember. rewrite Hb.
  destruct (sig_valid s) eqn:Hv; [|simpl; tauto].
  case_decide as Hin; rewrite elem_of_sigaddsets in Hin; set_solver.
Qed.

Context {LF : FdLaws W} {LS : SigLaws W}.

Lemma set_mask_law sc s w o w' :
  SignalTrap.set_mask sc s w = (o, w') →
  o = sigmask w ∧ sigmask w' = sigmask w ∪ (s ∖ unblockable) ∧ fd_table w' = fd_table w.
Proof. destruct sc; [apply sigprocmask_law|apply pthread_sigmask_law]. Qed.

Lemma trap_mask_spec sc signals w r w' :
  SignalTrap.ctor sc signals w = (r, w') →
  ((∃ e, r = Throw (SystemError e)) ∧ sigmask w' = sigmask w ∧ fd_table w' = fd_table w) ∨
  ∃ self, r = Ok self ∧
    (∀ s, s ∈ sigmask w' ↔ s ∈ sigmask w ∨ (s ∈ signals ∧ sig_valid s = true ∧ s ∉ unblockable)) ∧
    (∃ o, fd_table w' = <[SignalTrap.event_fd self := o]> (fd_table w)) ∧
    sigmask (SignalTrap.dtor self w') = sigmask w' ∧
    fd_table (SignalTrap.dtor self w') = fd_table w.
Proof.
  unfold SignalTrap.ctor, mbind, M_bind, call, throw_errno.
  destruct (sys_eventfd w) as [fd w1] eqn:Ee. apply eventfd_law in Ee as [Ho Hm].
  case_Zeqb as Hfd.
  - intros [= <- <-]. left. destruct Ho as [[_ ?]|[? _]]; [eauto|lia].
  - destruct Ho as [[? _]|(Hpos & Hfree & o & Ht)]; [lia|].
    destruct (SignalTrap.set_mask sc _ w1) as [old w2] eqn:Es. intros [= <- <-]. right. eexists. split; [done|].
    apply set_mask_law in Es as (-> & Hm2 & Ht2). simpl.
    assert (∀ s, s ∈ sigmask w2 ↔ s ∈ sigmask w ∨ (s ∈ signals ∧ sig_valid s = true ∧ s ∉ unblockable)) as Hs.
    { intros s. rewrite Hm2, Hm, elem_of_union, elem_of_difference, elem_of_sigaddsets. set_solver. }
    split_and!; [done|exists o; congruence|..].
    all: unfold SignalTrap.dtor; simpl; destruct (SignalTrap.set_mask sc _ w2) as [old3 w3] eqn:Es3;
      apply set_mask_law in Es3 as (_ & Hm3 & Ht3); destruct (sys_close fd w3) as [rc w4] eqn:Ec; simpl.
    + rewrite (close_mask_law _ _ _ _ Ec), Hm3. apply set_eq. intros s.
      rewrite elem_of_union, elem_of_difference, Hs, Hm. tauto.
    + rewrite (close_law _ _ _ _ Ec), Ht3, Ht2, Ht. by rewrite delete_insert_id.
Qed.

(** C37: construction blocks the given signals on top of what was blocked and opens one
    descriptor; if the descriptor cannot be opened it throws and changes nothing.
    Destruction closes the descriptor but unblocks nothing (the old mask is blocked
    again, not restored): the signals stay blocked after the trap is gone. *)
Theorem trap_mask_lifecycle sc signals w r w' :
  SignalTrap.ctor sc signals w = (r, w') →
  ((∃ e, r = Throw (SystemError e)) ∧ sigmask w' = sigmask w ∧ fd_table w' = fd_table w) ∨
  ∃ self, r = Ok self ∧
    (∀ s, s ∈ sigmask w' ↔ s ∈ sigmask w ∨ (s ∈ signals ∧ sig_valid s = true ∧ s ∉ unblockable)) ∧
    (∃ o, fd_table w' = <[SignalTrap.event_fd self := o]> (fd_table w)) ∧
    sigmask (SignalTrap.dtor self w') = sigmask w' ∧
    fd_table (SignalTrap.dtor self w') = fd_table w.
Proof. apply trap_mask_spec. Qed.
End properties.

(** ** Two threads in run *)

(** Where a thread is in [run]: before the load of [state], between the load and the
    store, in the loop, or after the exception. *)
Inductive pc : Type := Entering | Checked | Looping | Refused.

(** The shared [state] and the threads. *)
Definition race : Type := SignalTrap.State * list pc.

Inductive race_step : race → race → Prop :=
| load_not_running ts i :
    ts !! i = Some Entering →
    race_step (SignalTrap.not_running, ts) (SignalTrap.not_running, <[i := Checked]> ts)
| load_running ts i :
    ts !! i = Some Entering →
    race_step (SignalTrap.running, ts) (SignalTrap.running, <[i := Refused]> ts)
| store_running st ts i :
    ts !! i = Some Checked → race_step (st, ts) (SignalTrap.running, <[i := Looping]> ts)
| leave_loop st ts i :
    ts !! i = Some Looping → race_step (st, ts) (SignalTrap.not_running, <[i := Entering]> ts).

(** The guard of [run] is not exclusive: the load and the store of the atomic [state]
    are two steps, and two threads can both get into the loop. *)
Theorem run_guard_races :
  rtc race_step (SignalTrap.not_running, [Entering; Entering]) (SignalTrap.running, [Looping; Looping]).
Proof.
  eapply rtc_l; [by apply (load_not_running _ 0)|].
  eapply rtc_l; [by apply (load_not_running _ 1)|].
  eapply rtc_l; [by apply (store_running _ _ 0)|].
  apply rtc_once. by apply (store_running _ [Looping; Checked] 1).
Qed.

(** ** Witnesses *)

(** A process with its descriptors, a mask, a log of emitted signals and the counters
    of its eventfds. *)
Module RefSig.
Record t : Type := mk { base : Ref.t; mask : gset Z; seen : list Z; events : gmap Z N }.

#[global] Instance extends : Extends t Ref.t := {|
  part := base; set_part := λ b w, mk b (mask w) (seen w) (events w); part_set := λ _ _, eq_refl |}.
#[global] Instance errno_sig : Errno t := errno_up.
#[global] Instance pid_sig : Pid t := pid_up.
#[global] Instance fd_sig : FdKernel t := fd_up.
#[global] Instance proc_sig : ProcKernel t := proc_up.
#[global] Instance fd_sig_laws : FdLaws t := fd_laws_up Ref.fd_laws.
#[global] Instance proc_sig_laws : ProcLaws t := proc_laws_up Ref.proc_laws.

Lemma up_mask {A} (f : Ref.t → A * Ref.t) w a w' : up f w = (a, w') → mask w' = mask w.
Proof. by intros [_ ->]%up_inv. Qed.

(** A descriptor that is not a pipe. *)
Definition open_other (w : Ref.t) : Z * Ref.t :=
  match Ref.lowest_free (Ref.fds w) with
  | Some n => (n, Ref.set_fds (<[n := OtherFile 9]> (Ref.fds w)) w)
  | None => (-1, Ref.set_err EMFILE w)
  end.

(** Masks are shown without the signals that cannot be blocked. *)
Definition block (s : gset Z) (w : t) : gset Z * t :=
  (mask w ∖ unblockable, mk (base w) (mask w ∪ s) (seen w) (events w)).

Definition count (w : t) (fd : Z) : N := default 0%N (events w !! fd).
Definition set_count (fd : Z) (n : N) (w : t) : t :=
  mk (base w) (mask w) (seen w) (<[fd := n]> (events w)).

#[global] Instance sig_kernel : SigKernel t := {|
  sigmask := λ w, mask w ∖ unblockable;
  sys_sigprocmask := block; sys_pthread_sigmask := block;
  sys_eventfd := up open_other; sys_signalfd := λ _, up open_other;
  event_count := λ w fd, Z.of_N (count w fd);
  sys_write_event := λ fd w,
    if (count w fd <? 2 ^ 64 - 2)%N then (8, set_count fd (count w fd + 1) w) else (-1, w);
  sys_read_event := λ fd w,
    if (count w fd =? 0)%N then (-1, w) else (8, set_count fd 0 w) |}.

Lemma count_set fd n w : count (set_count fd n w) fd = n.
Proof. unfold count, set_count. simpl. by rewrite lookup_insert_eq. Qed.

Lemma open_other_ok w rc w' : up open_other w = (rc, w') → opens w rc w' ∧ mask w' = mask w.
Proof.
  intros Hup. split; [|by eapply up_mask]. apply up_inv in Hup as [H _]. simpl in H. unfold open_other in H. unfold opens; simpl.
  destruct (Ref.lowest_free _) eqn:El; injection H as <- <-; [right|by left].
  apply Ref.lowest_free_spec in El as [? ?]. eauto.
Qed.

#[global] Instance sig_laws : SigLaws t.
Proof.
  split; simpl.
  - intros s w o w' [= <- <-]. split_and!; [done| |done]. simpl. set_solver.
  - intros s w o w' [= <- <-]. split_and!; [done| |done]. simpl. set_solver.
  - intros w rc w' H. apply open_other_ok in H as [H ->]. done.
  - intros s w rc w' H. apply open_other_ok in H as [H ->]. done.
  - intros fd w rc w'. destruct (_ <? _)%N; intros [= <- <-]; [left|by right].
    rewrite count_set. split; [done|lia].
  - intros fd w rc w'. destruct (N.eqb_spec (count w fd) 0) as [E|E]; intros [= <- <-]; [right|left].
    + by rewrite E.
    + rewrite count_set. split_and!; [done|lia|done].
  - intros fd w rc w' Hup%up_mask. by rewrite Hup.
  - intros w. set_solver.
Qed.

Definition emit (s : Signal.t) (w : t) : t := mk (base w) (mask w) (seen w ++ [s]) (events w).
End RefSig.

Definition sig_ex : RefSig.t :=
  RefSig.mk (Ref.mk (list_to_map [(0, OtherFile 0); (1, OtherFile 1); (2, OtherFile 2);
    (3, OtherFile 9)]) 0 64 1 5 10 ∅ [] ∅ [] [] []) {[13]} [] {[3 := 1%N]}.
Definition trap_ex : SignalTrap.t := SignalTrap.mk SignalTrap.process SignalTrap.not_running 3 ∅ {[15; 17]}.

(** Interrupted once, then SIGTERM and SIGHUP together with the stop request. *)
Lemma run_delivers_witness :
  RefSig.seen (SignalTrap.run (slots RefSig.emit)
    [SignalTrap.PollFailed EINTR; SignalTrap.PollReady (Some (128, [17])) false;
     SignalTrap.PollReady (Some (256, [15; 1])) true] (trap_ex, sig_ex)).2.2 = [17; 15].
Proof.
  assert (∃ w1, sys_signalfd (SignalTrap.blocked_signals_mask trap_ex) sig_ex = (4, w1)) as [w1 Hw]
    by (eexists; vm_compute; reflexivity).
  change [SignalTrap.PollFailed EINTR; ?a; ?b] with ([SignalTrap.PollFailed EINTR; a] ++ [b]).
  rewrite (run_delivers RefSig.emit [SignalTrap.PollFailed EINTR; SignalTrap.PollReady (Some (128, [17])) false]
    (Some (256, [15; 1])) [] trap_ex sig_ex 4 w1 eq_refl Hw ltac:(done)).
  - vm_compute in Hw. injection Hw as <-. vm_compute. reflexivity.
  - constructor; [reflexivity|]. constructor; [|constructor]. split; [reflexivity|].
    exists 1%nat. split_and!; [lia|lia|simpl; lia|repeat constructor].
  - exists 2%nat. split_and!; [lia|lia|simpl; lia|repeat constructor].
Defined.

(** A slot that throws. *)
Lemma run_exception_is_final_witness :
  let slot := λ s : Signal.t, throw (S := RefSig.t) (Foreign s) in
  let r := SignalTrap.run slot [SignalTrap.PollReady (Some (128, [15])) false] (trap_ex, sig_ex) in
  r.1 = Throw (Foreign 15) ∧ SignalTrap.state r.2.1 = SignalTrap.running.
Proof.
  cbv zeta.
  destruct (SignalTrap.run _ [SignalTrap.PollReady (Some (128, [15])) false] (trap_ex, sig_ex))
    as [[|x|] [self' w']] eqn:Er; [vm_compute in Er; discriminate Er| |vm_compute in Er; discriminate Er].
  destruct (run_exception_is_final _ _ _ _ _ _ _ Er) as [H _]. split; [|exact H].
  apply (f_equal fst) in Er. vm_compute in Er. exact (eq_sym Er).
Defined.

Lemma trap_has_witness :
  match (SignalTrap.ctor SignalTrap.process [15] sig_ex).1 with
  | Ok self => SignalTrap.has self 15 = true
  | _ => False
  end.
Proof.
  destruct (SignalTrap.ctor SignalTrap.process [15] sig_ex) as [[self|x|] w'] eqn:Ec;
    [|apply (f_equal fst) in Ec; vm_compute in Ec; discriminate Ec..].
  apply (trap_has _ _ _ _ _ Ec). left. by left.
Defined.

(** SIGTERM is still blocked after the trap for it has been destroyed. *)
Lemma trap_mask_lifecycle_witness :
  match SignalTrap.ctor SignalTrap.process [15] sig_ex with
  | (Ok self, w') => 15 ∈ sigmask (SignalTrap.dtor self w')
  | _ => False
  end.
Proof.
  destruct (SignalTrap.ctor SignalTrap.process [15] sig_ex) as [r w'] eqn:Ec.
  destruct (trap_mask_lifecycle (LF := RefSig.fd_sig_laws) (LS := RefSig.sig_laws) _ _ _ _ _ Ec)
    as [[[e ->] _]|(self & -> & Hm & _ & Hd & _)].
  - apply (f_equal fst) in Ec. vm_compute in Ec. discriminate Ec.
  - rewrite Hd. apply Hm. right. split; [by left|]. split; [reflexivity|by_decision].
Defined.
