(* ===== verification/TrapFork.v ===== *)
(** * Children of a process with a signal trap

    A [SignalTrap] ([src/core/posix/signal.cpp]) blocks the signals it traps, in the thread
    or in the process, and its destructor does not unblock them.  [fork]
    ([src/core/posix/fork.cpp]) leaves the mask alone, and a child inherits it
    (sigprocmask(2)), over execve too. *)

From S2P Require Import Prelude.
From S2P Require Import Types.
From S2P Require Import CppString.
From S2P Require Import Kernel.
From S2P Require Import RefKernel.
From S2P Require Import Extend.
From S2P Require Import Pipe.
From S2P Require Import Backtrace.
From S2P Require Import Process.
From S2P Require Import ChildProcess.
From S2P Require Import Fork.
From S2P Require Import ForkProps.
From S2P Require Import ForkFrame.
From S2P Require Import SignalTrap.

(** sigprocmask(2): "A child created via fork(2) inherits a copy of its parent's signal
    mask"; calls on descriptors leave it alone. *)
Class MaskLaws (W : Type) {K : FdKernel W} {F : ForkKernel W} {S : SigKernel W} : Prop := {
  pipe_mask_law w r w' : sys_pipe w = (r, w') → sigmask w' = sigmask w;
  dup_mask_law fd w r w' : sys_dup fd w = (r, w') → sigmask w' = sigmask w;
  dup2_mask_law fd n w r w' : sys_dup2 fd n w = (r, w') → sigmask w' = sigmask w;
  fork_mask_law w rc wp wc :
    sys_fork w = (rc, wp, wc) → sigmask wp = sigmask w ∧ (rc ≠ -1 → sigmask wc = sigmask w) }.

Section inherit.
Context {W : Type} {E : Errno W} {I : Pid W} {K : FdKernel W} {F : ForkKernel W} {P : ProcKernel W} {S : SigKernel W}.
Context {LF : FdLaws W} {LK : ForkLaws W} {LS : SigLaws W} {LM : MaskLaws W}.
Context (what : exn → str) (cxa_demangle : str → option str * Z) (walk : W → Backtrace.walk).
Implicit Types (w : W) (e : Pipe.env W) (main : M (Pipe.env W) Exit.Status).

Lemma mask_stable m : stable (λ w, sigmask w = m).
Proof.
  split; [intros w <-|intros fd w <-..].
  - destruct (sys_pipe w) as [r w'] eqn:Ec. by eapply pipe_mask_law.
  - destruct (sys_dup fd w) as [r w'] eqn:Ec. by eapply dup_mask_law.
  - destruct (sys_close fd w) as [r w'] eqn:Ec. by eapply close_mask_law.
Qed.

(** [fork] leaves the mask of the parent alone, and the child has the same. *)
Lemma fork_mask main flags e r :
  Fork.child (Fork.fork what cxa_demangle walk main flags e) = Some r →
  sigmask (Pipe.world (Fork.parent (Fork.fork what cxa_demangle walk main flags e)).2) = sigmask (Pipe.world e) ∧
  ((∃ em, r = child_run what cxa_demangle walk main em ∧ sigmask (Pipe.world em) = sigmask (Pipe.world e)) ∨
   (∃ x em, r = exit_of (handled what cxa_demangle walk x em))).
Proof.
  intros Hr. split.
  - refine (fork_keeps_parent _ (mask_stable (sigmask (Pipe.world e))) what cxa_demangle walk main flags e _ eq_refl).
    intros w rc wp wc <- Hf. by apply fork_mask_law in Hf as [? _].
  - refine (fork_keeps_child _ (mask_stable (sigmask (Pipe.world e))) what cxa_demangle walk main flags e r _ _ eq_refl Hr).
    + intros fd n w <-. destruct (sys_dup2 fd n w) as [rc w'] eqn:Ed. by eapply dup2_mask_law.
    + intros w rc wp wc <- Hf. by apply fork_mask_law in Hf as [_ ?].
Qed.

(** C27: signals that are trapped are blocked in the children: a child forked while a trap
    exists, or after it has been destroyed, comes to [main] (for [exec]: to the call of
    execve, which keeps the mask) with every signal of the trap blocked that can be, on
    top of what was blocked before the trap was made; the mask of the parent is not
    changed by [fork]. *)
Theorem children_inherit_mask sc signals w self w1 main flags e r :
  SignalTrap.ctor sc signals w = (Ok self, w1) →
  Pipe.world e = w1 ∨ Pipe.world e = SignalTrap.dtor self w1 →
  Fork.child (Fork.fork what cxa_demangle walk main flags e) = Some r →
  sigmask (Pipe.world (Fork.parent (Fork.fork what cxa_demangle walk main flags e)).2) = sigmask (Pipe.world e) ∧
  ((∃ em, r = child_run what cxa_demangle walk main em ∧
      ∀ s, s ∈ sigmask (Pipe.world em) ↔
        s ∈ sigmask w ∨ (s ∈ signals ∧ sig_valid s = true ∧ s ∉ unblockable)) ∨
   (∃ x em, r = exit_of (handled what cxa_demangle walk x em))).
Proof.
  intros Hc He Hr. destruct (fork_mask main flags e r Hr) as [Hp Hcase]. split; [done|].
  destruct Hcase as [(em & -> & Hm)|]; [left|by right]. exists em. split; [done|]. rewrite Hm.
  apply trap_mask_spec in Hc as [[[x [=]] _]|(self' & [= <-] & Hs & _ & Hd & _)].
  intros s. rewrite <- Hs. destruct He as [->| ->]; by rewrite ?Hd.
Qed.
End inherit.

(** ** Witness *)

#[export] Instance fork_sig : ForkKernel RefSig.t := fork_up.
#[export] Instance fork_sig_laws : ForkLaws RefSig.t := fork_laws_up (λ _, eq_refl) Ref.fork_laws.

#[export] Instance mask_laws : MaskLaws RefSig.t.
Proof.
  split; simpl; unfold sigmask; simpl.
  - intros w r w' Hup%RefSig.up_mask. by rewrite Hup.
  - intros fd w r w' Hup%RefSig.up_mask. by rewrite Hup.
  - intros fd n w r w' Hup%RefSig.up_mask. by rewrite Hup.
  - intros w rc wp wc. destruct (Ref.fork (RefSig.base w)) as [[rc1 p] c]. by intros [= <- <- <-].
Qed.

(** A trap for SIGTERM is made and destroyed; a child forked then has SIGTERM blocked. *)
Definition trapped_ex := SignalTrap.ctor SignalTrap.process [Signal.sig_term] sig_ex.
Definition untrapped (o : outcome SignalTrap.t * RefSig.t) : Pipe.env RefSig.t :=
  Pipe.mkEnv (match o.1 with Ok self => SignalTrap.dtor self o.2 | _ => o.2 end) None.
Abbreviation trapped_fork :=
  (Fork.fork what_ex demangle_ex (λ w, walk_ex (RefSig.base w)) (mret 7) StandardStream.empty (untrapped trapped_ex)).

Lemma children_inherit_mask_witness :
  ∃ em : Pipe.env RefSig.t, Signal.sig_term ∈ sigmask (Pipe.world em) ∧
    Fork.child trapped_fork = Some (child_run what_ex demangle_ex (λ w, walk_ex (RefSig.base w)) (mret 7) em).
Proof.
  assert (∃ self w1, trapped_ex = (Ok self, w1)) as (self & w1 & Et) by (eexists _, _; vm_compute; reflexivity).
  destruct (Fork.child trapped_fork) as [r|] eqn:Er;
    [|exfalso; clear -Er; apply (f_equal (λ o, bool_decide (is_Some o))) in Er; vm_compute in Er; discriminate Er].
  destruct (children_inherit_mask (LF := RefSig.fd_sig_laws) (LK := fork_sig_laws) (LS := RefSig.sig_laws) (LM := mask_laws)
    what_ex demangle_ex (λ w, walk_ex (RefSig.base w)) SignalTrap.process [Signal.sig_term] sig_ex self w1
    (mret 7) StandardStream.empty (untrapped trapped_ex) r Et ltac:(right; rewrite Et; reflexivity) Er) as [_ [(em & Hr & Hm)|(x & em & Hx)]].
  - exists em. split; [|by rewrite <- Hr]. apply Hm. right. split; [by left|]. split; [reflexivity|by_decision].
  - exfalso. rewrite Hx in Er. apply (f_equal (option_map fst)) in Er. vm_compute in Er. discriminate Er.
Defined.
