(* ===== verification/TrapProtocol.v ===== *)
(** * The signal trap under concurrency

    [SignalTrap] describes [run] over a script of what the kernel reports.  Here the
    kernel and the other threads are part of the system: signals become pending (a
    signal that is pending already stays pending once), other threads call [stop],
    which adds to the counter of the eventfd, and the thread in [run] polls, reads at
    most five pending signals, emits them one after the other and looks at the eventfd,
    each a step of its own.  The trapped signals are blocked in every thread, so that
    they can only be taken through the signalfd, and one thread is in [run].

    A signalfd that cannot be opened, a read of it that fails and a slot that throws are not
    steps here: [SignalTrap] says how [run] ends then.

    Every run of the system is a run of [SignalTrap.run] ([protocol_runs]); no trapped
    signal is lost or made up ([signals_answered]); and [stop] ends [run]
    ([stop_ends_run]). *)

From S2P Require Import Prelude.
From S2P Require Import Types.
From S2P Require Import CppString.
From S2P Require Import Kernel.
From S2P Require Import RefKernel.
From S2P Require Import Progress.
From S2P Require Import SignalTrap.

(** Where the thread of the trap is: not in [run]; about to poll; poll has returned with
    POLLIN on the signalfd or the eventfd; emitting what was read; past the loop. *)
Inductive place : Type :=
| Outside
| InPoll
| Ready (signals event : bool)
| Dispatching (buffer : list Z) (event : bool)
| Leaving.

Inductive happening : Type := Raised (s : Z) | Emitted (s : Z).

#[export] Instance happening_eq_dec : EqDecision happening.
Proof. solve_decision. Defined.

(** The trap, the pending signals, the counter of its eventfd, its thread, and what has
    happened so far. *)
Record system : Type := mkSystem {
  self : SignalTrap.t;
  pending : gset Z;
  counter : N;
  at_ : place;
  history : list happening }.

Definition mask (y : system) : gset Z := SignalTrap.blocked_signals_mask (self y).

(** What poll would report. *)
Definition signals_ready (y : system) : bool := bool_decide (pending y ∩ mask y ≠ ∅).
Definition event_ready (y : system) : bool := bool_decide (0 < counter y)%N.

(** The largest value of the counter of an eventfd. *)
Definition event_max : N := 2 ^ 64 - 2.

(** A thread in [run]. *)
Inductive run_step : system → system → Prop :=
(* the check and the store of the state, and the signalfd *)
| run_enter t p n h :
    SignalTrap.state t = SignalTrap.not_running →
    run_step (mkSystem t p n Outside h) (mkSystem (SignalTrap.set_state SignalTrap.running t) p n InPoll h)
(* poll returns when something is ready *)
| run_poll t p n h s e :
    s = signals_ready (mkSystem t p n InPoll h) → e = event_ready (mkSystem t p n InPoll h) →
    s || e = true →
    run_step (mkSystem t p n InPoll h) (mkSystem t p n (Ready s e) h)
(* reading the signalfd takes between one and five of the pending signals *)
| run_read t p n h e l :
    l ≠ [] → (length l ≤ SignalTrap.signal_info_buffer_size)%nat → NoDup l →
    list_to_set l ⊆ p ∩ SignalTrap.blocked_signals_mask t →
    run_step (mkSystem t p n (Ready true e) h) (mkSystem t (p ∖ list_to_set l) n (Dispatching l e) h)
| run_no_signals t p n h e :
    run_step (mkSystem t p n (Ready false e) h) (mkSystem t p n (Dispatching [] e) h)
(* the inner loop *)
| run_emit t p n h s l e :
    run_step (mkSystem t p n (Dispatching (s :: l) e) h)
      (mkSystem t p n (Dispatching l e) (h ++ if SignalTrap.has t s then [Emitted s] else []))
(* POLLIN on the eventfd: the counter is read, which resets it, and the loop is left *)
| run_continue t p n h :
    run_step (mkSystem t p n (Dispatching [] false) h) (mkSystem t p n InPoll h)
| run_stop t p n h :
    run_step (mkSystem t p n (Dispatching [] true) h) (mkSystem t p 0 Leaving h)
| run_leave t p n h :
    run_step (mkSystem t p n Leaving h) (mkSystem (SignalTrap.set_state SignalTrap.not_running t) p n Outside h).

(** The kernel and the other threads: a signal is raised; [stop] writes to the eventfd;
    poll is interrupted while nothing is ready, and tried again; poll fails otherwise,
    which ends the loop. *)
Inductive outside_step : system → system → Prop :=
| signal_raised t p n a h s :
    sig_valid s = true →
    outside_step (mkSystem t p n a h)
      (if decide (s ∈ SignalTrap.blocked_signals_mask t)
       then mkSystem t (p ∪ {[s]}) n a (h ++ [Raised s]) else mkSystem t p n a h)
| stop_called t p n a h :
    (n < event_max)%N →
    outside_step (mkSystem t p n a h) (mkSystem t p (n + 1) a h)
| poll_interrupted t p n h :
    signals_ready (mkSystem t p n InPoll h) = false → event_ready (mkSystem t p n InPoll h) = false →
    outside_step (mkSystem t p n InPoll h) (mkSystem t p n InPoll h)
| poll_failed t p n h :
    outside_step (mkSystem t p n InPoll h) (mkSystem t p n Leaving h).

Definition system_step (y y' : system) : Prop := run_step y y' ∨ outside_step y y'.

(** A trap that has just been made for signals none of which is pending. *)
Definition fresh (y : system) : Prop :=
  at_ y = Outside ∧ SignalTrap.state (self y) = SignalTrap.not_running ∧ history y = [] ∧
  pending y ∩ mask y = ∅ ∧ ∀ s, s ∈ mask y → sig_valid s = true.

(** The signals that were read and not emitted yet. *)
Definition in_hand (y : system) : list Z := match at_ y with Dispatching l _ => l | _ => [] end.

Definition raised_count (s : Z) (h : list happening) : nat := length (filter (.= Raised s) h).
Definition emitted_count (s : Z) (h : list happening) : nat := length (filter (.= Emitted s) h).

(** ** The invariant *)

(** For a trapped signal: those taken and those pending were raised, and the last raise of
    a signal that is neither has been answered. *)
Record sound (y : system) : Prop := mkSound {
  sound_mask : ∀ s, s ∈ mask y → sig_valid s = true;
  sound_hand : NoDup (in_hand y) ∧ (length (in_hand y) ≤ SignalTrap.signal_info_buffer_size)%nat ∧
    ∀ s, s ∈ in_hand y → s ∈ mask y;
  sound_ready : ∀ e, at_ y = Ready true e → pending y ∩ mask y ≠ ∅;
  sound_emit : ∀ s, Emitted s ∈ history y → s ∈ mask y;
  sound_count : ∀ s, s ∈ mask y →
    (emitted_count s (history y) + (if decide (s ∈ in_hand y) then 1 else 0) +
     (if decide (s ∈ pending y) then 1 else 0) ≤ raised_count s (history y))%nat;
  sound_answer : ∀ s h1 h2, history y = h1 ++ Raised s :: h2 →
    Emitted s ∈ h2 ∨ s ∈ pending y ∨ s ∈ in_hand y }.

Lemma count_app P `{∀ x : happening, Decision (P x)} h x :
  length (filter P (h ++ [x])) = (length (filter P h) + if decide (P x) then 1 else 0)%nat.
Proof. rewrite filter_app, length_app, filter_cons, filter_nil. by case_decide. Qed.

(** Where a raise is in a longer history. *)
Lemma snoc_split (h : list happening) x s h1 h2 :
  h ++ [x] = h1 ++ Raised s :: h2 →
  (x = Raised s ∧ h1 = h ∧ h2 = []) ∨ ∃ h2', h2 = h2' ++ [x] ∧ h = h1 ++ Raised s :: h2'.
Proof.
  destruct h2 as [|y h2 _] using rev_ind; intros H.
  - apply app_inj_tail in H as [-> ->]. by left.
  - right. exists h2. rewrite app_comm_cons, app_assoc in H. by apply app_inj_tail in H as [-> ->].
Qed.

(** Steps that only move the thread. *)
Lemma sound_move y t n a :
  sound y → SignalTrap.blocked_signals_mask t = mask y →
  in_hand (mkSystem t (pending y) n a (history y)) = in_hand y →
  (∀ e, a = Ready true e → pending y ∩ mask y ≠ ∅) →
  sound (mkSystem t (pending y) n a (history y)).
Proof.
  intros [] Hm Hh Hr.
  split; unfold mask in *; simpl in *; rewrite ?Hh, ?Hm; done.
Qed.

Lemma sound_raise t p n a h s :
  sound (mkSystem t p n a h) → s ∈ SignalTrap.blocked_signals_mask t →
  sound (mkSystem t (p ∪ {[s]}) n a (h ++ [Raised s])).
Proof.
  intros [Hv Hhand Hr He Hc Ha] Hs. split; unfold mask in *; simpl in *; [done|done|..].
  - intros e Hae. specialize (Hr e Hae). set_solver.
  - intros q [Hq|Hq%list_elem_of_singleton]%elem_of_app; [by apply He|done].
  - intros q Hq. specialize (Hc q Hq). unfold emitted_count, raised_count in *. rewrite !count_app.
    change (in_hand (mkSystem t (p ∪ {[s]}) n a (h ++ [Raised s]))) with (in_hand (mkSystem t p n a h)).
    rewrite (decide_False (P := Raised s = Emitted q)) by done.
    destruct (decide (s = q)) as [->|Hne].
    + rewrite (decide_True (P := Raised q = Raised q)) by done.
      destruct (decide (q ∈ p)), (decide (q ∈ p ∪ {[q]})); lia.
    + rewrite (decide_False (P := Raised s = Raised q)) by congruence.
      destruct (decide (q ∈ p)), (decide (q ∈ p ∪ {[s]})); try lia. set_solver.
  - intros q h1 h2 [(Hq & _)|(h2' & -> & Hh)]%snoc_split.
    + injection Hq as <-. right. left. set_solver.
    + destruct (Ha q h1 h2' Hh) as [|[|]]; [left; by apply elem_of_app; left|right; left; set_solver|by right; right].
Qed.

Lemma sound_read t p n h e l :
  sound (mkSystem t p n (Ready true e) h) →
  (length l ≤ SignalTrap.signal_info_buffer_size)%nat → NoDup l →
  list_to_set l ⊆ p ∩ SignalTrap.blocked_signals_mask t →
  sound (mkSystem t (p ∖ list_to_set l) n (Dispatching l e) h).
Proof.
  intros [Hv _ _ He Hc Ha] Hlen Hd Hsub.
  assert (∀ s, s ∈ l → s ∈ p ∧ s ∈ SignalTrap.blocked_signals_mask t) as Hl.
  { intros s Hs. apply elem_of_intersection, Hsub. by apply elem_of_list_to_set. }
  split; unfold mask in *; simpl in *; [done| |done|done|..].
  - split_and!; [done..|]. intros s Hs. by apply Hl.
  - intros s Hs. specialize (Hc s Hs). unfold in_hand in *. simpl in *. specialize (Hl s).
    destruct (decide (s ∈ l)), (decide (s ∈ p)), (decide (s ∈ p ∖ list_to_set l));
      try lia; set_solver.
  - intros s h1 h2 Hh. destruct (Ha s h1 h2 Hh) as [|[Hp|Hn]]; [by left| |by apply elem_of_nil in Hn].
    right. destruct (decide (s ∈ l)); [by right|left; set_solver].
Qed.

Lemma sound_emitted t p n h e s l :
  sound (mkSystem t p n (Dispatching (s :: l) e) h) →
  sound (mkSystem t p n (Dispatching l e) (h ++ if SignalTrap.has t s then [Emitted s] else [])).
Proof.
  intros [Hv (Hd & Hlen & Hm) _ He Hc Ha]. unfold mask, in_hand in *; simpl in *.
  assert (s ∈ SignalTrap.blocked_signals_mask t) as Hs by (apply Hm; by left).
  rewrite has_mask, bool_decide_true by auto. apply NoDup_cons in Hd as [Hnew Hd].
  split; unfold mask, in_hand; simpl; [done| |done|..].
  - split_and!; [done|lia|]. intros q Hq. apply Hm. by right.
  - intros q [Hq|Hq%list_elem_of_singleton]%elem_of_app; [by apply He|congruence].
  - intros q Hq. specialize (Hc q Hq). unfold emitted_count, raised_count in *. rewrite !count_app.
    rewrite (decide_False (P := Emitted s = Raised q)) by done.
    destruct (decide (s = q)) as [->|Hne].
    + rewrite (decide_True (P := Emitted q = Emitted q)), (decide_False (P := q ∈ l)) by done.
      rewrite (decide_True (P := q ∈ q :: l)) in Hc by (by left). lia.
    + rewrite (decide_False (P := Emitted s = Emitted q)) by congruence.
      destruct (decide (q ∈ l)), (decide (q ∈ s :: l)); try lia. set_solver.
  - intros q h1 h2 [(Hq & _)|(h2' & -> & Hh)]%snoc_split; [done|].
    destruct (Ha q h1 h2' Hh) as [|[|[->|]%elem_of_cons]]; [left; set_solver|by right; left|left; set_solver|by right; right].
Qed.

Lemma sound_step y y' : system_step y y' → sound y → sound y'.
Proof.
  intros [Hs|Hs].
  - destruct Hs as [t p n h|t p n h s e Es Ee|t p n h e l|t p n h e|t p n h s l e|t p n h|t p n h|t p n h];
      intros Hy; try done;
      try (apply (sound_move _ _ _ _ Hy); done).
    + apply (sound_move (mkSystem t p n InPoll h)); [done..|]. simpl.
      intros e' [= -> _]. unfold signals_ready in Es. symmetry in Es. by apply bool_decide_eq_true in Es.
    + by apply (sound_read _ _ _ _ e).
    + by apply sound_emitted.
  - destruct Hs as [t p n a h s Hs|t p n a h Hn|t p n h|t p n h]; intros Hy.
    + case_decide; [by apply sound_raise|done].
    + apply (sound_move (mkSystem t p n a h)); [done..|]. simpl. intros e ->. by apply (sound_ready _ Hy e).
    + done.
    + by apply (sound_move _ _ _ _ Hy).
Qed.

Lemma sound_fresh y : fresh y → sound y.
Proof.
  intros (Ha & _ & Hh & Hp & Hv).
  split; unfold in_hand; rewrite ?Ha, ?Hh; simpl; [done| |done|set_solver| |].
  - split_and!; [constructor|lia|set_solver].
  - intros s Hs. rewrite decide_False by set_solver. done.
  - intros s h1 h2 H. by destruct h1.
Qed.

Lemma sound_reachable y y' : fresh y → rtc system_step y y' → sound y'.
Proof. intros Hf%sound_fresh Hr. induction Hr; eauto using sound_step. Qed.

(** C10: whatever the interleaving, no trapped signal is lost and none is made up: a raise
    is followed by an emission of the signal unless the signal is still pending or in the
    buffer, a signal is emitted at most as often as it was raised, and only trapped ones
    are emitted; in particular, when [run] is waiting with nothing to read, every raise has
    been answered. *)
Theorem signals_answered y y' s :
  fresh y → rtc system_step y y' →
  (∀ h1 h2, history y' = h1 ++ Raised s :: h2 → Emitted s ∈ h2 ∨ s ∈ pending y' ∨ s ∈ in_hand y') ∧
  (emitted_count s (history y') ≤ raised_count s (history y'))%nat ∧
  (Emitted s ∈ history y' → s ∈ mask y') ∧
  (at_ y' = InPoll → signals_ready y' = false → s ∈ mask y' →
   ∀ h1 h2, history y' = h1 ++ Raised s :: h2 → Emitted s ∈ h2).
Proof.
  intros Hf Hr. destruct (sound_reachable y y' Hf Hr) as [Hv _ _ He Hc Ha]. split_and!; [by apply Ha| |by apply He|].
  - destruct (decide (s ∈ mask y')) as [Hm|Hm]; [specialize (Hc s Hm); lia|].
    assert (emitted_count s (history y') = 0%nat) as ->; [|lia].
    unfold emitted_count. destruct (filter _ _) as [|x l] eqn:E; [done|].
    assert (x ∈ filter (.= Emitted s) (history y')) as Hx by (rewrite E; by left).
    apply list_elem_of_filter in Hx as [-> Hx]. by apply He in Hx.
  - intros Hat Hrdy Hm h1 h2 Hh. unfold signals_ready in Hrdy. apply bool_decide_eq_false in Hrdy.
    apply dec_stable in Hrdy. destruct (Ha s h1 h2 Hh) as [|[Hp|Hp]]; [done|set_solver|].
    unfold in_hand in Hp. rewrite Hat in Hp. by apply elem_of_nil in Hp.
Qed.

(** ** The stop request *)

(** Steps the thread still needs to leave [run] once a stop request is there. *)
Definition rank_to_exit (y : system) : nat :=
  match at_ y with
  | Outside => 0
  | Leaving => 1
  | Dispatching l true => 2 + length l
  | Ready _ true => 8
  | InPoll => 9
  | Dispatching l false => 10 + length l
  | Ready _ false => 16
  end.

(** The request is in the counter, or has been seen by poll. *)
Definition stopping (y : system) : Prop :=
  sound y ∧ match at_ y with
            | Leaving | Dispatching _ true | Ready _ true => True
            | _ => (0 < counter y)%N
            end.

Lemma stopping_enabled y : stopping y → at_ y ≠ Outside → (0 < rank_to_exit y)%nat ∧ ∃ y', run_step y y'.
Proof.
  intros [Hs Hc] Hn. destruct y as [t p n a h]. simpl in *.
  split; [unfold rank_to_exit; simpl; destruct a as [| |? []|? []|]; lia || done|].
  destruct a as [| |[] e|[|s l] []|]; [done| |..]; [|
    |by eexists; constructor..].
  - eexists. eapply run_poll; [reflexivity..|]. unfold event_ready. simpl.
    rewrite (bool_decide_true (0 < n)%N) by done. apply orb_true_r.
  - pose proof (sound_ready _ Hs e eq_refl) as Hr. unfold mask in Hr. simpl in Hr.
    apply set_choose_L in Hr as [s Hs']. eexists. apply (run_read _ _ _ _ _ [s]);
      [done|simpl; unfold SignalTrap.signal_info_buffer_size; lia|apply NoDup_singleton|]. simpl. set_solver.
Qed.

Lemma stopping_run y y' :
  stopping y → at_ y ≠ Outside → run_step y y' →
  at_ y' = Outside ∨ (stopping y' ∧ (rank_to_exit y' < rank_to_exit y)%nat).
Proof.
  intros [Hs Hc] Hn Hr. assert (sound y') as Hs' by (eapply sound_step; [by left|done]).
  unfold rank_to_exit, stopping in *.
  destruct Hr as [t p n h|t p n h s e Es Ee|t p n h e l Hl Hlen|t p n h e|t p n h s l e|t p n h|t p n h|t p n h];
    simpl in *; try done; try (right; split; [done|lia]).
  - assert (e = true) as ->; [|right; split; [done|lia]]. subst e. unfold event_ready. simpl.
    by apply bool_decide_true.
  - unfold SignalTrap.signal_info_buffer_size in Hlen. destruct e; (right; split; [done|lia]).
  - destruct e; (right; split; [done|simpl; lia]).
  - destruct e; (right; split; [done|simpl; lia]).
  - by left.
Qed.

Lemma stopping_outside y y' :
  stopping y → outside_step y y' → at_ y' = Outside ∨ (stopping y' ∧ (rank_to_exit y' ≤ rank_to_exit y)%nat).
Proof.
  intros [Hs Hc] Ho. assert (sound y') as Hs' by (eapply sound_step; [by right|done]). right.
  destruct Ho as [t p n a h s Hv|t p n a h Hn|t p n h|t p n h]; [case_decide|..];
    (split; [split; [done|]|unfold rank_to_exit; simpl; lia]); simpl in *; try done.
  destruct a as [| |? []|? []|]; try done; lia.
Qed.

(** C8: [stop] ends [run]: as soon as a stop request is there (also one made before [run]
    was entered), [run] returns after at most 16 further steps of its thread, whatever
    signals are raised and however often [stop] is called in the meantime, and the thread
    is never blocked in poll before. *)
Theorem stop_ends_run y y' :
  fresh y → rtc system_step y y' → (0 < counter y')%N →
  inevitable run_step outside_step (λ y, at_ y = Outside) 16 y'.
Proof.
  intros Hf Hr Hc. pose proof (sound_reachable y y' Hf Hr) as Hs. pose proof (sound_hand _ Hs) as (_ & Hlen & _).
  apply (inevitable_mono _ _ _ (rank_to_exit y')).
  { unfold rank_to_exit, in_hand, SignalTrap.signal_info_buffer_size in *.
    destruct (at_ y') as [| |? []|? []|]; lia. }
  apply (inevitable_rank _ _ _ stopping).
  - split; [done|]. by destruct (at_ y') as [| |? []|? []|].
  - apply stopping_enabled.
  - apply stopping_run.
  - intros d d' Hd _. by apply stopping_outside.
Qed.

(** ** The protocol and the code *)

(** The emissions of a history, in order. *)
Definition emits (h : list happening) : list Z :=
  omap (λ x, match x with Emitted s => Some s | Raised _ => None end) h.

(** A step while the thread is in [run]. *)
Definition inside_step (y y' : system) : Prop := at_ y ≠ Outside ∧ system_step y y'.

(** What the code was told by poll and by its read of the signalfd in a step: the signals in the
    order in which the read delivered them, and whether the eventfd was readable when poll
    returned.  (An interrupted poll is tried again and leaves no trace.) *)
Definition polled (y y' : system) : list SignalTrap.poll_event :=
  match at_ y, at_ y' with
  | Ready true e, Dispatching l _ => [SignalTrap.PollReady (Some (128 * Z.of_nat (length l), l)) e]
  | Ready false e, Dispatching _ _ => [SignalTrap.PollReady None e]
  | InPoll, Leaving => [SignalTrap.PollFailed EINVAL]
  | _, _ => []
  end.

(** A session of [run] and the script of all its polls. *)
Inductive session (y : system) : list SignalTrap.poll_event → system → Prop :=
| session_start : session y [] y
| session_step script y1 y2 :
    session y script y1 → inside_step y1 y2 → session y (script ++ polled y1 y2) y2.

(** Every sequence of steps inside [run] is a session. *)
Lemma session_exists y y' : rtc inside_step y y' → ∃ script, session y script y'.
Proof.
  apply (rtc_ind_r (λ z, ∃ script, session y script z)); [eexists; constructor|].
  intros z z' _ Hs [script IH]. eexists. by eapply session_step.
Qed.

(** The script of a session that has left the loop, after the emissions [l]: at the last poll the
    eventfd was readable, or poll failed. *)
Definition ended (script : list SignalTrap.poll_event) (l : list Z) : Prop :=
  l = script ≫= signals_of ∧ ∃ pre, Forall quiet pre ∧
    ((∃ sigs, read_ok sigs ∧ script = pre ++ [SignalTrap.PollReady sigs true]) ∨
     script = pre ++ [SignalTrap.PollFailed EINVAL]).

(** [script] and what has been emitted since the trap [t] began the session with the history
    [h0]: exactly the signals of the script, in order, less those still in the buffer. *)
Definition traced (t : SignalTrap.t) (h0 : list happening) (script : list SignalTrap.poll_event) (y : system) : Prop :=
  ∃ new, history y = h0 ++ new ∧
    match at_ y with
    | InPoll | Ready _ _ => self y = SignalTrap.set_state SignalTrap.running t ∧
        emits new = script ≫= signals_of ∧ Forall quiet script
    | Dispatching l e => self y = SignalTrap.set_state SignalTrap.running t ∧
        emits new ++ l = script ≫= signals_of ∧
        ∃ pre sigs, read_ok sigs ∧ Forall quiet pre ∧ script = pre ++ [SignalTrap.PollReady sigs e]
    | Leaving => self y = SignalTrap.set_state SignalTrap.running t ∧ ended script (emits new)
    | Outside => self y = t ∧ ended script (emits new)
    end.

Lemma emits_app h1 h2 : emits (h1 ++ h2) = emits h1 ++ emits h2.
Proof. apply omap_app. Qed.

Lemma traced_outside t h0 script y y' :
  at_ y ≠ Outside → outside_step y y' → traced t h0 script y → traced t h0 (script ++ polled y y') y'.
Proof.
  intros Hn Ho (new & Hh & Hy).
  assert (∀ z, at_ z = at_ y → polled y z = []) as Hpol.
  { intros z Hz. unfold polled. rewrite Hz. by destruct (at_ y) as [| |[] ?|? ?|]. }
  destruct Ho as [t' p n a h s _|t' p n a h _|t' p n h|t' p n h]; simpl in *; subst.
  - case_decide; rewrite Hpol, app_nil_r by done; [|by exists new]. exists (new ++ [Raised s]). simpl.
    rewrite app_assoc, emits_app. simpl. rewrite !app_nil_r. done.
  - rewrite Hpol, app_nil_r by done. by exists new.
  - rewrite Hpol, app_nil_r by done. by exists new.
  - exists new. destruct Hy as (-> & He & Hq). simpl. split_and!; [done..|]. split.
    + rewrite He, bind_app. simpl. by rewrite app_nil_r.
    + exists script. split; [done|by right].
Qed.

Lemma traced_run t h0 script y y' :
  SignalTrap.state t = SignalTrap.not_running → at_ y ≠ Outside → sound y → run_step y y' →
  traced t h0 script y → traced t h0 (script ++ polled y y') y'.
Proof.
  intros Hst Hn Hs Hr (new & Hh & Hy).
  destruct Hr as [t' p n h|t' p n h s e _ _ _|t' p n h e l Hl Hlen Hd Hsub|t' p n h e|t' p n h s l e|t' p n h|t' p n h|t' p n h];
    simpl in *; subst h; [done|..].
  - unfold polled; simpl. rewrite app_nil_r. by exists new.
  - destruct Hy as (-> & Hy & Hq). exists new. simpl. split_and!; [done..| |].
    + rewrite bind_app, Hy. simpl. rewrite (Z.mul_comm 128), Z.div_mul, Nat2Z.id, take_ge, app_nil_r by lia. done.
    + exists script, (Some (128 * Z.of_nat (length l), l)). split_and!; [|done|done].
      exists (length l). split_and!; [done|done|done|]. apply Forall_forall. intros s Hin.
      apply (sound_mask _ Hs). assert (s ∈ (list_to_set l : gset Z)) as Hin' by (by apply elem_of_list_to_set).
      apply Hsub in Hin'. set_solver.
  - destruct Hy as (-> & Hy & Hq). exists new. simpl. split_and!; [done..| |].
    + by rewrite bind_app, Hy.
    + by exists script, None.
  - destruct Hy as (-> & Hy & Hpre). unfold polled; simpl. rewrite app_nil_r.
    exists (new ++ (if SignalTrap.has (SignalTrap.set_state SignalTrap.running t) s then [Emitted s] else [])).
    simpl. split_and!; [by rewrite app_assoc|done| |done].
    destruct (sound_hand _ Hs) as (_ & _ & Hm). specialize (Hm s ltac:(by left)).
    rewrite has_mask, bool_decide_true by (done || by apply (sound_mask _ Hs)).
    rewrite emits_app. simpl. by rewrite <- app_assoc.
  - destruct Hy as (-> & Hy & pre & sigs & Hok & Hq & ->). unfold polled; simpl. rewrite app_nil_r in *.
    exists new. simpl. split_and!; [done..|]. apply Forall_app. split; [done|]. by apply Forall_singleton.
  - destruct Hy as (-> & Hy & pre & sigs & Hok & Hq & ->). unfold polled; simpl. rewrite app_nil_r in *.
    exists new. simpl. split_and!; [done..|]. split; [done|]. exists pre. split; [done|]. left. by exists sigs.
  - destruct Hy as (-> & Hy). unfold polled; simpl. rewrite app_nil_r. exists new. simpl. split_and!; [done| |done].
    destruct t; simpl in *; by rewrite Hst.
Qed.

Lemma traced_session t h0 script y y' :
  SignalTrap.state t = SignalTrap.not_running → sound y → traced t h0 [] y →
  session y script y' → sound y' ∧ traced t h0 script y'.
Proof.
  intros Hst Hs Ht Hr. induction Hr as [|script y1 y2 Hr [IHs IHt] [Hn Hst']]; [done|].
  split; [by eapply sound_step|]. destruct Hst' as [H|H]; [by eapply traced_run|by eapply traced_outside].
Qed.

(** Emitting what the trap has, it emits everything. *)
Lemma emitted_all {W} (emit : Signal.t → W → W) t l w :
  (∀ s, s ∈ l → SignalTrap.has t s = true) →
  emitted emit t l w = foldl (λ w s, emit s w) w l.
Proof.
  intros H. unfold emitted. f_equal. induction l as [|s l IH]; [done|].
  rewrite filter_cons, decide_True by (apply H; by left). f_equal. apply IH. intros q Hq. apply H. by right.
Qed.

Lemma elem_of_emits s h : s ∈ emits h → Emitted s ∈ h.
Proof.
  unfold emits. intros H. apply list_elem_of_omap in H as ([q|q] & Hin & [= ->]). done.
Qed.

Lemma signals_snoc pre x : (pre ++ [x]) ≫= signals_of = (pre ≫= signals_of) ++ signals_of x.
Proof. rewrite bind_app. change ([x] ≫= signals_of) with (signals_of x ++ []). by rewrite app_nil_r. Qed.

(** C11: the protocol is the code: whatever the kernel and the other threads do during a
    session of [run], from entering to returning, take as script exactly what poll and the reads
    of the signalfd reported in that session, in order.  On this script [SignalTrap.run] goes
    through the same session: it returns, leaves the trap as it was, and has emitted the same
    signals in the same order, which are those that the reads of the session delivered; the
    eventfd has been read if the session was left because of a stop request. *)
Theorem protocol_runs {W} {EW : Errno W} {K : FdKernel W} {S : SigKernel W} emit y0 y1 y2 y3 script (w : W) fd w1 :
  fresh y0 → rtc system_step y0 y1 → at_ y1 = Outside → run_step y1 y2 →
  session y2 script y3 → at_ y3 = Outside →
  sys_signalfd (mask y1) w = (fd, w1) → fd ≠ -1 →
  ∃ new, history y3 = history y1 ++ new ∧ emits new = script ≫= signals_of ∧ self y3 = self y1 ∧
    let w' := foldl (λ w s, emit s w) w1 (emits new) in
    let w2 := match last script with
              | Some (SignalTrap.PollReady _ true) => (sys_read_event (SignalTrap.event_fd (self y1)) w').2
              | _ => w'
              end in
    SignalTrap.run (slots emit) script (self y1, w) = (Ok true, (self y3, (sys_close fd w2).2)).
Proof.
  intros Hf Hr Hat Hen Hin Hat3 Hfd Hne. pose proof (sound_reachable _ _ Hf Hr) as Hs1.
  assert (sound y2) as Hs2 by (eapply sound_step; [by left|done]).
  assert (SignalTrap.state (self y1) = SignalTrap.not_running ∧ traced (self y1) (history y1) [] y2) as [Hst Ht].
  { destruct Hen; try done. split; [done|]. exists []. by rewrite app_nil_r. }
  destruct (traced_session _ _ _ _ _ Hst Hs2 Ht Hin) as [Hs3 (new & Hh & Hy)].
  rewrite Hat3 in Hy. destruct Hy as [Hself [He (pre & Hq & Hend)]].
  assert (∀ s, s ∈ emits new → SignalTrap.has (self y1) s = true) as Hall.
  { intros s Hin'. apply elem_of_emits in Hin'. assert (s ∈ mask y3) as Hm.
    { apply (sound_emit _ Hs3). rewrite Hh. apply elem_of_app. by right. }
    rewrite <- Hself, has_mask by (by apply (sound_mask _ Hs3)). by apply bool_decide_true. }
  exists new. split; [done|]. split; [done|]. split; [done|].
  destruct Hend as [(sigs & Hok & ->)| ->]; rewrite last_snoc; rewrite signals_snoc in He; cbn zeta iota beta.
  - rewrite (run_stopped _ _ _ [] _ _ fd w1), <- He by done. by rewrite Hself, emitted_all.
  - change (signals_of (SignalTrap.PollFailed EINVAL)) with (@nil Z) in He. rewrite app_nil_r in He.
    rewrite (run_poll_failed _ _ _ _ _ fd w1), <- He by done. by rewrite Hself, emitted_all.
Qed.

(** ** Witnesses *)

(** The trap of [trap_ex] for SIGTERM and SIGCHLD; SIGTERM is raised while it is in poll,
    [stop] is called before the signal has been read. *)
Definition fresh_ex : system := mkSystem trap_ex ∅ 0 Outside [].
Definition running_ex : SignalTrap.t := SignalTrap.set_state SignalTrap.running trap_ex.

Lemma fresh_ex_fresh : fresh fresh_ex.
Proof.
  split_and!; try reflexivity. intros s Hs. unfold mask in Hs; simpl in Hs.
  apply elem_of_union in Hs as [->%elem_of_singleton| ->%elem_of_singleton]; reflexivity.
Qed.

Lemma raise_ex p n a h :
  outside_step (mkSystem running_ex p n a h) (mkSystem running_ex (p ∪ {[15]}) n a (h ++ [Raised 15])).
Proof.
  pose proof (signal_raised running_ex p n a h 15 eq_refl) as H. rewrite decide_True in H; [done|by_decision].
Qed.

(** Up to the stop request. *)
Lemma session_start_ex :
  rtc inside_step (mkSystem running_ex ∅ 0 InPoll []) (mkSystem running_ex (∅ ∪ {[15]}) (0 + 1) (Ready true false) ([] ++ [Raised 15])).
Proof.
  eapply rtc_l; [split; [done|right; apply raise_ex]|].
  eapply rtc_l; [split; [done|left; apply (run_poll _ _ _ _ true false); by_decision]|].
  apply rtc_once. split; [done|right]. by apply stop_called.
Qed.

(** From there to the return. *)
Lemma session_end_ex : ∃ y, at_ y = Outside ∧ history y = [Raised 15; Emitted 15] ∧
  rtc inside_step (mkSystem running_ex (∅ ∪ {[15]}) (0 + 1) (Ready true false) ([] ++ [Raised 15])) y.
Proof.
  eexists. split_and!; [| |
    eapply rtc_l; [split; [done|left; apply (run_read _ _ _ _ _ [15]);
      [done|simpl; unfold SignalTrap.signal_info_buffer_size; lia|apply NoDup_singleton|by_decision]]|];
    eapply rtc_l; [split; [done|left; apply run_emit]|];
    eapply rtc_l; [split; [done|left; apply run_continue]|];
    eapply rtc_l; [split; [done|left; apply (run_poll _ _ _ _ false true); by_decision]|];
    eapply rtc_l; [split; [done|left; apply run_no_signals]|];
    eapply rtc_l; [split; [done|left; apply run_stop]|];
    apply rtc_once; split; [done|left; apply run_leave]]; reflexivity.
Qed.

Lemma enter_ex : run_step fresh_ex (mkSystem running_ex ∅ 0 InPoll []).
Proof. by apply run_enter. Qed.

Lemma inside_system y y' : rtc inside_step y y' → rtc system_step y y'.
Proof. induction 1 as [|y1 y2 y3 [_ Hs] _ IH]; [done|]. by eapply rtc_l. Qed.

Lemma signals_answered_witness :
  ∃ y, history y = [Raised 15; Emitted 15] ∧ (emitted_count 15 (history y) ≤ raised_count 15 (history y))%nat.
Proof.
  destruct session_end_ex as (y & _ & Hh & Hr). exists y. split; [exact Hh|].
  refine (proj1 (proj2 (signals_answered fresh_ex y 15 fresh_ex_fresh _))).
  eapply rtc_l; [left; exact enter_ex|]. apply inside_system.
  etrans; [exact session_start_ex|exact Hr].
Defined.

(** The request arrives while a signal is being read. *)
Lemma stop_ends_run_witness :
  inevitable run_step outside_step (λ y, at_ y = Outside) 16
    (mkSystem running_ex (∅ ∪ {[15]}) (0 + 1) (Ready true false) ([] ++ [Raised 15])).
Proof.
  apply (stop_ends_run fresh_ex); [exact fresh_ex_fresh| |vm_compute; reflexivity].
  eapply rtc_l; [left; exact enter_ex|]. apply inside_system, session_start_ex.
Defined.

Lemma session_grow y pre script y1 y2 :
  session y pre y1 → inside_step y1 y2 → script = pre ++ polled y1 y2 → session y script y2.
Proof. intros H1 H2 ->. by eapply session_step. Qed.

(** The session of [session_start_ex] and [session_end_ex]: one read of SIGTERM, then a poll that
    reports only the stop request. *)
Definition read_ex : SignalTrap.poll_event := SignalTrap.PollReady (Some (128, [15])) false.
Definition stop_ex : SignalTrap.poll_event := SignalTrap.PollReady None true.

Lemma inside_run y y' : run_step y y' → at_ y ≠ Outside → inside_step y y'.
Proof. intros Hs Hn. split; [done|by left]. Qed.

Lemma session_ex : ∃ y, at_ y = Outside ∧ session (mkSystem running_ex ∅ 0 InPoll []) [read_ex; stop_ex] y.
Proof.
  eexists. split; cycle 1.
  - eapply (session_grow _ [read_ex; stop_ex]); [|eapply inside_run; [apply run_leave|done]|reflexivity].
    eapply (session_grow _ [read_ex; stop_ex]); [|eapply inside_run; [apply run_stop|done]|reflexivity].
    eapply (session_grow _ [read_ex]); [|eapply inside_run; [apply run_no_signals|done]|reflexivity].
    eapply (session_grow _ [read_ex] _ (mkSystem running_ex ((∅ ∪ {[15]}) ∖ list_to_set [15]) (0 + 1) InPoll _));
      [|eapply inside_run; [apply (run_poll _ _ _ _ false true); by_decision|done]|reflexivity].
    eapply (session_grow _ [read_ex]); [|eapply inside_run; [apply run_continue|done]|reflexivity].
    eapply (session_grow _ [read_ex]); [|eapply inside_run; [apply run_emit|done]|reflexivity].
    eapply (session_grow _ []); [|eapply inside_run; [apply (run_read running_ex (∅ ∪ {[15]}) _ _ _ [15]);
      [done|simpl; unfold SignalTrap.signal_info_buffer_size; lia|apply NoDup_singleton|by_decision]|done]|reflexivity].
    eapply (session_grow _ []); [|split; [|right; apply (stop_called _ _ 0)]; done|reflexivity].
    eapply (session_grow _ []); [|eapply inside_run; [apply (run_poll running_ex (∅ ∪ {[15]}) 0 _ true false); by_decision|done]|reflexivity].
    eapply (session_grow _ []); [apply session_start|split; [done|right; apply raise_ex]|reflexivity].
  - reflexivity.
Qed.

Lemma protocol_runs_witness :
  ∃ r, SignalTrap.run (slots RefSig.emit) [read_ex; stop_ex] (trap_ex, sig_ex) = (Ok true, r).
Proof.
  destruct session_ex as (y3 & Ha & Hr).
  assert (∃ w1, sys_signalfd (SignalTrap.blocked_signals_mask trap_ex) sig_ex = (4, w1)) as [w1 Hw]
    by (eexists; vm_compute; reflexivity).
  destruct (protocol_runs RefSig.emit fresh_ex fresh_ex _ y3 _ sig_ex 4 w1 fresh_ex_fresh
    (rtc_refl _ _) eq_refl enter_ex Hr Ha Hw ltac:(lia)) as (new & _ & _ & _ & Hrun).
  eexists. exact Hrun.
Defined.
