(* ===== verification/TrapInterface.v ===== *)
(** * The interface core::posix::SignalTrap

    [include/core/posix/signal.h]: an abstract class with [has], [run] and [stop], which
    is all the death observer knows of a trap.  [SignalTrapI] is the class, with the slots
    connected to [signal_raised] as an argument of [run]; [SignalTrapDoc] is what its
    documentation promises.  [impl::SignalTrap] ([SignalTrap]) is an instance of both. *)

From S2P Require Import Prelude.
From S2P Require Import Types.
From S2P Require Import CppString.
From S2P Require Import Kernel.
From S2P Require Import SignalTrap.

Class SignalTrapI (T W : Type) : Type := {
  session : Type;      (* what happens between entering [run] and its return *)
  trap_has : T → Signal.t → bool;
  trap_run : (Signal.t → M W unit) → session → M (T * W) bool;
  trap_stop : T → M W unit }.

(** [emit] is what [slot] does in states that satisfy [J], which it keeps. *)
Definition emits_in {W} (slot : Signal.t → M W unit) (emit : Signal.t → W → W) (J : W → Prop) : Prop :=
  ∀ s w, J w → slot s w = (Ok tt, emit s w) ∧ J (emit s w).

Class SignalTrapDoc (T W : Type) {TI : SignalTrapI T W} : Type := {
  trapped : T → gset Z;
  requested : T → W → Prop;             (* a stop request is there *)
  usable : T → W → Prop;                (* [run] can be entered *)
  stops : session → Prop;               (* the session ends with a stop request *)
  arriving : session → list Z;          (* the signals that arrive during it *)
  overhead : W → W → Prop;              (* what the trap's own calls do *)
  (* "Returns true if the given signal is trapped by this instance." *)
  has_doc t s : sig_valid s = true → trap_has t s = true ↔ s ∈ trapped t;
  (* "Stops execution of the signal trap." *)
  stop_doc t w w' : trap_stop t w = (Ok tt, w') → requested t w';
  (* "Starts observation of incoming signals, relaying them via signal_raised().  The call
     blocks until stop is called." *)
  run_doc slot emit J t w σ :
    emits_in slot emit J → (∀ w w', overhead w w' → J w → J w') →
    usable t w → stops σ → J w →
    ∃ w1 w2, overhead w w1 ∧
      trap_run slot σ (t, w) = (Ok true, (t, w2)) ∧
      overhead (foldl (λ w s, emit s w) w1 (filter (λ s, trap_has t s = true) (arriving σ))) w2 }.

(** ** A trap whose slots behave *)

Section slots.
Context {W : Type} {E : Errno W} {K : FdKernel W} {S : SigKernel W}.
Context (slot : Signal.t → M W unit) (emit : Signal.t → W → W) (J : W → Prop).
Hypothesis slot_emits : emits_in slot emit J.

Lemma dispatch_ext infos n i self w :
  J w →
  SignalTrap.dispatch slot infos i n (self, w) = SignalTrap.dispatch (slots emit) infos i n (self, w) ∧
  J (SignalTrap.dispatch slot infos i n (self, w)).2.2.
Proof.
  revert i w. induction n as [|n IH]; intros i w HJ; [done|]. cbn [SignalTrap.dispatch].
  destruct (infos !! i) as [s|]; [|done]. unfold mbind, M_bind, gets. cbn [fst snd].
  destruct (SignalTrap.has self (i32 s)).
  - cbv [SignalTrap.liftW zoom slots modify]. cbn [fst snd].
    destruct (slot_emits (i32 s) w HJ) as [-> HJ']. by apply IH.
  - cbv [mret M_ret]. by apply IH.
Qed.

Lemma read_signals_ext result infos self w :
  J w →
  SignalTrap.read_signals slot result infos (self, w) = SignalTrap.read_signals (slots emit) result infos (self, w) ∧
  J (SignalTrap.read_signals slot result infos (self, w)).2.2.
Proof.
  intros HJ. unfold SignalTrap.read_signals. destruct (_ <? _); [done|]. by apply dispatch_ext.
Qed.

Lemma loop_ext script self w :
  J w → SignalTrap.loop slot script (self, w) = SignalTrap.loop (slots emit) script (self, w).
Proof.
  revert w. induction script as [|[e| |[[result infos]|] event] script IH]; intros w HJ; cbn [SignalTrap.loop].
  - done.
  - destruct (e =? EINTR); [by apply IH|done].
  - by apply IH.
  - unfold mbind at 1 3, M_bind. destruct (read_signals_ext result infos self w HJ) as [<- HJ'].
    pose proof (read_signals_object slot self result infos (self, w) eq_refl) as Hself.
    destruct (SignalTrap.read_signals slot result infos (self, w)) as [[|x|] [self' w']]; [|done|done].
    unfold object_is in Hself. simpl in *. subst self'. destruct event; [done|by apply IH].
  - unfold mbind at 1 3, M_bind. cbv [mret M_ret]. destruct event; [done|by apply IH].
Qed.

(** A session of [run] that ends with a stop request, for such slots. *)
Lemma run_stopped_ext pre sigs script self w fd w1 :
  SignalTrap.state self = SignalTrap.not_running →
  sys_signalfd (SignalTrap.blocked_signals_mask self) w = (fd, w1) → fd ≠ -1 →
  Forall quiet pre → read_ok sigs → J w1 →
  SignalTrap.run slot (pre ++ SignalTrap.PollReady sigs true :: script) (self, w) =
    (Ok true, (self, (sys_close fd (sys_read_event (SignalTrap.event_fd self) (emitted emit self
      ((pre ≫= signals_of) ++ signals_of (SignalTrap.PollReady sigs true)) w1)).2).2)).
Proof.
  intros Hst Hfd Hne Hq Hok HJ. rewrite <- (run_stopped emit pre sigs script self w fd w1) by done.
  rewrite !(run_eq _ _ self w fd w1) by done. by rewrite loop_ext.
Qed.
End slots.

(** ** The instance *)

Section instance.
Context {W : Type} {E : Errno W} {K : FdKernel W} {S : SigKernel W} {LS : SigLaws W}.

#[global] Instance signal_trap : SignalTrapI SignalTrap.t W := {|
  session := list SignalTrap.poll_event;
  trap_has := SignalTrap.has;
  trap_run := SignalTrap.run;
  trap_stop := SignalTrap.stop |}.

(** A call of signalfd, a read of the eventfd or a close. *)
Inductive trap_call (w w' : W) : Prop :=
| call_signalfd m rc : sys_signalfd m w = (rc, w') → trap_call w w'
| call_read_event fd rc : sys_read_event fd w = (rc, w') → trap_call w w'
| call_close fd rc : sys_close fd w = (rc, w') → trap_call w w'.

Definition trap_usable (t : SignalTrap.t) (w : W) : Prop :=
  SignalTrap.state t = SignalTrap.not_running ∧
  (sys_signalfd (SignalTrap.blocked_signals_mask t) w).1 ≠ -1.

Definition trap_stops (script : list SignalTrap.poll_event) : Prop :=
  ∃ pre sigs, script = pre ++ [SignalTrap.PollReady sigs true] ∧ Forall quiet pre ∧ read_ok sigs.

Lemma run_doc_holds slot emit J (t : SignalTrap.t) (w : W) script :
  emits_in slot emit J → (∀ w w', rtc trap_call w w' → J w → J w') →
  trap_usable t w → trap_stops script → J w →
  ∃ w1 w2, rtc trap_call w w1 ∧
    SignalTrap.run slot script (t, w) = (Ok true, (t, w2)) ∧
    rtc trap_call (foldl (λ w s, emit s w) w1 (filter (λ s, SignalTrap.has t s = true) (script ≫= signals_of))) w2.
Proof.
  intros Hslot HJ [Hst Hfd] (pre & sigs & -> & Hq & Hok) Hw.
  destruct (sys_signalfd (SignalTrap.blocked_signals_mask t) w) as [fd w1] eqn:Ef. simpl in Hfd.
  assert (rtc trap_call w w1) as H1 by (by eapply rtc_once, call_signalfd).
  exists w1. eexists. split; [done|].
  rewrite (run_stopped_ext _ _ _ Hslot pre sigs [] t w fd w1) by (done || by eapply HJ). split; [done|].
  rewrite bind_app. simpl. rewrite app_nil_r. fold (emitted emit t ((pre ≫= signals_of) ++ signals_of (SignalTrap.PollReady sigs true)) w1).
  set (w2 := emitted _ _ _ _).
  destruct (sys_read_event (SignalTrap.event_fd t) w2) as [rc w3] eqn:Er.
  destruct (sys_close fd w3) as [rc' w4] eqn:Ec. simpl. rewrite Ec. simpl.
  eapply rtc_l; [by eapply call_read_event|]. by eapply rtc_once, call_close.
Qed.

Lemma has_doc_holds (t : SignalTrap.t) s :
  sig_valid s = true → SignalTrap.has t s = true ↔ s ∈ SignalTrap.blocked_signals_mask t.
Proof. intros Hs. rewrite has_mask by done. apply bool_decide_eq_true. Qed.

Lemma stop_doc_holds (t : SignalTrap.t) (w w' : W) :
  SignalTrap.stop t w = (Ok tt, w') → 0 < event_count w' (SignalTrap.event_fd t).
Proof.
  unfold SignalTrap.stop, mbind, M_bind, call. destruct (sys_write_event _ w) as [n w1] eqn:Ew.
  case_Zeqb as Hn; [|done]. intros [= <-].
  apply write_event_law in Ew as [[_ Hc]|[-> _]]; [|done].
  assert (0 ≤ event_count w (SignalTrap.event_fd t)); [|lia].
  destruct (sys_read_event (SignalTrap.event_fd t) w) as [rc w2] eqn:Er.
  apply read_event_law in Er as [(_ & ? & _)|(_ & -> & _)]; lia.
Qed.

#[global] Instance signal_trap_doc : SignalTrapDoc SignalTrap.t W := {|
  trapped := SignalTrap.blocked_signals_mask;
  requested := λ t w, 0 < event_count w (SignalTrap.event_fd t);
  usable := trap_usable;
  stops := trap_stops : session (T := SignalTrap.t) (W := W) → Prop;
  arriving := λ script : session (T := SignalTrap.t) (W := W), (script : list SignalTrap.poll_event) ≫= signals_of;
  overhead := rtc trap_call;
  has_doc := has_doc_holds;
  stop_doc := stop_doc_holds;
  run_doc := run_doc_holds |}.
End instance.
