(* ===== verification/DeathObserver.v ===== *)
(** * core::posix::ChildProcess::DeathObserver

    [src/core/posix/child_process.cpp], lines 38-185: the registry of observed
    children, the check for children that died before they were added, the reaping
    loop run on SIGCHLD, and the creation of the single instance.  An emission of
    [child_died] is recorded in [log] and then runs the connected slots, a
    parameter.  Erasing an entry destroys a copy of the process object; what that
    does (nothing, or the destructor of the shared part if it was the last copy) is
    the parameter [release]. *)

From S2P Require Import Prelude.
From S2P Require Import Types.
From S2P Require Import CppString.
From S2P Require Import Kernel.
From S2P Require Import RefKernel.
From S2P Require Import Pipe.
From S2P Require Import Process.
From S2P Require Import ChildProcess.
From S2P Require Import SignalTrap.
From S2P Require Import TrapInterface.

Module DeathObserver.

(** [DeathObserverImpl]: its mutex and map, the emissions so far, and the kernel. *)
Record t (W : Type) : Type := mk {
  guard : bool;
  registered : gmap Z ChildProcess.t;
  log : list ChildProcess.t;
  world : W }.
Arguments mk {W} _ _ _ _.
Arguments guard {W} _.
Arguments registered {W} _.
Arguments log {W} _.
Arguments world {W} _.

Definition set_registered {W} (m : gmap Z ChildProcess.t) (s : t W) : t W :=
  mk (guard s) m (log s) (world s).

(** What one call of waitpid makes the loop do. *)
Inductive verdict : Type := Break | Continue | Reaped (pid status : Z).

Section operations.
Context {W : Type} {E : Errno W} {P : ProcKernel W}.
Context (slots : ChildProcess.t → M (t W) unit) (release : ChildProcess.t → W → W).

Definition liftW {A} (m : M W A) : M (t W) A :=
  zoom world (λ w s, mk (guard s) (registered s) (log s) w) m.

(** [std::lock_guard<std::mutex> lg(guard);] *)
Definition guarded {A} (m : M (t W) A) : M (t W) A := λ s,
  if guard s then (Undefined, s)
  else finally m (λ s', mk false (registered s') (log s') (world s'))
         (mk true (registered s) (log s) (world s)).

(** [signals.child_died(c)] *)
Definition child_died (c : ChildProcess.t) : M (t W) unit :=
  modify (λ s, mk (guard s) (registered s) (log s ++ [c]) (world s)) ;; slots c.

Definition add (process : ChildProcess.t) : M (t W) bool :=
  if ChildProcess.pid process =? -1 then mret false else
  guarded (
    m ← gets registered;
    match m !! ChildProcess.pid process with
    | Some _ => mret false
    | None =>
        modify (set_registered (<[ChildProcess.pid process := process]> m)) ;;
        rc ← liftW (call (sys_waitpid (ChildProcess.pid process) Wait.no_hang));
        if rc.1 =? 0 then mret true else
        child_died process ;;
        modify (λ s, set_registered (delete (ChildProcess.pid process) (registered s)) s) ;;
        mret false
    end).

Definition has (process : ChildProcess.t) : M (t W) bool :=
  guarded (m ← gets registered; mret (bool_decide (is_Some (m !! ChildProcess.pid process)))).

(** The head of the loop: the call and its three tests. *)
Definition poll_child : M W verdict :=
  rc ← call (sys_waitpid 0 Wait.no_hang);
  if rc.1 =? -1 then
    e ← gets errno;
    mret (if e =? ECHILD then Break else Continue)
  else if rc.1 =? 0 then mret Break
  else mret (Reaped rc.1 rc.2).

(** The last branch of the loop, under the lock. *)
Definition handle (pid status : Z) : M (t W) unit :=
  guarded (
    m ← gets registered;
    match m !! pid with
    | Some c =>
        if Wait.terminal status then
          child_died c ;;
          modify (λ s, set_registered (delete pid (registered s)) s) ;;
          liftW (modify (release c))
        else mret tt
    | None => mret tt
    end).

(** The loop, [fuel] iterations: [false] when it would go on. *)
Fixpoint on_sig_child (fuel : nat) : M (t W) bool :=
  match fuel with
  | O => mret false
  | S fuel =>
      v ← liftW poll_child;
      match v with
      | Break => mret true
      | Continue => on_sig_child fuel
      | Reaped pid status => handle pid status ;; on_sig_child fuel
      end
  end.

(** The slot connected to the trap. *)
Definition on_signal (fuel : nat) (signal : Signal.t) : M (t W) bool :=
  if signal =? Signal.sig_chld then on_sig_child fuel else mret true.

End operations.

(** ** The single instance *)

(** The function-local static and the slots connected to the trap's signal. *)
Record creation : Type := mkCreation { has_been_created_once : bool; connections : nat }.

Section creation.
Context {T W : Type} {TI : SignalTrapI T W}.

(** The constructor of [DeathObserverImpl]: connect, then check; when it throws, the
    scoped connection is destroyed. *)
Definition DeathObserverImpl (trap : T) : M creation unit :=
  modify (λ s, mkCreation (has_been_created_once s) (S (connections s))) ;;
  on_throw (throw_if (negb (trap_has trap Signal.sig_chld))
    (LogicError "DeathObserver::DeathObserverImpl: Given SignalTrap instance does not trap Signal::sig_chld."))
    (λ s, mkCreation (has_been_created_once s) (pred (connections s))).

(** The destructor: only the connection goes. *)
Definition DeathObserverImpl_dtor (s : creation) : creation :=
  mkCreation (has_been_created_once s) (pred (connections s)).

Definition create_once_with_signal_trap (trap : T) : M creation unit :=
  old ← gets has_been_created_once;
  modify (λ s, mkCreation true (connections s)) ;;
  throw_if old (RuntimeError "DeathObserver::create_once_with_signal_trap: Cannot create more than one instance.") ;;
  try_catch (DeathObserverImpl trap)
    (λ e, modify (λ s, mkCreation false (connections s)) ;; throw e).
End creation.

End DeathObserver.

(** ** Lemmas *)

Section lemmas.
Context {W : Type} {E : Errno W} {I : Pid W} {P : ProcKernel W}.
Context (release : ChildProcess.t → W → W).
Implicit Types (w : W) (s : DeathObserver.t W) (c : ChildProcess.t).

(** No further slots: the log is what the subscribers see. *)
Definition subscribers (c : ChildProcess.t) : M (DeathObserver.t W) unit := mret tt.

Lemma add_eq c s :
  DeathObserver.guard s = false → ChildProcess.pid c ≠ -1 →
  DeathObserver.registered s !! ChildProcess.pid c = None →
  let r := sys_waitpid (ChildProcess.pid c) Wait.no_hang (DeathObserver.world s) in
  DeathObserver.add subscribers c s =
    if r.1.1 =? 0 then
      (Ok true, DeathObserver.mk false (<[ChildProcess.pid c := c]> (DeathObserver.registered s))
                  (DeathObserver.log s) r.2)
    else (Ok false, DeathObserver.mk false (DeathObserver.registered s) (DeathObserver.log s ++ [c]) r.2).
Proof.
  destruct s as [g m l w]; simpl. intros -> Hp Hm. unfold DeathObserver.add.
  rewrite (proj2 (Z.eqb_neq _ _)) by done.
  cbv [DeathObserver.guarded finally mbind M_bind gets modify DeathObserver.liftW zoom call
       DeathObserver.child_died subscribers mret M_ret DeathObserver.set_registered]. simpl. rewrite Hm.
  cbn [DeathObserver.world]. destruct (sys_waitpid (ChildProcess.pid c) Wait.no_hang w) as [[rc st] w']. simpl.
  case_Zeqb; simpl; [done|]. by rewrite delete_insert_id.
Qed.

Lemma add_again c s c' :
  DeathObserver.guard s = false → ChildProcess.pid c ≠ -1 →
  DeathObserver.registered s !! ChildProcess.pid c = Some c' →
  DeathObserver.add subscribers c s = (Ok false, s).
Proof.
  destruct s as [g m l w]; simpl. intros -> Hp Hm. unfold DeathObserver.add.
  rewrite (proj2 (Z.eqb_neq _ _)) by done.
  cbv [DeathObserver.guarded finally mbind M_bind gets mret M_ret]. simpl. by rewrite Hm.
Qed.

Lemma handle_eq p st s :
  DeathObserver.guard s = false → Wait.terminal st = true →
  DeathObserver.handle subscribers release p st s =
    (Ok tt, match DeathObserver.registered s !! p with
            | Some c => DeathObserver.mk false (delete p (DeathObserver.registered s))
                          (DeathObserver.log s ++ [c]) (release c (DeathObserver.world s))
            | None => s
            end).
Proof.
  destruct s as [g m l w]; simpl. intros -> Ht. unfold DeathObserver.handle.
  cbv [DeathObserver.guarded finally mbind M_bind gets modify DeathObserver.liftW zoom
       DeathObserver.child_died subscribers mret M_ret DeathObserver.set_registered]. simpl.
  destruct (m !! p); [|done]. by rewrite Ht.
Qed.

Context {LP : ProcLaws W}.

(** Destroying a copy does not concern the children of the process. *)
Definition release_ok : Prop := ∀ c w,
  children (release c w) = children w ∧ groups (release c w) = groups w ∧ getpid (release c w) = getpid w.

Lemma same_group_ext w w' p : groups w' = groups w → getpid w' = getpid w → same_group w' p = same_group w p.
Proof. unfold same_group. by intros -> ->. Qed.

(** One iteration: the verdicts and what they mean for the children.  Only children in the
    process group of the observer are reaped. *)
Lemma poll_child_spec w r w' :
  DeathObserver.poll_child w = (r, w') →
  groups w' = groups w ∧ getpid w' = getpid w ∧ ∃ v, evolves (children w) v ∧
  ((r = Ok DeathObserver.Break ∧ children w' = v ∧
    ∀ p st, v !! p = Some (Some st) → same_group w p = false) ∨
   ∃ p st, r = Ok (DeathObserver.Reaped p st) ∧ 0 < p ∧ v !! p = Some (Some st) ∧
     same_group w p = true ∧ children w' = delete p v ∧ Wait.terminal st = true).
Proof.
  unfold DeathObserver.poll_child, mbind, M_bind, call.
  destruct (sys_waitpid 0 Wait.no_hang w) as [[rc st] w1] eqn:Ew.
  pose proof (waitpid_group_law _ _ _ _ Ew) as (Hg & Hpid & v & Hev & Hcase). pose proof Hev as [Hdom _].
  simpl. intros H.
  assert (w' = w1) as ->.
  { destruct (rc =? -1); [|destruct (rc =? 0)]; by injection H as _ <-. }
  split; [done|]. split; [done|]. exists v. split; [done|].
  destruct Hcase as [(Hz & Hterm & Hsame & Hch)|[(-> & Hch & Hno)|(-> & He & Hch & Hno)]].
  - assert (0 < rc) as Hpos.
    { eapply (child_pid_law w). apply elem_of_dom. rewrite Hdom. by eapply elem_of_dom_2. }
    rewrite (proj2 (Z.eqb_neq rc (-1))), (proj2 (Z.eqb_neq rc 0)) in H by lia. injection H as <-.
    right. exists rc, st. by split_and!.
  - injection H as <-. left. by split_and!.
  - simpl in H. rewrite He in H. injection H as <-. left. split_and!; eauto.
Qed.

(** What a run of the loop that reaped the children [dead] has done: each of them is gone
    from the kernel and from the registry, the registered ones were announced in order,
    they are the dead children of the observer's process group, what is dead afterwards is in
    another group, and the others are as before. *)
Definition reaped (dead : list Z) (s s' : DeathObserver.t W) : Prop :=
  DeathObserver.guard s' = false ∧ NoDup dead ∧
  (∀ p, p ∈ dead → p ∈ dom (children (DeathObserver.world s)) ∧ same_group (DeathObserver.world s) p = true) ∧
  DeathObserver.log s' = DeathObserver.log s ++ omap (λ p, DeathObserver.registered s !! p) dead ∧
  (∀ p, DeathObserver.registered s' !! p = if decide (p ∈ dead) then None else DeathObserver.registered s !! p) ∧
  dom (children (DeathObserver.world s')) = dom (children (DeathObserver.world s)) ∖ list_to_set dead ∧
  (∀ p st, children (DeathObserver.world s) !! p = Some (Some st) →
     same_group (DeathObserver.world s) p = true → p ∈ dead) ∧
  (∀ p st, children (DeathObserver.world s') !! p = Some (Some st) → same_group (DeathObserver.world s) p = false) ∧
  (∀ p, same_group (DeathObserver.world s') p = same_group (DeathObserver.world s) p).

Lemma handle_registered p st s s1 :
  DeathObserver.guard s = false → Wait.terminal st = true → release_ok →
  DeathObserver.handle subscribers release p st s = (Ok tt, s1) →
  DeathObserver.guard s1 = false ∧
  DeathObserver.log s1 = DeathObserver.log s ++ omap (λ q, DeathObserver.registered s !! q) [p] ∧
  DeathObserver.registered s1 = delete p (DeathObserver.registered s) ∧
  children (DeathObserver.world s1) = children (DeathObserver.world s) ∧
  groups (DeathObserver.world s1) = groups (DeathObserver.world s) ∧
  getpid (DeathObserver.world s1) = getpid (DeathObserver.world s).
Proof.
  intros Hg Ht Hrel. rewrite handle_eq by done. intros [= <-].
  destruct s as [g m l w]; simpl in *. subst g. destruct (m !! p) as [c|] eqn:Em; simpl.
  - destruct (Hrel c w) as (? & ? & ?). by split_and!.
  - split_and!; try done; [by rewrite app_nil_r|by rewrite delete_id].
Qed.

Lemma reaped_step p st dead s s1 s' v :
  DeathObserver.log s1 = DeathObserver.log s ++ omap (λ q, DeathObserver.registered s !! q) [p] →
  DeathObserver.registered s1 = delete p (DeathObserver.registered s) →
  evolves (children (DeathObserver.world s)) v → v !! p = Some (Some st) →
  same_group (DeathObserver.world s) p = true →
  (∀ q, same_group (DeathObserver.world s1) q = same_group (DeathObserver.world s) q) →
  children (DeathObserver.world s1) = delete p v →
  reaped dead s1 s' → reaped (p :: dead) s s'.
Proof.
  intros Hl Hreg [Hdom Hev] Hp Hsame Hgrp Hch (Hg & Hd & Hsub & Hlog & Hr & Hdc & Hz & Hno & Hkeep).
  setoid_rewrite Hgrp in Hsub. setoid_rewrite Hgrp in Hz. setoid_rewrite Hgrp in Hno.
  setoid_rewrite Hgrp in Hkeep.
  rewrite Hch in Hsub, Hz, Hdc. rewrite dom_delete_L in Hsub, Hdc.
  assert (p ∉ dead) as Hnew by (intros Hin; apply Hsub in Hin as [? _]; set_solver).
  unfold reaped. rewrite Hdom. split_and!.
  - done.
  - by constructor.
  - intros q [->|Hq]%elem_of_cons; [split; [by eapply elem_of_dom_2|done]|]. apply Hsub in Hq. set_solver.
  - rewrite Hlog, Hl, <- app_assoc. f_equal. simpl.
    assert (omap (λ q, DeathObserver.registered s1 !! q) dead =
            omap (λ q, DeathObserver.registered s !! q) dead) as ->.
    { apply list_omap_ext, Forall_Forall2_diag, Forall_forall. intros q Hq. rewrite Hreg.
      apply lookup_delete_ne. intros ->. done. }
    by destruct (DeathObserver.registered s !! p).
  - intros q. rewrite Hr, Hreg. rewrite lookup_delete. repeat case_decide; set_solver.
  - rewrite Hdc. set_solver.
  - intros q st' Hq Hqs. apply elem_of_cons. destruct (decide (q = p)) as [|Hne]; [by left|right].
    eapply (Hz q st'); [|done]. rewrite lookup_delete_ne by done. by apply Hev.
  - done.
  - done.
Qed.

Lemma on_sig_child_reaps fuel s :
  release_ok → DeathObserver.guard s = false →
  (size (children (DeathObserver.world s)) < fuel)%nat →
  ∃ dead s', DeathObserver.on_sig_child subscribers release fuel s = (Ok true, s') ∧ reaped dead s s'.
Proof.
  intros Hrel. revert s. induction fuel as [|fuel IH]; intros s Hg Hsz; [lia|].
  cbn [DeathObserver.on_sig_child]. unfold mbind at 1, M_bind. unfold DeathObserver.liftW, zoom.
  destruct (DeathObserver.poll_child (DeathObserver.world s)) as [r w1] eqn:Ep.
  apply poll_child_spec in Ep as (Hgr0 & Hpi0 & v & Hev & Hcase). pose proof Hev as [Hdom Hkeep].
  set (s0 := DeathObserver.mk (DeathObserver.guard s) (DeathObserver.registered s) (DeathObserver.log s) w1).
  destruct Hcase as [(-> & Hch & Hno)|(p & st & -> & Hpos & Hp & Hsame & Hch & Ht)].
  - exists [], s0. split; [done|]. unfold reaped; simpl. rewrite app_nil_r, Hch, Hdom.
    split_and!; [done|constructor|set_solver|done|done|set_solver| |done|].
    + intros p st Hp Hs. apply Hkeep, Hno in Hp. congruence.
    + intros p. by apply same_group_ext.
  - unfold mbind, M_bind.
    destruct (DeathObserver.handle subscribers release p st s0) as [r1 s1] eqn:Eh.
    assert (r1 = Ok tt) as -> by (rewrite handle_eq in Eh by done; by injection Eh).
    apply handle_registered in Eh as (Hg1 & Hl1 & Hr1 & Hc1 & Hgr & Hpi); [|done..]. simpl in *.
    destruct (IH s1) as (dead & s' & Hrun & Hreaped).
    + done.
    + rewrite Hc1, Hch, map_size_delete_Some by (by eexists).
      rewrite <- (size_dom (D := gset Z)) in Hsz |- *. rewrite <- Hdom.
      assert (size (dom (children (DeathObserver.world s))) ≠ 0%nat) as Hnz.
      { intros Hz%size_empty_inv. rewrite Hdom in Hz. apply elem_of_dom_2 in Hp. set_solver. }
      lia.
    + exists (p :: dead), s'. split; [done|].
      eapply (reaped_step p st dead s s1 s' v); try done; [|by rewrite Hc1].
      intros q. apply same_group_ext; congruence.
Qed.

(** The two ways [add] of a child that is not registered yet can end. *)
Lemma add_cases c s :
  DeathObserver.guard s = false → 0 < ChildProcess.pid c →
  DeathObserver.registered s !! ChildProcess.pid c = None →
  ∃ b s' v, DeathObserver.add subscribers c s = (Ok b, s') ∧ DeathObserver.guard s' = false ∧
    groups (DeathObserver.world s') = groups (DeathObserver.world s) ∧
    getpid (DeathObserver.world s') = getpid (DeathObserver.world s) ∧
    evolves (children (DeathObserver.world s)) v ∧
    children (DeathObserver.world s') = (if b then v else delete (ChildProcess.pid c) v) ∧
    if (b : bool) then
      v !! ChildProcess.pid c = Some None ∧ DeathObserver.log s' = DeathObserver.log s ∧
      DeathObserver.registered s' = <[ChildProcess.pid c := c]> (DeathObserver.registered s)
    else
      v !! ChildProcess.pid c ≠ Some None ∧ DeathObserver.log s' = DeathObserver.log s ++ [c] ∧
      DeathObserver.registered s' = DeathObserver.registered s.
Proof.
  intros Hg Hp Hr. rewrite add_eq by (done || lia).
  destruct (sys_waitpid _ _ _) as [[rc st] w'] eqn:Ew. simpl.
  apply waitpid_one_law in Ew as (Hgr & Hpid & v & Hev & Hcase); [|done].
  destruct (v !! ChildProcess.pid c) as [[st'|]|] eqn:Ev.
  - destruct Hcase as (-> & _ & Hch). rewrite (proj2 (Z.eqb_neq _ 0)) by lia.
    exists false. eexists _, v. split_and!; try done. simpl. by rewrite Ev.
  - destruct Hcase as (-> & Hch). exists true. eexists _, v. by split_and!.
  - destruct Hcase as (-> & _ & Hch). exists false. eexists _, v. split_and!; try done.
    + simpl. by rewrite delete_id.
    + by rewrite Ev.
Qed.

(** C24: [add], on every branch, with the mutex free before and after.  A process with pid -1 or
    one whose pid is registered already is refused and nothing changes.  Otherwise, if the child
    is alive when [add] asks the kernel, it is registered, nothing is announced and the result is
    true; if it has died by then, or was reaped before, it is announced exactly once, reaped, not
    left in the registry, and the result is false.  [has] afterwards says exactly whether the pid
    is in the registry. *)
Theorem death_observer_add c s :
  DeathObserver.guard s = false → ChildProcess.pid c = -1 ∨ 0 < ChildProcess.pid c →
  ∃ b s', DeathObserver.add subscribers c s = (Ok b, s') ∧ DeathObserver.guard s' = false ∧
    DeathObserver.has c s' =
      (Ok (bool_decide (is_Some (DeathObserver.registered s' !! ChildProcess.pid c))), s') ∧
    if decide (ChildProcess.pid c = -1 ∨ is_Some (DeathObserver.registered s !! ChildProcess.pid c))
    then b = false ∧ s' = s
    else if (b : bool) then
      children (DeathObserver.world s') !! ChildProcess.pid c = Some None ∧
      DeathObserver.log s' = DeathObserver.log s ∧
      DeathObserver.registered s' = <[ChildProcess.pid c := c]> (DeathObserver.registered s)
    else
      children (DeathObserver.world s') !! ChildProcess.pid c = None ∧
      DeathObserver.log s' = DeathObserver.log s ++ [c] ∧
      DeathObserver.registered s' = DeathObserver.registered s.
Proof.
  intros Hg Hp.
  assert (∀ t : DeathObserver.t W, DeathObserver.guard t = false → DeathObserver.has c t =
    (Ok (bool_decide (is_Some (DeathObserver.registered t !! ChildProcess.pid c))), t)) as Hhas.
  { intros [g m l w]. simpl. by intros ->. }
  case_decide as Hno.
  - exists false, s. rewrite Hhas by done. split_and!; try done.
    destruct (decide (ChildProcess.pid c = -1)) as [Heq|Hne].
    + unfold DeathObserver.add. by rewrite Heq.
    + destruct Hno as [|[c' Hc']]; [done|]. by apply (add_again c s c').
  - apply Decidable.not_or in Hno as [Hne Hr]. rewrite <- eq_None_not_Some in Hr.
    assert (0 < ChildProcess.pid c) as Hpos by (by destruct Hp).
    destruct (add_cases c s Hg Hpos Hr) as (b & s' & v & Ha & Hg' & _ & _ & _ & Hch & Hx).
    exists b, s'. rewrite Hhas by done. split_and!; [done..|].
    destruct b; rewrite Hch; [exact Hx|]. rewrite lookup_delete_eq. split; [done|apply Hx].
Qed.

(** A child that is not there any more (it was announced before, or somebody else waited for
    it) and is not registered is announced when it is added, however often that happens: nothing
    in [add] remembers the announcements. *)
Theorem add_announces_again c s :
  DeathObserver.guard s = false → 0 < ChildProcess.pid c →
  DeathObserver.registered s !! ChildProcess.pid c = None →
  children (DeathObserver.world s) !! ChildProcess.pid c = None →
  ∃ s', DeathObserver.add subscribers c s = (Ok false, s') ∧
    DeathObserver.log s' = DeathObserver.log s ++ [c] ∧
    DeathObserver.registered s' = DeathObserver.registered s ∧
    children (DeathObserver.world s') !! ChildProcess.pid c = None.
Proof.
  intros Hg Hp Hr Hn. destruct (add_cases c s Hg Hp Hr) as (b & s' & v & Ha & _ & _ & _ & [Hdom _] & Hch & Hx).
  assert (v !! ChildProcess.pid c = None) as Hv.
  { apply not_elem_of_dom. rewrite <- Hdom. by apply not_elem_of_dom. }
  destruct b; destruct Hx as (Hx & Hl & Hreg); [congruence|].
  exists s'. rewrite Hch. split_and!; [done..|apply lookup_delete_eq].
Qed.

End lemmas.

(** A failed construction (the trap does not trap SIGCHLD: std::logic_error) leaves no
    connection behind and creation can be retried; after a successful one every further
    creation throws std::runtime_error, also when the instance has been destroyed in
    between. *)
Theorem create_once {T W} {TI : SignalTrapI T W} (trap : T) s :
  DeathObserver.has_been_created_once s = false →
  (trap_has trap Signal.sig_chld = false →
   ∃ m, DeathObserver.create_once_with_signal_trap trap s = (Throw (LogicError m), s)) ∧
  (trap_has trap Signal.sig_chld = true →
   ∃ s', DeathObserver.create_once_with_signal_trap trap s = (Ok tt, s') ∧
     DeathObserver.connections s' = S (DeathObserver.connections s) ∧
     ∀ trap2, ∃ m, DeathObserver.create_once_with_signal_trap trap2 (DeathObserver.DeathObserverImpl_dtor s') =
       (Throw (RuntimeError m), DeathObserver.DeathObserverImpl_dtor s')).
Proof.
  destruct s as [b n]; simpl. intros ->.
  cbv [DeathObserver.create_once_with_signal_trap DeathObserver.DeathObserverImpl mbind M_bind gets modify
       throw_if try_catch on_throw mret M_ret]. simpl.
  split; intros ->; simpl; [by eexists|]. eexists. split; [done|]. split; [done|]. intros trap2. by eexists.
Qed.

(** ** Witnesses *)

(** The observer (pid 5) with two children of its group: 10 has exited, 11 is alive. *)
Definition observer_world (kids : gmap Z (option Z)) : Ref.t :=
  Ref.mk ∅ 0 16 1 5 12 (list_to_map [(5, 5); (10, 5); (11, 5)]) [] kids [] [] [].
Definition observed (p : Z) : ChildProcess.t :=
  ChildProcess.mk (Process.mk (Signalable.ctor p) p)
    (ChildProcess.mkPrivate (ChildProcess.mkPipes Pipe.closed Pipe.closed Pipe.closed) (-1) (-1) (-1) 5 p).
Definition kids_ex : gmap Z (option Z) := <[10 := Some 0]> (<[11 := None]> ∅).
(** Other copies of the objects remain. *)
Definition release_ex (c : ChildProcess.t) (w : Ref.t) : Ref.t := w.

Lemma death_observer_add_witness :
  ∃ s', DeathObserver.add subscribers (observed 10) (DeathObserver.mk false ∅ [] (observer_world kids_ex)) =
    (Ok false, s') ∧ DeathObserver.log s' = [observed 10] ∧ DeathObserver.has (observed 10) s' = (Ok false, s').
Proof.
  destruct (death_observer_add (I := Ref.pid_kernel) (LP := Ref.proc_laws) (observed 10)
    (DeathObserver.mk false ∅ [] (observer_world kids_ex))) as (b & s' & Ha & _ & Hh & H);
    [reflexivity|right; vm_compute; reflexivity|].
  rewrite decide_False in H by (intros [Hx|[x Hx]]; [vm_compute in Hx; discriminate Hx|simpl in Hx; by rewrite lookup_empty in Hx]).
  destruct b; [exfalso|].
  - apply (f_equal fst) in Ha. vm_compute in Ha. discriminate Ha.
  - destruct H as (_ & Hl & Hr). exists s'. split; [exact Ha|]. split; [exact Hl|].
    rewrite Hh, Hr. reflexivity.
Defined.

(** Child 10 has exited in the observer's group, child 12 in another one: 10 is reaped, 12 is
    left. *)
Definition stray_ex : Ref.t :=
  Ref.mk ∅ 0 16 1 5 13 (list_to_map [(5, 5); (10, 5); (11, 5); (12, 12)]) []
    (<[12 := Some 0]> kids_ex) [] [] [].


Lemma create_once_witness :
  (DeathObserver.create_once_with_signal_trap (W := RefSig.t) (SignalTrap.mk SignalTrap.process SignalTrap.not_running 3 ∅ {[17]})
     (DeathObserver.mkCreation false 0)).1 = Ok tt.
Proof.
  destruct (create_once (W := RefSig.t) (SignalTrap.mk SignalTrap.process SignalTrap.not_running 3 ∅ {[17]})
    (DeathObserver.mkCreation false 0) eq_refl) as [_ H].
  destruct H as (s' & -> & _); reflexivity.
Defined.
