(* ===== verification/OwningObserver.v ===== *)
(** * The death observer as an owner

    The map of [DeathObserverImpl] ([src/core/posix/child_process.cpp]) holds copies of the
    [ChildProcess] objects and so keeps their shared parts alive: whether the destructor of a
    shared part, which kills the child, runs depends on who holds copies, the client or the
    observer.  [Module Owning] has the observer's operations on the heap of shared parts of
    [SharedChild], with every copy they make and destroy; the calls run one after the other
    (the mutex is in [DeathObserver]).  The slots of [child_died] are a parameter. *)

From S2P Require Import Prelude.
From S2P Require Import Types.
From S2P Require Import CppString.
From S2P Require Import Kernel.
From S2P Require Import RefKernel.
From S2P Require Import Pipe.
From S2P Require Import Process.
From S2P Require Import ChildProcess.
From S2P Require Import SharedChild.
From S2P Require Import DeathObserver.

Module Owning.

(** [children], the emissions so far, and the heap with the kernel. *)
Record t (W : Type) : Type := mk {
  children : gmap Z Shared.t;
  log : list Shared.t;
  shared : Shared.state W }.
Arguments mk {W} _ _ _.
Arguments children {W} _.
Arguments log {W} _.
Arguments shared {W} _.

Section operations.
Context {W : Type} {E : Errno W} {I : Pid W} {K : FdKernel W} {P : ProcKernel W}.
Context (slots : Shared.t → M (Shared.state W) unit).

Definition set_children (m : gmap Z Shared.t) (o : t W) : t W := mk m (log o) (shared o).

Definition liftS {A} (m : M (Shared.state W) A) : M (t W) A :=
  zoom shared (λ s o, mk (children o) (log o) s) m.
Definition liftW {A} (m : M W A) : M (t W) A :=
  liftS (zoom Shared.world (λ w s, Shared.mkState (Shared.heap s) (Shared.next s) (Shared.gone s) w) m).

(** A local [ChildProcess] that is destroyed at the end of its scope. *)
Definition scoped {A} (h : Shared.t) (m : M (t W) A) : M (t W) A := λ o,
  match m o with
  | (Undefined, o') => (Undefined, o')
  | (r, o') => match liftS (Shared.dtor h) o' with
               | (Ok _, o2) => (r, o2)
               | (_, o2) => (Undefined, o2)
               end
  end.

(** [signals.child_died(c)] *)
Definition child_died (c : Shared.t) : M (t W) unit :=
  modify (λ o, mk (children o) (log o ++ [c]) (shared o)) ;; liftS (slots c).

(** [children.erase(...)] of an entry that is there. *)
Definition erase (pid : Z) (c : Shared.t) : M (t W) unit :=
  modify (λ o, set_children (delete pid (children o)) o) ;; liftS (Shared.dtor c).

(** [std::make_pair] copies the process, [insert] copies the pair if it inserts. *)
Definition add (process : Shared.t) : M (t W) bool :=
  if Shared.pid process =? -1 then mret false else
  new_process ← liftS (Shared.copy process);
  scoped new_process (
    m ← gets children;
    match m !! Shared.pid process with
    | Some _ => mret false
    | None =>
        entry ← liftS (Shared.copy new_process);
        modify (set_children (<[Shared.pid process := entry]> m)) ;;
        rc ← liftW (call (sys_waitpid (Shared.pid process) Wait.no_hang));
        if rc.1 =? 0 then mret true else
        child_died new_process ;;
        erase (Shared.pid process) entry ;;
        mret false
    end).

Definition handle (pid status : Z) : M (t W) unit :=
  m ← gets children;
  match m !! pid with
  | Some c => if Wait.terminal status then child_died c ;; erase pid c else mret tt
  | None => mret tt
  end.

(** The loop, [fuel] iterations: [false] when it would go on. *)
Fixpoint on_sig_child (fuel : nat) : M (t W) bool :=
  match fuel with
  | O => mret false
  | S fuel =>
      v ← liftW DeathObserver.poll_child;
      match v with
      | DeathObserver.Break => mret true
      | DeathObserver.Continue => on_sig_child fuel
      | DeathObserver.Reaped pid status => handle pid status ;; on_sig_child fuel
      end
  end.

(** The destructor destroys the map. *)
Fixpoint erase_all (entries : list (Z * Shared.t)) : M (t W) unit :=
  match entries with
  | [] => mret tt
  | (pid, c) :: entries => erase pid c ;; erase_all entries
  end.
Definition dtor : M (t W) unit := m ← gets children; erase_all (map_to_list m).

End operations.
End Owning.

(** ** Safe computations *)

(** From [P] the computation does not go wrong, returns in [Q] or throws in [X]. *)
Definition safe {S A} (P : S → Prop) (m : M S A) (Q : A → S → Prop) (X : S → Prop) : Prop :=
  ∀ s, P s → match m s with (Ok a, s') => Q a s' | (Throw _, s') => X s' | (Undefined, _) => False end.

Lemma safe_bind {S A B} (P : S → Prop) (m : M S A) (f : A → M S B) Q R X :
  safe P m Q X → (∀ a, safe (Q a) (f a) R X) → safe P (m ≫= f) R X.
Proof.
  intros Hm Hf s Hs. specialize (Hm s Hs). unfold mbind, M_bind. destruct (m s) as [[a|x|] s']; [|done|done].
  by apply Hf.
Qed.

Lemma safe_ret {S A} (P : S → Prop) (a : A) (Q : A → S → Prop) X : (∀ s, P s → Q a s) → safe P (mret a) Q X.
Proof. intros HQ s Hs. by apply HQ. Qed.

Lemma safe_modify {S} (P : S → Prop) f (Q : unit → S → Prop) X : (∀ s, P s → Q tt (f s)) → safe P (modify f) Q X.
Proof. intros HQ s Hs. by apply HQ. Qed.

(** A read of the state: what follows starts in the state that was read. *)
Lemma safe_gets {S A B} (P : S → Prop) (f : S → A) (k : A → M S B) Q X :
  (∀ s, P s → safe (λ s', s' = s) (k (f s)) Q X) → safe P (gets f ≫= k) Q X.
Proof. intros Hk s Hs. by apply (Hk s Hs s). Qed.

Lemma safe_weaken {S A} (P P' : S → Prop) (m : M S A) (Q Q' : A → S → Prop) (X X' : S → Prop) :
  safe P m Q X → (∀ s, P' s → P s) → (∀ a s, Q a s → Q' a s) → (∀ s, X s → X' s) → safe P' m Q' X'.
Proof. intros Hm HP HQ HX s Hs. specialize (Hm s (HP s Hs)). destruct (m s) as [[]]; auto. Qed.

Lemma safe_defined {S A} (Pre : S → Prop) (m : M S A) Q X s : safe Pre m Q X → Pre s → (m s).1 ≠ Undefined.
Proof. intros Hm Hs Hu. specialize (Hm s Hs). destruct (m s) as [[]]; done. Qed.

(** ** Books of client and observer *)

Section owning.
Context {W : Type} {E : Errno W} {I : Pid W} {K : FdKernel W} {P : ProcKernel W}.
Context {LF : FdLaws W} {LP : ProcLaws W} {LX : FrameLaws W}.
Context (slots : Shared.t → M (Shared.state W) unit).
Implicit Types (o : Owning.t W) (s : Shared.state W) (h q : Shared.t) (hs L : list Shared.t).

(** Slots that get a copy, keep none and send no signals; they may throw. *)
Definition well_behaved : Prop :=
  ∀ b lg hs h, safe (λ s, shared_inv b lg hs s ∧ h ∈ hs) (slots h) (λ _, shared_inv b lg hs) (shared_inv b lg hs).

(** The copies in the map. *)
Definition entries o : list Shared.t := (map_to_list (Owning.children o)).*2.

Context (b : gmap Z Ofd) (lg : list (Z * Z)).

(** [L] are locals of the operation under way, [hs] the client's objects. *)
Record own_inv hs L o : Prop := {
  own_shared : shared_inv b lg (L ++ hs ++ entries o) (Owning.shared o);
  own_keys pid h : Owning.children o !! pid = Some h → Shared.pid h = pid }.

Lemma entries_elem o pid h : Owning.children o !! pid = Some h → h ∈ entries o.
Proof. intros Hh. unfold entries. apply list_elem_of_fmap. exists (pid, h). split; [done|]. by apply elem_of_map_to_list. Qed.

Lemma entries_insert o pid h :
  Owning.children o !! pid = None →
  entries (Owning.set_children (<[pid := h]> (Owning.children o)) o) ≡ₚ h :: entries o.
Proof. intros Hn. unfold entries. simpl. by rewrite map_to_list_insert. Qed.

Lemma entries_delete o pid h :
  Owning.children o !! pid = Some h →
  entries o ≡ₚ h :: entries (Owning.set_children (delete pid (Owning.children o)) o).
Proof.
  intros Hh. unfold entries. simpl. rewrite <- (map_to_list_delete _ _ _ Hh). done.
Qed.

Lemma copy_eta h : Shared.mk (Shared.base h) (Shared.d h) = h.
Proof. by destruct h. Qed.

Lemma safe_copy hs L q m :
  safe (λ o, own_inv hs L o ∧ q ∈ L ++ hs ++ entries o ∧ Owning.children o = m) (Owning.liftS (Shared.copy q))
    (λ h o, h = q ∧ own_inv hs (q :: L) o ∧ Owning.children o = m) (own_inv hs L).
Proof.
  intros [cs l s] ([Hinv Hkeys] & Hq & Hm). simpl in *.
  destruct (retain_inv _ _ _ _ _ Hinv Hq) as (s' & Er & Hinv'). rewrite copy_eta in Hinv'.
  unfold Owning.liftS, zoom, Shared.copy, mbind, M_bind. simpl. rewrite Er. simpl. rewrite copy_eta. by split_and!.
Qed.

Lemma safe_release hs L h : safe (own_inv hs (h :: L)) (Owning.liftS (Shared.dtor h)) (λ _, own_inv hs L) (λ _, False).
Proof.
  intros [cs l s] [Hinv Hkeys]. simpl in *. destruct (release_inv _ _ _ _ _ Hinv) as (s' & Er & Hinv').
  unfold Owning.liftS, zoom, Shared.dtor. simpl. rewrite Er. by split.
Qed.

Lemma safe_scoped {A} hs L h (m : M (Owning.t W) A) :
  safe (own_inv hs (h :: L)) m (λ _, own_inv hs (h :: L)) (own_inv hs (h :: L)) →
  safe (own_inv hs (h :: L)) (Owning.scoped h m) (λ _, own_inv hs L) (own_inv hs L).
Proof.
  intros Hm o Ho. specialize (Hm o Ho). unfold Owning.scoped.
  destruct (m o) as [[a|x|] o1]; [..|done]; pose proof (safe_release hs L h o1 Hm) as Hd;
    by destruct (Owning.liftS (Shared.dtor h) o1) as [[]].
Qed.

(** The kernel moves on without touching descriptors or signalling. *)
Lemma shared_inv_world hs s w :
  shared_inv b lg hs s → fd_table w = fd_table (Shared.world s) → signal_log w = signal_log (Shared.world s) →
  shared_inv b lg hs (Shared.mkState (Shared.heap s) (Shared.next s) (Shared.gone s) w).
Proof. intros [H1 H2 H3 H4 H5] Hf Hl. split; simpl; [done..|by rewrite Hf|done|by rewrite Hl]. Qed.

Lemma safe_world {A} hs L (m : M W A) (Q : A → Prop) mp :
  (∀ w, fd_table (m w).2 = fd_table w ∧ signal_log (m w).2 = signal_log w ∧ ∃ a, (m w).1 = Ok a ∧ Q a) →
  safe (λ o, own_inv hs L o ∧ Owning.children o = mp) (Owning.liftW m)
    (λ a o, Q a ∧ own_inv hs L o ∧ Owning.children o = mp) (own_inv hs L).
Proof.
  intros Hm [cs l s] [[Hinv Hkeys] Hmp]. simpl in *. unfold Owning.liftW, Owning.liftS, zoom. simpl.
  destruct (Hm (Shared.world s)) as (Hf & Hl & a & Ha & HQ). destruct (m (Shared.world s)) as [r w]. simpl in *.
  subst r. split; [done|]. split; [|done]. split; [by apply shared_inv_world|done].
Qed.

Context (Hslots : well_behaved).

Lemma safe_emit hs L c m :
  safe (λ o, own_inv hs L o ∧ c ∈ L ++ hs ++ entries o ∧ Owning.children o = m) (Owning.child_died slots c)
    (λ _ o, own_inv hs L o ∧ Owning.children o = m) (own_inv hs L).
Proof.
  intros [cs l s] ([Hinv Hkeys] & Hc & Hm). unfold Owning.child_died, Owning.liftS, zoom, mbind, M_bind, modify.
  simpl in *. pose proof (Hslots b lg _ c s (conj Hinv Hc)) as Hs.
  destruct (slots c s) as [[[]|x|] s']; [|by split|done]. by split; [split|].
Qed.

Lemma safe_erase hs L pid c :
  safe (λ o, own_inv hs L o ∧ Owning.children o !! pid = Some c) (Owning.erase pid c) (λ _, own_inv hs L) (own_inv hs L).
Proof.
  intros o [[Hinv Hkeys] Hc]. unfold Owning.erase. unfold mbind, M_bind, modify.
  assert (own_inv hs (c :: L) (Owning.set_children (delete pid (Owning.children o)) o)) as H1.
  { split; [|by intros k h; simpl; intros [_ ?]%lookup_delete_Some; apply Hkeys]. eapply shared_inv_perm; [|exact Hinv].
    rewrite (entries_delete _ _ _ Hc). simpl. by rewrite !Permutation_middle. }
  apply safe_release in H1. by destruct (Owning.liftS (Shared.dtor c) _) as [[]].
Qed.

(** Each operation of the observer keeps the books. *)
Lemma safe_handle hs pid status :
  safe (own_inv hs []) (Owning.handle slots pid status) (λ _, own_inv hs []) (own_inv hs []).
Proof.
  apply safe_gets. intros o Ho. destruct (Owning.children o !! pid) as [c|] eqn:Ec; [|by apply safe_ret; intros ? ->].
  destruct (Wait.terminal status); [|by apply safe_ret; intros ? ->].
  apply (safe_bind _ _ _ (λ _ o', own_inv hs [] o' ∧ Owning.children o' = Owning.children o)).
  - intros ? ->. apply safe_emit. split_and!; [done| |done]. apply elem_of_app. right. apply elem_of_app. right.
    by eapply entries_elem.
  - intros _. eapply safe_weaken; [apply (safe_erase hs [])|..]; [|done|done]. intros o' [Ho' Hc']. split; [done|].
    by rewrite Hc'.
Qed.

Lemma poll_child_frame (w : W) :
  fd_table (DeathObserver.poll_child w).2 = fd_table w ∧
  signal_log (DeathObserver.poll_child w).2 = signal_log w ∧ ∃ v, (DeathObserver.poll_child w).1 = Ok v ∧ True.
Proof.
  unfold DeathObserver.poll_child, mbind, M_bind, call, gets.
  destruct (sys_waitpid 0 Wait.no_hang w) as [[rc st] w'] eqn:Ew.
  apply waitpid_frame in Ew as (Hf & Hl & _). simpl. repeat case_Zeqb; simpl; (split_and!; [done|done|by eexists]).
Qed.

Lemma safe_on_sig_child hs fuel :
  safe (own_inv hs []) (Owning.on_sig_child slots fuel) (λ _, own_inv hs []) (own_inv hs []).
Proof.
  induction fuel as [|fuel IH]; simpl; [by apply safe_ret|].
  eapply (safe_bind _ _ _ (λ _, own_inv hs [])).
  - intros o Ho. pose proof (safe_world hs [] DeathObserver.poll_child (λ _, True) (Owning.children o) poll_child_frame o
      (conj Ho eq_refl)) as Hp. destruct (Owning.liftW _ o) as [[]]; naive_solver.
  - intros [| |pid status]; [by apply safe_ret|exact IH|]. eapply safe_bind; [apply safe_handle|intros []; exact IH].
Qed.

Lemma waitpid_call_frame pid opts (w : W) :
  fd_table (call (sys_waitpid pid opts) w).2 = fd_table w ∧
  signal_log (call (sys_waitpid pid opts) w).2 = signal_log w ∧ ∃ v, (call (sys_waitpid pid opts) w).1 = Ok v ∧ True.
Proof.
  unfold call. destruct (sys_waitpid pid opts w) as [r w'] eqn:Ew. apply waitpid_frame in Ew as (Hf & Hl & _).
  simpl. split_and!; [done|done|by eexists].
Qed.

Lemma safe_add hs q :
  q ∈ hs → safe (own_inv hs []) (Owning.add slots q) (λ _, own_inv hs []) (own_inv hs []).
Proof.
  intros Hq. unfold Owning.add. case_Zeqb; [by apply safe_ret|].
  eapply (safe_bind _ _ _ (λ h o, h = q ∧ own_inv hs [q] o)).
  { intros o Ho. pose proof (safe_copy hs [] q (Owning.children o) o) as Hcp.
    specialize (Hcp ltac:(split_and!; [done|set_solver|done])).
    destruct (Owning.liftS (Shared.copy q) o) as [[]]; naive_solver. }
  intros h. intros o [-> Ho]. revert o Ho. apply safe_scoped, safe_gets. intros o Ho.
  destruct (Owning.children o !! Shared.pid q) as [h|] eqn:Ec; [by apply safe_ret; intros ? ->|].
  set (m := Owning.children o). set (m' := <[Shared.pid q := q]> m).
  apply (safe_bind _ _ _ (λ h o', h = q ∧ own_inv hs [q; q] o' ∧ Owning.children o' = m)).
  { eapply safe_weaken; [apply (safe_copy hs [q] q m)|..]; [|done|done]. intros ? ->. split_and!; [done|set_solver|done]. }
  intros h. intros o1 (-> & Ho1 & Hm1). revert o1 Ho1 Hm1.
  assert (∀ o1, own_inv hs [q; q] o1 → Owning.children o1 = m → own_inv hs [q] (Owning.set_children m' o1)) as Hput.
  { intros o1 [Hinv Hkeys] Hm1. split.
    - eapply shared_inv_perm; [|exact Hinv]. unfold m'. rewrite <- Hm1, entries_insert by by rewrite Hm1.
      simpl. by rewrite !Permutation_middle.
    - intros k h. simpl. unfold m'. rewrite <- Hm1. intros [[<- <-]|[_ ?]]%lookup_insert_Some; [done|by apply Hkeys]. }
  enough (safe (λ o1, own_inv hs [q] o1 ∧ Owning.children o1 = m')
    (rc ← Owning.liftW (call (sys_waitpid (Shared.pid q) Wait.no_hang));
     if rc.1 =? 0 then mret true
     else Owning.child_died slots q ;; Owning.erase (Shared.pid q) q ;; mret false)
    (λ _, own_inv hs [q]) (own_inv hs [q])) as Hrest.
  { intros o1 Ho1 Hm1. apply (Hrest (Owning.set_children m' o1)). by split; [apply Hput|]. }
  eapply safe_bind; [apply (safe_world hs [q] _ (λ _, True)), waitpid_call_frame|intros rc]. simpl.
  case_Zeqb; [by apply safe_ret; naive_solver|].
  eapply safe_bind; [eapply safe_weaken; [apply (safe_emit hs [q] q m')|..]; [|done|done]|].
  { intros o1 (_ & Ho1 & Hm1). split_and!; [done|set_solver|done]. }
  intros []. eapply safe_bind; [eapply safe_weaken; [apply (safe_erase hs [q])|..]; [|done|done]|by intros []; apply safe_ret].
  intros o1 [Ho1 Hm1]. split; [done|]. rewrite Hm1. apply lookup_insert_eq.
Qed.

Lemma safe_dtor hs : safe (own_inv hs []) Owning.dtor (λ _, own_inv hs []) (own_inv hs []).
Proof.
  apply safe_gets. intros o Ho.
  enough (∀ l, NoDup l.*1 → safe (λ o, own_inv hs [] o ∧ ∀ k h, (k, h) ∈ l → Owning.children o !! k = Some h)
    (Owning.erase_all l) (λ _, own_inv hs []) (own_inv hs [])) as Hall.
  { eapply safe_weaken; [apply (Hall _ (NoDup_fst_map_to_list _))|..]; [|done|done].
    intros ? ->. split; [done|]. intros k h. by rewrite elem_of_map_to_list. }
  clear o Ho. induction l as [|[k h] l IH]; intros Hd; simpl; [by apply safe_ret; naive_solver|].
  simpl in Hd. apply NoDup_cons in Hd as [Hk Hd].
  eapply (safe_bind _ _ _ (λ _ o, own_inv hs [] o ∧ ∀ k h, (k, h) ∈ l → Owning.children o !! k = Some h));
    [|intros _; by apply IH].
  intros o [Ho Hl]. pose proof (safe_erase hs [] k h o (conj Ho (Hl k h ltac:(left)))) as He.
  assert (Owning.children (Owning.erase k h o).2 = delete k (Owning.children o)) as Hc.
  { unfold Owning.erase, Owning.liftS, zoom, mbind, M_bind, modify. simpl. by destruct (Shared.dtor h _). }
  destruct (Owning.erase k h o) as [[[]|x|] o']; [|done|done]. split; [done|]. simpl in Hc. rewrite Hc.
  intros k' h' Hin. rewrite lookup_delete_ne; [apply Hl; by right|]. intros <-. apply Hk.
  apply list_elem_of_fmap. by exists (k, h').
Qed.
End owning.

(** ** Programs with an observer *)

Section observed.
Context {W : Type} {E : Errno W} {I : Pid W} {K : FdKernel W} {P : ProcKernel W}.
Context {LF : FdLaws W} {LP : ProcLaws W} {LX : FrameLaws W}.
Context (slots : Shared.t → M (Shared.state W) unit).
Implicit Types (o : Owning.t W) (s : Shared.state W) (h q : Shared.t) (hs : list Shared.t) (w : W).

(** The client makes, copies, assigns and destroys objects and adds them to the observer,
    SIGCHLD is handled, the observer is destroyed; calls may throw. *)
Inductive own_step : list Shared.t * Owning.t W → list Shared.t * Owning.t W → Prop :=
| own_client hs s hs' s' m l :
    shared_step (hs, s) (hs', s') → own_step (hs, Owning.mk m l s) (hs', Owning.mk m l s')
| own_add hs o q r o' : q ∈ hs → Owning.add slots q o = (r, o') → own_step (hs, o) (hs, o')
| own_reap hs o fuel r o' : Owning.on_sig_child slots fuel o = (r, o') → own_step (hs, o) (hs, o')
| own_destroy hs o r o' : Owning.dtor o = (r, o') → own_step (hs, o) (hs, o').

Definition own_start w : Owning.t W := Owning.mk ∅ [] (Shared.mkState ∅ 1 [] w).

(** The client's operations do not see the observer's copies. *)
Lemma shared_step_frame hs s hs' s' X :
  shared_step (hs, s) (hs', s') → shared_step (hs ++ X, s) (hs' ++ X, s').
Proof.
  inversion 1; subst; rewrite <- ?app_assoc; simpl.
  - by eapply shared_make.
  - eapply shared_copy; [|done]. set_solver.
  - eapply shared_assign; [|done]. set_solver.
  - by eapply shared_dtor.
Qed.

Lemma own_step_inv b lg hs o hs' o' :
  well_behaved slots → own_step (hs, o) (hs', o') → own_inv b lg hs [] o → own_inv b lg hs' [] o'.
Proof.
  intros Hslots.
  inversion 1 as [????? ? Hst|?? q r ? Hq Ha|?? fuel r ? Hr|?? r ? Hd]; subst; intros Hinv.
  - destruct Hinv as [Hs Hk]. split; [|done]. simpl in *. eapply shared_step_inv; [|exact Hs].
    by apply shared_step_frame.
  - pose proof (safe_add slots b lg Hslots hs' q Hq o Hinv) as Hp. rewrite Ha in Hp. by destruct r.
  - pose proof (safe_on_sig_child slots b lg Hslots hs' fuel o Hinv) as Hp. rewrite Hr in Hp. by destruct r.
  - pose proof (safe_dtor b lg hs' o Hinv) as Hp. rewrite Hd in Hp. by destruct r.
Qed.

Lemma own_reachable w hs o :
  well_behaved slots → rtc own_step ([], own_start w) (hs, o) → own_inv (fd_table w) (signal_log w) hs [] o.
Proof.
  intros Hslots Hr. assert (own_inv (fd_table w) (signal_log w) [] [] (own_start w)) as H0.
  { split; [|done]. exact (shared_inv_start w). }
  refine (rtc_ind_r (λ c, own_inv (fd_table w) (signal_log w) c.1 [] c.2) ([], _) H0 _ _ Hr).
  intros [hs1 o1] [hs2 o2] _ Hst. by apply own_step_inv.
Qed.

Lemma copies_app l hs hs' : copies l (hs ++ hs') = (copies l hs + copies l hs')%nat.
Proof. unfold copies. by rewrite filter_app, length_app. Qed.

(** The observer has one copy of a child it observes. *)
Lemma own_once b lg hs o pid h :
  own_inv b lg hs [] o → Owning.children o !! pid = Some h →
  copies (Shared.d h) (hs ++ entries o) = S (copies (Shared.d h) hs).
Proof.
  intros [[H1 H2 H3 H4 H5] Hk] Hh. rewrite copies_app, (entries_delete _ _ _ Hh), copies_cons, decide_True by done.
  enough (copies (Shared.d h) (entries (Owning.set_children (delete pid (Owning.children o)) o)) = 0%nat) by lia.
  unfold copies. destruct (filter _ _) as [|h' l] eqn:Ef; [done|]. exfalso.
  assert (h' ∈ h' :: l) as Hin by left. rewrite <- Ef in Hin. apply list_elem_of_filter in Hin as [Hd Hin].
  apply list_elem_of_fmap in Hin as ([k h2] & -> & Hin). apply elem_of_map_to_list in Hin. simpl in *.
  apply lookup_delete_Some in Hin as [Hne Hin].
  destruct (H2 h) as (n & p & Hl & Hp); [apply elem_of_app; right; by eapply entries_elem|].
  destruct (H2 h2) as (n2 & p2 & Hl2 & Hp2); [apply elem_of_app; right; by eapply entries_elem|].
  apply Hk in Hh, Hin. rewrite Hd in Hl2. congruence.
Qed.

(** What erasing an entry does to the kernel: nothing, if the client has a copy. *)
Lemma erase_world b lg hs o pid h p :
  own_inv b lg hs [] o → Owning.children o !! pid = Some h →
  Shared.heap (Owning.shared o) !! Shared.d h = Some (copies (Shared.d h) (hs ++ entries o), p) →
  Shared.world (Owning.shared (Owning.erase pid h o).2) =
    if decide (copies (Shared.d h) hs = 0%nat) then ChildProcess.Private_dtor p (Shared.world (Owning.shared o))
    else Shared.world (Owning.shared o).
Proof.
  intros Hinv Hh Hp. rewrite (own_once _ _ _ _ _ _ Hinv Hh) in Hp.
  unfold Owning.erase, Owning.liftS, zoom, mbind, M_bind, modify, Shared.dtor, Shared.release. simpl.
  rewrite Hp. by destruct (copies (Shared.d h) hs).
Qed.

(** C15: a client and a death observer share the ownership of the children.  In every program
    that makes, copies, assigns and destroys [ChildProcess] objects, adds them to an observer
    and lets it reap, with slots that may throw: no call goes wrong; each object of the
    client and of the observer's map refers to a living shared part with its child's pid,
    whose use count is the number of the copies of both; the map has one copy of a child,
    under its pid; the destructor of a shared part has run exactly if neither has a copy
    left, so nobody who is observed or held is killed; and when the observer erases a
    child the kernel sees nothing if the client has a copy, and the destructor that
    sends SIGKILL if it has none.  Without objects and entries nothing is left open. *)
Theorem observed_children w hs o :
  well_behaved slots → rtc own_step ([], own_start w) (hs, o) →
  let all := hs ++ entries o in
  ((∀ q, q ∈ hs → (Owning.add slots q o).1 ≠ Undefined) ∧
   (∀ fuel, (Owning.on_sig_child slots fuel o).1 ≠ Undefined) ∧ (Owning.dtor o).1 ≠ Undefined) ∧
  (∀ h, h ∈ all → ∃ p, Shared.heap (Owning.shared o) !! Shared.d h = Some (copies (Shared.d h) all, p) ∧
     ChildProcess.original_child_pid p = Shared.pid h) ∧
  (∀ l, (l < Shared.next (Owning.shared o))%positive →
     (l ∈ (Shared.gone (Owning.shared o)).*1 ↔ copies l all = 0%nat)) ∧
  (∃ kills, signal_log (Shared.world (Owning.shared o)) = signal_log w ++ kills ∧
     kills `sublist_of` (kill_of <$> Shared.gone (Owning.shared o))) ∧
  (∀ pid h, Owning.children o !! pid = Some h → Shared.pid h = pid ∧
     ∃ p, ChildProcess.original_child_pid p = pid ∧
       Shared.world (Owning.shared (Owning.erase pid h o).2) =
         if decide (copies (Shared.d h) hs = 0%nat) then ChildProcess.Private_dtor p (Shared.world (Owning.shared o))
         else Shared.world (Owning.shared o)) ∧
  (all = [] → Shared.heap (Owning.shared o) = ∅ ∧ fd_table (Shared.world (Owning.shared o)) = fd_table w).
Proof.
  intros Hslots Hr. pose proof (own_reachable w hs o Hslots Hr) as Hinv. simpl.
  destruct (shared_inv_facts _ _ _ _ (own_shared _ _ _ _ _ Hinv)) as (F1 & F2 & F3). simpl in F1, F2, F3.
  split_and!; [..|exact F1|exact F2|by apply (own_shared _ _ _ _ _ Hinv)| |exact F3].
  - intros q Hq. by eapply safe_defined; [eapply safe_add|].
  - intros fuel. by eapply safe_defined; [eapply safe_on_sig_child|].
  - by eapply safe_defined; [eapply safe_dtor|].
  - intros pid h Hh. pose proof (own_keys _ _ _ _ _ Hinv pid h Hh) as Hpid. split; [done|].
    destruct (F1 h) as (p & Hp & Hcp); [apply elem_of_app; right; by eapply entries_elem|].
    exists p. split; [congruence|]. by eapply erase_world.
Qed.
End observed.

(** ** Witness *)

(** A slot that takes its argument by value and does nothing with it. *)
Definition by_value {W} {I : Pid W} {K : FdKernel W} {P : ProcKernel W} (h : Shared.t) : M (Shared.state W) unit :=
  c ← Shared.copy h; Shared.dtor c.

Lemma by_value_ok {W} {E : Errno W} {I : Pid W} {K : FdKernel W} {P : ProcKernel W} {LF : FdLaws W} {LP : ProcLaws W}
    {LX : FrameLaws W} : well_behaved (W := W) by_value.
Proof.
  intros b lg hs h s [Hs Hh]. destruct (retain_inv _ _ _ _ _ Hs Hh) as (s1 & E1 & H1).
  destruct (release_inv _ _ _ _ _ H1) as (s2 & E2 & H2).
  unfold by_value, Shared.copy, Shared.dtor, mbind, M_bind. rewrite E1. cbn [mret M_ret Shared.d] in *. by rewrite E2.
Qed.

(** Child 10 lives when it is added and is dead when SIGCHLD comes. *)
Definition own_world : Ref.t :=
  Ref.mk (<[4 := PipeWrite 7]> child_base) 0 64 8 5 11 (list_to_map [(1, 1); (5, 5); (10, 5)]) []
    (<[10 := None]> ∅) [[]; [(10, 0)]] [] [].
Definition own_made := Shared.make 10 (Pipe.mk (-1) 4) Pipe.closed Pipe.closed (Shared.mkState ∅ 1 [] own_world).
Definition own_added := Owning.add by_value shared_obj (Owning.mk ∅ [] own_made.2).
(** The client keeps its object, or destroys it before the child is reaped. *)
Definition own_kept := Owning.on_sig_child by_value 3 own_added.2.
Definition own_dropped := Shared.dtor shared_obj (Owning.shared own_added.2).
Definition own_reaped := Owning.on_sig_child by_value 3
  (Owning.mk (Owning.children own_added.2) (Owning.log own_added.2) own_dropped.2).

(** The reaped child is announced in both cases, and in the second one SIGKILL is sent to
    its pid. *)
Example reaped_child_is_killed :
  (own_added.1, own_kept.1, own_reaped.1) = (Ok true, Ok true, Ok true) ∧
  Owning.log own_kept.2 = [shared_obj] ∧ Ref.log (Shared.world (Owning.shared own_kept.2)) = [] ∧
  Owning.log own_reaped.2 = [shared_obj] ∧ Ref.log (Shared.world (Owning.shared own_reaped.2)) = [(10, 9)].
Proof. vm_compute. done. Qed.

Lemma observed_children_witness :
  Ref.kids (Shared.world (Owning.shared own_reaped.2)) = ∅ ∧
  Ref.fds (Shared.world (Owning.shared own_reaped.2)) = Ref.fds own_world.
Proof.
  split; [vm_compute; reflexivity|].
  destruct (observed_children (LF := Ref.fd_laws) (LP := Ref.proc_laws) (LX := Ref.frame_laws) by_value own_world []
    own_reaped.2) as (_ & _ & _ & _ & _ & H); [apply by_value_ok| |apply H; vm_compute; reflexivity].
  eapply rtc_l; [apply (own_client by_value [] _ [shared_obj] own_made.2 ∅ []);
    apply (shared_make [] _ 10 (Pipe.mk (-1) 4) Pipe.closed Pipe.closed shared_obj own_made.2); [lia|vm_compute; reflexivity]|].
  eapply rtc_l; [apply (own_add by_value [shared_obj] _ shared_obj (Ok true) own_added.2); [by left|vm_compute; reflexivity]|].
  eapply rtc_l; [apply (own_client by_value [shared_obj] (Owning.shared own_added.2) [] own_dropped.2);
    apply (shared_dtor [] shared_obj []); vm_compute; reflexivity|].
  apply rtc_once. apply (own_reap by_value [] _ 3 (Ok true)). vm_compute. reflexivity.
Defined.
