(* ===== verification/CreateOnce.v ===== *)
(** * Creating the death observer from several threads

    [create_once_with_signal_trap] of [src/core/posix/child_process.cpp] guards the single
    instance with an atomic flag.  Here the calls of several threads are interleaved at
    the operations on the flag: the exchange, the construction, and the store with which
    the catch clause gives the flag back.  A call taken alone is the sequential
    definition of [DeathObserver]. *)

From S2P Require Import Prelude.
From S2P Require Import Types.
From S2P Require Import SignalTrap.
From S2P Require Import TrapInterface.
From S2P Require Import DeathObserver.

Module CreateOnce.

(** Where a call is: before the exchange, before the constructor, in the catch clause, or
    ended, with the instance alive or destroyed. *)
Inductive phase (T : Type) : Type :=
| Calling (trap : T)
| Building (trap : T)
| Unwinding (x : exn)
| Refused (x : exn)
| Alive
| Destroyed.
Arguments Calling {T} trap.
Arguments Building {T} trap.
Arguments Unwinding {T} x.
Arguments Refused {T} x.
Arguments Alive {T}.
Arguments Destroyed {T}.

(** The call has the flag, and nobody else gets past the exchange: it is making an instance, or
    has made one, which may have been destroyed since. *)
Definition holds {T} (ph : phase T) : bool :=
  match ph with Building _ | Unwinding _ | Alive | Destroyed => true | _ => false end.

Section steps.
Context {T W : Type} {TI : SignalTrapI T W}.

(** [has_been_created_once.exchange(true)] and the throw that may follow. *)
Definition exchange (trap : T) (s : DeathObserver.creation) : phase T * DeathObserver.creation :=
  (if DeathObserver.has_been_created_once s then
     Refused (RuntimeError "DeathObserver::create_once_with_signal_trap: Cannot create more than one instance.")
   else Building trap,
   DeathObserver.mkCreation true (DeathObserver.connections s)).

(** [new DeathObserverImpl{trap}] *)
Definition construct (trap : T) (s : DeathObserver.creation) : option (phase T * DeathObserver.creation) :=
  match DeathObserver.DeathObserverImpl trap s with
  | (Ok _, s') => Some (Alive, s')
  | (Throw x, s') => Some (Unwinding x, s')
  | (Undefined, _) => None
  end.

(** [has_been_created_once.store(false); std::rethrow_exception(...)] *)
Definition give_back (x : exn) (s : DeathObserver.creation) : phase T * DeathObserver.creation :=
  (Refused x, DeathObserver.mkCreation false (DeathObserver.connections s)).

(** What a call does next. *)
Definition advance (ph : phase T) (s : DeathObserver.creation) : option (phase T * DeathObserver.creation) :=
  match ph with
  | Calling trap => Some (exchange trap s)
  | Building trap => construct trap s
  | Unwinding x => Some (give_back x s)
  | Alive => Some (Destroyed, DeathObserver.DeathObserverImpl_dtor s)
  | Refused _ | Destroyed => None
  end.

(** The calls so far, by number. *)
Abbreviation state := (gmap nat (phase T) * DeathObserver.creation)%type.

Inductive step : state → state → Prop :=
| step_call calls s i trap :
    calls !! i = None → step (calls, s) (<[i := Calling trap]> calls, s)
| step_advance calls s i ph ph' s' :
    calls !! i = Some ph → advance ph s = Some (ph', s') →
    step (calls, s) (<[i := ph']> calls, s').

End steps.
End CreateOnce.

Section create_once.
Context {T W : Type} {TI : SignalTrapI T W}.
Implicit Types (calls : gmap nat (CreateOnce.phase T)) (s : DeathObserver.creation) (trap : T).

(** At most one call has the flag, which is set exactly if one has it; a connection to the
    trap exists exactly while there is an instance. *)
Definition once (n : nat) (st : gmap nat (CreateOnce.phase T) * DeathObserver.creation) : Prop :=
  let '(calls, s) := st in
  (DeathObserver.has_been_created_once s = true ∧ ∃ i ph, calls !! i = Some ph ∧ CreateOnce.holds ph = true ∧
     (∀ j ph', calls !! j = Some ph' → CreateOnce.holds ph' = true → j = i) ∧
     DeathObserver.connections s = (if ph is CreateOnce.Alive then S n else n)) ∨
  (DeathObserver.has_been_created_once s = false ∧ DeathObserver.connections s = n ∧
     ∀ j ph', calls !! j = Some ph' → CreateOnce.holds ph' = false).

#[local] Arguments once : simpl never.

(** Nobody but [i] has the flag. *)
Definition only calls (i : nat) : Prop :=
  ∀ j ph, calls !! j = Some ph → CreateOnce.holds ph = true → j = i.

Lemma only_insert calls i ph : only calls i → only (<[i := ph]> calls) i.
Proof. intros H j ph' [[<- _]|[_ Hj]]%lookup_insert_Some Hh; [done|by eapply H]. Qed.

(** A call takes the flag, and gives it back. *)
Lemma once_taken n calls s i ph :
  only calls i → CreateOnce.holds ph = true → DeathObserver.has_been_created_once s = true →
  DeathObserver.connections s = (if ph is CreateOnce.Alive then S n else n) →
  once n (<[i := ph]> calls, s).
Proof.
  intros Ho Hh Hf Hc. left. split; [done|]. exists i, ph. rewrite lookup_insert_eq.
  split_and!; [done|done|by apply only_insert|done].
Qed.

Lemma once_free n calls s i ph :
  only calls i → CreateOnce.holds ph = false → DeathObserver.has_been_created_once s = false →
  DeathObserver.connections s = n → once n (<[i := ph]> calls, s).
Proof.
  intros Ho Hh Hf Hc. right. split_and!; [done|done|].
  intros j ph' [[<- <-]|[Hne Hj]]%lookup_insert_Some; [done|].
  destruct (CreateOnce.holds ph') eqn:E; [|done]. by rewrite (Ho j ph' Hj E) in Hne.
Qed.

(** A call without the flag ends, or starts. *)
Lemma once_other n calls s i ph :
  once n (calls, s) → CreateOnce.holds ph = false →
  (∀ ph0, calls !! i = Some ph0 → CreateOnce.holds ph0 = false) → once n (<[i := ph]> calls, s).
Proof.
  intros [(Hf & k & phk & Hk & Hh & Ho & Hc)|(Hf & Hc & Ho)] Hph Hi; [left|right]; (split; [done|]).
  - exists k, phk. assert (i ≠ k) by (intros ->; by rewrite (Hi _ Hk) in Hh).
    rewrite lookup_insert_ne by done. split_and!; [done|done| |done].
    intros j ph' [[<- <-]|[_ Hj]]%lookup_insert_Some Hh'; [congruence|by eapply Ho].
  - split; [done|]. intros j ph' [[<- <-]|[_ Hj]]%lookup_insert_Some; [done|by eapply Ho].
Qed.

(** The call that has the flag. *)
Lemma once_holder n calls s i ph :
  once n (calls, s) → calls !! i = Some ph → CreateOnce.holds ph = true →
  DeathObserver.has_been_created_once s = true ∧ only calls i ∧
  DeathObserver.connections s = (if ph is CreateOnce.Alive then S n else n).
Proof.
  intros [(Hf & k & phk & Hk & Hh & Ho & Hc)|(_ & _ & Ho)] Hi Hhi; [|by rewrite (Ho _ _ Hi) in Hhi].
  assert (i = k) as -> by by eapply Ho. assert (ph = phk) as -> by congruence. done.
Qed.

Lemma once_advance n calls s i ph ph' s' :
  calls !! i = Some ph → CreateOnce.advance ph s = Some (ph', s') →
  once n (calls, s) → once n (<[i := ph']> calls, s').
Proof.
  intros Hi Ha Hon. destruct ph as [trap|trap|x|x| |]; simpl in Ha; [..|done].
  - unfold CreateOnce.exchange in Ha. destruct (DeathObserver.has_been_created_once s) eqn:Ef.
    + injection Ha as <- <-. destruct s as [b c]. simpl in Ef |- *. subst b.
      apply once_other; [done|done|naive_solver].
    + injection Ha as <- <-. destruct Hon as [[Hf _]|(_ & Hc & Ho)]; [congruence|].
      apply once_taken; [|done..]. intros j ph Hj Hh. by rewrite (Ho _ _ Hj) in Hh.
  - destruct (once_holder _ _ _ _ _ Hon Hi eq_refl) as (Hf & Ho & Hc).
    unfold CreateOnce.construct, DeathObserver.DeathObserverImpl, mbind, M_bind, modify, on_throw, throw_if in Ha.
    destruct (trap_has trap Signal.sig_chld); injection Ha as <- <-; apply once_taken; simpl; auto; lia.
  - destruct (once_holder _ _ _ _ _ Hon Hi eq_refl) as (Hf & Ho & Hc).
    injection Ha as <- <-. by apply once_free.
  - done.
  - destruct (once_holder _ _ _ _ _ Hon Hi eq_refl) as (Hf & Ho & Hc).
    injection Ha as <- <-. apply once_taken; simpl; auto; lia.
Qed.

Lemma once_step n st st' : CreateOnce.step st st' → once n st → once n st'.
Proof.
  destruct 1; [|by eapply once_advance]. intros Hon. apply once_other; [done|done|congruence].
Qed.

(** C38: however the calls of [create_once_with_signal_trap] of several threads interleave, at
    most one of them gets an instance, ever; only the connection of a living instance is left at
    the trap; and the flag is set exactly while a call is making an instance (from its exchange
    until it has failed and reset the flag) and, once a call has succeeded, for good, also after
    its instance was destroyed: a failed construction can be retried, a destroyed instance cannot
    be replaced. *)
Theorem created_at_most_once n calls s :
  rtc CreateOnce.step (∅, DeathObserver.mkCreation false n) (calls, s) →
  (∀ i j, (calls !! i = Some CreateOnce.Alive ∨ calls !! i = Some CreateOnce.Destroyed) →
     (calls !! j = Some CreateOnce.Alive ∨ calls !! j = Some CreateOnce.Destroyed) → i = j) ∧
  (n ≤ DeathObserver.connections s ≤ S n)%nat ∧
  (DeathObserver.connections s = S n ↔ ∃ i, calls !! i = Some CreateOnce.Alive) ∧
  (DeathObserver.has_been_created_once s = true ↔
     ∃ i ph, calls !! i = Some ph ∧ CreateOnce.holds ph = true).
Proof.
  intros Hr. assert (once n (calls, s)) as Hon.
  { assert (once n (∅, DeathObserver.mkCreation false n)) as Hinit by (right; by split_and!).
    revert Hinit. generalize dependent (calls, s). induction 1; eauto using once_step. }
  destruct Hon as [(Hf & k & phk & Hk & Hh & Ho & Hc)|(Hf & Hc & Ho)].
  - assert (∀ i ph, calls !! i = Some ph → CreateOnce.holds ph = true → i = k ∧ ph = phk) as Huniq.
    { intros i ph Hi Hhi. assert (i = k) as -> by by eapply Ho. split; [done|congruence]. }
    split_and!.
    + intros i j [Hi|Hi] [Hj|Hj]; apply Huniq in Hi as [-> _]; try done; by apply Huniq in Hj as [-> _].
    + rewrite Hc. by destruct phk; lia.
    + rewrite Hc. by destruct phk; lia.
    + rewrite Hc. split.
      * destruct phk; try lia. eauto.
      * intros [i Hi]. by apply Huniq in Hi as [_ <-].
    + split; [eauto|done].
  - assert (∀ i ph, calls !! i = Some ph → CreateOnce.holds ph = true → False) as Hno.
    { intros i ph Hi Hh. by rewrite (Ho _ _ Hi) in Hh. }
    split_and!; [|lia|lia|split; [lia|]|split; [congruence|]].
    + intros i j [Hi|Hi] _; by apply Hno in Hi.
    + intros [i Hi]. by apply Hno in Hi.
    + intros (i & ph & Hi & Hh). by apply Hno in Hi.
Qed.

(** One more step of call [i], over the entry it has just written. *)
Lemma step_again calls s i ph ph' s' :
  CreateOnce.advance ph s = Some (ph', s') → CreateOnce.step (<[i := ph]> calls, s) (<[i := ph']> calls, s').
Proof.
  intros Ha. rewrite <- (insert_insert_eq calls i ph' ph).
  eapply CreateOnce.step_advance; [apply lookup_insert_eq|exact Ha].
Qed.

(** A call that runs without others between its steps is the sequential definition. *)
Theorem call_alone trap s r s' calls i :
  DeathObserver.create_once_with_signal_trap trap s = (r, s') → calls !! i = Some (CreateOnce.Calling trap) →
  ∃ ph, rtc CreateOnce.step (calls, s) (<[i := ph]> calls, s') ∧
    match r with
    | Ok _ => ph = CreateOnce.Alive
    | Throw x => ph = CreateOnce.Refused x
    | Undefined => False
    end.
Proof.
  intros Hc Hi. destruct s as [flag c].
  cbv [DeathObserver.create_once_with_signal_trap DeathObserver.DeathObserverImpl mbind M_bind gets modify
       throw_if try_catch on_throw mret M_ret throw] in Hc. simpl in Hc.
  rewrite <- (insert_id _ _ _ Hi). setoid_rewrite insert_insert_eq.
  destruct flag; [injection Hc as <- <-|].
  { eexists. split; [apply rtc_once; by apply step_again|done]. }
  assert (CreateOnce.step (<[i := CreateOnce.Calling trap]> calls, DeathObserver.mkCreation false c)
    (<[i := CreateOnce.Building trap]> calls, DeathObserver.mkCreation true c)) as S1 by by apply step_again.
  assert (∀ ph' s', CreateOnce.construct trap (DeathObserver.mkCreation true c) = Some (ph', s') →
    CreateOnce.step (<[i := CreateOnce.Building trap]> calls, DeathObserver.mkCreation true c)
      (<[i := ph']> calls, s')) as S2 by (intros; by apply step_again).
  cbv [CreateOnce.construct DeathObserver.DeathObserverImpl mbind M_bind modify on_throw throw_if throw mret M_ret] in S2.
  simpl in S2. destruct (trap_has trap Signal.sig_chld); injection Hc as <- <-.
  - eexists. split; [eapply rtc_l; [exact S1|apply rtc_once, S2; reflexivity]|done].
  - eexists. split; [|done]. eapply rtc_l; [exact S1|]. eapply rtc_l; [apply S2; reflexivity|].
    apply rtc_once. by apply step_again.
Qed.
End create_once.

(** ** Witnesses *)

Definition trap_of (sigs : gset Z) : SignalTrap.t :=
  SignalTrap.mk SignalTrap.process SignalTrap.not_running 3 ∅ sigs.
Definition taken_exn : exn :=
  RuntimeError "DeathObserver::create_once_with_signal_trap: Cannot create more than one instance.".
Definition no_chld_exn : exn :=
  LogicError "DeathObserver::DeathObserverImpl: Given SignalTrap instance does not trap Signal::sig_chld.".

(** The steps of the calls in the order of [js]. *)
Fixpoint schedule (calls : gmap nat (CreateOnce.phase SignalTrap.t)) (s : DeathObserver.creation)
    (js : list nat) : gmap nat (CreateOnce.phase SignalTrap.t) * DeathObserver.creation :=
  match js with
  | [] => (calls, s)
  | j :: js =>
      match calls !! j ≫= λ ph, CreateOnce.advance (W := RefSig.t) ph s with
      | Some (ph', s') => schedule (<[j := ph']> calls) s' js
      | None => (calls, s)
      end
  end.

Lemma schedule_steps calls s js :
  rtc (CreateOnce.step (W := RefSig.t)) (calls, s) (schedule calls s js).
Proof.
  revert calls s. induction js as [|j js IH]; intros calls s; simpl; [done|].
  destruct (calls !! j) as [ph|] eqn:Ej; simpl; [|done].
  destruct (CreateOnce.advance ph s) as [[ph' s']|] eqn:Ea; [|done].
  eapply rtc_l; [by eapply CreateOnce.step_advance|apply IH].
Qed.

(** Three calls, the first with a trap that does not trap SIGCHLD: the second comes while
    the first has the flag and is refused, the third comes after the first has failed. *)
Definition three_calls : gmap nat (CreateOnce.phase SignalTrap.t) :=
  <[2%nat := CreateOnce.Calling (trap_of {[17]})]>
  (<[1%nat := CreateOnce.Calling (trap_of {[17]})]>
  (<[0%nat := CreateOnce.Calling (trap_of {[15]})]> ∅)).
Definition three_end : gmap nat (CreateOnce.phase SignalTrap.t) * DeathObserver.creation :=
  schedule three_calls (DeathObserver.mkCreation false 0) [0; 0; 1; 0; 2; 2]%nat.

Lemma created_at_most_once_witness :
  three_end.1 !! 0%nat = Some (CreateOnce.Refused no_chld_exn) ∧
  three_end.1 !! 1%nat = Some (CreateOnce.Refused taken_exn) ∧
  three_end.1 !! 2%nat = Some CreateOnce.Alive ∧ DeathObserver.connections three_end.2 = 1%nat.
Proof.
  destruct (created_at_most_once (W := RefSig.t) 0 three_end.1 three_end.2) as (_ & _ & Hc & _).
  - rewrite <- surjective_pairing. eapply rtc_l; [by apply (CreateOnce.step_call _ _ 0 (trap_of {[15]}))|].
    eapply rtc_l; [by apply (CreateOnce.step_call _ _ 1 (trap_of {[17]}))|].
    eapply rtc_l; [by apply (CreateOnce.step_call _ _ 2 (trap_of {[17]}))|]. apply schedule_steps.
  - split_and!; [vm_compute; reflexivity..|]. apply Hc. exists 2%nat. vm_compute. reflexivity.
Defined.
