(* ===== verification/Observing.v ===== *)
(** * A death observer attached to a signal trap

    [DeathObserverImpl] connects its [on_sig_child] to the [signal_raised] of a
    [SignalTrap]: the thread in [SignalTrap::run] reaps the children.  This file puts the
    two components together, and looks at what a subscriber of [child_died] can do to
    them: it is called with the mutex held and inside [run]. *)

From S2P Require Import Prelude.
From S2P Require Import Types.
From S2P Require Import CppString.
From S2P Require Import Kernel.
From S2P Require Import RefKernel.
From S2P Require Import Extend.
From S2P Require Import Pipe.
From S2P Require Import Process.
From S2P Require Import ChildProcess.
From S2P Require Import SignalTrap.
From S2P Require Import TrapInterface.
From S2P Require Import DeathObserver.

(** The children, their groups and the own pid are as they were. *)
Definition same_family {W} {I : Pid W} {P : ProcKernel W} (w w' : W) : Prop :=
  children w' = children w ∧ groups w' = groups w ∧ getpid w' = getpid w.

(** The calls of the trap do not concern the children. *)
Class SigFrame (W : Type) {I : Pid W} {K : FdKernel W} {P : ProcKernel W} {S : SigKernel W} : Prop := {
  signalfd_family s w rc w' : sys_signalfd s w = (rc, w') → same_family w w';
  read_event_family fd w rc w' : sys_read_event fd w = (rc, w') → same_family w w';
  close_family fd w rc w' : sys_close fd w = (rc, w') → same_family w w' }.

Module Observing.
Section attached.
Context {W : Type} {E : Errno W} {I : Pid W} {K : FdKernel W} {P : ProcKernel W} {S : SigKernel W}.
Context (slots : ChildProcess.t → M (DeathObserver.t W) unit) (release : ChildProcess.t → W → W).

(** The trap works on the kernel underneath the observer. *)
#[global] Instance extends : Extends (DeathObserver.t W) W := {|
  part := DeathObserver.world;
  set_part := λ w s, DeathObserver.mk (DeathObserver.guard s) (DeathObserver.registered s) (DeathObserver.log s) w;
  part_set := λ _ _, eq_refl |}.
#[global] Instance errno_obs : Errno (DeathObserver.t W) := errno_up.
#[global] Instance fd_obs : FdKernel (DeathObserver.t W) := fd_up.
#[global] Instance sig_obs : SigKernel (DeathObserver.t W) := {|
  sigmask := λ s, sigmask (part s);
  sys_sigprocmask := λ m, up (sys_sigprocmask m);
  sys_pthread_sigmask := λ m, up (sys_pthread_sigmask m);
  sys_eventfd := up sys_eventfd;
  sys_signalfd := λ m, up (sys_signalfd m);
  event_count := λ s, event_count (part s);
  sys_write_event := λ fd, up (sys_write_event fd);
  sys_read_event := λ fd, up (sys_read_event fd) |}.

(** The connected slot; a loop that needs more than [fuel] iterations does not come back. *)
Definition on_signal_raised (fuel : nat) (signal : Signal.t) : M (DeathObserver.t W) unit :=
  b ← DeathObserver.on_signal slots release fuel signal;
  if (b : bool) then mret tt else undefined.

(** [trap->run()] with the observer connected, for any trap. *)
Definition run {T} {TI : SignalTrapI T (DeathObserver.t W)} (fuel : nat) (σ : session) :
    M (T * DeathObserver.t W) bool :=
  trap_run (on_signal_raised fuel) σ.
End attached.
End Observing.

(** ** Reaping *)

Section observing.
Context {W : Type} {E : Errno W} {I : Pid W} {K : FdKernel W} {P : ProcKernel W} {S : SigKernel W}.
Context {LP : ProcLaws W}.
Context (release : ChildProcess.t → W → W) (Hrel : release_ok release).
Implicit Types (s : DeathObserver.t W).

(** Ready to reap: the mutex is free and [fuel] is enough. *)
Definition attentive (fuel : nat) s : Prop :=
  DeathObserver.guard s = false ∧ (size (children (DeathObserver.world s)) < fuel)%nat.

(** [reaped] only depends on what the final state shows. *)
Lemma reaped_frame dead s s1 s2 :
  DeathObserver.guard s2 = DeathObserver.guard s1 → DeathObserver.registered s2 = DeathObserver.registered s1 →
  DeathObserver.log s2 = DeathObserver.log s1 →
  children (DeathObserver.world s2) = children (DeathObserver.world s1) →
  (∀ p, same_group (DeathObserver.world s2) p = same_group (DeathObserver.world s1) p) →
  reaped dead s s1 → reaped dead s s2.
Proof. intros H1 H2 H3 H4 H5. unfold reaped. setoid_rewrite H5. by rewrite H1, H2, H3, H4. Qed.

Lemma reaped_start dead s0 s s' :
  DeathObserver.registered s0 = DeathObserver.registered s → DeathObserver.log s0 = DeathObserver.log s →
  children (DeathObserver.world s0) = children (DeathObserver.world s) →
  (∀ p, same_group (DeathObserver.world s0) p = same_group (DeathObserver.world s) p) →
  reaped dead s s' → reaped dead s0 s'.
Proof. intros H1 H2 H3 H4. unfold reaped. setoid_rewrite H4. by rewrite H1, H2, H3. Qed.

Lemma reaped_trans d1 d2 s s1 s2 : reaped d1 s s1 → reaped d2 s1 s2 → reaped (d1 ++ d2) s s2.
Proof.
  intros (G1 & N1 & S1 & L1 & R1 & C1 & Z1 & _ & K1) (G2 & N2 & S2 & L2 & R2 & C2 & Z2 & Q2 & K2).
  setoid_rewrite K1 in S2. setoid_rewrite K1 in Q2. setoid_rewrite K1 in K2.
  assert (∀ p, p ∈ d2 → (p ∉ d1) ∧ p ∈ dom (children (DeathObserver.world s)) ∧
    same_group (DeathObserver.world s) p = true) as Hd.
  { intros p Hp. apply S2 in Hp as [Hp Hs]. rewrite C1 in Hp. apply elem_of_difference in Hp as [? Hn].
    by rewrite elem_of_list_to_set in Hn. }
  split_and!.
  - done.
  - apply NoDup_app. split_and!; [done| |done]. intros p Hp Hp'. by apply Hd in Hp' as [? _].
  - intros p [Hp|Hp]%elem_of_app; [by apply S1|by apply Hd].
  - rewrite L2, L1, <- app_assoc, omap_app. do 2 f_equal.
    apply list_omap_ext, Forall_Forall2_diag, Forall_forall. intros p Hp. rewrite R1.
    apply decide_False. by apply Hd.
  - intros p. rewrite R2, R1. repeat case_decide; set_solver.
  - rewrite C2, C1. rewrite list_to_set_app_L. set_solver.
  - intros p st Hp Hs. apply elem_of_app. left. by eapply Z1.
  - done.
  - done.
Qed.

Lemma reaped_size dead s s' : reaped dead s s' →
  (size (children (DeathObserver.world s')) ≤ size (children (DeathObserver.world s)))%nat.
Proof.
  intros (_ & _ & _ & _ & _ & C & _). rewrite <- !(size_dom (D := gset Z)), C.
  apply subseteq_size. set_solver.
Qed.

Definition emit_obs (fuel : nat) (sig : Signal.t) s : DeathObserver.t W :=
  (Observing.on_signal_raised subscribers release fuel sig s).2.

(** One emission: SIGCHLD reaps, other signals do nothing. *)
Lemma attentive_slot fuel sig s :
  attentive fuel s →
  Observing.on_signal_raised subscribers release fuel sig s = (Ok tt, emit_obs fuel sig s) ∧
  attentive fuel (emit_obs fuel sig s) ∧
  if decide (sig = Signal.sig_chld) then ∃ dead, reaped dead s (emit_obs fuel sig s) else emit_obs fuel sig s = s.
Proof.
  intros (Hg & Hf). unfold emit_obs, Observing.on_signal_raised, DeathObserver.on_signal, mbind, M_bind.
  destruct (Z.eqb_spec sig Signal.sig_chld) as [->|Hne].
  - destruct (on_sig_child_reaps release fuel s Hrel Hg Hf) as (dead & s' & -> & Hr).
    rewrite decide_True by done. simpl. split_and!; [done| |by exists dead].
    pose proof (reaped_size _ _ _ Hr). split_and!; [apply Hr|lia].
  - rewrite decide_False by done. by split_and!.
Qed.

(** A sequence of emissions. *)
Lemma attentive_emissions fuel l s :
  attentive fuel s →
  let s' := foldl (λ s sig, emit_obs fuel sig s) s l in
  attentive fuel s' ∧
  if decide (Signal.sig_chld ∈ l) then ∃ dead, reaped dead s s' else s' = s.
Proof.
  revert s. induction l as [|sig l IH]; intros s Ha; [done|]. cbn [foldl].
  destruct (attentive_slot fuel sig s Ha) as (_ & Ha1 & H1). destruct (IH _ Ha1) as [Ha2 H2]. split; [done|].
  destruct (decide (sig = Signal.sig_chld)) as [->|Hne].
  - rewrite decide_True by (by left). destruct H1 as [d1 H1].
    destruct (decide (Signal.sig_chld ∈ l)); [|rewrite H2; by exists d1].
    destruct H2 as [d2 H2]. exists (d1 ++ d2). by eapply reaped_trans.
  - rewrite H1 in *. destruct (decide (Signal.sig_chld ∈ l)) as [Hin|Hin].
    + rewrite decide_True by (by right). done.
    + rewrite decide_False by set_solver. done.
Qed.

(** A trap that leaves the observer and its family alone. *)
Context {T : Type} {TI : SignalTrapI T (DeathObserver.t W)} {TD : SignalTrapDoc T (DeathObserver.t W)}.
Definition minds_own_business : Prop := ∀ s s' : DeathObserver.t W, overhead s s' →
  DeathObserver.guard s' = DeathObserver.guard s ∧ DeathObserver.registered s' = DeathObserver.registered s ∧
  DeathObserver.log s' = DeathObserver.log s ∧ same_family (DeathObserver.world s) (DeathObserver.world s').

Lemma attentive_overhead fuel s s' :
  minds_own_business → overhead s s' → attentive fuel s → attentive fuel s'.
Proof.
  intros Hm Ho (Hg & Hf). destruct (Hm s s' Ho) as (G & _ & _ & C & _).
  split; [congruence|by rewrite C].
Qed.

End observing.

(** ** The library's own trap *)

Section own_trap.
Context {W : Type} {E : Errno W} {I : Pid W} {K : FdKernel W} {P : ProcKernel W} {S : SigKernel W}.
Context {LS : SigLaws W} {LF : SigFrame W}.

#[global] Instance sig_laws_obs : SigLaws (DeathObserver.t W).
Proof.
  assert (∀ (f : W → Z * W) s rc s', up f s = (rc, s') →
    (∀ w rc w', f w = (rc, w') → opens w rc w' ∧ sigmask w' = sigmask w) → opens s rc s' ∧ sigmask s' = sigmask s) as Hopen.
  { intros f s rc s' [H _]%up_inv Hf. exact (Hf _ _ _ H). }
  split; simpl.
  - intros ???? [H _]%up_inv. exact (sigprocmask_law _ _ _ _ H).
  - intros ???? [H _]%up_inv. exact (pthread_sigmask_law _ _ _ _ H).
  - intros ??? H. eapply Hopen; [exact H|apply eventfd_law].
  - intros ???? H. eapply Hopen; [exact H|apply signalfd_law].
  - intros ???? [H _]%up_inv. exact (write_event_law _ _ _ _ H).
  - intros ???? [H _]%up_inv. exact (read_event_law _ _ _ _ H).
  - intros ???? [H _]%up_inv. exact (close_mask_law _ _ _ _ H).
  - intros s. apply masked_law.
Qed.

(** [impl::SignalTrap] makes only calls that do not concern the observer. *)
Lemma own_trap_minds : minds_own_business (T := SignalTrap.t) (W := W).
Proof.
  intros s s' Hr. induction Hr as [s|s s1 s' Hc _ IH]; [done|].
  assert (DeathObserver.guard s1 = DeathObserver.guard s ∧ DeathObserver.registered s1 = DeathObserver.registered s ∧
    DeathObserver.log s1 = DeathObserver.log s ∧
    same_family (DeathObserver.world s) (DeathObserver.world s1)) as (G & R & L & HF).
  { destruct Hc as [m rc [H ->]%up_inv|fd rc [H ->]%up_inv|fd rc [H ->]%up_inv];
      (split_and!; [done..|]); [by eapply signalfd_family|by eapply read_event_family|by eapply close_family]. }
  destruct IH as (G' & R' & L' & HF'). split_and!; [congruence..|].
  unfold same_family in *. naive_solver congruence.
Qed.
End own_trap.

(** ** What subscribers can do *)

Section subscribers.
Context {W : Type} {E : Errno W} {I : Pid W} {P : ProcKernel W} {LP : ProcLaws W}.
Context (slots : ChildProcess.t → M (DeathObserver.t W) unit) (release : ChildProcess.t → W → W).
Implicit Types (s : DeathObserver.t W).

Definition unlock s : DeathObserver.t W :=
  DeathObserver.mk false (DeathObserver.registered s) (DeathObserver.log s) (DeathObserver.world s).

(** The state a subscriber sees: the mutex is held, the child still registered. *)
Definition during (c : ChildProcess.t) s : DeathObserver.t W :=
  DeathObserver.mk true (DeathObserver.registered s) (DeathObserver.log s ++ [c]) (DeathObserver.world s).

Lemma handle_unregistered p st s :
  DeathObserver.guard s = false → DeathObserver.registered s !! p = None →
  DeathObserver.handle slots release p st s = (Ok tt, s).
Proof.
  destruct s as [g m l w]; simpl. intros -> Hp.
  cbv [DeathObserver.handle DeathObserver.guarded finally mbind M_bind gets mret M_ret]. simpl. by rewrite Hp.
Qed.

(** A subscriber that does not return decides how the handling of the child ends. *)
Lemma handle_stopped p st c s :
  DeathObserver.guard s = false → Wait.terminal st = true → DeathObserver.registered s !! p = Some c →
  is_ok (slots c (during c s)).1 = false →
  DeathObserver.handle slots release p st s =
    match slots c (during c s) with
    | (Throw x, s1) => (Throw x, unlock s1)
    | (_, s1) => (Undefined, s1)
    end.
Proof.
  destruct s as [g m l w]; simpl. intros -> Ht Hp Hslot. unfold during in *. simpl in *.
  cbv [DeathObserver.handle DeathObserver.guarded finally mbind M_bind gets modify DeathObserver.child_died]. simpl.
  rewrite Hp, Ht. destruct (slots c _) as [[u|x|] s1]; done.
Qed.

(** Up to the first announcement the loop only reaps children that are not registered. *)
Lemma first_announcement fuel s :
  DeathObserver.guard s = false → (size (children (DeathObserver.world s)) < fuel)%nat →
  (∃ p st, children (DeathObserver.world s) !! p = Some (Some st) ∧ same_group (DeathObserver.world s) p = true ∧
     is_Some (DeathObserver.registered s !! p)) →
  (∀ c s, DeathObserver.guard s = true → is_ok (slots c s).1 = false) →
  ∃ p c w, DeathObserver.registered s !! p = Some c ∧ children w !! p = None ∧
    let s0 := DeathObserver.mk false (DeathObserver.registered s) (DeathObserver.log s) w in
    DeathObserver.on_sig_child slots release fuel s =
      match slots c (during c s0) with
      | (Throw x, s1) => (Throw x, unlock s1)
      | (_, s1) => (Undefined, s1)
      end.
Proof.
  intros Hg Hf Hdead Hslots. revert s Hg Hf Hdead.
  induction fuel as [|fuel IH]; intros s Hg Hf (q & stq & Hq & Hgq & Hregq); [lia|].
  cbn [DeathObserver.on_sig_child]. unfold mbind at 1, M_bind, DeathObserver.liftW, zoom.
  destruct (DeathObserver.poll_child (DeathObserver.world s)) as [r w1] eqn:Ep.
  apply poll_child_spec in Ep as (Hgr & Hpi & v & Hev & Hcase). pose proof Hev as [Hdom Hkeep].
  destruct Hcase as [(_ & _ & Hno)|(p & st & -> & Hpos & Hp & _ & Hch & Ht)].
  { apply Hkeep, Hno in Hq. congruence. }
  rewrite Hg. set (s0 := DeathObserver.mk false (DeathObserver.registered s) (DeathObserver.log s) w1).
  unfold mbind, M_bind. destruct (DeathObserver.registered s !! p) as [c|] eqn:Er.
  - exists p, c, w1. split_and!; [done|rewrite Hch; apply lookup_delete_eq|].
    rewrite (handle_stopped p st c s0) by (done || by apply Hslots). fold s0.
    by destruct (slots c (during c s0)) as [[u|x|] s1].
  - rewrite handle_unregistered by done.
    destruct (IH s0) as (p' & c & w & H1 & H2 & H3); [done| | |by exists p', c, w].
    + simpl. rewrite Hch, map_size_delete_Some by (by eexists).
      rewrite <- (size_dom (D := gset Z)) in Hf |- *. rewrite <- Hdom.
      assert (size (dom (children (DeathObserver.world s))) ≠ 0%nat); [|lia].
      intros Hz%size_empty_inv. apply elem_of_dom_2 in Hq. set_solver.
    + exists q, stq. split; [|split; [simpl; by rewrite (same_group_ext (DeathObserver.world s))|done]].
      simpl. rewrite Hch, lookup_delete_ne; [by apply Hkeep|].
      intros ->. rewrite Er in Hregq. by destruct Hregq.
Qed.
End subscribers.

Section misbehaving.
Context {W : Type} {E : Errno W} {I : Pid W} {P : ProcKernel W} {LP : ProcLaws W}.
Context (release : ChildProcess.t → W → W).
Implicit Types (s : DeathObserver.t W).

(** A subscriber that throws: the exception leaves [on_sig_child] (and thereby ends
    [SignalTrap::run]) with the mutex released, but the child, although reaped, stays
    registered, and so can never be announced to the other subscribers or leave the
    registry. *)
Theorem subscriber_throws x fuel s :
  DeathObserver.guard s = false → (size (children (DeathObserver.world s)) < fuel)%nat →
  (∃ p st, children (DeathObserver.world s) !! p = Some (Some st) ∧ same_group (DeathObserver.world s) p = true ∧
     is_Some (DeathObserver.registered s !! p)) →
  ∃ p c s', DeathObserver.on_sig_child (λ _, throw x) release fuel s = (Throw x, s') ∧
    DeathObserver.guard s' = false ∧ DeathObserver.log s' = DeathObserver.log s ++ [c] ∧
    DeathObserver.registered s !! p = Some c ∧ DeathObserver.registered s' = DeathObserver.registered s ∧
    children (DeathObserver.world s') !! p = None.
Proof.
  intros Hg Hf Hd.
  destruct (first_announcement (λ _, throw x) release fuel s Hg Hf Hd) as (p & c & w & H1 & H2 & H3); [done|].
  exists p, c. eexists. split; [exact H3|]. by split_and!.
Qed.

(** A subscriber that calls back into the observer ([has] or [add]) locks the mutex
    it is called under a second time: [on_sig_child] never gets past the announcement of
    the first registered child. *)
Theorem subscriber_reenters (child : ChildProcess.t) fuel s :
  DeathObserver.guard s = false → (size (children (DeathObserver.world s)) < fuel)%nat → ChildProcess.pid child ≠ -1 →
  (∃ p st, children (DeathObserver.world s) !! p = Some (Some st) ∧ same_group (DeathObserver.world s) p = true ∧
     is_Some (DeathObserver.registered s !! p)) →
  (DeathObserver.on_sig_child (λ _, b ← DeathObserver.has child; mret tt) release fuel s).1 = Undefined ∧
  (DeathObserver.on_sig_child (λ _, b ← DeathObserver.add subscribers child; mret tt) release fuel s).1 = Undefined.
Proof.
  intros Hg Hf Hpid Hd.
  assert (∀ s, DeathObserver.guard s = true → DeathObserver.has child s = (Undefined, s)) as Hhas.
  { intros [g m l w]; simpl. by intros ->. }
  assert (∀ s, DeathObserver.guard s = true → DeathObserver.add subscribers child s = (Undefined, s)) as Hadd.
  { intros [g m l w]; simpl. intros ->. unfold DeathObserver.add. by rewrite (proj2 (Z.eqb_neq _ _)). }
  split.
  - destruct (first_announcement (λ _, b ← DeathObserver.has child; mret tt) release fuel s Hg Hf Hd)
      as (p & c & w & _ & _ & ->).
    + intros c t Ht. unfold mbind, M_bind. by rewrite Hhas.
    + unfold mbind, M_bind. by rewrite Hhas.
  - destruct (first_announcement (λ _, b ← DeathObserver.add subscribers child; mret tt) release fuel s Hg Hf Hd)
      as (p & c & w & _ & _ & ->).
    + intros c t Ht. unfold mbind, M_bind. by rewrite Hadd.
    + unfold mbind, M_bind. by rewrite Hadd.
Qed.
End misbehaving.

(** ** Witnesses *)

#[global] Instance sig_frame_ex : SigFrame RefSig.t.
Proof.
  assert (∀ w rc w', RefSig.open_other w = (rc, w') → same_family w w') as Hopen.
  { intros w rc w'. unfold RefSig.open_other. by destruct (Ref.lowest_free _); intros [= <- <-]. }
  assert (∀ fd w rc w', Ref.close fd w = (rc, w') → same_family w w') as Hclose.
  { intros fd w rc w'. unfold Ref.close, Ref.fail. by destruct (Ref.fds w !! fd); intros [= <- <-]. }
  split; simpl.
  - intros _ w rc w' [H _]%up_inv. by apply Hopen in H.
  - intros fd w rc w'. by destruct (_ =? _)%N; intros [= <- <-].
  - intros fd w rc w' [H _]%up_inv. simpl in H. apply Hclose in H. exact H.
Qed.

(** The family of [observer_world]: 10 has exited, 11 is alive, both are registered. *)
Definition observing_ex : DeathObserver.t RefSig.t :=
  DeathObserver.mk false (<[10 := observed 10]> (<[11 := observed 11]> ∅)) []
    (RefSig.mk (observer_world kids_ex) {[17]} [] {[3 := 1%N]}).
Definition chld_trap_ex : SignalTrap.t := SignalTrap.mk SignalTrap.process SignalTrap.not_running 3 ∅ {[17]}.
Definition release_sig (c : ChildProcess.t) (w : RefSig.t) : RefSig.t := w.

Lemma observing_ex_dead : ∃ p st, children (DeathObserver.world observing_ex) !! p = Some (Some st) ∧
  same_group (DeathObserver.world observing_ex) p = true ∧ is_Some (DeathObserver.registered observing_ex !! p).
Proof. exists 10, 0. split_and!; [vm_compute; reflexivity..|by_decision]. Qed.


Lemma subscriber_throws_witness :
  ∃ s', DeathObserver.on_sig_child (λ _, throw (Foreign 7)) release_sig 3 observing_ex = (Throw (Foreign 7), s') ∧
    DeathObserver.registered s' = DeathObserver.registered observing_ex.
Proof.
  destruct (subscriber_throws (LP := RefSig.proc_sig_laws) release_sig (Foreign 7) 3 observing_ex eq_refl
    ltac:(vm_compute; lia) observing_ex_dead) as (p & c & s' & H1 & _ & _ & _ & H2 & _).
  exists s'. split; [exact H1|exact H2].
Defined.

Lemma subscriber_reenters_witness :
  (DeathObserver.on_sig_child (λ _, b ← DeathObserver.has (observed 11); mret tt) release_sig 3 observing_ex).1 = Undefined.
Proof.
  refine (proj1 (subscriber_reenters (LP := RefSig.proc_sig_laws) release_sig (observed 11) 3 observing_ex eq_refl
    _ _ observing_ex_dead)); vm_compute; [lia|discriminate].
Defined.
