(* ===== verification/ObserverInterface.v ===== *)
(** * The interface ChildProcess::DeathObserver

    [include/core/posix/child_process.h]: the abstract class clients work with.
    [DeathObserverI] is the class (the emissions of [child_died] are a list),
    [DeathObserverDoc] what its documentation says about each function.  A client that
    adds children and reaps them is verified against the documentation alone, and the
    implementation of [DeathObserver] is shown to keep it. *)

From S2P Require Import Prelude.
From S2P Require Import Types.
From S2P Require Import CppString.
From S2P Require Import Kernel.
From S2P Require Import RefKernel.
From S2P Require Import Extend.
From S2P Require Import Pipe.
From S2P Require Import Process.
From S2P Require Import ChildProcess.
From S2P Require Import SignalTrap.
From S2P Require Import DeathObserver.
From S2P Require Import Observing.

Class DeathObserverI (S : Type) : Type := {
  obs_add : ChildProcess.t → M S bool;
  obs_has : ChildProcess.t → M S bool;
  obs_on_sig_child : M S unit;
  died : S → list ChildProcess.t }.

(** What has not changed for the worse: nobody comes back to life, no emission is undone. *)
Definition carries_on {S} (dead : S → Z → Prop) (log : S → list ChildProcess.t) (s s' : S) : Prop :=
  (∀ p, dead s p → dead s' p) ∧ log s `prefix_of` log s'.

Class DeathObserverDoc (S : Type) {OI : DeathObserverI S} : Type := {
  ready : S → Prop;
  observes : S → gset Z;
  dead : S → Z → Prop;
  (* "true iff the specified child is observed for state changes" *)
  has_spec c s : ready s → obs_has c s = (Ok (bool_decide (ChildProcess.pid c ∈ observes s)), s);
  (* "true iff the child has been added to the list of observed child processes" *)
  add_spec c s : ready s → 0 < ChildProcess.pid c →
    ∃ b s', obs_add c s = (Ok b, s') ∧ ready s' ∧ carries_on dead died s s' ∧
      observes s' = (if (b : bool) then {[ChildProcess.pid c]} ∪ observes s else observes s) ∧
      (b = true → ChildProcess.pid c ∉ observes s) ∧
      (ChildProcess.pid c ∈ observes s' ∨ (dead s' (ChildProcess.pid c) ∧ c ∈ died s'));
  (* "Checks and reaps all child processes registered with the observer instance." and
     "child_died is emitted whenever an observed child ceases to exist" *)
  on_sig_child_spec s : ready s →
    ∃ s', obs_on_sig_child s = (Ok tt, s') ∧ ready s' ∧ carries_on dead died s s' ∧
      observes s' ⊆ observes s ∧
      (∀ p, p ∈ observes s → dead s p → p ∉ observes s') ∧
      (∀ p, p ∈ observes s → p ∉ observes s' →
         ∃ c, ChildProcess.pid c = p ∧ c ∈ died s' ∧ dead s' p) }.

(** ** A client *)

Section client.
Context {S : Type} {OI : DeathObserverI S} {OD : DeathObserverDoc S}.
Implicit Types (s : S) (cs : list ChildProcess.t).

#[export] Instance carries_on_preorder : PreOrder (carries_on (S := S) dead died).
Proof.
  split; [by intros s|]. intros s1 s2 s3 [H1 P1] [H2 P2]. split; [auto|by etrans].
Qed.

(** Adds all the children. *)
Fixpoint watch_all cs : M S unit :=
  match cs with
  | [] => mret tt
  | c :: cs => b ← obs_add c; watch_all cs
  end.

(** A child is accounted for when it is observed, or it is dead and was announced. *)
Definition accounted s (p : Z) : Prop :=
  p ∈ observes s ∨ ∃ c, ChildProcess.pid c = p ∧ c ∈ died s ∧ dead s p.

Lemma accounted_carried s s' p :
  carries_on dead died s s' → (p ∈ observes s → accounted s' p) → accounted s p → accounted s' p.
Proof.
  intros [Hd Hl] Ho [H|(c & Hp & Hc & Hdead)]; [by apply Ho|]. right. exists c. split_and!; [done| |by apply Hd].
  destruct Hl as [l ->]. apply elem_of_app. by left.
Qed.

Lemma watch_all_accounts cs s :
  ready s → Forall (λ c, 0 < ChildProcess.pid c) cs →
  ∃ s', watch_all cs s = (Ok tt, s') ∧ ready s' ∧ carries_on dead died s s' ∧
    (∀ p, accounted s p → accounted s' p) ∧ ∀ c, c ∈ cs → accounted s' (ChildProcess.pid c).
Proof.
  revert s. induction cs as [|c cs IH]; intros s Hs Hpos.
  { exists s. split_and!; [done..|]. intros c Hc. by apply elem_of_nil in Hc. }
  apply Forall_cons in Hpos as [Hc Hpos].
  destruct (add_spec c s Hs Hc) as (b & s1 & Ha & Hs1 & Hcar & Hobs & _ & Hacc).
  destruct (IH s1 Hs1 Hpos) as (s' & Hw & Hs' & Hcar' & Hkeep & Hall).
  assert (∀ p, accounted s p → accounted s1 p) as Hkeep1.
  { intros p. apply accounted_carried; [done|]. intros Hp. left. rewrite Hobs. destruct b; set_solver. }
  exists s'. split_and!; [|done|by etrans|auto|].
  - cbn [watch_all]. unfold mbind, M_bind. by rewrite Ha.
  - intros c' [->|Hin]%elem_of_cons; [|auto]. apply Hkeep.
    destruct Hacc as [|[? ?]]; [by left|right; by exists c].
Qed.

(** A client of the interface that adds children, some of which may be dead, observed
    already or given twice, and then has them reaped: every one of them is observed
    afterwards, or it is dead and was announced; and those that were dead before the
    reaping are not observed any more. *)
Theorem supervised cs s :
  ready s → Forall (λ c, 0 < ChildProcess.pid c) cs →
  ∃ s1 s', watch_all cs s = (Ok tt, s1) ∧ obs_on_sig_child s1 = (Ok tt, s') ∧ ready s' ∧
    died s `prefix_of` died s' ∧
    (∀ c, c ∈ cs → accounted s' (ChildProcess.pid c)) ∧
    (∀ c, c ∈ cs → dead s1 (ChildProcess.pid c) →
       ∃ c', ChildProcess.pid c' = ChildProcess.pid c ∧ c' ∈ died s').
Proof.
  intros Hs Hpos. destruct (watch_all_accounts cs s Hs Hpos) as (s1 & Hw & Hs1 & Hcar1 & _ & Hall).
  destruct (on_sig_child_spec s1 Hs1) as (s' & Hr & Hs' & Hcar & Hsub & Hdead & Hgone).
  assert (∀ p, accounted s1 p → accounted s' p) as Hkeep.
  { intros p. apply accounted_carried; [done|]. intros Hp.
    destruct (decide (p ∈ observes s')); [by left|right; by apply Hgone]. }
  exists s1, s'. split_and!; [done..| |auto|].
  - etrans; [apply Hcar1|apply Hcar].
  - intros c Hc Hd. destruct (Hall c Hc) as [Ho|(c' & Hp & Hc' & _)].
    + destruct (Hgone _ Ho (Hdead _ Ho Hd)) as (c' & Hp & Hc' & _). by exists c'.
    + exists c'. split; [done|]. destruct Hcar as [_ [l ->]]. apply elem_of_app. by left.
Qed.
End client.

(** ** The implementation *)

Section implementation.
Context {W : Type} {E : Errno W} {I : Pid W} {P : ProcKernel W} {LP : ProcLaws W}.
Context (release : ChildProcess.t → W → W) (Hrel : release_ok release) (fuel : nat).
Implicit Types (s : DeathObserver.t W).

Definition impl_on_sig_child : M (DeathObserver.t W) unit :=
  b ← DeathObserver.on_sig_child subscribers release fuel; if (b : bool) then mret tt else undefined.

Definition observer_impl : DeathObserverI (DeathObserver.t W) := {|
  obs_add := DeathObserver.add subscribers;
  obs_has := DeathObserver.has;
  obs_on_sig_child := impl_on_sig_child;
  died := DeathObserver.log |}.

(** All children are in the process group of the observer: the others are never reaped. *)
Definition own_group (w : W) : Prop := ∀ p, is_Some (children w !! p) → same_group w p = true.

Lemma own_group_mono (w w' : W) :
  (∀ p, same_group w' p = same_group w p) → dom (children w') ⊆ dom (children w) →
  own_group w → own_group w'.
Proof.
  unfold own_group. intros Hs Hd H p Hp. rewrite Hs. apply H. apply elem_of_dom, Hd, elem_of_dom, Hp.
Qed.

(** The registry holds each child under its pid, and only children nobody else has waited
    for, of the own process group. *)
Definition impl_ready s : Prop :=
  (attentive fuel s ∧ own_group (DeathObserver.world s)) ∧ map_Forall (λ p c, ChildProcess.pid c = p) (DeathObserver.registered s) ∧
  dom (DeathObserver.registered s) ⊆ dom (children (DeathObserver.world s)).
Definition impl_observes s : gset Z := dom (DeathObserver.registered s).
Definition impl_dead s (p : Z) : Prop := children (DeathObserver.world s) !! p ≠ Some None.

Lemma impl_has_spec c s :
  impl_ready s → DeathObserver.has c s = (Ok (bool_decide (ChildProcess.pid c ∈ impl_observes s)), s).
Proof.
  intros (((Hg & _) & _) & _ & _). destruct s as [g m l w]; simpl in *; subst g. unfold impl_observes. simpl.
  cbv [DeathObserver.has DeathObserver.guarded finally mbind M_bind gets mret M_ret]. simpl.
  do 2 f_equal. apply bool_decide_ext. by rewrite elem_of_dom.
Qed.

Lemma impl_add_spec c s :
  impl_ready s → 0 < ChildProcess.pid c →
  ∃ b s', DeathObserver.add subscribers c s = (Ok b, s') ∧ impl_ready s' ∧
    carries_on impl_dead DeathObserver.log s s' ∧
    impl_observes s' = (if (b : bool) then {[ChildProcess.pid c]} ∪ impl_observes s else impl_observes s) ∧
    (b = true → ChildProcess.pid c ∉ impl_observes s) ∧
    (ChildProcess.pid c ∈ impl_observes s' ∨ (impl_dead s' (ChildProcess.pid c) ∧ c ∈ DeathObserver.log s')).
Proof.
  intros (((Hg & Hf) & Hown) & Hkey & Hreg) Hp. unfold impl_observes, impl_dead, carries_on.
  destruct (DeathObserver.registered s !! ChildProcess.pid c) as [c'|] eqn:Er.
  { exists false, s. rewrite (add_again c s c') by (done || lia). split_and!; try done.
    left. by eapply elem_of_dom_2. }
  destruct (add_cases c s Hg Hp Er) as (b & s' & v & Ha & Hg' & Hgr & Hpi & [Hdom Hz] & Hch & Hx).
  exists b, s'. rewrite Ha, Hch.
  assert (∀ p, children (DeathObserver.world s) !! p ≠ Some None → v !! p ≠ Some None) as Hd.
  { intros p Hn Hv. destruct (children (DeathObserver.world s) !! p) as [[st|]|] eqn:Es; [|done|].
    - apply Hz in Es. congruence.
    - apply not_elem_of_dom in Es. rewrite Hdom in Es. by apply Es, (elem_of_dom_2 _ _ _ Hv). }
  assert (dom (children (DeathObserver.world s')) ⊆ dom (children (DeathObserver.world s))) as Hsub.
  { rewrite Hch, Hdom. destruct b; [done|]. rewrite dom_delete_L. set_solver. }
  assert (attentive fuel s' ∧ own_group (DeathObserver.world s')) as Hatt.
  { split; [|apply (own_group_mono (DeathObserver.world s)); [intros p; by apply same_group_ext|done..]].
    split; [done|]. rewrite <- !(size_dom (D := gset Z)) in *. apply subseteq_size in Hsub. lia. }
  destruct b; destruct Hx as (Hv & Hl & Hr); rewrite Hl, Hr.
  - rewrite dom_insert_L.
    split_and!; [done|split; [exact Hatt|split]|done|done|done|by intros _; apply not_elem_of_dom|left; set_solver].
    + rewrite Hr. apply map_Forall_insert_2; done.
    + rewrite Hr, Hch, dom_insert_L, <- Hdom. apply elem_of_dom_2 in Hv. rewrite <- Hdom in Hv. set_solver.
  - split_and!; [done|split; [exact Hatt|split; [by rewrite Hr|]]| |by exists [c]|done|done|right; split].
    + rewrite Hr, Hch, dom_delete_L, <- Hdom. apply not_elem_of_dom in Er. set_solver.
    + intros p Hn [_ ?]%lookup_delete_Some. by eapply Hd.
    + rewrite lookup_delete_eq. done.
    + apply elem_of_app. right. by left.
Qed.

Lemma impl_on_sig_child_spec s :
  impl_ready s →
  ∃ s', impl_on_sig_child s = (Ok tt, s') ∧ impl_ready s' ∧ carries_on impl_dead DeathObserver.log s s' ∧
    impl_observes s' ⊆ impl_observes s ∧
    (∀ p, p ∈ impl_observes s → impl_dead s p → p ∉ impl_observes s') ∧
    (∀ p, p ∈ impl_observes s → p ∉ impl_observes s' →
       ∃ c, ChildProcess.pid c = p ∧ c ∈ DeathObserver.log s' ∧ impl_dead s' p).
Proof.
  intros (((Hg & Hf) & Hown) & Hkey & Hreg). unfold impl_observes, impl_dead, carries_on.
  destruct (on_sig_child_reaps release fuel s Hrel Hg Hf) as (dd & s' & Hrun & Hr).
  pose proof (reaped_size release Hrel _ _ _ Hr) as Hsz. destruct Hr as (Hg' & _ & _ & Hlog & Hregs & Hdom & Hz & Hnz & Hsame).
  assert (∀ p, p ∈ dom (DeathObserver.registered s') ↔ p ∈ dom (DeathObserver.registered s) ∧ p ∉ dd) as Hobs.
  { intros p. rewrite !elem_of_dom, Hregs. case_decide; [|tauto]. rewrite is_Some_alt. tauto. }
  assert (∀ p, children (DeathObserver.world s) !! p ≠ Some None → children (DeathObserver.world s') !! p = None) as Hgone.
  { intros p Hn. apply not_elem_of_dom. rewrite Hdom, elem_of_difference, elem_of_list_to_set, elem_of_dom.
    intros [[[st|] Hs] Hnd]; [|done]. apply Hnd, (Hz p st); [done|]. apply Hown. by eexists. }
  exists s'. split_and!.
  - unfold impl_on_sig_child, mbind, M_bind. by rewrite Hrun.
  - split; [split; [split; [done|lia]|]|split].
    + apply (own_group_mono (DeathObserver.world s)); [done|rewrite Hdom; set_solver|done].
    + intros p c. rewrite Hregs. case_decide; [done|apply Hkey].
    + intros p [Hp Hnd]%Hobs. rewrite Hdom. apply elem_of_difference. rewrite elem_of_list_to_set. auto.
  - intros p Hn. by rewrite (Hgone p Hn).
  - rewrite Hlog. by eexists.
  - intros p [Hp _]%Hobs. done.
  - intros p Hp Hn. rewrite Hobs. intros [_ Hnd]. apply Hreg in Hp. apply elem_of_dom in Hp as [[st|] Hs]; [|done].
    apply Hnd, (Hz p st); [done|]. apply Hown. by eexists.
  - intros p Hp Hn. assert (p ∈ dd) as Hdd by (apply dec_stable; intros ?; by apply Hn, Hobs).
    apply elem_of_dom in Hp as [c Hc]. exists c. split_and!; [by apply Hkey| |].
    + rewrite Hlog. apply elem_of_app. right. apply list_elem_of_omap. by exists p.
    + assert (p ∉ dom (children (DeathObserver.world s'))) as Hno; [|apply not_elem_of_dom in Hno; congruence].
      rewrite Hdom, elem_of_difference, elem_of_list_to_set. tauto.
Qed.

Definition observer_impl_doc : DeathObserverDoc (DeathObserver.t W) (OI := observer_impl) := {|
  ready := impl_ready; observes := impl_observes; dead := impl_dead;
  has_spec := impl_has_spec : ∀ c s, impl_ready s → obs_has (DeathObserverI := observer_impl) c s = _;
  add_spec := impl_add_spec; on_sig_child_spec := impl_on_sig_child_spec |}.
End implementation.

(** ** Witness *)

(** Child 10 has exited, child 11 is alive; neither was added before. *)
Definition unobserved_ex : DeathObserver.t Ref.t := DeathObserver.mk false ∅ [] (observer_world kids_ex).

Lemma release_ex_ok : release_ok release_ex.
Proof. by intros c w. Qed.

Lemma supervised_witness :
  ∃ s1 s', watch_all (OI := observer_impl release_ex 3) [observed 11; observed 10] unobserved_ex = (Ok tt, s1) ∧
    impl_on_sig_child release_ex 3 s1 = (Ok tt, s') ∧ [] `prefix_of` DeathObserver.log s'.
Proof.
  destruct (supervised (OD := observer_impl_doc (LP := Ref.proc_laws) release_ex release_ex_ok 3)
    [observed 11; observed 10] unobserved_ex) as (s1 & s' & H1 & H2 & _ & H3 & _ & _).
  - split; [|split; [apply map_Forall_empty|set_solver]].
    split; [split; [reflexivity|vm_compute; lia]|].
    intros p Hp. assert (p ∈ ({[10; 11]} : gset Z)) as Hin by (by apply elem_of_dom in Hp).
    assert (p = 10 ∨ p = 11) as [->| ->] by (clear -Hin; set_solver); vm_compute; reflexivity.
  - repeat constructor.
  - exists s1, s'. split_and!; [exact H1|exact H2|exact H3].
Defined.
