(* ===== verification/DeathProtocol.v ===== *)
(** * The death observer under concurrency

    Three parties act on the observer of [DeathObserver]: client threads that fork
    children and [add] them, the kernel, which lets children die and raises SIGCHLD,
    and the thread of the signal trap, which runs [on_sig_child].  [add] and the
    bookkeeping of one reaped child hold the mutex and are single steps; the
    waitpid of the loop is made without the mutex, so a client can get in between
    the reaping of a child and its bookkeeping.  Clients may add a child again, and
    children may leave the process group of the observer.  The steps are the operations of
    [DeathObserver]; the theorem says that no interleaving announces a child that is
    alive, announces one more often than it was added, or loses a death in the own group. *)

From S2P Require Import Prelude.
From S2P Require Import Types.
From S2P Require Import CppString.
From S2P Require Import Kernel.
From S2P Require Import RefKernel.
From S2P Require Import Pipe.
From S2P Require Import Process.
From S2P Require Import ChildProcess.
From S2P Require Import SignalTrap.
From S2P Require Import DeathObserver.

(** Where the thread of the trap is: waiting for a signal, about to call waitpid, or
    holding a pid it has reaped. *)
Inductive handler : Type := Idle | Polling | Holding (pid status : Z).

(** How often [p] occurs in [l]. *)
Abbreviation times p l := (count_occ Z.eq_dec l p).

Section protocol.
Context {W : Type} {E : Errno W} {I : Pid W} {P : ProcKernel W} {LP : ProcLaws W}.
Context (release : ChildProcess.t → W → W) (Hrel : release_ok release).

(** A configuration; [used] are the pids of all children so far, [asked] those that were
    passed to [add], once per call. *)
Record config : Type := mkConfig {
  obs : DeathObserver.t W;
  sigchld : bool;
  trap : handler;
  used : gset Z;
  asked : list Z }.

Abbreviation kids c := (children (DeathObserver.world (obs c))).

(** No child dies without the signal becoming pending. *)
Definition signalled (v v' : gmap Z (option Z)) (sig sig' : bool) : Prop :=
  sig' = true ∨ (sig' = sig ∧ ∀ p st, v' !! p = Some (Some st) → v !! p = Some (Some st)).

Definition set_world (w : W) (s : DeathObserver.t W) : DeathObserver.t W :=
  DeathObserver.mk (DeathObserver.guard s) (DeathObserver.registered s) (DeathObserver.log s) w.

(** Processes may move between process groups, but a child that is dead stays where it was. *)
Definition keeps_groups (w w' : W) : Prop :=
  ∀ p st, children w !! p = Some (Some st) → same_group w' p = same_group w p.

(** A client forks: a child with a pid that was not used before, in whatever group. *)
Inductive fork_step : config → config → Prop :=
| step_spawn s sig h u a p w' :
    0 < p → p ∉ u →
    children w' = <[p := None]> (children (DeathObserver.world s)) → keeps_groups (DeathObserver.world s) w' →
    fork_step (mkConfig s sig h u a) (mkConfig (set_world w' s) sig h (u ∪ {[p]}) a).

(** Children die, or go to another process group; a client adds a child of this process, which
    it, or another client, may have added before. *)
Inductive client_step : config → config → Prop :=
| step_die s sig sig' h u a w' :
    evolves (children (DeathObserver.world s)) (children w') → keeps_groups (DeathObserver.world s) w' →
    signalled (children (DeathObserver.world s)) (children w') sig sig' →
    client_step (mkConfig s sig h u a) (mkConfig (set_world w' s) sig' h u a)
| step_add s sig sig' h u a c b s' :
    ChildProcess.pid c ∈ u →
    DeathObserver.add subscribers c s = (Ok b, s') →
    signalled (children (DeathObserver.world s)) (children (DeathObserver.world s')) sig sig' →
    client_step (mkConfig s sig h u a) (mkConfig s' sig' h u (a ++ [ChildProcess.pid c])).

(** The thread of the trap: it reads SIGCHLD and calls on_sig_child, whose iterations
    are the call of waitpid and the bookkeeping for a reaped child. *)
Inductive trap_step : config → config → Prop :=
| step_wake s u a :
    trap_step (mkConfig s true Idle u a) (mkConfig s false Polling u a)
| step_poll s sig sig' u a v w' h' :
    DeathObserver.poll_child (DeathObserver.world s) = (Ok v, w') →
    signalled (children (DeathObserver.world s)) (children w') sig sig' →
    h' = match v with
         | DeathObserver.Break => Idle
         | DeathObserver.Continue => Polling
         | DeathObserver.Reaped p st => Holding p st
         end →
    trap_step (mkConfig s sig Polling u a) (mkConfig (set_world w' s) sig' h' u a)
| step_handle s sig u a p st s' :
    DeathObserver.handle subscribers release p st s = (Ok tt, s') →
    trap_step (mkConfig s sig (Holding p st) u a) (mkConfig s' sig Polling u a).

Definition step (c c' : config) : Prop := fork_step c c' ∨ client_step c c' ∨ trap_step c c'.

(** What is dead is in another process group than the observer, out of reach of waitpid(0). *)
Definition strays (w : W) : Prop := ∀ p st, children w !! p = Some (Some st) → same_group w p = false.

(** The start: nothing registered, and children that died before raise the signal. *)
Definition initial (c : config) : Prop :=
  DeathObserver.guard (obs c) = false ∧ DeathObserver.registered (obs c) = ∅ ∧
  DeathObserver.log (obs c) = [] ∧ trap c = Idle ∧ asked c = [] ∧ used c = dom (kids c) ∧
  (sigchld c = true ∨ strays (DeathObserver.world (obs c))).

Definition announced (c : config) : list Z := ChildProcess.pid <$> DeathObserver.log (obs c).

(** The invariant. *)
Record inv (c : config) : Prop := mkInv {
  inv_lock : DeathObserver.guard (obs c) = false;
  inv_used : dom (kids c) ⊆ used c;
  inv_asked : ∀ p, p ∈ asked c → p ∈ used c;
  inv_pos : ∀ p, p ∈ used c → 0 < p;
  inv_key : ∀ p ch, DeathObserver.registered (obs c) !! p = Some ch → ChildProcess.pid ch = p;
  inv_count : ∀ p, (times p (announced c) +
    (if decide (p ∈ dom (DeathObserver.registered (obs c))) then 1 else 0) ≤ times p (asked c))%nat;
  inv_dead : ∀ p, p ∈ announced c → (p ∉ dom (DeathObserver.registered (obs c))) ∧ kids c !! p = None;
  inv_all : ∀ p, p ∈ asked c → p ∈ announced c ∨ p ∈ dom (DeathObserver.registered (obs c));
  inv_live : ∀ p, p ∈ dom (DeathObserver.registered (obs c)) →
    is_Some (kids c !! p) ∨ ∃ st, trap c = Holding p st;
  inv_sig : sigchld c = true ∨ trap c ≠ Idle ∨ strays (DeathObserver.world (obs c));
  inv_hold : ∀ p st, trap c = Holding p st → kids c !! p = None ∧ Wait.terminal st = true ∧ p ∈ used c }.

Lemma times_pos (p : Z) l : (0 < times p l)%nat ↔ p ∈ l.
Proof. rewrite list_elem_of_In. split; intros H; by apply (count_occ_In Z.eq_dec). Qed.

Lemma times_snoc (p q : Z) l : times p (l ++ [q]) = (times p l + if decide (q = p) then 1 else 0)%nat.
Proof. rewrite count_occ_app. simpl. by destruct (Z.eq_dec q p), (decide (q = p)). Qed.

(** Every announcement answers a call of [add]. *)
Lemma inv_answered c p : inv c → p ∈ announced c ∨ p ∈ dom (DeathObserver.registered (obs c)) → p ∈ asked c.
Proof.
  intros Hinv Hp. apply times_pos. pose proof (inv_count _ Hinv p) as Hc.
  destruct Hp as [Hp%times_pos|Hp]; [lia|]. rewrite decide_True in Hc by done. lia.
Qed.

Lemma inv_initial c : initial c → inv c.
Proof.
  intros (Hg & Hr & Hl & Ht & Ha & Hu & Hs).
  assert (announced c = []) as Hn by (unfold announced; by rewrite Hl).
  split; rewrite ?Hn, ?Hr, ?Ht, ?Ha, ?Hu; try set_solver.
  - intros p Hp. eapply child_pid_law. by apply elem_of_dom.
Qed.

Lemma evolves_none v v' p : evolves v v' → v !! p = None → v' !! p = None.
Proof. intros [Hd _] Hp. apply not_elem_of_dom. rewrite <- Hd. by apply not_elem_of_dom. Qed.

Lemma evolves_some v v' p : evolves v v' → is_Some (v !! p) → is_Some (v' !! p).
Proof. intros [Hd _] Hp. apply elem_of_dom. rewrite <- Hd. by apply elem_of_dom. Qed.

Lemma keeps_groups_eq w w' : groups w' = groups w → getpid w' = getpid w → keeps_groups w w'.
Proof. intros Hg Hp p st _. by apply same_group_ext. Qed.

Lemma sig_mono (h : handler) (w w' : W) sig sig' :
  (sig = true ∨ h ≠ Idle ∨ strays w) → signalled (children w) (children w') sig sig' → keeps_groups w w' →
  sig' = true ∨ h ≠ Idle ∨ strays w'.
Proof.
  intros Hs [->|[-> Hz]] Hk; [by left|]. destruct Hs as [|[|Hno]]; [by left|by right; left|right; right].
  intros p st Hp%Hz. rewrite (Hk p st Hp). by eapply Hno.
Qed.

(** The kernel alone: children come, move and die. *)
Lemma inv_world c w' sig' u' :
  inv c → keeps_groups (DeathObserver.world (obs c)) w' →
  dom (children w') ⊆ u' → used c ⊆ u' → (∀ p, p ∈ u' → 0 < p) →
  (∀ p, p ∈ used c → kids c !! p = None → children w' !! p = None) →
  (∀ p, is_Some (kids c !! p) → is_Some (children w' !! p)) →
  signalled (kids c) (children w') (sigchld c) sig' →
  inv (mkConfig (set_world w' (obs c)) sig' (trap c) u' (asked c)).
Proof.
  intros Hinv Hgrp Hdom Hu Hpos Hnone Hsome Hsig. pose proof (inv_answered c) as Hans. destruct Hinv eqn:Ei.
  split; simpl; [done|done|by auto|done|done|done| |done|..].
  - intros p Hp. destruct (inv_dead0 p Hp) as (H2 & H3). split; [done|]. apply Hnone; [|done].
    apply inv_asked0, Hans; auto.
  - intros p Hp. destruct (inv_live0 p Hp) as [|]; [left; auto|by right].
  - by eapply sig_mono.
  - intros p st Hp. destruct (inv_hold0 p st Hp) as (H1 & H2 & H3). split_and!; [by apply Hnone|done|auto].
Qed.

Lemma inv_spawn s sig h u a p w' :
  0 < p → p ∉ u → children w' = <[p := None]> (children (DeathObserver.world s)) →
  keeps_groups (DeathObserver.world s) w' →
  inv (mkConfig s sig h u a) → inv (mkConfig (set_world w' s) sig h (u ∪ {[p]}) a).
Proof.
  intros Hp Hnew Hch Hgrp Hinv. pose proof (inv_used _ Hinv) as Hused. pose proof (inv_pos _ Hinv) as Hpos.
  simpl in *. apply (inv_world (mkConfig s sig h u a)); simpl; rewrite ?Hch; try done.
  - rewrite dom_insert_L. clear -Hused. set_solver.
  - clear. set_solver.
  - intros q [Hq|Hq]%elem_of_union; [by apply Hpos|by apply elem_of_singleton in Hq as ->].
  - intros q Hq Hn. rewrite lookup_insert_ne; [done|]. by intros ->.
  - intros q Hq. rewrite lookup_insert. case_decide; [by eexists|done].
  - right. split; [done|]. intros q st. rewrite lookup_insert. by case_decide.
Qed.

Lemma inv_evolve c w' sig' v :
  inv c → evolves (kids c) v → children w' = v → keeps_groups (DeathObserver.world (obs c)) w' →
  signalled (kids c) v (sigchld c) sig' →
  inv (mkConfig (set_world w' (obs c)) sig' (trap c) (used c) (asked c)).
Proof.
  intros Hinv Hev Hch Hgrp Hsig. apply inv_world; rewrite ?Hch; try done; try apply Hinv.
  - destruct Hev as [<- _]. apply Hinv.
  - intros p _. by apply evolves_none.
  - intros p. by apply evolves_some.
Qed.

(** A child is announced and leaves the registry, if it was there. *)
Lemma inv_announce c ch s' sig' h' a' :
  inv c → ChildProcess.pid ch ∈ used c →
  DeathObserver.guard s' = false →
  DeathObserver.log s' = DeathObserver.log (obs c) ++ [ch] →
  DeathObserver.registered s' = delete (ChildProcess.pid ch) (DeathObserver.registered (obs c)) →
  (∀ q, q ∈ a' → q ∈ asked c ∨ q = ChildProcess.pid ch) →
  (∀ q, times q (asked c) ≤ times q a')%nat →
  (times (ChildProcess.pid ch) (announced c) < times (ChildProcess.pid ch) a')%nat →
  children (DeathObserver.world s') !! ChildProcess.pid ch = None →
  (∀ q, kids c !! q = None → children (DeathObserver.world s') !! q = None) →
  (∀ q, q ≠ ChildProcess.pid ch → is_Some (kids c !! q) → is_Some (children (DeathObserver.world s') !! q)) →
  (sig' = true ∨ h' ≠ Idle ∨ strays (DeathObserver.world s')) →
  (∀ q st, trap c = Holding q st → q = ChildProcess.pid ch ∨ h' = Holding q st) →
  (∀ q st, h' = Holding q st → trap c = Holding q st) →
  inv (mkConfig s' sig' h' (used c) a').
Proof.
  intros [] Hu Hg Hlog Hreg Ha' Hmore Hroom Hgone Hnone Hsome Hsig Hh1 Hh2. set (p := ChildProcess.pid ch) in *.
  assert (dom (children (DeathObserver.world s')) ⊆ dom (kids c)) as Hsub.
  { intros q Hq. apply elem_of_dom in Hq. destruct (kids c !! q) eqn:Eq; [by eapply elem_of_dom_2|].
    apply Hnone in Eq. rewrite Eq in Hq. by destruct Hq. }
  assert (announced (mkConfig s' sig' h' (used c) a') = announced c ++ [p]) as Hann.
  { unfold announced. simpl. by rewrite Hlog, fmap_app. }
  split; rewrite ?Hann; simpl; rewrite ?Hreg, ?dom_delete_L; [done|by etrans| |done|..].
  - intros q [Hq| ->]%Ha'; auto.
  - intros q ch' [_ Hq]%lookup_delete_Some. by apply inv_key0.
  - intros q. rewrite times_snoc. specialize (inv_count0 q). specialize (Hmore q).
    destruct (decide (p = q)) as [->|Hne].
    + rewrite decide_False by (intros [_ []]%elem_of_difference; by apply elem_of_singleton). lia.
    + destruct (decide (q ∈ dom _ ∖ _)) as [[Hin _]%elem_of_difference|]; [rewrite decide_True in inv_count0 by done|]; lia.
  - intros q [Hq|Hq%list_elem_of_singleton]%elem_of_app.
    + destruct (inv_dead0 q Hq) as (H2 & H3). split; [by intros [? _]%elem_of_difference|by apply Hnone].
    + subst q. split; [intros [_ H]%elem_of_difference; set_solver|done].
  - intros q [Hq| ->]%Ha'; [|left; apply elem_of_app; right; by apply list_elem_of_singleton].
    destruct (inv_all0 q Hq) as [Hin|Hin]; [left; apply elem_of_app; by left|].
    destruct (decide (q = p)) as [->|Hne]; [left; apply elem_of_app; right; by apply list_elem_of_singleton|].
    right. apply elem_of_difference. split; [done|]. by intros ->%elem_of_singleton.
  - intros q [Hq Hne]%elem_of_difference. rewrite elem_of_singleton in Hne.
    destruct (inv_live0 q Hq) as [|[st Hst]]; [left; auto|right].
    destruct (Hh1 q st Hst) as [|]; [done|by exists st].
  - done.
  - intros q st Hq. destruct (inv_hold0 q st (Hh2 _ _ Hq)) as (H1 & H2 & H3). split_and!; [by apply Hnone|done..].
Qed.

(** A living child enters the registry. *)
Lemma inv_register c ch s' sig' v :
  inv c → ChildProcess.pid ch ∈ used c → ChildProcess.pid ch ∉ dom (DeathObserver.registered (obs c)) →
  DeathObserver.guard s' = false → keeps_groups (DeathObserver.world (obs c)) (DeathObserver.world s') →
  DeathObserver.log s' = DeathObserver.log (obs c) →
  DeathObserver.registered s' = <[ChildProcess.pid ch := ch]> (DeathObserver.registered (obs c)) →
  evolves (kids c) v → children (DeathObserver.world s') = v → v !! ChildProcess.pid ch = Some None →
  signalled (kids c) v (sigchld c) sig' →
  inv (mkConfig s' sig' (trap c) (used c) (asked c ++ [ChildProcess.pid ch])).
Proof.
  intros [] Hu Ha Hg Hgrp Hlog Hreg Hev Hch Hv Hsig. set (p := ChildProcess.pid ch) in *.
  assert (announced (mkConfig s' sig' (trap c) (used c) (asked c ++ [p])) = announced c) as Hann.
  { unfold announced. simpl. by rewrite Hlog. }
  split; rewrite ?Hann; simpl; rewrite ?Hreg, ?dom_insert_L; [done| | |done|..].
  - rewrite Hch. destruct Hev as [<- _]. done.
  - intros q [Hq|Hq%list_elem_of_singleton]%elem_of_app; [auto|by subst].
  - intros q ch'. rewrite lookup_insert. case_decide; [by intros [= <-]|apply inv_key0].
  - intros q. rewrite times_snoc. specialize (inv_count0 q). destruct (decide (p = q)) as [<-|Hne].
    + rewrite decide_False in inv_count0 by done. destruct (decide _); lia.
    + destruct (decide (q ∈ _ ∪ _)) as [[Hin%elem_of_singleton|Hin]%elem_of_union|];
        [congruence|rewrite decide_True in inv_count0 by done|]; lia.
  - intros q Hq. destruct (inv_dead0 q Hq) as (H2 & H3). rewrite Hch. split; [|by eapply evolves_none].
    intros [->%elem_of_singleton|]%elem_of_union; [|done].
    apply (evolves_none _ _ _ Hev) in H3. congruence.
  - intros q [Hq|Hq%list_elem_of_singleton]%elem_of_app; [destruct (inv_all0 q Hq); [by left|]|];
      right; apply elem_of_union; [by right|left; by apply elem_of_singleton].
  - intros q [->%elem_of_singleton|Hq]%elem_of_union; rewrite Hch; [left; rewrite Hv; by eexists|].
    destruct (inv_live0 q Hq) as [|]; [left; by eapply evolves_some|by right].
  - eapply sig_mono; [done| |done]. by rewrite Hch.
  - intros q st Hq. destruct (inv_hold0 q st Hq) as (H1 & H2 & H3). rewrite Hch.
    split_and!; [by eapply evolves_none|done..].
Qed.

(** [add] of a child that is registered already. *)
Lemma inv_added_again s sig sig' h u a p :
  p ∈ dom (DeathObserver.registered s) → p ∈ u →
  signalled (children (DeathObserver.world s)) (children (DeathObserver.world s)) sig sig' →
  inv (mkConfig s sig h u a) → inv (mkConfig s sig' h u (a ++ [p])).
Proof.
  intros Hp Hu Hsig []; unfold announced in *; simpl in *. split; unfold announced; simpl; try done.
  - intros q [Hq|Hq%list_elem_of_singleton]%elem_of_app; [auto|by subst].
  - intros q. rewrite times_snoc. specialize (inv_count0 q). lia.
  - intros q [Hq|Hq%list_elem_of_singleton]%elem_of_app; [auto|by subst; right].
  - eapply sig_mono; [done..|]. by intros q st _.
Qed.

Lemma inv_add s sig sig' h u a ch b s' :
  ChildProcess.pid ch ∈ u →
  DeathObserver.add subscribers ch s = (Ok b, s') →
  signalled (children (DeathObserver.world s)) (children (DeathObserver.world s')) sig sig' →
  inv (mkConfig s sig h u a) → inv (mkConfig s' sig' h u (a ++ [ChildProcess.pid ch])).
Proof.
  intros Hu Hadd Hsig Hinv. pose proof (inv_pos _ Hinv _ Hu) as Hpos.
  destruct (DeathObserver.registered s !! ChildProcess.pid ch) as [ch'|] eqn:Er.
  { rewrite (add_again ch s ch') in Hadd by (done || lia || apply Hinv). injection Hadd as <- <-.
    apply (inv_added_again _ sig); [by eapply elem_of_dom_2|done..]. }
  destruct (add_cases ch s (inv_lock _ Hinv) Hpos Er)
    as (b' & s1 & v & Hadd' & Hg & Hgr & Hpi & Hev & Hch & Hx).
  rewrite Hadd in Hadd'. injection Hadd' as <- <-. apply not_elem_of_dom in Er as Hnew.
  pose proof (keeps_groups_eq _ _ Hgr Hpi) as Hgrp.
  destruct b; destruct Hx as (Hp & Hlog & Hreg).
  - rewrite Hch in Hsig. by apply (inv_register (mkConfig s sig h u a) ch s' sig' v).
  - apply (inv_announce (mkConfig s sig h u a) ch); simpl; try done.
    + rewrite Hreg. symmetry. by apply delete_id.
    + intros q [Hq|Hq%list_elem_of_singleton]%elem_of_app; auto.
    + intros q. rewrite times_snoc. lia.
    + pose proof (inv_count _ Hinv (ChildProcess.pid ch)) as Hc. simpl in Hc.
      rewrite times_snoc, decide_True by done. lia.
    + rewrite Hch. apply lookup_delete_eq.
    + intros q Hq. rewrite Hch. apply lookup_delete_None. right. by eapply evolves_none.
    + intros q Hne Hq. rewrite Hch, lookup_delete_ne by done. by eapply evolves_some.
    + eapply sig_mono; [apply (inv_sig _ Hinv)|done..].
    + by right.
Qed.

Lemma inv_poll s sig sig' u a v w' h' :
  DeathObserver.poll_child (DeathObserver.world s) = (Ok v, w') →
  signalled (children (DeathObserver.world s)) (children w') sig sig' →
  h' = match v with
       | DeathObserver.Break => Idle
       | DeathObserver.Continue => Polling
       | DeathObserver.Reaped p st => Holding p st
       end →
  inv (mkConfig s sig Polling u a) → inv (mkConfig (set_world w' s) sig' h' u a).
Proof.
  intros Hpoll Hsig -> Hinv.
  apply poll_child_spec in Hpoll as (Hgr & Hpi & k & Hev & Hcase).
  pose proof Hinv as []; unfold announced in *; simpl in *. pose proof Hev as [Hdom _].
  destruct Hcase as [([= ->] & Hch & Hno)|(p & st & [= ->] & Hpos & Hp & _ & Hch & Ht)];
    split; unfold announced; simpl; try done; rewrite ?Hch; try done.
  - by rewrite <- Hdom.
  - intros q Hq. destruct (inv_dead0 q Hq) as (H2 & H3). split; [done|by eapply evolves_none].
  - intros q Hq. destruct (inv_live0 q Hq) as [|[? ?]]; [left; by eapply evolves_some|done].
  - right. right. intros q st. rewrite Hch. intros Hq%Hno. by rewrite (same_group_ext (DeathObserver.world s)).
  - rewrite dom_delete_L, <- Hdom. intros q [Hq _]%elem_of_difference. auto.
  - intros q Hq. destruct (inv_dead0 q Hq) as (H2 & H3). split; [done|].
    apply lookup_delete_None. right. by eapply evolves_none.
  - intros q Hq. destruct (decide (q = p)) as [->|Hne]; [right; by exists st|left].
    destruct (inv_live0 q Hq) as [|[? ?]]; [|done]. rewrite lookup_delete_ne by done. by eapply evolves_some.
  - right. by left.
  - intros q st' [= <- <-]. split_and!; [apply lookup_delete_eq|done|].
    apply inv_used0. rewrite Hdom. by eapply elem_of_dom_2.
Qed.

Lemma inv_handle s sig u a p st s' :
  DeathObserver.handle subscribers release p st s = (Ok tt, s') →
  inv (mkConfig s sig (Holding p st) u a) → inv (mkConfig s' sig Polling u a).
Proof.
  intros Hh Hinv. destruct (inv_hold _ Hinv p st eq_refl) as (Hgone & Ht & Hu). simpl in Hgone, Hu.
  pose proof (inv_lock _ Hinv) as Hlock. simpl in Hlock.
  rewrite handle_eq in Hh by done. injection Hh as <-.
  destruct (DeathObserver.registered s !! p) as [ch|] eqn:Er.
  - pose proof (inv_key _ Hinv p ch Er) as Hkey. destruct (Hrel ch (DeathObserver.world s)) as (R1 & R2 & R3).
    pose proof (elem_of_dom_2 _ _ _ Er) as Hdom.
    apply (inv_announce (mkConfig s sig (Holding p st) u a) ch); simpl; rewrite ?Hkey, ?R1; try done.
    + by left.
    + pose proof (inv_count _ Hinv p) as Hc. simpl in Hc. rewrite decide_True in Hc by done. lia.
    + by right; left.
    + intros q st' [= -> ->]. by left.
  - destruct Hinv; unfold announced in *; simpl in *. split; unfold announced; simpl; try done.
    + intros q Hq. destruct (inv_live0 q Hq) as [|[st' [= <- <-]]]; [by left|].
      apply elem_of_dom in Hq. rewrite Er in Hq. by destruct Hq.
    + right. by left.
Qed.

Lemma inv_client c c' : client_step c c' → inv c → inv c'.
Proof.
  destruct 1 as [s sig sig' h u a w' Hev Hgrp Hsig|]; [|by eapply inv_add].
  intros Hinv. by apply (inv_evolve (mkConfig s sig h u a) w' sig' (children w') Hinv Hev eq_refl).
Qed.

Lemma inv_trap c c' : trap_step c c' → inv c → inv c'.
Proof.
  destruct 1 as [s u a| |]; [|by eapply inv_poll|by eapply inv_handle].
  intros []; unfold announced in *; simpl in *. split; unfold announced; simpl; try done.
  - intros q Hq. destruct (inv_live0 q Hq) as [|[? ?]]; [by left|done].
  - right. by left.
Qed.

Lemma inv_step c c' : step c c' → inv c → inv c'.
Proof.
  intros [[]|[|]]; [by apply inv_spawn|by apply inv_client|by apply inv_trap].
Qed.

Lemma inv_reachable c c' : initial c → rtc step c c' → inv c'.
Proof. intros Hi%inv_initial Hr. induction Hr; eauto using inv_step. Qed.

(** C1: whatever the interleaving of clients that fork and add children (also repeatedly),
    children that die or move to other process groups, and the reaping thread, as long as the
    kernel does not give a pid of an earlier child to a new one: no child is announced more often than it was added, so a child that was added once is announced at most
    once (adding it again after its announcement announces it again); a child that was announced
    had been added, is dead and reaped, and has left the registry; and whenever no SIGCHLD is
    pending and the reaping thread is idle, every child ever added has been announced, or it is
    still registered and alive, or it is still registered and died in another process group than
    the observer's, where waitpid(0) does not find it. *)
Theorem deaths_announced_exactly_once c c' :
  initial c → rtc step c c' →
  (∀ p, times p (announced c') ≤ times p (asked c'))%nat ∧
  (NoDup (asked c') → NoDup (announced c')) ∧
  (∀ p, p ∈ announced c' → p ∈ asked c' ∧ kids c' !! p = None ∧
     DeathObserver.registered (obs c') !! p = None) ∧
  (sigchld c' = false → trap c' = Idle →
   ∀ p, p ∈ asked c' → p ∈ announced c' ∨
     (is_Some (DeathObserver.registered (obs c') !! p) ∧
      (kids c' !! p = Some None ∨
       ∃ st, kids c' !! p = Some (Some st) ∧ same_group (DeathObserver.world (obs c')) p = false))).
Proof.
  intros Hi Hr. pose proof (inv_reachable c c' Hi Hr) as Hinv. pose proof (inv_answered c') as Hans.
  assert (∀ p, times p (announced c') ≤ times p (asked c'))%nat as Hcount.
  { intros p. pose proof (inv_count _ Hinv p). lia. }
  destruct (Hinv). split_and!; [done| | |].
  - intros Hd%NoDup_ListNoDup. apply NoDup_ListNoDup, (NoDup_count_occ Z.eq_dec). intros p.
    rewrite (NoDup_count_occ Z.eq_dec) in Hd. specialize (Hd p). specialize (Hcount p). lia.
  - intros p Hp. destruct (inv_dead0 p Hp) as (H2 & H3). split_and!; [by auto|done|by apply not_elem_of_dom].
  - intros Hsig Hidle p Hp. destruct (inv_all0 p Hp) as [|Hin]; [by left|right].
    split; [by apply elem_of_dom|]. destruct inv_sig0 as [|[|Hno]]; [congruence|done|].
    destruct (inv_live0 p Hin) as [[[st|] Hs]|[st Hst]]; [right; exists st; split; [done|by eapply Hno]|by left|congruence].
Qed.
End protocol.

(** ** Witness *)

(** Child 10 is forked and dies; the trap reaps it; only then the client adds it, before
    the trap gets the lock: [add] announces it.  The client adds it once more, and it is
    announced again. *)
Definition cfg_ex (kids : gmap Z (option Z)) (log : list ChildProcess.t) (sig : bool) (h : handler)
    (u : gset Z) (a : list Z) : config :=
  mkConfig (DeathObserver.mk false ∅ log (observer_world kids)) sig h u a.

Lemma initial_ex : initial (cfg_ex ∅ [] false Idle ∅ []).
Proof. split_and!; try reflexivity. right. intros p st Hp. by vm_compute in Hp. Qed.

Lemma race_trace_ex : ∃ c', rtc (step release_ex) (cfg_ex ∅ [] false Idle ∅ []) c' ∧
  announced c' = [10; 10] ∧ asked c' = [10; 10] ∧ trap c' = Idle.
Proof.
  assert (∃ w1, DeathObserver.poll_child (observer_world (<[10 := Some 0]> ∅)) =
    (Ok (DeathObserver.Reaped 10 0), w1)) as [w1 Hw1] by (eexists; vm_compute; reflexivity).
  assert (∃ s2, DeathObserver.add subscribers (observed 10) (DeathObserver.mk false ∅ [] w1) = (Ok false, s2))
    as [s2 Hs2] by (vm_compute in Hw1; injection Hw1 as <-; eexists; vm_compute; reflexivity).
  assert (DeathObserver.handle subscribers release_ex 10 0 s2 = (Ok tt, s2)) as Hh2.
  { vm_compute in Hw1. injection Hw1 as <-. vm_compute in Hs2. injection Hs2 as <-. vm_compute. reflexivity. }
  assert (∃ s3, DeathObserver.add subscribers (observed 10) s2 = (Ok false, s3) ∧
    DeathObserver.log s3 = [observed 10; observed 10]) as (s3 & Hs3 & Hl3).
  { vm_compute in Hw1. injection Hw1 as <-. vm_compute in Hs2. injection Hs2 as <-.
    eexists. split; [vm_compute; reflexivity|vm_compute; reflexivity]. }
  assert (∃ w3, DeathObserver.poll_child (DeathObserver.world s3) = (Ok DeathObserver.Break, w3)) as [w3 Hw3].
  { vm_compute in Hw1. injection Hw1 as <-. vm_compute in Hs2. injection Hs2 as <-.
    vm_compute in Hs3. injection Hs3 as <-. eexists. vm_compute. reflexivity. }
  eexists. split.
  - eapply rtc_l; [left; apply (step_spawn _ _ _ _ _ 10 (observer_world (<[10 := None]> ∅)));
      [lia|set_solver|vm_compute; reflexivity|by apply keeps_groups_eq]|].
    eapply rtc_l; [right; left; apply (step_die _ _ true _ _ _ (observer_world (<[10 := Some 0]> ∅)));
      [|by apply keeps_groups_eq|by left]|].
    { split; [by_decision|]. intros p st Hp. exfalso. revert Hp. simpl.
      change (Ref.kids_view (observer_world (<[10 := None]> ∅))) with (<[10 := None]> (∅ : gmap Z (option Z))).
      rewrite lookup_insert. by case_decide. }
    eapply rtc_l; [right; right; apply (step_wake release_ex)|].
    eapply rtc_l; [right; right; apply (step_poll release_ex (DeathObserver.mk false ∅ [] (observer_world (<[10 := Some 0]> ∅)))
      false true _ _ _ _ (Holding 10 0) Hw1); [by left|reflexivity]|].
    eapply rtc_l; [right; left; apply (step_add _ _ true _ _ _ (observed 10) false s2); [set_solver|exact Hs2|by left]|].
    eapply rtc_l; [right; right; apply (step_handle release_ex _ _ _ _ _ _ _ Hh2)|].
    eapply rtc_l; [right; left; apply (step_add _ _ true _ _ _ (observed 10) false s3); [set_solver|exact Hs3|by left]|].
    apply rtc_once. right; right. apply (step_poll release_ex s3 true true _ _ _ _ Idle Hw3); [by left|reflexivity].
  - split; [|split; reflexivity]. unfold announced. simpl. by rewrite Hl3.
Qed.

Lemma deaths_announced_exactly_once_witness :
  ∃ c' : config (W := Ref.t), announced c' = [10; 10] ∧ asked c' = [10; 10] ∧
    (times 10%Z (announced c') ≤ times 10%Z (asked c'))%nat ∧ 10 ∈ asked c' ∧
    children (DeathObserver.world (obs c')) !! 10 = None.
Proof.
  destruct race_trace_ex as (c' & Hr & Ha & Hk & _).
  destruct (deaths_announced_exactly_once (LP := Ref.proc_laws) release_ex ltac:(done)
    (cfg_ex ∅ [] false Idle ∅ []) c' initial_ex Hr) as (H1 & _ & H2 & _).
  exists c'. destruct (H2 10) as (H3 & H4 & _); [rewrite Ha; by left|]. split_and!; [done|done|apply H1|done|done].
Defined.
