(* ===== verification/DeathSpec.v ===== *)
(** * What the death observer promises

    The abstract service behind [ChildProcess::DeathObserver]: children are born and
    die, clients ask to be told of the death of a child (as often as they like), and the
    service announces deaths, each request at most once and only of children that are watched
    and dead.  It knows nothing
    of registries, locks, waitpid or SIGCHLD.  [death_service_refined] maps every
    interleaving of [DeathProtocol] to an execution of the service with the same
    announcements; [death_is_announced] says that the announcement does come. *)

From S2P Require Import Prelude.
From S2P Require Import Types.
From S2P Require Import CppString.
From S2P Require Import Kernel.
From S2P Require Import RefKernel.
From S2P Require Import Progress.
From S2P Require Import Pipe.
From S2P Require Import Process.
From S2P Require Import ChildProcess.
From S2P Require Import SignalTrap.
From S2P Require Import DeathObserver.
From S2P Require Import DeathProtocol.

Module Service.

(** All children there have been, those that are alive, those that are watched, and the
    announcements made so far. *)
Record t : Type := mk {
  born : gset Z; alive : gset Z; watched : gset Z; announced : list Z }.

Inductive step : t → t → Prop :=
| birth s p :
    0 < p → p ∉ born s →
    step s (mk (born s ∪ {[p]}) (alive s ∪ {[p]}) (watched s) (announced s))
| deaths s l :
    l ⊆ alive s → step s (mk (born s) l (watched s) (announced s))
| watch s p :
    p ∈ born s → p ∉ watched s →
    step s (mk (born s) (alive s) (watched s ∪ {[p]}) (announced s))
| announce s p :
    p ∈ watched s → p ∉ alive s →
    step s (mk (born s) (alive s) (watched s ∖ {[p]}) (announced s ++ [p])).

End Service.

(** The children that have not died. *)
Definition living (v : gmap Z (option Z)) : gset Z := dom (filter (λ x, x.2 = None) v).

Lemma elem_of_living v p : p ∈ living v ↔ v !! p = Some None.
Proof.
  unfold living. rewrite elem_of_dom. split.
  - intros [o H]. apply map_lookup_filter_Some in H as [H Ho]. by simpl in Ho; subst.
  - intros H. exists None. by apply map_lookup_filter_Some.
Qed.

Lemma living_evolves v v' : evolves v v' → living v' ⊆ living v.
Proof.
  intros [Hd Hk] p. rewrite !elem_of_living. intros Hp.
  destruct (v !! p) as [[st|]|] eqn:E; [|done|].
  - apply Hk in E. congruence.
  - apply not_elem_of_dom in E. rewrite Hd in E. by apply not_elem_of_dom in E; congruence.
Qed.

Lemma living_delete v p : v !! p ≠ Some None → living (delete p v) = living v.
Proof.
  intros Hp. apply set_eq. intros q. rewrite !elem_of_living, lookup_delete_Some. naive_solver.
Qed.

Section service.
Context {W : Type} {E : Errno W} {I : Pid W} {P : ProcKernel W} {LP : ProcLaws W}.
Context (release : ChildProcess.t → W → W) (Hrel : release_ok release).
Implicit Types (c : config (W := W)).

(** The service state an implementation state stands for. *)
Definition abstract c : Service.t :=
  Service.mk (used c) (living (children (DeathObserver.world (obs c))))
    (dom (DeathObserver.registered (obs c))) (announced c).

Lemma sim_deaths (u l l' a : gset Z) n :
  l' ⊆ l → rtc Service.step (Service.mk u l a n) (Service.mk u l' a n).
Proof. intros H. apply rtc_once. by apply (Service.deaths (Service.mk u l a n) l'). Qed.

Lemma sim_fork c c' : inv c → fork_step c c' → rtc Service.step (abstract c) (abstract c').
Proof.
  intros Hinv. destruct 1 as [s sig h u a p w' Hp Hu Hch _]. apply rtc_once. unfold abstract; simpl.
  assert (living (children w') = living (children (DeathObserver.world s)) ∪ {[p]}) as ->.
  { apply set_eq. intros q. rewrite elem_of_union, elem_of_singleton, !elem_of_living, Hch, lookup_insert.
    case_decide; naive_solver. }
  by apply (Service.birth (Service.mk u _ _ _)).
Qed.

Lemma sim_client c c' : inv c → client_step c c' → rtc Service.step (abstract c) (abstract c').
Proof.
  intros Hinv. destruct 1 as [s sig sig' h u a w' Hev _ _|s sig sig' h u a ch b s' Hu Hadd _].
  - by apply sim_deaths, living_evolves.
  - pose proof (inv_pos _ Hinv _ Hu) as Hpos. simpl in Hpos.
    destruct (DeathObserver.registered s !! ChildProcess.pid ch) as [ch'|] eqn:Er.
    { rewrite (add_again ch s ch') in Hadd by (done || lia || apply (inv_lock _ Hinv)). by injection Hadd as <- <-. }
    destruct (add_cases ch s (inv_lock _ Hinv) Hpos Er) as (b' & s1 & v & Hadd' & _ & _ & _ & Hev & Hch & Hx).
    apply not_elem_of_dom in Er as Hnew.
    rewrite Hadd in Hadd'. injection Hadd' as <- <-. unfold abstract, announced; simpl.
    etrans; [apply (sim_deaths _ _ (living v)); by apply living_evolves|].
    etrans; [apply rtc_once, (Service.watch (Service.mk u _ _ _)); [done|exact Hnew]|].
    destruct b; destruct Hx as (Hv & -> & ->).
    + rewrite Hch, dom_insert_L, union_comm_L. done.
    + rewrite Hch, living_delete by done. apply rtc_once. simpl.
      replace (dom (DeathObserver.registered s)) with
        ((dom (DeathObserver.registered s) ∪ {[ChildProcess.pid ch]}) ∖ {[ChildProcess.pid ch]}) at 2
        by (clear -Hnew; set_solver).
      rewrite fmap_app. apply (Service.announce (Service.mk u _ _ _)); simpl; [set_solver|].
      by rewrite elem_of_living.
Qed.

Lemma sim_trap c c' : inv c → trap_step release c c' → rtc Service.step (abstract c) (abstract c').
Proof.
  intros Hinv. destruct 1 as [s u a|s sig sig' u a v w' h' Hpoll _ _|s sig u a p st s' Hh].
  - done.
  - apply poll_child_spec in Hpoll as (_ & _ & k & Hev & Hcase).
    assert (living (children w') = living k) as Hl.
    { destruct Hcase as [(_ & -> & _)|(p & st & _ & _ & Hp & _ & -> & _)]; [done|].
      apply living_delete. by rewrite Hp. }
    unfold abstract, announced; simpl. rewrite Hl. by apply sim_deaths, living_evolves.
  - destruct (inv_hold _ Hinv p st eq_refl) as (Hgone & Ht & _). simpl in Hgone.
    rewrite (handle_eq release) in Hh by (done || apply Hinv). injection Hh as <-.
    destruct (DeathObserver.registered s !! p) as [ch|] eqn:Er; [|done].
    pose proof (inv_key _ Hinv p ch Er) as Hkey. destruct (Hrel ch (DeathObserver.world s)) as (R1 & _ & _).
    unfold abstract, announced; simpl. rewrite R1, fmap_app, dom_delete_L. simpl. rewrite Hkey.
    apply rtc_once, (Service.announce (Service.mk u _ _ _)); simpl; [by eapply elem_of_dom_2|].
    by rewrite elem_of_living, Hgone.
Qed.

(** C6: every interleaving of forking and (repeatedly) adding clients, children that die or
    change their process group, and the reaping thread is, seen from outside, an execution of
    the abstract service that starts with nothing watched and makes the same announcements in
    the same order. *)
Theorem death_service_refined c c' :
  initial c → rtc (step release) c c' →
  Service.watched (abstract c) = ∅ ∧ Service.announced (abstract c) = [] ∧
  rtc Service.step (abstract c) (abstract c').
Proof.
  intros Hi Hr. split_and!.
  - destruct Hi as (_ & Hreg & _). simpl. by rewrite Hreg.
  - destruct Hi as (_ & _ & Hl & _). simpl. unfold announced. by rewrite Hl.
  - apply (inv_initial release Hrel) in Hi. induction Hr as [|c1 c2 c3 Hs Hr IH]; [done|].
    etrans; [|apply IH; by eapply (inv_step release)].
    destruct Hs as [Hs|[Hs|Hs]]; [by apply sim_fork|by apply sim_client|by apply sim_trap].
Qed.

(** ** The announcement comes *)

(** Steps the thread still needs: two per child, and the way to the next waitpid. *)
Definition rank c : nat :=
  2 * size (children (DeathObserver.world (obs c))) +
  match trap c with Idle => 3 | Polling => 2 | Holding _ _ => 3 end.

(** A child that was added and has died, in the process group of the observer if it was not
    reaped yet. *)
Definition overdue (p : Z) c : Prop :=
  inv c ∧ p ∈ asked c ∧ children (DeathObserver.world (obs c)) !! p ≠ Some None ∧
  ∀ st, children (DeathObserver.world (obs c)) !! p = Some (Some st) →
    same_group (DeathObserver.world (obs c)) p = true.

(** Nobody brings a dead child back or moves it to another group. *)
Lemma overdue_world p (w w' : W) v :
  evolves (children w) v → (∀ q st, children w' !! q = Some st → v !! q = Some st) → keeps_groups w w' →
  children w !! p ≠ Some None → (∀ st, children w !! p = Some (Some st) → same_group w p = true) →
  children w' !! p ≠ Some None ∧ ∀ st, children w' !! p = Some (Some st) → same_group w' p = true.
Proof.
  intros Hev Hsub Hk Hd Hg. split.
  - intros Hp%Hsub. apply Hd, elem_of_living, (living_evolves _ _ Hev), elem_of_living, Hp.
  - intros st Hp%Hsub. destruct (children w !! p) as [[st'|]|] eqn:Ep; [|done|].
    + rewrite (Hk p st' Ep). by apply (Hg st').
    + apply (evolves_none _ _ _ Hev) in Ep. congruence.
Qed.

Lemma overdue_where p c :
  overdue p c → p ∉ announced c →
  p ∈ dom (DeathObserver.registered (obs c)) ∧
  ((∃ st, children (DeathObserver.world (obs c)) !! p = Some (Some st) ∧
      same_group (DeathObserver.world (obs c)) p = true) ∨ ∃ st, trap c = Holding p st).
Proof.
  intros (Hinv & Ha & Hd & Hg) Hn. destruct (inv_all _ Hinv p Ha) as [|Hreg]; [done|]. split; [done|].
  destruct (inv_live _ Hinv p Hreg) as [[[st|] Hs]|?]; [left; exists st; eauto|done|by right].
Qed.

Lemma evolves_size v v' : evolves v v' → size v' = size v.
Proof. intros [Hd _]. rewrite <- !(size_dom (D := gset Z)). by rewrite Hd. Qed.

Lemma overdue_enabled p c :
  overdue p c → p ∉ announced c → (0 < rank c)%nat ∧ ∃ c', trap_step release c c'.
Proof.
  intros Ho Hn. destruct (overdue_where p c Ho Hn) as [_ Hw]. destruct Ho as (Hinv & _).
  split; [unfold rank; destruct (trap c); lia|].
  destruct c as [s sig h u a]. destruct h as [| |q st]; simpl in *.
  - destruct (inv_sig _ Hinv) as [Hs|[Hs|Hs]]; simpl in *; [subst; eexists; constructor|done|].
    destruct Hw as [(st & Hst & Hg)|[st ?]]; [|done]. apply Hs in Hst. congruence.
  - destruct (DeathObserver.poll_child (DeathObserver.world s)) as [r w'] eqn:Ep. pose proof Ep as Ep'.
    apply poll_child_spec in Ep' as (_ & _ & v & _ & Hcase).
    destruct Hcase as [(-> & _)|(q & st & -> & _)]; eexists;
      (eapply (step_poll release s sig true); [exact Ep|by left|reflexivity]).
  - eexists. apply step_handle. apply handle_eq; [apply (inv_lock _ Hinv)|].
    by destruct (inv_hold _ Hinv q st eq_refl) as (_ & ? & _).
Qed.

Lemma overdue_client p c c' :
  overdue p c → client_step c c' → p ∈ announced c' ∨ (overdue p c' ∧ (rank c' ≤ rank c)%nat).
Proof.
  intros (Hinv & Ha & Hd & Hg) Hs. pose proof (inv_client release Hrel _ _ Hs Hinv) as Hinv'. right.
  destruct Hs as [s sig sig' h u a w' Hev Hk _|s sig sig' h u a ch b s' Hu Hadd _];
    unfold rank; simpl in *.
  - rewrite (evolves_size _ _ Hev). split; [split_and!; [done|done|..]|lia];
      by eapply (overdue_world p (DeathObserver.world s)).
  - pose proof (inv_pos _ Hinv _ Hu) as Hpos.
    assert (p ∈ a ++ [ChildProcess.pid ch]) as Ha' by (apply elem_of_app; by left).
    destruct (DeathObserver.registered s !! ChildProcess.pid ch) as [ch'|] eqn:Er.
    { rewrite (add_again ch s ch') in Hadd by (done || lia || apply (inv_lock _ Hinv)). injection Hadd as <- <-.
      split; [by split_and!|lia]. }
    destruct (add_cases ch s (inv_lock _ Hinv) Hpos Er) as (b' & s1 & v & Hadd' & _ & Hgr & Hpi & Hev & Hch & _).
    rewrite Hadd in Hadd'. injection Hadd' as <- <-.
    destruct (overdue_world p (DeathObserver.world s) (DeathObserver.world s') v Hev) as [H1 H2];
      [|by apply keeps_groups_eq|done|done|].
    { intros q st. rewrite Hch. destruct b; [done|]. by intros [_ ?]%lookup_delete_Some. }
    split; [by split_and!|].
    rewrite Hch, <- (evolves_size _ _ Hev). destruct b; [lia|].
    pose proof (map_size_delete (M := gmap Z) (ChildProcess.pid ch) v).
    destruct (v !! ChildProcess.pid ch); unfold id in *; lia.
Qed.

Lemma overdue_trap p c c' :
  overdue p c → p ∉ announced c → trap_step release c c' →
  p ∈ announced c' ∨ (overdue p c' ∧ (rank c' < rank c)%nat).
Proof.
  intros Ho Hn Hs. destruct (overdue_where p c Ho Hn) as [Hreg Hw]. destruct Ho as (Hinv & Ha & Hd & Hg).
  pose proof (inv_trap release Hrel _ _ Hs Hinv) as Hinv'. right.
  destruct Hs as [s u a|s sig sig' u a v w' h' Hpoll _ Hh'|s sig u a q st s' Hh]; unfold rank; simpl in *.
  - split; [done|lia].
  - apply poll_child_spec in Hpoll as (Hgr & Hpi & k & Hev & Hcase).
    rewrite <- (evolves_size _ _ Hev).
    destruct Hcase as [([= ->] & Hch & Hno)|(q & st & [= ->] & _ & Hq & _ & Hch & _)]; subst h'.
    + exfalso. destruct Hw as [(st & Hst & Hsame)|[st ?]]; [|done]. apply Hev, Hno in Hst. congruence.
    + rewrite Hch, map_size_delete_Some by (by eexists).
      assert (size k ≠ 0%nat) as Hnz.
      { intros Hz%map_size_empty_inv. subst k. by rewrite lookup_empty in Hq. }
      destruct (overdue_world p (DeathObserver.world s) w' k Hev) as [H1 H2];
        [|by apply keeps_groups_eq|done|done|split; [by split_and!|lia]].
      intros r st' Hr. rewrite Hch in Hr. by apply lookup_delete_Some in Hr as [_ ?].
  - destruct (inv_hold _ Hinv q st eq_refl) as (_ & Ht & _).
    apply handle_registered in Hh as (_ & _ & _ & Hch & Hgr & Hpi); [|apply Hinv|done..].
    rewrite Hch. split; [split_and!; [done|done|simpl; by rewrite Hch|]|lia].
    simpl. intros st'. rewrite Hch. intros Hp%Hg. by rewrite (same_group_ext (DeathObserver.world s)).
Qed.

(** C9: a child that was added and has died in the observer's process group (or was reaped
    already) is announced: while nobody forks, at most 2n + 3 steps of the trap's thread lead to
    the announcement (n children), however deaths, moves between process groups and further
    calls of [add], also for children added before, are interleaved with them, and the thread is
    never blocked before. *)
Theorem death_is_announced c c' p :
  initial c → rtc (step release) c c' →
  p ∈ asked c' → children (DeathObserver.world (obs c')) !! p ≠ Some None →
  (∀ st, children (DeathObserver.world (obs c')) !! p = Some (Some st) →
     same_group (DeathObserver.world (obs c')) p = true) →
  inevitable (trap_step release) client_step (λ c, p ∈ announced c)
    (2 * size (children (DeathObserver.world (obs c'))) + 3) c'.
Proof.
  intros Hi Hr Ha Hd Hg. pose proof (inv_reachable release Hrel c c' Hi Hr) as Hinv.
  eapply (inevitable_mono _ _ _ (rank c')).
  { unfold rank. destruct (trap c'); lia. }
  apply (inevitable_rank _ _ _ (overdue p)); [done|..].
  - intros d. apply overdue_enabled.
  - intros d d'. apply overdue_trap.
  - intros d d' Ho _. apply overdue_client, Ho.
Qed.
End service.

(** ** Witnesses *)

(** The race of [race_trace_ex]: child 10 is announced for each of the two requests. *)
Lemma death_service_refined_witness :
  ∃ s, rtc Service.step (Service.mk ∅ ∅ ∅ []) s ∧ Service.announced s = [10; 10].
Proof.
  destruct race_trace_ex as (c' & Hr & Ha & _).
  destruct (death_service_refined (LP := Ref.proc_laws) release_ex ltac:(done) _ c' initial_ex Hr) as (_ & _ & H).
  exists (abstract c'). split; [exact H|exact Ha].
Defined.

(** Child 10 is forked and added; then it dies. *)
Lemma dying_trace_ex : ∃ s', rtc (step release_ex) (cfg_ex ∅ [] false Idle ∅ [])
  (mkConfig (set_world (observer_world (<[10 := Some 0]> ∅)) s') true Idle (∅ ∪ {[10]}) [10]).
Proof.
  set (w1 := observer_world (<[10 := None]> ∅)).
  assert (∃ s', DeathObserver.add subscribers (observed 10) (DeathObserver.mk false ∅ [] w1) = (Ok true, s') ∧
    DeathObserver.world s' = w1) as (s' & Hs & Hw) by (eexists; vm_compute; split; reflexivity).
  exists s'.
  eapply rtc_l; [left; apply (step_spawn _ _ _ _ _ 10 w1);
    [lia|set_solver|vm_compute; reflexivity|by apply keeps_groups_eq]|].
  eapply rtc_l; [right; left; apply (step_add _ _ false _ _ _ (observed 10) true s');
    [set_solver|exact Hs|right; split; [done|by rewrite Hw]]|].
  apply rtc_once. right; left. apply step_die; rewrite ?Hw; [|by apply keeps_groups_eq|by left].
  split; [by_decision|]. intros p st Hp. exfalso. revert Hp. simpl.
  change (Ref.kids_view w1) with (<[10 := None]> (∅ : gmap Z (option Z))). rewrite lookup_insert. by case_decide.
Qed.

Lemma death_is_announced_witness :
  ∃ c : config (W := Ref.t), 10 ∈ asked c ∧
    inevitable (trap_step release_ex) client_step (λ c, 10 ∈ announced c) 5 c.
Proof.
  destruct dying_trace_ex as (s' & Hr). eexists. split; [|
    refine (death_is_announced (LP := Ref.proc_laws) release_ex _ _ _ 10 initial_ex Hr _ _ _)].
  - set_solver.
  - done.
  - set_solver.
  - vm_compute. discriminate.
  - intros st _. vm_compute. reflexivity.
Defined.
