(* ===== verification/ForkAndRun.v ===== *)
(** * core::testing::fork_and_run and the TESTP macros

    [src/core/testing/fork_and_run.cpp] and [include/core/testing/fork_and_run.h]:
    two children, a service and a client; the client is waited for, the service
    is sent SIGTERM and waited for, and the result has a bit for each that failed.
    The two process objects are locals: leaving the function, normally or by an
    exception, destroys them. *)

From S2P Require Import Prelude.
From S2P Require Import Types.
From S2P Require Import CppString.
From S2P Require Import Kernel.
From S2P Require Import RefKernel.
From S2P Require Import Pipe.
From S2P Require Import Backtrace.
From S2P Require Import Process.
From S2P Require Import ChildProcess.
From S2P Require Import Fork.
From S2P Require Import ForkProps.

Module ForkAndRun.

Section operations.
Context {W : Type} {E : Errno W} {I : Pid W} {K : FdKernel W} {F : ForkKernel W} {P : ProcKernel W}.
Context (what : exn → str) (cxa_demangle : str → option str * Z) (walk : W → Backtrace.walk).
Abbreviation ENV := (M (Pipe.env W)).

(** [auto p = core::posix::fork(main, flags);] as the parent sees it. *)
Definition fork_parent (main : ENV Exit.Status) (flags : StandardStream.t) : ENV ChildProcess.t :=
  λ e, Fork.parent (Fork.fork what cxa_demangle walk main flags e).

(** The rest of a scope that owns the process object [c]. *)
Definition scoped {A} (c : ChildProcess.t) (m : ENV A) : ENV A :=
  finally m (Pipe.on_world (ChildProcess.dtor c)).

(** [switch (r.status) { case exited: if (... == failure) result |= flag; break; default: ... }] *)
Definition judge (r : Wait.Result) (flag result : ForkAndRunResult.t) : ForkAndRunResult.t :=
  match Wait.status r with
  | Wait.s_exited =>
      if bool_decide (Wait.detail r = Some (Wait.if_exited Exit.failure)) then
        ForkAndRunResult.lor result flag
      else result
  | _ => ForkAndRunResult.lor result flag
  end.

Definition fork_and_run (service client : ENV Exit.Status) : ENV ForkAndRunResult.t :=
  let result := ForkAndRunResult.empty in
  service_process ← fork_parent service StandardStream.empty;
  scoped service_process (
    client_process ← fork_parent client StandardStream.empty;
    scoped client_process (
      client_result ← Pipe.lift (ChildProcess.wait_for client_process Wait.untraced);
      let result := judge client_result ForkAndRunResult.client_failed result in
      Pipe.lift (Signalable.send_signal_or_throw
        (Process.base (ChildProcess.base service_process)) Signal.sig_term) ;;
      service_result ← Pipe.lift (ChildProcess.wait_for service_process Wait.untraced);
      mret (judge service_result ForkAndRunResult.service_failed result))).

(** The lambda of the macros: [CODE return HasFailure() ? failure : success;] *)
Definition test (code : ENV unit) (has_failure : Pipe.env W → bool) : ENV Exit.Status :=
  code ;; failed ← gets has_failure;
  mret (if (failed : bool) then Exit.failure else Exit.success).

(** [TESTP] and [TESTP_F]: whether both expectations hold. *)
Definition TESTP (code : ENV unit) (has_failure : Pipe.env W → bool) : ENV bool :=
  child ← fork_parent (test code has_failure) StandardStream.empty;
  scoped child (
    result ← Pipe.lift (ChildProcess.wait_for child Wait.untraced);
    mret (bool_decide (Wait.status result = Wait.s_exited) &&
          bool_decide (Wait.detail result = Some (Wait.if_exited Exit.success)))).

End operations.
End ForkAndRun.

(** ** Properties *)

Section fork_and_run.
Context {W : Type} {E : Errno W} {I : Pid W} {K : FdKernel W} {F : ForkKernel W} {P : ProcKernel W}.
Context {LF : FdLaws W} {LK : ForkLaws W} {LP : ProcLaws W} {LX : FrameLaws W}.
Context (what : exn → str) (cxa_demangle : str → option str * Z) (walk : W → Backtrace.walk).
Implicit Types (e : Pipe.env W) (c : ChildProcess.t).

(** The statics are fine and the descriptor table is [T]. *)
Definition clean (T : gmap Z Ofd) (e : Pipe.env W) : Prop :=
  static_ok e ∧ fd_table (Pipe.world e) = T.

(** [ends T m Q]: [m], started with the table [T], ends with the table [T] on every path,
    and its result satisfies [Q]. *)
Definition ends_with {A} (m : M (Pipe.env W) A) (Q : A → Prop) : Prop := ∀ T e r e',
  clean T e → m e = (r, e') → clean T e' ∧
  match r with Ok a => Q a | Throw _ => True | Undefined => False end.

Lemma ends_bind {A B} (m : M (Pipe.env W) A) (f : A → M (Pipe.env W) B) Q R :
  ends_with m Q → (∀ a, Q a → ends_with (f a) R) → ends_with (m ≫= f) R.
Proof.
  intros Hm Hf T e r e' Hc. unfold mbind, M_bind. destruct (m e) as [[a|x|] e1] eqn:Em.
  - destruct (Hm _ _ _ _ Hc Em) as [Hc1 HQ]. by apply Hf.
  - intros [= <- <-]. by apply (Hm _ _ _ _ Hc Em).
  - intros [= <- <-]. by apply (Hm _ _ _ _ Hc Em).
Qed.

Lemma ends_ret {A} (a : A) (Q : A → Prop) : Q a → ends_with (mret a) Q.
Proof. by intros HQ T e r e' Hc [= <- <-]. Qed.

(** A scope that owns the object a [fork] returned. *)
Lemma ends_scoped {A} main flags (f : ChildProcess.t → M (Pipe.env W) A) Q :
  (∀ c, 0 < ChildProcess.pid c → ends_with (f c) Q) →
  ends_with (ForkAndRun.fork_parent what cxa_demangle walk main flags ≫=
    λ c, ForkAndRun.scoped c (f c)) Q.
Proof.
  intros Hf T e r e' [Hs Ht]. unfold mbind, M_bind, ForkAndRun.fork_parent.
  pose proof (fork_accounted what cxa_demangle walk main flags e Hs) as [Hs1 Hacc].
  destruct (Fork.parent _) as [[c|x|] e1]; simpl in *; [| |done].
  - destruct Hacc as [Ho Hp]. rewrite Ht in Ho. unfold ForkAndRun.scoped, finally.
    destruct (f c e1) as [r2 e2] eqn:Ef.
    destruct (Hf c Hp _ _ _ _ (conj Hs1 eq_refl) Ef) as [[Hs2 Ht2] Hr].
    destruct r2 as [a|x|]; [..|done]; intros [= <- <-];
      (split; [|done]); (split; [done|]); simpl; apply owns_nil, child_dtor_owns; rewrite app_nil_r, Ht2; done.
  - intros [= <- <-]. split; [|done]. split; [done|]. congruence.
Qed.

Lemma ends_wait_for c :
  0 < ChildProcess.pid c →
  ends_with (Pipe.lift (ChildProcess.wait_for c Wait.untraced))
    (λ r, ∃ ch, Wait.change_ok ch = true ∧ r = Wait.result_of ch).
Proof.
  intros Hp T [w i] r e' [Hs Ht]. unfold Pipe.lift, zoom. simpl in *.
  destruct (ChildProcess.wait_for c Wait.untraced w) as [r1 w1] eqn:Ew. intros [= <- <-].
  assert (fd_table w1 = fd_table w) as Hfd.
  { unfold ChildProcess.wait_for, call, mbind, M_bind, check_rc, throw_errno in Ew.
    destruct (sys_waitpid _ _ w) as [[rc st] w2] eqn:Ep. apply waitpid_frame in Ep as [Hf _].
    destruct (rc =? -1); [|destruct (rc =? 0)]; by injection Ew as _ <-. }
  split; [split; [done|simpl; congruence]|].
  apply wait_for_cases in Ew as [[x ->]|[[_ Hbit]|(ch & Hok & ->)]]; [done|done|eauto|done].
Qed.

Lemma ends_signal s sig : ends_with (Pipe.lift (Signalable.send_signal_or_throw s sig)) (λ _, True).
Proof.
  intros T [w i] r e' [Hs Ht]. unfold Pipe.lift, zoom. simpl in *.
  unfold Signalable.send_signal_or_throw, mbind, M_bind, call, check_rc, throw_errno.
  destruct (sys_kill _ _ w) as [rc w1] eqn:Ek. apply kill_frame in Ek as [Hf _].
  destruct (rc =? -1); intros [= <- <-]; split; try done; split; try done; simpl; congruence.
Qed.

(** What counts as a failure of a child. *)
Definition failed (ch : Wait.change) : bool :=
  match ch with Wait.Exited code => code =? 1 | _ => true end.

Lemma judge_spec ch flag result :
  ForkAndRun.judge (Wait.result_of ch) flag result =
    if failed ch then ForkAndRunResult.lor result flag else result.
Proof.
  destruct ch as [code| | |]; try done. unfold ForkAndRun.judge; simpl.
  case_bool_decide as H; [injection H as ->; done|].
  destruct (Z.eqb_spec code 1) as [->|]; [by destruct H|done].
Qed.

(** [fork_and_run] gives back every descriptor on every path, and when it returns, each
    bit of the result is set exactly if the waited-for child did not exit or exited with
    status 1: any other exit status counts as success. *)
Theorem fork_and_run_result service client e r e' :
  static_ok e →
  ForkAndRun.fork_and_run what cxa_demangle walk service client e = (r, e') →
  fd_table (Pipe.world e') = fd_table (Pipe.world e) ∧ static_ok e' ∧
  match r with
  | Ok result => ∃ cc sc, Wait.change_ok cc = true ∧ Wait.change_ok sc = true ∧
      ForkAndRunResult.reports result ForkAndRunResult.client_failed = failed cc ∧
      ForkAndRunResult.reports result ForkAndRunResult.service_failed = failed sc
  | Throw _ => True
  | Undefined => False
  end.
Proof.
  intros Hs Hr.
  assert (ends_with (ForkAndRun.fork_and_run what cxa_demangle walk service client) (λ result,
    ∃ cc sc, Wait.change_ok cc = true ∧ Wait.change_ok sc = true ∧
      ForkAndRunResult.reports result ForkAndRunResult.client_failed = failed cc ∧
      ForkAndRunResult.reports result ForkAndRunResult.service_failed = failed sc)) as Hend.
  { apply ends_scoped. intros sp Hsp. apply ends_scoped. intros cp Hcp.
    eapply ends_bind; [by apply ends_wait_for|]. intros cr (cc & Hcc & ->).
    eapply ends_bind; [apply ends_signal|]. intros _ _.
    eapply ends_bind; [by apply ends_wait_for|]. intros sr (sc & Hsc & ->).
    apply ends_ret. exists cc, sc. rewrite !judge_spec.
    destruct (failed cc), (failed sc); by split_and!. }
  destruct (Hend _ _ _ _ (conj Hs eq_refl) Hr) as [[H1 H2] H3]. by split_and!.
Qed.

(** A [TESTP] test passes exactly when its child exited with status 0, and the test
    leaves the descriptor table as it was. *)
Theorem testp_result code has_failure e r e' :
  static_ok e → ForkAndRun.TESTP what cxa_demangle walk code has_failure e = (r, e') →
  fd_table (Pipe.world e') = fd_table (Pipe.world e) ∧
  match r with
  | Ok passed => ∃ ch, Wait.change_ok ch = true ∧ passed = bool_decide (ch = Wait.Exited 0)
  | Throw _ => True
  | Undefined => False
  end.
Proof.
  intros Hs Hr.
  assert (ends_with (ForkAndRun.TESTP what cxa_demangle walk code has_failure) (λ passed,
    ∃ ch, Wait.change_ok ch = true ∧ passed = bool_decide (ch = Wait.Exited 0))) as Hend.
  { apply ends_scoped. intros c Hc. eapply ends_bind; [by apply ends_wait_for|]. intros cr (ch & Hch & ->).
    apply ends_ret. exists ch. split; [done|]. destruct ch; simpl; try done.
    unfold Exit.success. repeat case_bool_decide; try done; exfalso; congruence. }
  destruct (Hend _ _ _ _ (conj Hs eq_refl) Hr) as [[H1 H2] H3]. by split_and!.
Qed.
End fork_and_run.

(** ** Witnesses *)

(** Service 10 exits with 0 after the SIGTERM, client 11 exits with 1. *)
Definition run_ex : Pipe.env Ref.t :=
  Pipe.mkEnv (Ref.mk (list_to_map [(0, OtherFile 0); (1, OtherFile 1); (2, OtherFile 2)])
    0 64 1 5 10 (list_to_map [(1, 1); (5, 5)]) [] ∅ [[(10, 0); (11, 256)]] [] []) None.

Lemma fork_and_run_result_witness :
  ∃ e', ForkAndRun.fork_and_run what_ex demangle_ex walk_ex (mret 0) (mret 1) run_ex = (Ok 1, e') ∧
    fd_table (Pipe.world e') = fd_table (Pipe.world run_ex).
Proof.
  destruct (ForkAndRun.fork_and_run what_ex demangle_ex walk_ex (mret 0) (mret 1) run_ex) as [r e'] eqn:Er.
  destruct (fork_and_run_result (LF := Ref.fd_laws) (LK := Ref.fork_laws) (LP := Ref.proc_laws)
    (LX := Ref.frame_laws) what_ex demangle_ex walk_ex (mret 0) (mret 1) run_ex r e' I Er) as [H _].
  exists e'. split; [|exact H]. f_equal. apply (f_equal fst) in Er. vm_compute in Er. exact (eq_sym Er).
Defined.

Lemma testp_result_witness :
  ∃ e', ForkAndRun.TESTP what_ex demangle_ex walk_ex (mret tt) (λ _, false) run_ex = (Ok true, e') ∧
    fd_table (Pipe.world e') = fd_table (Pipe.world run_ex).
Proof.
  destruct (ForkAndRun.TESTP what_ex demangle_ex walk_ex (mret tt) (λ _, false) run_ex) as [r e'] eqn:Er.
  destruct (testp_result (LF := Ref.fd_laws) (LK := Ref.fork_laws) (LP := Ref.proc_laws)
    (LX := Ref.frame_laws) what_ex demangle_ex walk_ex (mret tt) (λ _, false) run_ex r e' I Er) as [H _].
  exists e'. split; [|exact H]. f_equal. apply (f_equal fst) in Er. vm_compute in Er. exact (eq_sym Er).
Defined.
