(* ===== verification/TestVerdict.v ===== *)
(** * What the verdicts of the test helpers mean

    [fork_and_run] and the [TESTP] macros ([src/core/testing/fork_and_run.cpp],
    [include/core/testing/fork_and_run.h]) judge code that ran in other processes by what
    [wait_for] reports about them.  Here the verdict is traced back, through the status word
    and the [exit] at the end of [fork]'s child side, to what the code did there: a test that
    passes has run to its end without a failure, and a bit of the result of [fork_and_run]
    that is clear means that the closure returned. *)

From S2P Require Import Prelude.
From S2P Require Import Types.
From S2P Require Import CppString.
From S2P Require Import Kernel.
From S2P Require Import RefKernel.
From S2P Require Import Pipe.
From S2P Require Import Backtrace.
From S2P Require Import Process.
From S2P Require Import ChildProcess.
From S2P Require Import Fork.
From S2P Require Import ForkProps.
From S2P Require Import Lifecycle.
From S2P Require Import ForkAndRun.

(** ** How children end *)

(** [fate w p]: the status word with which the child [p] ends or has ended (an observation
    of the whole run: the signals [p] is going to get have been taken into account). *)
Class Fates (W : Type) : Type := fate : W → Z → option Z.

(** wait(2) reports the end of a process the way it ended, and waiting for or signalling one
    process does not change how another one ends. *)
Class FateLaws (W : Type) {P : ProcKernel W} {Fa : Fates W} : Prop := {
  waitpid_fate pid opts w st w' :
    0 < pid → sys_waitpid pid opts w = ((pid, st), w') → Wait.terminal st = true → fate w pid = Some st;
  waitpid_fate_other pid opts w r w' q :
    0 < pid → sys_waitpid pid opts w = (r, w') → q ≠ pid → fate w' q = fate w q;
  kill_fate pid sig w rc w' q : sys_kill pid sig w = (rc, w') → fate w' q = fate w q }.

(** In [Ref] the deaths are scheduled. *)
#[export] Instance ref_fates : Fates Ref.t := λ w p,
  mjoin (foldl Ref.die (Ref.kids_view w) (concat (Ref.deaths w)) !! p).

Lemma ref_die_other v v' ds q :
  v !! q = v' !! q → foldl Ref.die v ds !! q = foldl Ref.die v' ds !! q.
Proof.
  revert v v'. induction ds as [|[p st] ds IH]; intros v v' Hq; simpl; [done|]. apply IH. unfold Ref.die; simpl.
  destruct (decide (p = q)) as [->|Hne].
  - rewrite <- Hq. destruct (v !! q) as [[?|]|] eqn:E; rewrite ?lookup_insert_eq, ?E; done.
  - destruct (v !! p) as [[?|]|], (v' !! p) as [[?|]|]; rewrite ?lookup_insert_ne by done; done.
Qed.

Lemma ref_batch_later opts w : concat (Ref.deaths w) = Ref.batch opts w ++ concat (Ref.later opts w).
Proof.
  unfold Ref.batch, Ref.later. destruct (Z.testbit opts 0); [|by rewrite app_nil_r].
  by destruct (Ref.deaths w).
Qed.

(** The fates after some children have died and one may have been reaped. *)
Lemma ref_fate_tick opts w v q :
  Ref.wf_view v → v !! q = Ref.tick opts w !! q → fate (Ref.set_kids v (Ref.later opts w) w) q = fate w q.
Proof.
  intros Hv Hq. unfold fate, ref_fates. rewrite Ref.kids_view_id by done. simpl.
  rewrite (ref_batch_later opts), foldl_app. fold (Ref.tick opts w). f_equal. by apply ref_die_other.
Qed.

Lemma ref_fate_err e w q : fate (Ref.set_err e w) q = fate w q.
Proof. done. Qed.

#[export] Instance ref_fate_laws : FateLaws Ref.t.
Proof.
  split; simpl.
  - intros pid opts w st w' Hp. unfold Ref.waitpid, Ref.fail. rewrite decide_True by done.
    destruct (Ref.tick opts w !! pid) as [[st'|]|] eqn:Et; [|destruct (Z.testbit opts 0)|]; intros [=]; [|lia..].
    intros _. subst st'. unfold fate, ref_fates. rewrite (ref_batch_later opts), foldl_app. fold (Ref.tick opts w).
    by rewrite (proj2 (proj2 (Ref.foldl_die (concat (Ref.later opts w)) _ (Ref.tick_wf opts w))) _ _ Et).
  - intros pid opts w r w' q Hp. unfold Ref.waitpid, Ref.fail. rewrite decide_True by done.
    pose proof (Ref.tick_wf opts w) as Hwf.
    destruct (Ref.tick opts w !! pid) as [[st'|]|] eqn:Et; [|destruct (Z.testbit opts 0)|];
      intros [= <- <-] Hq; rewrite ?ref_fate_err; apply ref_fate_tick; auto using Ref.delete_wf.
    by rewrite lookup_delete_ne.
  - intros pid sig w rc w' q. unfold Ref.kill, Ref.fail. by destruct (filter _ _); intros [= <- <-].
Qed.

(** ** From the verdict to the code *)

Section verdict.
Context {W : Type} {E : Errno W} {I : Pid W} {K : FdKernel W} {F : ForkKernel W} {P : ProcKernel W} {Fa : Fates W}.
Context {LF : FdLaws W} {LK : ForkLaws W} {LP : ProcLaws W} {LX : FrameLaws W} {LA : FateLaws W}.
Context (what : exn → str) (cxa_demangle : str → option str * Z) (walk : W → Backtrace.walk).
Implicit Types (e : Pipe.env W) (c : ChildProcess.t) (w : W) (main : M (Pipe.env W) Exit.Status).

Abbreviation plain_fork main e := (Fork.fork what cxa_demangle walk main StandardStream.empty e).

(** The process [c] that a [fork] of [main] started is the child side of that [fork]: it ends
    with the [exit] there, unless a signal ends it before. *)
Definition true_to main e c w : Prop := ∀ st, fate w (ChildProcess.pid c) = Some st →
  (∃ status ec, Fork.child (plain_fork main e) = Some (Ok status, ec) ∧ st = exit_record status) ∨
  (∃ sig core, Wait.change_ok (Wait.Signaled sig core) = true ∧ st = Wait.encode (Wait.Signaled sig core)).

(** What a state change of the process says about [main]: an exit, that [main], called in the
    environment the child of this [fork] has at that point, returned or threw; a signal,
    that it ends the process; a stop says nothing about how [main] goes on. *)
Definition means main e c w (ch : Wait.change) : Prop :=
  match ch with
  | Wait.Exited code => ∃ em, main_env StandardStream.empty e = Some em ∧
      ((∃ v e1, main em = (Ok v, e1) ∧ code = Z.land v 255) ∨
       (∃ x e1, main em = (Throw x, e1) ∧ code = Exit.failure))
  | Wait.Signaled _ _ => fate w (ChildProcess.pid c) = Some (Wait.encode ch)
  | Wait.Stopped _ | Wait.Continued => True
  end.

(** Without redirections nothing comes between the child and [main]. *)
Lemma plain_child main e r :
  Fork.child (plain_fork main e) = Some r →
  ∃ em, main_env StandardStream.empty e = Some em ∧ r = child_run what cxa_demangle walk main em.
Proof.
  rewrite fork_child. unfold main_env, child_end. destruct (child_start _ e) as [s|]; [|done]. simpl. intros [= <-].
  assert (Fork.child_prologue StandardStream.empty s = Fork.child_close s) as ->.
  { unfold Fork.child_prologue, mbind, M_bind. by destruct (child_close_ok s) as [s1 ->]. }
  destruct (child_close_ok s) as [s1 ->]. by exists s1.2.
Qed.

Lemma plain_child_status main e status ec :
  walks_ok walk → Fork.child (plain_fork main e) = Some (Ok status, ec) →
  ∃ em, main_env StandardStream.empty e = Some em ∧
    ((∃ v e1, main em = (Ok v, e1) ∧ reported status = reported v) ∨
     (∃ x e1, main em = (Throw x, e1) ∧ status = Exit.failure)).
Proof.
  intros Hwalk (em & Hem & Hr)%plain_child. exists em. split; [done|]. unfold child_run, try_catch in Hr.
  destruct (main em) as [[v|x|] e1]; [left|right|done].
  - injection Hr as -> _. exists v, e1. by rewrite reported_i32.
  - rewrite handled_eq in Hr by done. injection Hr as -> _. by exists x, e1.
Qed.

(** [wait_for] tells how the child ended; the fates of the others stay. *)
Lemma wait_for_fate c w r w' :
  0 < ChildProcess.pid c → ChildProcess.wait_for c Wait.untraced w = (Ok r, w') →
  (∃ ch, Wait.change_ok ch = true ∧ r = Wait.result_of ch ∧
     (Wait.terminal (Wait.encode ch) = true → fate w (ChildProcess.pid c) = Some (Wait.encode ch))) ∧
  ∀ q, q ≠ ChildProcess.pid c → fate w' q = fate w q.
Proof.
  intros Hp. unfold ChildProcess.wait_for, call, check_rc, throw_errno, mbind, M_bind.
  destruct (sys_waitpid _ _ w) as [[rc st] w1] eqn:Ew.
  pose proof (waitpid_status_law _ _ _ _ _ _ Hp Ew) as [->|[[-> Hf]|(-> & ch & Hok & ->)]]; [done|done|].
  destruct (Z.eqb_spec (ChildProcess.pid c) (-1)); [lia|]. simpl.
  destruct (Z.eqb_spec (ChildProcess.pid c) 0); [lia|]. rewrite decode_encode by done. intros [= <- <-].
  split; [|intros q Hq; by eapply waitpid_fate_other].
  exists ch. split_and!; [done|done|]. by eapply waitpid_fate.
Qed.

Lemma result_of_inj ch ch' : Wait.result_of ch = Wait.result_of ch' → ch = ch'.
Proof. destruct ch, ch'; simpl; congruence. Qed.

Lemma encode_inj ch ch' :
  Wait.change_ok ch = true → Wait.change_ok ch' = true → Wait.encode ch = Wait.encode ch' → ch = ch'.
Proof. intros H H' He. apply result_of_inj. rewrite <- !decode_encode, He by done. done. Qed.

Lemma exit_change_ok status : Wait.change_ok (Wait.Exited (Z.land status 255)) = true.
Proof. simpl. rewrite land_255. pose proof (Z.mod_pos_bound status 256). lia. Qed.

(** What a reported change says about the code of the child. *)
Lemma fate_means main e c w ch :
  walks_ok walk → true_to main e c w → Wait.change_ok ch = true →
  (Wait.terminal (Wait.encode ch) = true → fate w (ChildProcess.pid c) = Some (Wait.encode ch)) →
  means main e c w ch.
Proof.
  intros Hwalk Htrue Hok Hf. rewrite terminal_encode in Hf by done.
  destruct ch as [code|sig core|sig|]; simpl; [|by auto|done|done]. specialize (Hf eq_refl).
  destruct (Htrue _ Hf) as [(status & ec & Hc & He)|(sig & core & Hok' & He)];
    [unfold exit_record in He|]; apply encode_inj in He; auto using exit_change_ok; [injection He as ->|done].
  destruct (plain_child_status _ _ _ _ Hwalk Hc) as (em & Hem & [(v & e1 & Hm & Hr)|(x & e1 & Hm & ->)]);
    exists em; (split; [done|]).
  - left. exists v, e1. split; [done|]. unfold reported in Hr. apply result_of_inj in Hr. by injection Hr.
  - right. by exists x, e1.
Qed.

Lemma scoped_Ok {A} c (m : M (Pipe.env W) A) e a e' :
  ForkAndRun.scoped c m e = (Ok a, e') → ∃ e1, m e = (Ok a, e1).
Proof. unfold ForkAndRun.scoped, finally. destruct (m e) as [[b|x|] e1]; intros [=]; subst; eauto. Qed.

Lemma lift_Ok {A} (m : M W A) e a e' :
  Pipe.lift m e = (Ok a, e') → m (Pipe.world e) = (Ok a, Pipe.world e').
Proof. unfold Pipe.lift, zoom. destruct (m (Pipe.world e)) as [r w]. by intros [= -> <-]. Qed.

Lemma fork_pid main e c ep :
  static_ok e → ForkAndRun.fork_parent what cxa_demangle walk main StandardStream.empty e = (Ok c, ep) →
  0 < ChildProcess.pid c ∧ static_ok ep.
Proof.
  intros Hs Hp. pose proof (fork_accounted what cxa_demangle walk main StandardStream.empty e Hs) as [Hs1 Hacc].
  unfold ForkAndRun.fork_parent in Hp. rewrite Hp in *. by destruct Hacc.
Qed.

(** The wait for the child reported something else than an exit. *)
Definition cut_short main e : Prop := ∃ c ep ch w',
  Fork.parent (plain_fork main e) = (Ok c, ep) ∧
  ChildProcess.wait_for c Wait.untraced (Pipe.world ep) = (Ok (Wait.result_of ch), w') ∧
  ∀ st, ch ≠ Wait.Exited st.

(** C19: the verdict of a [TESTP] test is about its code, in the environment [em] in which the
    child the test forks calls it: the test passes only if the code, called there, ran to its
    end and no expectation in it failed; it fails only if one failed, the code threw, or the
    wait for the child reported that it was stopped or ended by a signal.  This is for code
    that ends its process by returning or throwing ([true_to]); code that calls [exit] or
    execve itself decides the verdict with the status it exits with. *)
Theorem testp_verdict code has_failure e passed e' :
  static_ok e → walks_ok walk →
  (∀ c ep, Fork.parent (plain_fork (ForkAndRun.test code has_failure) e) = (Ok c, ep) →
     true_to (ForkAndRun.test code has_failure) e c (Pipe.world ep)) →
  ForkAndRun.TESTP what cxa_demangle walk code has_failure e = (Ok passed, e') →
  if passed then ∃ em e1, main_env StandardStream.empty e = Some em ∧ code em = (Ok tt, e1) ∧ has_failure e1 = false
  else (∃ em e1, main_env StandardStream.empty e = Some em ∧ code em = (Ok tt, e1) ∧ has_failure e1 = true) ∨
       (∃ em x e1, main_env StandardStream.empty e = Some em ∧ code em = (Throw x, e1)) ∨
       cut_short (ForkAndRun.test code has_failure) e.
Proof.
  intros Hs Hwalk Htrue Ht. unfold ForkAndRun.TESTP in Ht.
  apply M_bind_Ok in Ht as (c & ep & Hp & (e1 & Ht)%scoped_Ok).
  apply M_bind_Ok in Ht as (r & e2 & Hw%lift_Ok & [= <- _]).
  destruct (fork_pid _ _ _ _ Hs Hp) as [Hpid _].
  destruct (wait_for_fate _ _ _ _ Hpid Hw) as [(ch & Hok & -> & Hf) _].
  assert ((∀ st, ch ≠ Wait.Exited st) → cut_short (ForkAndRun.test code has_failure) e) as Hstop.
  { intros Hne. by exists c, ep, ch, (Pipe.world e2). }
  pose proof (fate_means _ _ _ _ ch Hwalk (Htrue c ep Hp) Hok Hf) as Hm.
  destruct ch as [st|sig core|sig|]; simpl; [|right; right; by apply Hstop..]. clear Hstop.
  destruct Hm as (em & Hem & Hm). unfold ForkAndRun.test, mbind, M_bind, gets, mret, M_ret in Hm.
  destruct (code em) as [[[]|x|] e3] eqn:Ec.
  - destruct Hm as [(v & e4 & [= <- <-] & ->)|(x & e4 & [=] & _)].
    destruct (has_failure e3) eqn:Eh; simpl; [left|]; eauto 10.
  - destruct Hm as [(v & e4 & [=] & _)|(y & e4 & _ & ->)]. simpl. right. left. eauto 10.
  - by destruct Hm as [(v & e4 & [=] & _)|(y & e4 & [=] & _)].
Qed.

Lemma signal_fate s sig w w' q :
  Signalable.send_signal_or_throw s sig w = (Ok tt, w') → fate w' q = fate w q.
Proof.
  unfold Signalable.send_signal_or_throw, mbind, M_bind, call, check_rc, throw_errno.
  destruct (sys_kill _ _ w) as [rc w1] eqn:Ek. destruct (rc =? -1); [done|].
  intros [= <-]. by eapply kill_fate.
Qed.

(** C20: the bits of the result of [fork_and_run] are about the closures.  The client's bit is
    set exactly when what [wait_for] reported about the client ([cc]) is not an exit with a
    status other than 1, and the service's bit likewise for what the wait for the service
    reported ([sc]) after it had been sent SIGTERM.  A report of an exit with a status says
    that the closure, called in the environment its own process had, returned a value with
    these low eight bits or, for 1, threw; a report of a signal that the process was ended by
    it; and a stop that the process was stopped.  This is for closures that end their process
    by returning or throwing ([true_to]), not by calling [exit] or execve themselves. *)
Theorem fork_and_run_verdict service client e sp e1 cp e2 result e' :
  static_ok e → walks_ok walk →
  ForkAndRun.fork_parent what cxa_demangle walk service StandardStream.empty e = (Ok sp, e1) →
  ForkAndRun.fork_parent what cxa_demangle walk client StandardStream.empty e1 = (Ok cp, e2) →
  ChildProcess.pid sp ≠ ChildProcess.pid cp →
  true_to service e sp (Pipe.world e2) → true_to client e1 cp (Pipe.world e2) →
  ForkAndRun.fork_and_run what cxa_demangle walk service client e = (Ok result, e') →
  ∃ cc w3 w4 sc w5,
    ChildProcess.wait_for cp Wait.untraced (Pipe.world e2) = (Ok (Wait.result_of cc), w3) ∧
    Signalable.send_signal_or_throw (Process.base (ChildProcess.base sp)) Signal.sig_term w3 = (Ok tt, w4) ∧
    ChildProcess.wait_for sp Wait.untraced w4 = (Ok (Wait.result_of sc), w5) ∧
    ForkAndRunResult.reports result ForkAndRunResult.client_failed = failed cc ∧
    ForkAndRunResult.reports result ForkAndRunResult.service_failed = failed sc ∧
    means client e1 cp (Pipe.world e2) cc ∧ means service e sp (Pipe.world e2) sc.
Proof.
  intros Hs Hwalk Hsp Hcp Hne Hst Hct Hr.
  destruct (fork_pid _ _ _ _ Hs Hsp) as [Hps Hs1]. destruct (fork_pid _ _ _ _ Hs1 Hcp) as [Hpc _].
  unfold ForkAndRun.fork_and_run in Hr.
  apply M_bind_Ok in Hr as (sp' & e1' & Hsp' & (e3 & Hr)%scoped_Ok). rewrite Hsp in Hsp'. injection Hsp' as <- <-.
  apply M_bind_Ok in Hr as (cp' & e2' & Hcp' & (e4 & Hr)%scoped_Ok). rewrite Hcp in Hcp'. injection Hcp' as <- <-.
  apply M_bind_Ok in Hr as (cr & e5 & Hcw%lift_Ok & Hr).
  apply M_bind_Ok in Hr as ([] & e6 & Hk%lift_Ok & Hr).
  apply M_bind_Ok in Hr as (sr & e7 & Hsw%lift_Ok & [= <- _]).
  destruct (wait_for_fate _ _ _ _ Hpc Hcw) as [(cc & Hcok & -> & Hcf) Hother].
  destruct (wait_for_fate _ _ _ _ Hps Hsw) as [(sc & Hsok & -> & Hsf) _].
  rewrite (signal_fate _ _ _ _ _ Hk), (Hother _ Hne) in Hsf. rewrite !judge_spec.
  exists cc, (Pipe.world e5), (Pipe.world e6), sc, (Pipe.world e7).
  split_and!; [done|done|done|by destruct (failed cc), (failed sc)..|by eapply fate_means|by eapply fate_means].
Qed.
End verdict.

(** ** Witnesses *)

(** A test that passes: child 10 exits with 0. *)
Lemma testp_verdict_witness :
  (ForkAndRun.TESTP what_ex demangle_ex walk_ex (mret tt) (λ _, false) run_ex).1 = Ok true ∧
  ∃ em e1, main_env StandardStream.empty run_ex = Some em ∧
    (mret tt : M (Pipe.env Ref.t) unit) em = (Ok tt, e1) ∧ (λ _ : Pipe.env Ref.t, false) e1 = false.
Proof.
  destruct (ForkAndRun.TESTP what_ex demangle_ex walk_ex (mret tt) (λ _, false) run_ex) as [r e'] eqn:Er.
  assert (r = Ok true) as ->.
  { apply (f_equal fst) in Er. vm_compute in Er. exact (eq_sym Er). }
  split; [reflexivity|].
  apply (testp_verdict (LP := Ref.proc_laws) (LF := Ref.fd_laws) (LK := Ref.fork_laws) (LA := ref_fate_laws)
    what_ex demangle_ex walk_ex (mret tt) (λ _, false) run_ex true e' I walks_ok_ex); [|exact Er].
  intros c ep Hp st Hst. left.
  destruct (Fork.child (fork_run (ForkAndRun.test (mret tt) (λ _, false)) StandardStream.empty run_ex))
    as [[[status|x|] ec]|] eqn:Ec; [|apply (f_equal (option_map fst)) in Ec; vm_compute in Ec; discriminate Ec..].
  exists status, ec. split; [reflexivity|].
  apply (f_equal (option_map fst)) in Ec. vm_compute in Ec. injection Ec as <-.
  pose proof (f_equal (λ x, match x with (Ok c, ep) => fate (Pipe.world ep) (ChildProcess.pid c) | _ => None end) Hp) as Hf.
  cbv beta iota in Hf. rewrite Hst in Hf. vm_compute in Hf. injection Hf as <-. vm_compute. reflexivity.
Defined.

Abbreviation service_ex := (mret 0 : M (Pipe.env Ref.t) Exit.Status).
Abbreviation client_ex := (mret 1 : M (Pipe.env Ref.t) Exit.Status).
Abbreviation start_ex := (ForkAndRun.fork_parent what_ex demangle_ex walk_ex).

(** What the two forks of [run_ex] lead to: the pids, the fates
    afterwards, and the exit of the client. *)
Definition forks_ex : option (Z * Z * (option Z * option Z) * option Z) :=
  match start_ex service_ex StandardStream.empty run_ex with
  | (Ok sp, e1) =>
      match start_ex client_ex StandardStream.empty e1 with
      | (Ok cp, e2) => Some (ChildProcess.pid sp, ChildProcess.pid cp,
          (fate (Pipe.world e2) (ChildProcess.pid sp), fate (Pipe.world e2) (ChildProcess.pid cp)),
          match Fork.child (fork_run client_ex StandardStream.empty e1) with Some (Ok s, _) => Some s | _ => None end)
      | _ => None
      end
  | _ => None
  end.

(** Service 10 returns 0, client 11 returns 1: the wait for the client reports an exit with a
    failure, which is what its closure returned. *)
Lemma fork_and_run_verdict_witness :
  ∃ cc, failed cc = true ∧ ∃ sp e1 cp e2 w3, start_ex service_ex StandardStream.empty run_ex = (Ok sp, e1) ∧
    start_ex client_ex StandardStream.empty e1 = (Ok cp, e2) ∧
    ChildProcess.wait_for cp Wait.untraced (Pipe.world e2) = (Ok (Wait.result_of cc), w3) ∧
    means client_ex e1 cp (Pipe.world e2) cc.
Proof.
  assert (forks_ex = Some (10, 11, (Some 0, Some 256), Some 1)) as Hex by (vm_compute; reflexivity).
  unfold forks_ex in Hex.
  destruct (start_ex service_ex StandardStream.empty run_ex) as [[sp|x|] e1] eqn:Es; try discriminate Hex.
  destruct (start_ex client_ex StandardStream.empty e1) as [[cp|x|] e2] eqn:Ec; try discriminate Hex.
  injection Hex as Hp1 Hp2 Hf1 Hf2 Hc2.
  destruct (ForkAndRun.fork_and_run what_ex demangle_ex walk_ex service_ex client_ex run_ex) as [r e'] eqn:Er.
  assert (r = Ok 1) as ->.
  { apply (f_equal fst) in Er. vm_compute in Er. exact (eq_sym Er). }
  destruct (fork_and_run_verdict (LP := Ref.proc_laws) (LF := Ref.fd_laws) (LK := Ref.fork_laws) (LA := ref_fate_laws)
    what_ex demangle_ex walk_ex service_ex client_ex run_ex sp e1 cp e2 1 e' I walks_ok_ex Es Ec
    ltac:(rewrite Hp1, Hp2; discriminate)) as (cc & w3 & w4 & sc & w5 & Hw & _ & _ & Hbit & _ & Hcc & _); [| |exact Er|].
  - intros st Hst. left. rewrite Hst in Hf1. injection Hf1 as ->.
    destruct (Fork.child (fork_run service_ex StandardStream.empty run_ex)) as [[[s|x|] ec]|] eqn:Ek;
      apply (f_equal (option_map fst)) in Ek; vm_compute in Ek; try discriminate Ek.
    injection Ek as <-. exists 0, ec. split; [reflexivity|vm_compute; reflexivity].
  - intros st Hst. left. rewrite Hst in Hf2. injection Hf2 as ->.
    destruct (Fork.child (fork_run client_ex StandardStream.empty e1)) as [[[s|x|] ec]|]; try discriminate Hc2.
    injection Hc2 as ->. exists 1, ec. split; [reflexivity|vm_compute; reflexivity].
  - exists cc. split; [exact (eq_sym Hbit)|]. exists sp, e1, cp, e2, w3. exact (conj eq_refl (conj Ec (conj Hw Hcc))).
Defined.
