(* ===== verification/CrossProcessSync.v ===== *)
(** * core::testing::CrossProcessSync

    [src/core/testing/cross_process_sync.cpp]: a counter of ready signals carried by
    a pipe, shared by several objects and processes.  A signal is the four bytes of
    the integer 1.  The bytes in a pipe are an observation of the kernel
    ([PipeIO]), with pipe(7), read(2) and write(2) as laws. *)

From S2P Require Import Prelude.
From S2P Require Import Types.
From S2P Require Import CppString.
From S2P Require Import Kernel.
From S2P Require Import RefKernel.
From S2P Require Import Extend.
From S2P Require Import PipeIO.

Module CrossProcessSync.

Record t : Type := mk { fds0 : Z; fds1 : Z; counter : Z }.

(** [std::uint32_t] in memory, little-endian. *)
Definition bytes_of (v : Z) : list Z :=
  [v mod 256; v / 256 mod 256; v / 65536 mod 256; v / 16777216 mod 256].
Fixpoint value_of (l : list Z) : Z := match l with [] => 0 | b :: l => b + 256 * value_of l end.

Definition sizeof_value : Z := 4.

Section operations.
Context {W : Type} {E : Errno W} {K : FdKernel W} {O : PipeIO W}.

Definition ctor : M W t :=
  '(rc, (r, x)) ← call sys_pipe;
  if rc <? 0 then throw_errno else mret (mk r x 0).

Definition copy (rhs : t) (w : W) : t * W :=
  let '(a, w1) := sys_dup (fds0 rhs) w in
  let '(b, w2) := sys_dup (fds1 rhs) w1 in
  (mk a b (counter rhs), w2).

Definition dtor (self : t) (w : W) : W :=
  (sys_close (fds1 self) (sys_close (fds0 self) w).2).2.

Definition assign (self rhs : t) (w : W) : t * W :=
  let w1 := (sys_close (fds0 self) w).2 in
  let w2 := (sys_close (fds1 self) w1).2 in
  let '(a, w3) := sys_dup (fds0 rhs) w2 in
  let '(b, w4) := sys_dup (fds1 rhs) w3 in
  (mk a b (counter rhs), w4).

(** [duration.count()] is 64 bits wide, the parameter of poll an [int]. *)
Definition try_signal_ready_for (self : t) (duration : Z) : M W unit :=
  rc ← call (sys_poll (fds1 self) false (i32 duration));
  if rc <? 0 then throw_errno
  else if rc =? 0 then throw Timeout
  else
    n ← call (sys_write (fds1 self) (bytes_of 1));
    if sizeof_value =? n then mret tt else throw_errno.

Definition wait_for_signal_ready_for (duration : Z) : M (t * W) Z := λ s,
  let self := s.1 in
  let m : M W Z :=
    rc ← call (sys_poll (fds0 self) true (i32 duration));
    if rc <? 0 then throw_errno
    else if rc =? 0 then throw Timeout
    else
      '(n, data) ← call (sys_read (fds0 self) sizeof_value);
      if negb (sizeof_value =? n) then throw_errno
      else if negb (value_of data =? 1) then throw_errno
      else mret (value_of data) in
  match m s.2 with
  | (Ok value, w) => (Ok (u32 (counter self + value)), (mk (fds0 self) (fds1 self) (u32 (counter self + value)), w))
  | (Throw x, w) => (Throw x, (self, w))
  | (Undefined, w) => (Undefined, (self, w))
  end.

End operations.
End CrossProcessSync.

(** ** Lemmas *)

(** A pipe that holds [k] ready signals. *)
Definition signals (k : nat) : list Z := concat (replicate k (CrossProcessSync.bytes_of 1)).

Lemma signals_app k m : signals k ++ signals m = signals (k + m).
Proof. unfold signals. by rewrite replicate_add, concat_app. Qed.

Definition ok_count {A} (r : outcome A) : nat := match r with Ok _ => 1 | _ => 0 end.

Section sync.
Context {W : Type} {E : Errno W} {K : FdKernel W} {O : PipeIO W} {LF : FdLaws W} {LO : PipeIOLaws W}.
Implicit Types (w : W) (o : CrossProcessSync.t).

(** The object's ends are those of the pipe [p], or -1 where a dup failed. *)
Definition on_pipe (p : positive) (T : gmap Z Ofd) o : Prop :=
  (CrossProcessSync.fds0 o = -1 ∨ T !! CrossProcessSync.fds0 o = Some (PipeRead p)) ∧
  (CrossProcessSync.fds1 o = -1 ∨ T !! CrossProcessSync.fds1 o = Some (PipeWrite p)).

(** How many signals a call on [o] that ended with [r] put into, or took from, pipe [p]. *)
Definition sent_count {A} (p : positive) (T : gmap Z Ofd) o (r : outcome A) : nat :=
  if decide (T !! CrossProcessSync.fds1 o = Some (PipeWrite p)) then ok_count r else 0.
Definition got_count {A} (p : positive) (T : gmap Z Ofd) o (r : outcome A) : nat :=
  if decide (T !! CrossProcessSync.fds0 o = Some (PipeRead p)) then ok_count r else 0.

(** What a call may throw. *)
Definition sync_exn (x : exn) : Prop := x = Timeout ∨ ∃ e, x = SystemError e.

Lemma signal_spec p o d w r w' :
  on_pipe p (fd_table w) o → fd_table w !! (-1) = None →
  CrossProcessSync.try_signal_ready_for o d w = (r, w') →
  fd_table w' = fd_table w ∧ r ≠ Undefined ∧ (∀ x, r = Throw x → sync_exn x) ∧
  ∀ q, buffer w' q = buffer w q ++ signals (sent_count q (fd_table w) o r).
Proof.
  intros [_ Ho] Hneg.
  assert (∀ v x, fd_table v = fd_table w → (∀ q, buffer v q = buffer w q) → sync_exn x →
    fd_table v = fd_table w ∧ (Throw x : outcome unit) ≠ Undefined ∧
    (∀ x', (Throw x : outcome unit) = Throw x' → sync_exn x') ∧
    ∀ q, buffer v q = buffer w q ++ signals (sent_count q (fd_table w) o (Throw x : outcome unit))) as Hthrow.
  { intros v x Ht Hb Hx. split_and!; [done..|by intros x' [= <-]|]. intros q. rewrite Hb.
    unfold sent_count. case_decide; by rewrite app_nil_r. }
  unfold CrossProcessSync.try_signal_ready_for, mbind, M_bind, call, throw_errno, throw.
  destruct (sys_poll _ _ _ w) as [rc w1] eqn:Ep. apply poll_law in Ep as [Ht1 Hb1].
  destruct (rc <? 0); [intros [= <- <-]; apply Hthrow; unfold sync_exn; eauto|].
  destruct (rc =? 0); [intros [= <- <-]; apply Hthrow; unfold sync_exn; eauto|].
  destruct (sys_write _ _ w1) as [n w2] eqn:Ew. destruct Ho as [Ho|Ho].
  - rewrite Ho in Ew. apply write_bad_law in Ew as (-> & Ht2 & Hb2); [|by rewrite Ht1].
    intros [= <- <-]. apply Hthrow; [congruence|congruence|unfold sync_exn; eauto].
  - eapply write_law in Ew as [[Ht2 Hb2] Hcase]; [|simpl; lia|by rewrite Ht1].
    destruct Hcase as [[-> Hbp]|[-> Hbp]]; intros [= <- <-].
    + apply Hthrow; [congruence| |unfold sync_exn; eauto].
      intros q. destruct (decide (q = p)); [|rewrite Hb2 by done]; congruence.
    + split_and!; [congruence|done|done|]. intros q. unfold sent_count. rewrite Ho.
      case_decide as Hq; [injection Hq as <-; by rewrite Hbp, Hb1|].
      rewrite Hb2, Hb1 by congruence. by rewrite app_nil_r.
Qed.

(** A wait leaves the other pipes alone, and is refused by an object without an end. *)
Lemma wait_frame p o d w r o' w' :
  on_pipe p (fd_table w) o → fd_table w !! (-1) = None →
  CrossProcessSync.wait_for_signal_ready_for d (o, w) = (r, (o', w')) →
  fd_table w' = fd_table w ∧ CrossProcessSync.fds0 o' = CrossProcessSync.fds0 o ∧
  CrossProcessSync.fds1 o' = CrossProcessSync.fds1 o ∧
  ∀ q, fd_table w !! CrossProcessSync.fds0 o ≠ Some (PipeRead q) → buffer w' q = buffer w q.
Proof.
  intros [Ho _] Hneg.
  unfold CrossProcessSync.wait_for_signal_ready_for, mbind, M_bind, call, throw_errno, throw. cbn [fst snd].
  destruct (sys_poll _ _ _ w) as [rc w1] eqn:Ep. apply poll_law in Ep as [Ht1 Hb1].
  destruct (rc <? 0); [by intros [= <- <- <-]|]. destruct (rc =? 0); [by intros [= <- <- <-]|].
  destruct (sys_read _ _ w1) as [[n data] w2] eqn:Er.
  assert (fd_table w2 = fd_table w ∧
    ∀ q, fd_table w !! CrossProcessSync.fds0 o ≠ Some (PipeRead q) → buffer w2 q = buffer w q) as [Ht Hb].
  { destruct Ho as [Ho|Ho].
    - rewrite Ho in Er. apply read_bad_law in Er as (-> & Ht2 & Hb2); [|by rewrite Ht1].
      split; [congruence|]. intros q _. by rewrite Hb2.
    - eapply read_law in Er as [[Ht2 Hb2] _]; [|by rewrite Ht1]. split; [congruence|].
      intros q Hq. rewrite Hb2; [done|congruence]. }
  destruct (negb (_ =? n)); [|destruct (negb (_ =? 1))]; by intros [= <- <- <-].
Qed.

Lemma wait_spec p k o d w r o' w' :
  on_pipe p (fd_table w) o → fd_table w !! (-1) = None → buffer w p = signals k →
  CrossProcessSync.wait_for_signal_ready_for d (o, w) = (r, (o', w')) →
  match r with
  | Ok v => ∃ k', k = S k' ∧ buffer w' p = signals k' ∧ v = u32 (CrossProcessSync.counter o + 1) ∧
      o' = CrossProcessSync.mk (CrossProcessSync.fds0 o) (CrossProcessSync.fds1 o) v
  | Throw x => buffer w' p = signals k ∧ o' = o ∧ sync_exn x
  | Undefined => False
  end.
Proof.
  intros [Ho _] Hneg Hb. unfold sync_exn.
  unfold CrossProcessSync.wait_for_signal_ready_for, mbind, M_bind, call, throw_errno, throw. cbn [fst snd].
  destruct (sys_poll _ _ _ w) as [rc w1] eqn:Ep. apply poll_law in Ep as [Ht1 Hb1].
  rewrite <- Ht1 in Ho, Hneg. rewrite <- Hb1 in Hb.
  destruct (rc <? 0); [intros [= <- <- <-]; eauto 10|].
  destruct (rc =? 0); [intros [= <- <- <-]; eauto 10|].
  destruct (sys_read _ _ w1) as [[n data] w2] eqn:Er.
  destruct Ho as [Ho|Ho].
  - rewrite Ho in Er. apply read_bad_law in Er as (-> & Ht2 & Hb2); [|done].
    intros [= <- <- <-]. rewrite Hb2. eauto 10.
  - eapply read_law in Er as [_ Hcase]; [|exact Ho].
    destruct Hcase as [[-> Hb2]|(Hdata & Hn & Hb2)].
    + intros [= <- <- <-]. rewrite Hb2. eauto 10.
    + rewrite Hb in Hdata, Hb2. destruct k as [|k]; simpl in Hdata, Hb2; subst data n; simpl;
        intros [= <- <- <-]; rewrite Hb2; [eauto 10|]. exists k. split_and!; done.
Qed.

(** A wait on an object of the pipe either collects exactly one of the ready signals,
    returning (and storing) the counter plus one modulo 2^32, or throws Timeout or a system
    error and leaves the signals and the counter alone; it cannot succeed when there is no
    signal. *)
Theorem wait_collects_one p k o d w r o' w' :
  on_pipe p (fd_table w) o → fd_table w !! (-1) = None → buffer w p = signals k →
  CrossProcessSync.wait_for_signal_ready_for d (o, w) = (r, (o', w')) →
  match r with
  | Ok v => ∃ k', k = S k' ∧ buffer w' p = signals k' ∧
      v = u32 (CrossProcessSync.counter o + 1) ∧ CrossProcessSync.counter o' = v
  | Throw x => buffer w' p = signals k ∧ o' = o ∧ sync_exn x
  | Undefined => False
  end.
Proof.
  intros Ho Hn Hb H. eapply wait_spec in H; [|done..].
  destruct r; [|done..]. destruct H as (k' & -> & Hb' & Hv & ->). eauto 10.
Qed.
End sync.

(** ** Witnesses *)

Definition sync_world (b : list Z) : RefSync.t :=
  RefSync.mk (Ref.mk (list_to_map [(3, PipeRead 1); (4, PipeWrite 1)]) 0 16 1 5 10 ∅ [] ∅ [] [] [])
    (<[1%positive := b]> ∅).
Definition sync_ex : CrossProcessSync.t := CrossProcessSync.mk 3 4 (2 ^ 32 - 1).

Lemma on_pipe_ex b : on_pipe 1 (fd_table (sync_world b)) sync_ex.
Proof. by split; right. Qed.

(** The counter wraps around. *)
Lemma wait_collects_one_witness :
  ∃ s', CrossProcessSync.wait_for_signal_ready_for 100 (sync_ex, sync_world (signals 2)) = (Ok 0, s') ∧
    CrossProcessSync.counter s'.1 = 0.
Proof.
  destruct (CrossProcessSync.wait_for_signal_ready_for 100 (sync_ex, sync_world (signals 2)))
    as [[v|x|] [o' w']] eqn:Ew; [|apply (f_equal fst) in Ew; vm_compute in Ew; discriminate Ew..].
  destruct (wait_collects_one (LO := RefSync.io_laws) 1 2 sync_ex 100 _ _ _ _
    (on_pipe_ex _) eq_refl eq_refl Ew) as (k' & _ & _ & Hv & Hc).
  assert (v = 0) as -> by (rewrite Hv; vm_compute; reflexivity).
  exists (o', w'). split; [reflexivity|exact Hc].
Defined.
