(* ===== verification/SyncProtocol.v ===== *)
(** * Programs over CrossProcessSync objects

    The operations of [src/core/testing/cross_process_sync.cpp] as the steps of a program
    that makes, copies, assigns and destroys objects of several pipes and signals and
    waits through them, with any system call failing.  For one of the pipes, [p], the
    number of signals sent and collected since it was made is counted beside the state. *)

From S2P Require Import Prelude.
From S2P Require Import Types.
From S2P Require Import CppString.
From S2P Require Import Kernel.
From S2P Require Import RefKernel.
From S2P Require Import Extend.
From S2P Require Import PipeIO.
From S2P Require Import Pipe.
From S2P Require Import CrossProcessSync.

(** The descriptors an object, and a list of objects, holds. *)
Definition ends (o : CrossProcessSync.t) : list Z :=
  Pipe.held_end (CrossProcessSync.fds0 o) ++ Pipe.held_end (CrossProcessSync.fds1 o).
Definition ends_all (os : list CrossProcessSync.t) : list Z := os ≫= ends.

Lemma ends_all_middle os1 o os2 : ends_all (os1 ++ o :: os2) ≡ₚ ends o ++ ends_all (os1 ++ os2).
Proof. unfold ends_all. by rewrite <- Permutation_middle. Qed.

(** Somebody in this process can read pipe [p]. *)
Definition readable (p : positive) (T : gmap Z Ofd) : Prop := ∃ fd, T !! fd = Some (PipeRead p).

(** The descriptors [L] mean the same in both tables. *)
Definition keeps (L : list Z) (T T' : gmap Z Ofd) : Prop := ∀ fd, fd ∈ L → T' !! fd = T !! fd.

Lemma keeps_trans L T1 T2 T3 : keeps L T1 T2 → keeps L T2 T3 → keeps L T1 T3.
Proof. intros H1 H2 fd Hfd. by rewrite H2, H1. Qed.

Lemma on_pipe_keeps p T T' o : keeps (ends o) T T' → on_pipe p T o → on_pipe p T' o.
Proof.
  intros HT. unfold keeps, ends, Pipe.held_end in HT.
  intros [H0 H1]; split; [destruct H0|destruct H1]; repeat case_decide; auto; right;
    rewrite HT; auto; set_solver.
Qed.

Section protocol.
Context {W : Type} {E : Errno W} {K : FdKernel W} {O : PipeIO W} {LF : FdLaws W} {LO : PipeIOLaws W}.
Implicit Types (w : W) (o : CrossProcessSync.t) (b : gmap Z Ofd) (L : list Z).

(** The objects, the kernel, and how many signals were sent and collected on [p]. *)
Definition sync_state : Type := list CrossProcessSync.t * W * (nat * nat).

(** One operation of the program.  The right-hand side of an assignment may be the
    object itself. *)
Inductive sync_step (p : positive) : sync_state → sync_state → Prop :=
| sync_ctor os w o w' c :
    CrossProcessSync.ctor w = (Ok o, w') →
    sync_step p (os, w, c) (o :: os, w',
      if decide (fd_table w' !! CrossProcessSync.fds0 o = Some (PipeRead p)) then (0, 0)%nat else c)
| sync_ctor_throw os w x w' c :
    CrossProcessSync.ctor w = (Throw x, w') → sync_step p (os, w, c) (os, w', c)
| sync_copy os w q o w' c :
    q ∈ os → CrossProcessSync.copy q w = (o, w') → sync_step p (os, w, c) (o :: os, w', c)
| sync_assign os1 o os2 w q o' w' c :
    q ∈ os1 ++ o :: os2 → CrossProcessSync.assign o q w = (o', w') →
    sync_step p (os1 ++ o :: os2, w, c) (os1 ++ o' :: os2, w', c)
| sync_dtor os1 o os2 w c :
    sync_step p (os1 ++ o :: os2, w, c) (os1 ++ os2, CrossProcessSync.dtor o w, c)
| sync_signal os o d w r w' s g :
    o ∈ os → CrossProcessSync.try_signal_ready_for o d w = (r, w') →
    sync_step p (os, w, (s, g)) (os, w', ((s + sent_count p (fd_table w) o r)%nat, g))
| sync_wait os1 o os2 d w r o' w' s g :
    CrossProcessSync.wait_for_signal_ready_for d (o, w) = (r, (o', w')) →
    sync_step p (os1 ++ o :: os2, w, (s, g))
      (os1 ++ o' :: os2, w', (s, (g + got_count p (fd_table w) o r)%nat)).

(** ** The effect of the single calls *)

(** From [w] to [w'] no pipe became readable and the readable ones kept their bytes. *)
Definition quiet w w' : Prop :=
  ∀ p, readable p (fd_table w') → readable p (fd_table w) ∧ buffer w' p = buffer w p.

#[local] Instance quiet_preorder : PreOrder quiet.
Proof.
  split; [by intros w p|]. intros w1 w2 w3 H1 H2 p Hp.
  destruct (H2 p Hp) as [Hp' ->]. by apply H1.
Qed.

(** Moving from the owned descriptors [L] to [L'], with [F] untouched. *)
Definition moves b L L' (F : list Z) w w' : Prop :=
  owns b L (fd_table w) → owns b L' (fd_table w') ∧ keeps F (fd_table w) (fd_table w') ∧ quiet w w'.

Lemma moves_trans b L1 L2 L3 F F' w1 w2 w3 :
  F ⊆ F' → moves b L1 L2 F' w1 w2 → moves b L2 L3 F w2 w3 → moves b L1 L3 F w1 w3.
Proof.
  intros HF H1 H2 HL. destruct (H1 HL) as (HL2 & K1 & Q1). destruct (H2 HL2) as (HL3 & K2 & Q2).
  split_and!; [done| |by etrans]. eapply keeps_trans; [|exact K2]. intros fd Hfd. apply K1. by apply HF.
Qed.

Lemma owns_no_neg b L T : b !! (-1) = None → owns b L T → T !! (-1) = None.
Proof.
  intros Hb (_ & Hin & Hout). destruct (decide (-1 ∈ L)) as [Hi|Hi]; [|by rewrite Hout].
  destruct (Hin _ Hi). lia.
Qed.

(** [::close(fd)] without a check for -1. *)
Lemma close_moves b L fd w :
  b !! (-1) = None → moves b (Pipe.held_end fd ++ L) L L w (sys_close fd w).2.
Proof.
  intros Hb HL. destruct (sys_close fd w) as [rc w'] eqn:Ec. simpl.
  pose proof (close_law _ _ _ _ Ec) as Ht. rewrite Ht.
  assert (fd ∉ L) as Hfd.
  { unfold Pipe.held_end in HL. destruct HL as (Hd & Hin & _). case_decide; simpl in *.
    - intros Hi. destruct (Hin _ Hi). lia.
    - by apply NoDup_cons in Hd as [? _]. }
  split_and!.
  - unfold Pipe.held_end in HL. case_decide; [|by apply owns_release].
    subst. rewrite delete_id; [done|]. by eapply owns_no_neg.
  - intros n Hn. apply lookup_delete_ne. by intros ->.
  - intros p [n Hn]. split; [|by eapply close_buffer_law].
    rewrite Ht in Hn. apply lookup_delete_Some in Hn as [_ Hn]. by exists n.
Qed.

(** [::dup(fd)]; the new descriptor refers to what the old one does. *)
Lemma dup_moves b L fd w n w' :
  sys_dup fd w = (n, w') →
  moves b L (Pipe.held_end n ++ L) L w w' ∧ fd_table w ⊆ fd_table w' ∧
  (n = -1 ∧ fd_table w' = fd_table w ∨ is_Some (fd_table w !! fd) ∧ fd_table w' !! n = fd_table w !! fd).
Proof.
  intros Hd. pose proof (dup_buffer_law _ _ _ _ Hd) as Hb.
  apply dup_law in Hd as [[-> Ht]|(Hn & Hfree & x & Hx & Ht)].
  - split_and!; [|by rewrite Ht|auto]. intros HL. rewrite Ht. split_and!; [done..|].
    intros p. rewrite Ht. auto.
  - split_and!; [|rewrite Ht; by apply insert_subseteq|rewrite Ht, lookup_insert_eq, Hx; eauto].
    intros HL. rewrite Ht. split_and!.
    + unfold Pipe.held_end. rewrite decide_False by lia. by apply owns_alloc.
    + intros m Hm. rewrite lookup_insert_ne; [done|]. intros ->.
      destruct (owns_open _ _ _ _ HL Hm). congruence.
    + intros p [m Hm]. split; [|done]. rewrite Ht in Hm. apply lookup_insert_Some in Hm as [[_ ->]|[_ Hm]]; by eexists.
Qed.

(** ** The effect of the operations on objects *)

Lemma dtor_moves b L o w :
  b !! (-1) = None → moves b (ends o ++ L) L L w (CrossProcessSync.dtor o w).
Proof.
  intros Hb. unfold CrossProcessSync.dtor, ends. rewrite <- app_assoc.
  eapply moves_trans; [|by apply close_moves|by apply close_moves]. set_solver.
Qed.

Lemma dtor_gone o w :
  fd_table (CrossProcessSync.dtor o w) !! CrossProcessSync.fds0 o = None ∧
  fd_table (CrossProcessSync.dtor o w) !! CrossProcessSync.fds1 o = None.
Proof.
  unfold CrossProcessSync.dtor.
  destruct (sys_close _ w) as [c1 w1] eqn:E1. apply close_law in E1.
  destruct (sys_close _ (_, w1).2) as [c2 w2] eqn:E2. apply close_law in E2. simpl in *.
  rewrite E2, E1, !lookup_delete. by repeat case_decide.
Qed.

(** The end of [p] that a [dup] of an end of [p] gives. *)
Lemma dup_end_of fd w n w' x :
  sys_dup fd w = (n, w') → fd_table w !! (-1) = None →
  fd = -1 ∨ fd_table w !! fd = Some x ∨ fd_table w !! fd = None →
  n = -1 ∨ fd_table w' !! n = Some x.
Proof.
  intros Hd Hneg Hfd. apply (dup_moves ∅ []) in Hd as (_ & _ & [[-> _]|[[y Hy] Hn]]); [by left|right].
  destruct Hfd as [->|[H|H]]; congruence.
Qed.

(** Copying an object of pipe [p], or one whose descriptors are closed. *)
Lemma copy_moves b L p q w o w' :
  b !! (-1) = None → CrossProcessSync.copy q w = (o, w') →
  on_pipe p (fd_table w) q ∨
    fd_table w !! CrossProcessSync.fds0 q = None ∧ fd_table w !! CrossProcessSync.fds1 q = None →
  owns b L (fd_table w) →
  (owns b (ends o ++ L) (fd_table w') ∧ keeps L (fd_table w) (fd_table w') ∧ quiet w w') ∧
  on_pipe p (fd_table w') o.
Proof.
  intros Hb Hc Hq HL. unfold CrossProcessSync.copy in Hc.
  destruct (sys_dup _ w) as [n0 w1] eqn:E0. destruct (sys_dup _ w1) as [n1 w2] eqn:E1.
  injection Hc as <- <-. pose proof (owns_no_neg _ _ _ Hb HL) as Hneg.
  destruct (dup_moves b L _ _ _ _ E0) as (M0 & S0 & D0). destruct (M0 HL) as (HL1 & _).
  destruct (dup_moves b (Pipe.held_end n0 ++ L) _ _ _ _ E1) as (M1 & S1 & _).
  assert (n0 = -1 ∨ fd_table w1 !! n0 = Some (PipeRead p)) as R0.
  { eapply dup_end_of; [exact E0|done|]. destruct Hq as [[[] _]|[]]; auto. }
  assert (n1 = -1 ∨ fd_table w2 !! n1 = Some (PipeWrite p)) as R1.
  { eapply dup_end_of; [exact E1|exact (owns_no_neg _ _ _ Hb HL1)|].
    destruct Hq as [[_ [H|H]]|[H0 H1]]; [by left|right; left; by eapply lookup_weaken|].
    right. right. destruct D0 as [[_ ->]|[[x Hx] _]]; [done|congruence]. }
  split.
  - unfold ends. cbn [CrossProcessSync.fds0 CrossProcessSync.fds1].
    assert (moves b L (Pipe.held_end n1 ++ Pipe.held_end n0 ++ L) L w w2) as M.
    { eapply moves_trans; [reflexivity|exact M0|]. intros HL1'.
      destruct (M1 HL1') as (? & K1 & ?). split_and!; [done| |done]. intros fd Hfd. apply K1. set_solver. }
    destruct (M HL) as (H1 & H2 & H3). split_and!; [|done|done].
    by rewrite (Permutation_app_comm (Pipe.held_end n0)), <- app_assoc.
  - split; simpl; [|done]. destruct R0; [by left|right]. by eapply lookup_weaken.
Qed.

Lemma assign_moves b L p o q w o' w' :
  b !! (-1) = None → CrossProcessSync.assign o q w = (o', w') → on_pipe p (fd_table w) q →
  q = o ∨ ends q ⊆ L → owns b (ends o ++ L) (fd_table w) →
  (owns b (ends o' ++ L) (fd_table w') ∧ keeps L (fd_table w) (fd_table w') ∧ quiet w w') ∧
  on_pipe p (fd_table w') o'.
Proof.
  intros Hb Ha Hq Hin HL. pose proof (owns_no_neg _ _ _ Hb HL) as Hneg.
  destruct (dtor_moves b L o w Hb HL) as (HL1 & K1 & Q1).
  change (CrossProcessSync.copy q (CrossProcessSync.dtor o w) = (o', w')) in Ha.
  eapply copy_moves in Ha as [(H1 & H2 & H3) H4]; [|exact Hb| |exact HL1].
  - split; [|exact H4]. split_and!; [done|by eapply keeps_trans|by etrans].
  - destruct Hin as [->|Hin]; [right|left].
    + apply dtor_gone.
    + eapply on_pipe_keeps; [|exact Hq]. intros fd Hfd. apply K1. by apply Hin.
Qed.

Lemma sync_ctor_spec w r w' :
  CrossProcessSync.ctor w = (r, w') →
  (∃ x, r = Throw x ∧ fd_table w' = fd_table w ∧ quiet w w') ∨
  (∃ o p, r = Ok o ∧ on_pipe p (fd_table w') o ∧ buffer w' p = [] ∧
     fd_table w' !! CrossProcessSync.fds0 o = Some (PipeRead p) ∧
     (∀ b L, owns b L (fd_table w) →
        owns b (ends o ++ L) (fd_table w') ∧ keeps L (fd_table w) (fd_table w')) ∧
     (∀ q, q ≠ p → readable q (fd_table w') → readable q (fd_table w) ∧ buffer w' q = buffer w q)).
Proof.
  unfold CrossProcessSync.ctor, call, throw_errno, mbind, M_bind.
  destruct (sys_pipe w) as [[rc [r0 r1]] w1] eqn:Ep.
  pose proof (λ q, pipe_buffer_law _ _ _ _ _ q Ep) as Hbuf.
  assert (∀ q fd, fd_table w !! fd = Some (PipeRead q) → ¬ pipe_unused q (fd_table w)) as Hused
    by (intros q fd Hfd Hun; by destruct (Hun fd)).
  apply pipe_law in Ep as [[-> Ht]|(-> & H0 & H1 & Hne & F0 & F1 & p & Hun & Ht)]; intros [= <- <-].
  - left. eexists. split_and!; [done|done|]. intros q [fd Hfd]. rewrite Ht in Hfd.
    split; [by exists fd|]. apply Hbuf. by eapply Hused.
  - right. exists (CrossProcessSync.mk r0 r1 0), p. simpl. rewrite Ht, lookup_insert_eq.
    split_and!; [done| | |done| |].
    + split; right; simpl; [by rewrite lookup_insert_eq|by rewrite lookup_insert_ne, lookup_insert_eq].
    + apply (proj2 (Hbuf p)); [done|]. by rewrite Ht, lookup_insert_eq.
    + intros b L HL. unfold ends, Pipe.held_end. simpl. rewrite !decide_False by lia. split.
      * apply owns_alloc; [by apply owns_alloc|done|]. by rewrite lookup_insert_ne.
      * intros fd Hfd. destruct (owns_open _ _ _ _ HL Hfd).
        rewrite !lookup_insert_ne; [done|congruence..].
    + intros q Hq [fd Hfd]. rewrite !lookup_insert_Some in Hfd.
      assert (fd_table w !! fd = Some (PipeRead q)) by naive_solver.
      split; [by exists fd|]. apply Hbuf. by eapply Hused.
Qed.

(** ** The invariant *)

(** The table is the base plus what the objects hold, every object has the two ends of
    one pipe, and pipe [p], while it can be read, holds what was sent and not yet
    collected. *)
Definition sync_inv b (p : positive) (c : sync_state) : Prop :=
  let '(os, w, (s, g)) := c in
  owns b (ends_all os) (fd_table w) ∧ Forall (λ o, ∃ q, on_pipe q (fd_table w) o) os ∧
  (readable p (fd_table w) → (g ≤ s)%nat ∧ buffer w p = signals (s - g)).

Lemma Forall_keeps T T' os :
  keeps (ends_all os) T T' → Forall (λ o, ∃ q, on_pipe q T o) os → Forall (λ o, ∃ q, on_pipe q T' o) os.
Proof.
  intros HT Hos. apply Forall_forall. intros o Ho. destruct (proj1 (Forall_forall _ _) Hos o Ho) as [q Hq].
  exists q. eapply on_pipe_keeps; [|exact Hq]. intros fd Hfd. apply HT. unfold ends_all. set_solver.
Qed.

Lemma Forall_middle {A} (P : A → Prop) l1 x l2 :
  Forall P (l1 ++ x :: l2) ↔ P x ∧ Forall P (l1 ++ l2).
Proof. rewrite !Forall_app, Forall_cons. tauto. Qed.

(** Steps that put nothing into a pipe and take nothing out of one. *)
Lemma sync_inv_quiet b p os w c os' w' :
  sync_inv b p (os, w, c) → quiet w w' →
  owns b (ends_all os') (fd_table w') → Forall (λ o, ∃ q, on_pipe q (fd_table w') o) os' →
  sync_inv b p (os', w', c).
Proof.
  destruct c as [s g]. intros (_ & _ & Hp) Hq HL Hos. split_and!; [done..|].
  intros [Hr ->]%Hq. auto.
Qed.

Lemma sync_inv_ctor b p os w c r w' :
  CrossProcessSync.ctor w = (r, w') → sync_inv b p (os, w, c) →
  match r with
  | Ok o => sync_inv b p (o :: os, w',
      if decide (fd_table w' !! CrossProcessSync.fds0 o = Some (PipeRead p)) then (0, 0)%nat else c)
  | _ => sync_inv b p (os, w', c)
  end.
Proof.
  intros [(x & -> & Ht & Hq)|(o & q & -> & Ho & Hb & H0 & HL & Hq)]%sync_ctor_spec Hinv.
  - pose proof Hinv as Hi. destruct c as [s g], Hi as (HL & Hos & _).
    eapply sync_inv_quiet; [exact Hinv|done|by rewrite Ht..].
  - destruct c as [s g], Hinv as (HL0 & Hos & Hp). destruct (HL _ _ HL0) as [HL' HK].
    assert (Forall (λ o, ∃ q, on_pipe q (fd_table w') o) (o :: os)) as Hos'
      by (constructor; [eauto|by eapply Forall_keeps]).
    rewrite H0. case_decide as Hd.
    + injection Hd as ->. split_and!; [done..|]. intros _. by split.
    + split_and!; [done..|]. intros [Hr ->]%Hq; [auto|congruence].
Qed.

Lemma sync_inv_objects b p os1 o os2 w s g :
  sync_inv b p (os1 ++ o :: os2, w, (s, g)) →
  owns b (ends o ++ ends_all (os1 ++ os2)) (fd_table w) ∧ (∃ q, on_pipe q (fd_table w) o) ∧
  Forall (λ o, ∃ q, on_pipe q (fd_table w) o) (os1 ++ os2).
Proof. intros (HL & Hos & _). rewrite ends_all_middle in HL. by apply Forall_middle in Hos as [? ?]. Qed.

Lemma sync_inv_assign b p os1 o os2 w q o' w' c :
  b !! (-1) = None → q ∈ os1 ++ o :: os2 → CrossProcessSync.assign o q w = (o', w') →
  sync_inv b p (os1 ++ o :: os2, w, c) → sync_inv b p (os1 ++ o' :: os2, w', c).
Proof.
  intros Hb Hin Ha Hinv. destruct c as [s g]. destruct (sync_inv_objects _ _ _ _ _ _ _ _ Hinv) as (HL & _ & Hos).
  pose proof (proj1 (proj2 Hinv)) as Hall.
  destruct (proj1 (Forall_forall _ _) Hall q Hin) as [pq Hq].
  eapply assign_moves in Ha as [(H1 & H2 & H3) H4]; [|exact Hb|exact Hq| |exact HL].
  - eapply sync_inv_quiet; [exact Hinv|exact H3|by rewrite ends_all_middle|].
    apply Forall_middle. split; [eauto|by eapply Forall_keeps].
  - apply elem_of_app in Hin. rewrite elem_of_cons in Hin.
    destruct Hin as [Hin|[->|Hin]]; [right|by left|right]; unfold ends_all; set_solver.
Qed.

Lemma sync_inv_signal b p os o d w r w' s g :
  b !! (-1) = None → o ∈ os → CrossProcessSync.try_signal_ready_for o d w = (r, w') →
  sync_inv b p (os, w, (s, g)) →
  sync_inv b p (os, w', ((s + sent_count p (fd_table w) o r)%nat, g)).
Proof.
  intros Hb Hin Hs (HL & Hos & Hp). destruct (proj1 (Forall_forall _ _) Hos o Hin) as [q Hq].
  eapply signal_spec in Hs as (Ht & _ & _ & Hbuf); [|exact Hq|by eapply owns_no_neg].
  rewrite <- Ht in HL, Hos, Hp. split_and!; [done..|].
  intros [Hle Hk]%Hp. rewrite Hbuf, Hk, signals_app. split; [lia|f_equal; lia].
Qed.

Lemma sync_inv_wait b p os1 o os2 d w r o' w' s g :
  b !! (-1) = None → CrossProcessSync.wait_for_signal_ready_for d (o, w) = (r, (o', w')) →
  sync_inv b p (os1 ++ o :: os2, w, (s, g)) →
  sync_inv b p (os1 ++ o' :: os2, w', (s, (g + got_count p (fd_table w) o r)%nat)).
Proof.
  intros Hb Hw Hinv. destruct (sync_inv_objects _ _ _ _ _ _ _ _ Hinv) as (HL & [q Hq] & Hos).
  destruct Hinv as (_ & _ & Hp). pose proof (owns_no_neg _ _ _ Hb HL) as Hneg.
  destruct (wait_frame _ _ _ _ _ _ _ Hq Hneg Hw) as (Ht & E0 & E1 & Hbuf).
  split_and!.
  - rewrite ends_all_middle, Ht. unfold ends. by rewrite E0, E1.
  - rewrite Ht. apply Forall_middle. split; [|done]. exists q. unfold on_pipe. by rewrite E0, E1.
  - rewrite Ht. intros [Hle Hk]%Hp. unfold got_count. case_decide as Hd.
    + assert (q = p) as -> by (destruct Hq as [[]]; congruence).
      eapply wait_spec in Hw; [|exact Hq|done|exact Hk].
      destruct r as [v|x|]; simpl; [|destruct Hw as (-> & _); split; [lia|f_equal; lia]|done].
      destruct Hw as (k & Ek & -> & _). split; [lia|f_equal; lia].
    + rewrite Hbuf, Hk by done. split; [lia|f_equal; lia].
Qed.

Lemma sync_step_inv b p c c' :
  b !! (-1) = None → sync_step p c c' → sync_inv b p c → sync_inv b p c'.
Proof.
  intros Hb. destruct 1 as [os w o w' c Hc|os w x w' c Hc|os w q o w' c Hq Hc|os1 o os2 w q o' w' c Hq Hc
    |os1 o os2 w [s g]|os o d w r w' s g Ho Hc|os1 o os2 d w r o' w' s g Hc];
    eauto using sync_inv_assign, sync_inv_signal, sync_inv_wait; intros Hinv.
  - exact (sync_inv_ctor _ _ _ _ _ _ _ Hc Hinv).
  - exact (sync_inv_ctor _ _ _ _ _ _ _ Hc Hinv).
  - pose proof Hinv as Hi. destruct c as [s g], Hi as (HL & Hos & _).
    destruct (proj1 (Forall_forall _ _) Hos q Hq) as [pq Hpq].
    eapply copy_moves in Hc as [(H1 & H2 & H3) H4]; [|exact Hb|left; exact Hpq|exact HL].
    eapply sync_inv_quiet; [exact Hinv|exact H3|exact H1|].
    constructor; [eauto|by eapply Forall_keeps].
  - destruct (sync_inv_objects _ _ _ _ _ _ _ _ Hinv) as (HL & _ & Hos).
    destruct (dtor_moves b _ o w Hb HL) as (H1 & H2 & H3).
    eapply sync_inv_quiet; [exact Hinv|exact H3|exact H1|by eapply Forall_keeps].
Qed.

(** C29: in every program over [CrossProcessSync] objects (construction, copy, assignment,
    destruction, signals and waits of any duration, in any order and with any system call
    failing) no ready signal is lost, duplicated or torn: while this process can read a
    pipe it made, the pipe holds exactly the signals sent and not yet collected, so never
    more are collected than were sent; and the descriptor table is the initial one plus
    exactly what the live objects hold, so nothing is leaked or closed twice. *)
Theorem sync_conserves_signals p w os w' sent got :
  fd_table w !! (-1) = None → pipe_unused p (fd_table w) →
  rtc (sync_step p) ([], w, (0, 0)%nat) (os, w', (sent, got)) →
  owns (fd_table w) (ends_all os) (fd_table w') ∧
  (readable p (fd_table w') → (got ≤ sent)%nat ∧ buffer w' p = signals (sent - got)).
Proof.
  intros Hneg Hun Hr. assert (sync_inv (fd_table w) p (os, w', (sent, got))) as (H1 & _ & H2); [|done].
  assert (sync_inv (fd_table w) p ([], w, (0, 0)%nat)) as Hinv.
  { split_and!; [by apply owns_nil|constructor|]. intros [fd Hfd]. by destruct (Hun fd). }
  revert Hinv. generalize dependent (os, w', (sent, got)). induction 1; eauto using sync_step_inv.
Qed.

(** Assigning an object to itself is not a no-op: both ends are closed before they are
    duplicated, so the object is left without a pipe. *)
Theorem sync_self_assignment o w o' w' :
  CrossProcessSync.assign o o w = (o', w') →
  ends o' = [] ∧ CrossProcessSync.counter o' = CrossProcessSync.counter o ∧
  fd_table w' = fd_table (CrossProcessSync.dtor o w).
Proof.
  intros Ha. change (CrossProcessSync.copy o (CrossProcessSync.dtor o w) = (o', w')) in Ha.
  destruct (dtor_gone o w) as [G0 G1]. generalize dependent (CrossProcessSync.dtor o w). intros v Ha G0 G1.
  unfold CrossProcessSync.copy in Ha. destruct (sys_dup _ v) as [n0 w1] eqn:E0.
  destruct (sys_dup _ w1) as [n1 w2] eqn:E1. injection Ha as <- <-.
  apply dup_law in E0 as [[-> T0]|(_ & _ & x & Hx & _)]; [|congruence].
  apply dup_law in E1 as [[-> T1]|(_ & _ & x & Hx & _)]; [|congruence].
  split_and!; [done|done|congruence].
Qed.
End protocol.

(** ** Witnesses *)

Lemma sync_step_to {W} `{Errno W, FdKernel W, PipeIO W} p (c c1 c2 : sync_state (W := W)) :
  sync_step p c c1 → c1 = c2 → sync_step p c c2.
Proof. by intros ? <-. Qed.

Definition sync_base : list (Z * Ofd) := [(0, OtherFile 0); (1, OtherFile 1)].
Definition sync_start : RefSync.t :=
  RefSync.mk (Ref.mk (list_to_map sync_base) 0 16 1 5 10 ∅ [] ∅ [] [] []) ∅.

Definition sync_obj : CrossProcessSync.t := CrossProcessSync.mk 2 3 0.
Definition sync_ex1 : RefSync.t := (CrossProcessSync.ctor sync_start).2.
Definition sync_ex2 : CrossProcessSync.t * RefSync.t := CrossProcessSync.copy sync_obj sync_ex1.
Definition sync_ex3 : RefSync.t := (CrossProcessSync.try_signal_ready_for sync_ex2.1 5 sync_ex2.2).2.
Definition sync_ex4 : RefSync.t := (CrossProcessSync.try_signal_ready_for sync_obj 5 sync_ex3).2.
Definition sync_ex5 : RefSync.t := CrossProcessSync.dtor sync_obj sync_ex4.
Definition sync_ex6 := (CrossProcessSync.wait_for_signal_ready_for 5 (sync_ex2.1, sync_ex5)).2.

(** An object is made and copied, both signal, the first one is destroyed and the copy
    waits once: one signal is left and the table has grown by the copy's two ends. *)
Lemma sync_conserves_signals_witness :
  rtc (sync_step 2) ([], sync_start, (0, 0)%nat) ([sync_ex6.1], sync_ex6.2, (2, 1)%nat) ∧
  owns (fd_table sync_start) [4; 5] (fd_table sync_ex6.2) ∧ buffer sync_ex6.2 2%positive = signals 1.
Proof.
  assert (rtc (sync_step 2) ([], sync_start, (0, 0)%nat) ([sync_ex6.1], sync_ex6.2, (2, 1)%nat)) as Hr.
  { assert (sync_step 2 ([], sync_start, (0, 0)%nat) ([sync_obj], sync_ex1, (0, 0)%nat)) as S1
      by (eapply sync_step_to; [apply (sync_ctor 2 [] sync_start sync_obj sync_ex1 (0, 0)%nat)|]; vm_compute; reflexivity).
    assert (sync_step 2 ([sync_obj], sync_ex1, (0, 0)%nat) ([sync_ex2.1; sync_obj], sync_ex2.2, (0, 0)%nat)) as S2
      by (apply (sync_copy 2 _ _ sync_obj); [by left|vm_compute; reflexivity]).
    assert (sync_step 2 ([sync_ex2.1; sync_obj], sync_ex2.2, (0, 0)%nat) ([sync_ex2.1; sync_obj], sync_ex3, (1, 0)%nat)) as S3
      by (eapply sync_step_to; [apply (sync_signal 2 _ sync_ex2.1 5 sync_ex2.2 (Ok tt) sync_ex3 0 0)|]; [by left|vm_compute; reflexivity..]).
    assert (sync_step 2 ([sync_ex2.1; sync_obj], sync_ex3, (1, 0)%nat) ([sync_ex2.1; sync_obj], sync_ex4, (2, 0)%nat)) as S4
      by (eapply sync_step_to; [apply (sync_signal 2 _ sync_obj 5 sync_ex3 (Ok tt) sync_ex4 1 0)|]; [by right; left|vm_compute; reflexivity..]).
    assert (sync_step 2 ([sync_ex2.1; sync_obj], sync_ex4, (2, 0)%nat) ([sync_ex2.1], sync_ex5, (2, 0)%nat)) as S5
      by exact (sync_dtor 2 [sync_ex2.1] sync_obj [] _ _).
    assert (sync_step 2 ([sync_ex2.1], sync_ex5, (2, 0)%nat) ([sync_ex6.1], sync_ex6.2, (2, 1)%nat)) as S6
      by (eapply sync_step_to; [apply (sync_wait 2 [] sync_ex2.1 [] 5 sync_ex5 (Ok 1) sync_ex6.1 sync_ex6.2 2 0)|]; vm_compute; reflexivity).
    eauto 7 using rtc_l, rtc_refl. }
  destruct (sync_conserves_signals (LF := RefSync.fd_sync_laws) (LO := RefSync.io_laws)
    2 sync_start [sync_ex6.1] sync_ex6.2 2 1 eq_refl) as [H1 H2]; [|exact Hr|].
  - intros fd. change (fd_table sync_start) with (list_to_map (M := gmap Z Ofd) sync_base).
    split; intros Hfd; apply elem_of_list_to_map_2 in Hfd; unfold sync_base in Hfd;
      repeat (apply elem_of_cons in Hfd as [Hfd|Hfd]; [discriminate|]); by apply elem_of_nil in Hfd.
  - split_and!; [exact Hr|exact H1|]. apply H2. exists 4. vm_compute. reflexivity.
Defined.

Lemma sync_self_assignment_witness :
  ends sync_obj = [2; 3] ∧ ends (CrossProcessSync.assign sync_obj sync_obj sync_ex1).1 = [].
Proof.
  split; [reflexivity|].
  apply (sync_self_assignment (LF := RefSync.fd_sync_laws) sync_obj sync_ex1 _ _ (surjective_pairing _)).
Defined.
