(* ===== verification/SyncProcesses.v ===== *)
(** * CrossProcessSync between processes

    A [CrossProcessSync] ([src/core/testing/cross_process_sync.cpp]) is made before a fork and
    then used on both sides: the processes have descriptor tables of their own and share the
    pipe.  The operations are interleaved at the system calls that other processes can see:
    the poll, and the write or read that follows it, are two steps of [try_signal_ready_for]
    and [wait_for_signal_ready_for].  A context switch is a parameter of the kernel
    ([Scheduler]). *)

From S2P Require Import Prelude.
From S2P Require Import Types.
From S2P Require Import CppString.
From S2P Require Import Kernel.
From S2P Require Import RefKernel.
From S2P Require Import Extend.
From S2P Require Import PipeIO.
From S2P Require Import Pipe.
From S2P Require Import CrossProcessSync.
From S2P Require Import SyncProtocol.

Module SyncProcesses.

(** Where a process is in the code of the class: outside, or past the poll of one of its
    objects (by position). *)
Inductive phase : Type :=
| Running
| Signalling (n : nat)
| Waiting (n : nat).

Record process : Type := mkProcess { objects : list CrossProcessSync.t; table : gmap Z Ofd; at_ : phase }.

(** [counter += value;] *)
Definition count_up (o : CrossProcessSync.t) (value : Z) : CrossProcessSync.t :=
  CrossProcessSync.mk (CrossProcessSync.fds0 o) (CrossProcessSync.fds1 o)
    (u32 (CrossProcessSync.counter o + value)).

Section steps.
Context {W : Type} {E : Errno W} {K : FdKernel W} {O : PipeIO W} {Sc : Scheduler W}.

(** The objects and the phase of the running process, the kernel, and the numbers of signals
    sent and collected by all processes. *)
Definition local_state : Type := list CrossProcessSync.t * phase * W * (nat * nat).

(** The process goes on to the write or read, or the poll throws. *)
Definition polled (rc : Z) (ph : phase) : phase := if 0 <? rc then ph else Running.

(** The value was read whole and is the one signals have. *)
Definition is_signal (n : Z) (data : list Z) : bool :=
  (CrossProcessSync.sizeof_value =? n) && (CrossProcessSync.value_of data =? 1).

Inductive local_step : local_state → local_state → Prop :=
| local_copy os w q o w' c :
    q ∈ os → CrossProcessSync.copy q w = (o, w') → local_step (os, Running, w, c) (o :: os, Running, w', c)
| local_assign os1 o os2 w q o' w' c :
    q ∈ os1 ++ o :: os2 → CrossProcessSync.assign o q w = (o', w') →
    local_step (os1 ++ o :: os2, Running, w, c) (os1 ++ o' :: os2, Running, w', c)
| local_dtor os1 o os2 w c :
    local_step (os1 ++ o :: os2, Running, w, c) (os1 ++ os2, Running, CrossProcessSync.dtor o w, c)
| local_poll_out os n o d w rc w' c :
    os !! n = Some o → sys_poll (CrossProcessSync.fds1 o) false (i32 d) w = (rc, w') →
    local_step (os, Running, w, c) (os, polled rc (Signalling n), w', c)
| local_write os n o w k w' s g :
    os !! n = Some o → sys_write (CrossProcessSync.fds1 o) (CrossProcessSync.bytes_of 1) w = (k, w') →
    local_step (os, Signalling n, w, (s, g))
      (os, Running, w', ((if CrossProcessSync.sizeof_value =? k then S s else s), g))
| local_poll_in os n o d w rc w' c :
    os !! n = Some o → sys_poll (CrossProcessSync.fds0 o) true (i32 d) w = (rc, w') →
    local_step (os, Running, w, c) (os, polled rc (Waiting n), w', c)
| local_read os n o w k data w' s g :
    os !! n = Some o → sys_read (CrossProcessSync.fds0 o) CrossProcessSync.sizeof_value w = ((k, data), w') →
    local_step (os, Waiting n, w, (s, g))
      (if is_signal k data then <[n := count_up o (CrossProcessSync.value_of data)]> os else os,
       Running, w', (s, if is_signal k data then S g else g)).

(** The processes, the kernel, and the counts. *)
Record system : Type := mkSystem { procs : gmap nat process; kernel : W; counts : nat * nat }.

(** One process makes a step; fork(2) copies the memory and the table; a process ends. *)
Inductive step : system → system → Prop :=
| step_run ps w c j pr os' ph' w' c' :
    ps !! j = Some pr →
    local_step (objects pr, at_ pr, schedule (table pr) w, c) (os', ph', w', c') →
    step (mkSystem ps w c) (mkSystem (<[j := mkProcess os' (fd_table w') ph']> ps) w' c')
| step_fork ps w c j k pr :
    ps !! j = Some pr → at_ pr = Running → ps !! k = None →
    step (mkSystem ps w c) (mkSystem (<[k := pr]> ps) w c)
| step_exit ps w c j :
    step (mkSystem ps w c) (mkSystem (delete j ps) w c).

End steps.
End SyncProcesses.

(** ** A call of one process, undisturbed, is the sequential definition *)

Section alone.
Context {W : Type} {E : Errno W} {K : FdKernel W} {O : PipeIO W}.

Lemma signal_alone (o : CrossProcessSync.t) d (w : W) :
  CrossProcessSync.try_signal_ready_for o d w =
    let '(rc, w1) := sys_poll (CrossProcessSync.fds1 o) false (i32 d) w in
    if 0 <? rc then
      let '(k, w2) := sys_write (CrossProcessSync.fds1 o) (CrossProcessSync.bytes_of 1) w1 in
      (if CrossProcessSync.sizeof_value =? k then Ok tt else Throw (SystemError (errno w2)), w2)
    else (Throw (if rc =? 0 then Timeout else SystemError (errno w1)), w1).
Proof.
  unfold CrossProcessSync.try_signal_ready_for, mbind, M_bind, call, throw_errno, throw.
  destruct (sys_poll _ _ _ w) as [rc w1]. destruct (Z.ltb_spec rc 0), (Z.ltb_spec 0 rc), (Z.eqb_spec rc 0); try lia; try done.
  destruct (sys_write _ _ w1) as [k w2]. by destruct (_ =? k).
Qed.

Lemma wait_alone (o : CrossProcessSync.t) d (w : W) :
  CrossProcessSync.wait_for_signal_ready_for d (o, w) =
    let '(rc, w1) := sys_poll (CrossProcessSync.fds0 o) true (i32 d) w in
    if 0 <? rc then
      let '((k, data), w2) := sys_read (CrossProcessSync.fds0 o) CrossProcessSync.sizeof_value w1 in
      if SyncProcesses.is_signal k data then
        let o' := SyncProcesses.count_up o (CrossProcessSync.value_of data) in
        (Ok (CrossProcessSync.counter o'), (o', w2))
      else (Throw (SystemError (errno w2)), (o, w2))
    else (Throw (if rc =? 0 then Timeout else SystemError (errno w1)), (o, w1)).
Proof.
  unfold CrossProcessSync.wait_for_signal_ready_for, mbind, M_bind, call, throw_errno, throw. cbn [fst snd].
  destruct (sys_poll _ _ _ w) as [rc w1]. destruct (Z.ltb_spec rc 0), (Z.ltb_spec 0 rc), (Z.eqb_spec rc 0); try lia; try done.
  destruct (sys_read _ _ w1) as [[k data] w2]. unfold SyncProcesses.is_signal.
  destruct (_ =? k); [|done]. by destruct (_ =? 1).
Qed.
End alone.

(** ** The books of one process *)

Section books.
Context {W : Type} {E : Errno W} {K : FdKernel W} {O : PipeIO W} {Sc : Scheduler W}.
Context {LF : FdLaws W} {LO : PipeIOLaws W} {LS : SchedulerLaws W}.
Implicit Types (w : W) (o : CrossProcessSync.t) (os : list CrossProcessSync.t) (b : gmap Z Ofd) (s g : nat).

(** Copies, assignments and destructions leave the bytes of every pipe alone. *)
Lemma copy_buffer q w o w' : CrossProcessSync.copy q w = (o, w') → ∀ p, buffer w' p = buffer w p.
Proof.
  unfold CrossProcessSync.copy. destruct (sys_dup _ w) as [a w1] eqn:E1. destruct (sys_dup _ w1) as [c w2] eqn:E2.
  intros [= _ <-] p. by rewrite (dup_buffer_law _ _ _ _ E2), (dup_buffer_law _ _ _ _ E1).
Qed.

Lemma copy_counter q w o w' :
  CrossProcessSync.copy q w = (o, w') → CrossProcessSync.counter o = CrossProcessSync.counter q.
Proof.
  unfold CrossProcessSync.copy. destruct (sys_dup _ w) as [a w1]. destruct (sys_dup _ w1). by intros [= <- _].
Qed.

Lemma dtor_buffer o w p : buffer (CrossProcessSync.dtor o w) p = buffer w p.
Proof.
  unfold CrossProcessSync.dtor. destruct (sys_close _ w) as [a w1] eqn:E1. simpl.
  destruct (sys_close _ w1) as [c w2] eqn:E2. simpl.
  by rewrite (close_shared_law _ _ _ _ _ E2), (close_shared_law _ _ _ _ _ E1).
Qed.

Lemma assign_buffer o q w o' w' : CrossProcessSync.assign o q w = (o', w') → ∀ p, buffer w' p = buffer w p.
Proof.
  change (CrossProcessSync.assign o q w) with (CrossProcessSync.copy q (CrossProcessSync.dtor o w)).
  intros H p. by rewrite (copy_buffer _ _ _ _ H), dtor_buffer.
Qed.

(** An object has counted no more signals than were collected. *)
Definition counted g o : Prop := ∃ n, (n ≤ g)%nat ∧ CrossProcessSync.counter o = u32 (Z.of_nat n).

(** The table is the base plus what the objects hold, and all of them are on pipe [p]. *)
Definition process_ok b p g os (T : gmap Z Ofd) : Prop :=
  owns b (ends_all os) T ∧ Forall (on_pipe p T) os ∧ Forall (counted g) os.

(** The pipe holds what was sent and not collected. *)
Definition pipe_ok (p : positive) w s g : Prop := (g ≤ s)%nat ∧ buffer w p = signals (s - g).

Lemma counted_mono g g' o : (g ≤ g')%nat → counted g o → counted g' o.
Proof. intros Hle (n & Hn & Hc). exists n. split; [lia|done]. Qed.

Lemma process_ok_mono b p g g' os T : (g ≤ g')%nat → process_ok b p g os T → process_ok b p g' os T.
Proof. intros Hle (H1 & H2 & H3). split_and!; [done..|]. eapply Forall_impl; [exact H3|]. eauto using counted_mono. Qed.

Lemma Forall_on_pipe p T T' os :
  keeps (ends_all os) T T' → Forall (on_pipe p T) os → Forall (on_pipe p T') os.
Proof.
  intros HT Hos. rewrite Forall_forall in *. intros o Ho. eapply on_pipe_keeps; [|by apply Hos].
  intros fd Hfd. apply HT. unfold ends_all. apply list_elem_of_bind. eauto.
Qed.

(** [count_up] keeps the ends. *)
Lemma ends_count_up os n o v : os !! n = Some o → ends_all (<[n := SyncProcesses.count_up o v]> os) = ends_all os.
Proof.
  revert n. induction os as [|o' os IH]; intros [|n] Hn; simpl in *; [done|done| |].
  - injection Hn as ->. done.
  - unfold ends_all in *. simpl. by rewrite IH.
Qed.

(** One signal more is in the pipe. *)
Lemma write_books b p g os o w k w' s :
  b !! (-1) = None → process_ok b p g os (fd_table w) → pipe_ok p w s g → o ∈ os →
  sys_write (CrossProcessSync.fds1 o) (CrossProcessSync.bytes_of 1) w = (k, w') →
  process_ok b p g os (fd_table w') ∧ pipe_ok p w' (if CrossProcessSync.sizeof_value =? k then S s else s) g.
Proof.
  intros Hb (HL & Hos & Hc) [Hle Hbuf] Ho Hw. rewrite Forall_forall in Hos. destruct (Hos o Ho) as [_ H1].
  destruct H1 as [H1|H1].
  - rewrite H1 in Hw. apply write_bad_law in Hw as (-> & -> & Hq); [|by eapply owns_no_neg].
    split; [by split_and!; [done|apply Forall_forall|]|]. simpl. split; [done|]. by rewrite Hq.
  - eapply write_law in Hw as [[-> _] Hcase]; [|simpl; lia|exact H1].
    split; [by split_and!; [done|apply Forall_forall|]|].
    destruct Hcase as [[-> Hp]|[-> Hp]]; simpl; (split; [lia|]); rewrite Hp, Hbuf; [done|].
    change (CrossProcessSync.bytes_of 1) with (signals 1). rewrite signals_app. f_equal. lia.
Qed.

(** One signal is taken out of the pipe, by the object that counts it. *)
Lemma read_books b p g os n o w k data w' s :
  b !! (-1) = None → process_ok b p g os (fd_table w) → pipe_ok p w s g → os !! n = Some o →
  sys_read (CrossProcessSync.fds0 o) CrossProcessSync.sizeof_value w = ((k, data), w') →
  let ok := SyncProcesses.is_signal k data in
  let g' := if ok then S g else g in
  process_ok b p g' (if ok then <[n := SyncProcesses.count_up o (CrossProcessSync.value_of data)]> os else os)
    (fd_table w') ∧ pipe_ok p w' s g'.
Proof.
  intros Hb Hok [Hle Hbuf] Hn Hr. pose proof Hok as (HL & Hos & Hc).
  assert (on_pipe p (fd_table w) o) as Ho by (rewrite Forall_forall in Hos; apply Hos; by eapply list_elem_of_lookup_2).
  assert (fd_table w' = fd_table w) as Ht.
  { destruct Ho as [[H0|H0] _]; [rewrite H0 in Hr; by apply read_bad_law in Hr as (_ & ? & _); [|by eapply owns_no_neg]|].
    by eapply read_law in Hr as [[? _] _]. }
  assert ((SyncProcesses.is_signal k data = false ∧ buffer w' p = buffer w p) ∨
    (SyncProcesses.is_signal k data = true ∧ CrossProcessSync.value_of data = 1 ∧
     ∃ m, (s - g)%nat = S m ∧ buffer w' p = signals m)) as [[-> Hp]|(-> & Hv & m & Hm & Hp)].
  { destruct Ho as [[H0|H0] _].
    - rewrite H0 in Hr. apply read_bad_law in Hr as (-> & _ & Hq); [left; by rewrite Hq|by eapply owns_no_neg].
    - eapply read_law in Hr as [_ [[-> Hp]|(Hdata & Hk & Hp)]]; [by left| |exact H0].
      rewrite Hbuf in Hdata, Hp. destruct (s - g)%nat as [|m] eqn:Em; simpl in Hdata, Hp; subst data k.
      + left. by rewrite Hp, Hbuf.
      + right. split; [done|]. split; [done|]. by exists m. }
  - simpl. rewrite Ht. split; [done|]. split; [done|congruence].
  - simpl. rewrite Ht, Hv. split; [|split; [lia|rewrite Hp; f_equal; lia]]. split_and!.
    + by rewrite ends_count_up.
    + by apply Forall_insert.
    + apply Forall_insert; [eapply Forall_impl; [exact Hc|]; intros; eapply counted_mono; [|done]; lia|].
      rewrite Forall_forall in Hc. destruct (Hc o) as (c & Hcg & Hco); [by eapply list_elem_of_lookup_2|].
      exists (S c). split; [lia|]. simpl. rewrite Hco. rewrite Nat2Z.inj_succ. unfold uwrap.
      rewrite Zplus_mod_idemp_l. done.
Qed.

(** Every step of a process keeps its books. *)
Lemma local_books b p os ph w s g os' ph' w' s' g' :
  b !! (-1) = None → process_ok b p g os (fd_table w) → pipe_ok p w s g →
  SyncProcesses.local_step (os, ph, w, (s, g)) (os', ph', w', (s', g')) →
  (g ≤ g')%nat ∧ process_ok b p g' os' (fd_table w') ∧ pipe_ok p w' s' g'.
Proof.
  intros Hb Hok [Hle Hbuf] Hst. pose proof Hok as (HL & Hos & Hc).
  inversion Hst as [os0 w0 q o w1 c Hq Hcp|os1 o os2 w0 q o' w1 c Hq Ha|os1 o os2 w0 c
    |os0 n o d w0 rc w1 c Hn Hp|os0 n o w0 k w1 s0 g0 Hn Hw|os0 n o d w0 rc w1 c Hn Hp
    |os0 n o w0 k data w1 s0 g0 Hn Hr]; subst.
  - destruct (proj1 (Forall_forall _ _) Hos q Hq) as [Hq0 Hq1].
    pose proof (copy_buffer _ _ _ _ Hcp) as Hb'.
    pose proof (copy_counter _ _ _ _ Hcp) as Hco.
    eapply copy_moves in Hcp as [(H1 & H2 & _) H4]; [|exact Hb|left; split; [exact Hq0|exact Hq1]|exact HL].
    split; [done|]. split; [|split; [done|by rewrite Hb']]. split_and!; [done| |].
    + constructor; [done|by eapply Forall_on_pipe].
    + constructor; [|done]. destruct (proj1 (Forall_forall _ _) Hc q Hq) as (m & Hm & Hmc). exists m. by rewrite Hco.
  - destruct (proj1 (Forall_forall _ _) Hos q Hq) as [Hq0 Hq1].
    pose proof (assign_buffer _ _ _ _ _ Ha) as Hb'. rewrite ends_all_middle in HL.
    pose proof (copy_counter q (CrossProcessSync.dtor o w) _ _ Ha) as Hco.
    eapply assign_moves in Ha as [(H1 & H2 & _) H4]; [|exact Hb|split; [exact Hq0|exact Hq1]| |exact HL].
    + split; [done|]. split; [|split; [done|by rewrite Hb']].
      apply Forall_middle in Hos as [_ Hos]. pose proof Hc as Hc'. apply Forall_middle in Hc' as [_ Hc'].
      split_and!; [by rewrite ends_all_middle| |].
      * apply Forall_middle. split; [done|by eapply Forall_on_pipe].
      * apply Forall_middle. split; [|done]. destruct (proj1 (Forall_forall _ _) Hc q Hq) as (m & Hm & Hmc).
        exists m. by rewrite Hco.
    + apply elem_of_app in Hq. rewrite elem_of_cons in Hq.
      destruct Hq as [Hq|[->|Hq]]; [right|by left|right]; unfold ends_all; set_solver.
  - rewrite ends_all_middle in HL. destruct (dtor_moves b _ o w Hb HL) as (H1 & H2 & _).
    apply Forall_middle in Hos as [_ Hos]. apply Forall_middle in Hc as [_ Hc].
    split; [done|]. split; [|split; [done|by rewrite dtor_buffer]]. split_and!; [done|by eapply Forall_on_pipe|done].
  - apply poll_law in Hp as [-> Hq]. split; [done|]. split; [done|]. split; [done|by rewrite Hq].
  - split; [done|]. by eapply write_books; [..|by eapply list_elem_of_lookup_2|].
  - apply poll_law in Hp as [-> Hq]. split; [done|]. split; [done|]. split; [done|by rewrite Hq].
  - split; [destruct (SyncProcesses.is_signal k data); lia|]. by eapply read_books.
Qed.

(** ** All processes *)

(** Every process keeps its books, and they agree on the pipe. *)
Definition system_ok b p (sys : SyncProcesses.system (W := W)) : Prop :=
  let '(s, g) := SyncProcesses.counts sys in
  (∀ j pr, SyncProcesses.procs sys !! j = Some pr →
     process_ok b p g (SyncProcesses.objects pr) (SyncProcesses.table pr)) ∧
  pipe_ok p (SyncProcesses.kernel sys) s g.

Lemma system_step b p sys sys' :
  b !! (-1) = None → SyncProcesses.step sys sys' → system_ok b p sys → system_ok b p sys'.
Proof.
  intros Hb. destruct 1 as [ps w [s g] j pr os' ph' w' [s' g'] Hj Hst|ps w [s g] j k pr Hj _ Hk|ps w [s g] j];
    intros [Hall Hp]; simpl in *.
  - eapply (local_books b p) in Hst as (Hle & Hok & Hp'); [|exact Hb| |].
    + split; [|done]. simpl. intros i q [[<- <-]|[_ Hi]]%lookup_insert_Some; [done|]. eapply process_ok_mono; eauto.
    + rewrite schedule_table. eauto.
    + destruct Hp as [Hle Hbuf]. split; [done|]. by rewrite schedule_buffer.
  - split; [|done]. simpl. intros i q [[<- <-]|[_ Hi]]%lookup_insert_Some; eauto.
  - split; [|done]. simpl. intros i q [_ Hi]%lookup_delete_Some. eauto.
Qed.

(** One process with one object, whose pipe is empty. *)
Definition first_process o (w : W) : SyncProcesses.system :=
  SyncProcesses.mkSystem {[ 0%nat := SyncProcesses.mkProcess [o] (fd_table w) SyncProcesses.Running ]} w (0, 0)%nat.

Lemma system_start w o w1 p :
  CrossProcessSync.ctor w = (Ok o, w1) → fd_table w1 !! CrossProcessSync.fds0 o = Some (PipeRead p) →
  system_ok (fd_table w) p (first_process o w1).
Proof.
  intros Hc Hp. assert (CrossProcessSync.counter o = 0) as Hcnt.
  { unfold CrossProcessSync.ctor, mbind, M_bind, call, throw_errno in Hc. destruct (sys_pipe w) as [[rc [r x]] w2].
    destruct (rc <? 0); [done|]. by injection Hc as <- _. }
  apply sync_ctor_spec in Hc as [(x & [=] & _)|(o' & q & [= <-] & Ho & Hbuf & H0 & HL & _)].
  assert (q = p) as -> by congruence.
  destruct (HL (fd_table w) [] (proj2 (owns_nil _ _) eq_refl)) as [Ho1 _].
  split; [|done]. simpl. intros j pr [<- <-]%lookup_singleton_Some. split_and!; [done|by constructor|].
  constructor; [|constructor]. by exists 0%nat.
Qed.

(** C22: a [CrossProcessSync] made before forking connects the processes: however their calls
    interleave, with forks, ends of processes and failing system calls in between, the
    pipe holds exactly the signals that all of them have sent and not yet collected; so
    no signal is lost or duplicated on its way from one process to another, and no object
    has counted more than were collected.  Each process holds the ends of its own objects
    and nothing else. *)
Theorem sync_across_processes w o w1 p sys :
  fd_table w !! (-1) = None → CrossProcessSync.ctor w = (Ok o, w1) →
  fd_table w1 !! CrossProcessSync.fds0 o = Some (PipeRead p) →
  rtc SyncProcesses.step (first_process o w1) sys →
  let '(sent, got) := SyncProcesses.counts sys in
  (got ≤ sent)%nat ∧ buffer (SyncProcesses.kernel sys) p = signals (sent - got) ∧
  ∀ j pr, SyncProcesses.procs sys !! j = Some pr →
    owns (fd_table w) (ends_all (SyncProcesses.objects pr)) (SyncProcesses.table pr) ∧
    ∀ q, q ∈ SyncProcesses.objects pr → on_pipe p (SyncProcesses.table pr) q ∧
      ∃ n, (n ≤ got)%nat ∧ CrossProcessSync.counter q = u32 (Z.of_nat n).
Proof.
  intros Hneg Hc Hp Hr.
  assert (system_ok (fd_table w) p sys) as Hok.
  { pose proof (system_start w o w1 p Hc Hp) as Hstart. induction Hr; eauto using system_step. }
  unfold system_ok in Hok. destruct (SyncProcesses.counts sys) as [sent got]. destruct Hok as [Hall [Hle Hbuf]].
  split_and!; [done..|]. intros j pr Hj. destruct (Hall j pr Hj) as (H1 & H2 & H3). rewrite Forall_forall in H2, H3.
  split; [done|]. intros q Hq. split; [by apply H2|by apply H3].
Qed.
End books.

(** ** Witnesses *)

(** One step of process [j] whose outcome is computed. *)
Tactic Notation "run_process" constr(j) uconstr(rule) :=
  eapply rtc_l; [eapply (SyncProcesses.step_run _ _ _ j); [vm_compute; reflexivity|eapply rule; vm_compute; reflexivity]|].

(** The child (1) signals and the parent (0) collects it. *)
Lemma sync_across_processes_witness :
  ∃ sys, rtc SyncProcesses.step (first_process sync_obj sync_ex1) sys ∧ SyncProcesses.counts sys = (1, 1)%nat ∧
    buffer (SyncProcesses.kernel sys) 2%positive = signals 0.
Proof.
  assert (∃ sys, rtc SyncProcesses.step (first_process sync_obj sync_ex1) sys ∧ SyncProcesses.counts sys = (1, 1)%nat)
    as (sys & Hr & Hc).
  { eexists. split.
    - eapply rtc_l; [eapply (SyncProcesses.step_fork _ _ _ 0%nat 1%nat); vm_compute; reflexivity|].
      run_process 1%nat (SyncProcesses.local_poll_out _ 0%nat _ 5).
      run_process 1%nat (SyncProcesses.local_write _ 0%nat).
      run_process 0%nat (SyncProcesses.local_poll_in _ 0%nat _ 5).
      run_process 0%nat (SyncProcesses.local_read _ 0%nat). apply rtc_refl.
    - vm_compute. reflexivity. }
  exists sys. split; [exact Hr|]. split; [exact Hc|].
  pose proof (sync_across_processes (LF := RefSync.fd_sync_laws) (LO := RefSync.io_laws) (LS := ref_schedule_laws)
    sync_start sync_obj sync_ex1 2 sys eq_refl ltac:(vm_compute; reflexivity) ltac:(vm_compute; reflexivity) Hr) as H.
  rewrite Hc in H. apply H.
Defined.

(** The poll and the read are two calls: when two processes wait, both polls can report the
    one signal; after the first read the second process is past its poll with nothing to
    read, where read(2) blocks whatever the duration it asked for. *)
Theorem waiter_overtaken :
  ∃ sys pr, rtc SyncProcesses.step (first_process sync_obj sync_ex1) sys ∧
    SyncProcesses.procs sys !! 1%nat = Some pr ∧ SyncProcesses.at_ pr = SyncProcesses.Waiting 0 ∧
    buffer (SyncProcesses.kernel sys) 2%positive = [].
Proof.
  eexists _, _. split.
  - eapply rtc_l; [eapply (SyncProcesses.step_fork _ _ _ 0%nat 1%nat); vm_compute; reflexivity|].
    run_process 0%nat (SyncProcesses.local_poll_out _ 0%nat _ 5).
    run_process 0%nat (SyncProcesses.local_write _ 0%nat).
    run_process 1%nat (SyncProcesses.local_poll_in _ 0%nat _ 5).
    run_process 0%nat (SyncProcesses.local_poll_in _ 0%nat _ 5).
    run_process 0%nat (SyncProcesses.local_read _ 0%nat). apply rtc_refl.
  - split; [vm_compute; reflexivity|]. split; vm_compute; reflexivity.
Qed.
